(* ===== verification/_CoqProject ===== *)
-Q . S2P
Prelude.v
PySort.v
Tensor.v
HeadConfig.v
VisiblePlan.v
Storage.v
PageTable.v
SegPaged.v
Scalars.v
Attention.v
OfflineCache.v
PerHeadStorage.v
PdTransfer.v
MaskPlan.v
CachePolicy.v
SparseFFN.v
Allocator.v
RadixKey.v
RadixCache.v
RadixOps.v
RadixSpec.v
ReqPool.v
ReqCache.v
KvSystem.v
SchedulePolicy.v
PrefillAdder.v
Sampling.v
DecodeBatch.v
Scheduler.v
InvariantChecker.v
Streamer.v
Detokenizer.v
TokenizerManager.v
