(* ===== verification/Prelude.v ===== *)
(** * RedKnot: a verification of its KV-cache management

    RedKnot is an SGLang server with segment-wise reuse of KV caches.  All paths
    below are under [src/python/sglang/srt/]; [redknot/] stands for
    [layers/attention/redknot/].

    ** The program and its parts

    The server keeps the keys and values (KV) of every token in slots of device
    memory.  Two halves of the program decide what is kept where; a third brings the
    output to the clients.

    - The serving core.  A request table ([ReqToTokenPool]) maps a running request
      to its slots; an allocator ([TokenToKVPoolAllocator], or the paged one) hands
      out free slots; a radix tree ([RadixCache]) keeps the slots of finished
      prefixes for reuse, under locks and an eviction policy; the routines of
      [mem_cache/common.py] and the batch methods of [managers/schedule_batch.py]
      move slots between the three as requests enter, extend, decode, pause
      between chunks and leave.  The scheduler ([managers/scheduler.py] and
      [managers/scheduler_components/]) runs these in a loop: it queues requests,
      builds prefill batches, decodes, retracts when memory runs out, ends requests
      at their stop conditions and checks its own memory accounting.
    - The way back.  After each batch the scheduler reports the new tokens of its
      requests ([output_streamer.py]) to the detokenizer process
      ([managers/detokenizer_manager.py]), which turns them into pieces of text for
      the tokenizer manager ([managers/tokenizer_manager.py]), whose coroutines hand
      them to the clients.
    - RedKnot itself.  Attention heads are classified ([head_config.py]); a head
      of the local class only sees the first [sink] and the last [recent] tokens
      of a segment, so the KV of a segment is stored per head ([segpaged.py],
      [segpaged_v2/], [per_head_storage.py]), cached offline
      ([offline_cache.py]), shipped to decode workers per head class
      ([pd_transfer.py]) and attended to without a mask.  A capacity model and a
      chunk cache ([scheduler.py]), a dispatch plan per layer ([mask_plan.py]) and
      a token-selective FFN ([sparse_ffn.py]) complete it.

    ** Files

    - [Prelude]: exceptions as the error monad [result], Python lists, slices and
      ordered dictionaries, loops ([foldM]) with their loop rules, automation
      (database [redknot], [unbind], [run_bind], [run_gets], [len_lia]).
    - [PySort]: the orders Python compares sort keys by and the stable sort.
    - [Tensor]: tensors as nested lists of rows, with the indexing primitives.
    - [HeadConfig]: [redknot/head_config.py], class [HeadClassConfig].
    - [VisiblePlan]: [segpaged_v2/visible_plan.py] and the index routines of
      [segpaged.py] and [per_head_storage.py].
    - [Storage]: [segpaged_v2/storage.py]; the abstract backend is the class
      [KVStorageBackend] with its contract [KVStorageLaws], [LocalPagedPool] an
      instance.
    - [PageTable]: [segpaged_v2/page_table.py] and the builders of
      [segpaged_v2/attention.py], proved against the contract.
    - [SegPaged]: the store of [redknot/segpaged.py], a simulation of the former.
    - [Scalars], [Attention]: [segpaged_attention], [paged_attention], their fused
      forms and both dense masked references, over an interface of exact
      arithmetic whose instance is the reals with minus infinity and NaN.
    - [OfflineCache]: [redknot/offline_cache.py], class [OfflineKVCache].
    - [PerHeadStorage]: [redknot/per_head_storage.py].
    - [PdTransfer]: [redknot/pd_transfer.py].
    - [MaskPlan]: [redknot/mask_plan.py].
    - [CachePolicy]: [redknot/scheduler.py].
    - [SparseFFN]: [redknot/sparse_ffn.py].
    - [Allocator]: [mem_cache/allocator.py] with [get_num_new_pages] and
      [next_power_of_2] of [utils/common.py].
    - [RadixKey], [RadixCache]: [mem_cache/radix_cache.py] and
      [mem_cache/evict_policy.py]; nodes are objects in a heap, the clock is a
      stream of readings.  [RadixOps] relates each operation to the set of cached
      prefixes, [RadixSpec] states the contract.
    - [ReqPool]: [ReqToTokenPool] of [mem_cache/memory_pool.py] and the KV fields
      of [Req].
    - [ReqCache]: [cache_finished_req] and [cache_unfinished_req] of both
      prefix caches, [alloc_token_slots] and [release_kv_cache] of
      [mem_cache/common.py]; the class [PrefixCache] with [PrefixCacheLaws] is the
      interface, [RadixCache] and [ChunkCache] are its instances.
    - [KvSystem]: the transition system of the whole serving core: admission,
      batched extension and decode, caching between chunks, eviction, release.
    - [SchedulePolicy]: the order of the waiting queue, class [SchedulePolicy] of
      [managers/schedule_policy.py].
    - [PrefillAdder]: class [PrefillAdder] of the same file and the pass of
      [managers/scheduler.py] that builds a prefill batch; the class [LockCache]
      with [LockLaws] extends the interface of the cache by the temporary locks.
    - [Sampling]: [sampling/sampling_params.py] and the stop conditions of [Req].
    - [DecodeBatch]: the waiting queue and its limit, the memory check of a decode
      step, retraction and the token-ratio tracker ([managers/scheduler.py],
      [managers/schedule_batch.py], [new_token_ratio_tracker.py]).
    - [Scheduler]: one iteration of [event_loop_normal] with the results of a batch
      ([batch_result_processor.py]); the order of the queue is the class
      [QueuePolicy] with [QueueLaws], whose instance is [SchedulePolicy], and
      [FreeLaws] says that a cache frees slots without looking at the allocator.
    - [InvariantChecker]: [invariant_checker.py]; [SizeLaws] relates the counters of
      a cache to the slots it holds.

    - [Streamer]: [output_streamer.py] and [Req.init_incremental_detokenize]; the life
      of a request and of a server that reports batches, as step relations.
    - [Detokenizer]: [managers/detokenizer_manager.py], [find_printable_text] of
      [sglang/utils.py] and [utils/patch_tokenizer.py]; the class [TokenTexts] says what is
      assumed of a tokenizer (the text of whole characters does not depend on what
      follows, an unfinished character shows as U+FFFD), a small tokenizer is an instance.
    - [TokenizerManager]: [ReqState], [_handle_batch_output], [_wait_one_response] and
      [handle_loop] of [managers/tokenizer_manager.py], as a step relation that switches
      between coroutines at an [await].

    State is a record per class and passed explicitly; an exception is a value
    [Raise e].  Where objects are shared (tree nodes, offline segments) there is
    a heap or a table of objects and references into it.

    ** What is proved

    - The system ([KvSystem]): in every state reached by any interleaving of the
      steps, every slot of the allocator is in exactly one place (free, in the
      tree, or private to one request), so that no slot leaks, none is freed
      twice and none is shared by two writers.
    - The server ([Scheduler], [InvariantChecker]): from a fresh start, whatever
      requests arrive and whatever tokens the model returns, each iteration of the
      loop succeeds, except that it raises where the memory lacks one token for an
      unfinished chunk, or where a request has stop strings and the server no tokenizer;
      it keeps every slot accounted for, loses and doubles no request,
      and the server's own leak checks stay silent.
    - Decoding ([DecodeBatch]): a decode step never runs out of memory; those that
      are retracted have generated no more than those that stay, and wait again; a new request is
      refused, queued or put in place of the least preferred one, each in exactly the documented case.
    - Outputs ([Streamer], [Detokenizer], [TokenizerManager]): each token is reported
      once, the pieces of text add up to the output decoded at once and cut at the
      stop, and whatever the interleaving of messages and clients, a client whose
      generator has ended has received exactly the ids and the text of its request.
      Handling a message fails only where an optional column of it has no entry for a
      row, which [hidden_states_misaligned] shows to happen.  The text theorems have the conditions [plain_stream], and [ideograph_sent_twice]
      and [stop_string_half_sent] are streams that show why.
    - Stop conditions ([Sampling]): the parameters that are accepted, the reason a
      request ends with (or the error where there is no tokenizer), and that the tail of the output that is searched
      for a stop regex has more tokens than a match has characters.
    - Scheduling ([SchedulePolicy], [PrefillAdder]): the queue is reordered without
      loss in the order of the policy; of requests that share an uncached prefix one
      goes first; a prefill pass never runs out of memory and its assertion on
      [extend_input_len] holds; a request is refused for one of the documented reasons only,
      and admitted when none holds; preemption gives up the weakest
      requests, and only when that frees enough.
    - The radix cache ([RadixSpec]): [match_prefix] returns the longest cached
      prefix, [insert] is the extension of the set of cached prefixes, a match
      after an insert finds the inserted key, [evict] frees in policy order and
      reaches its target or leaves nothing evictable, locks protect, and an
      invariant of all reachable caches makes every operation succeed.
    - Requests and slots ([ReqPool], [ReqCache]): allocation succeeds exactly when
      free and evictable slots suffice and raises otherwise, release returns each
      slot once, caching a chunk keeps the request's view of its slots.
    - The allocators: the Triton extension kernel equals the reference routine,
      allocation is page-exact, pages are conserved, decode is a one-token extend.
    - The stores: what is stored is gathered back, restricted to the visible
      window; the three window routines agree; trimming and transfer round-trip
      and keep what the strategy of the head reads.
    - Attention: attending to the gathered rows equals dense masked attention, and
      the fused variable-length call equals the head-by-head path.
    - Policies: byte accounting and termination of the offline cache and of the chunk
      cache, which segments the device ceiling moves to the CPU and which chunks are
      evicted, what the capacity model counts, the dispatch plan, FFN selection.

    Theorems carry their number [C<n>] in the order of importance.  Facts that
    show a divergence of code and documentation are ordinary theorems of the same
    files ([store_twice_duplicates], [hot_chunk_evicted], and others).

    ** Fuel and bounds

    Loops whose recursion is not structural run on fuel, and the theorems state
    that they return: [match_loop] and [insert_loop] take one more than the length
    of the key (each turn consumes a token), [inc_loop] and [dec_loop] one more
    than the number of nodes (each turn goes to the parent), [evict_loop] the number of nodes (each
    turn deletes one), the depth-first order one more than the number of nodes
    (each call goes down), the offline cache one more than the number of
    segments (each nested call leaves one segment fewer on the device), the chunk cache the number of its entries.  Slots, lengths and byte
    counts are unbounded integers, as in Python; the Triton kernels compute on the
    same range, with loads past the free list reading zero.  Messages and clients are
    lists and relations without a bound; the detokenizer's table has the capacity of the server.

    ** Not modelled

    Floating-point rounding (attention is over exact arithmetic, scores and
    priorities over rationals); FA-3 and Triton attention kernels, which are
    parameters with their documented behaviour or outside; K and V whose last dimension is not
    [head_dim] in the stores; the drivers that run
    Hugging Face models; rotary relocation; profiling; in the event loop overlap, mixed chunks,
    pipelines, aborts by clients and timeouts; LoRA and prefill delays; host, sliding-window and mamba
    tiers of the caches; speculative decoding in the loop; on the way back the embedding and token-id
    messages, log-probability metadata and disconnecting clients; loading, servers and command
    lines.  The system and loop theorems are for single-slot pages, and the loop
    theorems without preemption; the paged and preempting branches are modelled, and the
    allocator and admission theorems cover them.

    ** What comes next

    That the unfinished chunk always has its memory when the radix cache is on,
    so that the loop never raises; the loop with preemption and with pages; the
    prefill delayer; the sliding-window tree; the loop and the reports in one
    transition system. *)

From stdpp Require Export prelude gmap strings list numbers sorting.
From Stdlib Require Export Lia.

(** * Exceptions and the error monad

    A Python call either returns a value or raises.  The exception classes are
    the ones the modelled code raises itself or through a list, dict or tensor
    primitive it calls. *)

Inductive exn :=
  | ValueError
  | KeyError
  | IndexError
  | AssertionError
  | RuntimeError
  | AttributeError
  | TypeError
  | ZeroDivisionError.

#[global] Instance exn_eq_dec : EqDecision exn.
Proof. solve_decision. Defined.

Inductive result (A : Type) :=
  | Ok (a : A)
  | Raise (e : exn).
Arguments Ok {_} _.
Arguments Raise {_} _.

(** The computation raised nothing. *)
Definition is_ok {A} (r : result A) : Prop := match r with Ok _ => True | Raise _ => False end.

#[global] Instance result_ret : MRet result := fun A a => Ok a.
#[global] Instance result_bind : MBind result := fun A B f m =>
  match m with Ok a => f a | Raise e => Raise e end.
#[global] Instance result_fmap : FMap result := fun A B f m =>
  match m with Ok a => Ok (f a) | Raise e => Raise e end.

Declare Scope py_scope.
Delimit Scope py_scope with py.

Notation "'do!' x <- m ; k" := (mbind (M:=result) (fun x => k) m)
  (at level 10, x binder, m at level 100, k at level 200) : py_scope.
Notation "'assert!' b ; k" := (if b then k else Raise AssertionError)
  (at level 10, b at level 100, k at level 200) : py_scope.
Open Scope py_scope.

(** A [for] loop whose body may raise: the state is threaded left to right. *)
Fixpoint foldM {A S : Type} (f : S → A → result S) (l : list A) (s : S) : result S :=
  match l with
  | [] => Ok s
  | x :: l => do! s' <- f s x; foldM f l s'
  end.

(** A comprehension whose element expression may raise. *)
Fixpoint traverse {A B : Type} (f : A → result B) (l : list A) : result (list B) :=
  match l with
  | [] => Ok []
  | x :: l => do! y <- f x; do! ys <- traverse f l; Ok (y :: ys)
  end.

(** [range(n)]; empty when [n <= 0], as in Python. *)
Definition range (n : Z) : list Z := seqZ 0 n.

(** List subscripts: a negative index counts from the end, any other index out
    of range raises [IndexError]. *)
Definition py_pos {A} (l : list A) (i : Z) : option nat :=
  let n := Z.of_nat (length l) in
  if bool_decide (0 ≤ i < n)%Z then Some (Z.to_nat i)
  else if bool_decide (- n ≤ i < 0)%Z then Some (Z.to_nat (i + n))
  else None.

Definition py_get {A} (l : list A) (i : Z) : result A :=
  match py_pos l i with
  | Some p => match l !! p with Some x => Ok x | None => Raise IndexError end
  | None => Raise IndexError
  end.

Definition py_set {A} (l : list A) (i : Z) (x : A) : result (list A) :=
  match py_pos l i with
  | Some p => Ok (<[p := x]> l)
  | None => Raise IndexError
  end.

(** Nested subscripts [m[i][j]], read and written. *)
Definition py_get2 {A} (m : list (list A)) (i j : Z) : result A :=
  do! row <- py_get m i; py_get row j.

Definition py_set2 {A} (m : list (list A)) (i j : Z) (x : A) : result (list (list A)) :=
  do! row <- py_get m i; do! row' <- py_set row j x; py_set m i row'.

(** A slice [l[a:b]] with non-negative bounds; both are clipped to the list. *)
Definition slice {A} (a b : nat) (l : list A) : list A := take (b - a) (drop a l).

Definition sumZ (l : list Z) : Z := foldr Z.add 0%Z l.

(** Dictionary lookup by subscript: a missing key raises [KeyError]. *)
Definition py_lookup {K V} `{Countable K} (m : gmap K V) (k : K) : result V :=
  match m !! k with Some v => Ok v | None => Raise KeyError end.

(** The loop [for i in range(R): for j in range(C): body]. *)
Definition for_cells {S : Type} (R C : Z) (body : Z → Z → S → result S) (s : S) : result S :=
  foldM (fun s i => foldM (fun s j => body i j s) (range C) s) (range R) s.

(** A loop body that reads cell [(i, j)], rewrites it and adds to a counter. *)
Definition cell_step {A} (g : A → result (A * Z)) (i j : Z) (s : list (list A) * Z)
  : result (list (list A) * Z) :=
  do! t <- py_get2 s.1 i j;
  do! r <- g t;
  do! m' <- py_set2 s.1 i j r.1;
  Ok (m', (s.2 + r.2)%Z).

(** The [R]-by-[C] matrices of the head configuration. *)
Definition rect {A} (R C : nat) (m : list (list A)) : Prop :=
  length m = R ∧ Forall (fun row => length row = C) m.

Definition mat_map {A B} (h : A → B) (m : list (list A)) : list (list B) :=
  (fun row : list A => h <$> row) <$> m.

Definition mat_sum {A} (h : A → Z) (m : list (list A)) : Z :=
  sumZ ((fun row : list A => sumZ (h <$> row)) <$> m).

#[global] Instance rect_dec {A} R C (m : list (list A)) : Decision (rect R C m).
Proof. apply _. Defined.

(** * Insertion-ordered dictionaries

    Python's [dict] and [OrderedDict]: an association list in insertion order
    with distinct keys. *)

Section odict.
Context {K V : Type} `{EqDecision K}.

Definition odict := list (K * V).

Definition od_keys (d : odict) : list K := d.*1.

Fixpoint od_get (k : K) (d : odict) : option V :=
  match d with
  | [] => None
  | (k', v) :: d => if decide (k = k') then Some v else od_get k d
  end.

Definition od_mem (k : K) (d : odict) : bool :=
  match od_get k d with Some _ => true | None => false end.

(** [d[k] = v]: an existing key keeps its place, a new key goes to the end. *)
Fixpoint od_set (k : K) (v : V) (d : odict) : odict :=
  match d with
  | [] => [(k, v)]
  | (k', v') :: d => if decide (k = k') then (k', v) :: d else (k', v') :: od_set k v d
  end.

(** [del d[k]] and [d.pop(k, None)]. *)
Fixpoint od_del (k : K) (d : odict) : odict :=
  match d with
  | [] => []
  | (k', v') :: d => if decide (k = k') then d else (k', v') :: od_del k d
  end.

(** [OrderedDict.move_to_end(k)]; callers only pass a present key. *)
Definition od_move_to_end (k : K) (d : odict) : odict :=
  match od_get k d with
  | Some v => od_del k d ++ [(k, v)]
  | None => d
  end.

End odict.
Arguments odict : clear implicits.

(** * Automation *)

Create HintDb redknot discriminated.

(** Reduce a bind whose computation is known. *)
Ltac run_bind := cbn [mbind result_bind mret result_ret fmap result_fmap] in *.

(** Invert [do! x <- m; k = Ok r] into the two successful steps. *)
Ltac bind_inv H :=
  lazymatch type of H with
  | mbind _ ?m = Ok _ =>
      let E := fresh "E" in
      destruct m eqn:E; cbn [mbind result_bind] in H; [|discriminate H]
  end.

Tactic Notation "unbind" hyp(H) "as" ident(x) ident(E) :=
  lazymatch type of H with
  | mbind _ ?m = Ok _ =>
      destruct m as [x|] eqn:E; cbn [mbind result_bind] in H; [|discriminate H]
  end.

(** Name the element a list has at an index within its length. *)
Tactic Notation "element" constr(l) constr(i) "as" ident(x) ident(H) :=
  destruct (lookup_lt_is_Some_2 l i) as [x H]; [lia|].

(** Lengths of list expressions, then linear arithmetic. *)
#[export] Hint Rewrite @length_app @length_fmap @length_replicate @length_seq @length_take
  @length_drop @length_zip_with @length_imap @length_insert @length_reverse : redknot.
Ltac len_lia := autorewrite with redknot in *; simpl length in *; lia.

(** Arithmetic with [div] and [mod] by a positive divisor. *)
Ltac divmod_lia := Z.to_euclidean_division_equations; nia.
Ltac nat_divmod_lia := zify; Z.to_euclidean_division_equations; nia.

(** * Shared lemmas *)

(** A loop over [range n] is, after [dn], at index [length dn]. *)
Lemma seq_split_index n dn i todo :
  seq 0 n = dn ++ i :: todo → i = length dn ∧ length dn < n.
Proof.
  intros Hl. pose proof (f_equal (fun l => l !! length dn) Hl) as Hg. simpl in Hg.
  rewrite list_lookup_middle in Hg by done. apply lookup_seq in Hg as [-> ?]. lia.
Qed.

(** ** Loops and comprehensions *)

Lemma foldM_app {A S} (f : S → A → result S) l1 l2 s :
  foldM f (l1 ++ l2) s = do! s' <- foldM f l1 s; foldM f l2 s'.
Proof.
  revert s. induction l1 as [|x l1 IH]; intros s; [done|].
  simpl. destruct (f s x); simpl; [apply IH|done].
Qed.

(** Loop rule: an invariant indexed by the elements already processed. *)
Lemma foldM_invariant {A S} (I : list A → S → Prop) (f : S → A → result S) l s :
  I [] s →
  (∀ done x todo s, l = done ++ x :: todo → I done s →
     ∃ s', f s x = Ok s' ∧ I (done ++ [x]) s') →
  ∃ s', foldM f l s = Ok s' ∧ I l s'.
Proof.
  intros H0 Hstep.
  enough (∀ done todo s, l = done ++ todo → I done s →
    ∃ s', foldM f todo s = Ok s' ∧ I l s') as Hgen by (by apply (Hgen [])).
  intros done todo. revert done.
  induction todo as [|x todo IH]; intros dn s' Hl HI.
  { rewrite app_nil_r in Hl. subst. eauto. }
  destruct (Hstep dn x todo s' Hl HI) as (s'' & Hf & HI').
  simpl. rewrite Hf. simpl. apply (IH (dn ++ [x])); [|done].
  by rewrite Hl, <-app_assoc.
Qed.

(** Every step that returns preserves the invariant, so the loop does. *)
Lemma foldM_preserves {A S} (I : S → Prop) (f : S → A → result S) l s s' :
  (∀ s x s', x ∈ l → I s → f s x = Ok s' → I s') →
  I s → foldM f l s = Ok s' → I s'.
Proof.
  revert s. induction l as [|x l IH]; simpl; intros s Hf HI H.
  { by injection H as <-. }
  bind_inv H. eapply IH; [|eapply Hf; [|exact HI|done]|exact H].
  - intros ?????. eapply Hf; [by apply list_elem_of_further|done..].
  - apply list_elem_of_here.
Qed.

Lemma foldM_pure {A S} (f : S → A → S) l s :
  foldM (fun s x => Ok (f s x)) l s = Ok (foldl f s l).
Proof. revert s. induction l as [|x l IH]; intros s; simpl; [done|apply IH]. Qed.

Lemma foldM_ext {A S} (f g : S → A → result S) l s :
  (∀ s x, x ∈ l → f s x = g s x) → foldM f l s = foldM g l s.
Proof.
  revert s. induction l as [|x l IH]; simpl; intros s H; [done|].
  rewrite (H s x) by apply list_elem_of_here. destruct (g s x); simpl; [|done].
  apply IH. intros. apply H. by apply list_elem_of_further.
Qed.

Lemma traverse_Ok {A B} (f : A → result B) l k :
  traverse f l = Ok k ↔ Forall2 (fun x y => f x = Ok y) l k.
Proof.
  revert k. induction l as [|x l IH]; intros k; simpl.
  { split.
    - intros [= <-]. constructor.
    - by intros ->%Forall2_nil_inv_l. }
  split.
  - intros H. bind_inv H. bind_inv H. injection H as <-. constructor; [done|].
    by apply IH.
  - intros (y & k' & Hy & Hk & ->)%Forall2_cons_inv_l.
    rewrite Hy. simpl. apply IH in Hk. rewrite Hk. done.
Qed.

Lemma traverse_pure {A B} (f : A → result B) (g : A → B) l :
  (∀ x, x ∈ l → f x = Ok (g x)) → traverse f l = Ok (g <$> l).
Proof.
  intros H. apply traverse_Ok. apply Forall2_fmap_r, Forall_Forall2_diag.
  by apply Forall_forall.
Qed.

Lemma traverse_length {A B} (f : A → result B) l k :
  traverse f l = Ok k → length k = length l.
Proof. intros H%traverse_Ok. symmetry. by eapply Forall2_length. Qed.

Lemma traverse_lookup {A B} (f : A → result B) l k i x :
  traverse f l = Ok k → l !! i = Some x → ∃ y, k !! i = Some y ∧ f x = Ok y.
Proof. intros H%traverse_Ok Hx. exact (Forall2_lookup_l _ _ _ _ _ H Hx). Qed.

(** ** Sums *)

Lemma sumZ_cons x l : sumZ (x :: l) = (x + sumZ l)%Z.
Proof. done. Qed.

Lemma sumZ_app l1 l2 : sumZ (l1 ++ l2) = (sumZ l1 + sumZ l2)%Z.
Proof. induction l1 as [|x l1 IH]; [done|]. cbn [app]. rewrite !sumZ_cons, IH. lia. Qed.

Lemma sumZ_nonneg l : Forall (Z.le 0) l → (0 ≤ sumZ l)%Z.
Proof. induction 1; [done|]. rewrite sumZ_cons. lia. Qed.

Lemma sumZ_perm l1 l2 : l1 ≡ₚ l2 → sumZ l1 = sumZ l2.
Proof. induction 1; rewrite ?sumZ_cons in *; lia. Qed.

(** ** Subscripts *)

Lemma py_pos_in {A} (l : list A) (i : nat) :
  i < length l → py_pos l (Z.of_nat i) = Some i.
Proof.
  intros Hi. unfold py_pos. rewrite bool_decide_eq_true_2 by lia.
  by rewrite Nat2Z.id.
Qed.

Lemma py_pos_Some {A} (l : list A) i p : py_pos l i = Some p → p < length l.
Proof. unfold py_pos. repeat case_bool_decide; intros [= <-]; lia. Qed.

Lemma py_pos_length {A B} (l : list A) (k : list B) i :
  length l = length k → py_pos l i = py_pos k i.
Proof. intros H. unfold py_pos. by rewrite H. Qed.

Lemma py_get_nat {A} (l : list A) (i : nat) x :
  l !! i = Some x → py_get l (Z.of_nat i) = Ok x.
Proof.
  intros H. unfold py_get. rewrite py_pos_in by exact (lookup_lt_Some _ _ _ H).
  by rewrite H.
Qed.

Lemma py_get_Ok {A} (l : list A) (i : nat) x :
  py_get l (Z.of_nat i) = Ok x → l !! i = Some x.
Proof.
  unfold py_get. destruct (decide (i < length l)) as [Hi|Hi].
  - rewrite py_pos_in by done. destruct (l !! i); congruence.
  - unfold py_pos. rewrite !bool_decide_eq_false_2 by lia. done.
Qed.

Lemma py_get_error {A} (l : list A) (i : Z) e : py_get l i = Raise e → e = IndexError.
Proof.
  unfold py_get. destruct (py_pos l i); [|congruence].
  destruct (l !! _); congruence.
Qed.

Lemma py_set_nat {A} (l : list A) (i : nat) x :
  i < length l → py_set l (Z.of_nat i) x = Ok (<[i := x]> l).
Proof. intros H. unfold py_set. by rewrite py_pos_in. Qed.

Lemma py_get2_nat {A} (m : list (list A)) (i j : nat) row x :
  m !! i = Some row → row !! j = Some x → py_get2 m (Z.of_nat i) (Z.of_nat j) = Ok x.
Proof.
  intros Hi Hj. unfold py_get2. rewrite (py_get_nat _ _ _ Hi). simpl.
  by apply py_get_nat.
Qed.

(** Run the in-range reads [l[i]] whose element is known. *)
Ltac run_gets := repeat (erewrite py_get_nat by eassumption; run_bind).

Lemma rect_lookup {A} R C (m : list (list A)) i :
  rect R C m → i < R → ∃ row, m !! i = Some row ∧ length row = C.
Proof.
  intros [HR HC] Hi. destruct (lookup_lt_is_Some_2 m i) as [row Hrow]; [lia|].
  exists row. split; [done|]. by eapply Forall_lookup_1 in HC.
Qed.

Lemma rect_lookup2 {A} R C (m : list (list A)) i j :
  rect R C m → i < R → j < C → ∃ row x, m !! i = Some row ∧ row !! j = Some x.
Proof.
  intros Hm Hi Hj. destruct (rect_lookup R C m i Hm Hi) as (row & ? & ?).
  destruct (lookup_lt_is_Some_2 row j) as [x ?]; [lia|]. eauto.
Qed.

Lemma elem_of_range i n : i ∈ range n ↔ (0 ≤ i < n)%Z.
Proof. unfold range. rewrite elem_of_seqZ. lia. Qed.

Lemma range_nat (n : nat) : range (Z.of_nat n) = Z.of_nat <$> seq 0 n.
Proof.
  unfold range, seqZ. rewrite Nat2Z.id. apply list_fmap_ext. intros. lia.
Qed.

(** ** Cell loops

    A row of the loop, started after the processed prefix [pre], rewrites the
    rest of the row pointwise. *)

Definition cell_outs {A} (g : A → result (A * Z)) (row : list A) : result (list (A * Z)) :=
  traverse g row.

Lemma insert_middle {A} (l1 l2 : list A) x y :
  <[length l1 := y]> (l1 ++ x :: l2) = l1 ++ y :: l2.
Proof.
  replace (length l1) with (length l1 + 0) by lia. by rewrite insert_app_r.
Qed.

Lemma cell_step_mid {A} (g : A → result (A * Z)) (m1 m2 : list (list A)) pre suf x r n :
  g x = Ok r →
  cell_step g (Z.of_nat (length m1)) (Z.of_nat (length pre))
    (m1 ++ (pre ++ x :: suf) :: m2, n)
  = Ok (m1 ++ (pre ++ r.1 :: suf) :: m2, (n + r.2)%Z).
Proof.
  intros Hg. unfold cell_step. cbn [fst snd].
  assert (Hrow : (m1 ++ (pre ++ x :: suf) :: m2) !! length m1 = Some (pre ++ x :: suf))
    by by apply list_lookup_middle.
  rewrite (py_get2_nat _ _ _ _ x Hrow) by by apply list_lookup_middle.
  run_bind. rewrite Hg. run_bind. unfold py_set2.
  rewrite (py_get_nat _ _ _ Hrow).
  run_bind. rewrite py_set_nat by (rewrite length_app; simpl; lia).
  run_bind. rewrite py_set_nat by (rewrite length_app; simpl; lia).
  run_bind. by rewrite !insert_middle.
Qed.

Lemma cell_row_loop {A} (g : A → result (A * Z)) (m1 m2 : list (list A)) pre suf outs n :
  traverse g suf = Ok outs →
  foldM (fun s j => cell_step g (Z.of_nat (length m1)) j s)
        (seqZ (Z.of_nat (length pre)) (Z.of_nat (length suf)))
        (m1 ++ (pre ++ suf) :: m2, n)
  = Ok (m1 ++ (pre ++ outs.*1) :: m2, (n + sumZ outs.*2)%Z).
Proof.
  revert pre outs n. induction suf as [|x suf IH]; intros pre outs n Hg.
  { injection Hg as <-. simpl. by rewrite Z.add_0_r. }
  simpl in Hg. unbind Hg as r E. unbind Hg as outs' E0. injection Hg as <-.
  rename outs' into outs.
  rewrite seqZ_cons by (simpl; lia). cbn [foldM].
  rewrite (cell_step_mid _ _ _ _ _ _ _ _ E). run_bind.
  specialize (IH (pre ++ [r.1]) outs (n + r.2)%Z eq_refl).
  rewrite length_app in IH. simpl in IH.
  replace (Z.succ (Z.of_nat (length pre))) with (Z.of_nat (length pre + 1)) by lia.
  replace (Z.pred (Z.of_nat (length (x :: suf)))) with (Z.of_nat (length suf)) by (simpl; lia).
  rewrite <-!app_assoc in IH. simpl in IH. rewrite IH.
  f_equal. apply (f_equal2 pair); [done|]. rewrite fmap_cons, sumZ_cons. lia.
Qed.

(** The whole loop: when every cell's step returns, the matrix is rewritten
    cell by cell and the counter grows by the sum of the increments. *)
Lemma cell_loop_ok {A} (g : A → result (A * Z)) R C (m : list (list A)) outs n :
  rect R C m →
  traverse (traverse g) m = Ok outs →
  for_cells (Z.of_nat R) (Z.of_nat C) (cell_step g) (m, n)
  = Ok (mat_map fst outs, (n + sumZ ((fun r => sumZ r.*2) <$> outs))%Z).
Proof.
  intros [HR HC] Hg. subst R. unfold for_cells, range.
  enough (∀ (m1 m2 : list (list A)) outs2 n,
    Forall (fun row => length row = C) m2 →
    traverse (traverse g) m2 = Ok outs2 →
    foldM (fun s i => foldM (fun s j => cell_step g i j s) (seqZ 0 (Z.of_nat C)) s)
      (seqZ (Z.of_nat (length m1)) (Z.of_nat (length m2))) (m1 ++ m2, n)
    = Ok (m1 ++ mat_map fst outs2, (n + sumZ ((fun r => sumZ r.*2) <$> outs2))%Z)) as Hgen.
  { specialize (Hgen [] m outs n HC Hg). by simpl in Hgen. }
  clear. intros m1 m2. revert m1.
  induction m2 as [|row m2 IH]; intros m1 outs2 n HC Hg.
  { injection Hg as <-. simpl. by rewrite Z.add_0_r. }
  simpl in Hg. unbind Hg as a E. unbind Hg as os E0. injection Hg as <-.
  apply Forall_cons in HC as [Hrow HC].
  rewrite (seqZ_cons (Z.of_nat (length m1))) by (simpl; lia). cbn [foldM].
  pose proof (cell_row_loop g m1 m2 [] row a n E) as Hr. simpl in Hr. change (Z.of_nat 0) with 0%Z in Hr.
  rewrite Hrow in Hr. rewrite Hr. run_bind.
  replace (Z.succ (Z.of_nat (length m1))) with (Z.of_nat (length (m1 ++ [a.*1])))
    by (rewrite length_app; simpl; lia).
  replace (Z.pred (Z.of_nat (length (row :: m2)))) with (Z.of_nat (length m2)) by (simpl; lia).
  specialize (IH (m1 ++ [a.*1]) _ (n + sumZ a.*2)%Z HC eq_refl).
  rewrite <-!app_assoc in IH. simpl in IH. rewrite IH.
  f_equal. apply (f_equal2 pair); [done|]. rewrite fmap_cons, sumZ_cons. simpl. lia.
Qed.

Lemma traverse2_lookup {A B} (g : A → result B) m outs i j row x :
  traverse (traverse g) m = Ok outs → m !! i = Some row → row !! j = Some x →
  ∃ orow y, outs !! i = Some orow ∧ orow !! j = Some y ∧ g x = Ok y.
Proof.
  intros H Hi Hj. destruct (traverse_lookup _ _ _ _ _ H Hi) as (orow & ? & Hrow).
  destruct (traverse_lookup _ _ _ _ _ Hrow Hj) as (y & ? & ?). eauto.
Qed.

Lemma rect_traverse {A B} (g : A → result B) R C m outs :
  rect R C m → traverse (traverse g) m = Ok outs → rect R C outs.
Proof.
  intros [<- HC] H. split; [by apply traverse_length in H|].
  apply Forall_lookup_2. intros i orow Ho.
  apply traverse_Ok in H. destruct (Forall2_lookup_r _ _ _ _ _ H Ho) as (row & Hrow & Hg).
  apply traverse_length in Hg. rewrite Hg. by eapply Forall_lookup_1 in HC.
Qed.

Lemma rect_fmap {A B} (f : A → B) R C (m : list (list A)) : rect R C m → rect R C (mat_map f m).
Proof.
  intros [<- HC]. unfold mat_map. split; [by rewrite length_fmap|].
  apply Forall_fmap. eapply Forall_impl; [exact HC|]. intros row Hr. simpl.
  by rewrite length_fmap.
Qed.

(** A row that fails stops the loop with its exception. *)
Lemma traverse_Raise {A B} (f : A → result B) l e :
  traverse f l = Raise e → ∃ x, x ∈ l ∧ f x = Raise e.
Proof.
  induction l as [|x l IH]; simpl; [done|].
  destruct (f x) eqn:Ex; simpl.
  - destruct (traverse f l); simpl; [done|]. intros [= ->].
    destruct IH as (y & ? & ?); [done|]. exists y. split; [by right|done].
  - intros [= ->]. exists x. split; [left|done].
Qed.

(** ** Ordered dictionaries *)

Section odict_lemmas.
Context {K V : Type} `{EqDecision K}.
Implicit Types (d : odict K V) (k : K) (v : V).

Lemma od_get_Some_elem k v d : od_get k d = Some v → (k, v) ∈ d.
Proof.
  induction d as [|[k' v'] d IH]; simpl; [done|]. case_decide; intros H'.
  - injection H' as ->. subst. left.
  - right. auto.
Qed.

Lemma od_get_None k d : od_get k d = None ↔ k ∉ od_keys d.
Proof.
  induction d as [|[k' v'] d IH]; simpl; [set_solver|].
  case_decide; subst; set_solver.
Qed.

Lemma od_mem_true k d : od_mem k d = true ↔ k ∈ od_keys d.
Proof.
  unfold od_mem. destruct (od_get k d) eqn:E.
  - split; [intros _|done]. apply od_get_Some_elem in E.
    apply list_elem_of_fmap. by exists (k, v).
  - split; [done|]. by apply od_get_None in E.
Qed.

(** A present key splits the dictionary at its unique entry. *)
Lemma od_get_split k v d :
  NoDup (od_keys d) → od_get k d = Some v →
  ∃ d1 d2, d = d1 ++ (k, v) :: d2 ∧ k ∉ od_keys d1 ∧ k ∉ od_keys d2.
Proof.
  induction d as [|[k' v'] d IH]; simpl; [done|].
  intros [Hk Hd]%NoDup_cons Hg. case_decide.
  - injection Hg as ->. subst. exists [], d. split; [done|]. split; [set_solver|done].
  - destruct (IH Hd Hg) as (d1 & d2 & -> & Hd1 & Hd2).
    exists ((k', v') :: d1), d2. split; [done|]. split; [set_solver|done].
Qed.

Lemma od_del_mid k v d1 d2 :
  k ∉ od_keys d1 → od_del k (d1 ++ (k, v) :: d2) = d1 ++ d2.
Proof.
  induction d1 as [|[k' v'] d1 IH]; simpl; intros Hk.
  { by rewrite decide_True. }
  rewrite decide_False by set_solver. rewrite IH; [done|set_solver].
Qed.

Lemma od_set_mid k v v' d1 d2 :
  k ∉ od_keys d1 → od_set k v' (d1 ++ (k, v) :: d2) = d1 ++ (k, v') :: d2.
Proof.
  induction d1 as [|[k0 v0] d1 IH]; simpl; intros Hk.
  { by rewrite decide_True. }
  rewrite decide_False by set_solver. rewrite IH; [done|set_solver].
Qed.

Lemma od_set_new k v d : k ∉ od_keys d → od_set k v d = d ++ [(k, v)].
Proof.
  induction d as [|[k' v'] d IH]; simpl; intros Hk; [done|].
  rewrite decide_False by set_solver. rewrite IH; [done|set_solver].
Qed.

Lemma od_get_app k d1 d2 :
  od_get k (d1 ++ d2) = match od_get k d1 with Some v => Some v | None => od_get k d2 end.
Proof.
  induction d1 as [|[k' v'] d1 IH]; simpl; [done|]. by case_decide.
Qed.

Lemma od_get_mid k v d1 d2 : k ∉ od_keys d1 → od_get k (d1 ++ (k, v) :: d2) = Some v.
Proof.
  intros Hk. rewrite od_get_app. apply od_get_None in Hk. rewrite Hk. simpl.
  by rewrite decide_True.
Qed.

Lemma od_get_elem k v d : NoDup (od_keys d) → (k, v) ∈ d → od_get k d = Some v.
Proof.
  intros Hnd (d1 & d2 & ->)%list_elem_of_split. apply od_get_mid. unfold od_keys in Hnd.
  rewrite fmap_app in Hnd. apply NoDup_app in Hnd as (_ & Hx & _). intros Hk. apply (Hx _ Hk). left.
Qed.

Lemma od_get_set k k' v d :
  od_get k' (od_set k v d) = if decide (k' = k) then Some v else od_get k' d.
Proof.
  induction d as [|[k0 v0] d IH]; simpl; [done|].
  destruct (decide (k = k0)) as [->|Hne]; simpl.
  - by case_decide.
  - rewrite IH. repeat case_decide; congruence.
Qed.

Lemma od_set_keys_elem x k v d : x ∈ od_keys (od_set k v d) ↔ x = k ∨ x ∈ od_keys d.
Proof.
  rewrite <-!od_mem_true. unfold od_mem. rewrite od_get_set.
  case_decide; [naive_solver|]. destruct (od_get x d); naive_solver.
Qed.

Lemma od_set_NoDup k v d : NoDup (od_keys d) → NoDup (od_keys (od_set k v d)).
Proof.
  induction d as [|[k0 v0] d IH]; simpl; intros Hd; [apply NoDup_singleton|].
  apply NoDup_cons in Hd as [Hk Hd]. destruct (decide (k = k0)) as [->|Hne]; simpl.
  - by apply NoDup_cons.
  - apply NoDup_cons. split; [|auto]. change (k0 ∉ od_keys (od_set k v d)).
    rewrite od_set_keys_elem. naive_solver.
Qed.

Lemma od_move_to_end_mid k v d1 d2 :
  k ∉ od_keys d1 → od_move_to_end k (d1 ++ (k, v) :: d2) = d1 ++ d2 ++ [(k, v)].
Proof.
  intros Hk. unfold od_move_to_end. rewrite od_get_mid by done.
  by rewrite od_del_mid, app_assoc.
Qed.

(** Moving an entry to the end only reorders the dictionary. *)
Lemma od_move_to_end_perm k d : NoDup (od_keys d) → od_move_to_end k d ≡ₚ d.
Proof.
  intros Hd. destruct (od_get k d) as [v|] eqn:E.
  - destruct (od_get_split _ _ _ Hd E) as (d1 & d2 & -> & Hd1 & _).
    rewrite od_move_to_end_mid by done. rewrite app_assoc.
    rewrite <-Permutation_cons_append. by rewrite Permutation_middle.
  - unfold od_move_to_end. by rewrite E.
Qed.

Lemma od_keys_perm d d' : d ≡ₚ d' → od_keys d ≡ₚ od_keys d'.
Proof. intros H. unfold od_keys. by rewrite H. Qed.

Lemma od_NoDup_perm d d' : d ≡ₚ d' → NoDup (od_keys d) → NoDup (od_keys d').
Proof. intros H. by rewrite (od_keys_perm _ _ H). Qed.

Lemma od_get_perm k d d' : NoDup (od_keys d) → d ≡ₚ d' → od_get k d = od_get k d'.
Proof.
  intros Hd H. assert (Hd' : NoDup (od_keys d')) by by eapply od_NoDup_perm.
  destruct (od_get k d) as [v|] eqn:E.
  - apply od_get_Some_elem in E. rewrite H in E.
    apply list_elem_of_split in E as (d1 & d2 & ->).
    symmetry. apply od_get_mid. unfold od_keys in Hd'. rewrite fmap_app in Hd'.
    apply NoDup_app in Hd' as (_ & Hx & _). intros Hk. apply (Hx _ Hk). left.
  - symmetry. apply od_get_None. apply od_get_None in E.
    by rewrite <-(od_keys_perm _ _ H).
Qed.

Lemma od_get_del k k' d :
  NoDup (od_keys d) → od_get k' (od_del k d) = if decide (k' = k) then None else od_get k' d.
Proof.
  induction d as [|[k0 v0] d IH]; simpl; [by case_decide|]. intros [Hk0 Hd]%NoDup_cons.
  destruct (decide (k = k0)) as [->|Hne]; simpl.
  - case_decide as E; [subst|done]. by apply od_get_None.
  - rewrite IH by done. repeat case_decide; congruence.
Qed.

Lemma od_del_keys k d : NoDup (od_keys d) → NoDup (od_keys (od_del k d)).
Proof.
  intros Hd. destruct (od_get k d) as [v|] eqn:E.
  - destruct (od_get_split _ _ _ Hd E) as (d1 & d2 & -> & Hd1 & _).
    rewrite od_del_mid by done. unfold od_keys in *. rewrite fmap_app in *.
    rewrite fmap_cons in Hd. apply NoDup_app in Hd as (? & Hx & [? ?]%NoDup_cons).
    apply NoDup_app. set_solver.
  - apply od_get_None in E. induction d as [|[k' v'] d IH]; simpl; [done|].
    rewrite decide_False by set_solver. apply NoDup_cons in Hd as [Hk Hd].
    apply NoDup_cons. split; [|apply IH; [done|set_solver]].
    clear IH. intros Hin. apply Hk. clear Hk Hd.
    induction d as [|[k0 v0] d IH]; simpl in *; [done|].
    case_decide; [set_solver|]. simpl in Hin. set_solver.
Qed.

End odict_lemmas.

(** ** Cell loops that raise *)

Lemma cell_step_raise {A} (g : A → result (A * Z)) (m1 m2 : list (list A)) pre suf x e n :
  g x = Raise e →
  cell_step g (Z.of_nat (length m1)) (Z.of_nat (length pre))
    (m1 ++ (pre ++ x :: suf) :: m2, n) = Raise e.
Proof.
  intros Hg. unfold cell_step. cbn [fst snd].
  rewrite (py_get2_nat _ _ _ (pre ++ x :: suf) x) by by apply list_lookup_middle.
  run_bind. by rewrite Hg.
Qed.

Lemma cell_row_loop_raise {A} (g : A → result (A * Z)) (m1 m2 : list (list A)) pre suf e n :
  traverse g suf = Raise e →
  foldM (fun s j => cell_step g (Z.of_nat (length m1)) j s)
        (seqZ (Z.of_nat (length pre)) (Z.of_nat (length suf)))
        (m1 ++ (pre ++ suf) :: m2, n) = Raise e.
Proof.
  revert pre n. induction suf as [|x suf IH]; intros pre n Hg; [done|].
  simpl in Hg. rewrite seqZ_cons by (simpl; lia). cbn [foldM].
  destruct (g x) as [r|e'] eqn:Hx; cbn [mbind result_bind] in Hg.
  - destruct (traverse g suf); cbn [mbind result_bind] in Hg; [done|].
    rewrite (cell_step_mid _ _ _ _ _ _ _ _ Hx). run_bind.
    specialize (IH (pre ++ [r.1]) (n + r.2)%Z Hg).
    rewrite length_app in IH. simpl in IH.
    replace (Z.succ (Z.of_nat (length pre))) with (Z.of_nat (length pre + 1)) by lia.
    replace (Z.pred (Z.of_nat (length (x :: suf)))) with (Z.of_nat (length suf)) by (simpl; lia).
    rewrite <-!app_assoc in IH. exact IH.
  - injection Hg as ->. by rewrite (cell_step_raise _ _ _ _ _ _ _ _ Hx).
Qed.

Lemma cell_loop_raise {A} (g : A → result (A * Z)) R C (m : list (list A)) e n :
  rect R C m → traverse (traverse g) m = Raise e →
  for_cells (Z.of_nat R) (Z.of_nat C) (cell_step g) (m, n) = Raise e.
Proof.
  intros [HR HC] Hg. subst R. unfold for_cells, range.
  enough (∀ (m1 m2 : list (list A)) n,
    Forall (fun row => length row = C) m2 →
    traverse (traverse g) m2 = Raise e →
    foldM (fun s i => foldM (fun s j => cell_step g i j s) (seqZ 0 (Z.of_nat C)) s)
      (seqZ (Z.of_nat (length m1)) (Z.of_nat (length m2))) (m1 ++ m2, n) = Raise e) as Hgen
    by (by apply (Hgen [])).
  clear. intros m1 m2. revert m1.
  induction m2 as [|row m2 IH]; intros m1 n HC Hg; [done|].
  apply Forall_cons in HC as [Hrow HC]. simpl in Hg.
  rewrite (seqZ_cons (Z.of_nat (length m1))) by (simpl; lia). cbn [foldM].
  destruct (traverse g row) as [a|e'] eqn:E; cbn [mbind result_bind] in Hg.
  - destruct (traverse (traverse g) m2); cbn [mbind result_bind] in Hg; [done|].
    pose proof (cell_row_loop g m1 m2 [] row a n E) as Hr. simpl in Hr.
    change (Z.of_nat 0) with 0%Z in Hr. rewrite Hrow in Hr. rewrite Hr. run_bind.
    replace (Z.succ (Z.of_nat (length m1))) with (Z.of_nat (length (m1 ++ [a.*1])))
      by (rewrite length_app; simpl; lia).
    replace (Z.pred (Z.of_nat (length (row :: m2)))) with (Z.of_nat (length m2)) by (simpl; lia).
    specialize (IH (m1 ++ [a.*1]) (n + sumZ a.*2)%Z HC Hg).
    rewrite <-!app_assoc in IH. exact IH.
  - injection Hg as ->.
    pose proof (cell_row_loop_raise g m1 m2 [] row e n E) as Hr. simpl in Hr.
    change (Z.of_nat 0) with 0%Z in Hr. rewrite Hrow in Hr. by rewrite Hr.
Qed.

(** The pure rewrite of a matrix. *)
Lemma traverse2_pure {A B} (g : A → result B) (h : A → B) m :
  (∀ x, g x = Ok (h x)) → traverse (traverse g) m = Ok (mat_map h m).
Proof. intros H. apply traverse_pure. intros row _. apply traverse_pure. intros. apply H. Qed.

Lemma mat_map_compose {A B C} (f : B → C) (g : A → B) (m : list (list A)) :
  mat_map f (mat_map g m) = mat_map (fun x => f (g x)) m.
Proof.
  unfold mat_map. rewrite <-list_fmap_compose. apply list_fmap_ext. intros i row _.
  unfold compose. by rewrite <-list_fmap_compose.
Qed.

(** The loop with a cell step that cannot raise. *)
Lemma cell_loop_pure {A} (g : A → result (A * Z)) (a : A → A) (b : A → Z) R C
    (m : list (list A)) n :
  (∀ x, g x = Ok (a x, b x)) → rect R C m →
  for_cells (Z.of_nat R) (Z.of_nat C) (cell_step g) (m, n)
  = Ok (mat_map a m, (n + mat_sum b m)%Z).
Proof.
  intros Hg Hm.
  rewrite (cell_loop_ok g R C m _ n Hm (traverse2_pure g (fun x => (a x, b x)) m Hg)).
  rewrite mat_map_compose. do 3 f_equal. unfold mat_map, mat_sum.
  rewrite <-list_fmap_compose. f_equal. apply list_fmap_ext. intros i row _.
  unfold compose. by rewrite <-list_fmap_compose.
Qed.

Lemma mat_map_lookup {A B} (h : A → B) (m : list (list A)) i j row x :
  m !! i = Some row → row !! j = Some x →
  ∃ row', mat_map h m !! i = Some row' ∧ row' !! j = Some (h x).
Proof.
  intros Hi Hj. exists (h <$> row). unfold mat_map.
  by rewrite !list_lookup_fmap, Hi, Hj.
Qed.

Lemma py_get2_mat_map {A B} (h : A → B) (m : list (list A)) i j x :
  py_get2 m i j = Ok x → py_get2 (mat_map h m) i j = Ok (h x).
Proof.
  unfold py_get2, py_get. rewrite (py_pos_length (mat_map h m) m) by (by unfold mat_map; rewrite length_fmap).
  destruct (py_pos m i) as [p|]; [|done]. unfold mat_map. rewrite list_lookup_fmap.
  destruct (m !! p) as [row|]; [|done]. simpl.
  rewrite (py_pos_length (h <$> row) row) by by rewrite length_fmap.
  destruct (py_pos row j) as [q|]; [|done]. rewrite list_lookup_fmap.
  destruct (row !! q); [|done]. simpl. by intros [= ->].
Qed.

(** Enough pages of [ps] tokens for [n] tokens. *)
Lemma pages_needed n ps : 0 < ps → n ≤ (n + ps - 1) / ps * ps.
Proof.
  intros Hp. pose proof (Nat.div_mod_eq (n + ps - 1) ps).
  pose proof (Nat.mod_upper_bound (n + ps - 1) ps). nia.
Qed.

(** ** Slices *)

Lemma length_slice {A} (l : list A) a b :
  a ≤ b → b ≤ length l → length (slice a b l) = b - a.
Proof. intros. unfold slice. rewrite length_take, length_drop. lia. Qed.

(** A page-sized slice followed by everything after the page is the rest of the list. *)
Lemma slice_page {A} (l : list A) a ps n :
  n = length l → slice a (Nat.min (a + ps) n) l ++ drop (a + ps) l = drop a l.
Proof.
  intros ->. unfold slice. destruct (decide (a + ps ≤ length l)) as [Hle|Hgt].
  - replace (Nat.min (a + ps) (length l) - a) with ps by lia.
    rewrite <-drop_drop. apply take_drop.
  - rewrite (drop_ge l (a + ps)), app_nil_r by lia. apply take_ge. rewrite length_drop. lia.
Qed.

(** Two loops whose bodies agree on the states that satisfy an invariant. *)
Lemma foldM_ext_inv {A S} (I : S → Prop) (f g : S → A → result S) l s :
  I s → (∀ s x, I s → x ∈ l → f s x = g s x) →
  (∀ s x s', I s → x ∈ l → g s x = Ok s' → I s') → foldM f l s = foldM g l s.
Proof.
  revert s. induction l as [|x l IH]; simpl; intros s HI Hfg Hp; [done|].
  rewrite (Hfg s x) by (done || left). destruct (g s x) as [s'|] eqn:E; run_bind; [|done].
  apply IH.
  - eapply Hp; [exact HI|left|exact E].
  - intros. apply Hfg; [done|by right].
  - intros s0 y s1 ? ? ?. eapply Hp; [done|by right|done].
Qed.

Lemma traverse_ext {A B} (f g : A → result B) (l : list A) :
  (∀ x, x ∈ l → f x = g x) → traverse f l = traverse g l.
Proof.
  induction l as [|x l IH]; intros Hfg; [done|]. simpl.
  rewrite (Hfg x) by left. rewrite IH by (intros; apply Hfg; by right). done.
Qed.

Lemma traverse_app {A B} (f : A → result B) (l1 l2 : list A) r1 r2 :
  traverse f l1 = Ok r1 → traverse f l2 = Ok r2 → traverse f (l1 ++ l2) = Ok (r1 ++ r2).
Proof. rewrite !traverse_Ok. apply Forall2_app. Qed.

Lemma traverse_fmap {A B C} (f : B → result C) (h : A → B) l :
  traverse f (h <$> l) = traverse (fun x => f (h x)) l.
Proof. induction l as [|x l IH]; [done|]. rewrite fmap_cons. simpl. by rewrite IH. Qed.

(** Ordered dictionaries under a map on values. *)
Lemma od_get_fmap {K V W} `{EqDecision K} (h : V → W) (k : K) (d : odict K V) :
  od_get k (prod_map id h <$> d) = h <$> od_get k d.
Proof.
  induction d as [|[k' v'] d IH]; simpl; [done|]. unfold id. by case_decide.
Qed.

Lemma od_set_fmap {K V W} `{EqDecision K} (h : V → W) (k : K) v (d : odict K V) :
  prod_map id h <$> od_set k v d = od_set k (h v) (prod_map id h <$> d).
Proof.
  induction d as [|[k' v'] d IH]; simpl; [done|]. unfold id at 2. simpl.
  case_decide; [done|]. by rewrite fmap_cons, IH.
Qed.

Lemma foldM_fmap {A B S} (f : S → B → result S) (g : A → B) l s :
  foldM f (g <$> l) s = foldM (fun s x => f s (g x)) l s.
Proof.
  revert s. induction l as [|x l IH]; intros s; [done|]. rewrite fmap_cons. cbn [foldM].
  destruct (f s (g x)); run_bind; [apply IH|done].
Qed.

Lemma foldM_concat {A S} (f : S → A → result S) (ls : list (list A)) s :
  foldM f (concat ls) s = foldM (fun s l => foldM f l s) ls s.
Proof.
  revert s. induction ls as [|l ls IH]; intros s; [done|]. cbn [concat foldM].
  rewrite foldM_app. destruct (foldM f l s); run_bind; [apply IH|done].
Qed.

(** A loop over a list that overwrites the entry at the position of each
    element, starting from equal entries. *)
Lemma fill_by_index {A B} (f : list B → A → result (list B)) (l : list A) (z : B) (r : list B) :
  length r = length l →
  (∀ i x y out, l !! i = Some x → r !! i = Some y → out !! i = Some z →
     length out = length l → f out x = Ok (<[i := y]> out)) →
  foldM f l (replicate (length l) z) = Ok r.
Proof.
  intros Hr Hf.
  destruct (foldM_invariant
    (fun dn out => out = take (length dn) r ++ replicate (length l - length dn) z)
    f l (replicate (length l) z)) as (out & Hout & ->).
  - by rewrite Nat.sub_0_r.
  - intros dn x todo out Hl ->.
    assert (Hx : l !! length dn = Some x) by (rewrite Hl; by apply list_lookup_middle).
    assert (Hlt : length dn < length l) by (by eapply lookup_lt_Some).
    destruct (lookup_lt_is_Some_2 r (length dn)) as [y Hy]; [lia|].
    assert (Hlen : length (take (length dn) r) = length dn) by (rewrite length_take; lia).
    replace (length l - length dn) with (S (length l - (length dn + 1))) by lia. cbn [replicate].
    rewrite (Hf (length dn) x y); [|done|done| |].
    + eexists. split; [done|]. rewrite length_app. cbn [length].
      replace (<[length dn := y]> _) with
        (<[length (take (length dn) r) := y]> (take (length dn) r ++ z :: replicate (length l - (length dn + 1)) z))
        by (by rewrite Hlen).
      rewrite insert_middle, Nat.add_1_r, (take_S_r r (length dn) y) by done. by rewrite <-app_assoc.
    + rewrite lookup_app_r, Hlen, Nat.sub_diag by lia. done.
    + rewrite length_app, Hlen. cbn [length]. rewrite length_replicate. lia.
  - rewrite Hout, Nat.sub_diag, app_nil_r, take_ge by lia. done.
Qed.

(** ** Filters *)

Lemma Forall2_impl_elem {A B} (P Q : A → B → Prop) l l' :
  Forall2 P l l' → (∀ x y, x ∈ l → P x y → Q x y) → Forall2 Q l l'.
Proof. induction 1 as [|x y l l' Hp _ IH]; intros HQ; constructor; [apply HQ; [left|done]|]. apply IH. intros a b Ha. apply HQ. by right. Qed.

Lemma filter_all {A} (P : A → Prop) `{∀ x, Decision (P x)} (l : list A) :
  Forall P l → filter P l = l.
Proof. induction 1 as [|x l Hx _ IH]; [done|]. by rewrite filter_cons_True, IH. Qed.

Lemma filter_none {A} (P : A → Prop) `{∀ x, Decision (P x)} (l : list A) :
  Forall (fun x => ¬ P x) l → filter P l = [].
Proof. induction 1 as [|x l Hx _ IH]; [done|]. by rewrite filter_cons_False. Qed.

Lemma filter_ext_elem {A} (P Q : A → Prop) `{∀ x, Decision (P x)} `{∀ x, Decision (Q x)} (l : list A) :
  (∀ x, x ∈ l → P x ↔ Q x) → filter P l = filter Q l.
Proof.
  induction l as [|x l IH]; intros Hpq; [done|]. rewrite !filter_cons.
  rewrite IH by (intros; apply Hpq; by right). specialize (Hpq x ltac:(left)).
  repeat case_decide; done || tauto.
Qed.

(** Uniqueness of keys and shapes of matrices are closed under the operations. *)
#[export] Hint Resolve od_set_NoDup od_del_keys od_NoDup_perm od_move_to_end_perm rect_fmap : redknot.
