(* ===== verification/PySort.v ===== *)
(** Python's [list.sort(key=...)]: the order on keys as an interface, with the
    key types the scheduler uses as instances, and the stable sort with its
    specification (a permutation, in order, equal keys in their old order). *)

From S2P Require Import Prelude.
From Stdlib Require Import Ascii String.

Open Scope Z_scope.

(** * Keys *)

(** [k1 < k2] on sort keys. *)
Class PyOrd (K : Type) := py_lt : K → K → bool.
#[export] Hint Mode PyOrd ! : typeclass_instances.

(** A strict total order. *)
Class PyOrdLaws (K : Type) `{PyOrd K} := {
  py_lt_irrefl (a : K) : py_lt a a = false;
  py_lt_trans (a b c : K) : py_lt a b = true → py_lt b c = true → py_lt a c = true;
  py_lt_eq (a b : K) : py_lt a b = false → py_lt b a = false → a = b;
}.

#[export] Instance Z_ord : PyOrd Z := Z.ltb.
#[export] Instance Z_ord_laws : PyOrdLaws Z.
Proof. split; unfold py_lt, Z_ord; intros *; rewrite ?Z.ltb_lt, ?Z.ltb_ge; lia. Qed.

(** Integers and [float("inf")], written [None]. *)
#[export] Instance inf_ord : PyOrd (option Z) := fun a b =>
  match a, b with Some x, Some y => x <? y | Some _, None => true | None, _ => false end.
#[export] Instance inf_ord_laws : PyOrdLaws (option Z).
Proof.
  split; unfold py_lt, inf_ord.
  - intros [x|]; [apply Z.ltb_irrefl|done].
  - intros [x|] [y|] [z|]; try done. rewrite !Z.ltb_lt. lia.
  - intros [x|] [y|]; try done. rewrite !Z.ltb_ge. intros. f_equal. lia.
Qed.

(** Strings by code points. *)
#[export] Instance string_ord : PyOrd string := fun a b =>
  match String.compare a b with Lt => true | _ => false end.

Lemma ascii_compare_trans a b c : Ascii.compare a b = Lt → Ascii.compare b c = Lt → Ascii.compare a c = Lt.
Proof. unfold Ascii.compare. rewrite !N.compare_lt_iff. lia. Qed.

Lemma string_compare_trans a : ∀ b c, String.compare a b = Lt → String.compare b c = Lt → String.compare a c = Lt.
Proof.
  induction a as [|x a IH]; intros [|y b] [|z c]; simpl; try done.
  destruct (Ascii.compare x y) eqn:E1; try done; destruct (Ascii.compare y z) eqn:E2; try done; intros H1 H2.
  - apply Ascii.compare_eq_iff in E1 as ->. rewrite E2. by eapply IH.
  - apply Ascii.compare_eq_iff in E1 as ->. by rewrite E2.
  - apply Ascii.compare_eq_iff in E2 as ->. by rewrite E1.
  - by rewrite (ascii_compare_trans _ _ _ E1 E2).
Qed.

#[export] Instance string_ord_laws : PyOrdLaws string.
Proof.
  split; unfold py_lt, string_ord.
  - intros a. pose proof (String.compare_antisym a a) as E. by destruct (String.compare a a).
  - intros a b c. destruct (String.compare a b) eqn:E1; try done. destruct (String.compare b c) eqn:E2; try done.
    by rewrite (string_compare_trans _ _ _ E1 E2).
  - intros a b. destruct (String.compare a b) eqn:E1; try done.
    + intros _ _. by apply String.compare_eq_iff.
    + rewrite String.compare_antisym, E1. done.
Qed.

(** Tuples compare from the left. *)
#[export] Instance pair_ord {A B} `{PyOrd A, PyOrd B} : PyOrd (A * B) := fun a b =>
  py_lt a.1 b.1 || (negb (py_lt b.1 a.1) && py_lt a.2 b.2).
#[export] Instance pair_ord_laws {A B} `{PyOrdLaws A, PyOrdLaws B} : PyOrdLaws (A * B).
Proof.
  split; unfold py_lt, pair_ord.
  - intros [a b]. simpl. by rewrite !py_lt_irrefl.
  - intros [a b] [a' b'] [a'' b'']. simpl. rewrite !orb_true_iff, !andb_true_iff, !negb_true_iff.
    intros [H3|[H3 H4]] [H5|[H5 H6]].
    + left. by eapply py_lt_trans.
    + left. destruct (py_lt a a'') eqn:E; [done|].
      destruct (py_lt a' a'') eqn:E'; [by rewrite (py_lt_trans _ _ _ H3 E') in E|]. by rewrite (py_lt_eq _ _ E' H5), E in H3.
    + left. destruct (py_lt a a') eqn:E; [by eapply py_lt_trans|]. by rewrite (py_lt_eq _ _ E H3).
    + destruct (py_lt a a') eqn:E1.
      { destruct (py_lt a' a'') eqn:E2; [left; by eapply py_lt_trans|]. left. by rewrite <-(py_lt_eq _ _ E2 H5). }
      rewrite (py_lt_eq _ _ E1 H3). destruct (py_lt a' a'') eqn:E2; [by left|]. right. split; [done|by eapply py_lt_trans].
  - intros [a b] [a' b']. simpl. rewrite !orb_false_iff, !andb_false_iff, !negb_false_iff.
    intros [H3 H4] [H5 H6]. rewrite H3, H5 in *. f_equal; [by apply py_lt_eq|].
    apply py_lt_eq; [by destruct H4|by destruct H6].
Qed.

(** * The sort *)

Section sort.
Context {A K : Type} `{PyOrd K} (key : A → K).

(** [x] goes before the first element whose key is not smaller. *)
Fixpoint sort_insert (x : A) (l : list A) : list A :=
  match l with
  | [] => [x]
  | y :: l' => if py_lt (key y) (key x) then y :: sort_insert x l' else x :: l
  end.

Definition py_sort (l : list A) : list A := foldr sort_insert [] l.

(** In order: no later element has a smaller key. *)
Definition in_order (l : list A) : Prop := StronglySorted (fun x y => py_lt (key y) (key x) = false) l.

Context `{!PyOrdLaws K, !EqDecision K}.

Lemma sort_insert_perm x l : sort_insert x l ≡ₚ x :: l.
Proof.
  induction l as [|y l IH]; simpl; [done|]. destruct (py_lt _ _); [|done]. rewrite IH. apply Permutation_swap.
Qed.

Lemma py_sort_perm l : py_sort l ≡ₚ l.
Proof. induction l as [|x l IH]; simpl; [done|]. by rewrite sort_insert_perm, IH. Qed.

Lemma py_lt_ge_trans (a b c : K) : py_lt b a = false → py_lt c b = false → py_lt c a = false.
Proof.
  intros H1 H2. destruct (py_lt c a) eqn:E; [|done]. destruct (py_lt a b) eqn:E1.
  - by rewrite (py_lt_trans _ _ _ E E1) in H2.
  - by rewrite (py_lt_eq _ _ E1 H1), H2 in E.
Qed.

Lemma sort_insert_order x l : in_order l → in_order (sort_insert x l).
Proof.
  unfold in_order. induction 1 as [|y l Hs IH Hy]; simpl; [repeat constructor|]. destruct (py_lt (key y) (key x)) eqn:E.
  - constructor; [done|]. rewrite sort_insert_perm. constructor; [|done].
    destruct (py_lt (key x) (key y)) eqn:E'; [|done]. pose proof (py_lt_trans _ _ _ E E') as E2. by rewrite py_lt_irrefl in E2.
  - constructor; [by constructor|]. constructor; [done|]. eapply Forall_impl; [exact Hy|]. intros z Hz. simpl in Hz.
    by eapply py_lt_ge_trans.
Qed.

Lemma py_sort_order l : in_order (py_sort l).
Proof. induction l as [|x l IH]; simpl; [constructor|by apply sort_insert_order]. Qed.

Lemma sort_insert_stable x l k :
  filter (fun y => key y = k) (sort_insert x l) = filter (fun y => key y = k) (x :: l).
Proof.
  induction l as [|y l IH]; [done|]. simpl. destruct (py_lt (key y) (key x)) eqn:E; [|done].
  rewrite filter_cons, IH, !filter_cons. destruct (decide (key y = k)) as [<-|]; [|done].
  destruct (decide (key x = key y)) as [Hx|]; [|done]. by rewrite Hx, py_lt_irrefl in E.
Qed.

(** Elements with equal keys keep their order. *)
Lemma py_sort_stable l k : filter (fun y => key y = k) (py_sort l) = filter (fun y => key y = k) l.
Proof.
  induction l as [|x l IH]; [done|]. simpl. rewrite sort_insert_stable, !filter_cons, IH. done.
Qed.

(** What a caller of [list.sort] may rely on. *)
Definition sorted_by (l l' : list A) : Prop :=
  l' ≡ₚ l ∧ in_order l' ∧ ∀ k, filter (fun y => key y = k) l' = filter (fun y => key y = k) l.

Lemma py_sort_spec l : sorted_by l (py_sort l).
Proof. split; [apply py_sort_perm|]. split; [apply py_sort_order|apply py_sort_stable]. Qed.

End sort.

#[export] Hint Resolve py_sort_perm py_sort_spec : redknot.
