(* ===== verification/Tensor.v ===== *)
(** The tensor primitives the RedKnot modules call.

    A tensor is a nested list whose innermost elements are the [head_dim]-wide
    rows of one token; the width is carried along so that [shape] is the one
    PyTorch reports.  The element type of a row stays abstract: no modelled
    routine but the attention kernels looks inside a row.  Devices and
    [.contiguous()], [.cpu()], [.clone()] copies do not change a value and are
    not part of the model; conversion to another dtype is the parameter [cast]
    of the routines that convert. *)

From S2P Require Import Prelude.

(** [T2 D rows] is [L, D]; [T3 L D heads] is [H, L, D]; [T4 L D batches] is
    [B, H, L, D]; [TOther s] is a tensor of any other rank with shape [s]. *)
Inductive tensor (row : Type) :=
  | T2 (D : nat) (rows : list row)
  | T3 (L D : nat) (heads : list (list row))
  | T4 (L D : nat) (batches : list (list (list row)))
  | TOther (s : list nat).
Arguments T2 {_} _ _.
Arguments T3 {_} _ _ _.
Arguments T4 {_} _ _ _.
Arguments TOther {_} _.

(** [torch.arange(a, b)]: raises when the bounds are inverted. *)
Definition arange (a b : Z) : result (list Z) :=
  if bool_decide (a ≤ b)%Z then Ok (seqZ a (b - a)) else Raise RuntimeError.

(** [x.index_select(0, idx)]: raises on an index outside [0, len). *)
Definition index_select {A} (l : list A) (idx : list Z) : result (list A) :=
  traverse (fun i => if bool_decide (0 ≤ i)%Z
                     then match l !! Z.to_nat i with
                          | Some x => Ok x
                          | None => Raise IndexError
                          end
                     else Raise IndexError) idx.

(** [dst.index_copy_(0, idx, src)]: row [src[k]] goes to [dst[idx[k]]]. *)
Definition index_copy {A} (dst : list A) (idx : list Z) (src : list A) : result (list A) :=
  if bool_decide (length idx = length src) then
    foldM (fun d p => if bool_decide (0 ≤ p.1 < Z.of_nat (length d))%Z
                      then Ok (<[Z.to_nat p.1 := p.2]> d)
                      else Raise IndexError) (zip idx src) dst
  else Raise IndexError.

(** [dst[:n] = src] where [src] has [n] rows; the destination is at least that long. *)
Definition write_prefix {A} (dst src : list A) : list A := src ++ drop (length src) dst.

(** Positions a head keeps, as a predicate over [0, L). *)
Definition positions_of (L : Z) (P : Z → bool) : list Z :=
  filter (fun i => P i = true) (seqZ 0 L).

(** * Lemmas *)

Lemma arange_ok a b : (a ≤ b)%Z → arange a b = Ok (seqZ a (b - a)).
Proof. intros H. unfold arange. by rewrite bool_decide_eq_true_2. Qed.

Lemma seqZ_split a b c : (a ≤ b ≤ c)%Z → seqZ a (c - a) = seqZ a (b - a) ++ seqZ b (c - b).
Proof.
  intros [H1 H2]. replace (c - a)%Z with ((b - a) + (c - b))%Z by lia.
  rewrite seqZ_app by lia. do 2 f_equal. lia.
Qed.

(** Selecting rows that are all in range returns them in the given order. *)
Lemma index_select_ok {A} (l : list A) (idx : list Z) :
  Forall (fun i => 0 ≤ i < Z.of_nat (length l))%Z idx →
  ∃ r, index_select l idx = Ok r ∧
       Forall2 (fun i x => l !! Z.to_nat i = Some x) idx r.
Proof.
  induction 1 as [|i idx Hi Hidx IH]; [by exists []|].
  destruct IH as (r & Hr & HF).
  element l (Z.to_nat i) as x Hx.
  exists (x :: r). split; [|by constructor].
  unfold index_select in *. simpl. rewrite bool_decide_eq_true_2 by lia.
  rewrite Hx. run_bind. rewrite Hr. done.
Qed.

Lemma index_select_Forall2 {A} (l : list A) (idx : list Z) r :
  index_select l idx = Ok r → Forall2 (fun i x => (0 ≤ i)%Z ∧ l !! Z.to_nat i = Some x) idx r.
Proof.
  intros H%traverse_Ok. eapply Forall2_impl; [exact H|]. intros i x; simpl.
  case_bool_decide; [|done]. destruct (l !! Z.to_nat i); [|done]. by intros [= ->].
Qed.

Lemma index_select_length {A} (l : list A) idx r :
  index_select l idx = Ok r → length r = length idx.
Proof. apply traverse_length. Qed.

(** Selecting every position returns the tensor itself. *)
Lemma index_select_all {A} (l : list A) :
  index_select l (seqZ 0 (Z.of_nat (length l))) = Ok l.
Proof.
  apply traverse_Ok. apply Forall2_same_length_lookup.
  rewrite length_seqZ, Nat2Z.id. split; [done|].
  intros i z x Hz Hx. apply lookup_seqZ in Hz as [-> Hi].
  rewrite bool_decide_eq_true_2 by lia.
  replace (Z.to_nat (0 + Z.of_nat i)) with i by lia. by rewrite Hx.
Qed.

Lemma index_copy_length {A} (dst : list A) idx src r :
  index_copy dst idx src = Ok r → length r = length dst.
Proof.
  unfold index_copy. case_bool_decide; [|done]. intros Hf.
  refine (foldM_preserves (fun d => length d = length dst) _ _ _ _ _ eq_refl Hf).
  intros s p s' _ Hs. case_bool_decide; [|done]. intros [= <-]. by rewrite length_insert.
Qed.

Lemma write_prefix_length {A} (dst src : list A) :
  length src ≤ length dst → length (write_prefix dst src) = length dst.
Proof. intros H. unfold write_prefix. len_lia. Qed.

Lemma take_write_prefix {A} (dst src : list A) n :
  n = length src → take n (write_prefix dst src) = src.
Proof. intros ->. unfold write_prefix. by rewrite take_app_length. Qed.

Lemma elem_of_positions_of L P i : i ∈ positions_of L P ↔ (0 ≤ i < L)%Z ∧ P i = true.
Proof. unfold positions_of. rewrite list_elem_of_filter, elem_of_seqZ. naive_solver lia. Qed.

Lemma positions_of_range L P : Forall (fun i => 0 ≤ i < L)%Z (positions_of L P).
Proof. apply Forall_forall. intros i. rewrite elem_of_positions_of. tauto. Qed.

Lemma NoDup_positions_of L P : NoDup (positions_of L P).
Proof. apply NoDup_filter, NoDup_seqZ. Qed.

Lemma length_positions_of L P : (0 ≤ L)%Z → (Z.of_nat (length (positions_of L P)) ≤ L)%Z.
Proof.
  intros HL. unfold positions_of.
  pose proof (length_filter (fun i => P i = true) (seqZ 0 L)).
  rewrite length_seqZ in *. lia.
Qed.

(** Scattering distinct in-range positions: each written position holds its
    row, every other position is untouched. *)
Lemma index_copy_spec {A} (dst : list A) idx src :
  NoDup idx → Forall (fun i => 0 ≤ i < Z.of_nat (length dst))%Z idx →
  length idx = length src →
  ∃ r, index_copy dst idx src = Ok r ∧
    (∀ k i x, idx !! k = Some i → src !! k = Some x → r !! Z.to_nat i = Some x) ∧
    (∀ j : nat, Z.of_nat j ∉ idx → r !! j = dst !! j).
Proof.
  intros Hnd Hin Hlen. unfold index_copy. rewrite bool_decide_eq_true_2 by done.
  revert dst src Hlen Hin. induction idx as [|i idx IH]; intros dst [|x src] Hlen Hin;
    try discriminate.
  { exists dst. split; [done|]. split; [done|done]. }
  apply NoDup_cons in Hnd as [Hni Hnd]. apply Forall_cons in Hin as [Hi Hin].
  injection Hlen as Hlen. cbn [zip zip_with foldM fst snd].
  rewrite bool_decide_eq_true_2 by done. run_bind.
  destruct (IH Hnd (<[Z.to_nat i:=x]> dst) src Hlen) as (r & Hr & Hw & Ho).
  { eapply Forall_impl; [exact Hin|]. intros z Hz. simpl in Hz. by rewrite length_insert. }
  exists r. split; [exact Hr|]. split.
  - intros [|k] i' x' Hk Hs; simpl in Hk, Hs; [|by eapply Hw].
    injection Hk as <-. injection Hs as <-.
    rewrite Ho by (rewrite Z2Nat.id by lia; done).
    apply list_lookup_insert_eq. lia.
  - intros j Hj. rewrite Ho by set_solver. apply list_lookup_insert_ne.
    intros <-. apply Hj. rewrite Z2Nat.id by lia. left.
Qed.

(** [dst[:n] = src]: the source must have [n] rows, or one row that broadcasts. *)
Definition assign_prefix {A} (dst : list A) (n : nat) (src : list A) : result (list A) :=
  if bool_decide (length src = n) then Ok (write_prefix dst src)
  else match src with
       | [x] => Ok (write_prefix dst (replicate n x))
       | _ => Raise RuntimeError
       end.

Lemma assign_prefix_ok {A} (dst src : list A) n :
  length src = n → assign_prefix dst n src = Ok (write_prefix dst src).
Proof. intros H. unfold assign_prefix. by rewrite bool_decide_eq_true_2. Qed.

(** The rows at in-range positions, as a total function. *)
Definition select_rows {A} (l : list A) (idx : list Z) : list A :=
  omap (fun i => l !! Z.to_nat i) idx.

Lemma index_select_rows {A} (l : list A) (idx : list Z) :
  Forall (fun i => 0 ≤ i < Z.of_nat (length l))%Z idx →
  index_select l idx = Ok (select_rows l idx) ∧ length (select_rows l idx) = length idx.
Proof.
  intros Hin. destruct (index_select_ok l idx Hin) as (r & Hr & HF).
  enough (select_rows l idx = r) as -> by (split; [done|by eapply index_select_length]).
  clear Hr Hin. induction HF as [|i x idx r Hx _ IH]; [done|].
  unfold select_rows in *. simpl. rewrite Hx. f_equal. exact IH.
Qed.

(** Scattering converted rows back into a zero tensor: the rows at the selected
    positions, zeros everywhere else. *)
Definition padded {row} (zero_row : row) (cast : row → row) (P : Z → bool) (k : list row) : list row :=
  imap (fun j x => if P (Z.of_nat j) then cast x else zero_row) k.

Lemma index_copy_padded {row} (zero_row : row) (cast : row → row) L P (k : list row) :
  length k = L →
  index_copy (replicate L zero_row) (positions_of (Z.of_nat L) P)
    (cast <$> select_rows k (positions_of (Z.of_nat L) P)) = Ok (padded zero_row cast P k).
Proof.
  intros Hk. pose proof (positions_of_range (Z.of_nat L) P) as Hr.
  destruct (index_select_rows k (positions_of (Z.of_nat L) P)) as [Hsel Hlen]; [by rewrite Hk|].
  destruct (index_copy_spec (replicate L zero_row) (positions_of (Z.of_nat L) P)
              (cast <$> select_rows k (positions_of (Z.of_nat L) P))) as (r & Hr' & Hw & Ho).
  - apply NoDup_positions_of.
  - by rewrite length_replicate.
  - by rewrite length_fmap.
  - rewrite Hr'. f_equal. apply list_eq. intros j. unfold padded. rewrite list_lookup_imap.
    pose proof (index_copy_length _ _ _ _ Hr') as Hlr. rewrite length_replicate in Hlr.
    destruct (decide (j < L)) as [Hj|Hj].
    2: { rewrite !lookup_ge_None_2 by lia. done. }
    element k j as x Hx. rewrite Hx. simpl.
    destruct (P (Z.of_nat j)) eqn:HP.
    + assert (Hin : Z.of_nat j ∈ positions_of (Z.of_nat L) P) by (apply elem_of_positions_of; split; [lia|done]).
      apply list_elem_of_lookup in Hin as [n Hn].
      apply index_select_Forall2 in Hsel.
      destruct (Forall2_lookup_l _ _ _ _ _ Hsel Hn) as (y & Hy & _ & Hy').
      rewrite Nat2Z.id, Hx in Hy'. injection Hy' as <-.
      rewrite <-(Nat2Z.id j). apply (Hw n); [done|]. by rewrite list_lookup_fmap, Hy.
    + rewrite Ho; [by rewrite lookup_replicate_2|]. rewrite elem_of_positions_of. intros [_ ?]. congruence.
Qed.
