(* ===== verification/HeadConfig.v ===== *)
(** Head classification ([redknot/head_config.py]): the per-(layer, kv head)
    strategy table, its validation, its lookups and its two in-place rewrites,
    with the per-device cache of integer views the kernels consume. *)

From Stdlib Require Import QArith.
From S2P Require Import Prelude.
Local Open Scope Z_scope.

Definition HEAD_LOCAL : string := "local".
Definition HEAD_GLOBAL : string := "global".
Definition HEAD_RETRIEVAL : string := "retrieval".
Definition HEAD_DENSE : string := "dense".

Definition DEFAULT_LOCAL_WINDOW : Z := 512.
Definition DEFAULT_SINK_SIZE : Z := 4.
Definition DEFAULT_RETRIEVAL_TOP_P : Q := 9 # 10.

Definition ALLOWED_TYPES : list string :=
  [HEAD_LOCAL; HEAD_GLOBAL; HEAD_RETRIEVAL; HEAD_DENSE].

Definition LEGACY_MAP : gmap string string :=
  list_to_map [("local_full", HEAD_LOCAL); ("limited", HEAD_LOCAL);
               ("streaming", HEAD_LOCAL); ("sink_dominant", HEAD_LOCAL)]%string.

Record HeadStrategy := mkHeadStrategy {
  layer : Z;
  kv_head : Z;
  head_type : string;
  window : Z;
  sink_size : Z;
}.

Definition is_local (s : HeadStrategy) : bool := bool_decide (head_type s = HEAD_LOCAL).
Definition is_global (s : HeadStrategy) : bool := bool_decide (head_type s = HEAD_GLOBAL).
Definition is_retrieval (s : HeadStrategy) : bool := bool_decide (head_type s = HEAD_RETRIEVAL).
Definition is_dense (s : HeadStrategy) : bool := bool_decide (head_type s = HEAD_DENSE).

(** The integer views of one device: [L, KVH] matrices of type, window, sink. *)
Record TensorBundle := mkBundle {
  b_dtype : string;
  b_head_type : list (list Z);
  b_window : list (list Z);
  b_sink_size : list (list Z);
  b_retrieval_top_p : Q;
}.

Record HeadClassConfig := mkConfig {
  head_class : list (list string);
  head_max_distance : list (list Z);
  head_sink_size : option (list (list Z));
  num_layers : Z;
  num_kv_heads : Z;
  default_sink_size : Z;
  local_default_window : Z;
  retrieval_top_p : Q;
  dense_prefix_layers : Z;
  cached_tensors : gmap string TensorBundle;
}.

(** One cell of [_normalize]: allowed names stay, legacy names are renamed,
    anything else raises. *)
Definition normalize_cell (t : string) : result (string * Z) :=
  if bool_decide (t ∈ ALLOWED_TYPES) then Ok (t, 0)
  else match LEGACY_MAP !! t with
       | Some t' => Ok (t', 0)
       | None => Raise ValueError
       end.

Definition _normalize (nl nh : Z) (hc : list (list string)) : result (list (list string)) :=
  do! s <- for_cells nl nh (cell_step normalize_cell) (hc, 0);
  Ok s.1.

(** [HeadClassConfig.__init__]. *)
Definition init_config
    (hc : list (list string)) (hmd : list (list Z)) (nl nh : Z)
    (hss : option (list (list Z))) (dss ldw : Z) (rtp : Q) (dpl : Z)
  : result HeadClassConfig :=
  assert! bool_decide (Z.of_nat (length hc) = nl);
  do! row0 <- py_get hc 0;
  assert! bool_decide (Z.of_nat (length row0) = nh);
  do! hc' <- _normalize nl nh hc;
  Ok {| head_class := hc'; head_max_distance := hmd; head_sink_size := hss;
        num_layers := nl; num_kv_heads := nh; default_sink_size := dss;
        local_default_window := ldw; retrieval_top_p := rtp;
        dense_prefix_layers := dpl; cached_tensors := ∅ |}.

(** The parsed JSON object [from_json] reads. *)
Record ConfigJson := mkJson {
  kv_head_classification : option (list (list string));
  kv_head_max_distance : option (list (list Z));
  kv_head_sink_size : option (list (list Z));
  j_num_layers : option Z;
  j_num_kv_heads : option Z;
  j_retrieval_top_p : option Q;
  j_dense_prefix_layers : option Z;
}.

Definition require_key {A} (o : option A) : result A :=
  match o with Some a => Ok a | None => Raise KeyError end.

Definition from_json (data : ConfigJson) (dss ldw : Z) : result HeadClassConfig :=
  do! hc <- require_key (kv_head_classification data);
  do! hmd <- require_key (kv_head_max_distance data);
  do! nl <- require_key (j_num_layers data);
  do! nh <- require_key (j_num_kv_heads data);
  init_config hc hmd nl nh (kv_head_sink_size data) dss ldw
    (default DEFAULT_RETRIEVAL_TOP_P (j_retrieval_top_p data))
    (default 0 (j_dense_prefix_layers data)).

Definition _sink_at (c : HeadClassConfig) (li kvh : Z) : result Z :=
  match head_sink_size c with
  | Some m => py_get2 m li kvh
  | None => Ok (default_sink_size c)
  end.

Definition get_strategy (c : HeadClassConfig) (li kvh : Z) : result HeadStrategy :=
  if bool_decide (li < dense_prefix_layers c) then
    do! ss <- _sink_at c li kvh;
    Ok (mkHeadStrategy li kvh HEAD_DENSE (-1) ss)
  else
    do! htype <- py_get2 (head_class c) li kvh;
    do! max_d <- py_get2 (head_max_distance c) li kvh;
    do! ss <- _sink_at c li kvh;
    do! w <- (if bool_decide (htype = HEAD_GLOBAL) then Ok (-1)
              else if bool_decide (htype = HEAD_LOCAL) then
                Ok (if bool_decide (max_d > 0) then max_d else local_default_window c)
              else if bool_decide (htype = HEAD_RETRIEVAL) then Ok (-1)
              else if bool_decide (htype = HEAD_DENSE) then Ok (-1)
              else Raise ValueError);
    Ok (mkHeadStrategy li kvh htype w ss).

(** In-place rewrites return the new configuration and the number of cells
    changed; both drop every cached view. *)
Definition window_cell (new_window d : Z) : result (Z * Z) :=
  Ok (if bool_decide (d > 0) then (new_window, 1) else (d, 0)).

Definition set_local_window (new_window : Z) (c : HeadClassConfig)
  : result (HeadClassConfig * Z) :=
  do! s <- for_cells (num_layers c) (num_kv_heads c)
             (cell_step (window_cell new_window)) (head_max_distance c, 0);
  Ok ({| head_class := head_class c; head_max_distance := s.1;
         head_sink_size := head_sink_size c; num_layers := num_layers c;
         num_kv_heads := num_kv_heads c; default_sink_size := default_sink_size c;
         local_default_window := local_default_window c;
         retrieval_top_p := retrieval_top_p c;
         dense_prefix_layers := dense_prefix_layers c; cached_tensors := ∅ |}, s.2).

Definition merge_cell (t : string) : result (string * Z) :=
  Ok (if bool_decide (t = HEAD_RETRIEVAL) then (HEAD_GLOBAL, 1) else (t, 0)).

Definition merge_retrieval_to_global (c : HeadClassConfig) : result (HeadClassConfig * Z) :=
  do! s <- for_cells (num_layers c) (num_kv_heads c) (cell_step merge_cell) (head_class c, 0);
  Ok ({| head_class := s.1; head_max_distance := head_max_distance c;
         head_sink_size := head_sink_size c; num_layers := num_layers c;
         num_kv_heads := num_kv_heads c; default_sink_size := default_sink_size c;
         local_default_window := local_default_window c;
         retrieval_top_p := retrieval_top_p c;
         dense_prefix_layers := dense_prefix_layers c; cached_tensors := ∅ |}, s.2).

(** [collections.Counter]. *)
Definition counter (l : list string) : gmap string Z :=
  foldl (fun m t => <[t := default 0 (m !! t) + 1]> m) ∅ l.

(** The flat list of effective classes, row by row. *)
Definition flat_classes (c : HeadClassConfig) : result (list string) :=
  for_cells (num_layers c) (num_kv_heads c)
    (fun li kvh flat =>
       if bool_decide (li < dense_prefix_layers c) then Ok (flat ++ [HEAD_DENSE])
       else do! t <- py_get2 (head_class c) li kvh; Ok (flat ++ [t])) [].

Definition summary (c : HeadClassConfig) : result (gmap string Z) :=
  do! flat <- flat_classes c;
  Ok (<["dense_prefix_layers"%string := dense_prefix_layers c]>
       (<["total"%string := num_layers c * num_kv_heads c]> (counter flat))).

Definition TYPE_LOCAL : Z := 0.
Definition TYPE_GLOBAL : Z := 1.
Definition TYPE_RETRIEVAL : Z := 2.
Definition TYPE_DENSE : Z := 3.

Definition TYPE_TO_INT : gmap string Z :=
  list_to_map [(HEAD_LOCAL, TYPE_LOCAL); (HEAD_GLOBAL, TYPE_GLOBAL);
               (HEAD_RETRIEVAL, TYPE_RETRIEVAL); (HEAD_DENSE, TYPE_DENSE)].

(** One [L, KVH] integer matrix filled from the strategies. *)
Definition fill_matrix (c : HeadClassConfig) (f : HeadStrategy → result Z)
  : result (list (list Z)) :=
  traverse (fun li => traverse (fun kvh => do! s <- get_strategy c li kvh; f s)
                               (range (num_kv_heads c))) (range (num_layers c)).

Definition compute_bundle (c : HeadClassConfig) (dtype : string) : result TensorBundle :=
  do! types <- fill_matrix c (fun s => py_lookup TYPE_TO_INT (head_type s));
  do! windows <- fill_matrix c (fun s => Ok (window s));
  do! sinks <- fill_matrix c (fun s => Ok (sink_size s));
  Ok (mkBundle dtype types windows sinks (retrieval_top_p c)).

Definition with_cache (c : HeadClassConfig) (ct : gmap string TensorBundle) : HeadClassConfig :=
  {| head_class := head_class c; head_max_distance := head_max_distance c;
     head_sink_size := head_sink_size c; num_layers := num_layers c;
     num_kv_heads := num_kv_heads c; default_sink_size := default_sink_size c;
     local_default_window := local_default_window c; retrieval_top_p := retrieval_top_p c;
     dense_prefix_layers := dense_prefix_layers c; cached_tensors := ct |}.

(** [as_tensors]: the cached bundle of the device, else a freshly built one. *)
Definition as_tensors (device dtype : string) (c : HeadClassConfig)
  : result (HeadClassConfig * TensorBundle) :=
  match cached_tensors c !! device with
  | Some b => Ok (c, b)
  | None =>
      do! b <- compute_bundle c dtype;
      Ok (with_cache c (<[device := b]> (cached_tensors c)), b)
  end.

(** * Invariant and specification vocabulary *)

(** The name [_normalize] leaves in a cell. *)
Definition canon (t : string) : option string :=
  if bool_decide (t ∈ ALLOWED_TYPES) then Some t else LEGACY_MAP !! t.

Definition known_cells (hc : list (list string)) : bool :=
  forallb (forallb (fun t => bool_decide (is_Some (canon t)))) hc.

Record wf_config (R C : nat) (c : HeadClassConfig) : Prop := {
  wf_layers : num_layers c = Z.of_nat R;
  wf_heads : num_kv_heads c = Z.of_nat C;
  wf_class : rect R C (head_class c);
  wf_allowed : Forall (Forall (fun t => t ∈ ALLOWED_TYPES)) (head_class c);
  wf_distance : rect R C (head_max_distance c);
  wf_sink : match head_sink_size c with Some m => rect R C m | None => True end;
}.

(** Every cached bundle holds the values the current tables give. *)
Definition cache_coherent (c : HeadClassConfig) : Prop :=
  ∀ device b, cached_tensors c !! device = Some b →
    ∃ dtype, compute_bundle c dtype = Ok b.

(** The two tables a cell is classified from, as the code combines them. *)
Definition effective_type (c : HeadClassConfig) (li : Z) (t : string) : string :=
  if bool_decide (li < dense_prefix_layers c) then HEAD_DENSE else t.

Definition effective_window (c : HeadClassConfig) (t : string) (d : Z) : Z :=
  if bool_decide (t = HEAD_LOCAL)
  then (if bool_decide (d > 0) then d else local_default_window c) else -1.

(** Operations a running server performs on a configuration. *)
Inductive config_step : HeadClassConfig → HeadClassConfig → Prop :=
  | step_window c c' w n : set_local_window w c = Ok (c', n) → config_step c c'
  | step_merge c c' n : merge_retrieval_to_global c = Ok (c', n) → config_step c c'
  | step_tensors c c' dev dt b : as_tensors dev dt c = Ok (c', b) → config_step c c'.

(** * Lemmas *)

Lemma canon_normalize t : normalize_cell t =
  match canon t with Some t' => Ok (t', 0) | None => Raise ValueError end.
Proof. unfold normalize_cell, canon. case_bool_decide; [done|]. by destruct (LEGACY_MAP !! t). Qed.

Lemma legacy_allowed t t' : LEGACY_MAP !! t = Some t' → t' = HEAD_LOCAL.
Proof.
  unfold LEGACY_MAP. cbn [list_to_map fst snd foldr]. rewrite !lookup_insert.
  repeat case_decide; try congruence. by rewrite lookup_empty.
Qed.

Lemma canon_allowed t t' : canon t = Some t' → t' ∈ ALLOWED_TYPES.
Proof.
  unfold canon. case_bool_decide; [by intros [= <-]|].
  intros ->%legacy_allowed. unfold ALLOWED_TYPES. left.
Qed.

Lemma known_cells_true hc :
  known_cells hc = true ↔ Forall (Forall (fun t => is_Some (canon t))) hc.
Proof.
  unfold known_cells. rewrite <-Is_true_true, forallb_True.
  apply Forall_iff. intros row. rewrite forallb_True. apply Forall_iff. intros t.
  by rewrite bool_decide_spec.
Qed.

Lemma normalize_known hc :
  known_cells hc = true →
  traverse (traverse normalize_cell) hc
  = Ok (mat_map (fun t => (default t (canon t), 0)) hc).
Proof.
  intros H%known_cells_true. apply traverse_pure. intros row Hrow.
  eapply Forall_forall in H; [|exact Hrow]. apply traverse_pure. intros t Ht.
  eapply Forall_forall in H; [|exact Ht]. destruct H as [t' Ht'].
  by rewrite canon_normalize, Ht'.
Qed.

Lemma normalize_raise e t : normalize_cell t = Raise e → e = ValueError.
Proof. rewrite canon_normalize. destruct (canon t); congruence. Qed.

Lemma normalize_unknown hc :
  known_cells hc = false → traverse (traverse normalize_cell) hc = Raise ValueError.
Proof.
  intros H. destruct (traverse (traverse normalize_cell) hc) as [o|e] eqn:E.
  - assert (known_cells hc = true); [|congruence].
    apply known_cells_true, Forall_lookup_2. intros i row Hi.
    apply Forall_lookup_2. intros j t Hj.
    destruct (traverse2_lookup _ _ _ _ _ _ _ E Hi Hj) as (? & ? & _ & _ & Ht).
    rewrite canon_normalize in Ht. destruct (canon t); [done|discriminate].
  - apply traverse_Raise in E as (row & _ & (t & _ & ?%normalize_raise)%traverse_Raise).
    by subst.
Qed.

Lemma _normalize_ok R C hc :
  rect R C hc →
  _normalize (Z.of_nat R) (Z.of_nat C) hc
  = if known_cells hc then Ok (mat_map (fun t => default t (canon t)) hc)
    else Raise ValueError.
Proof.
  intros Hr. unfold _normalize. destruct (known_cells hc) eqn:Hk.
  - rewrite (cell_loop_ok _ R C hc _ _ Hr (normalize_known _ Hk)). run_bind. f_equal.
    cbn [fst]. unfold mat_map. rewrite <-list_fmap_compose. apply list_fmap_ext.
    intros i row _. unfold compose. by rewrite <-list_fmap_compose.
  - by rewrite (cell_loop_raise _ R C hc _ _ Hr (normalize_unknown _ Hk)).
Qed.

(** The constructor accepts exactly the tables whose every cell is a class
    name or a legacy alias; it then yields a well-formed configuration whose
    cells are the canonical names, and otherwise raises [ValueError]. *)
Theorem init_config_spec R C hc hmd hss dss ldw rtp dpl :
  rect (S R) C hc → rect (S R) C hmd →
  match hss with Some m => rect (S R) C m | None => True end →
  init_config hc hmd (Z.of_nat (S R)) (Z.of_nat C) hss dss ldw rtp dpl
  = (if known_cells hc
     then Ok (mkConfig (mat_map (fun t => default t (canon t)) hc) hmd hss
                (Z.of_nat (S R)) (Z.of_nat C) dss ldw rtp dpl ∅)
     else Raise ValueError) ∧
  (known_cells hc = true →
   wf_config (S R) C (mkConfig (mat_map (fun t => default t (canon t)) hc) hmd hss
                        (Z.of_nat (S R)) (Z.of_nat C) dss ldw rtp dpl ∅)).
Proof.
  intros Hr Hd Hs. split.
  - unfold init_config. destruct Hr as [Hl HC]. rewrite bool_decide_eq_true_2 by lia.
    destruct hc as [|row0 hc]; [done|]. change (py_get (row0 :: hc) 0) with (Ok row0).
    run_bind. rewrite bool_decide_eq_true_2 by (apply Forall_cons in HC as [-> _]; done).
    rewrite (_normalize_ok (S R) C) by done. by destruct (known_cells _).
  - intros Hk. constructor; try done; simpl.
    + auto with redknot.
    + apply known_cells_true in Hk. unfold mat_map. apply Forall_fmap.
      eapply Forall_impl; [exact Hk|]. intros row Hrow. apply Forall_fmap.
      eapply Forall_impl; [exact Hrow|]. intros t [t' Ht']. simpl.
      rewrite Ht'. simpl. by eapply canon_allowed.
Qed.

Definition demo_class : list (list string) :=
  [["streaming"; "global"]; ["retrieval"; "dense"]; ["local"; "local_full"]]%string.
Definition demo_distance : list (list Z) := [[256; -1]; [-1; -1]; [-1; 64]].
Definition demo_config : HeadClassConfig :=
  mkConfig (mat_map (fun t => default t (canon t)) demo_class) demo_distance None
    3 2 4 512 (9 # 10) 0 ∅.

Lemma init_config_spec_witness :
  init_config demo_class demo_distance 3 2 None 4 512 (9 # 10) 0 = Ok demo_config ∧
  wf_config 3 2 demo_config.
Proof.
  destruct (init_config_spec 2 2 demo_class demo_distance None 4 512 (9 # 10) 0) as [H1 H2].
  - by apply (bool_decide_unpack (rect 3 2 demo_class)).
  - by apply (bool_decide_unpack (rect 3 2 demo_distance)).
  - exact I.
  - split; [exact H1|]. apply H2. reflexivity.
Defined.

Lemma sink_at_total R C c (i j : nat) :
  wf_config R C c → (i < R)%nat → (j < C)%nat → ∃ ss, _sink_at c (Z.of_nat i) (Z.of_nat j) = Ok ss.
Proof.
  intros Hc Hi Hj. unfold _sink_at. pose proof (wf_sink _ _ _ Hc) as Hs.
  destruct (head_sink_size c) as [m|]; [|eauto].
  destruct (rect_lookup2 R C m i j Hs Hi Hj) as (row & x & H1 & H2).
  exists x. by apply (py_get2_nat _ _ _ row).
Qed.

Lemma allowed_cases t :
  t ∈ ALLOWED_TYPES → t = HEAD_LOCAL ∨ t = HEAD_GLOBAL ∨ t = HEAD_RETRIEVAL ∨ t = HEAD_DENSE.
Proof. unfold ALLOWED_TYPES. rewrite !elem_of_cons, elem_of_nil. tauto. Qed.

Lemma wf_cell_allowed R C c i j row t :
  wf_config R C c → head_class c !! i = Some row → row !! j = Some t → t ∈ ALLOWED_TYPES.
Proof.
  intros Hc Hi Hj. pose proof (wf_allowed _ _ _ Hc) as Ha.
  eapply Forall_lookup_1 in Ha; [|exact Hi]. by eapply Forall_lookup_1 in Ha.
Qed.

Lemma wf_cells R C c (i j : nat) :
  wf_config R C c → (i < R)%nat → (j < C)%nat →
  ∃ t d ss, t ∈ ALLOWED_TYPES ∧
    py_get2 (head_class c) (Z.of_nat i) (Z.of_nat j) = Ok t ∧
    py_get2 (head_max_distance c) (Z.of_nat i) (Z.of_nat j) = Ok d ∧
    _sink_at c (Z.of_nat i) (Z.of_nat j) = Ok ss.
Proof.
  intros Hc Hi Hj.
  destruct (rect_lookup2 R C _ i j (wf_class _ _ _ Hc) Hi Hj) as (row & t & Hr & Ht).
  destruct (rect_lookup2 R C _ i j (wf_distance _ _ _ Hc) Hi Hj) as (rowd & d & Hrd & Hd).
  destruct (sink_at_total R C c i j Hc Hi Hj) as [ss Hss].
  exists t, d, ss. split; [by eapply wf_cell_allowed|].
  split; [by eapply py_get2_nat|]. split; [by eapply py_get2_nat|done].
Qed.

Lemma get_strategy_cells c li kvh t d ss :
  t ∈ ALLOWED_TYPES →
  py_get2 (head_class c) li kvh = Ok t →
  py_get2 (head_max_distance c) li kvh = Ok d →
  _sink_at c li kvh = Ok ss →
  get_strategy c li kvh
  = Ok (mkHeadStrategy li kvh (effective_type c li t)
          (effective_window c (effective_type c li t) d) ss).
Proof.
  intros Ha Ht Hd Hs. unfold get_strategy, effective_type.
  rewrite Ht, Hd, Hs. case_bool_decide; run_bind; [done|].
  unfold effective_window.
  apply allowed_cases in Ha as [-> | [-> | [-> | ->]]]; done.
Qed.

(** On a well-formed configuration [get_strategy] never raises inside the
    table; it returns the dense class in the dense prefix and the table's class
    below it, the window of a local head (its own positive distance, else the
    default) and [-1] for every other class. *)
Theorem get_strategy_spec R C c (i j : nat) :
  wf_config R C c → (i < R)%nat → (j < C)%nat →
  ∃ t d ss,
    py_get2 (head_class c) (Z.of_nat i) (Z.of_nat j) = Ok t ∧
    py_get2 (head_max_distance c) (Z.of_nat i) (Z.of_nat j) = Ok d ∧
    get_strategy c (Z.of_nat i) (Z.of_nat j)
    = Ok (mkHeadStrategy (Z.of_nat i) (Z.of_nat j) (effective_type c (Z.of_nat i) t)
            (effective_window c (effective_type c (Z.of_nat i) t) d) ss) ∧
    effective_type c (Z.of_nat i) t ∈ ALLOWED_TYPES.
Proof.
  intros Hc Hi Hj. destruct (wf_cells R C c i j Hc Hi Hj) as (t & d & ss & Ha & Ht & Hd & Hs).
  exists t, d, ss. split; [done|]. split; [done|].
  split; [by apply get_strategy_cells|].
  unfold effective_type. case_bool_decide; [|done]. by apply (bool_decide_unpack _).
Qed.

Lemma demo_config_wf : wf_config 3 2 demo_config.
Proof.
  constructor; try done.
  - by apply (bool_decide_unpack (rect 3 2 (head_class demo_config))).
  - by apply (bool_decide_unpack (Forall (Forall (fun t => t ∈ ALLOWED_TYPES)) (head_class demo_config))).
  - by apply (bool_decide_unpack (rect 3 2 demo_distance)).
Qed.

Lemma get_strategy_spec_witness :
  get_strategy demo_config 2 0 = Ok (mkHeadStrategy 2 0 HEAD_LOCAL 512 4) ∧
  ∃ t d ss,
    py_get2 (head_class demo_config) 2 0 = Ok t ∧
    py_get2 (head_max_distance demo_config) 2 0 = Ok d ∧
    get_strategy demo_config 2 0
    = Ok (mkHeadStrategy 2 0 (effective_type demo_config 2 t)
            (effective_window demo_config (effective_type demo_config 2 t) d) ss) ∧
    effective_type demo_config 2 t ∈ ALLOWED_TYPES.
Proof.
  split; [reflexivity|].
  apply (get_strategy_spec 3 2 demo_config 2 0); [exact demo_config_wf|lia|lia].
Defined.

Lemma set_local_window_eq R C c w :
  wf_config R C c →
  set_local_window w c =
    Ok (mkConfig (head_class c)
          (mat_map (fun d => if bool_decide (d > 0) then w else d) (head_max_distance c))
          (head_sink_size c) (num_layers c) (num_kv_heads c) (default_sink_size c)
          (local_default_window c) (retrieval_top_p c) (dense_prefix_layers c) ∅,
        mat_sum (fun d => if bool_decide (d > 0) then 1 else 0) (head_max_distance c)).
Proof.
  intros Hc. unfold set_local_window. rewrite (wf_layers _ _ _ Hc), (wf_heads _ _ _ Hc).
  rewrite (cell_loop_pure _ (fun d => if bool_decide (d > 0) then w else d)
             (fun d => if bool_decide (d > 0) then 1 else 0) R C);
    [done| |apply (wf_distance _ _ _ Hc)].
  intros d. unfold window_cell. by case_bool_decide.
Qed.

Lemma merge_retrieval_eq R C c :
  wf_config R C c →
  merge_retrieval_to_global c =
    Ok (mkConfig
          (mat_map (fun t => if bool_decide (t = HEAD_RETRIEVAL) then HEAD_GLOBAL else t) (head_class c))
          (head_max_distance c) (head_sink_size c) (num_layers c) (num_kv_heads c)
          (default_sink_size c) (local_default_window c) (retrieval_top_p c)
          (dense_prefix_layers c) ∅,
        mat_sum (fun t => if bool_decide (t = HEAD_RETRIEVAL) then 1 else 0) (head_class c)).
Proof.
  intros Hc. unfold merge_retrieval_to_global. rewrite (wf_layers _ _ _ Hc), (wf_heads _ _ _ Hc).
  rewrite (cell_loop_pure _ (fun t => if bool_decide (t = HEAD_RETRIEVAL) then HEAD_GLOBAL else t)
             (fun t => if bool_decide (t = HEAD_RETRIEVAL) then 1 else 0) R C);
    [done| |apply (wf_class _ _ _ Hc)].
  intros t. unfold merge_cell. by case_bool_decide.
Qed.

Lemma set_local_window_wf R C c w c' n :
  wf_config R C c → set_local_window w c = Ok (c', n) → wf_config R C c'.
Proof.
  intros Hc. rewrite (set_local_window_eq R C) by done. intros [= <- _].
  destruct Hc. constructor; try done. by apply rect_fmap.
Qed.

Lemma merge_retrieval_wf R C c c' n :
  wf_config R C c → merge_retrieval_to_global c = Ok (c', n) → wf_config R C c'.
Proof.
  intros Hc. rewrite (merge_retrieval_eq R C) by done. intros [= <- _].
  destruct Hc. constructor; try done; [by apply rect_fmap|]. simpl.
  unfold mat_map. apply Forall_fmap. eapply Forall_impl; [eassumption|].
  intros row Hrow. apply Forall_fmap. eapply Forall_impl; [exact Hrow|].
  intros t Ht. simpl. case_bool_decide; [|done]. by apply (bool_decide_unpack _).
Qed.

Lemma as_tensors_wf R C c dev dt c' b :
  wf_config R C c → as_tensors dev dt c = Ok (c', b) → wf_config R C c'.
Proof.
  intros Hc. unfold as_tensors. destruct (cached_tensors c !! dev); [by intros [= <- _]|].
  intros H. bind_inv H. injection H as <- _. by destruct Hc.
Qed.

(** A step keeps the topology of the configuration. *)
Lemma config_step_wf R C c c' : wf_config R C c → config_step c c' → wf_config R C c'.
Proof.
  intros Hc Hs. destruct Hs; eauto using set_local_window_wf, merge_retrieval_wf, as_tensors_wf.
Qed.

Lemma compute_bundle_with_cache c ct dt : compute_bundle (with_cache c ct) dt = compute_bundle c dt.
Proof. done. Qed.

Lemma as_tensors_coherent dev dt c c' b :
  cache_coherent c → as_tensors dev dt c = Ok (c', b) → cache_coherent c'.
Proof.
  intros Hc. unfold as_tensors. destruct (cached_tensors c !! dev); [by intros [= <- _]|].
  intros H. unbind H as b' E. injection H as <- _.
  intros dev' b0 Hb0. simpl in Hb0. setoid_rewrite compute_bundle_with_cache.
  destruct (decide (dev' = dev)) as [->|Hne].
  - rewrite lookup_insert_eq in Hb0. injection Hb0 as <-. eauto.
  - rewrite lookup_insert_ne in Hb0 by done. eauto.
Qed.

Lemma empty_cache_coherent c : cached_tensors c = ∅ → cache_coherent c.
Proof. intros H dev b. by rewrite H, lookup_empty. Qed.

Lemma config_step_coherent c c' : cache_coherent c → config_step c c' → cache_coherent c'.
Proof.
  intros Hc Hs. destruct Hs as [c c' w n H|c c' n H|c c' dev dt b H].
  - apply empty_cache_coherent. unfold set_local_window in H. bind_inv H.
    by injection H as <- _.
  - apply empty_cache_coherent. unfold merge_retrieval_to_global in H. bind_inv H.
    by injection H as <- _.
  - by eapply as_tensors_coherent.
Qed.

Lemma TYPE_TO_INT_total t :
  t ∈ ALLOWED_TYPES → ∃ z, py_lookup TYPE_TO_INT t = Ok z ∧ 0 ≤ z ≤ 3.
Proof.
  intros [-> | [-> | [-> | ->]]]%allowed_cases;
    [exists 0|exists 1|exists 2|exists 3]; by split.
Qed.

Lemma wf_strategy R C c li kvh :
  wf_config R C c → li ∈ range (num_layers c) → kvh ∈ range (num_kv_heads c) →
  ∃ s, get_strategy c li kvh = Ok s ∧ head_type s ∈ ALLOWED_TYPES.
Proof.
  intros Hc Hli Hkvh. rewrite (wf_layers _ _ _ Hc) in Hli. rewrite (wf_heads _ _ _ Hc) in Hkvh.
  apply elem_of_range in Hli, Hkvh.
  destruct (wf_cells R C c (Z.to_nat li) (Z.to_nat kvh) Hc) as (t & d & ss & Ha & Ht & Hd & Hs);
    [lia|lia|].
  rewrite !Z2Nat.id in * by lia. eexists. split; [by apply get_strategy_cells|].
  simpl. unfold effective_type. case_bool_decide; [|done]. by apply (bool_decide_unpack _).
Qed.

(** Filling a matrix from the strategies succeeds when the cell function does. *)
Lemma fill_matrix_total R C c f :
  wf_config R C c → (∀ s, head_type s ∈ ALLOWED_TYPES → ∃ z, f s = Ok z) →
  ∃ m, fill_matrix c f = Ok m.
Proof.
  intros Hc Hf. unfold fill_matrix.
  destruct (traverse _ _) as [m|e] eqn:E; [eauto|exfalso].
  apply traverse_Raise in E as (li & Hli & (kvh & Hkvh & E)%traverse_Raise).
  destruct (wf_strategy R C c li kvh Hc Hli Hkvh) as (s & Hs & Ha).
  rewrite Hs in E. run_bind. destruct (Hf s Ha) as [z Hz]. congruence.
Qed.

Lemma compute_bundle_total R C c dt : wf_config R C c → ∃ b, compute_bundle c dt = Ok b.
Proof.
  intros Hc. unfold compute_bundle.
  destruct (fill_matrix_total R C c (fun s => py_lookup TYPE_TO_INT (head_type s)) Hc) as [m1 ->].
  { intros s Ha. destruct (TYPE_TO_INT_total _ Ha) as (z & ? & _). eauto. }
  destruct (fill_matrix_total R C c (fun s => Ok (window s)) Hc) as [m2 ->]; [eauto|].
  destruct (fill_matrix_total R C c (fun s => Ok (sink_size s)) Hc) as [m3 ->]; [eauto|].
  run_bind. eauto.
Qed.

Lemma reachable_inv R C c0 c :
  wf_config R C c0 → cache_coherent c0 → rtc config_step c0 c →
  wf_config R C c ∧ cache_coherent c.
Proof.
  intros Hw Hco Hr. induction Hr as [|c1 c2 c3 H12 _ IH]; [done|].
  apply IH; [by eapply config_step_wf|by eapply config_step_coherent].
Qed.

(** Whatever sequence of window changes, retrieval merges and tensor
    requests a configuration has been through, [as_tensors] returns, and what
    it returns are the integer views of the tables as they are now: no stale
    bundle survives a rewrite. *)
Theorem as_tensors_fresh R C c0 c dev dt :
  wf_config R C c0 → cached_tensors c0 = ∅ → rtc config_step c0 c →
  ∃ c' b dt', as_tensors dev dt c = Ok (c', b) ∧ compute_bundle c dt' = Ok b.
Proof.
  intros Hw He Hr.
  destruct (reachable_inv R C c0 c Hw (empty_cache_coherent _ He) Hr) as [Hw' Hco].
  unfold as_tensors. destruct (cached_tensors c !! dev) as [b|] eqn:Hd.
  - destruct (Hco dev b Hd) as [dt' Hdt']. eauto.
  - destruct (compute_bundle_total R C c dt Hw') as [b Hb]. rewrite Hb. run_bind. eauto 6.
Qed.

Lemma as_tensors_fresh_witness :
  ∃ c1 c2 n b1,
    as_tensors "cpu" "int32" demo_config = Ok (c1, b1) ∧
    set_local_window 128 c1 = Ok (c2, n) ∧
    ∃ c' b dt', as_tensors "cpu" "int32" c2 = Ok (c', b) ∧ compute_bundle c2 dt' = Ok b.
Proof.
  eexists _, _, _, _. split; [vm_compute; reflexivity|].
  split; [vm_compute; reflexivity|].
  apply (as_tensors_fresh 3 2 demo_config); [exact demo_config_wf|reflexivity|].
  eapply rtc_l; [eapply (step_tensors _ _ "cpu" "int32"); vm_compute; reflexivity|].
  eapply rtc_l; [eapply (step_window _ _ 128); vm_compute; reflexivity|].
  apply rtc_refl.
Defined.

Definition retype (s : HeadStrategy) : HeadStrategy :=
  if is_retrieval s
  then mkHeadStrategy (layer s) (kv_head s) HEAD_GLOBAL (window s) (sink_size s) else s.

(** merging turns exactly the retrieval strategies into global ones and
    leaves every other strategy of the table as it was; afterwards no head is
    served as retrieval. *)
Theorem merge_retrieval_spec R C c (i j : nat) :
  wf_config R C c → (i < R)%nat → (j < C)%nat →
  ∃ c' n s,
    merge_retrieval_to_global c = Ok (c', n) ∧
    get_strategy c (Z.of_nat i) (Z.of_nat j) = Ok s ∧
    get_strategy c' (Z.of_nat i) (Z.of_nat j) = Ok (retype s) ∧
    is_retrieval (retype s) = false.
Proof.
  intros Hc Hi Hj. destruct (wf_cells R C c i j Hc Hi Hj) as (t & d & ss & Ha & Ht & Hd & Hs).
  rewrite (merge_retrieval_eq R C) by done.
  eexists _, _, _. split; [reflexivity|].
  split; [by apply get_strategy_cells|].
  erewrite get_strategy_cells; [| |simpl; by apply py_get2_mat_map|simpl; exact Hd|exact Hs].
  - unfold effective_type, retype, is_retrieval. cbn [head_type dense_prefix_layers].
    case_bool_decide as Hl; [done|].
    apply allowed_cases in Ha as [-> | [-> | [-> | ->]]]; done.
  - case_bool_decide; [by apply (bool_decide_unpack _)|done].
Qed.

Lemma merge_retrieval_spec_witness :
  ∃ c' n s,
    merge_retrieval_to_global demo_config = Ok (c', n) ∧
    get_strategy demo_config 1 0 = Ok s ∧
    get_strategy c' 1 0 = Ok (retype s) ∧ is_retrieval (retype s) = false.
Proof. apply (merge_retrieval_spec 3 2 demo_config 1 0); [exact demo_config_wf|lia|lia]. Defined.

(** widening the window moves exactly the local heads below the dense
    prefix that carry a positive distance; a local head without one keeps the
    configured default, and every other strategy is unchanged.  The count
    returned is the number of positive distances in the table. *)
Theorem set_local_window_spec R C c w (i j : nat) :
  wf_config R C c → (i < R)%nat → (j < C)%nat → w > 0 →
  ∃ c' s d,
    set_local_window w c
    = Ok (c', mat_sum (fun d => if bool_decide (d > 0) then 1 else 0) (head_max_distance c)) ∧
    get_strategy c (Z.of_nat i) (Z.of_nat j) = Ok s ∧
    py_get2 (head_max_distance c) (Z.of_nat i) (Z.of_nat j) = Ok d ∧
    get_strategy c' (Z.of_nat i) (Z.of_nat j)
    = Ok (mkHeadStrategy (layer s) (kv_head s) (head_type s)
            (if is_local s && bool_decide (d > 0) then w else window s) (sink_size s)).
Proof.
  intros Hc Hi Hj Hw. destruct (wf_cells R C c i j Hc Hi Hj) as (t & d & ss & Ha & Ht & Hd & Hs).
  rewrite (set_local_window_eq R C) by done.
  eexists _, _, d. split; [reflexivity|].
  split; [by apply get_strategy_cells|]. split; [done|].
  erewrite get_strategy_cells; [|exact Ha|simpl; exact Ht|simpl; by apply py_get2_mat_map|exact Hs].
  unfold effective_type, effective_window, is_local.
  cbn [head_type window sink_size layer kv_head dense_prefix_layers local_default_window].
  f_equal. f_equal.
  destruct (bool_decide (Z.of_nat i < dense_prefix_layers c)); [done|].
  destruct (bool_decide (t = HEAD_LOCAL)); [|done].
  destruct (bool_decide (d > 0)) eqn:E; simpl.
  - by rewrite bool_decide_eq_true_2.
  - by rewrite E.
Qed.

Lemma set_local_window_spec_witness :
  ∃ c' s d,
    set_local_window 128 demo_config
    = Ok (c', mat_sum (fun d => if bool_decide (d > 0) then 1 else 0) (head_max_distance demo_config)) ∧
    get_strategy demo_config 0 0 = Ok s ∧
    py_get2 (head_max_distance demo_config) 0 0 = Ok d ∧
    get_strategy c' 0 0
    = Ok (mkHeadStrategy (layer s) (kv_head s) (head_type s)
            (if is_local s && bool_decide (d > 0) then 128 else window s) (sink_size s)).
Proof. apply (set_local_window_spec 3 2 demo_config 128 0 0); [exact demo_config_wf|lia..]. Defined.

Lemma counter_acc (l : list string) (m : gmap string Z) (t : string) :
  default 0 (foldl (fun (m : gmap string Z) t => <[t := default 0 (m !! t) + 1]> m) m l !! t)
  = default 0 (m !! t) + Z.of_nat (length (filter (fun t' => t' = t) l)).
Proof.
  revert m. induction l as [|x l IH]; intros m; simpl; [lia|].
  rewrite IH, filter_cons. destruct (decide (x = t)) as [->|Hne].
  - rewrite lookup_insert_eq. cbn [default from_option length id]. unfold id. lia.
  - rewrite lookup_insert_ne by done. done.
Qed.

Lemma counter_lookup (l : list string) (t : string) :
  default 0 (counter l !! t) = Z.of_nat (length (filter (fun t' => t' = t) l)).
Proof. unfold counter. rewrite counter_acc, lookup_empty. simpl. lia. Qed.

Lemma allowed_partition (l : list string) :
  Forall (fun t => t ∈ ALLOWED_TYPES) l →
  (length (filter (fun t' => t' = HEAD_LOCAL) l) + length (filter (fun t' => t' = HEAD_GLOBAL) l)
   + length (filter (fun t' => t' = HEAD_RETRIEVAL) l)
   + length (filter (fun t' => t' = HEAD_DENSE) l) = length l)%nat.
Proof.
  induction 1 as [|t l Ha Hl IH]; [done|]. rewrite !filter_cons. simpl.
  apply allowed_cases in Ha as [-> | [-> | [-> | ->]]]; simpl; lia.
Qed.

Lemma flat_row_loop R C c (i : nat) flat :
  wf_config R C c → (i < R)%nat → Forall (fun t => t ∈ ALLOWED_TYPES) flat →
  ∃ flat',
    foldM (fun flat kvh =>
       if bool_decide (Z.of_nat i < dense_prefix_layers c) then Ok (flat ++ [HEAD_DENSE])
       else do! t <- py_get2 (head_class c) (Z.of_nat i) kvh; Ok (flat ++ [t]))
      (range (Z.of_nat C)) flat = Ok flat' ∧
    length flat' = (length flat + C)%nat ∧ Forall (fun t => t ∈ ALLOWED_TYPES) flat'.
Proof.
  intros Hc Hi Hf.
  destruct (foldM_invariant
    (fun dn f => length f = (length flat + length dn)%nat ∧ Forall (fun t => t ∈ ALLOWED_TYPES) f)
    (fun flat kvh =>
       if bool_decide (Z.of_nat i < dense_prefix_layers c) then Ok (flat ++ [HEAD_DENSE])
       else do! t <- py_get2 (head_class c) (Z.of_nat i) kvh; Ok (flat ++ [t]))
    (range (Z.of_nat C)) flat) as (flat' & E & Hl & Ha).
  - split; [simpl; lia|done].
  - intros dn x td f Hl [Hlen Ha]. case_bool_decide.
    + eexists. split; [done|]. rewrite !length_app. simpl. split; [lia|].
      apply Forall_app. split; [done|]. by repeat constructor.
    + assert (Hx : x ∈ range (Z.of_nat C)) by (rewrite Hl; set_solver).
      apply elem_of_range in Hx.
      destruct (wf_cells R C c i (Z.to_nat x) Hc Hi) as (t & d & ss & Hat & Ht & _); [lia|].
      rewrite Z2Nat.id in Ht by lia. rewrite Ht. run_bind.
      eexists. split; [done|]. rewrite !length_app. simpl. split; [lia|].
      apply Forall_app. split; [done|]. by apply Forall_singleton.
  - exists flat'. split; [exact E|]. split; [|done]. rewrite Hl. f_equal.
    unfold range. rewrite length_seqZ. lia.
Qed.

Lemma flat_classes_total R C c :
  wf_config R C c →
  ∃ flat, flat_classes c = Ok flat ∧ length flat = (R * C)%nat ∧
          Forall (fun t => t ∈ ALLOWED_TYPES) flat.
Proof.
  intros Hc. unfold flat_classes, for_cells.
  rewrite (wf_layers _ _ _ Hc), (wf_heads _ _ _ Hc).
  match goal with |- ∃ flat, foldM ?body ?l ?s = _ ∧ _ =>
    destruct (foldM_invariant (fun dn (f : list string) =>
      length f = (length dn * C)%nat ∧ Forall (fun t => t ∈ ALLOWED_TYPES) f) body l s)
      as (flat & E & Hl & Ha) end.
  - done.
  - intros dn x td f Hl [Hlen Ha].
    assert (Hx : x ∈ range (Z.of_nat R)) by (rewrite Hl; set_solver).
    apply elem_of_range in Hx.
    destruct (flat_row_loop R C c (Z.to_nat x) f Hc) as (f' & E & Hl' & Ha'); [lia|done|].
    rewrite Z2Nat.id in E by lia. exists f'. split; [exact E|].
    split; [|done]. rewrite Hl', Hlen, length_app. simpl. lia.
  - exists flat. split; [exact E|].
    split; [|done]. rewrite Hl. unfold range. rewrite length_seqZ, Nat2Z.id. done.
Qed.

(** [summary] returns on every well-formed configuration, and the four
    class counts add up to the reported total, layers times heads. *)
Theorem summary_partition R C c :
  wf_config R C c →
  ∃ m, summary c = Ok m ∧ m !! "total"%string = Some (Z.of_nat R * Z.of_nat C) ∧
    default 0 (m !! HEAD_LOCAL) + default 0 (m !! HEAD_GLOBAL)
    + default 0 (m !! HEAD_RETRIEVAL) + default 0 (m !! HEAD_DENSE)
    = Z.of_nat R * Z.of_nat C.
Proof.
  intros Hc. destruct (flat_classes_total R C c Hc) as (flat & E & Hl & Ha).
  unfold summary. rewrite E. run_bind. eexists. split; [reflexivity|].
  rewrite (wf_layers _ _ _ Hc), (wf_heads _ _ _ Hc). split; [by simplify_map_eq|].
  rewrite !lookup_insert_ne by done. rewrite !counter_lookup.
  pose proof (allowed_partition flat Ha). lia.
Qed.

Lemma summary_partition_witness :
  ∃ m, summary demo_config = Ok m ∧ m !! "total"%string = Some (Z.of_nat 3 * Z.of_nat 2) ∧
    default 0 (m !! HEAD_LOCAL) + default 0 (m !! HEAD_GLOBAL)
    + default 0 (m !! HEAD_RETRIEVAL) + default 0 (m !! HEAD_DENSE) = Z.of_nat 3 * Z.of_nat 2.
Proof. apply (summary_partition 3 2 demo_config). exact demo_config_wf. Defined.
