(* ===== verification/VisiblePlan.v ===== *)
(** Which tokens a head keeps: [segpaged_v2/visible_plan.py], the index routine
    of [segpaged.py] and the trimming index routine of [per_head_storage.py].
    All three compute [0, sink) ∪ [L - recent, L); the development proves that
    they agree with one declarative description and with each other. *)

From S2P Require Import Prelude Tensor.
Local Open Scope Z_scope.

Definition POLICY_GLOBAL : string := "global".
Definition POLICY_LOCAL : string := "local".
Definition POLICY_CUSTOM : string := "custom".

Record HeadVisiblePlan := mkPlan {
  policy : string;
  positions : list Z;
  seq_len : Z;
}.

Definition kept (p : HeadVisiblePlan) : Z := Z.of_nat (length (positions p)).

Definition global_plan (L : Z) : result HeadVisiblePlan :=
  do! pos <- arange 0 L;
  Ok (mkPlan POLICY_GLOBAL pos L).

Definition local_plan (L sink recent : Z) : result HeadVisiblePlan :=
  let sink := Z.max 0 (Z.min sink L) in
  let recent := Z.max 0 (Z.min recent L) in
  let tail_start := Z.max sink (L - recent) in
  do! sink_idx <- arange 0 sink;
  do! tail_idx <- arange tail_start L;
  let pos := if bool_decide (length sink_idx = 0%nat) then tail_idx
             else if bool_decide (length tail_idx = 0%nat) then sink_idx
             else sink_idx ++ tail_idx in
  Ok (mkPlan POLICY_LOCAL pos L).

(** [torch.unique(pos, sorted=True)]. *)
Definition unique_sorted (l : list Z) : list Z := merge_sort Z.le (remove_dups l).

Definition custom_plan (L : Z) (pos : list Z) : HeadVisiblePlan :=
  let pos' := if bool_decide (0 < length pos)%nat
              then unique_sorted (filter (fun i => 0 ≤ i ∧ i < L) pos) else pos in
  mkPlan POLICY_CUSTOM pos' L.

(** [segpaged.local_visible_indices]. *)
Definition local_visible_indices (L sink recent : Z) : result (list Z) :=
  let sink := Z.max 0 (Z.min sink L) in
  let recent := Z.max 0 (Z.min recent L) in
  let tail_start := Z.max sink (L - recent) in
  do! sink_idx <- arange 0 sink;
  do! tail_idx <- arange tail_start L;
  if bool_decide (length sink_idx = 0%nat) then Ok tail_idx
  else if bool_decide (length tail_idx = 0%nat) then Ok sink_idx
  else Ok (sink_idx ++ tail_idx).

(** [per_head_storage._select_indices]. *)
Definition _select_indices (L keep_len sink_len : Z) : result (list Z) :=
  if bool_decide (keep_len < 0) || bool_decide (keep_len >= L) then arange 0 L
  else
    let sink_len := Z.max 0 (Z.min sink_len L) in
    let tail_len := Z.max 0 (Z.min keep_len L) in
    let tail_start := Z.max sink_len (L - tail_len) in
    do! sink_idx <- arange 0 sink_len;
    do! tail_idx <- arange tail_start L;
    if bool_decide (length sink_idx = 0%nat) then Ok tail_idx
    else if bool_decide (length tail_idx = 0%nat) then Ok sink_idx
    else Ok (sink_idx ++ tail_idx).

(** * Specification: a token is visible when it is a sink or recent token. *)

Definition visible (L sink recent : Z) (i : Z) : bool :=
  bool_decide (i < sink) || bool_decide (L - recent ≤ i).

Definition window_positions (L sink recent : Z) : list Z :=
  positions_of L (visible L sink recent).

(** * Lemmas *)


Lemma Forall_seqZ (P : Z → Prop) a n : (∀ i, a ≤ i < a + n → P i) → Forall P (seqZ a n).
Proof. intros HP. apply Forall_forall. intros i Hi%elem_of_seqZ. apply HP. lia. Qed.

(** The window of [0, L): the sinks, a gap, and the recent tokens. *)
Lemma window_positions_split L sink recent :
  0 ≤ L →
  let s := Z.max 0 (Z.min sink L) in
  let t := Z.max s (L - Z.max 0 (Z.min recent L)) in
  window_positions L sink recent = seqZ 0 s ++ seqZ t (L - t).
Proof.
  intros HL s t. unfold window_positions, positions_of.
  replace (seqZ 0 L) with (seqZ 0 s ++ seqZ s (t - s) ++ seqZ t (L - t)).
  2: { rewrite <-seqZ_split by lia.
       transitivity (seqZ 0 (L - 0)); [|by rewrite Z.sub_0_r].
       symmetry. rewrite (seqZ_split 0 s L) by lia. by rewrite Z.sub_0_r. }
  rewrite !filter_app.
  rewrite (filter_all _ (seqZ 0 s)), (filter_none _ (seqZ s (t - s))),
    (filter_all _ (seqZ t (L - t))); [done|..]; apply Forall_seqZ; intros i Hi;
    unfold visible; rewrite orb_true_iff, !bool_decide_eq_true; lia.
Qed.

Lemma local_visible_indices_eq L sink recent :
  0 ≤ L → local_visible_indices L sink recent = Ok (window_positions L sink recent).
Proof.
  intros HL. rewrite (window_positions_split L sink recent HL).
  unfold local_visible_indices.
  rewrite arange_ok by lia. run_bind. rewrite arange_ok by lia. run_bind.
  rewrite Z.sub_0_r. case_bool_decide as H1.
  { apply nil_length_inv in H1. by rewrite H1. }
  case_bool_decide as H2; [|done].
  apply nil_length_inv in H2. by rewrite H2, app_nil_r.
Qed.

Lemma window_positions_full L sink recent :
  0 ≤ L → L ≤ recent → window_positions L sink recent = seqZ 0 L.
Proof.
  intros HL Hr. unfold window_positions, positions_of. apply filter_all.
  apply Forall_seqZ. intros i Hi. unfold visible. rewrite orb_true_iff, !bool_decide_eq_true. lia.
Qed.

Lemma length_window_positions L sink recent :
  0 ≤ L →
  Z.of_nat (length (window_positions L sink recent)) = Z.min L (Z.max recent 0 + Z.max sink 0).
Proof.
  intros HL. rewrite (window_positions_split L sink recent HL).
  rewrite length_app, !length_seqZ. lia.
Qed.

(** [local_visible_indices] returns, in increasing order and without
    repetition, exactly the positions that are sinks or recent, and a negative
    length is rejected by [torch.arange]. *)
Theorem local_visible_indices_spec L sink recent :
  local_visible_indices L sink recent
  = (if bool_decide (0 ≤ L) then Ok (window_positions L sink recent) else Raise RuntimeError) ∧
  NoDup (window_positions L sink recent) ∧
  (∀ i, i ∈ window_positions L sink recent ↔ 0 ≤ i < L ∧ (i < sink ∨ L - recent ≤ i)).
Proof.
  split; [|split].
  - case_bool_decide as HL; [by apply local_visible_indices_eq|].
    unfold local_visible_indices.
    rewrite (arange_ok 0 (Z.max 0 (Z.min sink L))) by lia. run_bind.
    unfold arange at 1. rewrite (bool_decide_eq_false_2 (Z.max _ _ ≤ L)) by lia. done.
  - apply NoDup_positions_of.
  - intros i. unfold window_positions. rewrite elem_of_positions_of. unfold visible.
    rewrite orb_true_iff, !bool_decide_eq_true. done.
Qed.

(** The three implementations of the window agree: the trimming routine
    with a non-negative keep length and the streaming plan select the same
    positions as [local_visible_indices], and keep length [-1] selects all. *)
Theorem window_routines_agree L sink keep :
  0 ≤ L → 0 ≤ keep →
  _select_indices L keep sink = local_visible_indices L sink keep ∧
  local_plan L sink keep
  = (do! pos <- local_visible_indices L sink keep; Ok (mkPlan POLICY_LOCAL pos L)) ∧
  _select_indices L (-1) sink = (do! p <- global_plan L; Ok (positions p)).
Proof.
  intros HL Hk. split; [|split].
  - unfold _select_indices. rewrite bool_decide_eq_false_2 by lia. simpl.
    case_bool_decide as Hge; [|done].
    rewrite local_visible_indices_eq, window_positions_full, arange_ok by lia.
    by rewrite Z.sub_0_r.
  - unfold local_plan, local_visible_indices.
    rewrite arange_ok by lia. run_bind. rewrite arange_ok by lia. run_bind.
    by repeat case_bool_decide.
  - unfold _select_indices, global_plan. simpl. rewrite arange_ok by lia. done.
Qed.

Lemma window_routines_agree_witness :
  _select_indices 10 3 2 = Ok [0; 1; 7; 8; 9] ∧
  _select_indices 10 3 2 = local_visible_indices 10 2 3 ∧
  local_plan 10 2 3
  = (do! pos <- local_visible_indices 10 2 3; Ok (mkPlan POLICY_LOCAL pos 10)) ∧
  _select_indices 10 (-1) 2 = (do! p <- global_plan 10; Ok (positions p)).
Proof. split; [reflexivity|]. apply (window_routines_agree 10 2 3); lia. Defined.

(** the physical footprint of a local head is exactly
    [min(L, window + sink)] tokens, whatever the context length. *)
Theorem local_footprint L sink recent :
  0 ≤ L →
  ∃ pos, local_visible_indices L sink recent = Ok pos ∧
    Z.of_nat (length pos) = Z.min L (Z.max recent 0 + Z.max sink 0).
Proof.
  intros HL. exists (window_positions L sink recent).
  split; [by apply local_visible_indices_eq|by apply length_window_positions].
Qed.

Lemma local_footprint_witness :
  ∃ pos, local_visible_indices 100 4 16 = Ok pos ∧
    Z.of_nat (length pos) = Z.min 100 (Z.max 16 0 + Z.max 4 0).
Proof. apply (local_footprint 100 4 16). lia. Defined.


Lemma seqZ_sorted (k : nat) a : StronglySorted Z.le (seqZ a (Z.of_nat k)).
Proof.
  revert a. induction k as [|k IH]; intros a; [constructor|].
  rewrite seqZ_cons by lia. replace (Z.pred (Z.of_nat (S k))) with (Z.of_nat k) by lia.
  constructor; [apply IH|]. apply Forall_seqZ. intros. lia.
Qed.


Lemma StronglySorted_filter {A} (R : relation A) (P : A → Prop) `{∀ x, Decision (P x)} (l : list A) :
  StronglySorted R l → StronglySorted R (filter P l).
Proof.
  induction 1 as [|x l Hl IH Hx]; [constructor|]. rewrite filter_cons. case_decide; [|done].
  constructor; [done|]. apply Forall_forall. intros y [_ Hy]%list_elem_of_filter.
  by eapply Forall_forall in Hx.
Qed.

Lemma positions_of_sorted L P : StronglySorted Z.le (positions_of L P).
Proof.
  unfold positions_of. apply StronglySorted_filter.
  destruct (decide (0 ≤ L)) as [HL|HL].
  - rewrite <-(Z2Nat.id L) by done. apply seqZ_sorted.
  - rewrite seqZ_nil by lia. constructor.
Qed.

(** Sorting and removing repetitions is determined by the set of elements. *)
Lemma unique_sorted_eq l k :
  StronglySorted Z.le k → NoDup k → (∀ i, i ∈ l ↔ i ∈ k) → unique_sorted l = k.
Proof.
  intros Hk Hnd Hel. apply (StronglySorted_unique Z.le).
  - unfold unique_sorted. apply StronglySorted_merge_sort; apply _.
  - done.
  - unfold unique_sorted. rewrite merge_sort_Permutation. apply NoDup_Permutation; [|done|].
    + apply NoDup_remove_dups.
    + intros i. by rewrite elem_of_remove_dups.
Qed.

(** a custom plan keeps exactly the requested positions that lie in
    [0, seq_len), each once, in increasing (causal) order. *)
Theorem custom_plan_spec L pos :
  positions (custom_plan L pos) = positions_of L (fun i => bool_decide (i ∈ pos)) ∧
  StronglySorted Z.le (positions (custom_plan L pos)) ∧ NoDup (positions (custom_plan L pos)).
Proof.
  assert (positions (custom_plan L pos) = positions_of L (fun i => bool_decide (i ∈ pos))) as ->.
  { unfold custom_plan. cbn [positions]. case_bool_decide as Hl.
    - apply unique_sorted_eq; [apply positions_of_sorted|apply NoDup_positions_of|].
      intros i. rewrite elem_of_positions_of, list_elem_of_filter, bool_decide_eq_true. tauto.
    - destruct pos as [|x pos]; [|simpl in Hl; lia]. unfold positions_of.
      rewrite filter_none; [done|]. apply Forall_forall. intros i _.
      rewrite bool_decide_eq_true. set_solver. }
  split; [done|]. split; [apply positions_of_sorted|apply NoDup_positions_of].
Qed.
