(* ===== verification/Storage.v ===== *)
(** The paged K/V byte store of SegPaged v2 ([segpaged_v2/storage.py]): the
    abstract backend as a type class, the contract its clients rely on, and the
    reference backend [LocalPagedPool] as an instance that meets the contract. *)

From S2P Require Import Prelude Tensor.

(** The abstract base class [KVStorageBackend]: a store addressed by virtual
    page id, holding rows of type [row] for K and V. *)
Class KVStorageBackend (St row : Type) := {
  be_page_size : St → nat;
  alloc_pages : nat → St → St * list Z;
  write_page : Z → list row → list row → St → result St;
  read_page : Z → nat → St → result (list row * list row);
  num_physical_pages : St → nat;
}.

(** [KVStorageBackend.physical_bytes]: K and V bytes of the physical pages. *)
Definition physical_bytes {St row} `{KVStorageBackend St row} (head_dim elt : Z) (s : St) : Z :=
  let n := Z.of_nat (num_physical_pages s) in
  if bool_decide (n = 0%Z) then 0%Z
  else (2 * n * (Z.of_nat (be_page_size s) * head_dim * elt))%Z.

(** The contract, in terms of the page contents a state represents.  [cast] is
    the conversion of a row to the dtype of the pool. *)
Class KVStorageLaws (St row : Type) `{KVStorageBackend St row} (cast : row → row) := {
  be_inv : St → Prop;
  be_pages : St → gmap Z (list row * list row);
  be_page_length s vid K V : be_inv s → be_pages s !! vid = Some (K, V) →
    length K = be_page_size s ∧ length V = be_page_size s;
  be_alloc n s : be_inv s → ∃ s' ids,
    alloc_pages n s = (s', ids) ∧ be_inv s' ∧ be_page_size s' = be_page_size s ∧
    num_physical_pages s' = num_physical_pages s + n ∧
    length ids = n ∧ NoDup ids ∧
    (∀ vid, vid ∈ ids → be_pages s !! vid = None ∧ is_Some (be_pages s' !! vid)) ∧
    (∀ vid, vid ∉ ids → be_pages s' !! vid = be_pages s !! vid);
  be_write vid k v s K V : be_inv s → be_pages s !! vid = Some (K, V) →
    length k ≤ be_page_size s → length v = length k →
    ∃ s', write_page vid k v s = Ok s' ∧ be_inv s' ∧ be_page_size s' = be_page_size s ∧
      num_physical_pages s' = num_physical_pages s ∧
      be_pages s' = <[vid := (write_prefix K (cast <$> k), write_prefix V (cast <$> v))]> (be_pages s);
  be_read vid n s K V : be_inv s → be_pages s !! vid = Some (K, V) →
    read_page vid n s = Ok (take n K, take n V);
}.

Section local_pool.
Context {row : Type} (zero_row : row) (cast : row → row).

Record LocalPagedPool := mkPool {
  lp_page_size : nat;
  k_pages : list (list row);
  v_pages : list (list row);
  virt_to_phys : gmap Z nat;
  next_virt : Z;
  next_phys : nat;
}.

Definition new_pool (page_size : nat) : LocalPagedPool :=
  mkPool page_size [] [] ∅ 0 0.

(** One turn of the allocation loop. *)
Definition lp_alloc_one (p : LocalPagedPool) : LocalPagedPool * Z :=
  let vid := next_virt p in
  let phys := next_phys p in
  let zero_page := replicate (lp_page_size p) zero_row in
  (mkPool (lp_page_size p) (k_pages p ++ [zero_page]) (v_pages p ++ [zero_page])
     (<[vid := phys]> (virt_to_phys p)) (vid + 1) (phys + 1), vid).

Fixpoint lp_alloc_pages (n_pages : nat) (p : LocalPagedPool) : LocalPagedPool * list Z :=
  match n_pages with
  | O => (p, [])
  | S n =>
      let '(p1, vid) := lp_alloc_one p in
      let '(p2, vids) := lp_alloc_pages n p1 in
      (p2, vid :: vids)
  end.

Definition lp_write_page (virt_id : Z) (k v : list row) (p : LocalPagedPool)
  : result LocalPagedPool :=
  let n := length k in
  if bool_decide (lp_page_size p < n) then Raise ValueError
  else
    do! phys <- py_lookup (virt_to_phys p) virt_id;
    do! kp <- py_get (k_pages p) (Z.of_nat phys);
    do! kp' <- assign_prefix kp n (cast <$> k);
    do! vp <- py_get (v_pages p) (Z.of_nat phys);
    do! vp' <- assign_prefix vp n (cast <$> v);
    Ok (mkPool (lp_page_size p) (<[phys := kp']> (k_pages p)) (<[phys := vp']> (v_pages p))
          (virt_to_phys p) (next_virt p) (next_phys p)).

Definition lp_read_page (virt_id : Z) (n : nat) (p : LocalPagedPool)
  : result (list row * list row) :=
  do! phys <- py_lookup (virt_to_phys p) virt_id;
  do! kp <- py_get (k_pages p) (Z.of_nat phys);
  do! vp <- py_get (v_pages p) (Z.of_nat phys);
  Ok (take n kp, take n vp).

#[global] Instance LocalPagedPool_backend : KVStorageBackend LocalPagedPool row := {
  be_page_size := lp_page_size;
  alloc_pages := lp_alloc_pages;
  write_page := lp_write_page;
  read_page := lp_read_page;
  num_physical_pages := next_phys;
}.

(** ** The pool invariant *)

(** Physical pages are numbered by the two page lists, virtual ids below
    [next_virt] are the mapped ones, and the mapping is injective. *)
Record pool_inv (p : LocalPagedPool) : Prop := {
  pi_k_len : length (k_pages p) = next_phys p;
  pi_v_len : length (v_pages p) = next_phys p;
  pi_k_page : Forall (fun pg => length pg = lp_page_size p) (k_pages p);
  pi_v_page : Forall (fun pg => length pg = lp_page_size p) (v_pages p);
  pi_bound : ∀ vid phys, virt_to_phys p !! vid = Some phys →
    (0 ≤ vid < next_virt p)%Z ∧ phys < next_phys p;
  pi_inj : ∀ vid vid' phys, virt_to_phys p !! vid = Some phys →
    virt_to_phys p !! vid' = Some phys → vid = vid';
  pi_next : (0 ≤ next_virt p)%Z;
}.

Definition pool_page (p : LocalPagedPool) (phys : nat) : list row * list row :=
  (default [] (k_pages p !! phys), default [] (v_pages p !! phys)).

Definition pool_pages (p : LocalPagedPool) : gmap Z (list row * list row) :=
  pool_page p <$> virt_to_phys p.

Lemma pool_pages_lookup p vid K V :
  pool_inv p → pool_pages p !! vid = Some (K, V) →
  ∃ phys, virt_to_phys p !! vid = Some phys ∧
    k_pages p !! phys = Some K ∧ v_pages p !! phys = Some V.
Proof.
  intros Hp H. unfold pool_pages in H. rewrite lookup_fmap in H.
  destruct (virt_to_phys p !! vid) as [phys|] eqn:E; [|done].
  destruct (pi_bound p Hp vid phys E) as [_ Hb]. exists phys. split; [done|].
  destruct (lookup_lt_is_Some_2 (k_pages p) phys) as [K' HK]; [by rewrite pi_k_len|].
  destruct (lookup_lt_is_Some_2 (v_pages p) phys) as [V' HV]; [by rewrite pi_v_len|].
  simpl in H. unfold pool_page in H. rewrite HK, HV in H. by simplify_eq/=.
Qed.

Lemma new_pool_inv ps : pool_inv (new_pool ps).
Proof. constructor; try done; intros; by simplify_map_eq. Qed.

Lemma alloc_one_inv p : pool_inv p → pool_inv (lp_alloc_one p).1.
Proof.
  intros Hp. pose proof (pi_next p Hp). constructor; simpl.
  - rewrite length_app, (pi_k_len p Hp). simpl. lia.
  - rewrite length_app, (pi_v_len p Hp). simpl. lia.
  - apply Forall_app. split; [apply (pi_k_page p Hp)|].
    repeat constructor. by rewrite length_replicate.
  - apply Forall_app. split; [apply (pi_v_page p Hp)|].
    repeat constructor. by rewrite length_replicate.
  - intros vid phys. rewrite lookup_insert. case_decide; [intros [= <-]; subst; lia|].
    intros [??]%(pi_bound p Hp). lia.
  - intros vid vid' phys. rewrite !lookup_insert.
    repeat case_decide; subst; try done.
    + intros [= <-] H'%(pi_bound p Hp). lia.
    + intros H'%(pi_bound p Hp) [= <-]. lia.
    + apply (pi_inj p Hp).
  - lia.
Qed.

Lemma alloc_one_pages p vid :
  pool_inv p → vid ≠ next_virt p → pool_pages (lp_alloc_one p).1 !! vid = pool_pages p !! vid.
Proof.
  intros Hp Hne. unfold pool_pages. rewrite !lookup_fmap. simpl.
  rewrite lookup_insert_ne by done.
  destruct (virt_to_phys p !! vid) as [phys|] eqn:E; [|done].
  destruct (pi_bound p Hp _ _ E) as [_ Hb]. simpl. f_equal. unfold pool_page. simpl.
  rewrite !lookup_app_l by (rewrite ?(pi_k_len p Hp), ?(pi_v_len p Hp); done). done.
Qed.

Lemma alloc_one_new p : pool_inv p → pool_pages p !! next_virt p = None.
Proof.
  intros Hp. unfold pool_pages. rewrite lookup_fmap.
  destruct (virt_to_phys p !! next_virt p) as [phys|] eqn:E; [|done].
  apply (pi_bound p Hp) in E. lia.
Qed.

Lemma alloc_one_is_Some p : is_Some (pool_pages (lp_alloc_one p).1 !! next_virt p).
Proof. unfold pool_pages. rewrite lookup_fmap. simpl. rewrite lookup_insert_eq. eauto. Qed.

(** Allocation hands out the next consecutive virtual ids, all fresh, and
    leaves every page already allocated as it was. *)
Lemma alloc_pages_spec n p :
  pool_inv p → ∃ p',
    lp_alloc_pages n p = (p', seqZ (next_virt p) (Z.of_nat n)) ∧ pool_inv p' ∧
    lp_page_size p' = lp_page_size p ∧ next_phys p' = next_phys p + n ∧
    (∀ vid, vid ∈ seqZ (next_virt p) (Z.of_nat n) →
       pool_pages p !! vid = None ∧ is_Some (pool_pages p' !! vid)) ∧
    (∀ vid, vid ∉ seqZ (next_virt p) (Z.of_nat n) → pool_pages p' !! vid = pool_pages p !! vid).
Proof.
  revert p. induction n as [|n IH]; intros p Hp.
  { exists p. simpl. split; [done|]. split; [done|]. split; [done|]. split; [lia|].
    split; [|done]. intros vid Hv. by apply elem_of_seqZ in Hv; lia. }
  destruct (IH _ (alloc_one_inv p Hp)) as (p' & Ha & Hi & Hps & Hn & Hfresh & Hframe).
  change (next_virt (lp_alloc_one p).1) with (next_virt p + 1)%Z in *.
  exists p'. cbn [lp_alloc_pages]. rewrite (surjective_pairing (lp_alloc_one p)), Ha.
  rewrite (seqZ_cons (next_virt p)) by lia.
  replace (Z.pred (Z.of_nat (S n))) with (Z.of_nat n) by lia.
  replace (Z.succ (next_virt p)) with (next_virt p + 1)%Z by lia.
  split; [done|]. split; [done|]. split; [done|].
  split; [rewrite Hn; simpl; lia|]. split.
  - intros vid [->|Hv]%elem_of_cons.
    + split; [by apply alloc_one_new|].
      rewrite Hframe by (rewrite elem_of_seqZ; lia). apply alloc_one_is_Some.
    + destruct (Hfresh vid Hv) as [H1 H2]. split; [|done].
      rewrite alloc_one_pages in H1; [done..|]. apply elem_of_seqZ in Hv. lia.
  - intros vid [Hne Hv]%not_elem_of_cons. rewrite Hframe by done. by apply alloc_one_pages.
Qed.

Lemma write_page_spec vid k v p K V :
  pool_inv p → pool_pages p !! vid = Some (K, V) →
  length k ≤ lp_page_size p → length v = length k →
  ∃ p', lp_write_page vid k v p = Ok p' ∧ pool_inv p' ∧ lp_page_size p' = lp_page_size p ∧
    next_phys p' = next_phys p ∧
    pool_pages p' = <[vid := (write_prefix K (cast <$> k), write_prefix V (cast <$> v))]> (pool_pages p).
Proof.
  intros Hp Hv Hk Hlen. destruct (pool_pages_lookup p vid K V Hp Hv) as (phys & Hphys & HK & HV).
  assert (HlK : length K = lp_page_size p) by (by eapply (Forall_lookup_1 _ _ _ _ (pi_k_page p Hp))).
  assert (HlV : length V = lp_page_size p) by (by eapply (Forall_lookup_1 _ _ _ _ (pi_v_page p Hp))).
  unfold lp_write_page. rewrite bool_decide_eq_false_2 by lia.
  unfold py_lookup. rewrite Hphys. run_bind.
  run_gets.
  rewrite assign_prefix_ok by by rewrite length_fmap. run_bind.
  run_gets.
  rewrite assign_prefix_ok by by rewrite length_fmap. run_bind.
  eexists. split; [done|]. split; [|split; [done|split; [done|]]].
  - destruct Hp. constructor; simpl; try done; try by rewrite length_insert.
    + apply Forall_insert; [done|]. rewrite write_prefix_length; rewrite ?length_fmap; lia.
    + apply Forall_insert; [done|]. rewrite write_prefix_length; rewrite ?length_fmap; lia.
  - apply map_eq. intros vid'. unfold pool_pages. rewrite lookup_fmap. simpl.
    destruct (decide (vid' = vid)) as [->|Hne].
    + rewrite lookup_insert_eq, Hphys. simpl. f_equal. unfold pool_page. simpl.
      rewrite !list_lookup_insert_eq by by eapply lookup_lt_Some. done.
    + rewrite lookup_insert_ne, lookup_fmap by done.
      destruct (virt_to_phys p !! vid') as [phys'|] eqn:E; [|done].
      assert (phys ≠ phys') by (intros ->; apply Hne; by eapply (pi_inj p Hp)).
      simpl. f_equal. unfold pool_page. simpl. by rewrite !list_lookup_insert_ne.
Qed.

Lemma read_page_spec vid n p K V :
  pool_inv p → pool_pages p !! vid = Some (K, V) → lp_read_page vid n p = Ok (take n K, take n V).
Proof.
  intros Hp Hv. destruct (pool_pages_lookup p vid K V Hp Hv) as (phys & Hphys & HK & HV).
  unfold lp_read_page, py_lookup. rewrite Hphys. run_bind.
  by run_gets.
Qed.

(** The reference backend meets the contract. *)
#[global] Instance LocalPagedPool_laws : KVStorageLaws LocalPagedPool row cast.
Proof.
  refine {| be_inv := pool_inv; be_pages := pool_pages |}.
  - intros s vid K V Hs Hv. destruct (pool_pages_lookup s vid K V Hs Hv) as (phys & _ & HK & HV).
    split; [exact (Forall_lookup_1 _ _ _ _ (pi_k_page s Hs) HK)|
            exact (Forall_lookup_1 _ _ _ _ (pi_v_page s Hs) HV)].
  - intros n s Hs. destruct (alloc_pages_spec n s Hs) as (s' & H1 & H2 & H3 & H4 & H5 & H6).
    exists s', (seqZ (next_virt s) (Z.of_nat n)). rewrite length_seqZ, Nat2Z.id.
    eauto 10 using NoDup_seqZ.
  - intros. by apply write_page_spec.
  - intros. by apply read_page_spec.
Defined.

End local_pool.
Arguments LocalPagedPool : clear implicits.

Section pool_theorems.
Context {row : Type} (cast : row → row).

Lemma read_page_unknown vid n (p : LocalPagedPool row) :
  pool_inv p → pool_pages p !! vid = None → lp_read_page vid n p = Raise KeyError.
Proof.
  intros Hp Hv. unfold pool_pages in Hv. rewrite lookup_fmap in Hv.
  unfold lp_read_page, py_lookup. by destruct (virt_to_phys p !! vid).
Qed.

(** A page holds what was last written to it: writing [k], [v] to an
    allocated page and reading that many slots returns them in the dtype of the
    pool, every other page reads as before, a write longer than a page raises
    [ValueError] and a page never allocated raises [KeyError]. *)
Theorem pool_write_read (p : LocalPagedPool row) vid k v :
  pool_inv p → length v = length k →
  (lp_page_size p < length k → lp_write_page cast vid k v p = Raise ValueError) ∧
  (length k ≤ lp_page_size p →
   match pool_pages p !! vid with
   | None => lp_write_page cast vid k v p = Raise KeyError
   | Some _ =>
       ∃ p', lp_write_page cast vid k v p = Ok p' ∧ pool_inv p' ∧
         lp_read_page vid (length k) p' = Ok (cast <$> k, cast <$> v) ∧
         ∀ vid' n, vid' ≠ vid → lp_read_page vid' n p' = lp_read_page vid' n p
   end).
Proof.
  intros Hp Hlen. split.
  { intros Hk. unfold lp_write_page. by rewrite bool_decide_eq_true_2. }
  intros Hk. destruct (pool_pages p !! vid) as [[K V]|] eqn:Hv.
  - destruct (write_page_spec cast vid k v p K V Hp Hv Hk Hlen) as (p' & Hw & Hp' & _ & _ & Hpg).
    exists p'. split; [done|]. split; [done|]. split.
    + erewrite read_page_spec; [|done|rewrite Hpg; apply lookup_insert_eq].
      by rewrite !take_write_prefix by (by rewrite length_fmap).
    + intros vid' n Hne. destruct (pool_pages p !! vid') as [[K' V']|] eqn:Hv'.
      * rewrite (read_page_spec vid' n p K' V') by done.
        apply read_page_spec; [done|]. by rewrite Hpg, lookup_insert_ne.
      * rewrite (read_page_unknown vid' n p) by done.
        apply read_page_unknown; [done|]. by rewrite Hpg, lookup_insert_ne.
  - unfold lp_write_page. rewrite bool_decide_eq_false_2 by lia.
    unfold pool_pages in Hv. rewrite lookup_fmap in Hv.
    unfold py_lookup. by destruct (virt_to_phys p !! vid).
Qed.

End pool_theorems.

Definition demo_pool : LocalPagedPool nat := (lp_alloc_pages 0 2 (new_pool 4)).1.

Lemma pool_write_read_witness :
  (lp_page_size demo_pool < 2 → lp_write_page S 1 [7; 8] [9; 9] demo_pool = Raise ValueError) ∧
  (2 ≤ lp_page_size demo_pool →
   match pool_pages demo_pool !! 1%Z with
   | None => lp_write_page S 1 [7; 8] [9; 9] demo_pool = Raise KeyError
   | Some _ =>
       ∃ p', lp_write_page S 1 [7; 8] [9; 9] demo_pool = Ok p' ∧ pool_inv p' ∧
         lp_read_page 1 2 p' = Ok ([8; 9], [10; 10]) ∧
         ∀ vid' n, vid' ≠ 1%Z → lp_read_page vid' n p' = lp_read_page vid' n demo_pool
   end).
Proof.
  apply (pool_write_read S demo_pool 1 [7; 8] [9; 9]); [|reflexivity].
  apply (alloc_one_inv 0 _), (alloc_one_inv 0 _), new_pool_inv.
Defined.
