(* ===== verification/PageTable.v ===== *)
(** SegPaged v2 page table and per-head cache ([segpaged_v2/page_table.py] and
    the builders of [segpaged_v2/attention.py]).  The cache is a client of the
    storage contract: its theorems hold for every backend that meets
    [KVStorageLaws].

    A row stands for the [head_dim] elements of one token, and the last
    dimension of a tensor is not compared with [head_dim]: K and V of another width, which the page
    assignment of [write_page] rejects (or broadcasts, at width one), are outside the
    model. *)

From S2P Require Import Prelude Tensor VisiblePlan Storage.

Record HeadSegment := mkSegment {
  sg_layer : Z;
  sg_head : Z;
  sg_segment : Z;
  page_ids : list Z;
  sg_positions : list Z;
}.

Definition seg_kept (g : HeadSegment) : nat := length (sg_positions g).

Record SegmentPageTable := mkTable {
  pt_page_size : nat;
  pt_segments : odict (Z * Z * Z) HeadSegment;
  pt_head_segments : gmap (Z * Z) (list Z);
}.

Definition new_table (page_size : nat) : SegmentPageTable := mkTable page_size [] ∅.

Definition table_add (g : HeadSegment) (t : SegmentPageTable) : SegmentPageTable :=
  let key := (sg_layer g, sg_head g, sg_segment g) in
  let hkey := (sg_layer g, sg_head g) in
  mkTable (pt_page_size t) (od_set key g (pt_segments t))
    (<[hkey := default [] (pt_head_segments t !! hkey) ++ [sg_segment g]]> (pt_head_segments t)).

Definition table_get (t : SegmentPageTable) (l h s : Z) : result HeadSegment :=
  match od_get (l, h, s) (pt_segments t) with Some g => Ok g | None => Raise KeyError end.

Definition segments_of (t : SegmentPageTable) (l h : Z) : result (list HeadSegment) :=
  traverse (fun s => table_get t l h s) (default [] (pt_head_segments t !! (l, h))).

Definition all_segments (t : SegmentPageTable) : list HeadSegment := (pt_segments t).*2.

Section cache.
Context {St row : Type} `{KVStorageBackend St row}.

Record PagedHeadKVCache := mkCache {
  num_kv_heads : Z;
  head_dim : nat;
  page_size : nat;
  storage : St;
  table : SegmentPageTable;
}.

Definition new_cache (nh : Z) (hd ps : nat) (st : St) : PagedHeadKVCache :=
  mkCache nh hd ps st (new_table ps).

(** One turn of the page-writing loop of [store_head_segment]: page [i] of the
    segment receives rows [i * page_size, (i + 1) * page_size). *)
Definition write_step (ps : nat) (k v : list row) (st : St) (p : nat * Z) : result St :=
  let start := p.1 * ps in
  let end_ := Nat.min (start + ps) (length k) in
  if bool_decide (start < end_)
  then write_page p.2 (slice start end_ k) (slice start end_ v) st else Ok st.

Definition write_pages (ps : nat) (k_vis v_vis : list row) (vids : list Z) (st : St) : result St :=
  foldM (write_step ps k_vis v_vis) (zip (seq 0 (length vids)) vids) st.

Definition store_head_segment (l h s : Z) (k_dense v_dense : tensor row)
    (plan : HeadVisiblePlan) (c : PagedHeadKVCache) : result (PagedHeadKVCache * HeadSegment) :=
  match k_dense, v_dense with
  | T2 _ k, T2 _ v =>
      let pos := positions plan in
      do! k_vis <- index_select k pos;
      do! v_vis <- index_select v pos;
      let n := length k_vis in
      let n_pages := (n + page_size c - 1) / page_size c in
      let '(st1, virt_ids) := alloc_pages n_pages (storage c) in
      do! st2 <- write_pages (page_size c) k_vis v_vis virt_ids st1;
      let seg := mkSegment l h s virt_ids pos in
      Ok (mkCache (num_kv_heads c) (head_dim c) (page_size c) st2 (table_add seg (table c)), seg)
  | _, _ => Raise ValueError
  end.

(** The reading loop of [gather_segment]; it stops at the first page with
    nothing left to take. *)
Fixpoint read_pages (ps : nat) (vids : list Z) (remaining : nat) (st : St)
  : result (list row * list row) :=
  match vids with
  | [] => Ok ([], [])
  | vid :: vids =>
      let tk := Nat.min ps remaining in
      if bool_decide (tk = 0) then Ok ([], [])
      else
        do! kv <- read_page vid tk st;
        do! rest <- read_pages ps vids (remaining - tk) st;
        Ok (kv.1 ++ rest.1, kv.2 ++ rest.2)
  end.

Definition gather_segment (c : PagedHeadKVCache) (g : HeadSegment) : result (list row * list row) :=
  read_pages (page_size c) (page_ids g) (seg_kept g) (storage c).

Definition gather_head (c : PagedHeadKVCache) (l h : Z) : result (list row * list row) :=
  do! segs <- segments_of (table c) l h;
  do! kvs <- traverse (gather_segment c) segs;
  Ok (concat kvs.*1, concat kvs.*2).

Definition stored_token_count (c : PagedHeadKVCache) : Z :=
  sumZ ((fun g => Z.of_nat (seg_kept g)) <$> all_segments (table c)).

(** [attention.build_paged_cache]: one segment per head, in head order. *)
Definition build_paged_cache (k_dense v_dense : tensor row) (plans : list HeadVisiblePlan)
    (ps : nat) (layer : Z) (st : St) : result PagedHeadKVCache :=
  match k_dense with
  | T3 _ D kh =>
      let H := length kh in
      if bool_decide (length plans = H) then
        foldM (fun c h =>
                 do! k <- py_get kh (Z.of_nat h);
                 do! v <- (match v_dense with T3 _ _ vh => py_get vh (Z.of_nat h)
                           | _ => Raise ValueError end);
                 do! plan <- py_get plans (Z.of_nat h);
                 do! r <- store_head_segment layer (Z.of_nat h) 0 (T2 D k) (T2 D v) plan c;
                 Ok r.1) (seq 0 H) (new_cache (Z.of_nat H) D ps st)
      else Raise ValueError
  | _ => Raise ValueError
  end.

End cache.
Arguments PagedHeadKVCache : clear implicits.

(** [attention.plans_from_policies]. *)
Definition plans_from_policies (head_policy : list string) (L sink recent : Z)
  : result (list HeadVisiblePlan) :=
  traverse (fun pol => if bool_decide (pol = POLICY_GLOBAL) then global_plan L
                       else local_plan L sink recent) head_policy.

(** * Correctness against the storage contract *)

Section proofs.
Context {St row : Type} `{KVStorageLaws St row cast}.
Implicit Types (st : St) (c : PagedHeadKVCache St).

Definition allocated (st : St) (vid : Z) : Prop := is_Some (be_pages st !! vid).

(** What a client may assume of a cache it built. *)
Record cache_inv (c : PagedHeadKVCache St) : Prop := {
  ci_storage : be_inv (storage c);
  ci_page_pos : 0 < page_size c;
  ci_page_le : page_size c ≤ be_page_size (storage c);
  ci_keys : NoDup (od_keys (pt_segments (table c)));
  ci_alloc : ∀ key g, od_get key (pt_segments (table c)) = Some g →
    Forall (allocated (storage c)) (page_ids g);
  ci_heads : ∀ l h s, s ∈ default [] (pt_head_segments (table c) !! (l, h)) →
    (l, h, s) ∈ od_keys (pt_segments (table c));
}.

Lemma new_cache_inv nh hd ps st :
  be_inv st → 0 < ps → ps ≤ be_page_size st → cache_inv (new_cache nh hd ps st).
Proof.
  intros. constructor; try done; simpl; [constructor|].
  intros l h s. rewrite lookup_empty. simpl. set_solver.
Qed.

(** Reading depends only on the pages named. *)
Lemma read_pages_frame ps vids n st st' :
  be_inv st → be_inv st' →
  (∀ vid, vid ∈ vids → allocated st vid ∧ be_pages st' !! vid = be_pages st !! vid) →
  read_pages ps vids n st' = read_pages ps vids n st.
Proof.
  intros Hi Hi'. revert n. induction vids as [|vid vids IH]; intros n Hv; [done|].
  simpl. case_bool_decide; [done|].
  destruct (Hv vid) as [[[K V] HKV] Heq]; [left|].
  rewrite (be_read vid _ st K V) by done.
  rewrite (be_read vid _ st' K V) by (rewrite ?Heq; done). run_bind.
  rewrite IH; [done|]. intros. apply Hv. by right.
Qed.

Lemma read_pages_total ps vids n st :
  be_inv st → Forall (allocated st) vids → ∃ kv, read_pages ps vids n st = Ok kv.
Proof.
  intros Hi Hv. revert n. induction Hv as [|vid vids [[K V] HKV] _ IH]; intros n; simpl; [eauto|].
  case_bool_decide; [eauto|]. rewrite (be_read vid _ st K V) by done. run_bind.
  destruct (IH (n - Nat.min ps n)) as [kv ->]. run_bind. eauto.
Qed.

(** Writing the pages from index [j] on and reading them back yields the rows
    from [j * ps] on; no other page changes. *)
Lemma write_read_pages ps k v vids j st :
  be_inv st → 0 < ps → ps ≤ be_page_size st → length v = length k →
  NoDup vids → Forall (allocated st) vids → length k ≤ (j + length vids) * ps →
  ∃ st', foldM (write_step ps k v) (zip (seq j (length vids)) vids) st = Ok st' ∧
    be_inv st' ∧ be_page_size st' = be_page_size st ∧
    num_physical_pages st' = num_physical_pages st ∧
    (∀ vid, vid ∉ vids → be_pages st' !! vid = be_pages st !! vid) ∧
    (∀ vid, allocated st vid → allocated st' vid) ∧
    read_pages ps vids (length k - j * ps) st'
    = Ok (cast <$> drop (j * ps) k, cast <$> drop (j * ps) v).
Proof.
  intros Hi Hps Hle Hlen. revert j st Hi Hle.
  induction vids as [|vid vids IH]; intros j st Hi Hle Hnd Hal Hn.
  { exists st. simpl in *. rewrite !drop_ge by lia. done. }
  apply NoDup_cons in Hnd as [Hvid Hnd]. apply Forall_cons in Hal as [Ha Hal].
  simpl in Hn. cbn [length seq zip zip_with foldM]. unfold write_step at 2. cbn [fst snd].
  case_bool_decide as Hlt.
  - destruct Ha as [[K V] HKV]. set (e := Nat.min (j * ps + ps) (length k)) in *.
    assert (Hlk : length (slice (j * ps) e k) = e - j * ps) by (apply length_slice; lia).
    assert (Hlv : length (slice (j * ps) e v) = e - j * ps) by (apply length_slice; lia).
    destruct (be_write vid (slice (j * ps) e k) (slice (j * ps) e v) st K V)
      as (st1 & Hw & Hi1 & Hps1 & Hn1 & Hpg1); [done|done|lia|lia|].
    rewrite Hw. run_bind.
    destruct (IH (S j) st1) as (st' & Hf & Hi' & Hps' & Hn' & Hfr & Hal' & Hr); [done|lia|done| |lia|].
    { eapply Forall_impl; [exact Hal|]. intros vid' Hv'. unfold allocated. rewrite Hpg1.
      rewrite lookup_insert. case_decide; eauto. }
    exists st'. split; [exact Hf|]. split; [done|]. split; [congruence|]. split; [congruence|].
    assert (Hvs : be_pages st' !! vid
      = Some (write_prefix K (cast <$> slice (j * ps) e k), write_prefix V (cast <$> slice (j * ps) e v))).
    { rewrite Hfr by done. by rewrite Hpg1, lookup_insert_eq. }
    split; [|split].
    + intros vid' [Hne Hni]%not_elem_of_cons. rewrite Hfr by done.
      by rewrite Hpg1, lookup_insert_ne by done.
    + intros vid' Hv'. apply Hal'. unfold allocated. rewrite Hpg1, lookup_insert.
      case_decide; eauto.
    + cbn [read_pages].
      replace (Nat.min ps (length k - j * ps)) with (e - j * ps) by lia.
      rewrite bool_decide_eq_false_2 by lia.
      rewrite (be_read vid _ st' _ _ Hi' Hvs). run_bind.
      replace (length k - j * ps - (e - j * ps)) with (length k - S j * ps) by lia.
      rewrite Hr. run_bind. cbn [fst snd].
      rewrite !take_write_prefix by len_lia.
      rewrite <-!fmap_app. do 3 f_equal.
      * replace (S j * ps) with (j * ps + ps) by lia. by apply slice_page.
      * replace (S j * ps) with (j * ps + ps) by lia. by apply slice_page.
  - run_bind. destruct (IH (S j) st) as (st' & Hf & Hi' & Hps' & Hn' & Hfr & Hal' & Hr);
      [done|done|done|done|lia|].
    exists st'. split; [exact Hf|]. split; [done|]. split; [done|]. split; [done|].
    split; [by intros vid' [_ Hni]%not_elem_of_cons; apply Hfr|]. split; [done|].
    rewrite !drop_ge by lia. cbn [read_pages].
    rewrite bool_decide_eq_true_2 by lia. done.
Qed.

Lemma index_select_same {A} (k v : list A) pos kv :
  length v = length k → index_select k pos = Ok kv → ∃ vv, index_select v pos = Ok vv ∧ length vv = length kv.
Proof.
  intros Hl Hk. destruct (index_select_ok v pos) as (vv & Hv & _).
  - apply index_select_Forall2 in Hk. apply Forall_lookup_2. intros i z Hz.
    destruct (Forall2_lookup_l _ _ _ _ _ Hk Hz) as (x & _ & Hpos & Hx%lookup_lt_Some). lia.
  - exists vv. split; [done|].
    by rewrite (index_select_length _ _ _ Hv), (index_select_length _ _ _ Hk).
Qed.

(** Storing a segment: the call returns, keeps the invariant, allocates the
    pages the kept tokens need, and the new segment reads back as the selected
    rows while every stored segment reads as before. *)
Lemma store_spec c l h s D D' k v plan k_vis v_vis :
  cache_inv c → length v = length k →
  index_select k (positions plan) = Ok k_vis → index_select v (positions plan) = Ok v_vis →
  ∃ c' g, store_head_segment l h s (T2 D k) (T2 D' v) plan c = Ok (c', g) ∧
    cache_inv c' ∧ table c' = table_add g (table c) ∧ page_size c' = page_size c ∧
    (sg_layer g, sg_head g, sg_segment g) = (l, h, s) ∧ sg_positions g = positions plan ∧
    num_physical_pages (storage c')
    = num_physical_pages (storage c) + (length k_vis + page_size c - 1) / page_size c ∧
    gather_segment c' g = Ok (cast <$> k_vis, cast <$> v_vis) ∧
    (∀ key g', od_get key (pt_segments (table c)) = Some g' →
       gather_segment c' g' = gather_segment c g').
Proof.
  intros Hc Hlen Hk Hv. set (np := (length k_vis + page_size c - 1) / page_size c).
  destruct Hc as [Hst Hpos Hle Hkeys Hal Hheads].
  destruct (be_alloc np (storage c) Hst) as (st1 & ids & Ha & Hi1 & Hps1 & Hn1 & Hidl & Hnd & Hfresh & Hframe).
  assert (Hkv : length v_vis = length k_vis)
    by (by rewrite (index_select_length _ _ _ Hv), (index_select_length _ _ _ Hk)).
  destruct (write_read_pages (page_size c) k_vis v_vis ids 0 st1)
    as (st2 & Hw & Hi2 & Hps2 & Hn2 & Hfr2 & Hal2 & Hr2); [done|done|lia|done|done| | |].
  { apply Forall_forall. intros vid Hvid. by apply Hfresh. }
  { rewrite Hidl. by apply pages_needed. }
  assert (Hold : ∀ vid, allocated (storage c) vid →
            vid ∉ ids ∧ allocated st2 vid ∧ be_pages st2 !! vid = be_pages (storage c) !! vid).
  { intros vid Hvid. assert (Hni : vid ∉ ids).
    { intros Hin. destruct (Hfresh vid Hin) as [Hnone _]. unfold allocated in Hvid.
      rewrite Hnone in Hvid. by destruct Hvid. }
    assert (Heq : be_pages st2 !! vid = be_pages (storage c) !! vid)
      by (by rewrite Hfr2, Hframe).
    split; [done|]. split; [|done]. unfold allocated. by rewrite Heq. }
  set (g := mkSegment l h s ids (positions plan)).
  exists (mkCache (num_kv_heads c) (head_dim c) (page_size c) st2 (table_add g (table c))), g.
  split.
  { unfold store_head_segment. rewrite Hk. run_bind. rewrite Hv. run_bind. fold np.
    rewrite Ha. unfold write_pages. rewrite Hw. done. }
  split.
  { constructor; simpl; try done; try lia.
    - auto with redknot.
    - intros key g'. rewrite od_get_set. case_decide as Hkey.
      + intros [= <-]. apply Forall_forall. intros vid Hvid. apply Hal2. by apply Hfresh.
      + intros Hg'. eapply Forall_impl; [exact (Hal _ _ Hg')|].
        intros vid Hvid. by apply Hold.
    - intros l' h' s'. rewrite od_set_keys_elem, lookup_insert. case_decide as Hlh.
      + injection Hlh as <- <-. simpl. rewrite elem_of_app, list_elem_of_singleton.
        intros [Hs'| ->]; [right; by apply Hheads|by left].
      + intros Hs'. right. by apply Hheads. }
  do 4 (split; [done|]). split; [simpl; rewrite Hn2; exact Hn1|]. split.
  - unfold gather_segment. simpl. unfold seg_kept. simpl.
    rewrite <-(index_select_length _ _ _ Hk). rewrite Nat.sub_0_r in Hr2. exact Hr2.
  - intros key g' Hg'. unfold gather_segment. simpl. apply read_pages_frame; [done..|].
    intros vid Hvid. eapply Forall_forall in Hvid; [|exact (Hal _ _ Hg')].
    destruct (Hold vid Hvid) as (_ & _ & ?). done.
Qed.

Lemma segments_of_elem c l h segs :
  segments_of (table c) l h = Ok segs →
  Forall (fun g => ∃ key, od_get key (pt_segments (table c)) = Some g) segs.
Proof.
  intros Hs%traverse_Ok. apply Forall_lookup_2. intros i g Hg.
  destruct (Forall2_lookup_r _ _ _ _ _ Hs Hg) as (s & _ & Ht).
  unfold table_get in Ht. destruct (od_get (l, h, s) _) eqn:E; [|done].
  injection Ht as ->. eauto.
Qed.

Lemma segments_of_total c l h : cache_inv c → ∃ segs, segments_of (table c) l h = Ok segs.
Proof.
  intros Hc. destruct (segments_of (table c) l h) as [segs|e] eqn:E; [eauto|exfalso].
  apply traverse_Raise in E as (s & Hs & Ht). apply (ci_heads c Hc) in Hs.
  apply od_mem_true in Hs. unfold od_mem in Hs. unfold table_get in Ht.
  by destruct (od_get (l, h, s) (pt_segments (table c))).
Qed.

Lemma gather_segment_total c key g :
  cache_inv c → od_get key (pt_segments (table c)) = Some g → ∃ kv, gather_segment c g = Ok kv.
Proof.
  intros Hc Hg. apply read_pages_total; [apply (ci_storage c Hc)|exact (ci_alloc c Hc key g Hg)].
Qed.

Lemma gather_segs_total c segs :
  cache_inv c → Forall (fun g => ∃ key, od_get key (pt_segments (table c)) = Some g) segs →
  ∃ kvs, traverse (gather_segment c) segs = Ok kvs.
Proof.
  intros Hc Hs. destruct (traverse (gather_segment c) segs) as [kvs|e] eqn:E; [eauto|exfalso].
  apply traverse_Raise in E as (g & Hg & Ht). eapply Forall_forall in Hg; [|exact Hs].
  destruct Hg as [key Hg]. destruct (gather_segment_total c key g Hc Hg). congruence.
Qed.

(** A well-formed cache can always be read. *)
Lemma gather_head_total c l h : cache_inv c → ∃ K V, gather_head c l h = Ok (K, V).
Proof.
  intros Hc. destruct (segments_of_total c l h Hc) as [segs Hs].
  destruct (gather_segs_total c segs Hc (segments_of_elem c l h segs Hs)) as [kvs Hkv].
  unfold gather_head. rewrite Hs. run_bind. rewrite Hkv. run_bind. eauto.
Qed.

(** The table after adding a segment whose key is new. *)
Lemma segments_of_add_same c g segs :
  cache_inv c → (sg_layer g, sg_head g, sg_segment g) ∉ od_keys (pt_segments (table c)) →
  segments_of (table c) (sg_layer g) (sg_head g) = Ok segs →
  segments_of (table_add g (table c)) (sg_layer g) (sg_head g) = Ok (segs ++ [g]).
Proof.
  intros Hc Hf Hs. unfold segments_of. simpl. rewrite lookup_insert_eq. simpl.
  apply traverse_app.
  - rewrite <-Hs. apply traverse_ext. intros s Hin. unfold table_get. simpl.
    rewrite od_get_set, decide_False; [done|]. intros [= ->]. apply Hf. by apply (ci_heads c Hc).
  - simpl. unfold table_get. simpl. by rewrite od_get_set, decide_True.
Qed.

Lemma segments_of_add_other c g l h :
  (l, h) ≠ (sg_layer g, sg_head g) →
  segments_of (table_add g (table c)) l h = segments_of (table c) l h.
Proof.
  intros Hne. unfold segments_of. simpl. rewrite lookup_insert_ne by done.
  apply traverse_ext. intros s _. unfold table_get. simpl.
  rewrite od_get_set, decide_False; [done|]. congruence.
Qed.

(** Reading a list of segments that were stored before the last store. *)
Lemma gather_segs_frame c c' segs :
  (∀ key g', od_get key (pt_segments (table c)) = Some g' → gather_segment c' g' = gather_segment c g') →
  Forall (fun g => ∃ key, od_get key (pt_segments (table c)) = Some g) segs →
  traverse (gather_segment c') segs = traverse (gather_segment c) segs.
Proof.
  intros Hfr Hs. apply traverse_ext. intros g Hg. eapply Forall_forall in Hg; [|exact Hs].
  destruct Hg as [key Hg]. by eapply Hfr.
Qed.

Lemma gather_head_add c c' g kv l h K V :
  cache_inv c → (sg_layer g, sg_head g, sg_segment g) ∉ od_keys (pt_segments (table c)) →
  table c' = table_add g (table c) → gather_segment c' g = Ok kv →
  (∀ key g', od_get key (pt_segments (table c)) = Some g' → gather_segment c' g' = gather_segment c g') →
  gather_head c l h = Ok (K, V) →
  gather_head c' l h
  = Ok (if decide ((l, h) = (sg_layer g, sg_head g)) then (K ++ kv.1, V ++ kv.2) else (K, V)).
Proof.
  intros Hc Hf Ht Hg Hfr HKV. unfold gather_head in *. rewrite Ht.
  unbind HKV as segs Hs. unbind HKV as kvs Hkvs. injection HKV as <- <-.
  pose proof (gather_segs_frame c c' segs Hfr (segments_of_elem c l h segs Hs)) as Hseg.
  case_decide as Hlh.
  - injection Hlh as -> ->. rewrite (segments_of_add_same c g segs Hc Hf Hs). run_bind.
    rewrite (traverse_app _ segs [g] kvs [kv]); [|by rewrite Hseg|simpl; by rewrite Hg].
    run_bind. rewrite !fmap_app, !concat_app. simpl. by rewrite !app_nil_r.
  - rewrite segments_of_add_other by done. rewrite Hs. run_bind. by rewrite Hseg, Hkvs.
Qed.

(** C31: Against any storage backend that meets the contract, storing a new
    segment refines appending to one head's view: the call returns, the head's
    gathered K/V grows by exactly the selected rows (in the dtype of the pool),
    every other head reads as before, and the token count grows by the number
    of positions kept. *)
Theorem store_refines_append c l h s D D' k v plan k_vis v_vis :
  cache_inv c → length v = length k →
  index_select k (positions plan) = Ok k_vis → index_select v (positions plan) = Ok v_vis →
  (l, h, s) ∉ od_keys (pt_segments (table c)) →
  ∃ c' g, store_head_segment l h s (T2 D k) (T2 D' v) plan c = Ok (c', g) ∧ cache_inv c' ∧
    stored_token_count c' = (stored_token_count c + kept plan)%Z ∧
    ∀ l' h', ∃ K V, gather_head c l' h' = Ok (K, V) ∧
      gather_head c' l' h'
      = Ok (if decide ((l', h') = (l, h)) then (K ++ (cast <$> k_vis), V ++ (cast <$> v_vis))
            else (K, V)).
Proof.
  intros Hc Hlen Hk Hv Hf.
  destruct (store_spec c l h s D D' k v plan k_vis v_vis Hc Hlen Hk Hv)
    as (c' & g & Hst & Hc' & Ht & _ & Hkey & Hpos & _ & Hg & Hfr).
  exists c', g. split; [done|]. split; [done|]. injection Hkey as <- <- <-. split.
  - unfold stored_token_count, all_segments. rewrite Ht. simpl. rewrite od_set_new by done.
    rewrite !fmap_app, sumZ_app. simpl. unfold seg_kept, kept. rewrite Hpos. lia.
  - intros l' h'. destruct (gather_head_total c l' h' Hc) as (K & V & HKV).
    exists K, V. split; [done|].
    by rewrite (gather_head_add c c' g (cast <$> k_vis, cast <$> v_vis) l' h' K V).
Qed.

(** storing the same (layer, head, segment) twice does not replace the
    segment: the head then reads the second store's rows twice, because the
    segment id is appended to the head's list again. *)
Theorem store_twice_duplicates c l h s D k1 v1 k2 v2 p1 p2 a1 b1 a2 b2 :
  cache_inv c → length v1 = length k1 → length v2 = length k2 →
  index_select k1 (positions p1) = Ok a1 → index_select v1 (positions p1) = Ok b1 →
  index_select k2 (positions p2) = Ok a2 → index_select v2 (positions p2) = Ok b2 →
  pt_head_segments (table c) !! (l, h) = None →
  ∃ c1 g1 c2 g2,
    store_head_segment l h s (T2 D k1) (T2 D v1) p1 c = Ok (c1, g1) ∧
    store_head_segment l h s (T2 D k2) (T2 D v2) p2 c1 = Ok (c2, g2) ∧
    gather_head c2 l h = Ok ((cast <$> a2) ++ (cast <$> a2), (cast <$> b2) ++ (cast <$> b2)).
Proof.
  intros Hc Hl1 Hl2 Ha1 Hb1 Ha2 Hb2 Hnone.
  destruct (store_spec c l h s D D k1 v1 p1 a1 b1 Hc Hl1 Ha1 Hb1)
    as (c1 & g1 & Hs1 & Hc1 & Ht1 & _ & Hk1 & _).
  destruct (store_spec c1 l h s D D k2 v2 p2 a2 b2 Hc1 Hl2 Ha2 Hb2)
    as (c2 & g2 & Hs2 & Hc2 & Ht2 & _ & Hk2 & _ & _ & Hg2 & _).
  injection Hk1 as E1 E2 E3. injection Hk2 as E4 E5 E6.
  exists c1, g1, c2, g2. split; [done|]. split; [done|].
  unfold gather_head, segments_of. rewrite Ht2, Ht1. simpl.
  rewrite E1, E2, E3, E4, E5, E6. rewrite lookup_insert_eq. simpl. rewrite lookup_insert_eq.
  rewrite Hnone. simpl. unfold table_get. simpl. rewrite E4, E5, E6, od_get_set, decide_True by done.
  run_bind. cbn [traverse]. rewrite Hg2. run_bind. simpl. by rewrite !app_nil_r.
Qed.

(** ** Building the cache of one layer *)

Lemma build_loop layer D Hn k_heads v_heads plans todo c :
  cache_inv c →
  (∀ h k v p, h ∈ todo → k_heads !! h = Some k → v_heads !! h = Some v → plans !! h = Some p →
     length v = length k ∧ ∃ kv, index_select k (positions p) = Ok kv) →
  (∀ h, h ∈ todo → h < Hn) → length k_heads = Hn → length v_heads = Hn → length plans = Hn →
  NoDup todo →
  (∀ h s, h ∈ todo → (layer, Z.of_nat h, s) ∉ od_keys (pt_segments (table c))) →
  ∃ c', foldM (fun c h =>
          do! k <- py_get k_heads (Z.of_nat h);
          do! v <- py_get v_heads (Z.of_nat h);
          do! plan <- py_get plans (Z.of_nat h);
          do! r <- store_head_segment layer (Z.of_nat h) 0 (T2 D k) (T2 D v) plan c;
          Ok r.1) todo c = Ok c' ∧ cache_inv c' ∧
    (∀ h, h ∉ todo → gather_head c' layer (Z.of_nat h) = gather_head c layer (Z.of_nat h)) ∧
    (∀ h k v p, h ∈ todo → k_heads !! h = Some k → v_heads !! h = Some v → plans !! h = Some p →
       ∃ K V kv vv, gather_head c layer (Z.of_nat h) = Ok (K, V) ∧
         index_select k (positions p) = Ok kv ∧ index_select v (positions p) = Ok vv ∧
         gather_head c' layer (Z.of_nat h) = Ok (K ++ (cast <$> kv), V ++ (cast <$> vv))).
Proof.
  intros Hc Hsel Hlt Hk Hv Hp Hnd. revert c Hc. induction todo as [|h todo IH]; intros c Hc Hfresh.
  { exists c. split; [done|]. split; [done|]. split; [done|]. intros ?? ?? Hin. by apply elem_of_nil in Hin. }
  apply NoDup_cons in Hnd as [Hh Hnd].
  assert (Hhn : h < Hn) by (apply Hlt; left).
  element k_heads h as k Hkh.
  element v_heads h as v Hvh.
  element plans h as p Hph.
  destruct (Hsel h k v p) as [Hlen [kv Hkv]]; [left|done..|].
  destruct (index_select_same k v _ kv Hlen Hkv) as (vv & Hvv & _).
  destruct (store_spec c layer (Z.of_nat h) 0 D D k v p kv vv Hc Hlen Hkv Hvv)
    as (c1 & g & Hst & Hc1 & Ht & _ & Hkey & _ & _ & Hg & Hfr).
  injection Hkey as E1 E2 E3.
  assert (Hadd : ∀ h' K V, gather_head c layer (Z.of_nat h') = Ok (K, V) →
    gather_head c1 layer (Z.of_nat h')
    = Ok (if decide (h' = h) then (K ++ (cast <$> kv), V ++ (cast <$> vv)) else (K, V))).
  { intros h' K V HKV.
    rewrite (gather_head_add c c1 g (cast <$> kv, cast <$> vv) layer (Z.of_nat h') K V);
      [|done| |done..].
    - rewrite E1, E2. repeat case_decide; simplify_eq; try done; lia.
    - rewrite E1, E2, E3. apply Hfresh. left. }
  destruct (IH) with (c := c1) as (c' & Hf & Hc' & Hother & Hin); try done.
  { intros h' k' v' p' Hin. apply Hsel. by right. }
  { intros h' Hin. apply Hlt. by right. }
  { intros h' s' Hin. rewrite Ht. simpl. rewrite od_set_keys_elem. intros [Heq|Hin'].
    - rewrite E1, E2 in Heq. injection Heq as Heq _. apply Nat2Z.inj in Heq. by subst.
    - by eapply (Hfresh h'); [right|]. }
  exists c'. cbn [foldM]. rewrite (py_get_nat _ _ _ Hkh), (py_get_nat _ _ _ Hvh), (py_get_nat _ _ _ Hph).
  run_bind. rewrite Hst. run_bind. cbn [fst]. split; [exact Hf|]. split; [done|]. split.
  - intros h' [Hne Hni]%not_elem_of_cons. rewrite Hother by done.
    destruct (gather_head_total c layer (Z.of_nat h') Hc) as (K & V & HKV).
    rewrite HKV, (Hadd h' K V HKV). by rewrite decide_False.
  - intros h' k' v' p' [->|Hin']%elem_of_cons Hk' Hv' Hp'.
    + assert (k' = k) as -> by congruence. assert (v' = v) as -> by congruence.
      assert (p' = p) as -> by congruence.
      destruct (gather_head_total c layer (Z.of_nat h) Hc) as (K & V & HKV).
      exists K, V, kv, vv. split; [done|]. split; [done|]. split; [done|].
      rewrite Hother by done. rewrite (Hadd h K V HKV). by rewrite decide_True.
    + destruct (Hin h' k' v' p' Hin' Hk' Hv' Hp') as (K & V & kv' & vv' & HKV & ? & ? & ?).
      assert (Hne : h' ≠ h) by (by intros ->).
      destruct (gather_head_total c layer (Z.of_nat h') Hc) as (K0 & V0 & HKV0).
      rewrite (Hadd h' K0 V0 HKV0), decide_False in HKV by done.
      injection HKV as <- <-. exists K0, V0, kv', vv'. done.
Qed.

Lemma new_cache_head nh hd ps st l h :
  gather_head (new_cache nh hd ps st) l h = Ok ([], []).
Proof. unfold gather_head, segments_of. simpl. by rewrite lookup_empty. Qed.

Lemma store_dims l h s kd vd plan c c' g :
  store_head_segment l h s kd vd plan c = Ok (c', g) →
  num_kv_heads c' = num_kv_heads c ∧ head_dim c' = head_dim c.
Proof.
  unfold store_head_segment. destruct kd, vd; try done. intros Hs. do 2 bind_inv Hs.
  destruct (alloc_pages _ _). bind_inv Hs. by injection Hs as <- _.
Qed.

Lemma build_paged_ok L D D' kh vh plans ps layer st :
  be_inv st → 0 < ps → ps ≤ be_page_size st →
  Forall (fun k => length k = L) kh → Forall (fun v => length v = L) vh →
  length vh = length kh → length plans = length kh →
  Forall (fun p => Forall (fun i => 0 ≤ i < Z.of_nat L)%Z (positions p)) plans →
  ∃ c, build_paged_cache (T3 L D kh) (T3 L D' vh) plans ps layer st = Ok c ∧
    num_kv_heads c = Z.of_nat (length kh) ∧ head_dim c = D ∧
    ∀ h k v p, kh !! h = Some k → vh !! h = Some v → plans !! h = Some p →
      ∃ kv vv, index_select k (positions p) = Ok kv ∧ index_select v (positions p) = Ok vv ∧
        gather_head c layer (Z.of_nat h) = Ok (cast <$> kv, cast <$> vv).
Proof.
  intros Hi Hps Hle Hk Hv Hlv Hlp Hpos.
  destruct (build_loop layer D (length kh) kh vh plans (seq 0 (length kh))
              (new_cache (Z.of_nat (length kh)) D ps st)) as (c & Hf & Hc & _ & Hin); try done.
  - by apply new_cache_inv.
  - intros h k v p _ Hkh Hvh Hph.
    assert (length k = L) by exact (Forall_lookup_1 _ _ _ _ Hk Hkh).
    assert (length v = L) by exact (Forall_lookup_1 _ _ _ _ Hv Hvh).
    split; [lia|]. destruct (index_select_ok k (positions p)) as (kv & Hkv & _); [|eauto].
    pose proof (Forall_lookup_1 _ _ _ _ Hpos Hph) as Hp. simpl in Hp.
    eapply Forall_impl; [exact Hp|]. simpl. intros. lia.
  - intros h Hh%elem_of_seq. lia.
  - apply NoDup_seq.
  - intros h s _. simpl. set_solver.
  - exists c. split; [unfold build_paged_cache; rewrite bool_decide_eq_true_2 by done; exact Hf|].
    apply (and_assoc _ _ _). split.
    + eapply (foldM_preserves
        (fun c => num_kv_heads c = Z.of_nat (length kh) ∧ head_dim c = D)); [| |exact Hf]; [|done].
      intros c1 h c2 _ Hc1 H'. do 3 (cbn beta in H'; bind_inv H').
      unbind H' as r Er. injection H' as <-. destruct r as [c3 g].
      apply store_dims in Er as [??]; simpl; naive_solver congruence.
    + intros h k v p Hkh Hvh Hph.
      destruct (Hin h k v p) as (K & V & kv & vv & HKV & Hkv & Hvv & Hg); try done.
      { apply elem_of_seq. apply lookup_lt_Some in Hkh. lia. }
      rewrite new_cache_head in HKV. injection HKV as <- <-. eauto.
Qed.

(** C32: Building the cache of a layer from dense [H, L, D] tensors returns,
    and each head then reads back exactly the rows its plan selects, in plan
    order, whichever backend stores them. *)
Theorem build_paged_cache_spec L D D' kh vh plans ps layer st :
  be_inv st → 0 < ps → ps ≤ be_page_size st →
  Forall (fun k => length k = L) kh → Forall (fun v => length v = L) vh →
  length vh = length kh → length plans = length kh →
  Forall (fun p => Forall (fun i => 0 ≤ i < Z.of_nat L)%Z (positions p)) plans →
  ∃ c, build_paged_cache (T3 L D kh) (T3 L D' vh) plans ps layer st = Ok c ∧
    ∀ h k v p, kh !! h = Some k → vh !! h = Some v → plans !! h = Some p →
      ∃ kv vv, index_select k (positions p) = Ok kv ∧ index_select v (positions p) = Ok vv ∧
        gather_head c layer (Z.of_nat h) = Ok (cast <$> kv, cast <$> vv).
Proof.
  intros. destruct (build_paged_ok L D D' kh vh plans ps layer st) as (c & ? & _ & _ & ?); eauto.
Qed.

End proofs.

(** ** Witnesses, on the reference backend *)


Definition wit_backend : KVStorageBackend (LocalPagedPool nat) nat := LocalPagedPool_backend 0 S.
Definition wit_laws : @KVStorageLaws (LocalPagedPool nat) nat wit_backend S :=
  LocalPagedPool_laws 0 S.
Definition wit_cache : PagedHeadKVCache (LocalPagedPool nat) := new_cache 2 1 2 (new_pool 2).
Definition wit_plan : HeadVisiblePlan := mkPlan POLICY_LOCAL [0; 3; 4]%Z 5.

Lemma wit_cache_inv : @cache_inv _ _ _ S wit_laws wit_cache.
Proof. apply new_cache_inv; [apply new_pool_inv|simpl; lia..]. Qed.

Lemma store_refines_append_witness :
  ∃ c' g,
    @store_head_segment _ _ wit_backend 0 1 0 (T2 1 [10; 11; 12; 13; 14]) (T2 1 [5; 6; 7; 8; 9])
      wit_plan wit_cache = Ok (c', g) ∧
    @cache_inv _ _ wit_backend S wit_laws c' ∧
    stored_token_count c' = (stored_token_count wit_cache + kept wit_plan)%Z ∧
    ∀ l' h', ∃ K V, @gather_head _ _ wit_backend wit_cache l' h' = Ok (K, V) ∧
      @gather_head _ _ wit_backend c' l' h'
      = Ok (if decide ((l', h') = (0, 1)%Z) then (K ++ (S <$> [10; 13; 14]), V ++ (S <$> [5; 8; 9]))
            else (K, V)).
Proof.
  apply (@store_refines_append _ _ wit_backend S wit_laws wit_cache 0 1 0 1 1
           [10; 11; 12; 13; 14] [5; 6; 7; 8; 9] wit_plan [10; 13; 14] [5; 8; 9]).
  - exact wit_cache_inv.
  - reflexivity.
  - reflexivity.
  - reflexivity.
  - apply not_elem_of_nil.
Defined.

Lemma store_twice_duplicates_witness :
  ∃ c1 g1 c2 g2,
    @store_head_segment _ _ wit_backend 0 1 0 (T2 1 [1; 2; 3; 4; 5]) (T2 1 [1; 2; 3; 4; 5])
      wit_plan wit_cache = Ok (c1, g1) ∧
    @store_head_segment _ _ wit_backend 0 1 0 (T2 1 [6; 7; 8; 9; 10]) (T2 1 [6; 7; 8; 9; 10])
      wit_plan c1 = Ok (c2, g2) ∧
    @gather_head _ _ wit_backend c2 0 1
    = Ok ((S <$> [6; 9; 10]) ++ (S <$> [6; 9; 10]), (S <$> [6; 9; 10]) ++ (S <$> [6; 9; 10])).
Proof.
  apply (@store_twice_duplicates _ _ wit_backend S wit_laws wit_cache 0 1 0 1
           [1; 2; 3; 4; 5] [1; 2; 3; 4; 5] [6; 7; 8; 9; 10] [6; 7; 8; 9; 10] wit_plan wit_plan
           [1; 4; 5] [1; 4; 5] [6; 9; 10] [6; 9; 10]);
    [exact wit_cache_inv|reflexivity..].
Defined.

Lemma build_paged_cache_spec_witness :
  ∃ c, @build_paged_cache _ _ wit_backend (T3 3 1 [[1; 2; 3]; [4; 5; 6]]) (T3 3 1 [[1; 2; 3]; [4; 5; 6]])
         [mkPlan POLICY_GLOBAL [0; 1; 2]%Z 3; mkPlan POLICY_LOCAL [2]%Z 3] 2 0 (new_pool 2) = Ok c ∧
    ∀ h k v p, [[1; 2; 3]; [4; 5; 6]] !! h = Some k → [[1; 2; 3]; [4; 5; 6]] !! h = Some v →
      [mkPlan POLICY_GLOBAL [0; 1; 2]%Z 3; mkPlan POLICY_LOCAL [2]%Z 3] !! h = Some p →
      ∃ kv vv, index_select k (positions p) = Ok kv ∧ index_select v (positions p) = Ok vv ∧
        @gather_head _ _ wit_backend c 0 (Z.of_nat h) = Ok (S <$> kv, S <$> vv).
Proof.
  apply (@build_paged_cache_spec _ _ wit_backend S wit_laws 3 1 1).
  - apply new_pool_inv.
  - lia.
  - reflexivity.
  - by repeat constructor.
  - by repeat constructor.
  - reflexivity.
  - reflexivity.
  - repeat constructor; simpl; lia.
Defined.
