(* ===== verification/SegPaged.v ===== *)
(** The SegPagedAttention store ([redknot/segpaged.py]): one object holding
    page pool and page table, filled head by head from dense KV.  Its
    correctness is a simulation: every operation of this store is the
    corresponding operation of the SegPaged v2 cache over the reference pool,
    so the v2 theorems carry over.

    As in [PageTable], a row stands for the [head_dim] elements of one token and
    the last dimension of a tensor is not compared with [head_dim]: K and V of another width, which
    the page assignment rejects (or broadcasts, at width one), are outside the model. *)

From S2P Require Import Prelude Tensor VisiblePlan Storage PageTable.

Record HeadSegment1 := mkSegment1 {
  s1_layer : Z;
  s1_head : Z;
  s1_segment : Z;
  s1_page_ids : list Z;
  s1_seq_len : nat;
}.

Record SegmentPageTable1 := mkTable1 {
  t1_page_size : nat;
  t1_segments : odict (Z * Z * Z) HeadSegment1;
  t1_head_policy : gmap (Z * Z) string;
  t1_head_segments : gmap (Z * Z) (list Z);
}.

Definition lookup1 (t : SegmentPageTable1) (l h s : Z) : result HeadSegment1 :=
  match od_get (l, h, s) (t1_segments t) with Some g => Ok g | None => Raise KeyError end.

Definition policy1 (t : SegmentPageTable1) (l h : Z) : result string :=
  py_lookup (t1_head_policy t) (l, h).

Definition segments_of1 (t : SegmentPageTable1) (l h : Z) : result (list HeadSegment1) :=
  traverse (fun s => lookup1 t l h s) (default [] (t1_head_segments t !! (l, h))).

Section store.
Context {row : Type} (zero_row : row) (cast : row → row).

(** The page fields [_k_pages], [_v_pages], [_virt_to_phys], [_next_virt],
    [_next_phys] and [page_size] are grouped as a pool. *)
Record SegPagedKVCache := mkSegPaged {
  sp_num_layers : Z;
  sp_num_kv_heads : Z;
  sp_head_dim : nat;
  sp_pool : LocalPagedPool row;
  sp_table : SegmentPageTable1;
}.

Definition new_segpaged (nl nh : Z) (hd ps : nat) : SegPagedKVCache :=
  mkSegPaged nl nh hd (new_pool ps) (mkTable1 ps [] ∅ ∅).

Definition sp_page_size (c : SegPagedKVCache) : nat := lp_page_size (sp_pool c).

(** [_alloc_pages]. *)
Definition alloc_for_tokens (n_tokens : nat) (p : LocalPagedPool row) : LocalPagedPool row * list Z :=
  let n_pages := (n_tokens + lp_page_size p - 1) / lp_page_size p in
  lp_alloc_pages zero_row n_pages p.

(** One turn of the scatter loop of [add_head_segment]. *)
Definition scatter_step (ps seq_len : nat) (k v : list row) (p : LocalPagedPool row) (iv : nat * Z)
  : result (LocalPagedPool row) :=
  do! phys <- py_lookup (virt_to_phys p) iv.2;
  let start := iv.1 * ps in
  let end_ := Nat.min (start + ps) seq_len in
  let n := end_ - start in
  do! kp <- py_get (k_pages p) (Z.of_nat phys);
  do! kp' <- assign_prefix kp n (slice start end_ k);
  do! vp <- py_get (v_pages p) (Z.of_nat phys);
  do! vp' <- assign_prefix vp n (slice start end_ v);
  Ok (mkPool (lp_page_size p) (<[phys := kp']> (k_pages p)) (<[phys := vp']> (v_pages p))
        (virt_to_phys p) (next_virt p) (next_phys p)).

Definition add_head_segment (l h s : Z) (policy : string) (k v : tensor row)
    (c : SegPagedKVCache) : result (SegPagedKVCache * HeadSegment1) :=
  match k, v with
  | T2 _ k, T2 _ v =>
      let seq_len := length k in
      let k := cast <$> k in
      let v := cast <$> v in
      let '(p1, virt_ids) := alloc_for_tokens seq_len (sp_pool c) in
      do! p2 <- foldM (scatter_step (sp_page_size c) seq_len k v)
                      (zip (seq 0 (length virt_ids)) virt_ids) p1;
      let seg := mkSegment1 l h s virt_ids seq_len in
      let t := sp_table c in
      Ok (mkSegPaged (sp_num_layers c) (sp_num_kv_heads c) (sp_head_dim c) p2
            (mkTable1 (t1_page_size t) (od_set (l, h, s) seg (t1_segments t))
               (<[(l, h) := policy]> (t1_head_policy t))
               (<[(l, h) := default [] (t1_head_segments t !! (l, h)) ++ [s]]> (t1_head_segments t))),
          seg)
  | _, _ => Raise ValueError
  end.

(** The loop of [gather_segment]: it visits every page of the segment. *)
Fixpoint gather_pages (ps : nat) (vids : list Z) (remaining : nat) (p : LocalPagedPool row)
  : result (list row * list row) :=
  match vids with
  | [] => Ok ([], [])
  | vid :: vids =>
      do! phys <- py_lookup (virt_to_phys p) vid;
      let tk := Nat.min ps remaining in
      do! kp <- py_get (k_pages p) (Z.of_nat phys);
      do! vp <- py_get (v_pages p) (Z.of_nat phys);
      do! rest <- gather_pages ps vids (remaining - tk) p;
      Ok (take tk kp ++ rest.1, take tk vp ++ rest.2)
  end.

Definition gather_segment1 (c : SegPagedKVCache) (g : HeadSegment1) : result (list row * list row) :=
  gather_pages (sp_page_size c) (s1_page_ids g) (s1_seq_len g) (sp_pool c).

Definition gather_head1 (c : SegPagedKVCache) (l h : Z) : result (list row * list row) :=
  do! segs <- segments_of1 (sp_table c) l h;
  do! kvs <- traverse (gather_segment1 c) segs;
  Ok (concat kvs.*1, concat kvs.*2).

(** [physical_bytes]; [elt] is the element size of the pool's dtype. *)
Definition physical_bytes1 (elt : Z) (c : SegPagedKVCache) : Z :=
  match k_pages (sp_pool c) with
  | [] => 0
  | _ => 2 * Z.of_nat (length (k_pages (sp_pool c)))
         * (Z.of_nat (sp_page_size c) * Z.of_nat (sp_head_dim c) * elt)
  end%Z.

Definition stored_token_count1 (c : SegPagedKVCache) : Z :=
  sumZ ((fun g => Z.of_nat (s1_seq_len g)) <$> (t1_segments (sp_table c)).*2).

(** [x[h]] of a rank-3 tensor; the slice of a tensor of another rank is refused
    by the rank check of [add_head_segment]. *)
Definition head_of (x : tensor row) (h : nat) : result (list row) :=
  match x with T3 _ _ xs => py_get xs (Z.of_nat h) | _ => Raise ValueError end.

(** The body of the head loop of [build_segpaged_cache]. *)
Definition build_body (L D : nat) (k_dense v_dense : tensor row) (pols : list string)
    (sink recent layer : Z) (c : SegPagedKVCache) (h : nat) : result SegPagedKVCache :=
  do! pol <- py_get pols (Z.of_nat h);
  do! k <- head_of k_dense h;
  do! v <- head_of v_dense h;
  do! kv <- (if bool_decide (pol = POLICY_GLOBAL) then Ok (k, v)
             else if bool_decide (pol = POLICY_LOCAL) then
               do! idx <- local_visible_indices (Z.of_nat L) sink recent;
               do! k_h <- index_select k idx;
               do! v_h <- index_select v idx;
               Ok (k_h, v_h)
             else Raise ValueError);
  do! r <- add_head_segment layer (Z.of_nat h) 0 pol (T2 D kv.1) (T2 D kv.2) c;
  Ok r.1.

(** [build_segpaged_cache]. *)
Definition build_segpaged_cache (k_dense v_dense : tensor row) (head_policy : list string)
    (sink recent : Z) (ps : nat) (layer : Z) : result SegPagedKVCache :=
  match k_dense with
  | T3 L D kh =>
      foldM (build_body L D k_dense v_dense head_policy sink recent layer)
        (seq 0 (length kh)) (new_segpaged (layer + 1) (Z.of_nat (length kh)) D ps)
  | _ => Raise ValueError
  end.

(** * The simulation *)

Definition seg_v2 (g : HeadSegment1) : HeadSegment :=
  mkSegment (s1_layer g) (s1_head g) (s1_segment g) (s1_page_ids g)
    (seqZ 0 (Z.of_nat (s1_seq_len g))).

Definition cache_v2 (c : SegPagedKVCache) : PagedHeadKVCache (LocalPagedPool row) :=
  mkCache (sp_num_kv_heads c) (sp_head_dim c) (sp_page_size c) (sp_pool c)
    (mkTable (t1_page_size (sp_table c)) (prod_map id seg_v2 <$> t1_segments (sp_table c))
       (t1_head_segments (sp_table c))).

Definition full_plan (policy : string) (n : nat) : HeadVisiblePlan :=
  mkPlan policy (seqZ 0 (Z.of_nat n)) (Z.of_nat n).

#[local] Instance pool_backend : KVStorageBackend (LocalPagedPool row) row :=
  LocalPagedPool_backend zero_row cast.
#[local] Instance pool_laws : KVStorageLaws (LocalPagedPool row) row cast :=
  LocalPagedPool_laws zero_row cast.

Lemma slice_fmap {A B} (f : A → B) a b (l : list A) : slice a b (f <$> l) = f <$> slice a b l.
Proof. unfold slice. by rewrite fmap_take, fmap_drop. Qed.

Lemma write_page_keeps_size vid k v p p' :
  lp_write_page cast vid k v p = Ok p' → lp_page_size p' = lp_page_size p.
Proof.
  unfold lp_write_page. case_bool_decide; [done|]. intros H'. do 5 bind_inv H'.
  by injection H' as <-.
Qed.

(** One turn of the two write loops, on a page the segment needs. *)
Lemma scatter_is_write ps k v p i vid :
  0 < ps → lp_page_size p = ps → length v = length k → i * ps < length k →
  scatter_step ps (length k) (cast <$> k) (cast <$> v) p (i, vid) = write_step ps k v p (i, vid).
Proof.
  intros Hpos Hps Hlen Hi. unfold scatter_step, write_step. cbn [fst snd].
  rewrite bool_decide_eq_true_2 by lia.
  change (write_page vid ?a ?b p) with (lp_write_page cast vid a b p). unfold lp_write_page.
  rewrite (length_slice k) by lia. rewrite bool_decide_eq_false_2 by lia.
  by rewrite !slice_fmap.
Qed.

Lemma write_step_keeps_size ps k v p x p' :
  write_step ps k v p x = Ok p' → lp_page_size p' = lp_page_size p.
Proof.
  unfold write_step. case_bool_decide; [|by intros [= <-]]. apply write_page_keeps_size.
Qed.

Lemma ceil_index n ps i : 0 < ps → i < (n + ps - 1) / ps → i * ps < n.
Proof.
  intros Hp Hi. pose proof (Nat.div_mod_eq (n + ps - 1) ps).
  pose proof (Nat.mod_upper_bound (n + ps - 1) ps). nia.
Qed.

Lemma alloc_page_size n p p' ids :
  lp_alloc_pages zero_row n p = (p', ids) → lp_page_size p' = lp_page_size p ∧ length ids = n.
Proof.
  revert p p' ids. induction n as [|n IH]; intros p p' ids; simpl.
  { intros [= <- <-]. done. }
  destruct (lp_alloc_pages zero_row n _) as [p2 vids] eqn:E. intros [= <- <-].
  apply IH in E as [-> <-]. done.
Qed.

(** Adding a segment simulates storing the full plan in the v2 cache. *)
Lemma add_simulates l h s policy D D' k v c :
  0 < sp_page_size c → length v = length k →
  (do! r <- add_head_segment l h s policy (T2 D k) (T2 D' v) c; Ok (cache_v2 r.1, seg_v2 r.2))
  = store_head_segment l h s (T2 D k) (T2 D' v) (full_plan policy (length k)) (cache_v2 c).
Proof.
  intros Hps Hlen. unfold add_head_segment, store_head_segment, full_plan. cbn [positions].
  rewrite (index_select_all k). run_bind. rewrite <-Hlen, (index_select_all v), Hlen. run_bind.
  unfold alloc_for_tokens. cbn [page_size storage cache_v2].
  change (alloc_pages ?n (sp_pool c)) with (lp_alloc_pages zero_row n (sp_pool c)).
  change (sp_page_size c) with (lp_page_size (sp_pool c)) in *.
  destruct (lp_alloc_pages zero_row _ (sp_pool c)) as [p1 ids] eqn:Ha.
  apply alloc_page_size in Ha as [Hsz Hids]. unfold write_pages.
  rewrite (foldM_ext_inv (fun p => lp_page_size p = lp_page_size (sp_pool c)) _
             (write_step (lp_page_size (sp_pool c)) k v)).
  - destruct (foldM _ _ p1) as [p2|] eqn:Hf; run_bind; [|done].
    assert (Hp2 : lp_page_size p2 = lp_page_size (sp_pool c)).
    { refine (foldM_preserves (fun p => lp_page_size p = lp_page_size (sp_pool c)) _ _ _ _ _ Hsz Hf).
      intros p x p' _ Hp Hw. by rewrite (write_step_keeps_size _ _ _ _ _ _ Hw). }
    unfold cache_v2, table_add, sp_page_size. cbn -[fmap].
    rewrite od_set_fmap, Hp2. done.
  - done.
  - intros p [i vid] Hp Hin. apply scatter_is_write; try done.
    apply ceil_index; [done|]. apply elem_of_zip_l, elem_of_seq in Hin. lia.
  - intros p x p' Hp _ Hw. by rewrite (write_step_keeps_size _ _ _ _ _ _ Hw).
Qed.

(** Reading every page of a segment equals the reading loop that stops early. *)
Lemma gather_pages_read ps vids n p :
  pool_inv p → Forall (fun vid => is_Some (pool_pages p !! vid)) vids →
  gather_pages ps vids n p = read_pages ps vids n p.
Proof.
  intros Hp Hv. revert n. induction Hv as [|vid vids [[K V] HKV] Hvs IH]; intros n; [done|].
  cbn [gather_pages read_pages].
  destruct (pool_pages_lookup p vid K V Hp HKV) as (phys & Hphys & HK & HV).
  unfold py_lookup. rewrite Hphys. run_bind.
  run_gets.
  rewrite IH. case_bool_decide as Ht.
  - rewrite Ht, Nat.sub_0_r. assert (ps = 0 ∨ n = 0) as Hz by lia.
    assert (read_pages ps vids n p = Ok ([], [])) as ->; [|done].
    destruct vids; [done|]. cbn [read_pages]. by rewrite bool_decide_eq_true_2 by lia.
  - change (read_page vid ?t p) with (lp_read_page vid t p).
    rewrite (read_page_spec vid _ p K V) by done. run_bind. cbn [fst snd]. done.
Qed.

Definition segpaged_inv (c : SegPagedKVCache) : Prop := cache_inv (cache_v2 c).

Lemma segments_of_v2 c l h :
  segments_of (table (cache_v2 c)) l h
  = (do! segs <- segments_of1 (sp_table c) l h; Ok (seg_v2 <$> segs)).
Proof.
  unfold segments_of, segments_of1. cbn [table cache_v2 pt_head_segments].
  induction (default [] (t1_head_segments (sp_table c) !! (l, h))) as [|s ss IH]; [done|].
  cbn [traverse]. rewrite IH. unfold table_get, lookup1. cbn [pt_segments].
  rewrite od_get_fmap. destruct (od_get (l, h, s) (t1_segments (sp_table c))); [|done].
  simpl. run_bind. clear IH. by destruct (traverse _ ss).
Qed.

Lemma gather_segment_v2 c g :
  segpaged_inv c → (∃ key, od_get key (pt_segments (table (cache_v2 c))) = Some (seg_v2 g)) →
  gather_segment1 c g = gather_segment (cache_v2 c) (seg_v2 g).
Proof.
  intros Hc [key Hg]. unfold gather_segment1, gather_segment, seg_kept. cbn.
  rewrite length_seqZ, Nat2Z.id. apply gather_pages_read; [apply (ci_storage _ Hc)|].
  exact (ci_alloc _ Hc key _ Hg).
Qed.

(** Reading a head in the store is reading it in the simulated cache. *)
Lemma gather_head_v2 c l h :
  segpaged_inv c → gather_head1 c l h = gather_head (cache_v2 c) l h.
Proof.
  intros Hc. unfold gather_head1, gather_head.
  destruct (segments_of_total (cache_v2 c) l h Hc) as [segs2 Hs2].
  pose proof (segments_of_elem (cache_v2 c) l h segs2 Hs2) as Hel.
  rewrite Hs2. run_bind. rewrite segments_of_v2 in Hs2. unbind Hs2 as segs Hs.
  injection Hs2 as <-. run_bind. rewrite traverse_fmap.
  rewrite (traverse_ext (gather_segment1 c) (fun g => gather_segment (cache_v2 c) (seg_v2 g))); [done|].
  intros g Hg. apply gather_segment_v2; [done|].
  eapply Forall_forall in Hel; [exact Hel|]. by apply list_elem_of_fmap_2.
Qed.

Lemma new_segpaged_inv nl nh hd ps : 0 < ps → segpaged_inv (new_segpaged nl nh hd ps).
Proof. intros Hps. apply (new_cache_inv nh hd ps (new_pool ps)); [apply new_pool_inv|done|done]. Qed.

Lemma od_keys_v2 (d : odict (Z * Z * Z) HeadSegment1) :
  od_keys (prod_map id seg_v2 <$> d) = od_keys d.
Proof. unfold od_keys. rewrite <-list_fmap_compose. by apply list_fmap_ext. Qed.

(** Adding a segment under a new key: the head's view grows by the segment's
    rows in the pool's dtype, other heads are unchanged, and the token and page
    counts grow by what the segment needs. *)
Lemma add_spec l h s policy D D' k v c :
  segpaged_inv c → length v = length k →
  (l, h, s) ∉ od_keys (t1_segments (sp_table c)) →
  ∃ c' g, add_head_segment l h s policy (T2 D k) (T2 D' v) c = Ok (c', g) ∧ segpaged_inv c' ∧
    sp_page_size c' = sp_page_size c ∧
    (∀ key, key ∈ od_keys (t1_segments (sp_table c')) ↔ key = (l, h, s) ∨ key ∈ od_keys (t1_segments (sp_table c))) ∧
    next_phys (sp_pool c') = next_phys (sp_pool c) + (length k + sp_page_size c - 1) / sp_page_size c ∧
    ∀ l' h' K V, gather_head1 c l' h' = Ok (K, V) →
      gather_head1 c' l' h'
      = Ok (if decide ((l', h') = (l, h)) then (K ++ (cast <$> k), V ++ (cast <$> v)) else (K, V)).
Proof.
  intros Hc Hlen Hf.
  assert (Hv : index_select v (seqZ 0 (Z.of_nat (length k))) = Ok v)
    by (rewrite <-Hlen; apply index_select_all).
  destruct (store_spec (cache_v2 c) l h s D D' k v (full_plan policy (length k)) k v Hc Hlen
              (index_select_all k) Hv)
    as (c2 & g2 & Hst & Hc2 & Ht & Hps & Hkey & _ & Hn & Hg & Hfr).
  rewrite <-add_simulates in Hst by (done || apply (ci_page_pos _ Hc)).
  unbind Hst as r Hadd. destruct r as [c' g]. cbn [fst snd] in Hst. injection Hst as <- <-.
  exists c', g. split; [done|]. split; [done|]. split; [exact Hps|]. injection Hkey as E1 E2 E3.
  assert (Hkeys : od_keys (t1_segments (sp_table c'))
                  = od_keys (od_set (l, h, s) (seg_v2 g) (prod_map id seg_v2 <$> t1_segments (sp_table c)))).
  { rewrite <-(od_keys_v2 (t1_segments (sp_table c'))).
    change (prod_map id seg_v2 <$> t1_segments (sp_table c')) with (pt_segments (table (cache_v2 c'))).
    rewrite Ht. unfold table_add. cbn -[fmap]. by rewrite E1, E2, E3. }
  split.
  { intros key. by rewrite Hkeys, od_set_keys_elem, od_keys_v2. }
  split; [exact Hn|].
  intros l' h' K V HKV. rewrite gather_head_v2 in HKV by done. rewrite gather_head_v2 by done.
  rewrite (gather_head_add (cache_v2 c) (cache_v2 c') (seg_v2 g) (cast <$> k, cast <$> v) l' h' K V);
    [|done| |done..].
  - cbn [sg_layer sg_head seg_v2]. by rewrite E1, E2.
  - cbn [sg_layer sg_head sg_segment seg_v2 table cache_v2 pt_segments].
    rewrite od_keys_v2, E1, E2, E3. exact Hf.
Qed.

(** The head loop of a builder, whose body stores the rows [sel h]. *)
Lemma build_loop1 layer D (body : SegPagedKVCache → nat → result SegPagedKVCache)
    (pol : nat → string) (sel : nat → list row * list row) todo c :
  (∀ c h, h ∈ todo → body c h =
     do! r <- add_head_segment layer (Z.of_nat h) 0 (pol h) (T2 D (sel h).1) (T2 D (sel h).2) c; Ok r.1) →
  (∀ h, h ∈ todo → length (sel h).2 = length (sel h).1) →
  NoDup todo → segpaged_inv c →
  (∀ h, h ∈ todo → (layer, Z.of_nat h, 0%Z) ∉ od_keys (t1_segments (sp_table c)) ∧
                   gather_head1 c layer (Z.of_nat h) = Ok ([], [])) →
  ∃ c', foldM body todo c = Ok c' ∧ segpaged_inv c' ∧ sp_page_size c' = sp_page_size c ∧
    next_phys (sp_pool c') = next_phys (sp_pool c)
      + sum_list ((fun h => (length (sel h).1 + sp_page_size c - 1) / sp_page_size c) <$> todo) ∧
    (∀ h K V, h ∉ todo → gather_head1 c layer (Z.of_nat h) = Ok (K, V) →
       gather_head1 c' layer (Z.of_nat h) = Ok (K, V)) ∧
    (∀ h, h ∈ todo → gather_head1 c' layer (Z.of_nat h) = Ok (cast <$> (sel h).1, cast <$> (sel h).2)).
Proof.
  revert c. induction todo as [|h todo IH]; intros c Hbody Hsel Hnd Hc Hfresh.
  { exists c. simpl. rewrite Nat.add_0_r. split; [done|]. split; [done|].
    split; [done|]. split; [done|]. split; [done|]. intros h Hh. by apply elem_of_nil in Hh. }
  apply NoDup_cons in Hnd as [Hh Hnd]. cbn [foldM]. rewrite Hbody by left.
  destruct (Hfresh h) as [Hfk Hg0]; [left|].
  destruct (add_spec layer (Z.of_nat h) 0 (pol h) D D (sel h).1 (sel h).2 c Hc)
    as (c1 & g & Hadd & Hc1 & Hps1 & Hk1 & Hn1 & Hg1); [apply Hsel; left|done|].
  rewrite Hadd. run_bind. cbn [fst].
  assert (Hother : ∀ h' K V, h' ≠ h → gather_head1 c layer (Z.of_nat h') = Ok (K, V) →
            gather_head1 c1 layer (Z.of_nat h') = Ok (K, V)).
  { intros h' K V Hne HKV. rewrite (Hg1 _ _ _ _ HKV), decide_False; [done|].
    intros [= He]. apply Hne. by apply Nat2Z.inj. }
  destruct (IH c1) as (c' & Hf & Hc' & Hps' & Hn' & Hnot & Hin); try done.
  { intros. apply Hbody. by right. }
  { intros. apply Hsel. by right. }
  { intros h' Hh'. assert (h' ≠ h) by (by intros ->). destruct (Hfresh h') as [Hk' Hg']; [by right|].
    split; [|by apply Hother]. rewrite Hk1. intros [Heq|?]; [|done].
    injection Heq as Heq. by apply Nat2Z.inj in Heq. }
  exists c'. split; [done|]. split; [done|]. split; [congruence|]. split.
  { rewrite Hn', Hn1, Hps1, fmap_cons. cbn [sum_list_with]. unfold id at 2. lia. }
  split.
  - intros h' K V [Hne Hni]%not_elem_of_cons HKV. apply Hnot; [done|]. by apply Hother.
  - intros h' [->|Hh']%elem_of_cons; [|by apply Hin].
    apply Hnot; [done|]. rewrite (Hg1 _ _ _ _ Hg0). by rewrite decide_True.
Qed.

(** What a head of the given policy keeps of its dense rows. *)
Definition kept_rows (L : nat) (sink recent : Z) (pol : string) (k : list row) : list row :=
  if bool_decide (pol = POLICY_GLOBAL) then k
  else select_rows k (window_positions (Z.of_nat L) sink recent).

Definition known_policy (pol : string) : bool :=
  bool_decide (pol = POLICY_GLOBAL) || bool_decide (pol = POLICY_LOCAL).

Section build.
Context (L D D' : nat) (kh vh : list (list row)) (pols : list string) (sink recent layer : Z).
Hypothesis Hk : Forall (fun k => length k = L) kh.
Hypothesis Hv : Forall (fun v => length v = L) vh.
Hypothesis Hlv : length vh = length kh.
Hypothesis Hlp : length pols = length kh.

Definition head_rows (h : nat) : list row * list row :=
  (kept_rows L sink recent (default "" (pols !! h)) (default [] (kh !! h)),
   kept_rows L sink recent (default "" (pols !! h)) (default [] (vh !! h))).

Lemma build_body_known c h pol :
  pols !! h = Some pol → known_policy pol = true →
  build_body L D (T3 L D kh) (T3 L D' vh) pols sink recent layer c h =
  do! r <- add_head_segment layer (Z.of_nat h) 0 pol (T2 D (head_rows h).1) (T2 D (head_rows h).2) c;
  Ok r.1.
Proof.
  intros Hp Hkn. assert (h < length kh) by (rewrite <-Hlp; by eapply lookup_lt_Some).
  element kh h as k Hkh.
  element vh h as v Hvh.
  pose proof (Forall_lookup_1 _ _ _ _ Hk Hkh) as Hlk. pose proof (Forall_lookup_1 _ _ _ _ Hv Hvh) as Hlvv.
  unfold build_body, head_rows, head_of.
  rewrite (py_get_nat _ _ _ Hp), (py_get_nat _ _ _ Hkh), (py_get_nat _ _ _ Hvh), Hp, Hkh, Hvh.
  run_bind. cbn [default from_option id]. unfold kept_rows, known_policy, id in *.
  case_bool_decide; [done|]. cbn [orb] in Hkn. rewrite Hkn.
  rewrite local_visible_indices_eq by lia. run_bind.
  assert (Hr : ∀ x : list row, length x = L →
            index_select x (window_positions (Z.of_nat L) sink recent)
            = Ok (select_rows x (window_positions (Z.of_nat L) sink recent))).
  { intros x Hx. apply index_select_rows. rewrite Hx. apply positions_of_range. }
  rewrite (Hr k Hlk). run_bind. rewrite (Hr v Hlvv). done.
Qed.

Lemma head_rows_length h : h < length kh → length (head_rows h).2 = length (head_rows h).1.
Proof.
  intros Hh. unfold head_rows. cbn [fst snd].
  element kh h as k Hkh.
  element vh h as v Hvh. rewrite Hkh, Hvh. simpl.
  pose proof (Forall_lookup_1 _ _ _ _ Hk Hkh) as Hlk. pose proof (Forall_lookup_1 _ _ _ _ Hv Hvh) as Hlvv.
  simpl in *. unfold kept_rows. case_bool_decide; [lia|].
  pose proof (positions_of_range (Z.of_nat L) (visible (Z.of_nat L) sink recent)) as Hr.
  unfold window_positions.
  rewrite (proj2 (index_select_rows v _ ltac:(rewrite Hlvv; exact Hr))).
  by rewrite (proj2 (index_select_rows k _ ltac:(rewrite Hlk; exact Hr))).
Qed.

(** The loop over a prefix of heads with known policies. *)
Lemma build_prefix ps n :
  0 < ps → n ≤ length kh →
  (∀ h pol, h < n → pols !! h = Some pol → known_policy pol = true) →
  ∃ c', foldM (build_body L D (T3 L D kh) (T3 L D' vh) pols sink recent layer) (seq 0 n)
          (new_segpaged (layer + 1) (Z.of_nat (length kh)) D ps) = Ok c' ∧
    segpaged_inv c' ∧
    next_phys (sp_pool c') = sum_list ((fun h => (length (head_rows h).1 + ps - 1) / ps) <$> seq 0 n) ∧
    (∀ h, h < n → gather_head1 c' layer (Z.of_nat h)
                  = Ok (cast <$> (head_rows h).1, cast <$> (head_rows h).2)).
Proof.
  intros Hps Hn Hkn.
  destruct (build_loop1 layer D (build_body L D (T3 L D kh) (T3 L D' vh) pols sink recent layer)
              (fun h => default "" (pols !! h)) head_rows (seq 0 n)
              (new_segpaged (layer + 1) (Z.of_nat (length kh)) D ps))
    as (c' & Hf & Hc' & _ & Hph & _ & Hin).
  - intros c h Hh%elem_of_seq. element pols h as pol Hp.
    rewrite Hp. simpl. apply build_body_known; [done|]. apply (Hkn h); [lia|done].
  - intros h Hh%elem_of_seq. apply head_rows_length. lia.
  - apply NoDup_seq.
  - by apply new_segpaged_inv.
  - intros h _. split; [simpl; set_solver|].
    unfold gather_head1, segments_of1. simpl. by rewrite lookup_empty.
  - exists c'. split; [done|]. split; [done|]. split; [exact Hph|].
    intros h Hh. apply Hin, elem_of_seq. lia.
Qed.

Lemma first_unknown :
  forallb known_policy pols = false →
  ∃ n pol, pols !! n = Some pol ∧ known_policy pol = false ∧
    ∀ h pol', h < n → pols !! h = Some pol' → known_policy pol' = true.
Proof.
  clear. induction pols as [|p ps IH]; [done|]. simpl. destruct (known_policy p) eqn:Hp.
  - intros (n & pol & Hn & Hu & Hb)%IH. exists (S n), pol. split; [done|]. split; [done|].
    intros [|h] pol' Hh Hl; simpl in Hl; [congruence|]. apply (Hb h); [lia|done].
  - intros _. exists 0, p. split; [done|]. split; [done|]. lia.
Qed.

Lemma build_body_unknown c h pol :
  pols !! h = Some pol → known_policy pol = false →
  build_body L D (T3 L D kh) (T3 L D' vh) pols sink recent layer c h = Raise ValueError.
Proof.
  intros Hp Hu. assert (h < length kh) by (rewrite <-Hlp; by eapply lookup_lt_Some).
  element kh h as k Hkh.
  element vh h as v Hvh.
  unfold build_body, head_of.
  run_gets.
  unfold known_policy in Hu. apply orb_false_iff in Hu as [-> ->]. done.
Qed.

Lemma build_dims kd vd c0 hs c :
  foldM (build_body L D kd vd pols sink recent layer) hs c0 = Ok c →
  sp_num_kv_heads c = sp_num_kv_heads c0 ∧ sp_head_dim c = sp_head_dim c0.
Proof.
  intros Hf. eapply (foldM_preserves
    (fun c => sp_num_kv_heads c = sp_num_kv_heads c0 ∧ sp_head_dim c = sp_head_dim c0)); [| |exact Hf]; [|done].
  intros c1 h c2 _ Hc1 H. unfold build_body in H. do 5 bind_inv H. injection H as <-.
  unfold add_head_segment in E3. destruct (alloc_for_tokens _ _). bind_inv E3.
  by injection E3 as <-.
Qed.

(** The build with known policies. *)
Lemma build_known ps :
  0 < ps → forallb known_policy pols = true →
  ∃ c, build_segpaged_cache (T3 L D kh) (T3 L D' vh) pols sink recent ps layer = Ok c ∧
    (∀ h pol k v, pols !! h = Some pol → kh !! h = Some k → vh !! h = Some v →
       gather_head1 c layer (Z.of_nat h)
       = Ok (cast <$> kept_rows L sink recent pol k, cast <$> kept_rows L sink recent pol v)) ∧
    next_phys (sp_pool c)
    = sum_list ((fun h => (length (head_rows h).1 + ps - 1) / ps) <$> seq 0 (length kh)) ∧
    sp_num_kv_heads c = Z.of_nat (length kh) ∧ sp_head_dim c = D.
Proof.
  intros Hps Hall. destruct (build_prefix ps (length kh)) as (c & Hf & _ & Hph & Hg); [done|done| |].
  { intros h pol _ Hp. apply Is_true_true, forallb_True in Hall.
    by apply Is_true_true, (Forall_lookup_1 _ _ _ _ Hall Hp). }
  exists c. split; [exact Hf|]. split; [|split; [done|by apply build_dims in Hf]].
  intros h pol k v Hp Hkh Hvh.
  rewrite Hg by (by eapply lookup_lt_Some). unfold head_rows. by rewrite Hp, Hkh, Hvh.
Qed.

End build.

(** C33: The store built from dense [H, L, D] tensors holds, for every head,
    exactly the rows of its policy (all of them for a global head, the sink and
    recent window for a local one); it occupies exactly the pages those rows
    need, and an unknown policy raises [ValueError]. *)
Theorem build_segpaged_spec L D D' kh vh pols sink recent ps layer :
  0 < ps → Forall (fun k => length k = L) kh → Forall (fun v => length v = L) vh →
  length vh = length kh → length pols = length kh →
  if forallb known_policy pols then
    ∃ c, build_segpaged_cache (T3 L D kh) (T3 L D' vh) pols sink recent ps layer = Ok c ∧
      (∀ h pol k v, pols !! h = Some pol → kh !! h = Some k → vh !! h = Some v →
         gather_head1 c layer (Z.of_nat h)
         = Ok (cast <$> kept_rows L sink recent pol k, cast <$> kept_rows L sink recent pol v)) ∧
      next_phys (sp_pool c)
      = sum_list ((fun h => (length (head_rows L kh vh pols sink recent h).1 + ps - 1) / ps)
                    <$> seq 0 (length kh))
  else build_segpaged_cache (T3 L D kh) (T3 L D' vh) pols sink recent ps layer = Raise ValueError.
Proof.
  intros Hps Hk Hv Hlv Hlp. destruct (forallb known_policy pols) eqn:Hall.
  - destruct (build_known L D D' kh vh pols sink recent layer Hk Hv Hlv Hlp ps) as (c & ? & ? & ? & _);
      [done|done|eauto].
  - destruct (first_unknown pols Hall) as (n & pol & Hp & Hu & Hb).
    assert (Hn : n < length kh) by (rewrite <-Hlp; by eapply lookup_lt_Some).
    destruct (build_prefix L D D' kh vh pols sink recent layer Hk Hv Hlv Hlp ps n)
      as (c & Hf & _); [done|lia|done|].
    unfold build_segpaged_cache. replace (length kh) with (n + S (length kh - S n)) by lia.
    rewrite seq_app, foldM_app. replace (n + S (length kh - S n)) with (length kh) by lia.
    rewrite Hf. run_bind. cbn [seq foldM].
    by rewrite (build_body_unknown L D D' kh vh pols sink recent layer Hlv Hlp c (0 + n) pol).
Qed.

End store.
Arguments SegPagedKVCache : clear implicits.

Definition wit_k : list (list nat) := [[1; 2; 3; 4; 5; 6]; [11; 12; 13; 14; 15; 16]].

Lemma build_segpaged_spec_witness :
  ∃ c, build_segpaged_cache 0 S (T3 6 1 wit_k) (T3 6 1 wit_k) ["global"; "local"]%string 1 2 4 0 = Ok c ∧
    (∀ h pol k v, ["global"; "local"]%string !! h = Some pol → wit_k !! h = Some k →
       wit_k !! h = Some v →
       gather_head1 c 0 (Z.of_nat h)
       = Ok (S <$> kept_rows 6 1 2 pol k, S <$> kept_rows 6 1 2 pol v)) ∧
    next_phys (sp_pool c)
    = sum_list ((fun h => (length (head_rows 6 wit_k wit_k ["global"; "local"]%string 1 2 h).1 + 4 - 1) / 4)
                  <$> seq 0 2).
Proof.
  apply (build_segpaged_spec 0 S 6 1 1 wit_k wit_k ["global"; "local"]%string 1 2 4 0);
    [lia|by repeat constructor|by repeat constructor|reflexivity|reflexivity].
Defined.
