(* ===== verification/Scalars.v ===== *)
(** Scalars of the attention kernels, as an interface: the operations the
    kernels use and the laws of exact arithmetic extended by minus infinity, the
    value a mask writes into a score.  The instance is the real numbers with
    minus infinity and NaN, so that the kernel theorems speak of the exact
    values floating point approximates. *)

From Stdlib Require Import Reals Lra.
From S2P Require Import Prelude.

Class Scalar (F : Type) := {
  s_zero : F;
  s_ninf : F;
  s_add : F → F → F;
  s_sub : F → F → F;
  s_mul : F → F → F;
  s_div : F → F → F;
  s_exp : F → F;
  s_max : F → F → F;
}.

(** [finite]: neither infinite nor NaN; [pos]: finite and positive. *)
Class ScalarLaws (F : Type) `{Scalar F} := {
  finite : F → Prop;
  pos : F → Prop;
  add_zero_l x : s_add s_zero x = x;
  add_zero_r x : s_add x s_zero = x;
  max_ninf_l x : s_max s_ninf x = x;
  max_finite x y : finite x → y = s_ninf ∨ finite y → finite (s_max x y);
  exp_masked m : finite m → s_exp (s_sub s_ninf m) = s_zero;
  exp_pos s m : finite s → finite m → pos (s_exp (s_sub s m));
  add_pos x y : pos x → pos y → pos (s_add x y);
  div_zero z : pos z → s_div s_zero z = s_zero;
  mul_zero v : finite v → s_mul s_zero v = s_zero;
}.


(** * The real numbers with minus infinity and NaN

    Every operation that has no real value is NaN. *)

Inductive xreal :=
  | Fin (r : R)
  | NInf
  | NaN.

Definition xlift2 (f : R → R → R) (x y : xreal) : xreal :=
  match x, y with Fin a, Fin b => Fin (f a b) | _, _ => NaN end.

(** The largest of two scores; NaN is contagious. *)
Definition xmax (x y : xreal) : xreal :=
  match x, y with
  | NInf, y => y
  | x, NInf => x
  | Fin a, Fin b => Fin (Rmax a b)
  | _, _ => NaN
  end.

Definition xsub (x y : xreal) : xreal :=
  match x, y with
  | Fin a, Fin b => Fin (a - b)
  | NInf, Fin _ => NInf
  | _, _ => NaN
  end.

Definition xexp (x : xreal) : xreal :=
  match x with Fin a => Fin (exp a) | NInf => Fin 0 | NaN => NaN end.

Definition xdiv (x y : xreal) : xreal :=
  match x, y with
  | Fin a, Fin b => if Req_dec_T b 0 then NaN else Fin (a / b)
  | _, _ => NaN
  end.

Definition xadd (x y : xreal) : xreal :=
  match x, y with
  | Fin a, Fin b => Fin (a + b)
  | NInf, NInf => NInf
  | NInf, Fin _ | Fin _, NInf => NInf
  | _, _ => NaN
  end.

#[global] Instance xreal_scalar : Scalar xreal := {
  s_zero := Fin 0;
  s_ninf := NInf;
  s_add := xadd;
  s_sub := xsub;
  s_mul := xlift2 Rmult;
  s_div := xdiv;
  s_exp := xexp;
  s_max := xmax;
}.

#[global] Program Instance xreal_laws : ScalarLaws xreal := {
  finite x := ∃ r, x = Fin r;
  pos x := ∃ r, x = Fin r ∧ (0 < r)%R;
}.
Next Obligation. intros [r| |]; simpl; [f_equal; lra|done..]. Qed.
Next Obligation. intros [r| |]; simpl; [f_equal; lra|done..]. Qed.
Next Obligation. done. Qed.
Next Obligation. intros x y [a ->] [->|[b ->]]; simpl; eauto. Qed.
Next Obligation. intros m [r ->]. done. Qed.
Next Obligation. intros s m [a ->] [b ->]. eexists. split; [done|]. apply Exp_prop.exp_pos. Qed.
Next Obligation. intros x y (a & -> & ?) (b & -> & ?). eexists. split; [done|]. lra. Qed.
Next Obligation.
  intros z (r & -> & Hr). simpl. destruct (Req_dec_T r 0); [lra|]. f_equal. unfold Rdiv. lra.
Qed.
Next Obligation. intros v [r ->]. simpl. f_equal. lra. Qed.
