(* ===== verification/Attention.v ===== *)
(** Attention over the per-head paged stores ([redknot/segpaged.py] and
    [redknot/segpaged_v2/attention.py]): the mask-free kernel, its fused
    variable-length form, and the dense masked reference it replaces.

    The kernels are written against the [Scalar] interface of exact arithmetic;
    the rounding of floating point is outside the model. *)

From S2P Require Import Prelude Tensor Scalars VisiblePlan Storage PageTable SegPaged.

Section kernels.
Context {E F : Type} `{Scalar F} (up : E → F) (down : F → E) (zero_e : E).
Notation row := (list E).

Definition ssum (l : list F) : F := foldr s_add s_zero l.
Definition dot (a b : list F) : F := ssum (zip_with s_mul a b).

(** [torch.softmax] of one row of scores. *)
Definition softmax (l : list F) : list F :=
  let m := foldr s_max s_ninf l in
  let e := (fun s => s_exp (s_sub s m)) <$> l in
  let z := ssum e in
  (fun x => s_div x z) <$> e.

(** One row of [q.float() @ k.float().T * sm_scale]. *)
Definition scores (sm_scale : F) (k : list row) (q : row) : list F :=
  (fun kr : row => s_mul (dot (up <$> q) (up <$> kr)) sm_scale) <$> k.

(** One row of [probs @ v.float()], for [D]-wide rows. *)
Definition mix (D : nat) (probs : list F) (v : list row) : list F :=
  foldr (zip_with s_add) (replicate D s_zero)
    (zip_with (fun p (vr : row) => (fun x => s_mul p (up x)) <$> vr) probs v).

Definition zeros_like (D : nat) (q : list row) : list row :=
  replicate (length q) (replicate D zero_e).

(** [_sdpa_one_head]; [D] and [Dk] are the widths of the query and of the keys,
    which the matrix product requires to agree. *)
Definition attend (D : nat) (sm_scale : F) (k v q : list row) : list row :=
  match k with
  | [] => zeros_like D q
  | _ => (fun qr => down <$> mix D (softmax (scores sm_scale k qr)) v) <$> q
  end.

Definition _sdpa_one_head (D Dk : nat) (sm_scale : F) (k v q : list row) : result (list row) :=
  if bool_decide (length k = 0) then Ok (attend D sm_scale k v q)
  else if bool_decide (Dk = D) && bool_decide (length v = length k)
       then Ok (attend D sm_scale k v q) else Raise RuntimeError.

(** The loop over KV heads and, inside, over the query heads of the group. *)
Definition per_head {P : Type} (D Hkv nq : nat) (query : list (list row))
    (view : nat → result P) (body : P → list row → result (list row))
  : result (list (list row)) :=
  foldM (fun out kv_h =>
           do! p <- view kv_h;
           foldM (fun out g =>
                    let qh := kv_h * nq + g in
                    do! q <- py_get query (Z.of_nat qh);
                    do! o <- body p q;
                    py_set out (Z.of_nat qh) o) (seq 0 nq) out)
    (seq 0 Hkv) (zeros_like D <$> query).

(** ** The fused path *)

(** The variable-length kernel: packed queries, keys and values, the
    cumulative lengths, the longest query and key sequence, the scale. *)
Definition varlen_kernel : Type :=
  list row → list row → list row → list nat → list nat → nat → nat → F → list row.

Record Packed := mkPacked {
  q_parts : list (list row);
  k_parts : list (list row);
  v_parts : list (list row);
  cu_q : list nat;
  cu_k : list nat;
  max_q : nat;
  max_k : nat;
}.

(** One (kv-head, q-head) pair appended to the packed batch. *)
Definition pack_slot (Lq : nat) (kv : list row * list row) (q : list row) (p : Packed) : Packed :=
  mkPacked (q_parts p ++ [q]) (k_parts p ++ [kv.1]) (v_parts p ++ [kv.2])
    (cu_q p ++ [default 0 (last (cu_q p)) + Lq])
    (cu_k p ++ [default 0 (last (cu_k p)) + length kv.1])
    (Nat.max (max_q p) Lq) (Nat.max (max_k p) (length kv.1)).

Definition pack_heads (Hkv nq Lq : nat) (query : list (list row))
    (view : nat → result (list row * list row)) : result Packed :=
  foldM (fun p kv_h =>
           do! kv <- view kv_h;
           foldM (fun p g =>
                    do! q <- py_get query (Z.of_nat (kv_h * nq + g));
                    Ok (pack_slot Lq kv q p)) (seq 0 nq) p)
    (seq 0 Hkv) (mkPacked [] [] [] [0] [0] 0 0).

(** Slot [slot] of the packed output goes to query head [kv_h * nq + g]. *)
Definition unpack_heads (Hkv nq : nat) (cu : list nat) (packed_out : list row)
    (out : list (list row)) : result (list (list row)) :=
  do! r <- foldM (fun s kv_h =>
           foldM (fun s g =>
                    let slot := s.2 in
                    do! a <- py_get cu (Z.of_nat slot);
                    do! b <- py_get cu (Z.of_nat (slot + 1));
                    do! out' <- py_set s.1 (Z.of_nat (kv_h * nq + g)) (slice a b packed_out);
                    Ok (out', slot + 1)) (seq 0 nq) s)
    (seq 0 Hkv) (out, 0);
  Ok r.1.

(** Both attention entry points, on a view of the heads of the cache; [fused]
    is the value of [fused_ok] and [Dk] the width of the stored keys.
    [torch.cat] refuses an empty list. *)
Definition attention_core (fa3 : varlen_kernel) (fused : bool) (query : tensor row)
    (Hkv Dk nq : nat) (sm_scale : F) (view : nat → result (list row * list row))
  : result (list (list row)) :=
  match query with
  | T3 Lq D qs =>
      if bool_decide (length qs = Hkv * nq) then
        if fused then
          do! p <- pack_heads Hkv nq Lq qs view;
          match q_parts p with
          | [] => Raise RuntimeError
          | _ =>
              let packed_out := fa3 (concat (q_parts p)) (concat (k_parts p)) (concat (v_parts p))
                                  (cu_q p) (cu_k p) (max_q p) (max_k p) sm_scale in
              unpack_heads Hkv nq (cu_q p) packed_out (zeros_like D <$> qs)
          end
        else per_head D Hkv nq qs view (fun kv q => _sdpa_one_head D Dk sm_scale kv.1 kv.2 q)
      else Raise ValueError
  | _ => Raise ValueError
  end.

(** [segpaged.segpaged_attention]. *)
Definition segpaged_attention (fa3 : varlen_kernel) (fused : bool) (query : tensor row)
    (c : SegPagedKVCache row) (layer : Z) (nq : nat) (sm_scale : F) : result (list (list row)) :=
  attention_core fa3 fused query (Z.to_nat (sp_num_kv_heads c)) (sp_head_dim c) nq sm_scale
    (fun kv_h => gather_head1 c layer (Z.of_nat kv_h)).

(** [segpaged_v2.attention.paged_attention]. *)
Definition paged_attention {St} `{KVStorageBackend St row} (fa3 : varlen_kernel) (fused : bool)
    (query : tensor row) (c : PagedHeadKVCache St) (layer : Z) (nq : nat) (sm_scale : F)
  : result (list (list row)) :=
  attention_core fa3 fused query (Z.to_nat (num_kv_heads c)) (head_dim c) nq sm_scale
    (fun kv_h => gather_head c layer (Z.of_nat kv_h)).

(** ** The dense reference *)

(** [visible = zeros(L); visible[idx] = True]. *)
Definition mark (L : nat) (idx : list Z) : result (list bool) :=
  foldM (fun m i => py_set m i true) idx (replicate L false).

(** [scores.masked_fill(~visible, -inf)]. *)
Definition masked_fill (vis : list bool) (s : list F) : list F :=
  zip_with (fun (b : bool) x => if b then x else s_ninf) vis s.

Definition dense_attend (D : nat) (sm_scale : F) (vis : list bool) (k v q : list row) : list row :=
  (fun qr => down <$> mix D (softmax (masked_fill vis (scores sm_scale k qr))) v) <$> q.

(** The loop both dense references share.  K and V have the documented shape
    [Hkv, L, D]: lengths or widths that differ are refused by the products. *)
Definition dense_core (query k_dense v_dense : tensor row) (nq : nat) (sm_scale : F)
    (mask : nat → nat → result (list bool)) : result (list (list row)) :=
  match query, k_dense, v_dense with
  | T3 _ D qs, T3 L Dk kh, T3 Lv Dv vh =>
      per_head D (length kh) nq qs
        (fun kv_h =>
           do! vis <- mask L kv_h;
           do! k <- py_get kh (Z.of_nat kv_h);
           do! v <- py_get vh (Z.of_nat kv_h);
           Ok (vis, k, v))
        (fun p q => if bool_decide (Dk = D) && bool_decide (Lv = L) && bool_decide (Dv = D)
                    then Ok (dense_attend D sm_scale p.1.1 p.1.2 p.2 q) else Raise RuntimeError)
  | _, _, _ => Raise ValueError
  end.

(** [segpaged.dense_reference_attention]: any policy but global is local. *)
Definition dense_reference_attention1 (query k_dense v_dense : tensor row)
    (head_policy : list string) (sink recent : Z) (nq : nat) (sm_scale : F)
  : result (list (list row)) :=
  dense_core query k_dense v_dense nq sm_scale
    (fun L kv_h =>
       do! pol <- py_get head_policy (Z.of_nat kv_h);
       if bool_decide (pol = POLICY_GLOBAL) then Ok (replicate L true)
       else do! idx <- local_visible_indices (Z.of_nat L) sink recent; mark L idx).

(** [segpaged_v2.attention.dense_reference_attention]. *)
Definition dense_reference_attention2 (query k_dense v_dense : tensor row)
    (plans : list HeadVisiblePlan) (nq : nat) (sm_scale : F) : result (list (list row)) :=
  dense_core query k_dense v_dense nq sm_scale
    (fun L kv_h => do! p <- py_get plans (Z.of_nat kv_h); mark L (positions p)).

End kernels.
Arguments varlen_kernel : clear implicits.

(** * Head loops *)

Section loops.
Context {E : Type} (zero_e : E).
Notation row := (list E).

(** The result of serving every query head from the KV head of its group. *)
Definition served {B : Type} (nq : nat) (f : nat → list row → B) (query : list (list row))
  : list B := imap (fun qh q => f (qh / nq) q) query.

(** A loop that computes position [base + g] for [g < n] and stores it. *)
Lemma fill_loop (f : list row → list row) (body : list row → result (list row)) query n base out :
  base + n ≤ length query → length out = length query →
  (∀ q, q ∈ query → body q = Ok (f q)) →
  foldM (fun out g =>
           let qh := base + g in
           do! q <- py_get query (Z.of_nat qh);
           do! o <- body q;
           py_set out (Z.of_nat qh) o) (seq 0 n) out
  = Ok (take base out ++ (f <$> take n (drop base query)) ++ drop (base + n) out).
Proof.
  intros Hn Hlen Hb.
  destruct (foldM_invariant
    (fun dn out' => out' = take base out ++ (f <$> take (length dn) (drop base query))
                     ++ drop (base + length dn) out)
    (fun out g =>
       let qh := base + g in
       do! q <- py_get query (Z.of_nat qh);
       do! o <- body q;
       py_set out (Z.of_nat qh) o) (seq 0 n) out) as (out' & Hf & Hout').
  - simpl. by rewrite Nat.add_0_r, take_drop.
  - intros dn g todo out' Hl ->.
    destruct (seq_split_index _ _ _ _ Hl) as [-> Hlt].
    element query (base + length dn) as q Hq.
    cbv zeta. run_gets.
    rewrite Hb by by eapply list_elem_of_lookup_2. run_bind.
    assert (Hlt' : length (take base out ++ (f <$> take (length dn) (drop base query)))
                   = base + length dn).
    { len_lia. }
    eexists. split.
    + rewrite py_set_nat; [done|]. rewrite app_assoc, length_app, Hlt', length_drop. lia.
    + rewrite length_app. simpl.
      element out (base + length dn) as x Hx.
      rewrite (drop_S out x (base + length dn)) by done.
      rewrite app_assoc. rewrite <-Hlt' at 1. rewrite insert_middle.
      replace (length dn + 1) with (S (length dn)) by lia.
      rewrite (take_S_r (drop base query) (length dn) q) by by rewrite lookup_drop.
      rewrite fmap_app, <-!app_assoc. simpl. do 4 f_equal. lia.
  - rewrite Hf, Hout'. by rewrite length_seq.
Qed.

Lemma served_prefix {B : Type} (f : nat → list row → B) nq h (query : list (list row)) :
  nq ≠ 0 →
  served nq f (take (h * nq) query) ++ (f h <$> take nq (drop (h * nq) query))
  = served nq f (take (S h * nq) query).
Proof.
  intros Hnq. unfold served. apply list_eq. intros i.
  rewrite list_lookup_imap.
  destruct (decide (i < length (take (h * nq) query))) as [Hi|Hi].
  - rewrite lookup_app_l by (rewrite length_imap; done).
    rewrite list_lookup_imap. rewrite length_take in Hi.
    rewrite !lookup_take_lt by lia. done.
  - rewrite lookup_app_r by len_lia. rewrite length_imap, list_lookup_fmap.
    rewrite length_take in *. destruct (decide (length query ≤ h * nq)) as [Hle|Hgt].
    + rewrite drop_ge by done. rewrite take_nil, lookup_nil. simpl.
      rewrite (lookup_ge_None_2 (take (S h * nq) query)); [done|]. len_lia.
    + assert (Hm : Nat.min (h * nq) (length query) = h * nq) by lia. rewrite Hm in *.
      destruct (decide (i < S h * nq)) as [Hlt|Hge].
      * rewrite !lookup_take_lt by lia. rewrite lookup_drop.
        replace (h * nq + (i - h * nq)) with i by lia.
        destruct (query !! i); [|done]. simpl. do 2 f_equal.
        apply (Nat.div_unique _ _ _ (i - h * nq)); lia.
      * rewrite !lookup_take_ge by lia. done.
Qed.

Lemma per_head_spec {P : Type} D Hkv nq (query : list (list row)) (view : nat → result P)
    (body : P → list row → result (list row)) (f : nat → list row → list row) :
  length query = Hkv * nq →
  (∀ h, h < Hkv → ∃ p, view h = Ok p ∧ ∀ q, q ∈ query → body p q = Ok (f h q)) →
  per_head zero_e D Hkv nq query view body = Ok (served nq f query).
Proof.
  intros Hlen Hview. unfold per_head.
  destruct (foldM_invariant
    (fun dn out => out = served nq f (take (length dn * nq) query)
                     ++ drop (length dn * nq) (zeros_like zero_e D <$> query))
    (fun out kv_h =>
       do! p <- view kv_h;
       foldM (fun out g =>
                let qh := kv_h * nq + g in
                do! q <- py_get query (Z.of_nat qh);
                do! o <- body p q;
                py_set out (Z.of_nat qh) o) (seq 0 nq) out)
    (seq 0 Hkv) (zeros_like zero_e D <$> query)) as (out & Hf & Hout).
  - done.
  - intros dn h todo out Hl ->.
    destruct (seq_split_index _ _ _ _ Hl) as [-> Hlt].
    destruct (Hview _ Hlt) as (p & Hp & Hbody). rewrite Hp. run_bind.
    assert (Hs : length (served nq f (take (length dn * nq) query)) = length dn * nq).
    { unfold served. rewrite length_imap, length_take. nia. }
    rewrite (fill_loop (f (length dn)) (body p)); [|nia| |done].
    2: { rewrite length_app, Hs, length_drop, length_fmap. nia. }
    eexists. split; [done|]. rewrite length_app. cbn [length].
    rewrite take_app_le, take_ge by lia. rewrite drop_app_ge by lia. rewrite Hs, drop_drop.
    rewrite app_assoc. replace (length dn + 1) with (S (length dn)) by lia.
    destruct (decide (nq = 0)) as [->|Hnq].
    { rewrite take_0, fmap_nil, app_nil_r, !Nat.mul_0_r. done. }
    rewrite served_prefix by done. do 2 f_equal. nia.
  - etrans; [exact Hf|]. rewrite Hout, length_seq. rewrite <-Hlen, take_ge by lia.
    by rewrite drop_ge, app_nil_r by len_lia.
Qed.

End loops.

(** * Masking *)

(** The elements whose flag is set. *)
Fixpoint pick {A} (vis : list bool) (l : list A) : list A :=
  match vis, l with
  | b :: vis, x :: l => if b then x :: pick vis l else pick vis l
  | _, _ => []
  end.

Lemma pick_positions {A} (P : Z → bool) (l : list A) :
  pick (P <$> seqZ 0 (Z.of_nat (length l))) l
  = select_rows l (positions_of (Z.of_nat (length l)) P).
Proof.
  unfold positions_of.
  enough (∀ (pre : list A) l,
    pick (P <$> seqZ (Z.of_nat (length pre)) (Z.of_nat (length l))) l
    = select_rows (pre ++ l)
        (filter (fun i => P i = true) (seqZ (Z.of_nat (length pre)) (Z.of_nat (length l)))))
    as Hgen by apply (Hgen []).
  clear l. intros pre l. revert pre. induction l as [|x l IH]; intros pre.
  { done. }
  rewrite seqZ_cons by (simpl; lia). rewrite fmap_cons.
  specialize (IH (pre ++ [x])). rewrite length_app in IH. simpl length in *.
  replace (Z.succ (Z.of_nat (length pre))) with (Z.of_nat (length pre + 1)) by lia.
  replace (Z.pred (Z.of_nat (S (length l)))) with (Z.of_nat (length l)) by lia.
  rewrite <-app_assoc in IH. simpl in IH. simpl pick.
  destruct (P (Z.of_nat (length pre))) eqn:HP.
  - rewrite filter_cons_True by done. rewrite IH. unfold select_rows. simpl.
    by rewrite Nat2Z.id, list_lookup_middle by done.
  - rewrite filter_cons_False by congruence. exact IH.
Qed.

Lemma pick_positions_len {A} L (P : Z → bool) (l : list A) :
  length l = L →
  pick (P <$> seqZ 0 (Z.of_nat L)) l = select_rows l (positions_of (Z.of_nat L) P).
Proof. intros <-. apply pick_positions. Qed.

Lemma pick_all {A} (l : list A) : pick (replicate (length l) true) l = l.
Proof. induction l as [|x l IH]; [done|]. simpl. by rewrite IH. Qed.

Lemma pick_fmap {A B} (f : A → B) vis l : pick vis (f <$> l) = f <$> pick vis l.
Proof.
  revert vis. induction l as [|x l IH]; intros [|[] vis]; simpl; try done; by rewrite IH.
Qed.

(** Marking in-range positions. *)
Lemma mark_spec L idx :
  Forall (fun i => 0 ≤ i < Z.of_nat L)%Z idx →
  mark L idx = Ok ((fun i => bool_decide (i ∈ idx)) <$> seqZ 0 (Z.of_nat L)).
Proof.
  intros Hr. unfold mark.
  destruct (foldM_invariant
    (fun dn m => length m = L ∧ ∀ j, j < L → m !! j = Some (bool_decide (Z.of_nat j ∈ dn)))
    (fun m i => py_set m i true) idx (replicate L false)) as (m & Hf & Hl & Hm).
  - split; [apply length_replicate|]. intros j Hj. rewrite lookup_replicate_2 by done.
    by rewrite bool_decide_eq_false_2 by set_solver.
  - intros dn i todo m -> [Hl Hm].
    apply Forall_app in Hr as [_ [Hi _]%Forall_cons].
    replace (py_set m i true) with (py_set m (Z.of_nat (Z.to_nat i)) true)
      by (by rewrite Z2Nat.id by lia).
    rewrite py_set_nat by lia.
    eexists. split; [done|]. rewrite length_insert. split; [done|]. intros j Hj.
    destruct (decide (j = Z.to_nat i)) as [->|Hne].
    + rewrite list_lookup_insert_eq by lia. rewrite Z2Nat.id by lia.
      by rewrite bool_decide_eq_true_2 by set_solver.
    + rewrite list_lookup_insert_ne by done. rewrite Hm by done. f_equal.
      apply bool_decide_ext. rewrite elem_of_app, list_elem_of_singleton. split; [tauto|].
      intros [?|Heq]; [done|]. subst i. rewrite Nat2Z.id in Hne. done.
  - rewrite Hf. f_equal. apply list_eq. intros j. rewrite list_lookup_fmap.
    destruct (decide (j < L)) as [Hj|Hj].
    + rewrite Hm by done. rewrite lookup_seqZ_lt by lia. simpl. do 2 f_equal.
    + rewrite lookup_ge_None_2 by lia. by rewrite lookup_seqZ_ge by lia.
Qed.

Lemma mark_positions L P :
  mark L (positions_of (Z.of_nat L) P) = Ok (P <$> seqZ 0 (Z.of_nat L)).
Proof.
  rewrite mark_spec by apply positions_of_range. f_equal. apply list_fmap_ext.
  intros j i [-> Hj]%lookup_seqZ. destruct (P _) eqn:HP.
  - apply bool_decide_eq_true_2. apply elem_of_positions_of. split; [lia|done].
  - apply bool_decide_eq_false_2. rewrite elem_of_positions_of. intros [_ ?]. congruence.
Qed.

Section masking.
Context {E F : Type} `{ScalarLaws F} (up : E → F) (down : F → E) (zero_e : E).
Notation row := (list E).

Lemma max_masked vis s :
  length vis = length s → foldr s_max s_ninf (masked_fill vis s) = foldr s_max s_ninf (pick vis s).
Proof.
  revert s. induction vis as [|[] vis IH]; intros [|x s] Hl; simpl in *; try done.
  - by rewrite IH by lia.
  - rewrite max_ninf_l. apply IH. lia.
Qed.

Lemma max_list_finite s :
  Forall finite s → foldr s_max s_ninf s = s_ninf ∨ finite (foldr s_max s_ninf s).
Proof.
  induction 1 as [|x s Hx _ IH]; [by left|]. right. simpl. by apply max_finite.
Qed.

Lemma max_nonempty_finite s :
  Forall finite s → s ≠ [] → finite (foldr s_max s_ninf s).
Proof.
  intros Hs Hne. destruct s as [|x s]; [done|]. apply Forall_cons in Hs as [Hx Hs].
  simpl. apply max_finite; [done|]. by apply max_list_finite.
Qed.

(** The exponentials of the masked scores are those of the visible ones, with
    zeros in between; so is their sum. *)
Lemma exp_sum_masked vis s m :
  length vis = length s → finite m →
  ssum ((fun x => s_exp (s_sub x m)) <$> masked_fill vis s)
  = ssum ((fun x => s_exp (s_sub x m)) <$> pick vis s).
Proof.
  intros Hl Hm. revert s Hl. induction vis as [|[] vis IH]; intros [|x s] Hl; simpl in *; try done.
  - unfold ssum in *. simpl. by rewrite IH by lia.
  - unfold ssum in *. simpl. rewrite exp_masked, add_zero_l by done. apply IH. lia.
Qed.

Lemma exp_sum_pos s m :
  Forall finite s → s ≠ [] → finite m → pos (ssum ((fun x => s_exp (s_sub x m)) <$> s)).
Proof.
  intros Hs Hne Hm. induction Hs as [|x s Hx Hs IH]; [done|].
  destruct s as [|y s]; unfold ssum in *; simpl.
  - rewrite add_zero_r. by apply exp_pos.
  - apply add_pos; [by apply exp_pos|]. by apply IH.
Qed.

(** A zero weight contributes nothing to the mixture. *)
Lemma mix_cons D p probs (vr : row) (v : list row) :
  mix up D (p :: probs) (vr :: v)
  = zip_with s_add ((fun x => s_mul p (up x)) <$> vr) (mix up D probs v).
Proof. done. Qed.

Lemma zip_zeros (vr : row) acc :
  Forall (fun x => finite (up x)) vr → length acc = length vr →
  zip_with s_add ((fun x => s_mul s_zero (up x)) <$> vr) acc = acc.
Proof.
  intros Hv. revert acc. induction Hv as [|y vr Hy _ IH]; intros [|a acc] Ha; simpl in *;
    try lia; [done|].
  rewrite mul_zero, add_zero_l by done. f_equal. apply IH. lia.
Qed.

Lemma mix_masked D (vis : list bool) (s : list F) (v : list row) m z :
  length vis = length s → length v = length s →
  Forall (fun vr : row => length vr = D ∧ Forall (fun x => finite (up x)) vr) v →
  finite m → pos z →
  mix up D ((fun x => s_div (s_exp (s_sub x m)) z) <$> masked_fill vis s) v
  = mix up D ((fun x => s_div (s_exp (s_sub x m)) z) <$> pick vis s) (pick vis v)
  ∧ length (mix up D ((fun x => s_div (s_exp (s_sub x m)) z) <$> pick vis s) (pick vis v)) = D.
Proof.
  intros Hl Hlv Hv Hm Hz. revert s v Hl Hlv Hv.
  induction vis as [|b vis IH]; intros [|x s] [|vr v] Hl Hlv Hv; cbn [length] in *; try lia.
  { split; [done|]. apply length_replicate. }
  apply Forall_cons in Hv as [[HD Hfin] Hv].
  destruct (IH s v ltac:(lia) ltac:(lia) Hv) as [IHe IHl].
  unfold masked_fill in *. cbn [zip_with pick]. rewrite fmap_cons, mix_cons, IHe. destruct b.
  - rewrite fmap_cons, mix_cons. split; [done|]. rewrite length_zip_with, length_fmap, IHl. lia.
  - split; [|exact IHl]. rewrite exp_masked, div_zero by done. apply zip_zeros; [done|].
    by rewrite IHl.
Qed.

(** Masked attention over all tokens is attention over the visible ones. *)
Lemma masked_attention D scale (vis : list bool) (k v : list row) qr :
  length vis = length k → length v = length k →
  Forall finite (scores up scale (pick vis k) qr) →
  Forall (fun vr : row => length vr = D ∧ Forall (fun x => finite (up x)) vr) v →
  pick vis k ≠ [] →
  mix up D (softmax (masked_fill vis (scores up scale k qr))) v
  = mix up D (softmax (scores up scale (pick vis k) qr)) (pick vis v).
Proof.
  intros Hl Hlv Hfin Hv Hne. unfold softmax.
  set (s := scores up scale k qr). assert (Hls : length s = length k) by apply length_fmap.
  assert (Hps : scores up scale (pick vis k) qr = pick vis s).
  { unfold s, scores. by rewrite pick_fmap. }
  assert (Hsne : pick vis s ≠ []).
  { rewrite <-Hps. unfold scores. by intros ?%fmap_nil_inv. }
  rewrite Hps in *. rewrite max_masked by lia.
  assert (Hm : finite (foldr s_max s_ninf (pick vis s))) by by apply max_nonempty_finite.
  rewrite exp_sum_masked by (done || lia). rewrite <-!list_fmap_compose.
  apply (mix_masked D vis s v); [lia|lia|done|done|]. by apply exp_sum_pos.
Qed.

Lemma dense_attend_compact D scale (vis : list bool) (k v q : list row) :
  length vis = length k → length v = length k →
  Forall (fun qr => Forall finite (scores up scale (pick vis k) qr)) q →
  Forall (fun vr : row => length vr = D ∧ Forall (fun x => finite (up x)) vr) v →
  pick vis k ≠ [] →
  dense_attend up down D scale vis k v q
  = attend up down zero_e D scale (pick vis k) (pick vis v) q.
Proof.
  intros Hl Hlv Hfin Hv Hne. unfold dense_attend, attend.
  destruct (pick vis k) as [|k0 ks] eqn:Hp; [done|]. rewrite <-Hp in *.
  apply list_fmap_ext. intros i qr Hqr. f_equal. apply masked_attention; try done.
  by eapply (Forall_lookup_1 _ _ _ _ Hfin).
Qed.

End masking.

(** * Equivalence with the dense reference *)

Section equivalence.
Context {E F : Type} `{ScalarLaws F} (up : E → F) (down : F → E) (zero_e : E).
Notation row := (list E).

(** Every score of a query row against a key row is a finite number. *)
Definition finite_scores (sm_scale : F) (kh qs : list (list row)) : Prop :=
  Forall (fun k => Forall (fun q => Forall (fun qr => Forall finite (scores up sm_scale k qr)) q) qs) kh.

(** The values are [D] wide and finite. *)
Definition finite_values (D : nat) (vh : list (list row)) : Prop :=
  Forall (Forall (fun vr : row => length vr = D ∧ Forall (fun x => finite (up x)) vr)) vh.

Lemma Forall_pick {A} (P : A → Prop) vis l : Forall P l → Forall P (pick vis l).
Proof.
  intros Hl. revert vis. induction Hl; intros [|[] vis]; simpl; auto.
Qed.

Lemma length_pick {A B} vis (l : list A) (l' : list B) :
  length l = length l' → length (pick vis l) = length (pick vis l').
Proof.
  revert l l'. induction vis as [|[] vis IH]; intros [|x l] [|y l'] Hl; simpl in *; try done.
  - f_equal. apply IH. lia.
  - apply IH. lia.
Qed.

(** One KV head: the compact view against the masked view. *)
Lemma head_agrees L D sm_scale kh qs vh h k v (vis : list bool) :
  kh !! h = Some k → vh !! h = Some v → length k = L → length v = L → length vis = L →
  finite_scores sm_scale kh qs → finite_values D vh → pick vis k ≠ [] →
  ∀ q, q ∈ qs →
    _sdpa_one_head up down zero_e D D sm_scale (pick vis k) (pick vis v) q
    = Ok (dense_attend up down D sm_scale vis k v q).
Proof.
  intros Hk Hv Hlk Hlv Hvis Hs Hfv Hne q Hq.
  pose proof (Forall_lookup_1 _ _ _ _ Hs Hk) as Hsk. simpl in Hsk.
  rewrite Forall_forall in Hsk. specialize (Hsk q Hq).
  rewrite (dense_attend_compact up down zero_e); [|lia|lia| |by eapply (Forall_lookup_1 _ _ _ _ Hfv)|done].
  - unfold _sdpa_one_head. case_bool_decide; [done|]. rewrite !bool_decide_eq_true_2; [done| |done].
    apply length_pick. lia.
  - eapply Forall_impl; [exact Hsk|]. intros qr Hqr. unfold scores in *. rewrite <-pick_fmap.
    by apply Forall_pick.
Qed.

(** The attention loop over compact views equals the dense masked loop, when
    every head's view is the visible part of its dense rows. *)
Lemma core_agrees fa3 L Lq D sm_scale nq qs kh vh view (mask : nat → nat → result (list bool)) :
  Forall (fun k => length k = L) kh → Forall (fun v => length v = L) vh →
  length vh = length kh → length qs = length kh * nq →
  finite_scores sm_scale kh qs → finite_values D vh →
  (∀ h k v, kh !! h = Some k → vh !! h = Some v →
     ∃ vis, mask L h = Ok vis ∧ length vis = L ∧ pick vis k ≠ [] ∧
       view h = Ok (pick vis k, pick vis v)) →
  ∃ out,
    attention_core up down zero_e fa3 false (T3 Lq D qs) (length kh) D nq sm_scale view = Ok out ∧
    dense_core up down zero_e (T3 Lq D qs) (T3 L D kh) (T3 L D vh) nq sm_scale mask = Ok out.
Proof.
  intros Hk Hv Hlv Hqs Hs Hfv Hview.
  set (f := fun h q => match mask L h, kh !! h, vh !! h with
                       | Ok vis, Some k, Some v => dense_attend up down D sm_scale vis k v q
                       | _, _, _ => [] end).
  assert (Hget : ∀ h, h < length kh → ∃ k v vis,
    kh !! h = Some k ∧ vh !! h = Some v ∧ mask L h = Ok vis ∧
    view h = Ok (pick vis k, pick vis v) ∧
    ∀ q, q ∈ qs → _sdpa_one_head up down zero_e D D sm_scale (pick vis k) (pick vis v) q
                  = Ok (dense_attend up down D sm_scale vis k v q)).
  { intros h Hh. element kh h as k Hkh.
    element vh h as v Hvh.
    destruct (Hview h k v Hkh Hvh) as (vis & Hm & Hlvis & Hne & Hw).
    exists k, v, vis. do 4 (split; [done|]). intros q Hq.
    eapply (head_agrees L D sm_scale kh qs vh h); try done.
    - exact (Forall_lookup_1 _ _ _ _ Hk Hkh).
    - exact (Forall_lookup_1 _ _ _ _ Hv Hvh). }
  exists (served nq f qs). split.
  - unfold attention_core. rewrite bool_decide_eq_true_2 by done.
    apply per_head_spec; [done|]. intros h Hh.
    destruct (Hget h Hh) as (k & v & vis & Hkh & Hvh & Hm & Hw & Ha).
    eexists. split; [exact Hw|]. intros q Hq. cbn [fst snd]. rewrite (Ha q Hq).
    unfold f. by rewrite Hm, Hkh, Hvh.
  - unfold dense_core. apply per_head_spec; [done|]. intros h Hh.
    destruct (Hget h Hh) as (k & v & vis & Hkh & Hvh & Hm & _ & _).
    eexists. split.
    + rewrite Hm. run_bind. by run_gets.
    + intros q Hq. cbn [fst snd]. rewrite !bool_decide_eq_true_2 by done.
      unfold f. by rewrite Hm, Hkh, Hvh.
Qed.

(** A non-empty window keeps a row. *)
Lemma window_nonempty L sink recent {A} (k : list A) :
  (0 < sink ∨ 0 < recent)%Z → length k = L → 0 < L →
  select_rows k (window_positions (Z.of_nat L) sink recent) ≠ [].
Proof.
  intros Hw Hl HL Heq. pose proof (length_window_positions (Z.of_nat L) sink recent ltac:(lia)) as Hlen.
  destruct (index_select_rows k (window_positions (Z.of_nat L) sink recent)) as [_ Hlr].
  { rewrite Hl. apply positions_of_range. }
  rewrite Heq in Hlr. simpl in Hlr. lia.
Qed.

(** C22: For at least one token, every head of a known class (global or local), a non-empty
    local window (a positive sink or a positive recency length), K and V of the shape
    the configuration gives, finite values and scores that are finite
    in the arithmetic of the kernel (exact here), attention over
    the SegPaged cache built from dense K/V equals dense attention with the
    class mask: dropping the invisible tokens changes no output.  Both return.  (With
    an empty window the two differ, see [empty_window_diverges].) *)
Theorem segpaged_matches_dense zero_row fa3 L Lq D sm_scale nq qs kh vh pols sink recent ps layer :
  0 < ps → 0 < L →
  Forall (fun k => length k = L) kh → Forall (fun v => length v = L) vh →
  length vh = length kh → length pols = length kh → length qs = length kh * nq →
  forallb known_policy pols = true → (0 < sink ∨ 0 < recent)%Z →
  finite_scores sm_scale kh qs → finite_values D vh →
  ∃ c out,
    build_segpaged_cache zero_row id (T3 L D kh) (T3 L D vh) pols sink recent ps layer = Ok c ∧
    segpaged_attention up down zero_e fa3 false (T3 Lq D qs) c layer nq sm_scale = Ok out ∧
    dense_reference_attention1 up down zero_e (T3 Lq D qs) (T3 L D kh) (T3 L D vh)
      pols sink recent nq sm_scale = Ok out.
Proof.
  intros Hps HL Hk Hv Hlv Hlp Hqs Hpol Hw Hs Hfv.
  destruct (build_known zero_row id L D D kh vh pols sink recent layer Hk Hv Hlv Hlp ps Hps Hpol)
    as (c & Hc & Hg & _ & Hn & Hd).
  destruct (core_agrees fa3 L Lq D sm_scale nq qs kh vh
    (fun h => gather_head1 c layer (Z.of_nat h))
    (fun L kv_h => do! pol <- py_get pols (Z.of_nat kv_h);
       if bool_decide (pol = POLICY_GLOBAL) then Ok (replicate L true)
       else do! idx <- local_visible_indices (Z.of_nat L) sink recent; mark L idx))
    as (out & Ha & Hb); try done.
  - intros h k v Hkh Hvh. destruct (lookup_lt_is_Some_2 pols h) as [pol Hp].
    { rewrite Hlp. by eapply lookup_lt_Some. }
    pose proof (Forall_lookup_1 _ _ _ _ Hk Hkh) as Hlk. pose proof (Forall_lookup_1 _ _ _ _ Hv Hvh) as Hlvv.
    simpl in Hlk, Hlvv. rewrite (Hg h pol k v Hp Hkh Hvh), !list_fmap_id, (py_get_nat _ _ _ Hp).
    run_bind. unfold kept_rows. case_bool_decide.
    + exists (replicate L true). rewrite length_replicate. do 2 (split; [done|]).
      assert (Hpk : pick (replicate L true) k = k) by (rewrite <-Hlk; apply pick_all).
      assert (Hpv : pick (replicate L true) v = v) by (rewrite <-Hlvv; apply pick_all).
      rewrite Hpk, Hpv. split; [|done]. intros ->. simpl in *. lia.
    + exists (visible (Z.of_nat L) sink recent <$> seqZ 0 (Z.of_nat L)).
      rewrite local_visible_indices_eq by lia. run_bind.
      unfold window_positions. rewrite mark_positions. split; [done|].
      rewrite length_fmap, length_seqZ, Nat2Z.id. split; [done|].
      rewrite !pick_positions_len by done. split; [by apply window_nonempty|done].
  - exists c, out. split; [exact Hc|]. split; [|exact Hb].
    unfold segpaged_attention. rewrite Hn, Hd, Nat2Z.id. exact Ha.
Qed.

(** C27: The same for SegPaged v2 on any storage backend that meets the
    contract and any plans whose positions are in range, increasing and
    non-empty: attention over the stored tokens equals dense attention masked
    by the plans. *)
Theorem paged_matches_dense {St} `{KVStorageBackend St row} `{!KVStorageLaws St row id}
    fa3 L Lq D sm_scale nq qs kh vh plans ps layer (st : St) :
  be_inv st → 0 < ps → ps ≤ be_page_size st →
  Forall (fun k => length k = L) kh → Forall (fun v => length v = L) vh →
  length vh = length kh → length plans = length kh → length qs = length kh * nq →
  Forall (fun p => positions p ≠ [] ∧
            ∃ P, positions p = positions_of (Z.of_nat L) P) plans →
  finite_scores sm_scale kh qs → finite_values D vh →
  ∃ c out,
    build_paged_cache (T3 L D kh) (T3 L D vh) plans ps layer st = Ok c ∧
    paged_attention up down zero_e fa3 false (T3 Lq D qs) c layer nq sm_scale = Ok out ∧
    dense_reference_attention2 up down zero_e (T3 Lq D qs) (T3 L D kh) (T3 L D vh)
      plans nq sm_scale = Ok out.
Proof.
  intros Hi Hps Hle Hk Hv Hlv Hlp Hqs Hpl Hs Hfv.
  destruct (build_paged_ok L D D kh vh plans ps layer st) as (c & Hc & Hn & Hd & Hg); try done.
  { eapply Forall_impl; [exact Hpl|]. intros p (_ & P & ->). apply positions_of_range. }
  destruct (core_agrees fa3 L Lq D sm_scale nq qs kh vh
    (fun h => gather_head c layer (Z.of_nat h))
    (fun L kv_h => do! p <- py_get plans (Z.of_nat kv_h); mark L (positions p)))
    as (out & Ha & Hb); try done.
  - intros h k v Hkh Hvh. destruct (lookup_lt_is_Some_2 plans h) as [p Hp].
    { rewrite Hlp. by eapply lookup_lt_Some. }
    pose proof (Forall_lookup_1 _ _ _ _ Hk Hkh) as Hlk. pose proof (Forall_lookup_1 _ _ _ _ Hv Hvh) as Hlvv.
    simpl in Hlk, Hlvv. destruct (Hg h k v p Hkh Hvh Hp) as (kv & vv & Hkv & Hvv & Hgh).
    destruct (Forall_lookup_1 _ _ _ _ Hpl Hp) as (Hne & P & HP).
    rewrite Hgh, !list_fmap_id, (py_get_nat _ _ _ Hp). run_bind. rewrite HP in *.
    exists (P <$> seqZ 0 (Z.of_nat L)). rewrite mark_positions. split; [done|].
    rewrite length_fmap, length_seqZ, Nat2Z.id. split; [done|].
    assert (Hpick : ∀ (x xv : list row), length x = L →
      index_select x (positions_of (Z.of_nat L) P) = Ok xv →
      pick (P <$> seqZ 0 (Z.of_nat L)) x = xv).
    { intros x xv Hx Hxv. rewrite pick_positions_len by done.
      destruct (index_select_rows x (positions_of (Z.of_nat L) P)) as [Heq _];
        [rewrite Hx; apply positions_of_range|]. congruence. }
    rewrite (Hpick k kv Hlk Hkv), (Hpick v vv Hlvv Hvv). split; [|done].
    intros ->. apply index_select_length in Hkv. simpl in Hkv. symmetry in Hkv.
    by apply nil_length_inv in Hkv.
  - exists c, out. split; [exact Hc|]. split; [|exact Hb].
    unfold paged_attention. rewrite Hn, Hd, Nat2Z.id. exact Ha.
Qed.

End equivalence.

(** * The fused path *)

Section fused.
Context {E F : Type} `{Scalar F} (up : E → F) (down : F → E) (zero_e : E).
Notation row := (list E).

(** Cumulative sequence lengths, from [a]. *)
Fixpoint cu_from {A} (a : nat) (ls : list (list A)) : list nat :=
  match ls with
  | [] => []
  | l :: ls => (a + length l) :: cu_from (a + length l) ls
  end.
Definition cu_seqlens {A} (ls : list (list A)) : list nat := 0 :: cu_from 0 ls.

(** The documented behaviour of [flash_attn_varlen_func] with [causal=False]:
    sequence [i] of the packed queries attends to sequence [i] of the packed
    keys and values, given upper bounds on the lengths. *)
Definition varlen_spec (D : nat) (fa3 : varlen_kernel E F) : Prop :=
  ∀ sm_scale mq mk (batch : list (list row * (list row * list row))),
    Forall (fun b => length b.1 ≤ mq ∧ length b.2.1 ≤ mk ∧ length b.2.2 = length b.2.1) batch →
    fa3 (concat batch.*1) (concat batch.*2.*1) (concat batch.*2.*2)
      (cu_seqlens batch.*1) (cu_seqlens batch.*2.*1) mq mk sm_scale
    = concat ((fun b => attend up down zero_e D sm_scale b.2.1 b.2.2 b.1) <$> batch).

(** A nested head loop visits the query heads in order. *)
Lemma nested_flat {St : Type} (body : nat → St → result St) Hkv nq s :
  foldM (fun s h => foldM (fun s g => body (h * nq + g) s) (seq 0 nq) s) (seq 0 Hkv) s
  = foldM (fun s i => body i s) (seq 0 (Hkv * nq)) s.
Proof.
  assert (Hshift : ∀ n a b s, foldM (fun s g => body (a + g) s) (seq b n) s
                              = foldM (fun s i => body i s) (seq (a + b) n) s).
  { induction n as [|n IH]; intros a b s'; [done|]. simpl. destruct (body _ _); run_bind; [|done].
    rewrite IH. by rewrite Nat.add_succ_r. }
  revert s. induction Hkv as [|h IH]; intros s; [done|].
  rewrite seq_S, foldM_app, IH. replace (S h * nq) with (h * nq + nq) by lia.
  rewrite seq_app, foldM_app. destruct (foldM _ (seq 0 (h * nq)) s); run_bind; [|done].
  cbn [foldM]. rewrite Hshift, !Nat.add_0_r. by destruct (foldM _ _ _).
Qed.

Definition pack_all (Lq : nat) (p : Packed) (batch : list (list row * (list row * list row))) : Packed :=
  foldl (fun p b => pack_slot Lq b.2 b.1 p) p batch.

Lemma pack_all_spec Lq p batch a b :
  last (cu_q p) = Some a → last (cu_k p) = Some b →
  Forall (fun x => length x.1 = Lq) batch →
  let r := pack_all Lq p batch in
  q_parts r = q_parts p ++ batch.*1 ∧ k_parts r = k_parts p ++ batch.*2.*1 ∧
  v_parts r = v_parts p ++ batch.*2.*2 ∧
  cu_q r = cu_q p ++ cu_from a batch.*1 ∧ cu_k r = cu_k p ++ cu_from b batch.*2.*1 ∧
  max_q p ≤ max_q r ∧ max_k p ≤ max_k r ∧
  Forall (fun x => length x.1 ≤ max_q r ∧ length x.2.1 ≤ max_k r) batch.
Proof.
  unfold pack_all. revert p a b. induction batch as [|[q kv] batch IH]; intros p a b Ha Hb Hl.
  { simpl in *. rewrite !app_nil_r. repeat (split; [done || lia|]). done. }
  apply Forall_cons in Hl as [Hq Hl]. simpl in Hq.
  specialize (IH (pack_slot Lq kv q p) (a + Lq) (b + length kv.1)).
  simpl in IH. rewrite !last_snoc, Ha, Hb in IH. simpl in IH.
  destruct (IH eq_refl eq_refl Hl) as (H1 & H2 & H3 & H4 & H5 & H6 & H7 & H8).
  simpl. rewrite H1, H2, H3, H4, H5, Hq, <-!app_assoc. simpl.
  do 5 (split; [done|]). split; [lia|]. split; [lia|].
  constructor; [simpl; lia|done].
Qed.

Lemma pack_heads_spec Hkv nq Lq query (view : nat → result (list row * list row)) kv :
  length query = Hkv * nq → (∀ h, h < Hkv → view h = Ok (kv h)) →
  pack_heads Hkv nq Lq query view
  = Ok (pack_all Lq (mkPacked [] [] [] [0] [0] 0 0) (served nq (fun h q => (q, kv h)) query)).
Proof.
  intros Hlen Hview. unfold pack_heads.
  destruct (foldM_invariant
    (fun dn p => p = pack_all Lq (mkPacked [] [] [] [0] [0] 0 0)
                   (served nq (fun h q => (q, kv h)) (take (length dn * nq) query)))
    (fun p kv_h =>
           do! kv <- view kv_h;
           foldM (fun p g =>
                    do! q <- py_get query (Z.of_nat (kv_h * nq + g));
                    Ok (pack_slot Lq kv q p)) (seq 0 nq) p)
    (seq 0 Hkv) (mkPacked [] [] [] [0] [0] 0 0)) as (p & Hf & Hp).
  - done.
  - intros dn h todo p Hl ->.
    destruct (seq_split_index _ _ _ _ Hl) as [-> Hlt].
    rewrite Hview by done. run_bind. eexists. split; [|done].
    rewrite length_app. simpl. replace (length dn + 1) with (S (length dn)) by lia.
    assert (Hin : ∀ n p, n ≤ nq → foldM (fun p g =>
               do! q <- py_get query (Z.of_nat (length dn * nq + g));
               Ok (pack_slot Lq (kv (length dn)) q p)) (seq 0 n) p
             = Ok (pack_all Lq p ((fun q => (q, kv (length dn))) <$> take n (drop (length dn * nq) query)))).
    { induction n as [|n IH]; intros p Hn; [done|].
      destruct (lookup_lt_is_Some_2 query (length dn * nq + n)) as [q Hq]; [nia|].
      rewrite seq_S, foldM_app, IH by lia. run_bind. cbn [foldM]. rewrite Nat.add_0_l.
      run_gets.
      rewrite (take_S_r (drop _ _) n q) by (by rewrite lookup_drop).
      rewrite fmap_app. unfold pack_all. by rewrite foldl_app. }
    rewrite Hin by done. destruct (decide (nq = 0)) as [->|Hnq].
    { by rewrite !Nat.mul_0_r. }
    rewrite <-served_prefix by done. unfold pack_all. by rewrite foldl_app.
  - etrans; [exact Hf|]. rewrite Hp, length_seq, <-Hlen. by rewrite take_ge by lia.
Qed.

(** Cutting the packed output at the cumulative lengths returns the parts. *)
Lemma cut_packed (os : list (list row)) (a : nat) i o :
  os !! i = Some o →
  ∃ x, (a :: cu_from a os) !! i = Some (a + x) ∧ (a :: cu_from a os) !! S i = Some (a + (x + length o)) ∧
    slice x (x + length o) (concat os) = o.
Proof.
  revert a i. induction os as [|o' os IH]; intros a [|i] Hi; simpl in Hi; try done.
  - injection Hi as ->. exists 0. rewrite Nat.add_0_r. simpl.
    split; [done|]. split; [done|]. unfold slice. simpl.
    by rewrite ?Nat.sub_0_r, ?drop_0, take_app_length.
  - destruct (IH (a + length o') i Hi) as (x & H1 & H2 & H3). exists (length o' + x).
    cbn [cu_from]. split; [|split].
    + change ((a :: (a + length o') :: cu_from (a + length o') os) !! S i)
        with (((a + length o') :: cu_from (a + length o') os) !! i). rewrite H1. f_equal. lia.
    + change ((a :: (a + length o') :: cu_from (a + length o') os) !! S (S i))
        with (((a + length o') :: cu_from (a + length o') os) !! S i). rewrite H2. f_equal. lia.
    + rewrite <-H3 at 2. unfold slice. simpl. rewrite drop_app_add. f_equal. lia.
Qed.

Lemma unpack_spec Hkv nq (os out : list (list row)) :
  length os = Hkv * nq → length out = Hkv * nq →
  unpack_heads Hkv nq (cu_seqlens os) (concat os) out = Ok os.
Proof.
  intros Hos Hout. unfold unpack_heads.
  set (body := fun i (s : list (list row) * nat) =>
    do! a <- py_get (cu_seqlens os) (Z.of_nat s.2);
    do! b <- py_get (cu_seqlens os) (Z.of_nat (s.2 + 1));
    do! out' <- py_set s.1 (Z.of_nat i) (slice a b (concat os));
    Ok (out', s.2 + 1)).
  pose proof (nested_flat body Hkv nq (out, 0)) as Hflat. unfold body in Hflat.
  setoid_rewrite Hflat. fold body.
  destruct (foldM_invariant
    (fun dn s => s = (take (length dn) os ++ drop (length dn) out, length dn))
    (fun s i => body i s) (seq 0 (Hkv * nq)) (out, 0)) as (s & Hf & Hs).
  - done.
  - intros dn i todo s Hl ->.
    destruct (seq_split_index _ _ _ _ Hl) as [-> Hlt].
    element os (length dn) as o Ho.
    destruct (cut_packed os 0 _ _ Ho) as (x & H1 & H2 & H3). unfold body, cu_seqlens. cbn [fst snd].
    rewrite (py_get_nat _ _ _ H1). run_bind. rewrite Nat.add_1_r, (py_get_nat _ _ _ H2).
    run_bind. cbn [Nat.add]. rewrite H3.
    assert (Hlt' : length (take (length dn) os) = length dn) by len_lia.
    rewrite py_set_nat by (rewrite length_app, Hlt', length_drop; lia). run_bind.
    eexists. split; [done|]. rewrite length_app. simpl. rewrite Nat.add_1_r. f_equal.
    element out (length dn) as y Hy.
    rewrite (drop_S out y (length dn)) by done. rewrite <-Hlt' at 1. rewrite insert_middle.
    rewrite (take_S_r os (length dn) o) by done. by rewrite <-app_assoc.
  - transitivity (do! r <- foldM (fun s i => body i s) (seq 0 (Hkv * nq)) (out, 0); Ok r.1); [reflexivity|].
    rewrite Hf. run_bind. rewrite Hs, length_seq. cbn [fst].
    by rewrite take_ge, drop_ge, app_nil_r by lia.
Qed.

Lemma cu_from_same {A B} (a : nat) (l : list (list A)) (l' : list (list B)) :
  Forall2 (fun x y => length x = length y) l l' → cu_from a l = cu_from a l'.
Proof.
  intros Hl. revert a. induction Hl as [|x y l l' Hxy _ IH]; intros a; [done|].
  simpl. by rewrite Hxy, IH.
Qed.

Lemma attend_length D sm_scale k v q : length (attend up down zero_e D sm_scale k v q) = length q.
Proof. unfold attend, zeros_like. destruct k; [apply length_replicate|apply length_fmap]. Qed.

(** C28: Packing all heads into one variable-length kernel call and cutting its
    output apart computes what the head-by-head reference path computes, for
    every kernel with the documented behaviour; both paths return. *)
Theorem fused_matches_reference fa3 Hkv nq Lq D sm_scale (qs : list (list row))
    (view : nat → result (list row * list row)) :
  varlen_spec D fa3 → length qs = Hkv * nq → 0 < Hkv * nq →
  Forall (fun q => length q = Lq) qs →
  (∀ h, h < Hkv → ∃ k v, view h = Ok (k, v) ∧ length v = length k) →
  ∃ out,
    attention_core up down zero_e fa3 true (T3 Lq D qs) Hkv D nq sm_scale view = Ok out ∧
    attention_core up down zero_e fa3 false (T3 Lq D qs) Hkv D nq sm_scale view = Ok out.
Proof.
  intros Hfa Hlen Hpos HLq Hview.
  set (kv := fun h => match view h with Ok p => p | Raise _ => ([], []) end).
  assert (Hkvs : ∀ h, h < Hkv → view h = Ok (kv h) ∧ length (kv h).2 = length (kv h).1).
  { intros h Hh. destruct (Hview h Hh) as (k & v & Hv & Hl). unfold kv. rewrite Hv. done. }
  set (f := fun h q => attend up down zero_e D sm_scale (kv h).1 (kv h).2 q).
  exists (served nq f qs). unfold attention_core. rewrite bool_decide_eq_true_2 by done. split.
  - rewrite (pack_heads_spec Hkv nq Lq qs view kv) by (done || (intros; by apply Hkvs)). run_bind.
    set (batch := served nq (fun h q => (q, kv h)) qs).
    assert (Hb1 : batch.*1 = qs).
    { unfold batch, served. rewrite fmap_imap. apply list_eq. intros i.
      rewrite list_lookup_imap. by destruct (qs !! i). }
    assert (Hserved : (fun b => attend up down zero_e D sm_scale b.2.1 b.2.2 b.1) <$> batch
                      = served nq f qs).
    { unfold batch, served. by rewrite fmap_imap. }
    assert (Hin : ∀ i b, batch !! i = Some b → length b.1 = Lq ∧ length b.2.2 = length b.2.1).
    { intros i b Hb. unfold batch, served in Hb. rewrite list_lookup_imap in Hb.
      destruct (qs !! i) as [q|] eqn:Hq; [|done]. injection Hb as <-. simpl.
      split; [exact (Forall_lookup_1 _ _ _ _ HLq Hq)|]. apply Hkvs.
      apply lookup_lt_Some in Hq. apply Nat.Div0.div_lt_upper_bound. lia. }
    destruct (pack_all_spec Lq (mkPacked [] [] [] [0] [0] 0 0) batch 0 0)
      as (H1 & H2 & H3 & H4 & H5 & _ & _ & H8); [done|done| |].
    { apply Forall_lookup_2. intros i b Hb. by eapply Hin. }
    cbn [q_parts k_parts v_parts cu_q cu_k app] in *. rewrite H1, H2, H3, H4, H5.
    destruct (batch.*1) as [|q0 l0] eqn:Hq0; [rewrite <-Hb1 in Hlen; simpl in Hlen; lia|].
    rewrite <-Hq0 at 1.
    rewrite <-Hq0 in *. change (0 :: cu_from 0 batch.*1) with (cu_seqlens batch.*1).
    change (0 :: cu_from 0 batch.*2.*1) with (cu_seqlens batch.*2.*1).
    rewrite Hfa.
    2: { apply Forall_lookup_2. intros i b Hb. destruct (Hin _ _ Hb).
         pose proof (Forall_lookup_1 _ _ _ _ H8 Hb). simpl in *. naive_solver. }
    rewrite Hserved.
    replace (cu_seqlens batch.*1) with (cu_seqlens (served nq f qs)).
    { apply unpack_spec; [|by rewrite length_fmap]. unfold served. by rewrite length_imap. }
    unfold cu_seqlens. f_equal. apply cu_from_same. rewrite Hb1.
    apply Forall2_same_length_lookup. unfold served. rewrite length_imap. split; [done|].
    intros i x y Hx Hy. rewrite list_lookup_imap, Hy in Hx. injection Hx as <-. apply attend_length.
  - apply per_head_spec; [done|]. intros h Hh. destruct (Hkvs h Hh) as [Hv Hl].
    exists (kv h). split; [done|]. intros q Hq. unfold _sdpa_one_head.
    case_bool_decide; [done|]. by rewrite !bool_decide_eq_true_2.
Qed.

End fused.

(** * A head with nothing visible *)

Section nothing_visible.
Notation row := (list xreal).

Lemma softmax_all_masked n : softmax (replicate n NInf) = replicate n NaN.
Proof.
  unfold softmax. assert (Hm : foldr s_max s_ninf (replicate n NInf) = NInf).
  { induction n as [|n IH]; [done|]. simpl in *. by rewrite IH. }
  rewrite Hm, !fmap_replicate. simpl. done.
Qed.

Lemma zip_nan (vr : row) (acc : row) :
  length acc = length vr →
  zip_with s_add ((fun x => s_mul NaN (id x)) <$> vr) acc = replicate (length vr) NaN.
Proof.
  revert acc. induction vr as [|x vr IH]; intros [|a acc] Hl; try done.
  simpl. f_equal. apply IH. simpl in Hl. lia.
Qed.

Lemma mix_nan D n (v : list row) :
  length v = S n → Forall (fun vr : row => length vr = D) v →
  mix id D (replicate (S n) NaN) v = replicate D NaN.
Proof.
  revert v. induction n as [|n IH]; intros [|vr v] Hl Hv; try done;
    apply Forall_cons in Hv as [<- Hv]; cbn [replicate]; rewrite mix_cons; apply zip_nan.
  - simpl. apply length_replicate.
  - change (NaN :: replicate n NaN) with (replicate (S n) NaN).
    rewrite IH by (done || (simpl in Hl; lia)). apply length_replicate.
Qed.

Lemma masked_fill_none n (s : list xreal) :
  length s = n → masked_fill (replicate n false) s = replicate n NInf.
Proof. intros <-. induction s as [|x s IH]; [done|]. simpl. f_equal. exact IH. Qed.

(** a local head whose window is empty (no sink, no recent tokens) gets
    zeros from the SegPaged path and NaN from the dense masked reference: the
    two agree only when every head sees a token. *)
Theorem empty_window_diverges zero_row fa3 L Lq D sm_scale nq (qs kh vh : list (list row)) sink recent ps layer :
  0 < ps → 0 < L → (sink ≤ 0)%Z → (recent ≤ 0)%Z →
  Forall (fun k => length k = L) kh → Forall (fun v => length v = L) vh →
  Forall (Forall (fun vr : row => length vr = D)) vh →
  length vh = length kh → length qs = length kh * nq →
  let pols := replicate (length kh) POLICY_LOCAL in
  ∃ c,
    build_segpaged_cache zero_row id (T3 L D kh) (T3 L D vh) pols sink recent ps layer = Ok c ∧
    segpaged_attention id id s_zero fa3 false (T3 Lq D qs) c layer nq sm_scale
    = Ok ((fun q => replicate (length q) (replicate D s_zero)) <$> qs) ∧
    dense_reference_attention1 id id s_zero (T3 Lq D qs) (T3 L D kh) (T3 L D vh)
      pols sink recent nq sm_scale
    = Ok ((fun q => replicate (length q) (replicate D NaN)) <$> qs).
Proof.
  intros Hps HL Hsink Hrec Hk Hv Hw Hlv Hqs pols.
  assert (Hwin : window_positions (Z.of_nat L) sink recent = []).
  { apply nil_length_inv. pose proof (length_window_positions (Z.of_nat L) sink recent). lia. }
  destruct (build_known zero_row id L D D kh vh pols sink recent layer) with (ps := ps)
    as (c & Hc & Hg & _ & Hn & Hd); try done.
  { apply length_replicate. }
  { apply Is_true_true, forallb_True, Forall_replicate. done. }
  exists c. split; [exact Hc|].
  assert (Hserved : ∀ g : list row → list row, served nq (fun _ q => g q) qs = g <$> qs).
  { intros g. unfold served. apply list_eq. intros i. by rewrite list_lookup_imap, list_lookup_fmap. }
  split.
  - unfold segpaged_attention, attention_core. rewrite Hn, Hd, Nat2Z.id, bool_decide_eq_true_2 by done.
    rewrite <-Hserved. apply per_head_spec; [done|]. intros h Hh.
    element kh h as k Hkh.
    element vh h as v Hvh.
    eexists. split; [apply (Hg h POLICY_LOCAL k v); [by apply lookup_replicate_2|done..]|].
    intros q _. cbn [fst snd]. unfold kept_rows. rewrite Hwin. done.
  - unfold dense_reference_attention1, dense_core. rewrite <-Hserved.
    apply per_head_spec; [done|]. intros h Hh.
    element kh h as k Hkh.
    element vh h as v Hvh.
    eexists (replicate L false, k, v). split.
    + rewrite (py_get_nat pols h POLICY_LOCAL) by by apply lookup_replicate_2. run_bind.
      rewrite bool_decide_eq_false_2 by done. rewrite local_visible_indices_eq, Hwin by lia. run_bind.
      unfold mark. cbn [foldM]. run_bind.
      by rewrite (py_get_nat _ _ _ Hkh), (py_get_nat _ _ _ Hvh).
    + intros q _. cbn [fst snd]. rewrite !bool_decide_eq_true_2 by done. cbn [andb]. f_equal.
      pose proof (Forall_lookup_1 _ _ _ _ Hk Hkh) as Hlk. pose proof (Forall_lookup_1 _ _ _ _ Hv Hvh) as Hlvv.
      pose proof (Forall_lookup_1 _ _ _ _ Hw Hvh) as Hwv. simpl in Hlk, Hlvv.
      unfold dense_attend. clear -HL Hlk Hlvv Hwv. induction q as [|qr q IH]; [done|].
      rewrite fmap_cons, IH. simpl. f_equal.
      rewrite masked_fill_none by (unfold scores; rewrite length_fmap; done).
      rewrite softmax_all_masked, list_fmap_id. destruct L as [|n]; [lia|]. by apply mix_nan.
Qed.

End nothing_visible.

(** * Witnesses, over the extended reals *)

(** The variable-length kernel as a plain loop over the sequences. *)
Definition naive_varlen {E F} `{Scalar F} (up : E → F) (down : F → E) (zero_e : E) (D : nat)
  : varlen_kernel E F :=
  fun q k v cuq cuk _ _ sm_scale =>
    concat ((fun i =>
      let cut cu l := slice (default 0 (cu !! i)) (default 0 (cu !! S i)) l in
      attend up down zero_e D sm_scale (cut cuk k) (cut cuk v) (cut cuq q))
      <$> seq 0 (length cuq - 1)).

Lemma length_cu_from {A} a (l : list (list A)) : length (cu_from a l) = length l.
Proof. revert a. induction l as [|x l IH]; intros a; [done|]. simpl. by rewrite IH. Qed.

Lemma naive_varlen_spec {E F} `{Scalar F} (up : E → F) (down : F → E) (zero_e : E) D :
  varlen_spec up down zero_e D (naive_varlen up down zero_e D).
Proof.
  intros sm_scale mq mk batch Hb. unfold naive_varlen. f_equal.
  apply list_eq. intros i. rewrite !list_lookup_fmap.
  assert (Hn : length (cu_seqlens batch.*1) - 1 = length batch).
  { unfold cu_seqlens. simpl. rewrite length_cu_from, length_fmap. lia. }
  rewrite Hn. destruct (batch !! i) as [[q [k v]]|] eqn:Hi.
  2: { rewrite lookup_seq_ge; [done|]. by apply lookup_ge_None_1. }
  rewrite lookup_seq_lt by by eapply lookup_lt_Some.
  cbn [fmap option_fmap option_map fst snd Nat.add]. f_equal.
  assert (Hq1 : batch.*1 !! i = Some q) by by rewrite list_lookup_fmap, Hi.
  assert (Hk1 : batch.*2.*1 !! i = Some k) by by rewrite !list_lookup_fmap, Hi.
  assert (Hv1 : batch.*2.*2 !! i = Some v) by by rewrite !list_lookup_fmap, Hi.
  assert (Hcu : cu_seqlens batch.*2.*1 = cu_seqlens batch.*2.*2).
  { unfold cu_seqlens. f_equal. apply cu_from_same, Forall2_same_length_lookup.
    rewrite !length_fmap. split; [done|]. intros j x y Hx Hy.
    rewrite !list_lookup_fmap in *. destruct (batch !! j) as [b|] eqn:Hj; [|done].
    injection Hx as <-. injection Hy as <-. symmetry.
    by destruct (Forall_lookup_1 _ _ _ _ Hb Hj) as (_ & _ & ?). }
  destruct (cut_packed _ 0 _ _ Hq1) as (x & Hx1 & Hx2 & Hx3).
  destruct (cut_packed _ 0 _ _ Hk1) as (y & Hy1 & Hy2 & Hy3).
  destruct (cut_packed _ 0 _ _ Hv1) as (z & Hz1 & Hz2 & Hz3).
  unfold cu_seqlens in *. f_equal.
  - rewrite Hy1, Hy2. exact Hy3.
  - rewrite Hcu, Hz1, Hz2. exact Hz3.
  - rewrite Hx1, Hx2. exact Hx3.
Qed.

(** Two KV heads of three tokens, one-wide rows, one query head each. *)
Definition wit_head : list (list xreal) := [[s_zero]; [s_zero]; [s_zero]].
Definition wit_kh : list (list (list xreal)) := [wit_head; wit_head].
Definition wit_qs : list (list (list xreal)) := [[[s_zero]]; [[s_zero]]].
Definition wit_pols : list string := [POLICY_GLOBAL; POLICY_LOCAL].

Lemma wit_zero_finite : finite (s_zero : xreal).
Proof. by eexists. Qed.

Lemma wit_scores : finite_scores id s_zero wit_kh wit_qs.
Proof. repeat constructor; by eexists. Qed.

Lemma wit_values : finite_values id 1 wit_kh.
Proof. repeat constructor; by eexists. Qed.

Lemma segpaged_matches_dense_witness :
  ∃ c out,
    build_segpaged_cache [] id (T3 3 1 wit_kh) (T3 3 1 wit_kh) wit_pols 1 1 2 0 = Ok c ∧
    segpaged_attention id id s_zero (naive_varlen id id s_zero 1) false (T3 1 1 wit_qs) c 0 1 s_zero = Ok out ∧
    dense_reference_attention1 id id s_zero (T3 1 1 wit_qs) (T3 3 1 wit_kh) (T3 3 1 wit_kh)
      wit_pols 1 1 1 s_zero = Ok out.
Proof.
  apply (segpaged_matches_dense id id s_zero [] (naive_varlen id id s_zero 1) 3 1 1 s_zero 1
           wit_qs wit_kh wit_kh wit_pols 1 1 2 0);
    [lia|lia|by repeat constructor|by repeat constructor|reflexivity|reflexivity|reflexivity
    |reflexivity|left; lia|exact wit_scores|exact wit_values].
Defined.

Definition wit_row_backend : KVStorageBackend (LocalPagedPool (list xreal)) (list xreal) :=
  LocalPagedPool_backend [] id.
Definition wit_row_laws : @KVStorageLaws _ (list xreal) wit_row_backend id :=
  LocalPagedPool_laws [] id.
Definition wit_plans : list HeadVisiblePlan :=
  [mkPlan POLICY_GLOBAL [0; 1; 2]%Z 3; mkPlan POLICY_CUSTOM [1]%Z 3].

Lemma paged_matches_dense_witness :
  ∃ c out,
    @build_paged_cache _ _ wit_row_backend (T3 3 1 wit_kh) (T3 3 1 wit_kh) wit_plans 2 0 (new_pool 2) = Ok c ∧
    @paged_attention _ _ _ id id s_zero _ wit_row_backend (naive_varlen id id s_zero 1) false
      (T3 1 1 wit_qs) c 0 1 s_zero = Ok out ∧
    dense_reference_attention2 id id s_zero (T3 1 1 wit_qs) (T3 3 1 wit_kh) (T3 3 1 wit_kh)
      wit_plans 1 s_zero = Ok out.
Proof.
  apply (@paged_matches_dense _ _ _ _ id id s_zero _ wit_row_backend wit_row_laws
           (naive_varlen id id s_zero 1) 3 1 1 s_zero 1 wit_qs wit_kh wit_kh wit_plans 2 0 (new_pool 2));
    [apply new_pool_inv|lia|reflexivity|by repeat constructor|by repeat constructor
    |reflexivity|reflexivity|reflexivity| |exact wit_scores|exact wit_values].
  apply Forall_cons. split; [split; [done|by exists (fun _ => true)]|].
  apply Forall_singleton. split; [done|by exists (fun i => bool_decide (i = 1%Z))].
Defined.

Lemma fused_matches_reference_witness :
  ∃ out,
    attention_core id id s_zero (naive_varlen id id s_zero 1) true (T3 1 1 wit_qs) 2 1 1 s_zero
      (fun _ => Ok (wit_head, wit_head)) = Ok out ∧
    attention_core id id s_zero (naive_varlen id id s_zero 1) false (T3 1 1 wit_qs) 2 1 1 s_zero
      (fun _ => Ok (wit_head, wit_head)) = Ok out.
Proof.
  apply (fused_matches_reference id id s_zero (naive_varlen id id s_zero 1) 2 1 1 1 s_zero wit_qs);
    [apply naive_varlen_spec|reflexivity|lia|by repeat constructor
    |intros h _; by exists wit_head, wit_head].
Defined.

Lemma empty_window_diverges_witness :
  ∃ c,
    build_segpaged_cache [] id (T3 3 1 wit_kh) (T3 3 1 wit_kh) [POLICY_LOCAL; POLICY_LOCAL] 0 0 2 0 = Ok c ∧
    segpaged_attention id id s_zero (naive_varlen id id s_zero 1) false (T3 1 1 wit_qs) c 0 1 s_zero
    = Ok [[[s_zero]]; [[s_zero]]] ∧
    dense_reference_attention1 id id s_zero (T3 1 1 wit_qs) (T3 3 1 wit_kh) (T3 3 1 wit_kh)
      [POLICY_LOCAL; POLICY_LOCAL] 0 0 1 s_zero
    = Ok [[[NaN]]; [[NaN]]].
Proof.
  apply (empty_window_diverges [] (naive_varlen id id s_zero 1) 3 1 1 s_zero 1 wit_qs wit_kh wit_kh 0 0 2 0);
    first [lia|by repeat constructor|reflexivity].
Defined.
