(* ===== verification/OfflineCache.v ===== *)
(** The offline segment store ([redknot/offline_cache.py]): pre-filled KV blobs
    under a segment id, in an insertion-ordered dictionary used as an LRU list,
    with byte totals per tier and two ceilings.

    Segments are shared objects: the dictionary holds references and
    [to_device] changes the object in place, so callers that hold a reference
    see it move.  [to_device] and [_enforce_limits] call each other; the model
    recurses on fuel, and the theorems below give the fuel that suffices.  The
    lock serialises the operations, each of which is one step here; the [meta]
    field is never read and is left out. *)

From S2P Require Import Prelude.

(** [torch.device]: its type and index. *)
Record Device := mkDevice {
  dev_type : string;
  dev_index : option Z;
}.

#[global] Instance device_eq_dec : EqDecision Device.
Proof. solve_decision. Defined.

Definition cpu : Device := mkDevice "cpu" None.
Definition is_cuda (d : Device) : bool := bool_decide (dev_type d = "cuda").

Section offline.
(** A KV tensor: where it is, its size in bytes, and its copy to a device. *)
Context {T : Type} (tensor_device : T → Device) (tensor_bytes : T → Z) (tensor_to : Device → T → T).

Record OfflineSegment := mkSeg {
  segment_id : string;
  token_ids : list Z;
  doc_len : Z;
  kv : list (option T * option T);
  device : Device;
  nbytes : Z;
}.

Record OfflineKVCache := mkOffline {
  segments : odict string Z;
  heap : gmap Z OfflineSegment;
  device_bytes : Z;
  host_bytes : Z;
  max_device_bytes : option Z;
  max_host_bytes : option Z;
}.

Definition new_offline (mx_dev mx_host : option Z) : OfflineKVCache :=
  mkOffline [] ∅ 0 0 mx_dev mx_host.

(** [kv_nbytes]: placeholder pairs are skipped. *)
Definition kv_nbytes (l : list (option T * option T)) : Z :=
  sumZ ((fun p => match p with
                  | (Some k, Some v) => (tensor_bytes k + tensor_bytes v)%Z
                  | _ => 0%Z
                  end) <$> l).

Definition build_offline_segment (sid : string) (toks : list Z) (l : list (option T * option T))
  : result OfflineSegment :=
  assert! bool_decide (0 < length l);
  match list_find (fun p => is_Some p.1) l with
  | Some (_, (Some k, _)) =>
      Ok (mkSeg sid toks (Z.of_nat (length toks)) l (tensor_device k) (kv_nbytes l))
  | _ => Raise AssertionError
  end.

(** The object behind a reference. *)
Definition deref (c : OfflineKVCache) (r : Z) : result OfflineSegment :=
  match heap c !! r with Some s => Ok s | None => Raise RuntimeError end.

Definition with_segments (d : odict string Z) (c : OfflineKVCache) : OfflineKVCache :=
  mkOffline d (heap c) (device_bytes c) (host_bytes c) (max_device_bytes c) (max_host_bytes c).

Definition with_bytes (db hb : Z) (c : OfflineKVCache) : OfflineKVCache :=
  mkOffline (segments c) (heap c) db hb (max_device_bytes c) (max_host_bytes c).

Definition with_object (r : Z) (s : OfflineSegment) (c : OfflineKVCache) : OfflineKVCache :=
  mkOffline (segments c) (<[r := s]> (heap c)) (device_bytes c) (host_bytes c)
    (max_device_bytes c) (max_host_bytes c).

(** The bytes of a segment that leaves the dictionary. *)
Definition uncount (s : OfflineSegment) (c : OfflineKVCache) : OfflineKVCache :=
  if is_cuda (device s) then with_bytes (device_bytes c - nbytes s) (host_bytes c) c
  else with_bytes (device_bytes c) (host_bytes c - nbytes s) c.

(** The first loop of [_enforce_limits], over a snapshot of the keys. *)
Fixpoint device_loop (offload : string → OfflineKVCache → result OfflineKVCache) (mx : Z)
    (keys : list string) (c : OfflineKVCache) : result OfflineKVCache :=
  match keys with
  | [] => Ok c
  | sid :: keys =>
      if bool_decide (device_bytes c ≤ mx)%Z then Ok c
      else
        match od_get sid (segments c) with
        | None => Raise KeyError
        | Some r =>
            do! s <- deref c r;
            do! c' <- (if is_cuda (device s) then offload sid c else Ok c);
            device_loop offload mx keys c'
        end
  end.

(** The second loop. *)
Fixpoint host_loop (limit : Z) (keys : list string) (c : OfflineKVCache) : result OfflineKVCache :=
  match keys with
  | [] => Ok c
  | sid :: keys =>
      if bool_decide (device_bytes c + host_bytes c ≤ limit)%Z then Ok c
      else
        match od_get sid (segments c) with
        | None => Raise KeyError
        | Some r =>
            do! s <- deref c r;
            host_loop limit keys (uncount s (with_segments (od_del sid (segments c)) c))
        end
  end.

Definition enforce_with (offload : string → OfflineKVCache → result OfflineKVCache)
    (c : OfflineKVCache) : result OfflineKVCache :=
  do! c1 <- (match max_device_bytes c with
             | None => Ok c
             | Some mx => device_loop offload mx (od_keys (segments c)) c
             end);
  match max_host_bytes c1 with
  | None => Ok c1
  | Some mh => host_loop (default 0 (max_device_bytes c1) + mh)%Z (od_keys (segments c1)) c1
  end.

(** The [.to(device)] of a segment's tensors; placeholders stay. *)
Definition move_kv (d : Device) (l : list (option T * option T)) : list (option T * option T) :=
  (fun p => match p with
            | (Some k, Some v) => (Some (tensor_to d k), Some (tensor_to d v))
            | _ => p
            end) <$> l.

(** The in-place part of [to_device]: totals, tensors, location, LRU order. *)
Definition relocate (sid : string) (r : Z) (s : OfflineSegment) (d : Device) (c : OfflineKVCache)
  : OfflineKVCache :=
  let c1 := if is_cuda (device s) && negb (is_cuda d)
            then with_bytes (device_bytes c - nbytes s) (host_bytes c + nbytes s) c
            else if negb (is_cuda (device s)) && is_cuda d
            then with_bytes (device_bytes c + nbytes s) (host_bytes c - nbytes s) c
            else c in
  let s' := mkSeg (segment_id s) (token_ids s) (doc_len s) (move_kv d (kv s)) d (nbytes s) in
  with_segments (od_move_to_end sid (segments c1)) (with_object r s' c1).

(** [to_device]; the result is the reference of the segment. *)
Fixpoint to_device (fuel : nat) (sid : string) (d : Device) (c : OfflineKVCache)
  : result (OfflineKVCache * option Z) :=
  match fuel with
  | O => Raise RuntimeError
  | S fuel =>
      match od_get sid (segments c) with
      | None => Ok (c, None)
      | Some r =>
          do! s <- deref c r;
          if bool_decide (device s = d) then
            Ok (with_segments (od_move_to_end sid (segments c)) c, Some r)
          else
            do! c' <- enforce_with (fun sid c => do! x <- to_device fuel sid cpu c; Ok x.1)
                        (relocate sid r s d c);
            Ok (c', Some r)
      end
  end.

Definition _enforce_limits (fuel : nat) (c : OfflineKVCache) : result OfflineKVCache :=
  enforce_with (fun sid c => do! x <- to_device fuel sid cpu c; Ok x.1) c.

Definition offload (fuel : nat) (sid : string) (c : OfflineKVCache) : result OfflineKVCache :=
  do! x <- to_device fuel sid cpu c; Ok x.1.

Definition put (fuel : nat) (r : Z) (c : OfflineKVCache) : result OfflineKVCache :=
  do! s <- deref c r;
  if od_mem (segment_id s) (segments c) then
    Ok (with_segments (od_move_to_end (segment_id s) (segments c)) c)
  else
    let c1 := with_segments (od_set (segment_id s) r (segments c)) c in
    let c2 := if is_cuda (device s)
              then with_bytes (device_bytes c + nbytes s) (host_bytes c) c1
              else with_bytes (device_bytes c) (host_bytes c + nbytes s) c1 in
    _enforce_limits fuel c2.

Definition get (sid : string) (c : OfflineKVCache) : result (OfflineKVCache * option Z) :=
  match od_get sid (segments c) with
  | None => Ok (c, None)
  | Some r =>
      do! s <- deref c r;
      if od_mem (segment_id s) (segments c)
      then Ok (with_segments (od_move_to_end (segment_id s) (segments c)) c, Some r)
      else Raise KeyError
  end.

Definition has (sid : string) (c : OfflineKVCache) : bool := od_mem sid (segments c).

Definition drop_segment (sid : string) (c : OfflineKVCache) : result OfflineKVCache :=
  match od_get sid (segments c) with
  | None => Ok c
  | Some r => do! s <- deref c r; Ok (uncount s (with_segments (od_del sid (segments c)) c))
  end.

(** [stats]: number of segments, device bytes, host bytes. *)
Definition stats (c : OfflineKVCache) : nat * Z * Z :=
  (length (segments c), device_bytes c, host_bytes c).

Definition clear (c : OfflineKVCache) : OfflineKVCache := with_bytes 0 0 (with_segments [] c).

(** * Specification *)

(** The bytes of one tier among the entries of a dictionary. *)
Definition seg_bytes (h : gmap Z OfflineSegment) (b : bool) (r : Z) : Z :=
  match h !! r with
  | Some s => if Bool.eqb (is_cuda (device s)) b then nbytes s else 0%Z
  | None => 0%Z
  end.

Definition tier_bytes (h : gmap Z OfflineSegment) (b : bool) (d : odict string Z) : Z :=
  sumZ ((fun p => seg_bytes h b p.2) <$> d).

Record offline_inv (c : OfflineKVCache) : Prop := {
  oi_keys : NoDup (od_keys (segments c));
  oi_bytes r s : heap c !! r = Some s → (0 ≤ nbytes s)%Z;
  oi_obj p : p ∈ segments c → ∃ s, heap c !! p.2 = Some s ∧ segment_id s = p.1;
  oi_device : device_bytes c = tier_bytes (heap c) true (segments c);
  oi_host : host_bytes c = tier_bytes (heap c) false (segments c);
}.

Definition on_cuda (h : gmap Z OfflineSegment) (p : string * Z) : bool :=
  match h !! p.2 with Some s => is_cuda (device s) | None => false end.

(** The device-resident entries, oldest first. *)
Definition residents (c : OfflineKVCache) : list (string * Z) :=
  filter (fun p => on_cuda (heap c) p = true) (segments c : list (string * Z)).

(** The device phase: while the device tier is above the ceiling, its oldest
    entry moves to the CPU (and to the recent end of the order). *)
Inductive offloads (mx : Z) : OfflineKVCache → OfflineKVCache → Prop :=
  | offloads_done c : (device_bytes c ≤ mx)%Z → offloads mx c c
  | offloads_step c sid r s rest c' :
      (mx < device_bytes c)%Z → residents c = (sid, r) :: rest → heap c !! r = Some s →
      offloads mx (relocate sid r s cpu c) c' → offloads mx c c'.

(** The host phase: the oldest entries go until the total fits. *)
Definition total_bytes (c : OfflineKVCache) : Z := (device_bytes c + host_bytes c)%Z.

Inductive evictions (limit : Z) : OfflineKVCache → OfflineKVCache → Prop :=
  | evictions_fit c : (total_bytes c ≤ limit)%Z → evictions limit c c
  | evictions_empty c : segments c = [] → evictions limit c c
  | evictions_step c sid r s rest c' :
      (limit < total_bytes c)%Z → segments c = (sid, r) :: rest → heap c !! r = Some s →
      evictions limit (uncount s (with_segments rest c)) c' → evictions limit c c'.

Definition device_phase (c c1 : OfflineKVCache) : Prop :=
  match max_device_bytes c with None => c1 = c | Some mx => offloads mx c c1 end.

Definition host_phase (c1 c2 : OfflineKVCache) : Prop :=
  match max_host_bytes c1 with
  | None => c2 = c1
  | Some mh => evictions (default 0 (max_device_bytes c1) + mh)%Z c1 c2
  end.

(** Both ceilings hold, or nothing is left to evict. *)
Definition settled (c : OfflineKVCache) : Prop :=
  (∀ mx, max_device_bytes c = Some mx → (device_bytes c ≤ mx)%Z) ∧
  (∀ mh, max_host_bytes c = Some mh →
     (total_bytes c ≤ default 0 (max_device_bytes c) + mh)%Z ∨ segments c = []).

(** * Accounting *)

Lemma tier_bytes_cons h b p d :
  tier_bytes h b (p :: d) = (seg_bytes h b p.2 + tier_bytes h b d)%Z.
Proof. done. Qed.

Lemma tier_bytes_app h b d1 d2 :
  tier_bytes h b (d1 ++ d2) = (tier_bytes h b d1 + tier_bytes h b d2)%Z.
Proof. unfold tier_bytes. by rewrite fmap_app, sumZ_app. Qed.

Lemma tier_bytes_perm h b d d' : d ≡ₚ d' → tier_bytes h b d = tier_bytes h b d'.
Proof. intros Hp. unfold tier_bytes. apply sumZ_perm. by rewrite Hp. Qed.

Lemma tier_bytes_frame h b r s d :
  Forall (fun p => p.2 ≠ r) d → tier_bytes (<[r := s]> h) b d = tier_bytes h b d.
Proof.
  induction 1 as [|p d Hp _ IH]; [done|]. rewrite !tier_bytes_cons, IH.
  unfold seg_bytes. by rewrite lookup_insert_ne.
Qed.

(** An entry of the dictionary, its object, and the rest of the entries, which
    refer to other objects. *)
Lemma entry_split c sid r :
  offline_inv c → od_get sid (segments c) = Some r →
  ∃ d1 d2 s, segments c = d1 ++ (sid, r) :: d2 ∧ sid ∉ od_keys d1 ∧ sid ∉ od_keys d2 ∧
    heap c !! r = Some s ∧ segment_id s = sid ∧ Forall (fun p => p.2 ≠ r) (d1 ++ d2).
Proof.
  intros Hc Hg. destruct (od_get_split _ _ _ (oi_keys c Hc) Hg) as (d1 & d2 & Hd & Hn1 & Hn2).
  destruct (oi_obj c Hc (sid, r)) as (s & Hs & Hid); [rewrite Hd; set_solver|]. simpl in *.
  exists d1, d2, s. do 5 (split; [done|]). apply Forall_forall. intros [k r'] Hp Heq. simpl in Heq.
  subst r'. destruct (oi_obj c Hc (k, r)) as (s' & Hs' & Hid'); [rewrite Hd; set_solver|].
  simpl in *. assert (k = sid) as -> by congruence.
  apply elem_of_app in Hp as [Hp|Hp]; [apply Hn1|apply Hn2]; apply list_elem_of_fmap; by exists (sid, r).
Qed.

Lemma relocate_heap sid r s d c :
  heap (relocate sid r s d c)
  = <[r := mkSeg (segment_id s) (token_ids s) (doc_len s) (move_kv d (kv s)) d (nbytes s)]> (heap c).
Proof. unfold relocate. by repeat case_match. Qed.

Lemma relocate_segments sid r s d c :
  segments (relocate sid r s d c) = od_move_to_end sid (segments c).
Proof. unfold relocate. by repeat case_match. Qed.

Lemma relocate_limits sid r s d c :
  max_device_bytes (relocate sid r s d c) = max_device_bytes c ∧
  max_host_bytes (relocate sid r s d c) = max_host_bytes c.
Proof. unfold relocate. by repeat case_match. Qed.

Lemma relocate_inv sid r s d c :
  offline_inv c → od_get sid (segments c) = Some r → heap c !! r = Some s →
  offline_inv (relocate sid r s d c).
Proof.
  intros Hc Hg Hs. destruct (entry_split c sid r Hc Hg) as (d1 & d2 & s0 & Hd & Hn1 & Hn2 & Hs0 & Hid & Hne).
  assert (s0 = s) as -> by congruence.
  assert (Hp : od_move_to_end sid (segments c) ≡ₚ segments c) by apply od_move_to_end_perm, Hc.
  split.
  - rewrite relocate_segments. eapply od_NoDup_perm; [symmetry; exact Hp|apply Hc].
  - intros r' s'. rewrite relocate_heap. intros [[<- <-]|[_ Hs']]%lookup_insert_Some;
      [exact (oi_bytes c Hc r s Hs)|exact (oi_bytes c Hc r' s' Hs')].
  - intros p Hin. rewrite relocate_segments, Hp in Hin. rewrite relocate_heap.
    destruct (oi_obj c Hc p Hin) as (sp & Hsp & Hidp).
    destruct (decide (p.2 = r)) as [Heq|Hr].
    + rewrite Heq in *. rewrite lookup_insert_eq. eexists. split; [done|]. simpl. congruence.
    + rewrite lookup_insert_ne by done. eauto.
  - rewrite relocate_segments, relocate_heap, (tier_bytes_perm _ _ _ _ Hp).
    pose proof (oi_device c Hc) as Hb. rewrite Hd, tier_bytes_app, tier_bytes_cons in *.
    apply Forall_app in Hne as [Hne1 Hne2]. rewrite !tier_bytes_frame by done. unfold seg_bytes in *.
    cbn [snd] in *. rewrite lookup_insert_eq, Hs in *. cbn [device nbytes]. unfold relocate.
    destruct (is_cuda (device s)), (is_cuda d); cbn [Bool.eqb andb negb with_bytes with_segments with_object device_bytes] in *; lia.
  - rewrite relocate_segments, relocate_heap, (tier_bytes_perm _ _ _ _ Hp).
    pose proof (oi_host c Hc) as Hb. rewrite Hd, tier_bytes_app, tier_bytes_cons in *.
    apply Forall_app in Hne as [Hne1 Hne2]. rewrite !tier_bytes_frame by done. unfold seg_bytes in *.
    cbn [snd] in *. rewrite lookup_insert_eq, Hs in *. cbn [device nbytes]. unfold relocate.
    destruct (is_cuda (device s)), (is_cuda d); cbn [Bool.eqb andb negb with_bytes with_segments with_object host_bytes] in *; lia.
Qed.

Lemma uncount_inv c sid r s :
  offline_inv c → od_get sid (segments c) = Some r → heap c !! r = Some s →
  offline_inv (uncount s (with_segments (od_del sid (segments c)) c)).
Proof.
  intros Hc Hg Hs. destruct (entry_split c sid r Hc Hg) as (d1 & d2 & s0 & Hd & Hn1 & Hn2 & Hs0 & Hid & Hne).
  assert (s0 = s) as -> by congruence.
  assert (Hdel : od_del sid (segments c) = d1 ++ d2) by (rewrite Hd; by apply od_del_mid).
  pose proof (oi_device c Hc) as Hb1. pose proof (oi_host c Hc) as Hb2.
  rewrite Hd, tier_bytes_app, tier_bytes_cons in Hb1, Hb2. unfold seg_bytes in Hb1, Hb2.
  cbn [snd] in *. rewrite Hs in *.
  unfold uncount. destruct (is_cuda (device s)) eqn:Hcu; cbn [Bool.eqb] in *;
    (split; cbn [with_bytes with_segments segments heap device_bytes host_bytes];
     [by apply od_del_keys, Hc
     |exact (oi_bytes c Hc)
     |intros p Hp; apply (oi_obj c Hc); rewrite Hdel in Hp; rewrite Hd; set_solver
     |rewrite Hdel, tier_bytes_app; lia
     |rewrite Hdel, tier_bytes_app; lia]).
Qed.

(** * The two loops meet the specification *)

Lemma filter_head {A} (P : A → Prop) `{∀ x, Decision (P x)} (l rest : list A) x :
  filter P l = x :: rest →
  ∃ l1 l2, l = l1 ++ x :: l2 ∧ Forall (fun y => ¬ P y) l1 ∧ P x ∧ filter P l2 = rest.
Proof.
  induction l as [|y l IH]; [done|]. rewrite filter_cons. case_decide as Hy.
  - intros [= -> Hr]. by exists [], l.
  - intros (l1 & l2 & -> & ? & ? & ?)%IH. exists (y :: l1), l2. eauto.
Qed.

Lemma no_residents c : offline_inv c → residents c = [] → device_bytes c = 0%Z.
Proof.
  intros Hc Hr. rewrite (oi_device c Hc). unfold residents in Hr. revert Hr.
  induction (segments c) as [|p d IH]; [done|]. intros Hr. rewrite filter_cons in Hr.
  rewrite tier_bytes_cons. case_decide as Hp; [done|]. rewrite IH by done.
  unfold on_cuda in Hp. unfold seg_bytes. destruct (heap c !! p.2); [|done].
  destruct (is_cuda _); [done|]. done.
Qed.

Lemma od_split_unique k r (d1 d2 e1 e2 : odict string Z) :
  d1 ++ (k, r) :: d2 = e1 ++ (k, r) :: e2 → k ∉ od_keys d1 → k ∉ od_keys e1 → d1 = e1 ∧ d2 = e2.
Proof.
  revert e1. induction d1 as [|p d1 IH]; intros [|q e1] He Hd1 He1; simpl in *.
  - by injection He as ->.
  - injection He as <- _. set_solver.
  - injection He as -> _. set_solver.
  - injection He as <- He. destruct (IH e1 He) as [-> ->]; set_solver.
Qed.

(** The oldest resident entry, and the state after it moves to the CPU. *)
Lemma first_resident c sid r rest :
  offline_inv c → residents c = (sid, r) :: rest →
  ∃ d1 d2 s, segments c = d1 ++ (sid, r) :: d2 ∧ heap c !! r = Some s ∧
    is_cuda (device s) = true ∧ od_get sid (segments c) = Some r ∧
    Forall (fun p => on_cuda (heap c) p = false) d1 ∧
    residents (relocate sid r s cpu c) = rest ∧
    segments (relocate sid r s cpu c) = d1 ++ d2 ++ [(sid, r)].
Proof.
  intros Hc Hr. destruct (filter_head _ _ _ _ Hr) as (d1 & d2 & Hd & H1 & Hx & H2).
  assert (Hg : od_get sid (segments c) = Some r).
  { apply od_get_elem; [apply Hc|]. rewrite Hd. set_solver. }
  destruct (entry_split c sid r Hc Hg) as (e1 & e2 & s & He & Hn1 & Hn2 & Hs & _ & Hne).
  assert (d1 = e1 ∧ d2 = e2) as [<- <-].
  { assert (Hk1 : sid ∉ od_keys d1).
    { pose proof (oi_keys c Hc) as Hnd. rewrite Hd in Hnd. unfold od_keys in *.
      rewrite fmap_app in Hnd. apply NoDup_app in Hnd as (_ & Hd' & _). intros Hk.
      apply (Hd' _ Hk). left. }
    apply (od_split_unique sid r); [congruence|done|done]. }
  assert (Hcuda : is_cuda (device s) = true) by (unfold on_cuda in Hx; simpl in Hx; by rewrite Hs in Hx).
  assert (Hd1 : Forall (fun p => on_cuda (heap c) p = false) d1).
  { eapply Forall_impl; [exact H1|]. intros p Hp. by apply not_true_is_false. }
  assert (Hmv : od_move_to_end sid (d1 ++ (sid, r) :: d2) = d1 ++ d2 ++ [(sid, r)]).
  { by apply od_move_to_end_mid. }
  exists d1, d2, s. do 5 (split; [done|]). rewrite relocate_segments, Hd. split; [|done].
  unfold residents. rewrite relocate_segments, Hd, Hmv, relocate_heap.
  set (h' := <[r := _]> (heap c)).
  assert (Hsame : ∀ p, p.2 ≠ r → on_cuda h' p = on_cuda (heap c) p).
  { intros p Hp. unfold on_cuda, h'. by rewrite lookup_insert_ne by done. }
  apply Forall_app in Hne as [Hne1 Hne2]. rewrite !filter_app.
  rewrite (filter_cons_False _ (sid, r) []), filter_nil, app_nil_r.
  2: { unfold on_cuda, h'. simpl. rewrite lookup_insert_eq. done. }
  rewrite <-H2.
  assert (Hf : filter (fun p => on_cuda h' p = true) d1 = []).
  { clear -Hd1 Hne1 Hsame. induction d1 as [|p d1 IH]; [done|].
    apply Forall_cons in Hd1 as [? ?]. apply Forall_cons in Hne1 as [? ?].
    rewrite filter_cons_False; [by apply IH|]. rewrite Hsame by done. congruence. }
  rewrite Hf. simpl. clear -Hne2 Hsame. induction d2 as [|p d2 IH]; [done|].
  apply Forall_cons in Hne2 as [? ?]. rewrite !filter_cons, IH by done.
  rewrite Hsame by done. done.
Qed.

Lemma device_loop_first off mx c d1 sid r d2 s :
  offline_inv c → (mx < device_bytes c)%Z → segments c = d1 ++ (sid, r) :: d2 →
  Forall (fun p => on_cuda (heap c) p = false) d1 → heap c !! r = Some s →
  is_cuda (device s) = true →
  device_loop off mx (od_keys (segments c)) c
  = do! c' <- off sid c; device_loop off mx (od_keys d2) c'.
Proof.
  intros Hc Hb Hd H1 Hs Hcu.
  assert (Hgen : ∀ l, (∀ p, p ∈ l → p ∈ segments c) → Forall (fun p => on_cuda (heap c) p = false) l →
    device_loop off mx (od_keys l ++ sid :: od_keys d2) c
    = do! c' <- off sid c; device_loop off mx (od_keys d2) c').
  { induction l as [|[k r'] l IH]; intros Hin Hl; simpl.
    - rewrite bool_decide_eq_false_2 by lia.
      rewrite (od_get_elem sid r _); [|apply Hc|rewrite Hd; set_solver].
      unfold deref. rewrite Hs. run_bind. by rewrite Hcu.
    - rewrite bool_decide_eq_false_2 by lia. apply Forall_cons in Hl as [Hk Hl].
      rewrite (od_get_elem k r' _); [|apply Hc|apply Hin; left].
      destruct (oi_obj c Hc (k, r')) as (s' & Hs' & _); [apply Hin; left|]. simpl in Hs'.
      unfold deref. rewrite Hs'. run_bind. unfold on_cuda in Hk. simpl in Hk. rewrite Hs' in Hk.
      rewrite Hk. run_bind. apply IH; [intros p Hp; apply Hin; by right|done]. }
  rewrite Hd. unfold od_keys at 1. rewrite fmap_app, fmap_cons. apply Hgen; [|done].
  intros p Hp. rewrite Hd. set_solver.
Qed.

Lemma host_loop_spec limit c :
  offline_inv c →
  ∃ c', host_loop limit (od_keys (segments c)) c = Ok c' ∧ evictions limit c c' ∧ offline_inv c' ∧
    heap c' = heap c ∧ max_device_bytes c' = max_device_bytes c ∧
    max_host_bytes c' = max_host_bytes c ∧ (device_bytes c' ≤ device_bytes c)%Z ∧
    ((total_bytes c' ≤ limit)%Z ∨ segments c' = []).
Proof.
  intros Hc. remember (segments c) as d eqn:Hd. revert c Hc Hd.
  induction d as [|[sid r] d IH]; intros c Hc Hd; simpl.
  { exists c. split; [done|]. split; [by apply evictions_empty|]. do 4 (split; [done|]). split; [lia|first [by left|by right]]. }
  case_bool_decide as Hle.
  { exists c. split; [done|]. split; [by apply evictions_fit|]. do 4 (split; [done|]). split; [lia|first [by left|by right]]. }
  rewrite <-Hd. assert (Hg : od_get sid (segments c) = Some r) by (rewrite <-Hd; simpl; by rewrite decide_True).
  destruct (oi_obj c Hc (sid, r)) as (s & Hs & _); [rewrite <-Hd; left|]. simpl in Hs.
  simpl. rewrite decide_True by done. unfold deref. rewrite Hs. run_bind.
  pose proof (uncount_inv c sid r s Hc Hg Hs) as Hc'. rewrite <-Hd in Hc'. simpl in Hc'.
  rewrite decide_True in Hc' by done.
  set (c1 := uncount s (with_segments d c)) in *.
  assert (Hd1 : d = segments c1) by (unfold c1, uncount; by case_match).
  destruct (IH c1 Hc' Hd1) as (c' & Hf & Hev & Hi & Hh & Hm1 & Hm2 & Hdb & Hend).
  exists c'. split; [rewrite decide_True by done; exact Hf|]. split.
  { eapply evictions_step; [|symmetry; exact Hd|exact Hs|exact Hev]. unfold total_bytes. lia. }
  assert (Hdb1 : (device_bytes c1 ≤ device_bytes c)%Z).
  { pose proof (oi_bytes c Hc r s Hs). unfold c1, uncount. case_match; simpl; lia. }
  split; [done|]. rewrite Hh, Hm1, Hm2. do 3 (split; [unfold c1, uncount; by case_match|]).
  split; [lia|done].
Qed.

Lemma evictions_shrink limit c c' :
  evictions limit c c' → heap c' = heap c ∧ ∃ gone, segments c = gone ++ segments c'.
Proof.
  induction 1 as [c _|c _|c sid r s rest c' _ Hd Hs _ [IHh [gone IHd]]]; [by (split; [|exists []])..|].
  assert (Hh : heap (uncount s (with_segments rest c)) = heap c) by (unfold uncount; by case_match).
  assert (Hr : segments (uncount s (with_segments rest c)) = rest) by (unfold uncount; by case_match).
  split; [congruence|]. exists ((sid, r) :: gone). rewrite Hd. simpl. congruence.
Qed.

(** A settled state is left alone. *)
Lemma host_settled c :
  settled c →
  match max_host_bytes c with
  | None => Ok c
  | Some mh => host_loop (default 0 (max_device_bytes c) + mh)%Z (od_keys (segments c)) c
  end = Ok c.
Proof.
  intros [_ Hs]. destruct (max_host_bytes c) as [mh|] eqn:Hm; [|done].
  destruct (Hs mh eq_refl) as [Hle| ->]; [|done].
  destruct (od_keys (segments c)); [done|]. simpl. by rewrite bool_decide_eq_true_2.
Qed.

Lemma device_settled off mx keys c : (device_bytes c ≤ mx)%Z → device_loop off mx keys c = Ok c.
Proof. intros. destruct keys; [done|]. simpl. by rewrite bool_decide_eq_true_2. Qed.

(** When the device tier fits, only the host phase runs. *)
Lemma enforce_host off c :
  offline_inv c → (∀ mx, max_device_bytes c = Some mx → (device_bytes c ≤ mx)%Z) →
  ∃ c', enforce_with off c = Ok c' ∧ host_phase c c' ∧ offline_inv c' ∧ heap c' = heap c ∧
    max_device_bytes c' = max_device_bytes c ∧ max_host_bytes c' = max_host_bytes c ∧ settled c'.
Proof.
  intros Hc Hfit. unfold enforce_with, host_phase.
  assert (Hd : match max_device_bytes c with
               | Some mx => device_loop off mx (od_keys (segments c)) c | None => Ok c end = Ok c).
  { destruct (max_device_bytes c) as [mx|]; [|done]. by apply device_settled, Hfit. }
  rewrite Hd. run_bind. destruct (max_host_bytes c) as [mh|] eqn:Hm.
  2: { exists c. do 6 (split; [done|]). split; [done|]. intros mh. by rewrite Hm. }
  destruct (host_loop_spec (default 0 (max_device_bytes c) + mh)%Z c Hc)
    as (c' & Hf & Hev & Hc' & Hh & Hm1 & Hm2 & Hdb & Hend).
  exists c'. do 5 (split; [done|]). split; [congruence|]. split.
  - intros mx Hmx. rewrite Hm1 in Hmx. specialize (Hfit mx Hmx). lia.
  - intros mh' Hmh. rewrite Hm1. rewrite Hm2, Hm in Hmh. injection Hmh as <-. exact Hend.
Qed.

Lemma enforce_fits fuel c :
  offline_inv c → (∀ mx, max_device_bytes c = Some mx → (device_bytes c ≤ mx)%Z) →
  ∃ c1 c', _enforce_limits fuel c = Ok c' ∧ device_phase c c1 ∧ offline_inv c1 ∧
    host_phase c1 c' ∧ offline_inv c' ∧ heap c' = heap c1 ∧
    max_device_bytes c' = max_device_bytes c ∧ max_host_bytes c' = max_host_bytes c ∧ settled c'.
Proof.
  intros Hc Hfit. destruct (enforce_host (fun sid c => do! x <- to_device fuel sid cpu c; Ok x.1) c Hc Hfit)
    as (c' & He & Hhp & Hi & Hh & Hm1 & Hm2 & Hset).
  exists c, c'. split; [exact He|]. split; [|by eauto 10].
  unfold device_phase. destruct (max_device_bytes c) as [mx|]; [|done]. by apply offloads_done, Hfit.
Qed.

(** With as much fuel as there are device-resident entries, enforcing the
    limits returns: the device phase, then the host phase. *)
Lemma enforce_spec fuel c :
  offline_inv c → length (residents c) ≤ fuel →
  (∀ mx, max_device_bytes c = Some mx → (0 ≤ mx)%Z) →
  ∃ c1 c', _enforce_limits fuel c = Ok c' ∧ device_phase c c1 ∧ offline_inv c1 ∧
    host_phase c1 c' ∧ offline_inv c' ∧ heap c' = heap c1 ∧
    max_device_bytes c' = max_device_bytes c ∧ max_host_bytes c' = max_host_bytes c ∧ settled c'.
Proof.
  revert c. induction fuel as [|fuel IH]; intros c Hc Hlen Hmx.
  { apply enforce_fits; [done|]. intros mx Hm.
    rewrite (no_residents c Hc); [by apply Hmx|]. apply nil_length_inv. lia. }
  destruct (max_device_bytes c) as [mx|] eqn:Hm; rewrite <-Hm in *; [|apply enforce_fits; congruence].
  destruct (decide (device_bytes c ≤ mx)%Z) as [Hle|Hgt]; [apply enforce_fits; congruence|].
  destruct (residents c) as [|[sid r] rest] eqn:Hr.
  { pose proof (no_residents c Hc Hr). specialize (Hmx mx Hm). lia. }
  destruct (first_resident c sid r rest Hc Hr) as (d1 & d2 & s & Hd & Hs & Hcu & Hg & Hd1 & Hr' & _).
  destruct (relocate_limits sid r s cpu c) as [Hl1 Hl2].
  destruct (IH (relocate sid r s cpu c)) as (c1 & c' & He & Hdp & Hi1 & Hhp & Hi' & Hh & Hm1 & Hm2 & Hset).
  { by apply relocate_inv. }
  { rewrite Hr'. simpl in Hlen. lia. }
  { by rewrite Hl1. }
  exists c1, c'. rewrite Hl1 in Hm1. rewrite Hl2 in Hm2.
  assert (Hdev : device_phase c c1).
  { unfold device_phase in *. rewrite Hm. rewrite Hl1, Hm in Hdp. eapply offloads_step; eauto. lia. }
  split; [|by eauto 15]. unfold _enforce_limits, enforce_with. rewrite Hm.
  rewrite (device_loop_first _ mx c d1 sid r d2 s) by (done || lia).
  assert (Hoff : to_device (S fuel) sid cpu c = Ok (c', Some r)).
  { simpl. rewrite Hg. unfold deref. rewrite Hs. run_bind. rewrite bool_decide_eq_false_2.
    - unfold _enforce_limits in He. rewrite He. done.
    - intros Heq. rewrite Heq in Hcu. done. }
  rewrite Hoff. run_bind. cbn [fst].
  rewrite device_settled by (apply (proj1 Hset); congruence). run_bind. by apply host_settled.
Qed.

(** * Operations *)

Lemma residents_bound c : length (residents c) ≤ length (segments c).
Proof. apply length_filter. Qed.

Lemma move_to_end_inv c sid :
  offline_inv c → offline_inv (with_segments (od_move_to_end sid (segments c)) c).
Proof.
  intros Hc. pose proof (od_move_to_end_perm sid (segments c) (oi_keys c Hc)) as Hp.
  split; cbn [with_segments segments heap device_bytes host_bytes].
  - eapply od_NoDup_perm; [symmetry; exact Hp|apply Hc].
  - apply Hc.
  - intros p. rewrite Hp. apply Hc.
  - rewrite (tier_bytes_perm _ _ _ _ Hp). apply Hc.
  - rewrite (tier_bytes_perm _ _ _ _ Hp). apply Hc.
Qed.

(** The state [put] enforces the limits on: the new entry is the most recent. *)
Definition inserted (r : Z) (s : OfflineSegment) (c : OfflineKVCache) : OfflineKVCache :=
  let c1 := with_segments (segments c ++ [(segment_id s, r)]) c in
  if is_cuda (device s) then with_bytes (device_bytes c + nbytes s) (host_bytes c) c1
  else with_bytes (device_bytes c) (host_bytes c + nbytes s) c1.

Lemma inserted_inv r s c :
  offline_inv c → heap c !! r = Some s → segment_id s ∉ od_keys (segments c) →
  offline_inv (inserted r s c).
Proof.
  intros Hc Hs Hnew. unfold inserted. destruct (is_cuda (device s)) eqn:Hcu;
    (split; cbn [with_bytes with_segments segments heap device_bytes host_bytes];
     [unfold od_keys in *; rewrite fmap_app; apply NoDup_app;
        split; [apply Hc|]; split; [set_solver|apply NoDup_singleton]
     |apply Hc
     |intros p [Hp|Hp%list_elem_of_singleton]%elem_of_app; [by apply Hc|subst p; by exists s]
     |rewrite tier_bytes_app, tier_bytes_cons, (oi_device c Hc); unfold seg_bytes; cbn [snd];
        rewrite Hs, Hcu; unfold tier_bytes; simpl; lia
     |rewrite tier_bytes_app, tier_bytes_cons, (oi_host c Hc); unfold seg_bytes; cbn [snd];
        rewrite Hs, Hcu; unfold tier_bytes; simpl; lia]).
Qed.

Lemma put_eq fuel r s c :
  heap c !! r = Some s →
  put fuel r c =
  if od_mem (segment_id s) (segments c)
  then Ok (with_segments (od_move_to_end (segment_id s) (segments c)) c)
  else _enforce_limits fuel (inserted r s c).
Proof.
  intros Hs. unfold put, deref. rewrite Hs. run_bind. destruct (od_mem _ _) eqn:Hm; [done|].
  assert (Hnew : segment_id s ∉ od_keys (segments c)).
  { rewrite <-od_mem_true. congruence. }
  rewrite od_set_new by done. done.
Qed.

(** The ceilings are not negative. *)
Definition limits_ok (c : OfflineKVCache) : Prop :=
  ∀ mx, max_device_bytes c = Some mx → (0 ≤ mx)%Z.

Lemma to_device_eq fuel sid d c r s :
  od_get sid (segments c) = Some r → heap c !! r = Some s → device s ≠ d →
  to_device (S fuel) sid d c
  = do! c' <- _enforce_limits fuel (relocate sid r s d c); Ok (c', Some r).
Proof.
  intros Hg Hs Hne. simpl. rewrite Hg. unfold deref. rewrite Hs. run_bind.
  by rewrite bool_decide_eq_false_2.
Qed.

Lemma to_device_spec fuel sid d c r s :
  offline_inv c → limits_ok c → od_get sid (segments c) = Some r → heap c !! r = Some s →
  device s ≠ d → length (segments c) ≤ fuel →
  ∃ c1 c', to_device (S fuel) sid d c = Ok (c', Some r) ∧
    device_phase (relocate sid r s d c) c1 ∧ host_phase c1 c' ∧ heap c' = heap c1 ∧
    offline_inv c1 ∧ offline_inv c' ∧ settled c'.
Proof.
  intros Hc Hl Hg Hs Hne Hfuel. rewrite (to_device_eq _ _ _ _ _ _ Hg Hs Hne).
  destruct (relocate_limits sid r s d c) as [Hl1 _].
  destruct (enforce_spec fuel (relocate sid r s d c)) as (c1 & c' & He & ?); [by apply relocate_inv| |unfold limits_ok in Hl; by rewrite Hl1|].
  { etrans; [apply residents_bound|]. rewrite relocate_segments.
    by rewrite (Permutation_length (od_move_to_end_perm sid _ (oi_keys c Hc))). }
  exists c1, c'. rewrite He. naive_solver.
Qed.

Lemma drop_inv sid c :
  offline_inv c → ∃ c', drop_segment sid c = Ok c' ∧ offline_inv c'.
Proof.
  intros Hc. unfold drop_segment. destruct (od_get sid (segments c)) as [r|] eqn:Hg; [|eauto].
  destruct (entry_split c sid r Hc Hg) as (_ & _ & s & _ & _ & _ & Hs & _). unfold deref. rewrite Hs.
  eexists. split; [done|]. by eapply uncount_inv.
Qed.

Lemma get_inv sid c : offline_inv c → ∃ c' o, get sid c = Ok (c', o) ∧ offline_inv c'.
Proof.
  intros Hc. unfold get. destruct (od_get sid (segments c)) as [r|] eqn:Hg; [|eauto].
  destruct (entry_split c sid r Hc Hg) as (_ & _ & s & _ & _ & _ & Hs & Hid & _).
  unfold deref. rewrite Hs. run_bind. unfold od_mem. rewrite Hid, Hg.
  do 2 eexists. split; [done|]. by apply move_to_end_inv.
Qed.

(** * Reachable states

    A step builds a segment object, or runs one operation with fuel for its
    recursion. *)
Inductive offline_step : OfflineKVCache → OfflineKVCache → Prop :=
  | step_build c r s sid toks l :
      heap c !! r = None → build_offline_segment sid toks l = Ok s →
      offline_step c (with_object r s c)
  | step_put c r fuel c' :
      length (segments c) < fuel → put fuel r c = Ok c' → offline_step c c'
  | step_get c sid c' o : get sid c = Ok (c', o) → offline_step c c'
  | step_drop c sid c' : drop_segment sid c = Ok c' → offline_step c c'
  | step_to_device c sid d fuel c' o :
      length (segments c) < fuel → to_device fuel sid d c = Ok (c', o) → offline_step c c'
  | step_clear c : offline_step c (clear c).

Definition bytes_nonneg : Prop := ∀ t, (0 ≤ tensor_bytes t)%Z.

Lemma build_nonneg sid toks l s :
  bytes_nonneg → build_offline_segment sid toks l = Ok s → (0 ≤ nbytes s)%Z.
Proof.
  intros Hb H. unfold build_offline_segment in H. case_bool_decide; [|done].
  destruct (list_find _ l) as [[i [[k|] v]]|]; try done. injection H as <-. simpl.
  unfold kv_nbytes. apply sumZ_nonneg. apply Forall_fmap, Forall_true.
  intros [[k'|] [v'|]]; simpl; try done. pose proof (Hb k'). pose proof (Hb v'). lia.
Qed.

Lemma build_keeps c r s :
  offline_inv c → heap c !! r = None → (0 ≤ nbytes s)%Z → offline_inv (with_object r s c).
Proof.
  intros Hc Hr Hb.
  assert (Hfr : Forall (fun p => p.2 ≠ r) (segments c)).
  { apply Forall_forall. intros p Hp <-. destruct (oi_obj c Hc p Hp) as (? & ? & _). congruence. }
  split; cbn [with_object segments heap device_bytes host_bytes]; rewrite ?tier_bytes_frame by done;
    try apply Hc.
  - intros r' s' [[<- <-]|[_ Hs']]%lookup_insert_Some; [done|by apply (oi_bytes c Hc r')].
  - intros p Hp. rewrite lookup_insert_ne; [by apply Hc|].
    rewrite Forall_forall in Hfr. intros ->. by apply (Hfr p).
Qed.

Lemma put_new_spec fuel r s c :
  offline_inv c → limits_ok c → heap c !! r = Some s → od_mem (segment_id s) (segments c) = false →
  length (segments c) < fuel →
  ∃ c1 c', put fuel r c = Ok c' ∧ device_phase (inserted r s c) c1 ∧ host_phase c1 c' ∧
    offline_inv c' ∧ settled c' ∧ limits_ok c'.
Proof.
  intros Hc Hl Hs Hm Hf. rewrite (put_eq _ _ _ _ Hs), Hm.
  assert (Hins : offline_inv (inserted r s c)).
  { apply inserted_inv; [done..|]. rewrite <-od_mem_true. congruence. }
  assert (Hlim : max_device_bytes (inserted r s c) = max_device_bytes c)
    by (unfold inserted; by case_match).
  assert (Hsg : segments (inserted r s c) = segments c ++ [(segment_id s, r)])
    by (unfold inserted; by case_match).
  destruct (enforce_spec fuel (inserted r s c))
    as (c1 & c2 & He & Hdp & _ & Hhp & Hi & _ & Hm1 & _ & Hset); [done| |by rewrite Hlim|].
  { etrans; [apply residents_bound|]. rewrite Hsg, length_app. simpl. lia. }
  exists c1, c2. do 5 (split; [done|]). unfold limits_ok. by rewrite Hm1, Hlim.
Qed.

Lemma to_device_keeps fuel sid d c c' o :
  offline_inv c → limits_ok c → length (segments c) < fuel → to_device fuel sid d c = Ok (c', o) →
  offline_inv c' ∧ limits_ok c'.
Proof.
  intros Hc Hl Hf Hto. destruct fuel as [|fuel]; [lia|]. simpl in Hto.
  destruct (od_get sid (segments c)) as [r|] eqn:Hg; [|by injection Hto as <- _].
  destruct (entry_split c sid r Hc Hg) as (_ & _ & s & _ & _ & _ & Hs & _).
  unfold deref in Hto. rewrite Hs in Hto. run_bind. case_bool_decide as Hd.
  { injection Hto as <- _. split; [by apply move_to_end_inv|done]. }
  unbind Hto as c2 He. injection Hto as <- _.
  destruct (relocate_limits sid r s d c) as [Hl1 _].
  destruct (enforce_spec fuel (relocate sid r s d c)) as (c1 & c3 & He' & _ & _ & _ & Hi & _ & Hm1 & _);
    [by apply relocate_inv| |unfold limits_ok in Hl; by rewrite Hl1|].
  { etrans; [apply residents_bound|]. rewrite relocate_segments.
    rewrite (Permutation_length (od_move_to_end_perm sid _ (oi_keys c Hc))). lia. }
  unfold _enforce_limits in He'. rewrite He' in He. injection He as <-.
  split; [done|]. unfold limits_ok. by rewrite Hm1, Hl1.
Qed.

Lemma step_keeps c c' :
  bytes_nonneg → offline_step c c' → offline_inv c ∧ limits_ok c → offline_inv c' ∧ limits_ok c'.
Proof.
  intros Hb Hstep [Hc Hl]. destruct Hstep as [c r s sid toks l Hr Hbuild|c r fuel c' Hf Hput
    |c sid c' o Hget|c sid c' Hdrop|c sid d fuel c' o Hf Hto|c].
  - split; [|done]. apply build_keeps; [done..|]. by eapply build_nonneg.
  - destruct (heap c !! r) as [s|] eqn:Hs; [|unfold put, deref in Hput; by rewrite Hs in Hput].
    destruct (od_mem (segment_id s) (segments c)) eqn:Hm.
    + rewrite (put_eq _ _ _ _ Hs), Hm in Hput. injection Hput as <-.
      split; [by apply move_to_end_inv|done].
    + destruct (put_new_spec fuel r s c) as (? & c2 & Hp & _ & _ & ? & _ & ?); try done.
      rewrite Hp in Hput. by injection Hput as <-.
  - destruct (get_inv sid c Hc) as (c2 & o2 & Hg2 & Hi). rewrite Hg2 in Hget. injection Hget as <- <-.
    split; [done|]. unfold get in Hg2. destruct (od_get sid (segments c)); [|by injection Hg2 as <-].
    bind_inv Hg2. case_match; [|done]. by injection Hg2 as <-.
  - destruct (drop_inv sid c Hc) as (c2 & Hd2 & Hi). rewrite Hd2 in Hdrop. injection Hdrop as <-.
    split; [done|]. unfold drop_segment in Hd2. destruct (od_get sid (segments c)); [|by injection Hd2 as <-].
    bind_inv Hd2. injection Hd2 as <-. unfold uncount. by case_match.
  - by eapply to_device_keeps.
  - split; [|done]. split; simpl; [constructor|apply Hc|set_solver|done|done].
Qed.

Lemma new_offline_inv md mh : offline_inv (new_offline md mh).
Proof. split; simpl; [constructor|done|set_solver|done|done]. Qed.

(** C34: In every state any sequence of operations reaches from an empty cache,
    the two running totals are the byte sums of the segments on each tier, keys
    are unique and each key is the id of the segment it maps to. *)
Theorem offline_accounting md mh c :
  bytes_nonneg → limits_ok (new_offline md mh) →
  rtc offline_step (new_offline md mh) c →
  NoDup (od_keys (segments c)) ∧
  (∀ p, p ∈ segments c → ∃ s, heap c !! p.2 = Some s ∧ segment_id s = p.1) ∧
  device_bytes c = tier_bytes (heap c) true (segments c) ∧
  host_bytes c = tier_bytes (heap c) false (segments c).
Proof.
  intros Hb Hl Hr. assert (Hi : offline_inv c ∧ limits_ok c).
  { remember (new_offline md mh) as c0 eqn:H0. assert (Hi0 : offline_inv c0 ∧ limits_ok c0).
    { subst c0. split; [apply new_offline_inv|done]. }
    clear H0 Hl. induction Hr as [|c0 c1 c2 Hs _ IH]; [done|]. by apply IH, (step_keeps c0). }
  destruct Hi as [[] _]. done.
Qed.

(** ** Residency *)

Lemma tier_residents h d :
  tier_bytes h true d = tier_bytes h true (filter (fun p => on_cuda h p = true) (d : list (string * Z))).
Proof.
  induction d as [|p d IH]; [done|]. rewrite tier_bytes_cons, filter_cons, IH.
  case_decide as Hp; [done|]. unfold on_cuda in Hp. unfold seg_bytes.
  destruct (h !! p.2); [|done]. by destruct (is_cuda _).
Qed.

Lemma tier_nonneg c b d :
  offline_inv c → (0 ≤ tier_bytes (heap c) b d)%Z.
Proof.
  intros Hc. apply sumZ_nonneg, Forall_fmap, Forall_true. intros p. simpl. unfold seg_bytes.
  destruct (heap c !! p.2) as [s|] eqn:Hs; [|done]. case_match; [|done]. by apply (oi_bytes c Hc p.2).
Qed.

(** A segment after its tensors were copied to [d]. *)
Definition moved (d : Device) (s : OfflineSegment) : OfflineSegment :=
  mkSeg (segment_id s) (token_ids s) (doc_len s) (move_kv d (kv s)) d (nbytes s).

(** The other residents are other objects. *)
Lemma rest_refs c sid r rest : offline_inv c → residents c = (sid, r) :: rest → Forall (fun p => p.2 ≠ r) rest.
Proof.
  intros Hc Hr. assert (Hin : ∀ p, p ∈ residents c → p ∈ segments c) by (intros p Hp; by apply list_elem_of_filter in Hp as [_ ?]).
  assert (Hg : od_get sid (segments c) = Some r) by (apply od_get_elem; [apply Hc|]; apply Hin; rewrite Hr; left).
  destruct (entry_split c sid r Hc Hg) as (d1 & d2 & s & Hd & _ & _ & _ & _ & Hne). rewrite Forall_forall in Hne.
  assert (Hnd : NoDup (residents c)) by (apply NoDup_filter; eapply NoDup_fmap_1, Hc). rewrite Hr in Hnd, Hin. apply NoDup_cons in Hnd as [Hni _].
  apply Forall_forall. intros p Hp. apply Hne. specialize (Hin p ltac:(by right)). rewrite Hd in Hin.
  apply elem_of_app in Hin as [|[->|]%elem_of_cons]; [apply elem_of_app; by left|done|apply elem_of_app; by right].
Qed.

(** The heap after the segments [gone] were moved to the CPU. *)
Definition offloaded (gone : list (string * Z)) (h h' : gmap Z OfflineSegment) : Prop :=
  ∀ x, h' !! x = if decide (x ∈ gone.*2) then moved cpu <$> h !! x else h !! x.

(** The device phase moves the oldest residents to the CPU, no more than the ceiling demands. *)
Lemma offloads_lru mx c c1 :
  offline_inv c → offloads mx c c1 →
  ∃ k, residents c1 = drop k (residents c) ∧ segments c1 ≡ₚ segments c ∧ total_bytes c1 = total_bytes c ∧
    max_device_bytes c1 = max_device_bytes c ∧ max_host_bytes c1 = max_host_bytes c ∧
    (∀ j, j < k → (mx < tier_bytes (heap c) true (drop j (residents c)))%Z) ∧ offloaded (take k (residents c)) (heap c) (heap c1).
Proof.
  intros Hc Hoff. revert Hc. induction Hoff as [c Hle|c sid r s rest c' Hgt Hr Hs Hoff IH]; intros Hc.
  { exists 0. rewrite take_0. split_and!; try done; lia. }
  destruct (first_resident c sid r rest Hc Hr) as (d1 & d2 & s1 & Hd & Hs1 & Hcu & Hg & _ & Hr' & _). assert (s1 = s) as -> by congruence.
  destruct (IH (relocate_inv sid r s cpu c Hc Hg Hs)) as (k & Hk & Hseg & Htot & Hm1 & Hm2 & Hmin & Hheap). clear IH.
  pose proof (rest_refs c sid r rest Hc Hr) as Hne. destruct (relocate_limits sid r s cpu c) as [L1 L2]. rewrite Hr' in *. rewrite relocate_heap in Hmin, Hheap.
  exists (S k). rewrite Hr. cbn [drop take]. rewrite relocate_segments, (od_move_to_end_perm sid _ (oi_keys c Hc)) in Hseg. split_and!; try done; try congruence.
  - rewrite Htot. unfold relocate, total_bytes. rewrite Hcu. change (is_cuda cpu) with false.
    cbn [andb negb with_bytes with_segments with_object device_bytes host_bytes]. lia.
  - intros [|j] Hj; cbn [drop].
    + rewrite <-Hr. unfold residents. by rewrite <-tier_residents, <-(oi_device c Hc).
    + specialize (Hmin j ltac:(lia)). rewrite tier_bytes_frame in Hmin; [done|]. by apply Forall_drop.
  - intros x. rewrite Hheap, fmap_cons. cbn [snd]. destruct (decide (x = r)) as [->|Hx].
    + rewrite decide_False, decide_True by (by left || (intros (p & Hp & Hin)%list_elem_of_fmap; rewrite Forall_forall in Hne; apply (Hne p); [|done];
        rewrite <-(take_drop k rest); apply elem_of_app; by left)). by rewrite lookup_insert_eq, Hs.
    + rewrite lookup_insert_ne by done. repeat case_decide; try done; set_solver.
Qed.


(** The most recent device segment survives the device phase if it fits alone. *)
Lemma offloads_last mx c c1 pre sid r s :
  offline_inv c → (0 ≤ mx)%Z → residents c = pre ++ [(sid, r)] → heap c !! r = Some s →
  offloads mx c c1 →
  heap c1 !! r = Some (if bool_decide (nbytes s ≤ mx)%Z then s else moved cpu s).
Proof.
  intros Hc Hmx Hr Hs Hoff. revert pre Hc Hr Hs.
  induction Hoff as [c Hle|c sid0 r0 s0 rest c' Hgt Hr0 Hs0 Hoff IH]; intros pre Hc Hr Hs.
  - assert (Hcu : is_cuda (device s) = true).
    { assert (Hin : (sid, r) ∈ residents c) by (rewrite Hr; set_solver).
      apply list_elem_of_filter in Hin as [Hin _]. unfold on_cuda in Hin. simpl in Hin. by rewrite Hs in Hin. }
    rewrite (oi_device c Hc), tier_residents in Hle. fold (residents c) in Hle.
    rewrite Hr, tier_bytes_app, tier_bytes_cons in Hle. unfold seg_bytes in Hle at 1. simpl in Hle.
    rewrite Hs, Hcu in Hle. pose proof (tier_nonneg c true pre Hc). unfold tier_bytes in Hle at 2.
    simpl in Hle. rewrite bool_decide_eq_true_2 by lia. done.
  - destruct (first_resident c sid0 r0 rest Hc Hr0) as (d1 & d2 & s1 & Hd & Hs1 & Hcu & Hg & _ & Hr' & _).
    assert (s1 = s0) as -> by congruence.
    assert (Hc' : offline_inv (relocate sid0 r0 s0 cpu c)) by by apply relocate_inv.
    rewrite Hr0 in Hr. destruct pre as [|p pre]; simpl in Hr.
    + injection Hr as -> -> ->. assert (s0 = s) as -> by congruence.
      rewrite (oi_device c Hc), tier_residents in Hgt. fold (residents c) in Hgt.
      rewrite Hr0, tier_bytes_cons in Hgt. unfold seg_bytes, tier_bytes in Hgt. simpl in Hgt.
      rewrite Hs, Hcu in Hgt. simpl in Hgt. rewrite bool_decide_eq_false_2 by lia.
      pose proof (no_residents _ Hc' Hr') as H0. inversion Hoff; subst; [|lia].
      rewrite relocate_heap. by rewrite lookup_insert_eq.
    + injection Hr as Hp Hrest. apply (IH pre); [done|by rewrite Hr'|].
      rewrite relocate_heap, lookup_insert_ne; [done|]. intros ->.
      destruct (oi_obj c Hc (sid, r)) as (s' & Hs' & Hid); [|].
      { assert (Hin : (sid, r) ∈ residents c) by (rewrite Hr0, Hrest; set_solver).
        by apply list_elem_of_filter in Hin as [_ ?]. }
      destruct (entry_split c sid0 r Hc Hg) as (e1 & e2 & s2 & He & He1 & He2 & Hs2 & Hid2 & Hne).
      simpl in *. assert (sid = sid0) as -> by congruence.
      pose proof (oi_keys c Hc) as Hnd.
      assert (Hnr : NoDup (residents c)).
      { apply NoDup_filter. by eapply NoDup_fmap_1. }
      rewrite Hr0, Hrest in Hnr. apply NoDup_cons in Hnr as [Hni _]. set_solver.
Qed.

(** After [to_device sid d] for a CUDA device under a device ceiling, the
    segment is on [d] with its tensors copied there exactly when it fits under
    the ceiling by itself; otherwise the call returns it offloaded to the CPU. *)
Theorem to_device_residency fuel sid d c r s mx :
  offline_inv c → max_device_bytes c = Some mx → (0 ≤ mx)%Z →
  od_get sid (segments c) = Some r → heap c !! r = Some s → device s ≠ d → is_cuda d = true →
  length (segments c) ≤ fuel →
  ∃ c', to_device (S fuel) sid d c = Ok (c', Some r) ∧
    heap c' !! r = Some (if bool_decide (nbytes s ≤ mx)%Z then moved d s else moved cpu (moved d s)) ∧
    settled c'.
Proof.
  intros Hc Hm Hmx Hg Hs Hne Hcu Hf.
  destruct (to_device_spec fuel sid d c r s) as (c1 & c' & Hto & Hdp & _ & Hh & _ & _ & Hset); try done.
  { intros mx' Hm'. congruence. }
  exists c'. split; [done|]. split; [|done]. rewrite Hh.
  destruct (relocate_limits sid r s d c) as [Hl _].
  unfold device_phase in Hdp. rewrite Hl, Hm in Hdp.
  destruct (entry_split c sid r Hc Hg) as (d1 & d2 & s0 & Hd & Hn1 & _).
  apply (offloads_last mx _ c1 (filter (fun p => on_cuda (heap (relocate sid r s d c)) p = true) (d1 ++ d2))
           sid r (moved d s)) in Hdp; [exact Hdp|by apply relocate_inv|done| |].
  - unfold residents. rewrite relocate_segments, Hd, od_move_to_end_mid by done.
    rewrite app_assoc, filter_app, (filter_cons_True _ (sid, r)); [done|].
    unfold on_cuda. rewrite relocate_heap. simpl. by rewrite lookup_insert_eq.
  - rewrite relocate_heap. by rewrite lookup_insert_eq.
Qed.

End offline.

(** * Witnesses and scenarios

    Tensors are a device and a byte count. *)

Definition tens : Type := Device * Z.
Definition tens_to (d : Device) (t : tens) : tens := (d, t.2).
Definition cuda0 : Device := mkDevice "cuda" (Some 0%Z).

(** A one-layer segment of [2 * n] bytes on device [d]. *)
Definition seg_of (sid : string) (d : Device) (n : Z) : OfflineSegment :=
  mkSeg sid [] 0 [(Some (d, n), Some (d, n))] d (2 * n).

Definition demo_cache (md mh : option Z) : OfflineKVCache :=
  with_object 3 (seg_of "c" cuda0 10)
    (with_object 2 (seg_of "b" cuda0 10)
      (with_object 1 (seg_of "a" cuda0 10) (new_offline md mh))).

Lemma demo_cache_inv md mh : @offline_inv tens (demo_cache md mh).
Proof.
  unfold demo_cache. repeat apply build_keeps; try done. apply new_offline_inv.
Qed.

(** A segment is built and stored. *)
Lemma offline_accounting_witness :
  let c := inserted 1 (seg_of "a" cpu 5) (with_object 1 (seg_of "a" cpu 5) (new_offline (Some 100%Z) None)) in
  host_bytes c = 10%Z ∧ NoDup (od_keys (segments c)) ∧
  (∀ p, p ∈ segments c → ∃ s, heap c !! p.2 = Some s ∧ segment_id s = p.1) ∧
  device_bytes c = tier_bytes (T:=tens) (heap c) true (segments c) ∧
  host_bytes c = tier_bytes (heap c) false (segments c).
Proof.
  split; [reflexivity|].
  apply (offline_accounting (fst : tens → Device) (fun t : tens => Z.abs t.2) tens_to (Some 100%Z) None).
  - intros t. lia.
  - intros mx [= <-]. lia.
  - eapply rtc_l; [apply (step_build _ _ _ _ 1 (seg_of "a" cpu 5) "a" [] [(Some (cpu, 5%Z), Some (cpu, 5%Z))]); reflexivity|].
    eapply rtc_l; [|apply rtc_refl]. apply (step_put _ _ _ _ 1 1); [simpl; lia|]. vm_compute. reflexivity.
Defined.

(** Two segments on the device, with room for no more. *)
Definition two_cache : OfflineKVCache (T := tens) :=
  inserted 2 (seg_of "b" cuda0 10) (inserted 1 (seg_of "a" cuda0 10) (demo_cache (Some 40%Z) None)).

Lemma two_cache_inv : offline_inv two_cache.
Proof. apply inserted_inv; [apply inserted_inv; [apply demo_cache_inv|reflexivity|set_solver]|reflexivity|set_solver]. Qed.


(** The cache holding only segment [a], on the CPU. *)
Definition cpu_cache (mx : Z) : OfflineKVCache :=
  inserted 1 (seg_of "a" cpu 10) (with_object 1 (seg_of "a" cpu 10) (new_offline (Some mx) None)).

Lemma cpu_cache_inv mx : @offline_inv tens (cpu_cache mx).
Proof.
  apply inserted_inv; [|done|set_solver]. apply build_keeps; [apply new_offline_inv|done..].
Qed.

Lemma to_device_residency_witness :
  ∃ c', to_device tens_to 2 "a" cuda0 (cpu_cache 5) = Ok (c', Some 1%Z) ∧
    heap c' !! 1%Z = Some (moved tens_to cpu (moved tens_to cuda0 (seg_of "a" cpu 10))) ∧ settled c'.
Proof.
  apply (to_device_residency tens_to 1 "a" cuda0 (cpu_cache 5) 1 (seg_of "a" cpu 10) 5);
    [apply cpu_cache_inv|reflexivity|lia|reflexivity|reflexivity|done|reflexivity|simpl; lia].
Defined.

Definition key_order {T} (x : result (@OfflineKVCache T)) : option (list string * list bool) :=
  match x with
  | Ok c => Some (od_keys (segments c), (on_cuda (heap c)) <$> (segments c : list (string * Z)))
  | Raise _ => None
  end.

Definition put_abc (md mh : option Z) : result (@OfflineKVCache tens) :=
  do! c1 <- put tens_to 9 1 (demo_cache md mh);
  do! c2 <- put tens_to 9 2 c1;
  put tens_to 9 3 c2.

(** Offloading refreshes its victim: with room for two segments on the device,
    storing a, b, c moves [a], the least recently used one, to the recent end
    of the order. *)
Theorem offload_refreshes_victim :
  key_order (put_abc (Some 40%Z) None) = Some (["b"; "c"; "a"], [true; true; false]).
Proof. vm_compute. reflexivity. Qed.

(** So the next eviction drops [b], although [a] is older. *)
Theorem eviction_skips_oldest :
  key_order (put_abc (Some 40%Z) (Some 19%Z)) = Some (["c"; "a"], [true; false]).
Proof. vm_compute. reflexivity. Qed.

(** Without a device ceiling the host ceiling drops device segments although
    the CPU tier is empty. *)
Theorem host_ceiling_drops_device_segments :
  key_order (put_abc None (Some 45%Z)) = Some (["b"; "c"], [true; true]).
Proof. vm_compute. reflexivity. Qed.
