(* ===== verification/PerHeadStorage.v ===== *)
(** Per-head trimming of offline segments ([redknot/per_head_storage.py]): the
    keep policy derived from the head classes, the trim, the zero-padded
    expansion back to the dense layout and the savings estimate. *)

From S2P Require Import Prelude Tensor VisiblePlan HeadConfig OfflineCache.

Record HeadTrimPolicy := mkPolicy {
  keep_lens : list (list Z);
  sink_lens : list (list Z);
}.

Definition pol_num_layers (p : HeadTrimPolicy) : nat := length (keep_lens p).
Definition pol_num_kv_heads (p : HeadTrimPolicy) : nat :=
  match keep_lens p with row :: _ => length row | [] => 0 end.

(** The branch on the class of one head: keep length and sink length. *)
Definition trim_cell (budget : Z) (cls : string) (w s : Z) : Z * Z :=
  if bool_decide (cls ∈ ["global"; "dense"]) then (-1, 0)%Z
  else if bool_decide (cls ∈ ["local"; "local_full"]) then
    (if bool_decide (w > 0)%Z then w else 0%Z, if bool_decide (s > 0)%Z then s else 0%Z)
  else if bool_decide (cls = "retrieval") then
    (budget, if bool_decide (s > 0)%Z then s else 0%Z)
  else (-1, 0)%Z.

(** [HeadTrimPolicy.from_head_config]; subscripting a missing sink table raises. *)
Definition from_head_config (c : HeadClassConfig) (budget : Z) : result HeadTrimPolicy :=
  do! row0 <- py_get (head_class c) 0;
  let n_heads := length row0 in
  do! rows <- traverse (fun li =>
                traverse (fun hi =>
                  do! cls <- py_get2 (head_class c) (Z.of_nat li) (Z.of_nat hi);
                  do! w <- py_get2 (head_max_distance c) (Z.of_nat li) (Z.of_nat hi);
                  do! s <- (match head_sink_size c with
                            | Some m => py_get2 m (Z.of_nat li) (Z.of_nat hi)
                            | None => Raise TypeError
                            end);
                  Ok (trim_cell budget cls w s)) (seq 0 n_heads))
              (seq 0 (length (head_class c)));
  Ok (mkPolicy (mat_map fst rows) (mat_map snd rows)).

Section trim.
(** The rows, the conversion to the dtype of the expansion, the bytes of one
    element, the device of a tensor, and the uninitialised token ids of
    [torch.empty]. *)
Context {row : Type} (zero_row : row) (cast : row → row) (elt : Z)
  (dev_of : tensor row → Device) (uninit : nat → list Z).

Record TrimmedSegment := mkTrimmed {
  t_segment_id : string;
  t_doc_len : nat;
  t_head_dim : nat;
  t_num_kv_heads : nat;
  t_num_layers : nat;
  per_head_kv : list (list (tensor row * tensor row));
  t_positions : list (list (list Z));
  t_nbytes : Z;
  t_device : Device;
}.

(** [x.numel() * x.element_size()]. *)
Definition tensor_nbytes (x : tensor row) : Z :=
  (elt * match x with
         | T2 D rows => Z.of_nat (length rows * D)
         | T3 L D heads => Z.of_nat (length heads * (L * D))
         | T4 L D batches =>
             Z.of_nat (length batches * (match batches with b :: _ => length b | [] => 0 end * (L * D)))
         | TOther s => Z.of_nat (foldr Nat.mul 1%nat s)
         end)%Z.

(** [x[:, hi, :, :].index_select(1, idx)]. *)
Definition select_head (x : option (tensor row)) (hi : nat) (idx : list Z) : result (tensor row) :=
  match x with
  | Some (T4 _ D batches) =>
      do! bs <- traverse (fun b => do! rows <- py_get b (Z.of_nat hi); index_select rows idx) batches;
      Ok (T3 (length idx) D bs)
  | Some _ => Raise IndexError
  | None => Raise TypeError
  end.

(** One head of one layer: its rows and the kept positions. *)
Definition trim_head (policy : HeadTrimPolicy) (L : nat) (li : nat)
    (KV : option (tensor row) * option (tensor row)) (hi : nat)
  : result ((tensor row * tensor row) * list Z) :=
  do! keep <- py_get2 (keep_lens policy) (Z.of_nat li) (Z.of_nat hi);
  do! sink <- py_get2 (sink_lens policy) (Z.of_nat li) (Z.of_nat hi);
  do! idx <- _select_indices (Z.of_nat L) keep sink;
  do! K_h <- select_head KV.1 hi idx;
  do! V_h <- select_head KV.2 hi idx;
  Ok ((K_h, V_h), idx).

Definition trim_segment_per_head (segment : @OfflineSegment (tensor row)) (policy : HeadTrimPolicy)
  : result TrimmedSegment :=
  match kv segment with
  | [] => Raise ValueError
  | (None, _) :: _ => Raise AttributeError
  | (Some sample_k, _) :: _ =>
      match sample_k with
      | T4 L D batches =>
          match batches with
          | [heads] =>
              let n_layers := length (kv segment) in
              let n_heads := length heads in
              if negb (bool_decide (Z.of_nat L = doc_len segment)) then Raise ValueError
              else if negb (bool_decide (pol_num_layers policy = n_layers)) then Raise ValueError
              else if negb (bool_decide (pol_num_kv_heads policy = n_heads)) then Raise ValueError
              else
                do! layers <- traverse (fun p =>
                                traverse (trim_head policy L p.1 p.2) (seq 0 n_heads))
                              (zip (seq 0 n_layers) (kv segment));
                Ok (mkTrimmed (segment_id segment) L D n_heads n_layers
                      (mat_map fst layers) (mat_map snd layers)
                      (sumZ ((fun h : (tensor row * tensor row) * list Z =>
                                (tensor_nbytes h.1.1 + tensor_nbytes h.1.2)%Z) <$> concat layers))
                      (dev_of sample_k))
          | _ => Raise ValueError
          end
      | _ => Raise ValueError
      end
  end.

(** The copy of one head into the dense layer; a head without rows is skipped. *)
Definition expand_head (t : TrimmedSegment) (li : nat)
    (s : list (list row) * list (list row)) (hi : nat)
  : result (list (list row) * list (list row)) :=
  do! KV_h <- py_get2 (per_head_kv t) (Z.of_nat li) (Z.of_nat hi);
  match KV_h with
  | (T3 n _ kb, T3 _ _ vb) =>
      if bool_decide (n = 0) then Ok s
      else
        do! idx <- py_get2 (t_positions t) (Z.of_nat li) (Z.of_nat hi);
        do! kd <- py_get s.1 (Z.of_nat hi);
        do! k0 <- py_get kb 0;
        do! kd' <- index_copy kd idx (cast <$> k0);
        do! vd <- py_get s.2 (Z.of_nat hi);
        do! v0 <- py_get vb 0;
        do! vd' <- index_copy vd idx (cast <$> v0);
        Ok (<[hi := kd']> s.1, <[hi := vd']> s.2)
  | _ => Raise IndexError
  end.

Definition expand_to_dense (t : TrimmedSegment) (device : option Device)
  : result (@OfflineSegment (tensor row)) :=
  let target_device := default (t_device t) device in
  do! _ <- py_get2 (per_head_kv t) 0 0;
  let L := t_doc_len t in
  let H := t_num_kv_heads t in
  let D := t_head_dim t in
  let zeros := replicate H (replicate L zero_row) in
  do! dense_kv <- traverse (fun li =>
                    do! s <- foldM (expand_head t li) (seq 0 H) (zeros, zeros);
                    Ok (Some (T4 L D [s.1]), Some (T4 L D [s.2]))) (seq 0 (t_num_layers t));
  Ok (mkSeg (t_segment_id t) (uninit L) (Z.of_nat L) dense_kv target_device
        (kv_nbytes tensor_nbytes dense_kv)).

(** [estimate_savings]: original bytes, trimmed bytes and the kept head-tokens
    per label.  The saved fraction is the quotient of the two totals. *)
Definition savings_label (L keep sink : Z) : string :=
  if bool_decide (keep < 0)%Z then "global"
  else if bool_decide (keep + sink >= L)%Z then "full_via_overflow"
  else "local_or_retrieval".

Definition estimate_savings (segment : @OfflineSegment (tensor row)) (policy : HeadTrimPolicy)
  : result (Z * Z * gmap string Z) :=
  match kv segment with
  | [] => Ok (0%Z, 0%Z, ∅)
  | (Some (T4 L D _), _) :: _ =>
      let per_token := (2 * Z.of_nat D * elt)%Z in
      let orig := (Z.of_nat (pol_num_layers policy) * Z.of_nat (pol_num_kv_heads policy)
                   * Z.of_nat L * per_token)%Z in
      do! s <- foldM (fun s li =>
                 foldM (fun s hi =>
                   do! keep <- py_get2 (keep_lens policy) (Z.of_nat li) (Z.of_nat hi);
                   do! sink <- py_get2 (sink_lens policy) (Z.of_nat li) (Z.of_nat hi);
                   do! idx <- _select_indices (Z.of_nat L) keep sink;
                   let n := Z.of_nat (length idx) in
                   let cls := savings_label (Z.of_nat L) keep sink in
                   Ok ((s.1 + n * per_token)%Z,
                       <[cls := (default 0 (s.2 !! cls) + n)%Z]> s.2))
                   (seq 0 (pol_num_kv_heads policy)) s)
               (seq 0 (pol_num_layers policy)) (0%Z, (∅ : gmap string Z));
      Ok (orig, s.1, s.2)
  | (Some _, _) :: _ => Raise IndexError
  | (None, _) :: _ => Raise AttributeError
  end.

(** * Specification *)

(** The positions a head with the given lengths keeps. *)
Definition keeps (L keep sink i : Z) : bool :=
  bool_decide (keep < 0)%Z || bool_decide (L ≤ keep)%Z || visible L sink keep i.

(** The positions kept at cell [(li, hi)] of a policy. *)
Definition cell_keeps (policy : HeadTrimPolicy) (L : nat) (li hi : nat) : Z → bool :=
  let keep := default 0%Z (default [] (keep_lens policy !! li) !! hi) in
  let sink := default 0%Z (default [] (sink_lens policy !! li) !! hi) in
  keeps (Z.of_nat L) keep sink.

Definition cell_positions (policy : HeadTrimPolicy) (L li hi : nat) : list Z :=
  positions_of (Z.of_nat L) (cell_keeps policy L li hi).

(** A segment of dense layers [(K heads, V heads)]. *)
Definition dense_kv (L D : nat) (layers : list (list (list row) * list (list row)))
  : list (option (tensor row) * option (tensor row)) :=
  (fun l => (Some (T4 L D [l.1]), Some (T4 L D [l.2]))) <$> layers.

Definition wf_layer (L H : nat) (l : list (list row) * list (list row)) : Prop :=
  rect H L l.1 ∧ rect H L l.2.

(** * Lemmas *)

Lemma select_indices_eq L keep sink :
  (0 ≤ L)%Z → _select_indices L keep sink = Ok (positions_of L (keeps L keep sink)).
Proof.
  intros HL. unfold _select_indices, keeps.
  destruct (bool_decide (keep < 0)%Z || bool_decide (keep >= L)%Z) eqn:Hb.
  - rewrite arange_ok, Z.sub_0_r by lia. f_equal. symmetry. apply filter_all.
    apply Forall_seqZ. intros i Hi. rewrite !orb_true_iff, !bool_decide_eq_true in *. lia.
  - rewrite orb_false_iff, !bool_decide_eq_false in Hb.
    pose proof (local_visible_indices_eq L sink keep HL) as He. unfold local_visible_indices in He.
    cbv zeta. rewrite He. f_equal. unfold window_positions, positions_of.
    apply list_filter_iff. intros i. rewrite !bool_decide_eq_false_2 by lia. done.
Qed.

Lemma fill_one {A} (g : nat → A) n z (rest : list A) :
  <[n := g n]> ((g <$> seq 0 n) ++ z :: rest) = (g <$> seq 0 (S n)) ++ rest.
Proof.
  assert (Hl : length (g <$> seq 0 n) = n) by by rewrite length_fmap, length_seq.
  rewrite <-Hl at 1. rewrite insert_middle, seq_S, fmap_app, <-app_assoc. done.
Qed.

(** A head loop that overwrites entry [hi] of two lists of equal entries. *)
Lemma fill_pair {A B} H (za : A) (zb : B) (a : nat → A) (b : nat → B)
    (f : list A * list B → nat → result (list A * list B)) :
  (∀ ka kb hi, hi < H → ka !! hi = Some za → kb !! hi = Some zb →
     f (ka, kb) hi = Ok (<[hi := a hi]> ka, <[hi := b hi]> kb)) →
  foldM f (seq 0 H) (replicate H za, replicate H zb) = Ok (a <$> seq 0 H, b <$> seq 0 H).
Proof.
  intros Hf.
  destruct (foldM_invariant
    (fun dn s => s = ((a <$> seq 0 (length dn)) ++ replicate (H - length dn) za,
                      (b <$> seq 0 (length dn)) ++ replicate (H - length dn) zb))
    f (seq 0 H) (replicate H za, replicate H zb)) as (s & Hs & ->).
  - simpl. by rewrite Nat.sub_0_r.
  - intros dn hi todo s Hl ->.
    destruct (seq_split_index _ _ _ _ Hl) as [-> Hlt].
    replace (H - length dn) with (S (H - (length dn + 1))) by lia. cbn [replicate].
    assert (Hla : length (a <$> seq 0 (length dn)) = length dn) by by rewrite length_fmap, length_seq.
    assert (Hlb : length (b <$> seq 0 (length dn)) = length dn) by by rewrite length_fmap, length_seq.
    rewrite Hf; [|lia|by rewrite lookup_app_r, Hla, Nat.sub_diag by lia
                |by rewrite lookup_app_r, Hlb, Nat.sub_diag by lia].
    eexists. split; [done|]. rewrite length_app. cbn [length].
    rewrite !fill_one. by rewrite Nat.add_1_r.
  - rewrite Hs, length_seq, Nat.sub_diag, !app_nil_r. done.
Qed.

Lemma py_get_singleton {A} (x : A) : py_get [x] 0 = Ok x.
Proof. done. Qed.

(** ** The trim of a well-formed segment *)

Section wf.
Context (L D H : nat) (layers : list (list (list row) * list (list row))) (policy : HeadTrimPolicy).
Hypothesis Hlayers : Forall (wf_layer L H) layers.
Hypothesis Hkeep : rect (length layers) H (keep_lens policy).
Hypothesis Hsink : rect (length layers) H (sink_lens policy).
Hypothesis Hne : 0 < length layers.
Hypothesis HH : 0 < H.

Definition cell_kv (li hi : nat) (l : list (list row) * list (list row)) : tensor row * tensor row :=
  let idx := cell_positions policy L li hi in
  (T3 (length idx) D [select_rows (default [] (l.1 !! hi)) idx],
   T3 (length idx) D [select_rows (default [] (l.2 !! hi)) idx]).

Definition trimmed_layers : list (list ((tensor row * tensor row) * list Z)) :=
  imap (fun li l => (fun hi => (cell_kv li hi l, cell_positions policy L li hi)) <$> seq 0 H) layers.

Lemma select_cell (heads : list (list row)) hi idx :
  rect H L heads → hi < H → Forall (fun i => 0 ≤ i < Z.of_nat L)%Z idx →
  select_head (Some (T4 L D [heads])) hi idx
  = Ok (T3 (length idx) D [select_rows (default [] (heads !! hi)) idx]).
Proof.
  intros [HR HC] Hhi Hidx. element heads hi as k Hk.
  pose proof (Forall_lookup_1 _ _ _ _ HC Hk) as Hlk. simpl in Hlk.
  unfold select_head. cbn [traverse]. run_gets.
  rewrite (proj1 (index_select_rows k idx ltac:(by rewrite Hlk))). run_bind. by rewrite Hk.
Qed.

Lemma policy_cell li hi :
  li < length layers → hi < H → ∃ keep sink,
    py_get2 (keep_lens policy) (Z.of_nat li) (Z.of_nat hi) = Ok keep ∧
    py_get2 (sink_lens policy) (Z.of_nat li) (Z.of_nat hi) = Ok sink ∧
    _select_indices (Z.of_nat L) keep sink = Ok (cell_positions policy L li hi).
Proof.
  intros Hli Hhi.
  destruct (rect_lookup2 _ _ _ li hi Hkeep Hli Hhi) as (r1 & keep & H1 & H2).
  destruct (rect_lookup2 _ _ _ li hi Hsink Hli Hhi) as (r2 & sink & H3 & H4).
  exists keep, sink. split; [by eapply py_get2_nat|]. split; [by eapply py_get2_nat|].
  rewrite select_indices_eq by lia. unfold cell_positions, cell_keeps. by rewrite H1, H3; simpl; rewrite H2, H4.
Qed.

Lemma trim_head_ok li l hi :
  layers !! li = Some l → hi < H →
  trim_head policy L li (Some (T4 L D [l.1]), Some (T4 L D [l.2])) hi
  = Ok (cell_kv li hi l, cell_positions policy L li hi).
Proof.
  intros Hl Hhi. destruct (Forall_lookup_1 _ _ _ _ Hlayers Hl) as [H1 H2].
  destruct (policy_cell li hi) as (keep & sink & Hk & Hs & Hi); [by eapply lookup_lt_Some|done|].
  unfold trim_head. rewrite Hk. run_bind. rewrite Hs. run_bind. rewrite Hi. run_bind. cbn [fst snd].
  pose proof (positions_of_range (Z.of_nat L) (cell_keeps policy L li hi)) as Hr.
  rewrite (select_cell l.1) by done. run_bind. rewrite (select_cell l.2) by done. done.
Qed.

Lemma trim_layers_ok :
  traverse (fun p : nat * (option (tensor row) * option (tensor row)) =>
              traverse (trim_head policy L p.1 p.2) (seq 0 H))
    (zip (seq 0 (length layers)) (dense_kv L D layers)) = Ok trimmed_layers.
Proof.
  apply traverse_Ok. apply Forall2_same_length_lookup. unfold trimmed_layers, dense_kv.
  rewrite length_zip_with, length_imap, length_seq, length_fmap. split; [lia|].
  intros li p r Hp Hr. rewrite list_lookup_imap in Hr.
  destruct (layers !! li) as [l|] eqn:Hl; [|done]. injection Hr as <-.
  apply lookup_zip_with_Some in Hp as (i & x & -> & Hi & Hx).
  apply lookup_seq in Hi as [-> _]. rewrite list_lookup_fmap, Hl in Hx. injection Hx as <-.
  apply traverse_pure. intros hi Hhi%elem_of_seq. cbn [fst snd]. apply trim_head_ok; [done|lia].
Qed.

(** The trimmed segment. *)
Definition trimmed (sid : string) (dev : Device) : TrimmedSegment :=
  mkTrimmed sid L D H (length layers) (mat_map fst trimmed_layers) (mat_map snd trimmed_layers)
    (sumZ ((fun h : (tensor row * tensor row) * list Z =>
              (tensor_nbytes h.1.1 + tensor_nbytes h.1.2)%Z) <$> concat trimmed_layers)) dev.

Lemma layers_cons : ∃ l0 ls, layers = l0 :: ls ∧ length l0.1 = H.
Proof.
  destruct layers as [|l0 ls] eqn:He; [simpl in Hne; lia|]. exists l0, ls. split; [done|].
  apply Forall_cons in Hlayers as [[[? _] _] _]. done.
Qed.

Lemma trim_ok seg :
  kv seg = dense_kv L D layers → doc_len seg = Z.of_nat L →
  ∃ dev, trim_segment_per_head seg policy = Ok (trimmed (segment_id seg) dev).
Proof.
  intros Hkv HL. unfold trim_segment_per_head. rewrite Hkv.
  destruct layers_cons as (l0 & ls & Hl & Hl0).
  destruct Hkeep as [HR HC].
  assert (Hnl : pol_num_layers policy = length layers) by done.
  assert (Hnh : pol_num_kv_heads policy = H).
  { unfold pol_num_kv_heads. destruct (keep_lens policy) as [|r0 rs]; [simpl in HR; lia|].
    by apply Forall_cons in HC as [? _]. }
  assert (Hcons : dense_kv L D layers
                  = (Some (T4 L D [l0.1]), Some (T4 L D [l0.2])) :: dense_kv L D ls) by by rewrite Hl.
  pose proof trim_layers_ok as Htr. rewrite Hcons in Htr |- *.
  assert (Hlen : length ((Some (T4 L D [l0.1]), Some (T4 L D [l0.2])) :: dense_kv L D ls) = length layers).
  { rewrite <-Hcons. unfold dense_kv. by rewrite length_fmap. }
  cbv zeta. rewrite Hlen, HL, Hnl, Hnh, Hl0, !bool_decide_eq_true_2 by done. cbn [negb].
  rewrite Htr. run_bind. by eexists.
Qed.

(** ** The expansion *)

Lemma trimmed_cell li hi l :
  layers !! li = Some l → hi < H → ∀ sid dev,
  py_get2 (per_head_kv (trimmed sid dev)) (Z.of_nat li) (Z.of_nat hi) = Ok (cell_kv li hi l) ∧
  py_get2 (t_positions (trimmed sid dev)) (Z.of_nat li) (Z.of_nat hi)
  = Ok (cell_positions policy L li hi).
Proof.
  intros Hl Hhi sid dev.
  assert (Hrow : trimmed_layers !! li
    = Some ((fun hi => (cell_kv li hi l, cell_positions policy L li hi)) <$> seq 0 H)).
  { unfold trimmed_layers. by rewrite list_lookup_imap, Hl. }
  assert (Hcell : ((fun hi => (cell_kv li hi l, cell_positions policy L li hi)) <$> seq 0 H) !! hi
                  = Some (cell_kv li hi l, cell_positions policy L li hi)).
  { by rewrite list_lookup_fmap, lookup_seq_lt by done. }
  destruct (mat_map_lookup fst _ _ _ _ _ Hrow Hcell) as (? & ? & ?).
  destruct (mat_map_lookup snd _ _ _ _ _ Hrow Hcell) as (? & ? & ?).
  split; by eapply py_get2_nat.
Qed.

Lemma expand_layer li l sid dev :
  layers !! li = Some l →
  foldM (expand_head (trimmed sid dev) li) (seq 0 H)
    (replicate H (replicate L zero_row), replicate H (replicate L zero_row))
  = Ok (imap (fun hi => padded zero_row cast (cell_keeps policy L li hi)) l.1,
        imap (fun hi => padded zero_row cast (cell_keeps policy L li hi)) l.2).
Proof.
  intros Hl. destruct (Forall_lookup_1 _ _ _ _ Hlayers Hl) as [[HR1 HC1] [HR2 HC2]].
  rewrite (fill_pair H _ _
    (fun hi => padded zero_row cast (cell_keeps policy L li hi) (default [] (l.1 !! hi)))
    (fun hi => padded zero_row cast (cell_keeps policy L li hi) (default [] (l.2 !! hi)))).
  - f_equal. f_equal; apply list_eq; intros hi; rewrite list_lookup_fmap, list_lookup_imap;
      (destruct (decide (hi < H)) as [Hhi|Hhi];
       [|by rewrite lookup_seq_ge, lookup_ge_None_2 by lia]);
      rewrite lookup_seq_lt by done; simpl;
      [destruct (lookup_lt_is_Some_2 l.1 hi) as [k Hk]|destruct (lookup_lt_is_Some_2 l.2 hi) as [k Hk]];
      try lia; by rewrite Hk.
  - intros ka kb hi Hhi Hka Hkb. destruct (trimmed_cell li hi l Hl Hhi sid dev) as [Hc Hp].
    destruct (lookup_lt_is_Some_2 l.1 hi) as [k Hk]; [lia|].
    destruct (lookup_lt_is_Some_2 l.2 hi) as [v Hv]; [lia|].
    pose proof (Forall_lookup_1 _ _ _ _ HC1 Hk) as Hlk. pose proof (Forall_lookup_1 _ _ _ _ HC2 Hv) as Hlv.
    simpl in Hlk, Hlv. unfold expand_head. rewrite Hc. run_bind. unfold cell_kv. cbv zeta.
    rewrite Hk, Hv. cbn [default from_option id].
    pose proof (index_copy_padded zero_row cast L (cell_keeps policy L li hi) k Hlk) as HK.
    pose proof (index_copy_padded zero_row cast L (cell_keeps policy L li hi) v Hlv) as HV.
    fold (cell_positions policy L li hi) in HK, HV. case_bool_decide as Hn.
    + apply nil_length_inv in Hn. rewrite Hn in HK, HV. injection HK as HK. injection HV as HV.
      unfold id. by rewrite <-HK, <-HV, !list_insert_id by done.
    + rewrite Hp. run_bind. cbn [fst snd]. run_gets.
      unfold id in *. rewrite !py_get_singleton. run_bind. rewrite HK. run_bind.
      run_gets. by rewrite HV.
Qed.

(** The dense layers after the round trip. *)
Definition padded_layers : list (option (tensor row) * option (tensor row)) :=
  imap (fun li l =>
          (Some (T4 L D [imap (fun hi => padded zero_row cast (cell_keeps policy L li hi)) l.1]),
           Some (T4 L D [imap (fun hi => padded zero_row cast (cell_keeps policy L li hi)) l.2]))) layers.

Lemma expand_ok sid dev device :
  ∃ s, expand_to_dense (trimmed sid dev) device = Ok s ∧ kv s = padded_layers ∧
    segment_id s = sid ∧ doc_len s = Z.of_nat L ∧ OfflineCache.device s = default dev device ∧
    nbytes s = kv_nbytes tensor_nbytes padded_layers.
Proof.
  unfold expand_to_dense. destruct (lookup_lt_is_Some_2 layers 0 Hne) as [l0 Hl0].
  destruct (trimmed_cell 0 0 l0 Hl0 HH sid dev) as [H0 _]. change (Z.of_nat 0) with 0%Z in H0.
  rewrite H0. run_bind. cbn [t_doc_len t_num_kv_heads t_head_dim t_num_layers trimmed].
  assert (Htr : traverse (fun li =>
      do! s <- foldM (expand_head (trimmed sid dev) li) (seq 0 H)
                 (replicate H (replicate L zero_row), replicate H (replicate L zero_row));
      Ok (Some (T4 L D [s.1]), Some (T4 L D [s.2]))) (seq 0 (length layers)) = Ok padded_layers).
  { apply traverse_Ok, Forall2_same_length_lookup. unfold padded_layers.
    rewrite length_imap, length_seq. split; [done|]. intros i li r Hi Hr.
    apply lookup_seq in Hi as [-> Hi]. rewrite list_lookup_imap in Hr.
    destruct (layers !! i) as [l|] eqn:Hl; [|done]. injection Hr as <-.
    by rewrite (expand_layer _ l). }
  rewrite Htr. run_bind. eexists. split; [done|]. done.
Qed.

(** ** Byte counts *)

(** The bytes the kept tokens of all heads take. *)
Definition kept_bytes : Z :=
  sumZ ((fun li => sumZ ((fun hi =>
    (Z.of_nat (length (cell_positions policy L li hi)) * (2 * Z.of_nat D * elt))%Z) <$> seq 0 H))
    <$> seq 0 (length layers)).

Lemma trimmed_bytes sid dev : t_nbytes (trimmed sid dev) = kept_bytes.
Proof.
  cbn [t_nbytes trimmed]. unfold trimmed_layers, kept_bytes.
  assert (Hcat : ∀ m : list (list ((tensor row * tensor row) * list Z)),
    sumZ ((fun h : (tensor row * tensor row) * list Z =>
             (tensor_nbytes h.1.1 + tensor_nbytes h.1.2)%Z) <$> concat m)
    = sumZ ((fun r => sumZ ((fun h : (tensor row * tensor row) * list Z =>
             (tensor_nbytes h.1.1 + tensor_nbytes h.1.2)%Z) <$> r)) <$> m)).
  { induction m as [|r m IH]; [done|]. cbn [concat]. rewrite fmap_app, sumZ_app, IH. done. }
  rewrite Hcat, fmap_imap. f_equal. apply list_eq. intros li.
  rewrite list_lookup_imap, list_lookup_fmap.
  destruct (decide (li < length layers)) as [Hli|Hli].
  2: { rewrite lookup_ge_None_2, lookup_seq_ge by lia. done. }
  destruct (lookup_lt_is_Some_2 layers li Hli) as [l ->]. rewrite lookup_seq_lt by done. simpl.
  f_equal. f_equal. rewrite <-list_fmap_compose. apply list_fmap_ext. intros i hi _.
  unfold compose. unfold cell_kv, tensor_nbytes. cbn [fst snd length]. nia.
Qed.

Lemma foldM_sum {A B} (f : Z * B → A → result (Z * B)) (w : A → Z) (l : list A) s :
  (∀ s x, x ∈ l → ∃ s', f s x = Ok s' ∧ s'.1 = (s.1 + w x)%Z) →
  ∃ s', foldM f l s = Ok s' ∧ s'.1 = (s.1 + sumZ (w <$> l))%Z.
Proof.
  revert s. induction l as [|x l IH]; intros s Hf.
  { exists s. split; [done|]. simpl. lia. }
  destruct (Hf s x) as (s1 & H1 & H2); [left|]. cbn [foldM]. rewrite H1. run_bind.
  destruct (IH s1) as (s2 & H3 & H4); [intros; apply Hf; by right|].
  exists s2. split; [done|]. rewrite fmap_cons, sumZ_cons. lia.
Qed.

Lemma estimate_ok seg :
  kv seg = dense_kv L D layers →
  ∃ labels, estimate_savings seg policy
    = Ok ((Z.of_nat (length layers) * Z.of_nat H * Z.of_nat L * (2 * Z.of_nat D * elt))%Z,
          kept_bytes, labels).
Proof.
  intros Hkv. unfold estimate_savings. rewrite Hkv. destruct layers_cons as (l0 & ls & Hl & _).
  assert (Hnl : pol_num_layers policy = length layers) by apply Hkeep.
  assert (Hnh : pol_num_kv_heads policy = H).
  { destruct Hkeep as [HR HC]. unfold pol_num_kv_heads.
    destruct (keep_lens policy) as [|r0 rs]; [simpl in HR; lia|]. by apply Forall_cons in HC as [? _]. }
  assert (Hcons : dense_kv L D layers
                  = (Some (T4 L D [l0.1]), Some (T4 L D [l0.2])) :: dense_kv L D ls) by by rewrite Hl.
  rewrite Hcons. cbv zeta. rewrite Hnl, Hnh.
  lazymatch goal with |- context [foldM ?f (seq 0 (length layers)) ?s0] =>
    destruct (foldM_sum f (fun li => sumZ ((fun hi =>
      (Z.of_nat (length (cell_positions policy L li hi)) * (2 * Z.of_nat D * elt))%Z) <$> seq 0 H))
      (seq 0 (length layers)) s0) as (s & Hs & Hs1) end.
  2: { exists s.2. rewrite Hs. run_bind. by rewrite Hs1. }
  intros s li Hli%elem_of_seq. apply foldM_sum. intros s' hi Hhi%elem_of_seq.
  destruct (policy_cell li hi) as (keep & sink & Hk & Hsk & Hi); [lia|lia|].
  rewrite Hk. run_bind. rewrite Hsk. run_bind. rewrite Hi. run_bind.
  eexists. split; [done|]. done.
Qed.

End wf.

(** C37: Trimming a segment and expanding it again returns, and every cell of
    the dense result holds the (converted) original row where the head's policy
    keeps the position and zeros everywhere else; id and length survive. *)
Theorem trim_expand_roundtrip L D H layers policy seg device :
  Forall (wf_layer L H) layers →
  rect (length layers) H (keep_lens policy) → rect (length layers) H (sink_lens policy) →
  0 < length layers → 0 < H →
  kv seg = dense_kv L D layers → doc_len seg = Z.of_nat L →
  ∃ t s, trim_segment_per_head seg policy = Ok t ∧ expand_to_dense t device = Ok s ∧
    segment_id s = segment_id seg ∧ doc_len s = doc_len seg ∧
    kv s = imap (fun li l =>
      (Some (T4 L D [imap (fun hi => padded zero_row cast (cell_keeps policy L li hi)) l.1]),
       Some (T4 L D [imap (fun hi => padded zero_row cast (cell_keeps policy L li hi)) l.2]))) layers.
Proof.
  intros Hl Hk Hs Hne HH Hkv HL.
  destruct (trim_ok L D H layers policy Hl Hk Hs Hne HH seg Hkv HL) as (dev & Htrim).
  destruct (expand_ok L D H layers policy Hl Hne HH (segment_id seg) dev device)
    as (s & He & Hkvs & Hid & Hdoc & _).
  eexists _, s. split; [exact Htrim|]. split; [exact He|]. split; [done|]. split; [congruence|done].
Qed.

(** the planning estimate is exact: its trimmed byte count is the byte
    count of the trimmed segment, and its original byte count is the byte count
    of the dense segment. *)
Theorem estimate_exact L D H layers policy seg :
  Forall (wf_layer L H) layers →
  rect (length layers) H (keep_lens policy) → rect (length layers) H (sink_lens policy) →
  0 < length layers → 0 < H →
  kv seg = dense_kv L D layers → doc_len seg = Z.of_nat L →
  ∃ t labels, trim_segment_per_head seg policy = Ok t ∧
    estimate_savings seg policy = Ok (kv_nbytes tensor_nbytes (kv seg), t_nbytes t, labels).
Proof.
  intros Hl Hk Hs Hne HH Hkv HL.
  destruct (trim_ok L D H layers policy Hl Hk Hs Hne HH seg Hkv HL) as (dev & Htrim).
  destruct (estimate_ok L D H layers policy Hl Hk Hs Hne HH seg Hkv) as (labels & He).
  eexists _, labels. split; [exact Htrim|]. rewrite He, trimmed_bytes by done. do 3 f_equal.
  rewrite Hkv. unfold kv_nbytes, dense_kv. rewrite <-list_fmap_compose. clear -Hl.
  induction Hl as [|l ls [[HR1 _] [HR2 _]] _ IH]; [done|].
  rewrite fmap_cons, sumZ_cons, <-IH. unfold compose, tensor_nbytes. cbn [length fst snd]. rewrite HR1, HR2. nia.
Qed.

End trim.

(** * The policy covers what the strategy reads *)

(** The positions of a segment of length [L] a head's strategy attends to;
    what a retrieval head reads is chosen at run time. *)
Definition strategy_reads (st : HeadStrategy) (L pos : Z) : bool :=
  if is_local st then visible L (sink_size st) (window st) pos else negb (is_retrieval st).

Lemma from_head_config_ok R C c budget m :
  wf_config R C c → head_sink_size c = Some m → 0 < R →
  ∃ p, from_head_config c budget = Ok p ∧
    ∀ i j, i < R → j < C → ∃ cls w s,
      py_get2 (head_class c) (Z.of_nat i) (Z.of_nat j) = Ok cls ∧
      py_get2 (head_max_distance c) (Z.of_nat i) (Z.of_nat j) = Ok w ∧
      py_get2 m (Z.of_nat i) (Z.of_nat j) = Ok s ∧ cls ∈ ALLOWED_TYPES ∧
      default 0%Z (default [] (keep_lens p !! i) !! j) = (trim_cell budget cls w s).1 ∧
      default 0%Z (default [] (sink_lens p !! i) !! j) = (trim_cell budget cls w s).2.
Proof.
  intros Hc Hm HR.
  assert (Hcell : ∀ i j, i < R → j < C → ∃ cls w s,
      py_get2 (head_class c) (Z.of_nat i) (Z.of_nat j) = Ok cls ∧
      py_get2 (head_max_distance c) (Z.of_nat i) (Z.of_nat j) = Ok w ∧
      py_get2 m (Z.of_nat i) (Z.of_nat j) = Ok s ∧ cls ∈ ALLOWED_TYPES).
  { intros i j Hi Hj. destruct (wf_cells R C c i j Hc Hi Hj) as (t & d & ss & Ha & Ht & Hd & Hs).
    unfold _sink_at in Hs. rewrite Hm in Hs. eauto 10. }
  destruct (rect_lookup R C _ 0 (wf_class _ _ _ Hc) HR) as (row0 & Hrow0 & Hl0).
  set (cell := fun i j =>
    match py_get2 (head_class c) (Z.of_nat i) (Z.of_nat j),
          py_get2 (head_max_distance c) (Z.of_nat i) (Z.of_nat j),
          py_get2 m (Z.of_nat i) (Z.of_nat j) with
    | Ok cls, Ok w, Ok s => trim_cell budget cls w s
    | _, _, _ => (0, 0)%Z end).
  set (rows := (fun i => cell i <$> seq 0 C) <$> seq 0 R).
  assert (Hok : from_head_config c budget = Ok (mkPolicy (mat_map fst rows) (mat_map snd rows))).
  { unfold from_head_config. change 0%Z with (Z.of_nat 0). run_gets.
    rewrite (proj1 (wf_class _ _ _ Hc)), Hl0, Hm.
    rewrite (traverse_pure _ (fun i => cell i <$> seq 0 C)); [done|].
    intros i Hi%elem_of_seq. apply traverse_pure. intros j Hj%elem_of_seq.
    destruct (Hcell i j) as (cls & w & s & H1 & H2 & H3 & _); [lia|lia|].
    rewrite H1. run_bind. rewrite H2. run_bind. rewrite H3. unfold cell. by rewrite H1, H2, H3. }
  eexists. split; [exact Hok|]. intros i j Hi Hj. destruct (Hcell i j Hi Hj) as (cls & w & s & H1 & H2 & H3 & Ha).
  exists cls, w, s. do 4 (split; [done|]). cbn [keep_lens sink_lens].
  assert (Hr : rows !! i = Some (cell i <$> seq 0 C)).
  { unfold rows. by rewrite list_lookup_fmap, lookup_seq_lt by done. }
  assert (Hcl : (cell i <$> seq 0 C) !! j = Some (trim_cell budget cls w s)).
  { rewrite list_lookup_fmap, lookup_seq_lt by done. simpl. unfold cell. by rewrite H1, H2, H3. }
  destruct (mat_map_lookup fst _ _ _ _ _ Hr Hcl) as (r1 & -> & Hr1).
  destruct (mat_map_lookup snd _ _ _ _ _ Hr Hcl) as (r2 & -> & Hr2). simpl. by rewrite Hr1, Hr2.
Qed.

(** Outside the dense prefix, for every head whose local window is its own
    positive distance, the trim derived from a configuration keeps every
    position the head's strategy reads, so the zero padding is never read. *)
Theorem trim_covers_strategy R C c budget m (i j : nat) :
  wf_config R C c → head_sink_size c = Some m → i < R → j < C →
  (dense_prefix_layers c ≤ Z.of_nat i)%Z →
  (∀ d, py_get2 (head_max_distance c) (Z.of_nat i) (Z.of_nat j) = Ok d →
        py_get2 (head_class c) (Z.of_nat i) (Z.of_nat j) = Ok HEAD_LOCAL → (0 < d)%Z) →
  ∃ p st, from_head_config c budget = Ok p ∧
    get_strategy c (Z.of_nat i) (Z.of_nat j) = Ok st ∧
    ∀ (L : nat) pos, strategy_reads st (Z.of_nat L) pos = true → (0 ≤ pos < Z.of_nat L)%Z →
      cell_keeps p L i j pos = true.
Proof.
  intros Hc Hm Hi Hj Hpre Hdist.
  destruct (from_head_config_ok R C c budget m Hc Hm ltac:(lia)) as (p & Hp & Hcells).
  destruct (Hcells i j Hi Hj) as (cls & w & s & Hcls & Hw & Hs & Ha & Hkeep & Hsink).
  assert (Hss : _sink_at c (Z.of_nat i) (Z.of_nat j) = Ok s) by (unfold _sink_at; by rewrite Hm).
  exists p. eexists. split; [done|]. split; [by apply get_strategy_cells|].
  intros L pos Hr Hpos. unfold cell_keeps, keeps. rewrite Hkeep, Hsink.
  unfold strategy_reads, is_local, is_retrieval, effective_window, effective_type in Hr.
  rewrite (bool_decide_eq_false_2 (Z.of_nat i < dense_prefix_layers c)%Z) in Hr by lia.
  cbn [head_type sink_size window] in Hr.
  apply allowed_cases in Ha as [-> | [-> | [-> | ->]]]; [|reflexivity|discriminate Hr|reflexivity].
  rewrite (bool_decide_eq_true_2 (HEAD_LOCAL = HEAD_LOCAL)) in Hr by done.
  specialize (Hdist w Hw Hcls). unfold trim_cell.
  rewrite (bool_decide_eq_false_2 (HEAD_LOCAL ∈ ["global"; "dense"])), (bool_decide_eq_true_2 (HEAD_LOCAL ∈ ["local"; "local_full"])) by (by apply (bool_decide_unpack _)).
  rewrite (bool_decide_eq_true_2 (w > 0)%Z) in * by lia. cbn [fst snd].
  unfold visible in *. rewrite !orb_true_iff, !bool_decide_eq_true in *.
  destruct Hr as [Hr|Hr]; right; [left|by right]. case_bool_decide; lia.
Qed.

(** * Scenarios and witnesses *)

(** A two-layer configuration with one head per layer and one sink token. *)
Definition scenario (dist prefix : Z) : HeadClassConfig :=
  mkConfig [[HEAD_LOCAL]; [HEAD_GLOBAL]] [[dist]; [-1]]%Z (Some [[1]; [1]]%Z) 2 1 4 512
    (QArith_base.Qmake 9 10) prefix ∅.

Lemma scenario_wf dist prefix : wf_config 2 1 (scenario dist prefix).
Proof.
  constructor; try done; try by (split; [done|repeat constructor]).
  repeat constructor; apply (bool_decide_unpack _); done.
Qed.

(** In the dense prefix the strategy reads every position of a head, but the
    trim follows the class table and drops tokens of a local head. *)
Theorem trim_ignores_dense_prefix :
  ∃ p, from_head_config (scenario 2 1) 512 = Ok p ∧
    get_strategy (scenario 2 1) 0 0 = Ok (mkHeadStrategy 0 0 HEAD_DENSE (-1) 1) ∧
    strategy_reads (mkHeadStrategy 0 0 HEAD_DENSE (-1) 1) 10 5 = true ∧
    cell_keeps p 10 0 0 5 = false.
Proof. eexists. split; [vm_compute; reflexivity|]. vm_compute. done. Qed.

(** A local head without a distance reads the default window, but its trim
    keeps the sink tokens only. *)
Theorem trim_ignores_default_window :
  ∃ p, from_head_config (scenario (-1) 0) 512 = Ok p ∧
    get_strategy (scenario (-1) 0) 0 0 = Ok (mkHeadStrategy 0 0 HEAD_LOCAL 512 1) ∧
    strategy_reads (mkHeadStrategy 0 0 HEAD_LOCAL 512 1) 10 5 = true ∧
    cell_keeps p 10 0 0 5 = false.
Proof. eexists. split; [vm_compute; reflexivity|]. vm_compute. done. Qed.

Lemma trim_covers_strategy_witness :
  ∃ p st, from_head_config (scenario 2 0) 512 = Ok p ∧
    get_strategy (scenario 2 0) 0 0 = Ok st ∧
    ∀ (L : nat) pos, strategy_reads st (Z.of_nat L) pos = true → (0 ≤ pos < Z.of_nat L)%Z →
      cell_keeps p L 0 0 pos = true.
Proof.
  apply (trim_covers_strategy 2 1 (scenario 2 0) 512 [[1]; [1]]%Z 0 0);
    [apply scenario_wf|reflexivity|lia|lia|simpl; lia|].
  intros d [= <-] _. lia.
Defined.

Definition wit_layers : list (list (list nat) * list (list nat)) :=
  [([[1; 2; 3; 4]; [5; 6; 7; 8]], [[1; 2; 3; 4]; [5; 6; 7; 8]])].
Definition wit_policy : HeadTrimPolicy := mkPolicy [[-1; 1]]%Z [[0; 1]]%Z.
Definition wit_seg : @OfflineSegment (tensor nat) :=
  mkSeg "s" [] 4 (dense_kv 4 1 wit_layers) cpu 32.

Lemma wit_layers_wf : Forall (wf_layer 4 2) wit_layers.
Proof. apply Forall_singleton. split; by apply (bool_decide_unpack (rect _ _ _)). Qed.

Lemma trim_expand_roundtrip_witness :
  ∃ t s, trim_segment_per_head 2 (fun _ => cpu) wit_seg wit_policy = Ok t ∧
    expand_to_dense 0 S 2 (fun _ => []) t None = Ok s ∧
    segment_id s = segment_id wit_seg ∧ doc_len s = doc_len wit_seg ∧
    kv s = [(Some (T4 4 1 [[[2; 3; 4; 5]; [6; 0; 0; 9]]]), Some (T4 4 1 [[[2; 3; 4; 5]; [6; 0; 0; 9]]]))].
Proof.
  apply (trim_expand_roundtrip 0 S 2 (fun _ => cpu) (fun _ => []) 4 1 2 wit_layers wit_policy wit_seg None);
    [exact wit_layers_wf|by apply (bool_decide_unpack (rect _ _ _))
    |by apply (bool_decide_unpack (rect _ _ _))|simpl; lia|lia|reflexivity|reflexivity].
Defined.

Lemma estimate_exact_witness :
  ∃ t labels, trim_segment_per_head 2 (fun _ => cpu) wit_seg wit_policy = Ok t ∧
    estimate_savings 2 wit_seg wit_policy
    = Ok (kv_nbytes (tensor_nbytes 2) (kv wit_seg), t_nbytes t, labels).
Proof.
  apply (estimate_exact 2 (fun _ => cpu) 4 1 2 wit_layers wit_policy wit_seg);
    [exact wit_layers_wf|by apply (bool_decide_unpack (rect _ _ _))
    |by apply (bool_decide_unpack (rect _ _ _))|simpl; lia|lia|reflexivity|reflexivity].
Defined.
