(* ===== verification/PdTransfer.v ===== *)
(** Head-class KV transfer between prefill and decode ([redknot/pd_transfer.py]):
    building the payload from dense KV, its serialisation, and restoring the
    dense layout on the other side. *)

From stdpp Require Import pretty.
From S2P Require Import Prelude Tensor VisiblePlan HeadConfig OfflineCache PerHeadStorage.

Section transfer.
(** Rows, their zero and conversion; dtypes with their element size, printed
    name and [getattr(torch, name)]; [torch.save] and [torch.load]. *)
Context {row : Type} (zero_row : row) (cast : row → row).
Context {dtype : Type} (dtype_size : dtype → Z) (dtype_name : dtype → string)
  (getattr_torch : string → result dtype).

Record HeadKVSlice := mkSlice {
  sl_layer : Z;
  sl_head : Z;
  sl_policy : string;
  sl_positions : list Z;
  sl_k : tensor row;
  sl_v : tensor row;
}.

Record HeadClassKVPayload := mkPayload {
  py_num_layers : nat;
  py_num_kv_heads : nat;
  py_head_dim : nat;
  py_seq_len : nat;
  slices : list HeadKVSlice;
  py_dtype : dtype;
}.

(** Positions are 8-byte integers. *)
Definition transferred_bytes (p : HeadClassKVPayload) : Z :=
  sumZ ((fun s => tensor_nbytes (dtype_size (py_dtype p)) (sl_k s)
                  + tensor_nbytes (dtype_size (py_dtype p)) (sl_v s)
                  + Z.of_nat (length (sl_positions s)) * 8)%Z <$> slices p).

Definition dense_bytes (p : HeadClassKVPayload) : Z :=
  let per_kv := (Z.of_nat (py_num_kv_heads p) * Z.of_nat (py_seq_len p)
                 * Z.of_nat (py_head_dim p) * dtype_size (py_dtype p))%Z in
  (2 * Z.of_nat (py_num_layers p) * per_kv)%Z.

(** ** Serialisation *)

Record SliceMeta := mkSliceMeta {
  sm_layer : Z;
  sm_head : Z;
  sm_policy : string;
  sm_kept : Z;
}.

Record PayloadMeta := mkMeta {
  me_num_layers : nat;
  me_num_kv_heads : nat;
  me_head_dim : nat;
  me_seq_len : nat;
  me_dtype : string;
  me_slices : list SliceMeta;
}.

Inductive saved_tensor :=
  | PosTensor (l : list Z)
  | RowTensor (x : tensor row).

Definition saved_object : Type := PayloadMeta * gmap string saved_tensor.

Definition key (prefix : string) (i : nat) : string := prefix +:+ pretty i.

(** One turn of the loop that collects the tensors under numbered names. *)
Definition put_slice (m : gmap string saved_tensor) (p : nat * HeadKVSlice)
  : gmap string saved_tensor :=
  <[key "v_" p.1 := RowTensor (sl_v p.2)]>
    (<[key "k_" p.1 := RowTensor (sl_k p.2)]>
      (<[key "pos_" p.1 := PosTensor (sl_positions p.2)]> m)).

Definition payload_object (p : HeadClassKVPayload) : saved_object :=
  (mkMeta (py_num_layers p) (py_num_kv_heads p) (py_head_dim p) (py_seq_len p)
     (dtype_name (py_dtype p))
     ((fun s => mkSliceMeta (sl_layer s) (sl_head s) (sl_policy s)
                  (Z.of_nat (length (sl_positions s)))) <$> slices p),
   foldl put_slice ∅ (zip (seq 0 (length (slices p))) (slices p))).

Definition get_pos (m : gmap string saved_tensor) (k : string) : result (list Z) :=
  do! t <- py_lookup m k; match t with PosTensor l => Ok l | _ => Raise TypeError end.

Definition get_rows (m : gmap string saved_tensor) (k : string) : result (tensor row) :=
  do! t <- py_lookup m k; match t with RowTensor x => Ok x | _ => Raise TypeError end.

Definition object_payload (o : saved_object) : result HeadClassKVPayload :=
  do! dt <- getattr_torch (me_dtype o.1);
  do! ss <- traverse (fun p : nat * SliceMeta =>
              do! pos <- get_pos o.2 (key "pos_" p.1);
              do! k <- get_rows o.2 (key "k_" p.1);
              do! v <- get_rows o.2 (key "v_" p.1);
              Ok (mkSlice (sm_layer p.2) (sm_head p.2) (sm_policy p.2) pos k v))
            (zip (seq 0 (length (me_slices o.1))) (me_slices o.1));
  Ok (mkPayload (me_num_layers o.1) (me_num_kv_heads o.1) (me_head_dim o.1) (me_seq_len o.1) ss dt).

Context {blob : Type} (torch_save : saved_object → blob) (torch_load : blob → result saved_object).

Definition serialize (p : HeadClassKVPayload) : blob := torch_save (payload_object p).
Definition deserialize (b : blob) : result HeadClassKVPayload :=
  do! o <- torch_load b; object_payload o.

(** ** Building the payload *)

Definition _policy_for (c : HeadClassConfig) (li h : Z) : result string :=
  do! strat <- get_strategy c li h;
  Ok (if is_local strat then POLICY_LOCAL else POLICY_GLOBAL).

(** The positions sent for a head. *)
Definition sent_positions (L : nat) (strat : HeadStrategy) : result (list Z) :=
  let policy := if is_local strat then POLICY_LOCAL else POLICY_GLOBAL in
  if bool_decide (policy = POLICY_GLOBAL) then arange 0 (Z.of_nat L)
  else
    let w := if bool_decide (window strat > 0)%Z then window strat else 0%Z in
    local_visible_indices (Z.of_nat L) (Z.max (sink_size strat) 0) w.

(** [x[h].index_select(0, pos)] of a rank-3 tensor. *)
Definition head_rows (x : tensor row) (h : nat) (pos : list Z) : result (tensor row) :=
  match x with
  | T3 _ D heads => do! r <- py_get heads (Z.of_nat h); do! s <- index_select r pos; Ok (T2 D s)
  | _ => Raise IndexError
  end.

Definition build_slice (c : HeadClassConfig) (L : nat) (li : nat) (KV : tensor row * tensor row)
    (h : nat) : result HeadKVSlice :=
  do! strat <- get_strategy c (Z.of_nat li) (Z.of_nat h);
  do! pos <- sent_positions L strat;
  do! k_h <- head_rows KV.1 h pos;
  do! v_h <- head_rows KV.2 h pos;
  Ok (mkSlice (Z.of_nat li) (Z.of_nat h) (if is_local strat then POLICY_LOCAL else POLICY_GLOBAL)
        pos k_h v_h).

Definition build_transfer_payload (kv_per_layer : list (tensor row * tensor row)) (dt : dtype)
    (c : HeadClassConfig) : result HeadClassKVPayload :=
  match kv_per_layer with
  | [] => Raise ValueError
  | (T3 L D heads, _) :: _ =>
      let H := length heads in
      do! rows <- traverse (fun p : nat * (tensor row * tensor row) =>
                    traverse (build_slice c L p.1 p.2) (seq 0 H))
                  (zip (seq 0 (length kv_per_layer)) kv_per_layer);
      Ok (mkPayload (length kv_per_layer) H D L (concat rows) dt)
  | _ => Raise ValueError
  end.

(** ** Restoring *)

Definition slice_rows (x : tensor row) : result (list row) :=
  match x with T2 _ rows => Ok rows | _ => Raise RuntimeError end.

(** The in-place copies of one slice. *)
Definition copy_slice (KV : list (list row) * list (list row)) (s : HeadKVSlice)
  : result (list (list row) * list (list row)) :=
  do! kd <- py_get KV.1 (sl_head s);
  do! k <- slice_rows (sl_k s);
  do! kd' <- index_copy kd (sl_positions s) (cast <$> k);
  do! vd <- py_get KV.2 (sl_head s);
  do! v <- slice_rows (sl_v s);
  do! vd' <- index_copy vd (sl_positions s) (cast <$> v);
  do! ks <- py_set KV.1 (sl_head s) kd';
  do! vs <- py_set KV.2 (sl_head s) vd';
  Ok (ks, vs).

Definition restore_step (out : list (list (list row) * list (list row))) (s : HeadKVSlice)
  : result (list (list (list row) * list (list row))) :=
  do! KV <- py_get out (sl_layer s);
  do! KV' <- copy_slice KV s;
  py_set out (sl_layer s) KV'.

(** The restored layers, each as its K and V heads of shape [H, L, D]. *)
Definition restore_payload (p : HeadClassKVPayload)
  : result (list (list (list row) * list (list row))) :=
  let zeros := replicate (py_num_kv_heads p) (replicate (py_seq_len p) zero_row) in
  foldM restore_step (slices p) (replicate (py_num_layers p) (zeros, zeros)).

(** * Correctness *)

Hypothesis getattr_name : ∀ d, getattr_torch (dtype_name d) = Ok d.

(** ** The serialised form *)

Lemma key_inj p q i j : String.length p = String.length q → key p i = key q j → p = q ∧ i = j.
Proof.
  unfold key. revert q. induction p as [|a p IH]; intros [|b q] Hl; simpl in *; try done.
  - intros Hp. split; [done|]. by apply (inj pretty).
  - intros [= -> Hp]. destruct (IH q) as [-> ->]; [lia|done|done].
Qed.

Lemma key_pos_ne q i j : q ∈ ["k_"; "v_"] → key "pos_" i ≠ key q j.
Proof. rewrite !elem_of_cons, elem_of_nil. intros [-> | [-> | []]] [=]. Qed.

Lemma put_slice_lookup m i s (P : string) (j : nat) :
  P ∈ ["pos_"; "k_"; "v_"] → i ≠ j → put_slice m (i, s) !! key P j = m !! key P j.
Proof.
  intros HP Hij. unfold put_slice. cbn [fst snd].
  assert (Hne : ∀ q, q ∈ ["pos_"; "k_"; "v_"] → key q i ≠ key P j).
  { intros q Hq Heq. rewrite !elem_of_cons, elem_of_nil in HP, Hq.
    destruct HP as [-> | [-> | [-> | []]]], Hq as [-> | [-> | [-> | []]]];
      first [apply key_inj in Heq; [naive_solver|done]|discriminate Heq]. }
  rewrite !lookup_insert_ne; [done|apply Hne; set_solver..].
Qed.

Lemma tensors_lookup l (i : nat) s :
  l !! i = Some s →
  let m := foldl put_slice ∅ (zip (seq 0 (length l)) l) in
  m !! key "pos_" i = Some (PosTensor (sl_positions s)) ∧
  m !! key "k_" i = Some (RowTensor (sl_k s)) ∧ m !! key "v_" i = Some (RowTensor (sl_v s)).
Proof.
  revert i s. induction l as [|x l IH] using rev_ind; [done|]. intros i s Hi m.
  subst m. rewrite length_app. cbn [length]. rewrite Nat.add_1_r, seq_S.
  rewrite zip_with_app by by rewrite length_seq. rewrite foldl_app. cbn [zip_with zip foldl Nat.add].
  destruct (decide (i = length l)) as [->|Hne].
  - rewrite list_lookup_middle in Hi by done. injection Hi as ->. unfold put_slice at 1 3 5. cbn [fst snd].
    split; [|split].
    + rewrite lookup_insert_ne, lookup_insert_ne, lookup_insert_eq; [done|..];
        intros Heq; symmetry in Heq; revert Heq; apply key_pos_ne; set_solver.
    + rewrite lookup_insert_ne, lookup_insert_eq; [done|].
      intros Heq. by apply key_inj in Heq as [? _].
    + by rewrite lookup_insert_eq.
  - rewrite lookup_app_l in Hi.
    + rewrite !put_slice_lookup by (done || set_solver). by apply IH.
    + apply lookup_lt_Some in Hi as Hlt. rewrite length_app in Hlt. simpl in Hlt. lia.
Qed.

Lemma object_roundtrip p : object_payload (payload_object p) = Ok p.
Proof.
  unfold object_payload, payload_object. cbn [fst snd me_dtype me_slices]. rewrite getattr_name. run_bind.
  rewrite length_fmap.
  assert (Htr : traverse (fun q : nat * SliceMeta =>
      do! pos <- get_pos (foldl put_slice ∅ (zip (seq 0 (length (slices p))) (slices p))) (key "pos_" q.1);
      do! k <- get_rows (foldl put_slice ∅ (zip (seq 0 (length (slices p))) (slices p))) (key "k_" q.1);
      do! v <- get_rows (foldl put_slice ∅ (zip (seq 0 (length (slices p))) (slices p))) (key "v_" q.1);
      Ok (mkSlice (sm_layer q.2) (sm_head q.2) (sm_policy q.2) pos k v))
    (zip (seq 0 (length (slices p)))
       ((fun s => mkSliceMeta (sl_layer s) (sl_head s) (sl_policy s)
                    (Z.of_nat (length (sl_positions s)))) <$> slices p)) = Ok (slices p)).
  { apply traverse_Ok, Forall2_same_length_lookup.
    rewrite length_zip_with, length_seq, length_fmap. split; [lia|].
    intros i q s Hq Hs. apply lookup_zip_with_Some in Hq as (j & sm & -> & Hj & Hsm).
    apply lookup_seq in Hj as [-> _]. rewrite list_lookup_fmap, Hs in Hsm. injection Hsm as <-.
    destruct (tensors_lookup (slices p) i s Hs) as (H1 & H2 & H3). cbn [fst snd Nat.add].
    unfold get_pos, get_rows, py_lookup. rewrite H1. run_bind. rewrite H2. run_bind. rewrite H3. run_bind.
    by destruct s. }
  rewrite Htr. run_bind. by destruct p.
Qed.

(** ** The transferred positions *)

Definition sends (strat : HeadStrategy) (L i : Z) : bool :=
  if is_local strat
  then visible L (Z.max (sink_size strat) 0) (if bool_decide (window strat > 0)%Z then window strat else 0%Z) i
  else true.

Lemma sent_positions_eq L strat :
  sent_positions L strat = Ok (positions_of (Z.of_nat L) (sends strat (Z.of_nat L))).
Proof.
  unfold sent_positions, sends. destruct (is_local strat).
  - rewrite bool_decide_eq_false_2 by done. by rewrite local_visible_indices_eq by lia.
  - rewrite bool_decide_eq_true_2, arange_ok, Z.sub_0_r by (done || lia). f_equal.
    symmetry. apply filter_all. apply Forall_seqZ. done.
Qed.

(** ** Build and restore *)

Section wf.
Context (R C : nat) (c : HeadClassConfig) (L D H : nat)
  (layers : list (list (list row) * list (list row))).
Hypothesis Hc : wf_config R C c.
Hypothesis HR : length layers ≤ R.
Hypothesis HC : H ≤ C.
Hypothesis Hlayers : Forall (wf_layer L H) layers.

Definition layer_kv : list (tensor row * tensor row) :=
  (fun l => (T3 L D l.1, T3 L D l.2)) <$> layers.

(** The strategy of a cell of the table. *)
Definition strat_at (li h : nat) : HeadStrategy :=
  match get_strategy c (Z.of_nat li) (Z.of_nat h) with
  | Ok st => st
  | Raise _ => mkHeadStrategy 0 0 "" 0 0
  end.

Definition sent (li h : nat) : Z → bool := sends (strat_at li h) (Z.of_nat L).

Definition slice_at (li h : nat) (l : list (list row) * list (list row)) : HeadKVSlice :=
  let pos := positions_of (Z.of_nat L) (sent li h) in
  mkSlice (Z.of_nat li) (Z.of_nat h) (if is_local (strat_at li h) then POLICY_LOCAL else POLICY_GLOBAL) pos
    (T2 D (select_rows (default [] (l.1 !! h)) pos)) (T2 D (select_rows (default [] (l.2 !! h)) pos)).

Definition slices_of : list (list HeadKVSlice) :=
  imap (fun li l => (fun h => slice_at li h l) <$> seq 0 H) layers.

Lemma strat_at_ok li h :
  li < length layers → h < H → get_strategy c (Z.of_nat li) (Z.of_nat h) = Ok (strat_at li h).
Proof.
  intros Hli Hh. destruct (wf_cells R C c li h Hc) as (t & d & ss & Ha & Ht & Hd & Hs); [lia|lia|].
  unfold strat_at. by rewrite (get_strategy_cells _ _ _ _ _ _ Ha Ht Hd Hs).
Qed.

Lemma head_rows_ok (heads : list (list row)) h P :
  rect H L heads → h < H →
  head_rows (T3 L D heads) h (positions_of (Z.of_nat L) P)
  = Ok (T2 D (select_rows (default [] (heads !! h)) (positions_of (Z.of_nat L) P))).
Proof.
  intros [HRh HCh] Hh. element heads h as k Hk.
  pose proof (Forall_lookup_1 _ _ _ _ HCh Hk) as Hlk. simpl in Hlk.
  unfold head_rows. run_gets.
  rewrite (proj1 (index_select_rows k _ ltac:(rewrite Hlk; apply positions_of_range))). by rewrite Hk.
Qed.

Lemma build_slice_ok li l h :
  layers !! li = Some l → h < H →
  build_slice c L li (T3 L D l.1, T3 L D l.2) h = Ok (slice_at li h l).
Proof.
  intros Hl Hh. destruct (Forall_lookup_1 _ _ _ _ Hlayers Hl) as [H1 H2].
  unfold build_slice. rewrite strat_at_ok by (done || by eapply lookup_lt_Some). run_bind.
  rewrite sent_positions_eq. run_bind. cbn [fst snd].
  rewrite (head_rows_ok l.1) by done. run_bind. rewrite (head_rows_ok l.2) by done. done.
Qed.

Lemma build_payload_ok dt :
  0 < length layers →
  build_transfer_payload layer_kv dt c
  = Ok (mkPayload (length layers) H D L (concat slices_of) dt).
Proof.
  intros Hne.
  assert (Htr : traverse (fun p : nat * (tensor row * tensor row) =>
      traverse (build_slice c L p.1 p.2) (seq 0 H)) (zip (seq 0 (length layers)) layer_kv) = Ok slices_of).
  { apply traverse_Ok, Forall2_same_length_lookup. unfold slices_of, layer_kv.
    rewrite length_zip_with, length_imap, length_seq, length_fmap. split; [lia|].
    intros li p r Hp Hr. rewrite list_lookup_imap in Hr.
    destruct (layers !! li) as [l|] eqn:Hl; [|done]. injection Hr as <-.
    apply lookup_zip_with_Some in Hp as (i & x & -> & Hi & Hx).
    apply lookup_seq in Hi as [-> _]. rewrite list_lookup_fmap, Hl in Hx. injection Hx as <-.
    apply traverse_pure. intros h Hh%elem_of_seq. apply build_slice_ok; [done|lia]. }
  assert (Hlen : length layer_kv = length layers) by apply length_fmap.
  unfold build_transfer_payload. destruct layer_kv as [|[k0 v0] rest] eqn:Hkv; [simpl in Hlen; lia|].
  assert (Hk0 : ∃ heads, k0 = T3 L D heads ∧ length heads = H).
  { unfold layer_kv in Hkv. destruct layers as [|l0 ls]; [done|]. injection Hkv as <- _ _.
    exists l0.1. split; [done|]. by apply Forall_cons in Hlayers as [[[? _] _] _]. }
  destruct Hk0 as (heads & -> & <-). rewrite Hlen, Htr. done.
Qed.

Lemma restore_step_at s li out KV :
  sl_layer s = Z.of_nat li → out !! li = Some KV →
  restore_step out s = do! KV' <- copy_slice KV s; Ok (<[li := KV']> out).
Proof.
  intros Hs Hout. unfold restore_step. rewrite Hs, (py_get_nat _ _ _ Hout). run_bind.
  destruct (copy_slice KV s); run_bind; [|done]. apply py_set_nat. by eapply lookup_lt_Some.
Qed.

Lemma restore_one_layer ss li out KV :
  Forall (fun s => sl_layer s = Z.of_nat li) ss → out !! li = Some KV →
  foldM restore_step ss out = do! KV' <- foldM copy_slice ss KV; Ok (<[li := KV']> out).
Proof.
  intros Hss. revert out KV. induction Hss as [|s ss Hs _ IH]; intros out KV Hout; cbn [foldM].
  { run_bind. by rewrite list_insert_id. }
  rewrite (restore_step_at s li out KV Hs Hout).
  destruct (copy_slice KV s) as [KV'|] eqn:E; run_bind; [|done].
  assert (li < length out) by by eapply lookup_lt_Some.
  rewrite (IH _ KV') by by apply list_lookup_insert_eq.
  destruct (foldM copy_slice ss KV'); run_bind; [|done]. by rewrite list_insert_insert_eq.
Qed.

(** The restored K and V heads of a layer. *)
Definition restored (li : nat) (l : list (list row) * list (list row))
  : list (list row) * list (list row) :=
  (imap (fun h => padded zero_row cast (sent li h)) l.1,
   imap (fun h => padded zero_row cast (sent li h)) l.2).

Lemma copy_layer li l :
  layers !! li = Some l →
  foldM copy_slice ((fun h => slice_at li h l) <$> seq 0 H)
    (replicate H (replicate L zero_row), replicate H (replicate L zero_row))
  = Ok (restored li l).
Proof.
  intros Hl. destruct (Forall_lookup_1 _ _ _ _ Hlayers Hl) as [[HR1 HC1] [HR2 HC2]].
  rewrite foldM_fmap.
  rewrite (fill_pair H _ _
    (fun h => padded zero_row cast (sent li h) (default [] (l.1 !! h)))
    (fun h => padded zero_row cast (sent li h) (default [] (l.2 !! h)))).
  - f_equal. unfold restored. f_equal; apply list_eq; intros h; rewrite list_lookup_fmap, list_lookup_imap;
      (destruct (decide (h < H)) as [Hh|Hh];
       [|by rewrite lookup_seq_ge, lookup_ge_None_2 by lia]);
      rewrite lookup_seq_lt by done; simpl;
      [destruct (lookup_lt_is_Some_2 l.1 h) as [k Hk]|destruct (lookup_lt_is_Some_2 l.2 h) as [k Hk]];
      try lia; by rewrite Hk.
  - intros ka kb h Hh Hka Hkb.
    destruct (lookup_lt_is_Some_2 l.1 h) as [k Hk]; [lia|].
    destruct (lookup_lt_is_Some_2 l.2 h) as [v Hv]; [lia|].
    pose proof (Forall_lookup_1 _ _ _ _ HC1 Hk) as Hlk. pose proof (Forall_lookup_1 _ _ _ _ HC2 Hv) as Hlv.
    simpl in Hlk, Hlv. unfold copy_slice, slice_at.
    cbn [sl_head sl_k sl_v sl_positions slice_rows fst snd]. rewrite Hk, Hv.
    run_gets. cbn [default from_option]. unfold id.
    rewrite (index_copy_padded zero_row cast L (sent li h) k Hlk). run_bind.
    run_gets.
    rewrite (index_copy_padded zero_row cast L (sent li h) v Hlv). run_bind.
    rewrite !py_set_nat by (by eapply lookup_lt_Some). done.
Qed.

Lemma restore_ok dt :
  restore_payload (mkPayload (length layers) H D L (concat slices_of) dt)
  = Ok (imap restored layers).
Proof.
  unfold restore_payload. cbn [py_num_kv_heads py_seq_len slices py_num_layers].
  rewrite foldM_concat. assert (Hlen : length slices_of = length layers) by apply length_imap.
  rewrite <-Hlen. apply fill_by_index; [rewrite Hlen; apply length_imap|].
  intros i ss y out Hss Hy Hout Hlo. unfold slices_of in Hss. rewrite list_lookup_imap in Hss. rewrite list_lookup_imap in Hy.
  destruct (layers !! i) as [l|] eqn:Hl; [|done]. injection Hss as <-. injection Hy as <-.
  erewrite (restore_one_layer _ i); [|by apply Forall_fmap, Forall_true|exact Hout].
  by rewrite (copy_layer i l Hl).
Qed.

End wf.

(** a payload crosses the boundary unchanged: deserialising the serialised
    form gives back every field, slice order included, for any transport that
    loads what it saved. *)
Theorem serialize_roundtrip p :
  (∀ o, torch_load (torch_save o) = Ok o) → deserialize (serialize p) = Ok p.
Proof. intros Hio. unfold deserialize, serialize. rewrite Hio. run_bind. apply object_roundtrip. Qed.

(** C36: What the decode side restores from the transferred payload is the
    prefill KV with every position the head's class does not read zeroed: for a
    head that is not local nothing is lost, a local head keeps its sinks and
    its window.  Every step returns. *)
Theorem transfer_roundtrip R C c L D H layers dt :
  wf_config R C c → length layers ≤ R → H ≤ C → 0 < length layers →
  Forall (wf_layer L H) layers → (∀ o, torch_load (torch_save o) = Ok o) →
  ∃ p p', build_transfer_payload (layer_kv L D layers) dt c = Ok p ∧
    deserialize (serialize p) = Ok p' ∧
    restore_payload p'
    = Ok (imap (fun li l =>
        (imap (fun h => padded zero_row cast (sent c L li h)) l.1,
         imap (fun h => padded zero_row cast (sent c L li h)) l.2)) layers).
Proof.
  intros Hc HR HC Hne Hl Hio. eexists _, _.
  split; [by apply (build_payload_ok R C)|]. split.
  - unfold deserialize, serialize. rewrite Hio. run_bind. apply object_roundtrip.
  - by apply (restore_ok R C).
Qed.

End transfer.

(** * Witnesses

    The transport is the identity; the only dtype is two bytes wide. *)

Definition wit_getattr (n : string) : result unit :=
  if bool_decide (n = "bfloat16") then Ok tt else Raise AttributeError.

Definition wit_payload : @HeadClassKVPayload nat unit :=
  mkPayload 1 1 1 2 [mkSlice 0 0 POLICY_LOCAL [1%Z] (T2 1 [7]) (T2 1 [8])] tt.

Lemma serialize_roundtrip_witness :
  deserialize wit_getattr Ok (serialize (fun _ => "bfloat16") id wit_payload) = Ok wit_payload.
Proof.
  apply (serialize_roundtrip 0 id (fun _ : unit => "bfloat16") wit_getattr id Ok);
    [by intros []|reflexivity].
Defined.

Lemma transfer_roundtrip_witness :
  ∃ p p',
    build_transfer_payload (layer_kv 4 1 [([[1; 2; 3; 4]], [[5; 6; 7; 8]])]) tt (scenario 2 0) = Ok p ∧
    deserialize wit_getattr Ok (serialize (fun _ => "bfloat16") id p) = Ok p' ∧
    restore_payload 0 id p' = Ok [([[1; 0; 3; 4]], [[5; 0; 7; 8]])].
Proof.
  apply (transfer_roundtrip 0 id (fun _ : unit => "bfloat16") wit_getattr id Ok
           ltac:(by intros []) 2 1 (scenario 2 0) 4 1 1 [([[1; 2; 3; 4]], [[5; 6; 7; 8]])] tt);
    [apply scenario_wf|simpl; lia|lia|simpl; lia| |reflexivity].
  apply Forall_singleton. split; by apply (bool_decide_unpack (rect _ _ _)).
Defined.
