(* ===== verification/MaskPlan.v ===== *)
(** The per-layer dispatch plan ([redknot/mask_plan.py]): the class codes,
    windows and sink masks of the KV heads one rank owns, and the groups of
    heads handed to the attention strategies. *)

From S2P Require Import Prelude Tensor HeadConfig.

Record LayerMaskPlan := mkMaskPlan {
  type_codes : list Z;
  plan_window : list Z;
  sink_keep : list (list bool);
  sink_max : Z;
}.

(** [sinks.max().item()], of a non-empty tensor. *)
Definition max_of (l : list Z) : Z :=
  match l with [] => 0%Z | x :: l => foldl Z.max x l end.

(** [build_layer_mask_plan]; the rank owns heads
    [kv_head_start, kv_head_start + kv_head_count), or all of them. *)
Definition build_layer_mask_plan (c : HeadClassConfig) (layer_idx : Z) (device : string)
    (kv_head_start : nat) (kv_head_count : option nat)
  : result (HeadClassConfig * LayerMaskPlan) :=
  do! r <- as_tensors device "int32" c;
  do! types <- py_get (b_head_type r.2) layer_idx;
  do! windows <- py_get (b_window r.2) layer_idx;
  do! sinks <- py_get (b_sink_size r.2) layer_idx;
  let cut {A} (l : list A) := match kv_head_count with
             | Some n => slice kv_head_start (kv_head_start + n) l
             | None => l
             end in
  let sinks := cut sinks in
  let m := Z.max 0 (max_of sinks) in
  let keep := (fun s => (fun col => bool_decide (col < s)%Z) <$> range m) <$> sinks in
  Ok (r.1, mkMaskPlan (cut types) (cut windows) keep m).

(** [pad_per_head_sinks] on K and V of shape [B, H, L1, D]: the first
    [sink_max] time steps, zero-padded when there are fewer.  The length of K
    decides for both. *)
Definition pad_sinks {row} (zero_row : row) (L1 S_max : nat) (batches : list (list (list row)))
  : list (list (list row)) :=
  if bool_decide (S_max ≤ L1) then mat_map (take S_max) batches
  else mat_map (fun h => h ++ replicate (S_max - L1) zero_row) batches.

Definition pad_per_head_sinks {row} (zero_row : row) (k v : tensor row) (plan : LayerMaskPlan)
  : result (tensor row * tensor row) :=
  let S_max := Z.to_nat (sink_max plan) in
  match k, v with
  | T4 L1 D kb, T4 Lv Dv vb =>
      if bool_decide (S_max = 0) then Ok (T4 0 D (mat_map (take 0) kb), T4 0 Dv (mat_map (take 0) vb))
      else
        let width L := if bool_decide (S_max ≤ L1) then Nat.min S_max L else L + (S_max - L1) in
        Ok (T4 (width L1) D (pad_sinks zero_row L1 S_max kb),
            T4 (width Lv) Dv (pad_sinks zero_row L1 S_max vb))
  | _, _ => Raise IndexError
  end.

(** The indices whose code is [code], increasing. *)
Definition heads_of (codes : list Z) (code : Z) : list nat :=
  filter (fun i => codes !! i = Some code) (seq 0 (length codes)).

Definition group_heads_by_type (plan : LayerMaskPlan) : gmap Z (list nat) :=
  foldl (fun out code =>
           let idx := heads_of (type_codes plan) code in
           if bool_decide (0 < length idx) then <[code := idx]> out else out)
    ∅ [TYPE_LOCAL; TYPE_GLOBAL; TYPE_RETRIEVAL; TYPE_DENSE].

Definition q_head_indices (kv_head_idx : list nat) (num_q_per_kv : nat) : list nat :=
  concat ((fun h => (fun o => h * num_q_per_kv + o) <$> seq 0 num_q_per_kv) <$> kv_head_idx).

(** * The plan of a well-formed configuration *)

Lemma fill_matrix_lookup R C c f m (i : nat) :
  wf_config R C c → fill_matrix c f = Ok m → i < R →
  ∃ r, m !! i = Some r ∧ length r = C ∧
    ∀ j : nat, j < C → ∃ st z, get_strategy c (Z.of_nat i) (Z.of_nat j) = Ok st ∧ f st = Ok z ∧
      r !! j = Some z.
Proof.
  intros Hc Hm Hi. unfold fill_matrix in Hm.
  rewrite (wf_layers _ _ _ Hc), (wf_heads _ _ _ Hc), !range_nat in Hm.
  destruct (traverse_lookup _ _ _ i (Z.of_nat i) Hm) as (r & Hr & Hrow).
  { by rewrite list_lookup_fmap, lookup_seq_lt by done. }
  exists r. split; [done|]. split.
  { apply traverse_length in Hrow. by rewrite Hrow, length_fmap, length_seq. }
  intros j Hj. destruct (traverse_lookup _ _ _ j (Z.of_nat j) Hrow) as (z & Hz & Hcell).
  { by rewrite list_lookup_fmap, lookup_seq_lt by done. }
  unbind Hcell as st Hst. eauto.
Qed.

Lemma slice_lookup {A} (l : list A) a n j : j < n → slice a (a + n) l !! j = l !! (a + j).
Proof.
  intros Hj. unfold slice. replace (a + n - a) with n by lia.
  by rewrite lookup_take_lt, lookup_drop by done.
Qed.

Lemma foldl_max_le x l : (x ≤ foldl Z.max x l)%Z ∧ Forall (fun y => y ≤ foldl Z.max x l)%Z l.
Proof.
  revert x. induction l as [|y l IH]; intros x; simpl; [split; [lia|done]|].
  destruct (IH (Z.max x y)) as [H1 H2]. split; [lia|]. constructor; [lia|done].
Qed.

Lemma max_of_le l : Forall (fun y => y ≤ max_of l)%Z l.
Proof.
  destruct l as [|x l]; [constructor|]. destruct (foldl_max_le x l). by constructor.
Qed.

Lemma range_below m s : (s ≤ m)%Z →
  length (filter (fun b => b = true) ((fun col => bool_decide (col < s)%Z) <$> range m))
  = Z.to_nat (Z.max 0 s).
Proof.
  intros Hs. destruct (decide (m ≤ 0)%Z) as [Hm|Hm].
  { unfold range. rewrite seqZ_nil by lia. simpl. lia. }
  assert (Hsplit : range m = range (Z.max 0 s) ++ seqZ (Z.max 0 s) (m - Z.max 0 s)).
  { unfold range. pose proof (seqZ_split 0 (Z.max 0 s) m ltac:(lia)) as He.
    rewrite !Z.sub_0_r in He. exact He. }
  rewrite Hsplit, fmap_app, filter_app, length_app.
  assert (H1 : ∀ l, Forall (fun col => col < s)%Z l →
    length (filter (fun b => b = true) ((fun col => bool_decide (col < s)%Z) <$> l)) = length l).
  { induction 1 as [|x l Hx _ IH]; [done|]. rewrite fmap_cons, filter_cons_True by (by apply bool_decide_eq_true_2).
    simpl. by rewrite IH. }
  assert (H2 : ∀ l, Forall (fun col => ¬ col < s)%Z l →
    length (filter (fun b => b = true) ((fun col => bool_decide (col < s)%Z) <$> l)) = 0).
  { induction 1 as [|x l Hx _ IH]; [done|]. rewrite fmap_cons, filter_cons_False; [done|].
    by rewrite bool_decide_eq_true. }
  rewrite H1, H2.
  - unfold range. rewrite length_seqZ. lia.
  - apply Forall_forall. intros x Hx%elem_of_seqZ. lia.
  - apply Forall_forall. intros x Hx%elem_of_range. lia.
Qed.

(** The group stored under a code. *)
Lemma group_lookup plan code :
  code ∈ [TYPE_LOCAL; TYPE_GLOBAL; TYPE_RETRIEVAL; TYPE_DENSE] →
  default [] (group_heads_by_type plan !! code) = heads_of (type_codes plan) code.
Proof.
  intros Hc. unfold group_heads_by_type. simpl.
  rewrite !elem_of_cons, elem_of_nil in Hc.
  assert (Hz : ∀ l : list nat, ¬ 0 < length l → l = []) by (intros [|] ?; simpl in *; [done|lia]).
  destruct Hc as [-> | [-> | [-> | [-> | []]]]];
    repeat case_bool_decide; rewrite ?lookup_insert_eq, ?lookup_insert_ne, ?lookup_empty by done;
    rewrite ?lookup_insert_eq, ?lookup_insert_ne, ?lookup_empty by done; simpl; try done;
    symmetry; by apply Hz.
Qed.

Lemma group_codes plan code :
  is_Some (group_heads_by_type plan !! code) →
  code ∈ [TYPE_LOCAL; TYPE_GLOBAL; TYPE_RETRIEVAL; TYPE_DENSE].
Proof.
  unfold group_heads_by_type. simpl. intros [l Hl]. revert Hl.
  repeat case_bool_decide; rewrite ?lookup_insert_Some, ?lookup_empty; intros Hl;
    destruct_or?; destruct_and?; subst; try done; set_solver.
Qed.

Lemma elem_of_heads codes code j : j ∈ heads_of codes code ↔ codes !! j = Some code.
Proof.
  unfold heads_of. rewrite list_elem_of_filter, elem_of_seq. split; [tauto|]. intros H.
  split; [done|]. apply lookup_lt_Some in H. lia.
Qed.

Lemma elem_of_q_heads q kvs n : 0 < n → q ∈ q_head_indices kvs n ↔ q / n ∈ kvs.
Proof.
  intros Hn. unfold q_head_indices. induction kvs as [|h kvs IH]; [simpl; set_solver|].
  rewrite fmap_cons. cbn [concat]. rewrite elem_of_app, elem_of_cons, IH, list_elem_of_fmap.
  setoid_rewrite elem_of_seq. split.
  - intros [(o & -> & Ho)|Hq]; [left|by right]. symmetry. apply (Nat.div_unique _ _ _ o); lia.
  - intros [Hq|Hq]; [left|by right]. exists (q mod n). rewrite <-Hq.
    pose proof (Nat.div_mod_eq q n). pose proof (Nat.mod_upper_bound q n). lia.
Qed.

(** A head whose code is one of the four is grouped under that code only. *)
Lemma group_dispatch plan j z code :
  type_codes plan !! j = Some z →
  z ∈ [TYPE_LOCAL; TYPE_GLOBAL; TYPE_RETRIEVAL; TYPE_DENSE] →
  j ∈ default [] (group_heads_by_type plan !! code) ↔ code = z.
Proof.
  intros Hz Hcode. split.
  - intros Hin. destruct (decide (code ∈ [TYPE_LOCAL; TYPE_GLOBAL; TYPE_RETRIEVAL; TYPE_DENSE])) as [Hk|Hk].
    + rewrite group_lookup in Hin by done. apply elem_of_heads in Hin. congruence.
    + destruct (group_heads_by_type _ !! code) eqn:Hg; [|simpl in Hin; set_solver].
      exfalso. apply Hk. eapply group_codes. eauto.
  - intros ->. rewrite group_lookup by done. by apply elem_of_heads.
Qed.

Lemma TYPE_TO_INT_code ty z :
  ty ∈ ALLOWED_TYPES → py_lookup TYPE_TO_INT ty = Ok z →
  z ∈ [TYPE_LOCAL; TYPE_GLOBAL; TYPE_RETRIEVAL; TYPE_DENSE].
Proof.
  intros Ht Hz. destruct (TYPE_TO_INT_total ty Ht) as (z' & Hz' & Hr).
  assert (z' = z) as -> by congruence. unfold TYPE_LOCAL, TYPE_GLOBAL, TYPE_RETRIEVAL, TYPE_DENSE.
  rewrite !elem_of_cons, elem_of_nil. lia.
Qed.

(** For every layer and every slice of heads a rank owns, the plan is
    built, its codes, windows and sink masks are those of the strategies of the
    owned heads (a head owns exactly its sink count of the padded slots), and
    every query head of the rank is dispatched to exactly one class group, the
    class of its KV head. *)
Theorem mask_plan_dispatch R C c (i : nat) dev start count nq :
  wf_config R C c → cache_coherent c → i < R → start + count ≤ C → 0 < nq →
  ∃ c' plan, build_layer_mask_plan c (Z.of_nat i) dev start (Some count) = Ok (c', plan) ∧
    (∀ j, j < count → ∃ st z keep,
       get_strategy c (Z.of_nat i) (Z.of_nat (start + j)) = Ok st ∧
       py_lookup TYPE_TO_INT (head_type st) = Ok z ∧
       type_codes plan !! j = Some z ∧ plan_window plan !! j = Some (window st) ∧
       sink_keep plan !! j = Some keep ∧ length keep = Z.to_nat (sink_max plan) ∧
       length (filter (fun b => b = true) keep) = Z.to_nat (Z.max 0 (sink_size st)) ∧
       ∀ code q, q / nq = j →
         (q ∈ q_head_indices (default [] (group_heads_by_type plan !! code)) nq ↔ code = z)).
Proof.
  intros Hc Hco Hi Hcnt Hnq.
  assert (Hb : ∃ c' b dt, as_tensors dev "int32" c = Ok (c', b) ∧ compute_bundle c dt = Ok b).
  { unfold as_tensors. destruct (cached_tensors c !! dev) as [b|] eqn:Hd.
    - destruct (Hco dev b Hd) as [dt Hdt]. eauto 6.
    - destruct (compute_bundle_total R C c "int32" Hc) as [b Hb]. rewrite Hb. run_bind. eauto 6. }
  destruct Hb as (c' & b & dt & Has & Hcb).
  unfold compute_bundle in Hcb. unbind Hcb as types Ht. unbind Hcb as windows Hw.
  unbind Hcb as sinks Hs. injection Hcb as <-.
  destruct (fill_matrix_lookup R C c _ _ i Hc Ht Hi) as (rt & Hrt & Hlt & Hct).
  destruct (fill_matrix_lookup R C c _ _ i Hc Hw Hi) as (rw & Hrw & Hlw & Hcw).
  destruct (fill_matrix_lookup R C c _ _ i Hc Hs Hi) as (rs & Hrs & Hls & Hcs).
  unfold build_layer_mask_plan. rewrite Has. run_bind. cbn [b_head_type b_window b_sink_size snd fst].
  run_gets. eexists _, _. split; [done|]. intros j Hj.
  cbn [type_codes plan_window sink_keep sink_max].
  destruct (Hct (start + j)) as (st & z & Hst & Hz & Hjt); [lia|].
  destruct (Hcw (start + j)) as (st1 & w & Hst1 & [= <-] & Hjw); [lia|].
  destruct (Hcs (start + j)) as (st2 & sk & Hst2 & [= <-] & Hjs); [lia|].
  rewrite Hst in Hst1, Hst2. injection Hst1 as <-. injection Hst2 as <-.
  set (m := Z.max 0 (max_of (slice start (start + count) rs))).
  assert (Hsl : slice start (start + count) rs !! j = Some (sink_size st)) by by rewrite slice_lookup.
  assert (Hm : (sink_size st ≤ m)%Z).
  { pose proof (Forall_lookup_1 _ _ _ _ (max_of_le _) Hsl) as Hle. simpl in Hle. unfold m. lia. }
  exists st, z, ((fun col => bool_decide (col < sink_size st)%Z) <$> range m).
  do 2 (split; [done|]). rewrite !slice_lookup, Hjt, Hjw by done. do 2 (split; [done|]).
  rewrite list_lookup_fmap, Hsl. split; [done|].
  split; [rewrite length_fmap; unfold range; by rewrite length_seqZ|]. split; [by apply range_below|].
  intros code q Hq. rewrite elem_of_q_heads, Hq by done.
  apply group_dispatch; cbn [type_codes]; [by rewrite slice_lookup|].
  apply (TYPE_TO_INT_code (head_type st)); [|done].
  destruct (wf_strategy R C c (Z.of_nat i) (Z.of_nat (start + j)) Hc) as (s & Hs' & Ha);
    [rewrite (wf_layers _ _ _ Hc); apply elem_of_range; lia
    |rewrite (wf_heads _ _ _ Hc); apply elem_of_range; lia|]. congruence.
Qed.

(** A rank owning the second head of each layer, two query heads per KV head. *)
Lemma mask_plan_dispatch_witness :
  ∃ c' plan, build_layer_mask_plan demo_config 2 "cuda:0" 1 (Some 1) = Ok (c', plan) ∧
    (∀ j, j < 1 → ∃ st z keep,
       get_strategy demo_config 2 (Z.of_nat (1 + j)) = Ok st ∧
       py_lookup TYPE_TO_INT (head_type st) = Ok z ∧
       type_codes plan !! j = Some z ∧ plan_window plan !! j = Some (window st) ∧
       sink_keep plan !! j = Some keep ∧ length keep = Z.to_nat (sink_max plan) ∧
       length (filter (fun b => b = true) keep) = Z.to_nat (Z.max 0 (sink_size st)) ∧
       ∀ code q, q / 2 = j →
         (q ∈ q_head_indices (default [] (group_heads_by_type plan !! code)) 2 ↔ code = z)).
Proof.
  apply (mask_plan_dispatch 3 2 demo_config 2 "cuda:0" 1 1 2);
    [exact demo_config_wf|by apply empty_cache_coherent|lia|lia|lia].
Defined.
