(* ===== verification/CachePolicy.v ===== *)
(** The capacity model and the reuse-prioritised chunk cache
    ([redknot/scheduler.py]). *)

From Stdlib Require Import QArith Qminmax Lqa.
From S2P Require Import Prelude Tensor VisiblePlan HeadConfig.
Close Scope Q_scope.

(** * Capacity model *)

(** The running totals of [per_session_kv_bytes], in tokens. *)
Record Footprint := mkFoot {
  dense_tokens : Z;
  head_aware_tokens : Z;
  global_tokens : Z;
  local_tokens : Z;
}.

Definition count_head (L : Z) (st : HeadStrategy) (f : Footprint) : Footprint :=
  if is_local st then
    let kept := Z.min L (Z.max (window st) 0 + Z.max (sink_size st) 0) in
    mkFoot (dense_tokens f + L) (head_aware_tokens f + kept) (global_tokens f) (local_tokens f + kept)
  else mkFoot (dense_tokens f + L) (head_aware_tokens f + L) (global_tokens f + L) (local_tokens f).

Record SessionBytes := mkSession {
  dense_bytes : Z;
  head_aware_bytes : Z;
  tokens : Footprint;
}.

Definition per_session_kv_bytes (c : HeadClassConfig) (seq_len head_dim dtype_bytes : Z)
  : result SessionBytes :=
  let bytes_per_tok := (2 * head_dim * dtype_bytes)%Z in
  do! f <- for_cells (num_layers c) (num_kv_heads c)
             (fun li h f => do! st <- get_strategy c li h; Ok (count_head seq_len st f))
             (mkFoot 0 0 0 0);
  Ok (mkSession (dense_tokens f * bytes_per_tok) (head_aware_tokens f * bytes_per_tok) f)%Z.

(** Sessions in a budget, dense and head-aware; the multiplier is absent where
    the code returns infinity. *)
Record Capacity := mkCapacity {
  dense_sessions : Z;
  head_aware_sessions : Z;
  capacity_multiplier : option Q;
}.

Definition sessions (budget foot : Z) : Z := if bool_decide (foot = 0)%Z then 0%Z else (budget / foot)%Z.

Definition concurrent_capacity (c : HeadClassConfig) (seq_len head_dim budget dtype_bytes : Z)
  : result Capacity :=
  do! s <- per_session_kv_bytes c seq_len head_dim dtype_bytes;
  let d := sessions budget (dense_bytes s) in
  let h := sessions budget (head_aware_bytes s) in
  Ok (mkCapacity d h (if bool_decide (d = 0)%Z then None else Some (inject_Z h / inject_Z d)%Q)).

(** * The chunk cache *)

Record ChunkEntry := mkChunk {
  chunk_id : string;
  nbytes : Z;
  reuse_count : Z;
  recovery_cost : Q;
  last_used_step : Z;
}.

(** [priority]; recency is at most one and never zero. *)
Definition recency (now : Z) (e : ChunkEntry) : Q :=
  (1 / (1 + inject_Z (Z.max 0 (now - last_used_step e))))%Q.

Definition priority (now : Z) (e : ChunkEntry) : Q :=
  (inject_Z (reuse_count e + 1) * recovery_cost e * (1 + recency now e))%Q.

Record Stats := mkStats {
  hits : Z;
  misses : Z;
  admissions : Z;
  evictions : Z;
}.

Record HeadAwareCachePolicy := mkCP {
  capacity_bytes : Z;
  entries : odict string ChunkEntry;
  used_bytes : Z;
  step : Z;
  stats : Stats;
}.

Definition new_policy (cap : Z) : HeadAwareCachePolicy := mkCP cap [] 0 0 (mkStats 0 0 0 0).

Definition tick (p : HeadAwareCachePolicy) : HeadAwareCachePolicy * Z :=
  (mkCP (capacity_bytes p) (entries p) (used_bytes p) (step p + 1) (stats p), (step p + 1)%Z).

(** A hit refreshes the entry and moves it to the end. *)
Definition touch (now : Z) (e : ChunkEntry) : ChunkEntry :=
  mkChunk (chunk_id e) (nbytes e) (reuse_count e + 1) (recovery_cost e) now.

Definition refreshed (cid : string) (e : ChunkEntry) (p : HeadAwareCachePolicy)
  : odict string ChunkEntry :=
  od_move_to_end cid (od_set cid (touch (step p) e) (entries p)).

Definition get (cid : string) (p : HeadAwareCachePolicy)
  : HeadAwareCachePolicy * option ChunkEntry :=
  let s := stats p in
  match od_get cid (entries p) with
  | None => (mkCP (capacity_bytes p) (entries p) (used_bytes p) (step p)
               (mkStats (hits s) (misses s + 1) (admissions s) (evictions s)), None)
  | Some e => (mkCP (capacity_bytes p) (refreshed cid e p) (used_bytes p) (step p)
                 (mkStats (hits s + 1) (misses s) (admissions s) (evictions s)),
               Some (touch (step p) e))
  end.

(** [min(entries, key=priority)]: the first entry of least priority. *)
Fixpoint min_entry (now : Z) (best : string * ChunkEntry) (l : odict string ChunkEntry)
  : string * ChunkEntry :=
  match l with
  | [] => best
  | x :: l => min_entry now (if Qlt_le_dec (priority now x.2) (priority now best.2) then x else best) l
  end.

(** One turn of the eviction loop.  The comparison with the priority of the new
    chunk in the source has no effect (both branches fall through). *)
Definition evict_one (x : string * ChunkEntry) (l : odict string ChunkEntry)
    (p : HeadAwareCachePolicy) : HeadAwareCachePolicy :=
  let victim := min_entry (step p) x l in
  let s := stats p in
  mkCP (capacity_bytes p) (od_del victim.1 (entries p)) (used_bytes p - nbytes victim.2) (step p)
    (mkStats (hits s) (misses s) (admissions s) (evictions s + 1)).

(** The [while] loop: it stops when the chunk fits or nothing is left. *)
Fixpoint make_room (fuel : nat) (need : Z) (p : HeadAwareCachePolicy) : option HeadAwareCachePolicy :=
  match entries p with
  | [] => Some p
  | x :: l =>
      if bool_decide (used_bytes p + need > capacity_bytes p)%Z then
        match fuel with
        | O => None
        | S fuel => make_room fuel need (evict_one x l p)
        end
      else Some p
  end.

(** [admit], with the number of resident chunks as fuel for the loop. *)
Definition admit_chunk (cid : string) (n : Z) (cost : Q) (p : HeadAwareCachePolicy)
  : result (HeadAwareCachePolicy * bool) :=
  match od_get cid (entries p) with
  | Some e => Ok (mkCP (capacity_bytes p) (refreshed cid e p) (used_bytes p) (step p) (stats p), true)
  | None =>
      if bool_decide (n > capacity_bytes p)%Z then Ok (p, false)
      else
        match make_room (length (entries p)) n p with
        | None => Raise RuntimeError
        | Some p1 =>
            if bool_decide (used_bytes p1 + n > capacity_bytes p1)%Z then Ok (p1, false)
            else
              let s := stats p1 in
              Ok (mkCP (capacity_bytes p1) (od_set cid (mkChunk cid n 0 cost (step p1)) (entries p1))
                    (used_bytes p1 + n) (step p1)
                    (mkStats (hits s) (misses s) (admissions s + 1) (evictions s)), true)
        end
  end.

Definition resident_chunks (p : HeadAwareCachePolicy) : list string := od_keys (entries p).

(** * The capacity model counts the tokens the heads see *)

Definition all_strategies (c : HeadClassConfig) : result (list (list HeadStrategy)) :=
  traverse (fun li => traverse (get_strategy c li) (range (num_kv_heads c))) (range (num_layers c)).

(** The positions of a context of [L] tokens that the strategy of a head lets it see: the
    sink and the window of a local head, everything for a global one. *)
Definition seen_positions (L : Z) (st : HeadStrategy) : list Z :=
  if is_local st then window_positions L (sink_size st) (window st) else seqZ 0 L.

Definition seen_tokens (L : Z) (sts : list HeadStrategy) : Z :=
  sumZ ((fun st => Z.of_nat (length (seen_positions L st))) <$> sts).

Lemma all_strategies_ok R C c :
  wf_config R C c → ∃ sts, all_strategies c = Ok sts ∧ rect R C sts.
Proof.
  intros Hc. unfold all_strategies.
  destruct (traverse _ (range (num_layers c))) as [sts|e] eqn:E.
  - exists sts. split; [done|].
    rewrite (wf_layers _ _ _ Hc), (wf_heads _ _ _ Hc) in E. split.
    + apply traverse_length in E. by rewrite E, range_nat, length_fmap, length_seq.
    + apply Forall_lookup_2. intros i row Hi. apply traverse_Ok in E.
      destruct (Forall2_lookup_r _ _ _ _ _ E Hi) as (li & _ & Hrow).
      apply traverse_length in Hrow. by rewrite Hrow, range_nat, length_fmap, length_seq.
  - exfalso. apply traverse_Raise in E as (li & Hli & (h & Hh & E)%traverse_Raise).
    destruct (wf_strategy R C c li h Hc Hli Hh) as (s & Hs & _). congruence.
Qed.

(** The counting loop is a fold over the strategies. *)
Lemma foldM_traverse {A B S} (f : A → result B) (g : S → B → S) l ys s :
  traverse f l = Ok ys → foldM (fun s x => do! y <- f x; Ok (g s y)) l s = Ok (foldl g s ys).
Proof.
  revert s ys. induction l as [|x l IH]; intros s ys H; simpl in H.
  { injection H as <-. done. }
  unbind H as y Ey. unbind H as rest Er. injection H as <-. cbn [foldM foldl]. rewrite Ey. run_bind.
  by apply IH.
Qed.

Lemma count_loop c L sts f :
  all_strategies c = Ok sts →
  for_cells (num_layers c) (num_kv_heads c)
    (fun li h f => do! st <- get_strategy c li h; Ok (count_head L st f)) f
  = Ok (foldl (fun f st => count_head L st f) f (concat sts)).
Proof.
  unfold all_strategies, for_cells. generalize (range (num_layers c)) as ls. intros ls. revert sts f.
  induction ls as [|li ls IH]; intros sts f H; simpl in H.
  { injection H as <-. done. }
  unbind H as row Er. unbind H as rest Es. injection H as <-. cbn [foldM].
  rewrite (foldM_traverse _ (fun f st => count_head L st f) _ _ _ Er). run_bind.
  rewrite (IH rest) by done. cbn [concat]. by rewrite foldl_app.
Qed.

Lemma seen_positions_length L st :
  (0 ≤ L)%Z →
  Z.of_nat (length (seen_positions L st))
  = if is_local st then Z.min L (Z.max (window st) 0 + Z.max (sink_size st) 0) else L.
Proof.
  intros HL. unfold seen_positions. destruct (is_local st).
  - by rewrite length_window_positions.
  - rewrite length_seqZ. lia.
Qed.

Lemma count_fold L sts f :
  (0 ≤ L)%Z →
  let f' := foldl (fun f st => count_head L st f) f sts in
  dense_tokens f' = (dense_tokens f + Z.of_nat (length sts) * L)%Z ∧
  head_aware_tokens f' = (head_aware_tokens f + seen_tokens L sts)%Z ∧
  (global_tokens f' + local_tokens f' - head_aware_tokens f'
   = global_tokens f + local_tokens f - head_aware_tokens f)%Z.
Proof.
  intros HL. revert f. induction sts as [|st sts IH]; intros f; cbn [foldl].
  { unfold seen_tokens. simpl. lia. }
  destruct (IH (count_head L st f)) as (H1 & H2 & H3). cbv zeta. rewrite H3, H1, H2.
  unfold seen_tokens. rewrite fmap_cons, sumZ_cons, seen_positions_length by done.
  unfold count_head. destruct (is_local st); cbn; lia.
Qed.

Lemma seen_tokens_bound L sts :
  (0 ≤ L)%Z → (0 ≤ seen_tokens L sts ≤ Z.of_nat (length sts) * L)%Z.
Proof.
  intros HL. unfold seen_tokens. induction sts as [|st sts IH]; [done|].
  rewrite fmap_cons, sumZ_cons, seen_positions_length by done. cbn [length].
  destruct (is_local st); lia.
Qed.

Lemma length_concat_rect {A} R C (m : list (list A)) : rect R C m → length (concat m) = R * C.
Proof.
  intros [<- HC]. induction HC as [|r m Hr _ IH]; [done|]. cbn [concat length]. len_lia.
Qed.

Lemma per_session_ok R C c L hd db :
  wf_config R C c → (0 ≤ L)%Z →
  ∃ sts s, all_strategies c = Ok sts ∧ per_session_kv_bytes c L hd db = Ok s ∧
    dense_tokens (tokens s) = (Z.of_nat (R * C) * L)%Z ∧
    head_aware_tokens (tokens s) = seen_tokens L (concat sts) ∧
    (global_tokens (tokens s) + local_tokens (tokens s) = head_aware_tokens (tokens s))%Z ∧
    dense_bytes s = (dense_tokens (tokens s) * (2 * hd * db))%Z ∧
    head_aware_bytes s = (head_aware_tokens (tokens s) * (2 * hd * db))%Z ∧
    (0 ≤ head_aware_tokens (tokens s) ≤ dense_tokens (tokens s))%Z.
Proof.
  intros Hc HL. destruct (all_strategies_ok R C c Hc) as (sts & Hs & Hrect).
  exists sts. eexists. split; [done|]. unfold per_session_kv_bytes. rewrite (count_loop c L sts) by done.
  run_bind. split; [done|]. cbn [tokens dense_bytes head_aware_bytes].
  destruct (count_fold L (concat sts) (mkFoot 0 0 0 0) HL) as (H1 & H2 & H3).
  rewrite (length_concat_rect R C) in H1 by done. cbn in H1, H2, H3.
  pose proof (seen_tokens_bound L (concat sts) HL) as Hb.
  rewrite (length_concat_rect R C) in Hb by done.
  split; [lia|]. split; [lia|]. split; [lia|]. do 2 (split; [done|]). lia.
Qed.

(** [sessions] is how often a footprint fits a budget. *)
Lemma sessions_spec budget foot :
  (0 ≤ budget)%Z → (0 ≤ foot)%Z →
  (foot = 0 → sessions budget foot = 0)%Z ∧ (foot ≠ 0 → sessions budget foot * foot ≤ budget < (sessions budget foot + 1) * foot)%Z.
Proof.
  intros Hb Hf. unfold sessions. case_bool_decide; [done|]. split; [done|]. intros _.
  pose proof (Z.div_mod budget foot). pose proof (Z.mod_pos_bound budget foot). nia.
Qed.

(** C39: What the capacity model counts.  For a configuration of [R] layers with [C] KV
    heads each, the dense tokens are [L] per head; the head-aware tokens are, summed over the heads, the number of positions
    the strategy of the head lets it see: [L] for a global head, the sink and the window, at most [L], for a
    local one.  The bytes are these counts times the bytes of a token, head-aware at most
    dense.  The number of sessions of each kind is the largest that fits the budget, and zero where a
    session takes no space; so if a head-aware session takes space, a budget admits at
    least as many of them as dense ones. *)
Theorem capacity_model_exact R C c L hd db budget :
  wf_config R C c → (0 ≤ L)%Z → (0 < hd)%Z → (0 < db)%Z → (0 ≤ budget)%Z →
  ∃ sts s cap, all_strategies c = Ok sts ∧
    per_session_kv_bytes c L hd db = Ok s ∧ concurrent_capacity c L hd budget db = Ok cap ∧
    dense_tokens (tokens s) = (Z.of_nat (R * C) * L)%Z ∧
    head_aware_tokens (tokens s) = seen_tokens L (concat sts) ∧
    dense_bytes s = (dense_tokens (tokens s) * (2 * hd * db))%Z ∧ head_aware_bytes s = (head_aware_tokens (tokens s) * (2 * hd * db))%Z ∧
    (head_aware_bytes s ≤ dense_bytes s)%Z ∧
    (dense_bytes s = 0 → dense_sessions cap = 0)%Z ∧ (head_aware_bytes s = 0 → head_aware_sessions cap = 0)%Z ∧
    (dense_bytes s ≠ 0 → dense_sessions cap * dense_bytes s ≤ budget < (dense_sessions cap + 1) * dense_bytes s)%Z ∧
    (head_aware_bytes s ≠ 0 → head_aware_sessions cap * head_aware_bytes s ≤ budget < (head_aware_sessions cap + 1) * head_aware_bytes s)%Z ∧
    (head_aware_bytes s ≠ 0%Z → (dense_sessions cap ≤ head_aware_sessions cap)%Z).
Proof.
  intros Hc HL Hhd Hdb Hbud.
  destruct (per_session_ok R C c L hd db Hc HL) as (sts & s & Hs & Hp & Hd & Hh & _ & Hbd & Hbh & Hle).
  exists sts, s. eexists. split; [done|]. split; [done|].
  unfold concurrent_capacity. rewrite Hp. run_bind. split; [done|]. do 4 (split; [done|]).
  assert (Hpos : (0 < 2 * hd * db)%Z) by nia.
  assert (Hble : (0 ≤ head_aware_bytes s ≤ dense_bytes s)%Z) by (rewrite Hbd, Hbh; nia).
  split; [lia|]. cbn [dense_sessions head_aware_sessions].
  destruct (sessions_spec budget (dense_bytes s)) as [D1 D2]; [lia..|]. destruct (sessions_spec budget (head_aware_bytes s)) as [A1 A2]; [lia..|].
  do 4 (split; [done|]). intros Hne. unfold sessions.
  rewrite (bool_decide_eq_false_2 (head_aware_bytes s = 0)%Z) by done.
  case_bool_decide; [apply Z.div_pos; lia|]. apply Z.div_le_compat_l; lia.
Qed.

Lemma capacity_model_exact_witness :
  ∃ s cap, per_session_kv_bytes demo_config 1000 128 2 = Ok s ∧ concurrent_capacity demo_config 1000 128 10000000 2 = Ok cap ∧
    dense_tokens (tokens s) = 6000%Z ∧ (head_aware_bytes s ≤ dense_bytes s)%Z ∧ (dense_sessions cap ≤ head_aware_sessions cap)%Z.
Proof.
  destruct (capacity_model_exact 3 2 demo_config 1000 128 2 10000000) as (sts & s & cap & _ & E1 & E2 & H1 & _ & _ & _ & H2 & _ & _ & _ & _ & H3);
    [exact demo_config_wf|lia..|].
  exists s, cap. do 4 (split; [assumption|]). apply H3. vm_compute in E1. injection E1 as <-. vm_compute. discriminate.
Defined.

(** * The chunk cache: invariant and eviction order *)

Definition chunk_bytes (d : odict string ChunkEntry) : Z := sumZ ((fun x => nbytes x.2) <$> d).

Record policy_inv (p : HeadAwareCachePolicy) : Prop := {
  pi_keys : NoDup (od_keys (entries p));
  pi_nonneg : Forall (fun x => 0 ≤ nbytes x.2)%Z (entries p);
  pi_used : used_bytes p = chunk_bytes (entries p);
  pi_cap : (0 ≤ used_bytes p ≤ capacity_bytes p)%Z;
}.

(** The state after the entry [x] is evicted. *)
Definition without (x : string * ChunkEntry) (p : HeadAwareCachePolicy) : HeadAwareCachePolicy :=
  mkCP (capacity_bytes p) (od_del x.1 (entries p)) (used_bytes p - nbytes x.2) (step p)
    (mkStats (hits (stats p)) (misses (stats p)) (admissions (stats p)) (evictions (stats p) + 1)).

(** Room is made by evicting, one at a time, an entry of least priority among
    those still resident, and only while the new chunk does not fit. *)
Inductive makes_room (need : Z) : HeadAwareCachePolicy → HeadAwareCachePolicy → Prop :=
  | room_done p : (used_bytes p + need ≤ capacity_bytes p)%Z → makes_room need p p
  | room_step p x p' :
      (capacity_bytes p < used_bytes p + need)%Z → x ∈ entries p →
      (∀ y, y ∈ entries p → (priority (step p) x.2 <= priority (step p) y.2)%Q) →
      makes_room need (without x p) p' → makes_room need p p'.

Lemma min_entry_spec now l best :
  let r := min_entry now best l in
  (r = best ∨ r ∈ l) ∧ (priority now r.2 <= priority now best.2)%Q ∧
  ∀ y, y ∈ l → (priority now r.2 <= priority now y.2)%Q.
Proof.
  revert best. induction l as [|x l IH]; intros best r; subst r; simpl.
  { split; [by left|]. split; [apply Qle_refl|set_solver]. }
  destruct (Qlt_le_dec (priority now x.2) (priority now best.2)) as [Hlt|Hle].
  - destruct (IH x) as (H1 & H2 & H3). split; [set_solver|]. split.
    + eapply Qle_trans; [exact H2|]. by apply Qlt_le_weak.
    + intros y [->|Hy]%elem_of_cons; [done|by apply H3].
  - destruct (IH best) as (H1 & H2 & H3). split; [set_solver|]. split; [done|].
    intros y [->|Hy]%elem_of_cons; [by eapply Qle_trans|by apply H3].
Qed.

(** An entry of the dictionary and the rest. *)
Lemma chunk_split (d : odict string ChunkEntry) x :
  NoDup (od_keys d) → x ∈ d →
  ∃ d1 d2, d = d1 ++ x :: d2 ∧ x.1 ∉ od_keys d1 ∧ od_del x.1 d = d1 ++ d2.
Proof.
  intros Hnd (d1 & d2 & ->)%list_elem_of_split. exists d1, d2.
  assert (Hn : x.1 ∉ od_keys d1).
  { unfold od_keys in *. rewrite fmap_app in Hnd. apply NoDup_app in Hnd as (_ & Hd & _).
    intros Hx. apply (Hd _ Hx). left. }
  split; [done|]. split; [done|]. destruct x as [k e]. by apply od_del_mid.
Qed.

Lemma chunk_bytes_app d1 d2 : chunk_bytes (d1 ++ d2) = (chunk_bytes d1 + chunk_bytes d2)%Z.
Proof. unfold chunk_bytes. by rewrite fmap_app, sumZ_app. Qed.

Lemma chunk_bytes_nonneg d : Forall (fun x => 0 ≤ nbytes x.2)%Z d → (0 ≤ chunk_bytes d)%Z.
Proof. intros H. apply sumZ_nonneg. by apply Forall_fmap. Qed.

Lemma without_inv x p :
  policy_inv p → x ∈ entries p → policy_inv (without x p) ∧
  length (entries (without x p)) < length (entries p).
Proof.
  intros Hp Hx. destruct (chunk_split _ _ (pi_keys p Hp) Hx) as (d1 & d2 & Hd & Hn & Hdel).
  pose proof (pi_nonneg p Hp) as Hnn. rewrite Hd in Hnn. apply Forall_app in Hnn as [H1 H2].
  apply Forall_cons in H2 as [Hxn H2]. pose proof (pi_used p Hp) as Hu. pose proof (pi_cap p Hp) as Hc.
  rewrite Hd, chunk_bytes_app in Hu. unfold chunk_bytes in Hu at 2. rewrite fmap_cons, sumZ_cons in Hu.
  fold (chunk_bytes d2) in Hu.
  pose proof (chunk_bytes_nonneg d1 H1). pose proof (chunk_bytes_nonneg d2 H2).
  split; [|cbn [without entries]; rewrite Hdel, Hd, !length_app; simpl; lia].
  split; cbn [without entries used_bytes capacity_bytes].
  - eauto using pi_keys with redknot.
  - rewrite Hdel. by apply Forall_app.
  - rewrite Hdel, chunk_bytes_app. lia.
  - lia.
Qed.

Lemma make_room_spec fuel need p :
  policy_inv p → (need ≤ capacity_bytes p)%Z → length (entries p) ≤ fuel →
  ∃ p', make_room fuel need p = Some p' ∧ makes_room need p p' ∧ policy_inv p' ∧
    capacity_bytes p' = capacity_bytes p ∧ step p' = step p ∧
    (used_bytes p' + need ≤ capacity_bytes p')%Z ∧
    (∀ x, x ∈ entries p' → x ∈ entries p).
Proof.
  revert p. induction fuel as [|fuel IH]; intros p Hp Hneed Hlen;
    unfold make_room; fold make_room;
    (destruct (entries p) as [|x l] eqn:He;
     [exists p; split; [done|]; assert (used_bytes p = 0%Z) by (rewrite (pi_used p Hp), He; done);
      split; [apply room_done; lia|]; rewrite He; do 3 (split; [done|]); split; [lia|done]|]).
  { simpl in Hlen. lia. }
  case_bool_decide as Hgt.
  2: { exists p. split; [done|]. split; [apply room_done; lia|]. rewrite He.
       do 3 (split; [done|]). split; [lia|done]. }
  assert (Hv : evict_one x l p = without (min_entry (step p) x l) p) by done. rewrite Hv.
  destruct (min_entry_spec (step p) l x) as (Hin & Hle & Hall).
  set (v := min_entry (step p) x l) in *.
  assert (Hvin : v ∈ entries p) by (rewrite He; set_solver).
  destruct (without_inv v p Hp Hvin) as [Hinv Hlt]. rewrite He in Hlt.
  destruct (IH (without v p)) as (p' & Hm & Hr & Hi & Hcap & Hst & Hfit & Hsub); [done|done|simpl in *; lia|].
  exists p'. split; [done|]. split.
  { eapply room_step; [lia|exact Hvin| |exact Hr]. rewrite He. intros y [->|Hy]%elem_of_cons; [done|by apply Hall]. }
  split; [done|]. split; [done|]. split; [done|]. split; [done|]. rewrite <-He. intros y Hy.
  apply Hsub in Hy. cbn [without entries] in Hy.
  destruct (chunk_split _ _ (pi_keys p Hp) Hvin) as (d1 & d2 & Hd & _ & Hdel).
  rewrite Hdel in Hy. rewrite Hd. set_solver.
Qed.

Lemma refreshed_facts cid e p :
  policy_inv p → od_get cid (entries p) = Some e →
  NoDup (od_keys (refreshed cid e p)) ∧ chunk_bytes (refreshed cid e p) = chunk_bytes (entries p) ∧
  Forall (fun x => 0 ≤ nbytes x.2)%Z (refreshed cid e p) ∧
  (∀ k, k ∈ od_keys (refreshed cid e p) ↔ k ∈ od_keys (entries p)).
Proof.
  intros Hp Hg. destruct (od_get_split _ _ _ (pi_keys p Hp) Hg) as (d1 & d2 & Hd & Hn1 & Hn2).
  pose proof (pi_keys p Hp) as Hnd. pose proof (pi_nonneg p Hp) as Hnn.
  assert (Hperm : refreshed cid e p ≡ₚ d1 ++ (cid, touch (step p) e) :: d2).
  { unfold refreshed. rewrite Hd, od_set_mid by done. apply od_move_to_end_perm.
    rewrite Hd in Hnd. unfold od_keys in *. rewrite fmap_app, fmap_cons in *. exact Hnd. }
  assert (Hkeys : od_keys (refreshed cid e p) ≡ₚ od_keys (entries p)).
  { rewrite (od_keys_perm _ _ Hperm), Hd. unfold od_keys. by rewrite !fmap_app, !fmap_cons. }
  split; [by rewrite Hkeys|]. split; [|split].
  - unfold chunk_bytes. rewrite Hd, (sumZ_perm _ ((fun x => nbytes x.2) <$> (d1 ++ (cid, touch (step p) e) :: d2)))
      by (by rewrite Hperm). rewrite !fmap_app, !fmap_cons. done.
  - rewrite Hperm. rewrite Hd in Hnn. apply Forall_app in Hnn as [? Hnn]. apply Forall_cons in Hnn as [? ?].
    apply Forall_app. split; [done|]. by constructor.
  - intros k. by rewrite Hkeys.
Qed.

(** The state after [cid] is stored. *)
Definition stored (cid : string) (n : Z) (cost : Q) (p : HeadAwareCachePolicy) : HeadAwareCachePolicy :=
  mkCP (capacity_bytes p) (entries p ++ [(cid, mkChunk cid n 0 cost (step p))]) (used_bytes p + n) (step p)
    (mkStats (hits (stats p)) (misses (stats p)) (admissions (stats p) + 1) (evictions (stats p))).

(** What [admit] does. *)
Inductive admission (cid : string) (n : Z) (cost : Q) (p : HeadAwareCachePolicy) : HeadAwareCachePolicy → bool → Prop :=
  | ad_resident e : od_get cid (entries p) = Some e →
      admission cid n cost p (mkCP (capacity_bytes p) (refreshed cid e p) (used_bytes p) (step p) (stats p)) true
  | ad_too_large : cid ∉ resident_chunks p → (capacity_bytes p < n)%Z → admission cid n cost p p false
  | ad_stored p1 : cid ∉ resident_chunks p → (n ≤ capacity_bytes p)%Z → makes_room n p p1 → admission cid n cost p (stored cid n cost p1) true.

Lemma admit_ok cid n cost p :
  policy_inv p → (0 ≤ n)%Z →
  ∃ p' b, admit_chunk cid n cost p = Ok (p', b) ∧ admission cid n cost p p' b ∧ policy_inv p' ∧ capacity_bytes p' = capacity_bytes p ∧
    (b = true ↔ cid ∈ resident_chunks p').
Proof.
  intros Hp Hn. unfold admit_chunk. destruct (od_get cid (entries p)) as [e|] eqn:Hg.
  { destruct (refreshed_facts cid e p Hp Hg) as (H1 & H2 & H3 & H4).
    eexists _, true. split; [done|]. split; [by apply ad_resident|]. split; [|split; [done|split; [|done]]].
    - split; cbn [entries used_bytes capacity_bytes]; [done|done|by rewrite H2, (pi_used p Hp)|apply Hp].
    - intros _. apply H4. apply od_mem_true. unfold od_mem. by rewrite Hg. }
  apply od_get_None in Hg. case_bool_decide as Hbig.
  { exists p, false. split; [done|]. split; [apply ad_too_large; [done|lia]|]. by do 2 (split; [done|]). }
  destruct (make_room_spec (length (entries p)) n p Hp) as (p1 & Hm & Hr & Hi & Hcap & Hst & Hfit & Hsub);
    [lia|done|].
  rewrite Hm, bool_decide_eq_false_2 by lia.
  assert (Hnew : cid ∉ od_keys (entries p1)).
  { intros Hin. apply Hg. unfold od_keys in *.
    apply list_elem_of_fmap in Hin as (x & -> & Hx). apply list_elem_of_fmap_2. by apply Hsub. }
  rewrite od_set_new by done. eexists _, true. split; [done|]. fold (stored cid n cost p1).
  assert (Hkeys : od_keys (entries p1 ++ [(cid, mkChunk cid n 0 cost (step p1))]) = od_keys (entries p1) ++ [cid]).
  { unfold od_keys. by rewrite fmap_app. }
  split; [apply ad_stored; [done|lia|done]|]. split; [|split; [done|split; [|done]]].
  - split; cbn [stored entries used_bytes capacity_bytes].
    + rewrite Hkeys. apply NoDup_app. split; [apply Hi|]. split; [set_solver|apply NoDup_singleton].
    + apply Forall_app. split; [apply Hi|]. by repeat constructor.
    + rewrite chunk_bytes_app, (pi_used p1 Hi). unfold chunk_bytes at 3. simpl. lia.
    + pose proof (pi_cap p1 Hi). lia.
  - intros _. unfold resident_chunks. cbn [stored entries]. rewrite Hkeys. set_solver.
Qed.


(** The operations of a running cache. *)
Inductive policy_step : HeadAwareCachePolicy → HeadAwareCachePolicy → Prop :=
  | step_tick p : policy_step p (tick p).1
  | step_lookup p cid : policy_step p (get cid p).1
  | step_admit p cid n cost p' b :
      (0 ≤ n)%Z → admit_chunk cid n cost p = Ok (p', b) → policy_step p p'.

(** In every state reachable from an empty cache, [used_bytes] is the sum
    of the resident chunk sizes and never exceeds the capacity, and no chunk is
    resident twice. *)
Theorem policy_accounting cap p :
  (0 ≤ cap)%Z → rtc policy_step (new_policy cap) p →
  used_bytes p = chunk_bytes (entries p) ∧ (0 ≤ used_bytes p ≤ cap)%Z ∧ NoDup (resident_chunks p).
Proof.
  intros Hcap Hr.
  assert (Hi : policy_inv p ∧ capacity_bytes p = cap).
  { remember (new_policy cap) as p0 eqn:H0.
    assert (Hi0 : policy_inv p0 ∧ capacity_bytes p0 = cap).
    { subst p0. split; [|done]. split; cbn; [constructor|constructor|done|lia]. }
    clear H0. induction Hr as [|p0 p1 p2 Hs _ IH]; [done|]. apply IH. clear IH.
    destruct Hi0 as [Hi <-]. destruct Hs as [p|p cid|p cid n cost p' b Hn Ha].
    - split; [|done]. split; apply Hi.
    - unfold get. destruct (od_get cid (entries p)) as [e|] eqn:Hg; cbn; (split; [|done]).
      + destruct (refreshed_facts cid e p Hi Hg) as (H1 & H2 & H3 & _).
        split; cbn [entries used_bytes capacity_bytes]; [done|done|by rewrite H2, (pi_used p Hi)|apply Hi].
      + split; apply Hi.
    - destruct (admit_ok cid n cost p Hi Hn) as (p2' & b' & Ha' & _ & Hi' & Hc' & _).
      rewrite Ha in Ha'. injection Ha' as <- <-. done. }
  destruct Hi as [Hi <-]. split; [apply Hi|]. split; [apply Hi|apply Hi].
Qed.

(** ** Witnesses and a scenario *)

(** Two chunks fill the cache; [a] has the lower priority. *)
Definition full_cache : HeadAwareCachePolicy :=
  mkCP 10 [("b", mkChunk "b" 5 3 1 0); ("a", mkChunk "a" 5 0 1 0)] 10 0 (mkStats 3 0 2 0).


Lemma policy_accounting_witness :
  let p := (tick (new_policy 10)).1 in
  used_bytes p = chunk_bytes (entries p) ∧ (0 ≤ used_bytes p ≤ 10)%Z ∧ NoDup (resident_chunks p).
Proof.
  apply (policy_accounting 10); [lia|]. eapply rtc_l; [apply step_tick|apply rtc_refl].
Defined.

(** A chunk reused three times and expensive to recover is evicted for a cheap
    new chunk of lower priority. *)
Definition hot_cache : HeadAwareCachePolicy :=
  mkCP 10 [("hot", mkChunk "hot" 10 3 5 0)] 10 0 (mkStats 3 0 1 0).

Theorem hot_chunk_evicted :
  (1 * 1 * 2 < priority 0 (mkChunk "hot" 10 3 5 0))%Q ∧
  ∃ p', admit_chunk "cold" 10 1 hot_cache = Ok (p', true) ∧ resident_chunks p' = ["cold"].
Proof. split; [reflexivity|]. eexists. vm_compute. done. Qed.
