(* ===== verification/SparseFFN.v ===== *)
(** Token-selective FFN ([redknot/sparse_ffn.py]): the layer schedule, the
    selection of important tokens and the dense / identity dispatch.

    Scores, thresholds and fractions are exact rationals.  [torch.sort] and
    [torch.topk] leave the order of equal elements open: they are parameters,
    constrained by what they document.  The importance proxy (an L2 norm) is the
    parameter [importance_of], and so is the feed-forward network. *)

From Stdlib Require Import QArith Qminmax Lqa.
From S2P Require Import Prelude Tensor.
Close Scope Q_scope.

Record SparseFFNSchedule := mkSchedule {
  dense_until : Z;
  mass_thresh : Q;
  deep_layer_start : Z;
  mass_thresh_deep : option Q;
  recent_n : Z;
  min_keep : Z;
}.

Definition default_schedule : SparseFFNSchedule := mkSchedule 5 (6 # 10) 48 None 128 1.

Definition get_mass_thresh (s : SparseFFNSchedule) (layer_idx : Z) : Q :=
  if bool_decide (layer_idx < dense_until s)%Z then 1
  else match mass_thresh_deep s with
       | Some t => if bool_decide (layer_idx >= deep_layer_start s)%Z then t else mass_thresh s
       | None => mass_thresh s
       end.

Definition is_dense_layer (s : SparseFFNSchedule) (layer_idx : Z) : bool :=
  bool_decide (layer_idx < dense_until s)%Z || Qle_bool 1 (get_mass_thresh s layer_idx).

(** [a < b] on scores. *)
Definition Qlt_bool (a b : Q) : bool := negb (Qle_bool b a).

Definition qsum (l : list Q) : Q := foldr Qplus 0%Q l.

(** [torch.cumsum]. *)
Fixpoint cumsum (acc : Q) (l : list Q) : list Q :=
  match l with [] => [] | x :: l => (acc + x)%Q :: cumsum (acc + x)%Q l end.

(** [torch.finfo(float32).tiny], [2^-126]. *)
Definition tiny : Q := 1 # (2 ^ 126).

(** [keep.scatter_(1, idx, vals)] on one row. *)
Definition scatter (keep : list bool) (idx : list nat) (vals : list bool) : list bool :=
  foldl (fun k p => <[p.1 := p.2]> k) keep (zip idx vals).

(** [keep[L - n:] = True]. *)
Definition set_tail (n : nat) (keep : list bool) : list bool :=
  take (length keep - n) keep ++ replicate (Nat.min n (length keep)) true.

Definition count_true (l : list bool) : nat := length (filter (fun b => b = true) l).

(** A score tensor of shape [[B, L]]: the width [L], known for an empty batch too,
    and one row of scores per sequence. *)
Record Scores := mkScores { width : nat; rows : list (list Q) }.

Section selection.
(** [argsort]: the index tensor of [torch.sort(..., descending=True)];
    [topk k]: the index tensor of [torch.topk]. *)
Context (argsort : list Q → list nat) (topk : nat → list Q → list nat).

(** One row of [select_important_tokens] below the all-tokens threshold; a row
    without tokens has no rank 0 to set. *)
Definition select_row (s : SparseFFNSchedule) (thresh : Q) (importance : list Q)
  : result (list bool) :=
  let L := length importance in
  let imp := Qmax 0 <$> importance in
  let total := qsum imp in
  let sorted_idx := argsort imp in
  let sorted_imp := (fun i => default 0%Q (imp !! i)) <$> sorted_idx in
  let denom := Qmax tiny total in
  let rank_keep := (fun c => Qlt_bool (c / denom)%Q thresh) <$> cumsum 0 sorted_imp in
  match rank_keep with
  | [] => Raise IndexError
  | _ :: rest =>
      let keep := scatter (replicate L false) sorted_idx (true :: rest) in
      let keep := if bool_decide (0 < recent_n s)%Z
                  then set_tail (Nat.min (Z.to_nat (recent_n s)) L) keep else keep in
      let keep := if bool_decide (0 < min_keep s)%Z && bool_decide (Z.of_nat (count_true keep) < min_keep s)%Z
                  then let k := Nat.min (Z.to_nat (min_keep s)) L in
                       zip_with orb keep (scatter (replicate L false) (topk k imp) (replicate k true))
                  else keep in
      Ok (if Qle_bool total 0 then replicate L true else keep)
  end.

(** Without columns [rank_keep[..., 0]] is out of range, whatever the number of rows. *)
Definition select_important_tokens (s : SparseFFNSchedule) (override : option Q)
    (importance : Scores) : result (list (list bool)) :=
  let thresh := default (mass_thresh s) override in
  if Qle_bool 1 thresh then Ok ((fun r : list Q => replicate (length r) true) <$> rows importance)
  else if bool_decide (width importance = 0) then Raise IndexError
  else traverse (select_row s thresh) (rows importance).

(** * Dispatch *)

Section dispatch.
(** Hidden rows with their sum and zero; the attention output and its
    importance; the feed-forward callable on packed rows. *)
Context {row att : Type} (radd : row → row → row) (zero_row : row)
  (importance_of : att → result Scores) (ffn : list row → list row).

(** [torch.nonzero(flat_keep).flatten()]. *)
Definition nonzero (keep : list bool) : list Z :=
  Z.of_nat <$> filter (fun i => keep !! i = Some true) (seq 0 (length keep)).

(** [apply_sparse_ffn] on a hidden state of [B] sequences of [L] rows; the
    result is the new hidden state and the number of rows that ran the FFN. *)
Definition apply_sparse_ffn (hidden : list (list row)) (layer_idx : Z) (s : SparseFFNSchedule)
    (attn_out : option att) (importance : option Scores) : result (list row * nat) :=
  let flat_hidden := concat hidden in
  if is_dense_layer s layer_idx then
    let z := ffn flat_hidden in
    if bool_decide (length z = length flat_hidden)
    then Ok (zip_with radd flat_hidden z, length flat_hidden) else Raise RuntimeError
  else
    do! imp <- (match importance with
                | Some i => Ok i
                | None => match attn_out with
                          | Some a => importance_of a
                          | None => Raise ValueError
                          end
                end);
    do! keep <- select_important_tokens s (Some (get_mass_thresh s layer_idx)) imp;
    let flat_keep := concat keep in
    if bool_decide (length flat_keep = length flat_hidden) then
      let sel_idx := nonzero flat_keep in
      let z0 := replicate (length flat_hidden) zero_row in
      do! z_full <- (if bool_decide (0 < length sel_idx) then
                       do! sel_hidden <- index_select flat_hidden sel_idx;
                       let sel_z := ffn sel_hidden in
                       if bool_decide (length sel_z = length sel_hidden)
                       then index_copy z0 sel_idx sel_z else Raise ValueError
                     else Ok z0);
      Ok (zip_with radd flat_hidden z_full, length sel_idx)
    else Raise RuntimeError.

End dispatch.
End selection.

(** * FLOP accounting *)

Definition dense_ffn_flops_per_token (hidden intermediate : Z) : Q := inject_Z (6 * hidden * intermediate).

Record Flops := mkFlops {
  dense_ffn_flops : Q;
  sparse_ffn_total : Q;
  dense_layers : Z;
  deep_layers : Z;
}.

(** [sparse_ffn_flops]: the two totals and the layer counts; savings and speedup
    are quotients of the totals. *)
Definition sparse_ffn_flops (num_layers tokens_per_layer hidden intermediate : Z)
    (s : SparseFFNSchedule) (selected_frac_deep : Q) : Flops :=
  let per_tok := dense_ffn_flops_per_token hidden intermediate in
  let dl := Z.min (Z.max (dense_until s) 0) num_layers in
  let dp := Z.max (num_layers - dl) 0 in
  mkFlops (inject_Z (num_layers * tokens_per_layer) * per_tok)%Q
    (inject_Z (dl * tokens_per_layer) * per_tok
     + inject_Z (dp * tokens_per_layer) * per_tok * selected_frac_deep)%Q dl dp.

(** * Dispatch: the FFN runs on the selected rows only *)

Lemma nonzero_positions keep :
  nonzero keep = positions_of (Z.of_nat (length keep)) (fun i => default false (keep !! Z.to_nat i)).
Proof.
  unfold nonzero, positions_of. pose proof (range_nat (length keep)) as Hr. unfold range in Hr.
  rewrite Hr. generalize (seq 0 (length keep)) as l. intros l. induction l as [|i l IH]; [done|].
  rewrite fmap_cons, !filter_cons, Nat2Z.id.
  destruct (keep !! i) as [[]|]; cbn [default from_option id];
    repeat case_decide; try congruence; rewrite ?fmap_cons; (done || f_equal; exact IH || exact IH).
Qed.

Lemma count_true_nonzero keep : length (nonzero keep) = count_true keep.
Proof.
  unfold nonzero, count_true. rewrite length_fmap.
  induction keep as [|b keep IH] using rev_ind; [done|].
  rewrite length_app, Nat.add_1_r, seq_S, !filter_app, !length_app. cbn [Nat.add].
  assert (Hs : filter (fun i => (keep ++ [b]) !! i = Some true) (seq 0 (length keep))
               = filter (fun i => keep !! i = Some true) (seq 0 (length keep))).
  { apply filter_ext_elem. intros i Hi%elem_of_seq. by rewrite lookup_app_l by lia. }
  rewrite Hs, IH. f_equal. rewrite !filter_cons, !filter_nil, list_lookup_middle by done.
  destruct b; repeat case_decide; done || congruence.
Qed.

(** * Selection *)

(** [torch.sort(descending=True)]: a permutation of the positions, values not
    increasing. *)
Definition sorts_descending (argsort : list Q → list nat) : Prop :=
  ∀ l, argsort l ≡ₚ seq 0 (length l) ∧
    StronglySorted (fun i j => (default 0 (l !! j) <= default 0 (l !! i))%Q) (argsort l).

(** [torch.topk]: [k] distinct positions. *)
Definition picks_k (topk : nat → list Q → list nat) : Prop :=
  ∀ k l, k ≤ length l → length (topk k l) = k ∧ NoDup (topk k l) ∧ Forall (fun i => i < length l) (topk k l).

Lemma scatter_length keep idx vals : length (scatter keep idx vals) = length keep.
Proof.
  unfold scatter. revert keep. generalize (zip idx vals) as l. intros l.
  induction l as [|p l IH]; intros keep; [done|]. simpl. by rewrite IH, length_insert.
Qed.

Lemma scatter_out keep idx vals i : i ∉ idx → scatter keep idx vals !! i = keep !! i.
Proof.
  unfold scatter. revert keep vals. induction idx as [|j idx IH]; intros keep [|v vals] Hi; try done.
  cbn [zip zip_with foldl fst snd].
  change (foldl _ ?k (zip_with pair idx vals)) with (scatter k idx vals). unfold scatter.
  rewrite IH by set_solver. apply list_lookup_insert_ne. set_solver.
Qed.

Lemma scatter_in keep idx vals k i v :
  NoDup idx → Forall (fun i => i < length keep) idx →
  idx !! k = Some i → vals !! k = Some v → scatter keep idx vals !! i = Some v.
Proof.
  intros Hnd. revert keep vals k. induction Hnd as [|j idx Hj Hnd IH]; intros keep [|x vals] [|k] Hin Hk Hv;
    try done; apply Forall_cons in Hin as [Hlt Hin]; unfold scatter; cbn [zip zip_with foldl fst snd].
  - injection Hk as ->. injection Hv as ->.
    pose proof (scatter_out (<[i := v]> keep) idx vals i Hj) as Ho. unfold scatter in Ho.
    etrans; [exact Ho|]. by apply list_lookup_insert_eq.
  - apply (IH _ vals k); [|done|done]. eapply Forall_impl; [exact Hin|]. intros y Hy.
    by rewrite length_insert.
Qed.

Lemma count_true_mono (a b : list bool) :
  length a = length b → (∀ i, a !! i = Some true → b !! i = Some true) → count_true a ≤ count_true b.
Proof.
  unfold count_true. revert b. induction a as [|x a IH]; intros [|y b] Hl Hab; try done.
  assert (Hrest : length (filter (fun b => b = true) a) ≤ length (filter (fun b => b = true) b)).
  { apply IH; [simpl in Hl; lia|]. intros i Hi. by apply (Hab (S i)). }
  rewrite !filter_cons. destruct x; simpl; [|repeat case_decide; simpl; lia].
  specialize (Hab 0 eq_refl). injection Hab as ->. simpl. lia.
Qed.

Lemma count_true_lookup l : count_true l = length (filter (fun i => l !! i = Some true) (seq 0 (length l))).
Proof. rewrite <-count_true_nonzero. unfold nonzero. by rewrite length_fmap. Qed.

(** Distinct set positions bound the count from below. *)
Lemma count_true_at_least l idx :
  NoDup idx → Forall (fun i => l !! i = Some true) idx → length idx ≤ count_true l.
Proof.
  intros Hnd Hin. rewrite count_true_lookup. apply submseteq_length, NoDup_submseteq; [done|].
  intros i Hi. rewrite Forall_forall in Hin. specialize (Hin i Hi).
  apply list_elem_of_filter. split; [done|]. apply elem_of_seq. apply lookup_lt_Some in Hin. lia.
Qed.

Lemma length_cumsum a l : length (cumsum a l) = length l.
Proof. revert a. induction l as [|x l IH]; intros a; [done|]. simpl. by rewrite IH. Qed.

Lemma set_tail_spec n keep :
  n ≤ length keep → length (set_tail n keep) = length keep ∧
  (∀ i, keep !! i = Some true → set_tail n keep !! i = Some true) ∧
  (∀ i, length keep - n ≤ i < length keep → set_tail n keep !! i = Some true).
Proof.
  intros Hn. unfold set_tail. rewrite Nat.min_l by done.
  assert (Hl : length (take (length keep - n) keep) = length keep - n) by len_lia.
  split; [|split].
  - rewrite length_app, Hl, length_replicate. lia.
  - intros i Hi. pose proof (lookup_lt_Some _ _ _ Hi).
    destruct (decide (i < length keep - n)).
    + rewrite lookup_app_l by lia. by rewrite lookup_take_lt.
    + rewrite lookup_app_r by lia. rewrite lookup_replicate_2 by lia. done.
  - intros i Hi. rewrite lookup_app_r by lia. by rewrite lookup_replicate_2 by lia.
Qed.

(** The recency step keeps what was kept and adds the last [n] tokens. *)
Lemma keep_recent n k0 :
  let k1 := if bool_decide (0 < n)%Z then set_tail (Nat.min (Z.to_nat n) (length k0)) k0 else k0 in
  length k1 = length k0 ∧ (∀ i, k0 !! i = Some true → k1 !! i = Some true) ∧
  ∀ i, i < length k0 → (Z.of_nat (length k0) - n ≤ Z.of_nat i)%Z → k1 !! i = Some true.
Proof.
  intros k1. unfold k1. case_bool_decide as Hr; [|split; [done|]; split; [done|]; intros; lia].
  destruct (set_tail_spec (Nat.min (Z.to_nat n) (length k0)) k0) as (H1 & H2 & H3); [lia|].
  split; [done|]. split; [done|]. intros i Hi Hr'. apply H3. lia.
Qed.

Section guarantees.
Context (argsort : list Q → list nat) (topk : nat → list Q → list nat).
Hypothesis Hsort : sorts_descending argsort.
Hypothesis Htopk : picks_k topk.

(** The mask [keep] of a row: as long as the row, with the [recent_n] last tokens, at
    least [min_keep] tokens and a token of greatest (clamped) importance; a row
    without importance is kept entirely. *)
Definition selects (s : SparseFFNSchedule) (importance : list Q) (keep : list bool) : Prop :=
  length keep = length importance ∧
  (∀ i, i < length importance → (Z.of_nat (length importance) - recent_n s ≤ Z.of_nat i)%Z →
     keep !! i = Some true) ∧
  (Z.min (min_keep s) (Z.of_nat (length importance)) ≤ Z.of_nat (count_true keep))%Z ∧
  (∃ i, keep !! i = Some true ∧ ∀ j x, (Qmax 0 <$> importance) !! j = Some x →
     (x <= default 0 ((Qmax 0 <$> importance) !! i))%Q) ∧
  ((qsum (Qmax 0 <$> importance) <= 0)%Q → keep = replicate (length importance) true).

(** Some token of greatest score is kept by the rank decision. *)
Lemma top_token_kept (imp : list Q) rest :
  0 < length imp →
  let keep := scatter (replicate (length imp) false) (argsort imp) (true :: rest) in
  ∃ i, keep !! i = Some true ∧ ∀ j x, imp !! j = Some x → (x <= default 0 (imp !! i))%Q.
Proof.
  intros Hne keep. destruct (Hsort imp) as [Hp Hs].
  destruct (argsort imp) as [|i idx] eqn:He.
  { apply Permutation_length in Hp. rewrite length_seq in Hp. simpl in Hp. lia. }
  exists i. split.
  - unfold keep. apply (scatter_in _ _ _ 0); [by rewrite Hp; apply NoDup_seq| |done|done].
    rewrite length_replicate. apply Forall_forall. intros j Hj. rewrite Hp in Hj. apply elem_of_seq in Hj. lia.
  - intros j x Hj. assert (Hin : j ∈ i :: idx).
    { rewrite Hp. apply elem_of_seq. apply lookup_lt_Some in Hj. lia. }
    apply elem_of_cons in Hin as [->|Hin]; [rewrite Hj; apply Qle_refl|].
    apply StronglySorted_inv in Hs as [_ Hs]. rewrite Forall_forall in Hs.
    specialize (Hs j Hin). rewrite Hj in Hs. exact Hs.
Qed.

(** The floor step keeps what was kept and reaches [m] tokens, or all of them. *)
Lemma keep_minimum m (imp : list Q) k1 :
  length k1 = length imp →
  let n := Nat.min (Z.to_nat m) (length imp) in
  let fl := scatter (replicate (length imp) false) (topk n imp) (replicate n true) in
  let k2 := if bool_decide (0 < m)%Z && bool_decide (Z.of_nat (count_true k1) < m)%Z
            then zip_with orb k1 fl else k1 in
  length k2 = length imp ∧ (∀ i, k1 !! i = Some true → k2 !! i = Some true) ∧
  (Z.min m (Z.of_nat (length imp)) ≤ Z.of_nat (count_true k2))%Z.
Proof.
  intros Hl1 n fl k2.
  assert (Hfl : length fl = length imp) by (unfold fl; by rewrite scatter_length, length_replicate).
  unfold k2. destruct (_ && _) eqn:Hn.
  2:{ rewrite andb_false_iff, !bool_decide_eq_false in Hn. split; [done|]. split; [done|]. lia. }
  rewrite andb_true_iff, !bool_decide_eq_true in Hn.
  split; [len_lia|]. split.
  - intros i Hi. destruct (lookup_lt_is_Some_2 fl i) as [b Hb]; [apply lookup_lt_Some in Hi; lia|].
    rewrite lookup_zip_with, Hi. simpl. by rewrite Hb.
  - destruct (Htopk n imp) as (Hk & Hnd & Hin); [lia|].
    assert (Hle : length (topk n imp) ≤ count_true (zip_with orb k1 fl)); [|lia].
    apply count_true_at_least; [done|].
    apply Forall_forall. intros i Hi. apply list_elem_of_lookup in Hi as [k Hki].
    assert (Hfi : fl !! i = Some true).
    { apply (scatter_in _ _ _ k); [done|by rewrite length_replicate|done|].
      apply lookup_replicate_2. apply lookup_lt_Some in Hki. lia. }
    destruct (lookup_lt_is_Some_2 k1 i) as [b Hb]; [apply lookup_lt_Some in Hfi; lia|].
    rewrite lookup_zip_with, Hb. simpl. rewrite Hfi. simpl. by rewrite orb_true_r.
Qed.

(** On a non-empty row the selection returns a mask that satisfies [selects]. *)
Lemma selection_guarantees s thresh importance :
  0 < length importance →
  ∃ keep, select_row argsort topk s thresh importance = Ok keep ∧ selects s importance keep.
Proof.
  intros Hne. unfold select_row, selects. set (imp := Qmax 0 <$> importance). set (L := length importance) in *.
  assert (HL : length imp = L) by apply length_fmap.
  assert (Hai : length (argsort imp) = L).
  { rewrite (Permutation_length (proj1 (Hsort imp))), length_seq. done. }
  cbv zeta. set (ranks := (fun c => Qlt_bool (c / Qmax tiny (qsum imp))%Q thresh)
      <$> cumsum 0 ((fun i => default 0%Q (imp !! i)) <$> argsort imp)).
  assert (Hrl : length ranks = L) by (unfold ranks; by rewrite length_fmap, length_cumsum, length_fmap).
  destruct ranks as [|r0 rest]; [simpl in Hrl; lia|].
  destruct (top_token_kept imp rest ltac:(lia)) as (top & Htop & Hmax). rewrite HL in Htop.
  set (k0 := scatter (replicate L false) (argsort imp) (true :: rest)) in *.
  assert (Hk0 : length k0 = L) by (unfold k0; by rewrite scatter_length, length_replicate).
  destruct (keep_recent (recent_n s) k0) as (Hl1 & Hs1 & Hr1). rewrite Hk0 in *.
  match type of Hl1 with length ?e = _ => set (k1 := e) in * end.
  destruct (keep_minimum (min_keep s) imp k1) as (Hl2 & Hsub & Hcnt); [lia|].
  apply Hs1 in Htop. rewrite HL in *. match type of Hl2 with length ?e = _ => set (k2 := e) in * end.
  destruct (Qle_bool (qsum imp) 0) eqn:Hz.
  - eexists. split; [done|]. rewrite length_replicate. split; [done|].
    split; [intros i Hi _; by apply lookup_replicate_2|]. split; [|split; [|done]].
    + rewrite count_true_lookup, length_replicate.
      rewrite filter_all by (apply Forall_forall; intros i Hi%elem_of_seq; apply lookup_replicate_2; lia).
      len_lia.
    + exists top. split; [|done]. apply lookup_replicate_2. apply lookup_lt_Some in Htop. lia.
  - exists k2. split; [done|]. split; [done|]. split; [intros i Hi Hr; by apply Hsub, Hr1|].
    split; [done|]. split; [exists top; split; [by apply Hsub|done]|].
    intros Hle. apply Qle_bool_iff in Hle. congruence.
Qed.

(** A rectangular score tensor of at least one column. *)
Definition well_shaped (imp : Scores) : Prop :=
  0 < width imp ∧ Forall (fun r => length r = width imp) (rows imp).

Lemma select_rows_ok s thresh imp :
  well_shaped imp → Qle_bool 1 thresh = false →
  ∃ keep, select_important_tokens argsort topk s (Some thresh) imp = Ok keep ∧ Forall2 (selects s) (rows imp) keep.
Proof.
  intros [Hw Hr] Ht. unfold select_important_tokens. simpl. rewrite Ht, bool_decide_eq_false_2 by lia.
  induction Hr as [|r rs Hlen Hr IH]; [by exists []|].
  destruct (selection_guarantees s thresh r) as (k & Hk & Hsel); [lia|].
  destruct IH as (ks & Hks & Hsels). exists (k :: ks). split; [|by constructor].
  simpl. rewrite Hk. run_bind. rewrite Hks. done.
Qed.

Lemma selects_length s (rs : list (list Q)) keep :
  Forall2 (selects s) rs keep → length (concat keep) = length (concat rs).
Proof.
  induction 1 as [|r k rs keep Hk _ IH]; [done|]. simpl. rewrite !length_app, IH. f_equal. apply Hk.
Qed.

End guarantees.

Section dispatch_spec.
Context {row : Type} (zero_row : row) (ffn : list row → list row) (f : row → row).
Hypothesis Hffn : ∀ l, ffn l = f <$> l.

(** Packing the selected rows, running the FFN on them and scattering its output
    over zero rows. *)
Lemma packed_ffn flat m :
  length m = length flat →
  (if bool_decide (0 < length (nonzero m)) then
     do! sel_hidden <- index_select flat (nonzero m);
     if bool_decide (length (ffn sel_hidden) = length sel_hidden)
     then index_copy (replicate (length flat) zero_row) (nonzero m) (ffn sel_hidden)
     else Raise ValueError
   else Ok (replicate (length flat) zero_row))
  = Ok (padded zero_row f (fun i => default false (m !! Z.to_nat i)) flat).
Proof.
  intros Hlen.
  assert (Hz : index_copy (replicate (length flat) zero_row) (nonzero m) (f <$> select_rows flat (nonzero m))
               = Ok (padded zero_row f (fun i => default false (m !! Z.to_nat i)) flat)).
  { rewrite nonzero_positions, Hlen. by apply index_copy_padded. }
  destruct (index_select_rows flat (nonzero m)) as [Hsr Hslen].
  { rewrite nonzero_positions, Hlen. apply positions_of_range. }
  case_bool_decide as Hn.
  - rewrite Hsr. run_bind. rewrite Hffn, length_fmap, bool_decide_eq_true_2 by done. exact Hz.
  - destruct (nonzero m) eqn:Hnz; [exact Hz|simpl in Hn; lia].
Qed.

Lemma padded_mask (radd : row → row → row) flat m :
  length m = length flat →
  zip_with radd flat (padded zero_row f (fun i => default false (m !! Z.to_nat i)) flat)
  = zip_with (fun y (b : bool) => radd y (if b then f y else zero_row)) flat m.
Proof.
  intros Hlen. apply list_eq. intros i. rewrite !lookup_zip_with. unfold padded.
  rewrite list_lookup_imap. destruct (flat !! i) as [y|] eqn:Hy; [|done]. simpl.
  destruct (lookup_lt_is_Some_2 m i) as [b Hb]; [apply lookup_lt_Some in Hy; lia|].
  rewrite Nat2Z.id, Hb. done.
Qed.

End dispatch_spec.

(** The importance a sparse layer selects by: the precomputed tensor when it is given,
    otherwise the one estimated from the attention output. *)
Inductive signal {att : Type} (importance_of : att → result Scores) (imp : Scores) :
    option att → option Scores → Prop :=
  | given attn_out : signal importance_of imp attn_out (Some imp)
  | estimated a : importance_of a = Ok imp → signal importance_of imp (Some a) None.

(** C40: For a feed-forward network that acts token by token, and [torch.sort] and [torch.topk]
    as documented: a dense layer adds the FFN output to every row and needs no importance.  A
    sparse layer raises [ValueError] when neither an importance nor an attention
    output is given, and the estimate's own error when the attention output has no
    importance.  With an importance [imp], the one given or else the one estimated from the
    attention output, of at least one column and rows of equal length, the selection
    returns a mask (the recent tokens, at least [min_keep] and a most
    important one of each row, see [selects]); when the mask has as many entries as the
    hidden state has rows, the FFN output is added to exactly the rows of the mask, the others stay
    on the residual path (the zero row is added), and the number of rows that
    ran is reported; when it has not, [RuntimeError]. *)
Theorem apply_sparse_ffn_spec argsort topk {row att : Type} (radd : row → row → row) (zero_row : row)
    (importance_of : att → result Scores) (ffn : list row → list row) (f : row → row)
    hidden layer s attn_out importance :
  sorts_descending argsort → picks_k topk → (∀ l, ffn l = f <$> l) →
  let flat := concat hidden in
  let run := apply_sparse_ffn argsort topk radd zero_row importance_of ffn hidden layer s attn_out importance in
  if is_dense_layer s layer then run = Ok (zip_with radd flat (f <$> flat), length flat)
  else
    (attn_out = None → importance = None → run = Raise ValueError) ∧
    (∀ a e, attn_out = Some a → importance = None → importance_of a = Raise e → run = Raise e) ∧
    ∀ imp, signal importance_of imp attn_out importance → well_shaped imp →
      ∃ keep, select_important_tokens argsort topk s (Some (get_mass_thresh s layer)) imp = Ok keep ∧
        Forall2 (selects s) (rows imp) keep ∧
        run = if bool_decide (length (concat (rows imp)) = length flat)
              then Ok (zip_with (fun y (b : bool) => radd y (if b then f y else zero_row)) flat (concat keep),
                       count_true (concat keep))
              else Raise RuntimeError.
Proof.
  intros Hsort Htopk Hffn flat run. unfold run, apply_sparse_ffn. fold flat.
  destruct (is_dense_layer s layer) eqn:Hd.
  - rewrite Hffn, length_fmap, bool_decide_eq_true_2 by done. done.
  - split; [by intros -> ->|]. split; [intros a e -> ->; by intros ->|].
    intros imp Hsig Hw. apply orb_false_iff in Hd as [_ Hd].
    destruct (select_rows_ok argsort topk Hsort Htopk s _ imp Hw Hd) as (keep & Hk & Hsel).
    exists keep. split; [done|]. split; [done|]. apply selects_length in Hsel.
    destruct Hsig as [?|a Ha]; [|rewrite Ha]; run_bind; rewrite Hk; run_bind; rewrite Hsel;
      (case_bool_decide as Hlen; [|done]); rewrite <-Hsel in Hlen;
      rewrite (packed_ffn zero_row ffn f Hffn flat _ Hlen); run_bind;
      by rewrite count_true_nonzero, padded_mask.
Qed.

(** ** Witnesses: a stable merge sort *)

Definition desc (l : list Q) (i j : nat) : Prop := (default 0 (l !! j) <= default 0 (l !! i))%Q.
#[global] Instance desc_dec l : RelDecision (desc l).
Proof.
  intros i j. unfold desc.
  destruct (Qlt_le_dec (default 0%Q (l !! i)) (default 0%Q (l !! j))) as [H|H];
    [right; by apply Qlt_not_le|by left].
Defined.
#[global] Instance desc_total l : Total (desc l).
Proof.
  intros i j. unfold desc.
  destruct (Qlt_le_dec (default 0%Q (l !! i)) (default 0%Q (l !! j))) as [H|H]; [right|left; done].
  by apply Qlt_le_weak.
Qed.
#[global] Instance desc_trans l : Transitive (desc l).
Proof. intros i j k. unfold desc. intros H1 H2. by eapply Qle_trans. Qed.

Definition merge_argsort (l : list Q) : list nat := merge_sort (desc l) (seq 0 (length l)).
Definition merge_topk (k : nat) (l : list Q) : list nat := take k (merge_argsort l).

Lemma merge_argsort_sorts : sorts_descending merge_argsort.
Proof.
  intros l. split; [apply merge_sort_Permutation|]. apply (StronglySorted_merge_sort (desc l)).
Qed.

Lemma merge_topk_picks : picks_k merge_topk.
Proof.
  intros k l Hk. pose proof (merge_sort_Permutation (desc l) (seq 0 (length l))) as Hp.
  fold (merge_argsort l) in Hp. unfold merge_topk.
  assert (Hlen : length (merge_argsort l) = length l) by (by rewrite Hp, length_seq).
  split; [len_lia|]. split.
  - apply (sublist_NoDup _ (merge_argsort l)); [rewrite Hp; apply NoDup_seq|apply sublist_take].
  - apply Forall_take. apply Forall_forall. intros i Hi. rewrite Hp in Hi. apply elem_of_seq in Hi. lia.
Qed.

(** The middle row runs the FFN, by an importance given or read off the attention output. *)
Lemma apply_sparse_ffn_spec_witness :
  let sched := mkSchedule 5 (6 # 10) 48 None 0 1 in
  let run := apply_sparse_ffn merge_argsort merge_topk Nat.add 0
               (fun a : list Q => Ok (mkScores (length a) [a])) (fmap S) [[10; 20; 30]] 7 sched in
  run (Some [1#1; 5#1; 1#1]%Q) None = Ok ([10; 41; 30], 1) ∧ run None None = Raise ValueError ∧
  run (Some [1#1; 5#1; 1#1]%Q) (Some (mkScores 2 [[1#1; 5#1]]%Q)) = Raise RuntimeError.
Proof.
  pose (spec := fun a i => apply_sparse_ffn_spec merge_argsort merge_topk Nat.add 0
              (fun a : list Q => Ok (mkScores (length a) [a])) (fmap S) S
              [[10; 20; 30]] 7 (mkSchedule 5 (6 # 10) 48 None 0 1) a i merge_argsort_sorts merge_topk_picks (fun _ => eq_refl)).
  split; [|split].
  - destruct (spec (Some [1#1; 5#1; 1#1]%Q) None) as (_ & _ & H).
    destruct (H (mkScores 3 [[1#1; 5#1; 1#1]]%Q)) as (keep & Hk & _ & Hrun).
    + by apply estimated.
    + split; simpl; [lia|]. by apply Forall_singleton.
    + vm_compute in Hk. injection Hk as <-. exact Hrun.
  - destruct (spec None None) as (H & _). by apply H.
  - destruct (spec (Some [1#1; 5#1; 1#1]%Q) (Some (mkScores 2 [[1#1; 5#1]]%Q))) as (_ & _ & H).
    destruct (H (mkScores 2 [[1#1; 5#1]]%Q)) as (keep & _ & _ & Hrun).
    + apply given.
    + split; simpl; [lia|]. by apply Forall_singleton.
    + exact Hrun.
Defined.

(** A tensor without columns has no rank to keep, even without rows. *)
Example no_columns_no_rank s :
  select_important_tokens merge_argsort merge_topk s (Some (1 # 2)%Q) (mkScores 0 []) = Raise IndexError.
Proof. reflexivity. Qed.

(** The rank rule stops before the rank that crosses the threshold: of four
    equally important tokens two are kept, half of the mass, at threshold 0.6. *)
Theorem selection_under_covers :
  select_row merge_argsort merge_topk (mkSchedule 5 (6 # 10) 48 None 0 1) (6 # 10)
    [1#1; 1#1; 1#1; 1#1]%Q = Ok [true; true; false; false] ∧
  (qsum [1#1; 1#1] < (6 # 10) * qsum [1#1; 1#1; 1#1; 1#1])%Q.
Proof. split; vm_compute; reflexivity. Qed.
