(* ===== verification/Allocator.v ===== *)
(** The KV-slot allocators ([mem_cache/allocator.py]): free lists of slots or
    pages, deferred sorting, free groups, and the two kernels that lay out the
    slots of a batch, with their reference routine.

    Lengths and locations are integers as in the tensors that hold them; a lane
    of a Triton load that is masked off reads zero (the source gives no
    [other], which leaves the value open in Triton's documentation, and sums
    over all lanes: that sum is a prefix sum only because the lanes read zero).  The kernels run before the
    allocator knows whether the free list is long enough: past its end a load
    yields zero here, and the output is dropped by the caller. *)

From S2P Require Import Prelude Tensor VisiblePlan.

Open Scope Z_scope.

(** * State *)

(** [BaseTokenToKVPoolAllocator]; the KV cache object itself is opaque. *)
Record Allocator := mkAlloc {
  size : Z;
  page_size : Z;
  need_sort : bool;
  debug_mode : bool;
  free_pages : list Z;
  release_pages : list Z;
  is_not_in_free_group : bool;
  free_group : list (list Z);
}.

Definition with_pages (fp rp : list Z) (a : Allocator) : Allocator :=
  mkAlloc (size a) (page_size a) (need_sort a) (debug_mode a) fp rp
    (is_not_in_free_group a) (free_group a).

Definition with_group (flag : bool) (g : list (list Z)) (a : Allocator) : Allocator :=
  mkAlloc (size a) (page_size a) (need_sort a) (debug_mode a) (free_pages a) (release_pages a) flag g.

Definition lenZ {A} (l : list A) : Z := Z.of_nat (length l).

Definition available_size (a : Allocator) : Z :=
  (lenZ (free_pages a) + lenZ (release_pages a)) * page_size a.

Definition backup_state (a : Allocator) : list Z * list Z := (free_pages a, release_pages a).
Definition restore_state (s : list Z * list Z) (a : Allocator) : Allocator := with_pages s.1 s.2 a.

Definition free_group_begin (a : Allocator) : Allocator := with_group false [] a.

Definition merge_and_sort_free (a : Allocator) : Allocator :=
  if bool_decide (0 < length (release_pages a))%nat
  then with_pages (merge_sort Z.le (free_pages a ++ release_pages a)) [] a
  else a.

(** The refill before an allocation of [n] entries. *)
Definition refill (n : Z) (a : Allocator) : Allocator :=
  if need_sort a && bool_decide (n > lenZ (free_pages a)) then merge_and_sort_free a else a.

(** Where [l[:n]] and [l[n:]] cut; a negative bound counts from the end. *)
Definition cut {A} (n : Z) (l : list A) : nat :=
  Z.to_nat (if bool_decide (0 ≤ n) then n else lenZ l + n).

(** Take [n] entries off the free list. *)
Definition take_free (n : Z) (a : Allocator) : option (Allocator * list Z) :=
  if bool_decide (n > lenZ (free_pages a)) then None
  else Some (with_pages (drop (cut n (free_pages a)) (free_pages a)) (release_pages a) a,
             take (cut n (free_pages a)) (free_pages a)).

(** ** [TokenToKVPoolAllocator] *)

Definition clear (a : Allocator) : Allocator :=
  with_group true [] (with_pages (seqZ 1 (size a)) [] a).

Definition new_token_allocator (sz : Z) (sort : bool) : Allocator :=
  clear (mkAlloc sz 1 sort false [] [] true []).

Definition alloc (need_size : Z) (a : Allocator) : Allocator * option (list Z) :=
  let a1 := refill need_size a in
  match take_free need_size a1 with
  | Some (a2, idx) => (a2, Some idx)
  | None => (a1, None)
  end.

Definition free (idx : list Z) (a : Allocator) : Allocator :=
  match idx with
  | [] => a
  | _ =>
      if is_not_in_free_group a then
        if need_sort a then with_pages (free_pages a) (release_pages a ++ idx) a
        else with_pages (free_pages a ++ idx) (release_pages a) a
      else with_group false (free_group a ++ [idx]) a
  end.

Definition free_group_end (a : Allocator) : Allocator :=
  let a1 := with_group true (free_group a) a in
  match free_group a with [] => a1 | g => free (concat g) a1 end.

(** ** [PagedTokenToKVPoolAllocator] *)

Definition num_pages (a : Allocator) : Z := size a / page_size a.

Definition clear_paged (a : Allocator) : Allocator :=
  with_group true [] (with_pages (seqZ 1 (num_pages a)) [] a).

Definition new_paged_allocator (sz ps : Z) (sort debug : bool) : Allocator :=
  clear_paged (mkAlloc sz ps sort debug [] [] true []).

(** The slots of pages, page by page. *)
Definition slots_of (ps : Z) (pages : list Z) : list Z :=
  concat ((fun pg => (fun o => pg * ps + o) <$> seqZ 0 ps) <$> pages).

Definition alloc_paged (need_size : Z) (a : Allocator) : result (Allocator * option (list Z)) :=
  if debug_mode a && negb (bool_decide (need_size mod page_size a = 0)) then Raise AssertionError
  else
    let n := need_size / page_size a in
    let a1 := refill n a in
    match take_free n a1 with
    | Some (a2, pages) => Ok (a2, Some (slots_of (page_size a) pages))
    | None => Ok (a1, None)
    end.

Definition pages_of (ps : Z) (idx : list Z) : list Z := unique_sorted ((fun i => i / ps) <$> idx).

Definition free_paged (idx : list Z) (a : Allocator) : result Allocator :=
  match idx with
  | [] => Ok a
  | _ =>
      let a1 := if is_not_in_free_group a then
                  let pgs := pages_of (page_size a) idx in
                  if need_sort a then with_pages (free_pages a) (pgs ++ release_pages a) a
                  else with_pages (pgs ++ free_pages a) (release_pages a) a
                else with_group false (free_group a ++ [idx]) a in
      if debug_mode a && negb (bool_decide (NoDup (free_pages a1))) then Raise AssertionError else Ok a1
  end.

Definition free_group_end_paged (a : Allocator) : result Allocator :=
  let a1 := with_group true (free_group a) a in
  match free_group a with [] => Ok a1 | g => free_paged (concat g) a1 end.

(** * Batch layout *)

Definition cdiv (a p : Z) : Z := (a + p - 1) / p.

(** [get_num_new_pages]: decode counts the sequences whose new token opens a page. *)
Definition get_num_new_pages_decode (seq_lens : list Z) (p : Z) : Z :=
  lenZ (filter (fun s => s mod p = 1) seq_lens).

Definition get_num_new_pages (seq_lens prefix_lens : list Z) (p : Z) : Z :=
  sumZ (zip_with (fun s q => cdiv s p - cdiv q p) seq_lens prefix_lens).

Definition next_power_of_2 (n : Z) : Z :=
  if bool_decide (n > 0) then Z.shiftl 1 (if bool_decide (n = 1) then 0 else Z.log2 (n - 1) + 1) else 1.

(** [torch.cumsum]. *)
Fixpoint cumsumZ (acc : Z) (l : list Z) : list Z :=
  match l with [] => [] | x :: l => (acc + x) :: cumsumZ (acc + x) l end.

(** [out[a:b] = vals] with in-range bounds; a single value broadcasts. *)
Definition store_slice (a b : Z) (vals out : list Z) : result (list Z) :=
  let n := Z.to_nat (b - a) in
  let put v := take (Z.to_nat a) out ++ v ++ drop (Z.to_nat a + n)%nat out in
  if bool_decide (length vals = n) then Ok (put vals)
  else match vals with [x] => Ok (put (replicate n x)) | _ => Raise RuntimeError end.

(** One request of [alloc_extend_naive]: [sp], [ep] bound its output, [sn],
    [en] its pages, [need] tells whether the last page is partial. *)
Definition naive_request (p pre sq last sp ep sn en need : Z) (fp out : list Z) : result (list Z) :=
  let pos_in_page := seqZ 0 p in
  let num1 := Z.min sq (cdiv pre p * p) - pre in
  do! out <- (if bool_decide (num1 = 0) then Ok out
              else store_slice sp (sp + num1) ((fun o => last + 1 + o) <$> take (Z.to_nat num1) pos_in_page) out);
  if bool_decide (pre + num1 = sq) then Ok out
  else
    let num2 := (sq / p - cdiv pre p) * p in
    do! out <- (if bool_decide (num2 = 0) then Ok out
                else store_slice (sp + num1) (sp + num1 + num2)
                       (slots_of p (slice (Z.to_nat sn) (Z.to_nat (en - need)) fp)) out);
    if bool_decide (pre + num1 + num2 = sq) then Ok out
    else
      let num3 := sq - sq / p * p in
      if bool_decide (num3 = 0) then Ok out
      else
        do! pg <- py_get fp (en - 1);
        store_slice (ep - num3) ep ((fun o => pg * p + o) <$> take (Z.to_nat num3) pos_in_page) out.

Definition alloc_extend_naive (prefix_lens seq_lens last_loc fp out : list Z) (p : Z) : result (list Z) :=
  let extend_lens := zip_with Z.sub seq_lens prefix_lens in
  let end_pos := cumsumZ 0 extend_lens in
  let start_pos := zip_with Z.sub end_pos extend_lens in
  let num_new_pages := zip_with (fun s q => cdiv s p - cdiv q p) seq_lens prefix_lens in
  let num_full := zip_with (fun s q => s / p - cdiv q p) seq_lens prefix_lens in
  let need_page := zip_with Z.sub num_new_pages num_full in
  let end_new := cumsumZ 0 num_new_pages in
  let start_new := zip_with Z.sub end_new num_new_pages in
  foldM (fun out i =>
    do! pre <- py_get prefix_lens i; do! sq <- py_get seq_lens i; do! last <- py_get last_loc i;
    do! sp <- py_get start_pos i; do! ep <- py_get end_pos i;
    do! sn <- py_get start_new i; do! en <- py_get end_new i; do! need <- py_get need_page i;
    naive_request p pre sq last sp ep sn en need fp out) (range (lenZ prefix_lens)) out.

(** ** Triton programs *)

(** An unmasked load. *)
Definition tl_load (l : list Z) (i : Z) : Z := default 0 (l !! Z.to_nat i).

(** [tl.load(ptr + arange(0, n), mask = arange <= pid)]. *)
Definition tl_load_upto (l : list Z) (n pid : Z) : list Z :=
  (fun i => if bool_decide (i <= pid) then tl_load l i else 0) <$> seqZ 0 n.

(** [tl.store(ptr + base + offs, val(offs), mask = offs < bound)]. *)
Definition tl_store (base bound : Z) (offs : list Z) (val : Z → Z) (out : list Z) : list Z :=
  foldl (fun o k => if bool_decide (k < bound) then <[Z.to_nat (base + k) := val k]> o else o) out offs.

Definition BLOCK_EXTEND : Z := 4096.

(** [alloc_extend_kernel], the program of request [pid]. *)
Definition alloc_extend_program (prefix_lens seq_lens last_loc fp : list Z) (bs_upper p : Z)
    (out : list Z) (pid : Z) : list Z :=
  let seq_l := tl_load_upto seq_lens bs_upper pid in
  let pre_l := tl_load_upto prefix_lens bs_upper pid in
  let sq := tl_load seq_lens pid in
  let pre := tl_load prefix_lens pid in
  let output_start_loc := sumZ (zip_with Z.sub seq_l pre_l) - (sq - pre) in
  let num_new := zip_with (fun s q => cdiv s p - cdiv q p) seq_l pre_l in
  let num_self := cdiv sq p - cdiv pre p in
  let new_page_start_loc := sumZ num_new - num_self in
  let last := tl_load last_loc pid in
  let num_part1 := Z.min sq (cdiv pre p * p) - pre in
  let out := tl_store output_start_loc num_part1 (seqZ 0 p) (fun k => last + 1 + k) out in
  if bool_decide (pre + num_part1 = sq) then out
  else
    let num_part2 := sq / p * p - cdiv pre p * p in
    let num_blocks := (num_part2 + BLOCK_EXTEND - 1) / BLOCK_EXTEND in
    let out := foldl (fun out blk =>
                 tl_store (output_start_loc + num_part1) num_part2
                   ((fun o => blk * BLOCK_EXTEND + o) <$> seqZ 0 BLOCK_EXTEND)
                   (fun k => tl_load fp (new_page_start_loc + k / p) * p + k mod p) out)
               out (seqZ 0 num_blocks) in
    if bool_decide (pre + num_part1 + num_part2 = sq) then out
    else
      let num_part3 := sq - sq / p * p in
      let start_loc := tl_load fp (new_page_start_loc + num_self - 1) in
      tl_store (output_start_loc + num_part1 + num_part2) num_part3 (seqZ 0 p)
        (fun k => start_loc * p + k) out.

Definition alloc_extend_kernel (prefix_lens seq_lens last_loc fp out : list Z) (bs_upper p : Z) : list Z :=
  foldl (alloc_extend_program prefix_lens seq_lens last_loc fp bs_upper p) out (range (lenZ prefix_lens)).

(** [alloc_decode_kernel], the program of request [pid]. *)
Definition alloc_decode_program (seq_lens last_loc fp : list Z) (bs_upper p : Z)
    (out : list Z) (pid : Z) : list Z :=
  let seq_l := tl_load_upto seq_lens bs_upper pid in
  let pre_l := imap (fun i s => if bool_decide (Z.of_nat i <= pid) then s - 1 else s) seq_l in
  let sq := tl_load seq_lens pid in
  let num_new := zip_with (fun s q => cdiv s p - cdiv q p) seq_l pre_l in
  let num_self := cdiv sq p - cdiv (sq - 1) p in
  let new_page_start_loc := sumZ num_new - num_self in
  if bool_decide (num_self = 0) then <[Z.to_nat pid := tl_load last_loc pid + 1]> out
  else <[Z.to_nat pid := tl_load fp new_page_start_loc * p]> out.

Definition alloc_decode_kernel (seq_lens last_loc fp out : list Z) (bs_upper p : Z) : list Z :=
  foldl (alloc_decode_program seq_lens last_loc fp bs_upper p) out (range (lenZ seq_lens)).

(** [alloc_extend] and [alloc_decode]; [uninit n] is [torch.empty(n)]. *)
Section batch.
Context (uninit : Z → list Z).

Definition alloc_extend (prefix_lens seq_lens last_loc : list Z) (extend_num_tokens : Z)
    (num_new_pages : option Z) (a : Allocator) : result (Allocator * option (list Z)) :=
  let p := page_size a in
  if debug_mode a && negb (forallb (fun x => bool_decide ((x.1 + 1) mod p = x.2 mod p)) (zip last_loc prefix_lens))
  then Raise AssertionError
  else
    let bs := lenZ prefix_lens in
    let a1 := refill (extend_num_tokens / p + bs + 1) a in
    let out := alloc_extend_kernel prefix_lens seq_lens last_loc (free_pages a1)
                 (uninit extend_num_tokens) (next_power_of_2 bs) p in
    if debug_mode a && negb (bool_decide (NoDup out)) then Raise AssertionError
    else
      let n := default (get_num_new_pages seq_lens prefix_lens p) num_new_pages in
      match take_free n a1 with
      | Some (a2, _) => Ok (a2, Some out)
      | None => Ok (a1, None)
      end.

Definition alloc_decode (seq_lens last_loc : list Z) (a : Allocator) : result (Allocator * option (list Z)) :=
  let p := page_size a in
  if debug_mode a && negb (forallb (fun x => bool_decide ((x.1 + 2) mod p = x.2 mod p)) (zip last_loc seq_lens))
  then Raise AssertionError
  else
    let bs := lenZ seq_lens in
    let a1 := refill bs a in
    let out := alloc_decode_kernel seq_lens last_loc (free_pages a1) (uninit bs) (next_power_of_2 bs) p in
    if debug_mode a && negb (bool_decide (NoDup out)) then Raise AssertionError
    else
      match take_free (get_num_new_pages_decode seq_lens p) a1 with
      | Some (a2, _) => Ok (a2, Some out)
      | None => Ok (a1, None)
      end.

End batch.

(** * The two layouts agree *)

(** ** Stores *)

Definition write_at (a : nat) (vals out : list Z) : list Z :=
  take a out ++ vals ++ drop (a + length vals)%nat out.

Lemma length_write_at a vals out :
  (a + length vals ≤ length out)%nat → length (write_at a vals out) = length out.
Proof. intros H. unfold write_at. len_lia. Qed.

Lemma write_at_nil a out : write_at a [] out = out.
Proof. unfold write_at. simpl. rewrite Nat.add_0_r. apply take_drop. Qed.

Lemma write_at_app a v1 v2 out :
  (a + length v1 + length v2 ≤ length out)%nat →
  write_at (a + length v1) v2 (write_at a v1 out) = write_at a (v1 ++ v2) out.
Proof.
  intros H. unfold write_at. assert (Hl : length (take a out) = a) by len_lia.
  assert (H1 : take (a + length v1) (take a out ++ v1 ++ drop (a + length v1) out) = take a out ++ v1).
  { rewrite app_assoc, take_app_le by len_lia. apply take_ge. len_lia. }
  assert (H2 : drop (a + length v1 + length v2) (take a out ++ v1 ++ drop (a + length v1) out)
               = drop (a + length v1 + length v2) out).
  { rewrite app_assoc, drop_app_ge by len_lia. rewrite length_app, Hl, drop_drop. f_equal. lia. }
  rewrite H1, H2, length_app, <-!app_assoc, Nat.add_assoc. done.
Qed.

Lemma write_at_one a x out : (a < length out)%nat → write_at a [x] out = <[a := x]> out.
Proof.
  intros H. unfold write_at. simpl. rewrite Nat.add_1_r. symmetry. by apply insert_take_drop.
Qed.

Lemma store_slice_ok a b vals out :
  0 ≤ a → b = a + lenZ vals → store_slice a b vals out = Ok (write_at (Z.to_nat a) vals out).
Proof.
  intros Ha ->. unfold store_slice, lenZ. rewrite bool_decide_eq_true_2 by lia.
  unfold write_at. do 4 f_equal. lia.
Qed.

Lemma seqZ_snoc a n : 0 ≤ n → seqZ a (n + 1) = seqZ a n ++ [a + n].
Proof. intros Hn. rewrite seqZ_app by lia. done. Qed.

Lemma tl_store_app base bound l1 l2 val out :
  tl_store base bound (l1 ++ l2) val out = tl_store base bound l2 val (tl_store base bound l1 val out).
Proof. unfold tl_store. by rewrite foldl_app. Qed.

Lemma tl_store_masked base bound l val out :
  Forall (fun k => bound ≤ k) l → tl_store base bound l val out = out.
Proof.
  unfold tl_store. intros Hl. revert out. induction Hl as [|k l Hk _ IH]; intros out; [done|].
  simpl. rewrite bool_decide_eq_false_2 by lia. apply IH.
Qed.

Lemma tl_store_write base (m : nat) bound val out :
  0 ≤ base → Z.of_nat m ≤ bound → base + Z.of_nat m ≤ lenZ out →
  tl_store base bound (seqZ 0 (Z.of_nat m)) val out
  = write_at (Z.to_nat base) (val <$> seqZ 0 (Z.of_nat m)) out.
Proof.
  intros Hb. induction m as [|m IH]; intros Hm Hl; [by rewrite write_at_nil|].
  replace (Z.of_nat (S m)) with (Z.of_nat m + 1) by lia.
  rewrite seqZ_snoc, tl_store_app, IH, fmap_app by lia. unfold lenZ in *.
  assert (Hlen : length (val <$> seqZ 0 (Z.of_nat m)) = m) by (rewrite length_fmap, length_seqZ; lia).
  rewrite <-write_at_app by (rewrite Hlen, length_fmap; simpl; lia).
  rewrite Hlen. simpl fmap. rewrite write_at_one by (rewrite length_write_at; lia).
  unfold tl_store. simpl. rewrite bool_decide_eq_true_2 by lia. do 2 f_equal. lia.
Qed.

Lemma tl_store_spec base bound n val out :
  0 ≤ base → 0 ≤ bound ≤ n → base + bound ≤ lenZ out →
  tl_store base bound (seqZ 0 n) val out = write_at (Z.to_nat base) (val <$> seqZ 0 bound) out.
Proof.
  intros Hb Hn Hl. pose proof (seqZ_split 0 bound n ltac:(lia)) as Hs. rewrite !Z.sub_0_r in Hs.
  rewrite Hs, tl_store_app. rewrite (tl_store_masked _ _ (seqZ bound (n - bound))).
  2: { apply Forall_forall. intros k Hk%elem_of_seqZ. lia. }
  rewrite <-(Z2Nat.id bound) at 2 3 by lia. apply tl_store_write; lia.
Qed.

(** The blocked loop stores a contiguous range. *)
Lemma tl_store_blocks base bound B (nb : nat) val out :
  0 < B →
  foldl (fun out blk => tl_store base bound ((fun o => blk * B + o) <$> seqZ 0 B) val out) out
    (seqZ 0 (Z.of_nat nb))
  = tl_store base bound (seqZ 0 (Z.of_nat nb * B)) val out.
Proof.
  intros HB. induction nb as [|nb IH]; [done|].
  replace (Z.of_nat (S nb)) with (Z.of_nat nb + 1) by lia. rewrite seqZ_snoc by lia.
  rewrite foldl_app, IH. cbn [foldl]. rewrite <-tl_store_app. f_equal.
  replace ((Z.of_nat nb + 1) * B) with (Z.of_nat nb * B + B) by lia.
  rewrite seqZ_app by lia. f_equal. rewrite Z.add_0_l.
  pose proof (fmap_add_seqZ (Z.of_nat nb * B) 0 B) as He. rewrite Z.add_0_r in He. exact He.
Qed.

(** ** One request *)

(** The slot of token [t] of a request whose new pages start at [sn]. *)
Definition slot (p pre last sn : Z) (fp : list Z) (t : Z) : Z :=
  if bool_decide (t < cdiv pre p * p) then last + 1 + (t - pre)
  else tl_load fp (sn + t / p - cdiv pre p) * p + t mod p.

Definition request_slots (p pre sq last sn : Z) (fp : list Z) : list Z :=
  slot p pre last sn fp <$> seqZ pre (sq - pre).

Lemma cdiv_bounds a p : 0 < p → a ≤ cdiv a p * p < a + p.
Proof.
  intros Hp. unfold cdiv. pose proof (Z.div_mod (a + p - 1) p ltac:(lia)).
  pose proof (Z.mod_pos_bound (a + p - 1) p Hp). nia.
Qed.

Lemma fmap_shift {B} (f : Z → B) a n : f <$> seqZ a n = (fun k => f (a + k)) <$> seqZ 0 n.
Proof.
  pose proof (fmap_add_seqZ a 0 n) as H. rewrite Z.add_0_r in H. rewrite <-H, <-list_fmap_compose.
  done.
Qed.

Lemma fmap_seqZ_ext {B} (f g : Z → B) a n :
  (∀ k, a ≤ k < a + n → f k = g k) → f <$> seqZ a n = g <$> seqZ a n.
Proof.
  intros H. apply list_fmap_ext. intros i k [-> Hk]%lookup_seqZ. apply H. lia.
Qed.

(** The three parts of the layout. *)
Lemma request_parts p pre sq last sn fp :
  0 < p → 0 ≤ pre ≤ sq →
  let num1 := Z.min sq (cdiv pre p * p) - pre in
  let num2 := sq / p * p - cdiv pre p * p in
  let num3 := sq - sq / p * p in
  0 ≤ num1 < p ∧
  (pre + num1 = sq → request_slots p pre sq last sn fp = (fun k => last + 1 + k) <$> seqZ 0 num1) ∧
  (pre + num1 ≠ sq → 0 ≤ num2 ∧ 0 ≤ num3 < p ∧ num1 + num2 + num3 = sq - pre ∧
    request_slots p pre sq last sn fp
    = ((fun k => last + 1 + k) <$> seqZ 0 num1)
      ++ ((fun k => tl_load fp (sn + k / p) * p + k mod p) <$> seqZ 0 num2)
      ++ ((fun k => tl_load fp (sn + sq / p - cdiv pre p) * p + k) <$> seqZ 0 num3)).
Proof.
  intros Hp Hs num1 num2 num3. pose proof (cdiv_bounds pre p Hp) as Hc.
  assert (H1 : 0 ≤ num1 < p) by (unfold num1; lia).
  assert (Hpart1 : slot p pre last sn fp <$> seqZ pre num1 = (fun k => last + 1 + k) <$> seqZ 0 num1).
  { rewrite fmap_shift. apply fmap_seqZ_ext. intros k Hk. unfold slot.
    rewrite bool_decide_eq_true_2 by (unfold num1 in Hk; lia). lia. }
  split; [done|]. split.
  { intros He. unfold request_slots. replace (sq - pre) with num1 by lia. exact Hpart1. }
  intros Hne. assert (Hgt : cdiv pre p * p < sq) by (unfold num1 in Hne; lia).
  assert (Hn1 : pre + num1 = cdiv pre p * p) by (unfold num1; lia).
  pose proof (Z.div_mod sq p ltac:(lia)) as Hdm. pose proof (Z.mod_pos_bound sq p Hp) as Hmb.
  assert (Hle : cdiv pre p ≤ sq / p) by (apply Z.div_le_lower_bound; lia).
  assert (H2 : 0 ≤ num2) by (unfold num2; nia).
  assert (H3 : num3 = sq mod p) by (unfold num3; lia).
  split; [done|]. split; [lia|]. split; [unfold num2; lia|].
  unfold request_slots. replace (sq - pre) with (num1 + (num2 + num3)) by (unfold num2; lia).
  rewrite !seqZ_app by lia. rewrite !fmap_app, Hpart1, Hn1. f_equal. f_equal.
  - rewrite fmap_shift. apply fmap_seqZ_ext. intros k Hk. unfold slot.
    rewrite bool_decide_eq_false_2 by lia.
    rewrite (Z.add_comm (cdiv pre p * p) k), Z.div_add, Z_mod_plus_full by lia.
    do 2 f_equal. f_equal. lia.
  - replace (cdiv pre p * p + num2) with (sq / p * p) by (unfold num2; lia).
    rewrite fmap_shift. apply fmap_seqZ_ext. intros k Hk. unfold slot.
    rewrite bool_decide_eq_false_2 by nia.
    rewrite (Z.add_comm (sq / p * p) k), Z.div_add, Z_mod_plus_full, Z.div_small, Z.mod_small by lia.
    do 2 f_equal.
Qed.

Lemma slots_of_index p pages :
  0 < p →
  slots_of p pages = (fun k => tl_load pages (k / p) * p + k mod p) <$> seqZ 0 (lenZ pages * p).
Proof.
  intros Hp. unfold slots_of. induction pages as [|x pages IH]; [done|].
  rewrite fmap_cons. cbn [concat]. rewrite IH. unfold lenZ. cbn [length].
  replace (Z.of_nat (S (length pages)) * p) with (p + Z.of_nat (length pages) * p) by lia.
  rewrite seqZ_app, fmap_app by lia. f_equal.
  - apply fmap_seqZ_ext. intros k Hk. rewrite Z.div_small, Z.mod_small by lia. done.
  - rewrite (fmap_shift _ (0 + p)). apply fmap_seqZ_ext. intros k Hk.
    replace (0 + p + k) with (k + 1 * p) by lia. rewrite Z.div_add, Z_mod_plus_full by lia.
    do 2 f_equal. unfold tl_load.
    rewrite Z2Nat.inj_add by (try apply Z.div_pos; lia). rewrite Nat.add_1_r. done.
Qed.

Lemma cdiv_partial a p : 0 < p → cdiv a p = a / p + (if bool_decide (a mod p = 0) then 0 else 1).
Proof.
  intros Hp. unfold cdiv. pose proof (Z.div_mod a p ltac:(lia)). pose proof (Z.mod_pos_bound a p Hp).
  symmetry. case_bool_decide; apply Z.div_unique_pos with (if bool_decide (a mod p = 0) then p - 1 else a mod p - 1);
    case_bool_decide; try done; lia.
Qed.

Lemma tl_load_slice fp a b k :
  0 ≤ a → 0 ≤ k < b - a → tl_load (slice (Z.to_nat a) (Z.to_nat b) fp) k = tl_load fp (a + k).
Proof.
  intros Ha Hk. unfold tl_load, slice. rewrite lookup_take_lt, lookup_drop by lia. do 2 f_equal. lia.
Qed.

Lemma length_slots f n : 0 ≤ n → lenZ ((f : Z → Z) <$> seqZ 0 n) = n.
Proof. intros Hn. unfold lenZ. rewrite length_fmap, length_seqZ. lia. Qed.

Lemma take_pos p n : 0 ≤ n ≤ p → take (Z.to_nat n) (seqZ 0 p) = seqZ 0 n.
Proof.
  intros Hn. pose proof (seqZ_split 0 n p ltac:(lia)) as Hs. rewrite !Z.sub_0_r in Hs. rewrite Hs.
  rewrite take_app_le, take_ge by (rewrite length_seqZ; lia). done.
Qed.

(** Three consecutive writes are one. *)
Lemma write_at_three a1 a2 a3 v1 v2 v3 out :
  0 ≤ a1 → a2 = a1 + lenZ v1 → a3 = a2 + lenZ v2 → a3 + lenZ v3 ≤ lenZ out →
  write_at (Z.to_nat a3) v3 (write_at (Z.to_nat a2) v2 (write_at (Z.to_nat a1) v1 out))
  = write_at (Z.to_nat a1) (v1 ++ v2 ++ v3) out.
Proof.
  unfold lenZ. intros Ha -> -> Hl.
  replace (Z.to_nat (a1 + Z.of_nat (length v1) + Z.of_nat (length v2)))
    with (Z.to_nat a1 + length v1 + length v2)%nat by lia.
  replace (Z.to_nat (a1 + Z.of_nat (length v1))) with (Z.to_nat a1 + length v1)%nat by lia.
  rewrite !write_at_app by (rewrite ?length_write_at, ?length_app; lia). done.
Qed.

Section request.
Context (p pre sq last sp sn : Z) (fp out : list Z).
Hypothesis Hp : 0 < p.
Hypothesis Hlen : 0 ≤ pre ≤ sq.
Hypothesis Hsp : 0 ≤ sp.
Hypothesis Hsn : 0 ≤ sn.
Hypothesis Hout : sp + (sq - pre) ≤ lenZ out.
Hypothesis Hfp : sn + (cdiv sq p - cdiv pre p) ≤ lenZ fp.

Lemma naive_request_ok ep en need :
  ep = sp + (sq - pre) → en = sn + (cdiv sq p - cdiv pre p) →
  need = (cdiv sq p - cdiv pre p) - (sq / p - cdiv pre p) →
  naive_request p pre sq last sp ep sn en need fp out
  = Ok (write_at (Z.to_nat sp) (request_slots p pre sq last sn fp) out).
Proof using All.
  intros -> -> ->. destruct (request_parts p pre sq last sn fp Hp Hlen) as (H1 & Hone & Hall).
  unfold naive_request. set (num1 := Z.min sq (cdiv pre p * p) - pre) in *.
  match goal with |- (do! o <- ?first; _) = _ => assert (first
    = Ok (write_at (Z.to_nat sp) ((fun k => last + 1 + k) <$> seqZ 0 num1) out)) as -> end.
  { case_bool_decide as H0; [rewrite H0; by rewrite write_at_nil|].
    rewrite take_pos by lia. apply store_slice_ok; [lia|]. rewrite length_slots; lia. }
  run_bind. case_bool_decide as He; [by rewrite Hone|].
  destruct (Hall He) as (H2 & H3 & Hsum & ->). clear Hone Hall.
  replace ((sq / p - cdiv pre p) * p) with (sq / p * p - cdiv pre p * p) by lia.
  set (num2 := sq / p * p - cdiv pre p * p) in *. set (num3 := sq - sq / p * p) in *.
  set (v1 := (fun k => last + 1 + k) <$> seqZ 0 num1).
  set (v2 := (fun k => tl_load fp (sn + k / p) * p + k mod p) <$> seqZ 0 num2).
  assert (Hv1 : lenZ v1 = num1) by (apply length_slots; lia).
  assert (Hv2 : lenZ v2 = num2) by (by apply length_slots).
  assert (Hge : sq / p ≤ cdiv sq p) by (rewrite (cdiv_partial sq p Hp); case_bool_decide; lia).
  assert (Hq : sq / p - cdiv pre p = num2 / p /\ 0 ≤ sq / p - cdiv pre p).
  { replace num2 with ((sq / p - cdiv pre p) * p) in * by (unfold num2; lia).
    rewrite Z.div_mul by lia. split; [done|nia]. }
  match goal with |- (do! o <- ?second; _) = _ => assert (second
    = Ok (write_at (Z.to_nat (sp + num1)) v2 (write_at (Z.to_nat sp) v1 out))) as -> end.
  { case_bool_decide as H0; [unfold v2; rewrite H0; by rewrite write_at_nil|].
    set (pg := slice _ _ fp).
    assert (Hpg : lenZ pg * p = num2).
    { unfold lenZ, pg, slice. rewrite length_take, length_drop. unfold lenZ in Hfp.
      rewrite Nat.min_l by lia. unfold num2. nia. }
    rewrite (slots_of_index p pg Hp), Hpg.
    assert (Heq : ((fun k => tl_load pg (k / p) * p + k mod p) <$> seqZ 0 num2) = v2).
    { apply fmap_seqZ_ext. intros k Hk. unfold pg. rewrite tl_load_slice; [done|lia|].
      assert (k / p < num2 / p) by (apply Z.div_lt_upper_bound; [lia|]; unfold num2 in *; nia).
      pose proof (Z.div_pos k p ltac:(lia) Hp). lia. }
    rewrite Heq. apply store_slice_ok; lia. }
  run_bind. case_bool_decide as He2.
  { assert (num3 = 0) as -> by lia. cbn [fmap list_fmap]. 
    rewrite <-(write_at_three sp (sp + num1) (sp + num1 + num2)) by (unfold lenZ in *; simpl; lia).
    by rewrite write_at_nil. }
  rewrite bool_decide_eq_false_2 by lia.
  assert (Hmod : sq mod p = num3) by (rewrite Z.mod_eq by lia; unfold num3; lia).
  pose proof (cdiv_partial sq p Hp) as Hcd. rewrite bool_decide_eq_false_2 in Hcd by lia.
  assert (Hpg : py_get fp (sn + (cdiv sq p - cdiv pre p) - 1) = Ok (tl_load fp (sn + sq / p - cdiv pre p))).
  { unfold tl_load. replace (sn + (cdiv sq p - cdiv pre p) - 1) with (Z.of_nat (Z.to_nat (sn + sq / p - cdiv pre p))) by lia.
    destruct (lookup_lt_is_Some_2 fp (Z.to_nat (sn + sq / p - cdiv pre p))) as [x Hx]; [unfold lenZ in *; lia|].
    rewrite Hx. by apply py_get_nat. }
  rewrite Hpg. run_bind. rewrite take_pos by lia. rewrite store_slice_ok by (rewrite ?length_slots; lia).
  f_equal. replace (sp + (sq - pre) - num3) with (sp + num1 + num2) by lia.
  apply write_at_three; rewrite ?length_slots; lia.
Qed.

(** The body of a kernel program once its two start offsets are known. *)
Lemma extend_parts_ok :
  (let num_part1 := Z.min sq (cdiv pre p * p) - pre in
   let out := tl_store sp num_part1 (seqZ 0 p) (fun k => last + 1 + k) out in
   if bool_decide (pre + num_part1 = sq) then out
   else
     let num_part2 := sq / p * p - cdiv pre p * p in
     let num_blocks := (num_part2 + BLOCK_EXTEND - 1) / BLOCK_EXTEND in
     let out := foldl (fun out blk =>
                  tl_store (sp + num_part1) num_part2
                    ((fun o => blk * BLOCK_EXTEND + o) <$> seqZ 0 BLOCK_EXTEND)
                    (fun k => tl_load fp (sn + k / p) * p + k mod p) out)
                out (seqZ 0 num_blocks) in
     if bool_decide (pre + num_part1 + num_part2 = sq) then out
     else
       let num_part3 := sq - sq / p * p in
       let start_loc := tl_load fp (sn + (cdiv sq p - cdiv pre p) - 1) in
       tl_store (sp + num_part1 + num_part2) num_part3 (seqZ 0 p) (fun k => start_loc * p + k) out)
  = write_at (Z.to_nat sp) (request_slots p pre sq last sn fp) out.
Proof using Hp Hlen Hsp Hout.
  destruct (request_parts p pre sq last sn fp Hp Hlen) as (H1 & Hone & Hall).
  cbv zeta. set (num1 := Z.min sq (cdiv pre p * p) - pre) in *.
  rewrite tl_store_spec by lia. case_bool_decide as He; [by rewrite Hone|].
  destruct (Hall He) as (H2 & H3 & Hsum & ->). clear Hone Hall.
  set (num2 := sq / p * p - cdiv pre p * p) in *. set (num3 := sq - sq / p * p) in *.
  set (v1 := (fun k => last + 1 + k) <$> seqZ 0 num1).
  set (v2 := (fun k => tl_load fp (sn + k / p) * p + k mod p) <$> seqZ 0 num2).
  assert (Hv1 : lenZ v1 = num1) by (apply length_slots; lia).
  assert (Hv2 : lenZ v2 = num2) by (by apply length_slots).
  assert (HB : num2 ≤ (num2 + BLOCK_EXTEND - 1) / BLOCK_EXTEND * BLOCK_EXTEND)
    by (unfold BLOCK_EXTEND; divmod_lia).
  assert (Hnb : 0 ≤ (num2 + BLOCK_EXTEND - 1) / BLOCK_EXTEND)
    by (apply Z.div_pos; unfold BLOCK_EXTEND; lia).
  assert (Hlo : lenZ (write_at (Z.to_nat sp) v1 out) = lenZ out)
    by (unfold lenZ in *; rewrite length_write_at; lia).
  rewrite <-(Z2Nat.id _ Hnb), tl_store_blocks, tl_store_spec by (rewrite ?Z2Nat.id; unfold BLOCK_EXTEND in *; lia).
  fold v2. case_bool_decide as He2.
  { assert (num3 = 0) as -> by lia. cbn [fmap list_fmap].
    rewrite <-(write_at_three sp (sp + num1) (sp + num1 + num2)) by (unfold lenZ in *; simpl; lia).
    by rewrite write_at_nil. }
  assert (Hmod : sq mod p = num3) by (rewrite Z.mod_eq by lia; unfold num3; lia).
  pose proof (cdiv_partial sq p Hp) as Hcd. rewrite bool_decide_eq_false_2 in Hcd by lia.
  replace (sn + (cdiv sq p - cdiv pre p) - 1) with (sn + sq / p - cdiv pre p) by lia.
  assert (Hl2 : lenZ (write_at (Z.to_nat (sp + num1)) v2 (write_at (Z.to_nat sp) v1 out)) = lenZ out)
    by (unfold lenZ in *; rewrite length_write_at; lia).
  rewrite tl_store_spec by lia. apply write_at_three; rewrite ?length_slots; lia.
Qed.

End request.

(** ** The batch *)

(** Prefix sums, and what the kernels' lane sums compute. *)
Definition psum (l : list Z) (i : Z) : Z := sumZ (take (Z.to_nat i) l).

Lemma psum_succ l i x : 0 ≤ i → l !! Z.to_nat i = Some x → psum l (i + 1) = psum l i + x.
Proof.
  intros Hi Hx. unfold psum. replace (Z.to_nat (i + 1)) with (S (Z.to_nat i)) by lia.
  rewrite (take_S_r _ _ _ Hx), sumZ_app, sumZ_cons. change (sumZ []) with 0. lia.
Qed.

Lemma psum_mono l i j : Forall (Z.le 0) l → 0 ≤ i ≤ j → psum l i ≤ psum l j.
Proof.
  intros Hl Hij. unfold psum.
  replace (take (Z.to_nat i) l) with (take (Z.to_nat i) (take (Z.to_nat j) l))
    by (rewrite take_take; f_equal; lia).
  pose proof (take_drop (Z.to_nat i) (take (Z.to_nat j) l)) as Hs.
  rewrite <-Hs at 2. rewrite sumZ_app. pose proof (sumZ_nonneg (drop (Z.to_nat i) (take (Z.to_nat j) l))) as Hn.
  assert (Forall (Z.le 0) (drop (Z.to_nat i) (take (Z.to_nat j) l))) by (by apply Forall_drop, Forall_take).
  specialize (Hn ltac:(done)). lia.
Qed.

Lemma cumsumZ_lookup acc l (i : nat) :
  (i < length l)%nat → cumsumZ acc l !! i = Some (acc + psum l (Z.of_nat i + 1)).
Proof.
  revert acc i. induction l as [|x l IH]; intros acc i Hi; [simpl in Hi; lia|].
  unfold psum in *. cbn [cumsumZ]. replace (Z.to_nat (Z.of_nat i + 1)) with (S i) by lia. cbn [take].
  rewrite sumZ_cons. destruct i as [|i]; [simpl; by rewrite Z.add_0_r|]. cbn [lookup list_lookup].
  rewrite IH by (simpl in Hi; lia). replace (Z.to_nat (Z.of_nat i + 1)) with (S i) by lia. f_equal. lia.
Qed.

Lemma tl_load_upto_spec l n pid :
  0 ≤ pid < lenZ l → lenZ l ≤ n →
  tl_load_upto l n pid = take (Z.to_nat (pid + 1)) l ++ replicate (Z.to_nat (n - pid - 1)) 0.
Proof.
  unfold lenZ. intros Hp Hn. unfold tl_load_upto. apply list_eq. intros i. rewrite list_lookup_fmap.
  destruct (decide (Z.of_nat i < n)) as [Hi|Hi].
  - rewrite lookup_seqZ_lt by lia. simpl.
    case_bool_decide as Hip.
    + rewrite lookup_app_l by len_lia. rewrite lookup_take_lt by lia.
      unfold tl_load. replace (Z.to_nat (0 + Z.of_nat i)) with i by lia.
      destruct (lookup_lt_is_Some_2 l i) as [x ->]; [lia|]. done.
    + rewrite lookup_app_r by len_lia. rewrite lookup_replicate_2; [done|].
      len_lia.
  - rewrite lookup_seqZ_ge by lia. simpl. symmetry. apply lookup_ge_None_2.
    len_lia.
Qed.

Lemma lane_sum (g : Z → Z → Z) l k n pid :
  g 0 0 = 0 → length l = length k → 0 ≤ pid < lenZ l → lenZ l ≤ n →
  sumZ (zip_with g (tl_load_upto l n pid) (tl_load_upto k n pid)) = psum (zip_with g l k) (pid + 1).
Proof.
  intros Hg Hlk Hpid Hn. assert (lenZ k = lenZ l) by (unfold lenZ; lia).
  rewrite !tl_load_upto_spec by lia. rewrite zip_with_app by len_lia.
  rewrite sumZ_app, zip_with_replicate_l, fmap_replicate, Hg by (by rewrite length_replicate).
  unfold psum. rewrite zip_with_take.
  assert (Hz : ∀ m, sumZ (replicate m 0) = 0) by (intros m; induction m as [|m IH]; [done|]; simpl; exact IH).
  rewrite Hz. lia.
Qed.

Lemma next_power_of_2_ge n : 0 ≤ n → n ≤ next_power_of_2 n.
Proof.
  intros Hn. unfold next_power_of_2. case_bool_decide as H; [|lia].
  case_bool_decide as H1; [subst; done|]. rewrite Z.shiftl_1_l.
  pose proof (Z.log2_spec (n - 1) ltac:(lia)). rewrite <-Z.add_1_r in *. lia.
Qed.

(** A loop whose steps write adjacent runs. *)
Lemma foldM_writes (f : list Z → Z → result (list Z)) (v : Z → list Z) (pos : Z → Z) (n : nat) out :
  pos 0 = 0 → (∀ i, 0 ≤ i < Z.of_nat n → pos (i + 1) = pos i + lenZ (v i)) →
  pos (Z.of_nat n) ≤ lenZ out →
  (∀ i o, 0 ≤ i < Z.of_nat n → length o = length out → 0 ≤ pos i → pos i + lenZ (v i) ≤ lenZ out →
     f o i = Ok (write_at (Z.to_nat (pos i)) (v i) o)) →
  foldM f (range (Z.of_nat n)) out = Ok (write_at 0 (concat (v <$> range (Z.of_nat n))) out)
  ∧ lenZ (concat (v <$> range (Z.of_nat n))) = pos (Z.of_nat n).
Proof.
  intros H0 Hpos. unfold range. induction n as [|n IH]; intros Hn Hf.
  { by rewrite write_at_nil. }
  assert (Hle : pos (Z.of_nat n) + lenZ (v (Z.of_nat n)) = pos (Z.of_nat (S n))).
  { rewrite <-Hpos by lia. f_equal. lia. }
  replace (Z.of_nat (S n)) with (Z.of_nat n + 1) in * by lia.
  destruct IH as [IH Hlen]; [intros; apply Hpos; lia|unfold lenZ in *; lia|intros; apply Hf; lia|].
  rewrite seqZ_snoc, foldM_app, IH, Z.add_0_l by lia. run_bind. cbn [foldM].
  rewrite fmap_app, concat_app. cbn [fmap list_fmap concat]. rewrite app_nil_r.
  set (w := concat (v <$> seqZ 0 (Z.of_nat n))) in *. unfold lenZ in *.
  rewrite Hf; [|lia|rewrite length_write_at; lia|lia|lia]. run_bind. split; [|len_lia].
  f_equal. replace (Z.to_nat (pos (Z.of_nat n))) with (0 + length w)%nat by lia.
  apply write_at_app. lia.
Qed.

(** The layout of a batch: request [i] fills its partial page and then takes
    pages from the free list, after the pages of the requests before it. *)
Definition request_layout (prefix_lens seq_lens last_loc fp : list Z) (p i : Z) : list Z :=
  request_slots p (tl_load prefix_lens i) (tl_load seq_lens i) (tl_load last_loc i)
    (psum (zip_with (fun s q => cdiv s p - cdiv q p) seq_lens prefix_lens) i) fp.

Definition batch_layout (prefix_lens seq_lens last_loc fp : list Z) (p : Z) : list Z :=
  concat (request_layout prefix_lens seq_lens last_loc fp p <$> range (lenZ prefix_lens)).

Lemma tl_load_lookup l i : 0 ≤ i < lenZ l → l !! Z.to_nat i = Some (tl_load l i).
Proof.
  unfold lenZ. intros Hi. unfold tl_load.
  destruct (lookup_lt_is_Some_2 l (Z.to_nat i)) as [x ->]; [lia|]. done.
Qed.

Lemma py_get_at {A} (l : list A) i x : 0 ≤ i → l !! Z.to_nat i = Some x → py_get l i = Ok x.
Proof. intros Hi Hx. rewrite <-(Z2Nat.id i) by lia. by apply py_get_nat. Qed.

Lemma py_get_load l i : 0 ≤ i < lenZ l → py_get l i = Ok (tl_load l i).
Proof.
  intros Hi. apply py_get_at; [lia|]. by apply tl_load_lookup.
Qed.

Lemma psum_all l : psum l (lenZ l) = sumZ l.
Proof. unfold psum, lenZ. by rewrite Nat2Z.id, firstn_all. Qed.

Lemma cdiv_mono p q s : 0 < p → q ≤ s → cdiv q p ≤ cdiv s p.
Proof. intros. unfold cdiv. apply Z.div_le_mono; lia. Qed.

Lemma lens_nonneg p qs ss :
  0 < p → Forall2 (fun q s => 0 ≤ q ≤ s) qs ss →
  Forall (Z.le 0) (zip_with Z.sub ss qs) ∧ Forall (Z.le 0) (zip_with (fun s q => cdiv s p - cdiv q p) ss qs).
Proof.
  intros Hp. induction 1 as [|q s ?? Hqs _ [IH1 IH2]]; [done|]. pose proof (cdiv_mono p q s).
  split; constructor; try done; lia.
Qed.

Section batch_layout.
Context (prefix_lens seq_lens last_loc fp : list Z) (p : Z).
Hypothesis Hp : 0 < p.
Hypothesis Hlens : Forall2 (fun q s => 0 ≤ q ≤ s) prefix_lens seq_lens.
Hypothesis Hlast : length last_loc = length prefix_lens.
Hypothesis Hfp : get_num_new_pages seq_lens prefix_lens p ≤ lenZ fp.

#[local] Notation ext := (zip_with Z.sub seq_lens prefix_lens).
#[local] Notation new := (zip_with (fun s q => cdiv s p - cdiv q p) seq_lens prefix_lens).

Lemma lens_at i :
  0 ≤ i < lenZ prefix_lens →
  0 ≤ tl_load prefix_lens i ≤ tl_load seq_lens i ∧ 0 ≤ i < lenZ seq_lens ∧ 0 ≤ i < lenZ last_loc ∧
  ext !! Z.to_nat i = Some (tl_load seq_lens i - tl_load prefix_lens i) ∧
  new !! Z.to_nat i = Some (cdiv (tl_load seq_lens i) p - cdiv (tl_load prefix_lens i) p).
Proof using All.
  intros Hi. pose proof (Forall2_length _ _ _ Hlens) as Hl.
  assert (Hs : 0 ≤ i < lenZ seq_lens) by (unfold lenZ in *; lia).
  split; [|split; [done|split; [unfold lenZ in *; lia|]]].
  - exact (Forall2_lookup_lr _ _ _ _ _ _ Hlens (tl_load_lookup _ _ Hi) (tl_load_lookup _ _ Hs)).
  - rewrite !lookup_zip_with, (tl_load_lookup _ _ Hi), (tl_load_lookup _ _ Hs). done.
Qed.

Lemma ext_new_nonneg : Forall (Z.le 0) ext ∧ Forall (Z.le 0) new.
Proof using All. by apply lens_nonneg. Qed.

Lemma length_ext_new : lenZ ext = lenZ prefix_lens ∧ lenZ new = lenZ prefix_lens.
Proof using All.
  unfold lenZ. rewrite !length_zip_with, (Forall2_length _ _ _ Hlens). lia.
Qed.

Lemma starts_bounds i :
  0 ≤ i < lenZ prefix_lens →
  0 ≤ psum ext i ∧ 0 ≤ psum new i ∧
  psum ext (i + 1) = psum ext i + (tl_load seq_lens i - tl_load prefix_lens i) ∧
  psum new (i + 1) = psum new i + (cdiv (tl_load seq_lens i) p - cdiv (tl_load prefix_lens i) p) ∧
  psum new (i + 1) ≤ lenZ fp.
Proof using All.
  intros Hi. destruct (lens_at i Hi) as (_ & _ & _ & He & Hn). destruct ext_new_nonneg as [Pe Pn].
  destruct length_ext_new as [_ Ln].
  pose proof (psum_mono ext 0 i Pe). pose proof (psum_mono new 0 i Pn).
  pose proof (psum_mono new (i + 1) (lenZ new) Pn) as Hle. rewrite psum_all in Hle.
  fold (get_num_new_pages seq_lens prefix_lens p) in Hle.
  rewrite (psum_succ _ i _ ltac:(lia) He), (psum_succ _ i _ ltac:(lia) Hn) in *.
  change (psum ext 0) with 0 in *. change (psum new 0) with 0 in *. lia.
Qed.

Lemma length_request_layout i :
  0 ≤ i < lenZ prefix_lens →
  lenZ (request_layout prefix_lens seq_lens last_loc fp p i) = tl_load seq_lens i - tl_load prefix_lens i.
Proof using All.
  intros Hi. destruct (lens_at i Hi) as (Hq & _). unfold request_layout, request_slots, lenZ.
  rewrite length_fmap, length_seqZ. lia.
Qed.

Lemma program_writes out i :
  0 ≤ i < lenZ prefix_lens → psum ext (i + 1) ≤ lenZ out →
  alloc_extend_program prefix_lens seq_lens last_loc fp (next_power_of_2 (lenZ prefix_lens)) p out i
  = write_at (Z.to_nat (psum ext i)) (request_layout prefix_lens seq_lens last_loc fp p i) out.
Proof using All.
  intros Hi Hout. destruct (lens_at i Hi) as (Hq & Hs & _). destruct (starts_bounds i Hi) as (? & ? & He & Hn & ?).
  assert (Hls : length seq_lens = length prefix_lens) by (symmetry; exact (Forall2_length _ _ _ Hlens)).
  pose proof (next_power_of_2_ge (lenZ prefix_lens) ltac:(unfold lenZ; lia)) as Hup.
  assert (lenZ seq_lens = lenZ prefix_lens) by (unfold lenZ; lia).
  unfold alloc_extend_program.
  rewrite (lane_sum Z.sub), (lane_sum (fun s q => cdiv s p - cdiv q p)), He, Hn by (done || lia).
  rewrite !Z.add_simpl_r. apply extend_parts_ok; lia.
Qed.

Lemma kernel_writes out :
  sumZ ext ≤ lenZ out →
  alloc_extend_kernel prefix_lens seq_lens last_loc fp out (next_power_of_2 (lenZ prefix_lens)) p
  = write_at 0 (batch_layout prefix_lens seq_lens last_loc fp p) out ∧
  lenZ (batch_layout prefix_lens seq_lens last_loc fp p) = sumZ ext.
Proof using All.
  intros Hout. unfold alloc_extend_kernel. destruct length_ext_new as [Le _].
  rewrite <-psum_all, Le in *.
  destruct (foldM_writes (fun o i => Ok (alloc_extend_program prefix_lens seq_lens last_loc fp
     (next_power_of_2 (lenZ prefix_lens)) p o i)) (request_layout prefix_lens seq_lens last_loc fp p)
     (psum ext) (length prefix_lens) out) as [Hw Hl]; [done| |done| |].
  - intros i Hi. rewrite length_request_layout by done. apply starts_bounds. done.
  - intros i o Hi Ho Hpos Hle. f_equal. apply program_writes; [done|].
    rewrite length_request_layout in Hle by done. destruct (starts_bounds i Hi) as (_ & _ & -> & _). unfold lenZ in *. lia.
  - rewrite foldM_pure in Hw. injection Hw as Hw. split; [exact Hw|exact Hl].
Qed.

Lemma naive_writes out :
  sumZ ext ≤ lenZ out →
  alloc_extend_naive prefix_lens seq_lens last_loc fp out p
  = Ok (write_at 0 (batch_layout prefix_lens seq_lens last_loc fp p) out).
Proof using All.
  intros Hout. unfold alloc_extend_naive. destruct length_ext_new as [Le Ln].
  rewrite <-psum_all, Le in Hout.
  refine (proj1 (foldM_writes _ (request_layout prefix_lens seq_lens last_loc fp p)
     (psum ext) (length prefix_lens) out _ _ Hout _)); [done| |].
  - intros i Hi. rewrite length_request_layout by done. apply starts_bounds. done.
  - intros i o Hi Ho Hpos Hle. fold (lenZ prefix_lens) in Hi.
    destruct (lens_at i Hi) as (Hq & Hs & Hl & He & Hn). destruct (starts_bounds i Hi) as (? & ? & Se & Sn & ?).
    rewrite length_request_layout in Hle by done.
    assert (Hin : (Z.to_nat i < length prefix_lens)%nat) by (unfold lenZ in Hi; lia).
    assert (Hce : cumsumZ 0 ext !! Z.to_nat i = Some (psum ext (i + 1))).
    { rewrite cumsumZ_lookup by (unfold lenZ in Le; lia). by rewrite Z2Nat.id by lia. }
    assert (Hcn : cumsumZ 0 new !! Z.to_nat i = Some (psum new (i + 1))).
    { rewrite cumsumZ_lookup by (unfold lenZ in Ln; lia). by rewrite Z2Nat.id by lia. }
    rewrite (py_get_load prefix_lens), (py_get_load seq_lens), (py_get_load last_loc) by done. run_bind.
    rewrite (py_get_at (zip_with Z.sub (cumsumZ 0 ext) ext) i (psum ext i)),
      (py_get_at _ i _ ltac:(lia) Hce), (py_get_at (zip_with Z.sub (cumsumZ 0 new) new) i (psum new i)),
      (py_get_at _ i _ ltac:(lia) Hcn),
      (py_get_at _ i ((cdiv (tl_load seq_lens i) p - cdiv (tl_load prefix_lens i) p)
        - (tl_load seq_lens i / p - cdiv (tl_load prefix_lens i) p))); try lia.
    + run_bind. rewrite Se, Sn. apply naive_request_ok; try done; unfold lenZ in *; lia.
    + rewrite lookup_zip_with, Hn. simpl. rewrite lookup_zip_with.
      rewrite (tl_load_lookup seq_lens), (tl_load_lookup prefix_lens) by done. done.
    + rewrite lookup_zip_with, Hcn. simpl. rewrite Hn. simpl. f_equal. lia.
    + rewrite lookup_zip_with, Hce. simpl. rewrite He. simpl. f_equal. lia.
Qed.

End batch_layout.

(** C29: On every valid batch (positive page size, prefix lengths at most the
    sequence lengths, enough free pages and output room) the parallel kernel, at
    the block width the allocator launches it with, writes exactly what the
    sequential reference routine writes, and the reference routine returns. *)
Theorem extend_kernel_matches_naive prefix_lens seq_lens last_loc fp out p :
  0 < p → Forall2 (fun q s => 0 ≤ q ≤ s) prefix_lens seq_lens →
  length last_loc = length prefix_lens →
  get_num_new_pages seq_lens prefix_lens p ≤ lenZ fp →
  sumZ (zip_with Z.sub seq_lens prefix_lens) ≤ lenZ out →
  alloc_extend_naive prefix_lens seq_lens last_loc fp out p
  = Ok (alloc_extend_kernel prefix_lens seq_lens last_loc fp out (next_power_of_2 (lenZ prefix_lens)) p).
Proof.
  intros. rewrite naive_writes by done. f_equal. symmetry. by apply kernel_writes.
Qed.

Lemma extend_kernel_matches_naive_witness :
  alloc_extend_naive [3; 0; 8] [9; 2; 8] [6; -1; 40] [5; 2; 7; 9] (replicate 8 0) 4
  = Ok (alloc_extend_kernel [3; 0; 8] [9; 2; 8] [6; -1; 40] [5; 2; 7; 9] (replicate 8 0)
          (next_power_of_2 3) 4)
  ∧ alloc_extend_naive [3; 0; 8] [9; 2; 8] [6; -1; 40] [5; 2; 7; 9] (replicate 8 0) 4
  = Ok [7; 20; 21; 22; 23; 8; 28; 29].
Proof.
  split; [|vm_compute; reflexivity].
  apply (extend_kernel_matches_naive [3; 0; 8] [9; 2; 8] [6; -1; 40] [5; 2; 7; 9] (replicate 8 0) 4).
  - lia.
  - repeat constructor; lia.
  - reflexivity.
  - vm_compute. discriminate.
  - vm_compute. discriminate.
Defined.

(** ** No two tokens share a slot *)

(** The partly filled pages the requests of a batch continue on. *)
Definition open_pages (p : Z) (prefix_lens last_loc : list Z) : list Z :=
  (fun x : Z * Z => (x.2 + 1) / p) <$> filter (fun x : Z * Z => x.1 mod p ≠ 0) (zip prefix_lens last_loc).

(** The page a token lands on. *)
Definition slot_page (p pre last sn : Z) (fp : list Z) (t : Z) : Z :=
  if bool_decide (t < cdiv pre p * p) then (last + 1) / p else tl_load fp (sn + t / p - cdiv pre p).

Lemma slot_decompose p pre last sn fp t :
  0 < p → 0 ≤ pre ≤ t → (last + 1) mod p = pre mod p →
  slot p pre last sn fp t = slot_page p pre last sn fp t * p + t mod p.
Proof.
  intros Hp Ht Hl. unfold slot, slot_page. case_bool_decide as Hc; [|done].
  pose proof (cdiv_partial pre p Hp) as Hcd. pose proof (Z.mod_pos_bound pre p Hp).
  pose proof (Z.div_mod pre p ltac:(lia)). pose proof (Z.div_mod (last + 1) p ltac:(lia)).
  assert (Hne : pre mod p ≠ 0) by (intros He; rewrite bool_decide_eq_true_2 in Hcd by done; nia).
  rewrite bool_decide_eq_false_2 in Hcd by done.
  assert (Htp : t mod p = t - pre / p * p).
  { symmetry. apply Z.mod_unique_pos with (pre / p); nia. }
  rewrite Htp. lia.
Qed.

(** Tokens on the open page all have the page number of the prefix. *)
Lemma open_same_page p pre t :
  0 < p → 0 ≤ pre ≤ t → t < cdiv pre p * p → pre mod p ≠ 0 ∧ t / p = pre / p.
Proof.
  intros Hp Ht Hc. pose proof (cdiv_partial pre p Hp) as Hcd. pose proof (Z.mod_pos_bound pre p Hp).
  pose proof (Z.div_mod pre p ltac:(lia)).
  assert (Hne : pre mod p ≠ 0) by (intros He; rewrite bool_decide_eq_true_2 in Hcd by done; nia).
  split; [done|]. rewrite bool_decide_eq_false_2 in Hcd by done.
  symmetry. apply Z.div_unique_pos with (t - pre / p * p); nia.
Qed.

Lemma page_offset_inj p a b u v : 0 < p → a * p + u mod p = b * p + v mod p → a = b ∧ u mod p = v mod p.
Proof.
  intros Hp. pose proof (Z.mod_pos_bound u p Hp). pose proof (Z.mod_pos_bound v p Hp).
  intros He. assert (a = b) by nia. subst. lia.
Qed.

Lemma cdiv_covers p pre t : 0 < p → cdiv pre p * p ≤ t → cdiv pre p ≤ t / p.
Proof. intros Hp H. apply Z.div_le_lower_bound; lia. Qed.

Lemma below_cdiv p s t : 0 < p → t < s → t / p < cdiv s p.
Proof.
  intros Hp H. pose proof (cdiv_bounds s p Hp). apply Z.div_lt_upper_bound; lia.
Qed.

Lemma tl_load_inj fp i j :
  NoDup fp → 0 ≤ i < lenZ fp → 0 ≤ j < lenZ fp → tl_load fp i = tl_load fp j → i = j.
Proof.
  intros Hnd Hi Hj He. pose proof (tl_load_lookup fp i Hi) as Li. pose proof (tl_load_lookup fp j Hj) as Lj.
  rewrite He in Li. pose proof (NoDup_lookup _ _ _ _ Hnd Li Lj). lia.
Qed.

Lemma concat_bind {A B} (f : A → list B) l : concat (f <$> l) = l ≫= f.
Proof. induction l as [|x l IH]; [done|]. cbn. by rewrite <-IH. Qed.

Lemma NoDup_fmap_filter {A B} (f : A → B) (P : A → Prop) `{∀ x, Decision (P x)} (l : list A) i j x y :
  NoDup (f <$> filter P l) → l !! i = Some x → l !! j = Some y → P x → P y → f x = f y → i = j.
Proof.
  revert i j. induction l as [|z l IH]; intros i j Hnd Hi Hj Px Py He; [done|].
  assert (Hin : ∀ k w, l !! k = Some w → P w → f w ∈ f <$> filter P l).
  { intros k w Hk Hw. apply list_elem_of_fmap_2, list_elem_of_filter. split; [done|].
    by eapply list_elem_of_lookup_2. }
  rewrite filter_cons in Hnd. destruct i as [|i], j as [|j]; simpl in *; simplify_eq; [done| | |].
  - rewrite decide_True in Hnd by done. apply NoDup_cons in Hnd as [Hn _]. destruct Hn. rewrite He. eauto.
  - rewrite decide_True in Hnd by done. apply NoDup_cons in Hnd as [Hn _]. destruct Hn. rewrite <-He. eauto.
  - f_equal. apply IH; try done. case_decide; [|done]. by apply NoDup_cons in Hnd as [_ ?].
Qed.

Section fresh.
Context (prefix_lens seq_lens last_loc fp : list Z) (p : Z).
Hypothesis Hp : 0 < p.
Hypothesis Hlens : Forall2 (fun q s => 0 ≤ q ≤ s) prefix_lens seq_lens.
Hypothesis Hlast : Forall2 (fun q l => (l + 1) mod p = q mod p) prefix_lens last_loc.
Hypothesis Hfp : get_num_new_pages seq_lens prefix_lens p ≤ lenZ fp.
Hypothesis Hnd : NoDup (open_pages p prefix_lens last_loc ++ fp).

#[local] Notation new := (zip_with (fun s q => cdiv s p - cdiv q p) seq_lens prefix_lens).
#[local] Notation Q i := (tl_load prefix_lens i).
#[local] Notation S i := (tl_load seq_lens i).
#[local] Notation L i := (tl_load last_loc i).

(** A token [t] of request [i]. *)
Definition token (i t : Z) : Prop := 0 ≤ i < lenZ prefix_lens ∧ Q i ≤ t < S i.

Lemma length_last : length last_loc = length prefix_lens.
Proof using Hlast. symmetry. by eapply Forall2_length. Qed.

Lemma request_at i :
  0 ≤ i < lenZ prefix_lens →
  0 ≤ Q i ≤ S i ∧ (L i + 1) mod p = Q i mod p ∧ 0 ≤ psum new i ∧
  psum new i + (cdiv (S i) p - cdiv (Q i) p) = psum new (i + 1) ∧ psum new (i + 1) ≤ lenZ fp ∧
  zip prefix_lens last_loc !! Z.to_nat i = Some (Q i, L i).
Proof using All.
  intros Hi. pose proof length_last as Hll.
  destruct (lens_at prefix_lens seq_lens last_loc fp p Hp Hlens Hll Hfp i Hi) as (Hq & _ & Hl & _ & _).
  destruct (starts_bounds prefix_lens seq_lens last_loc fp p Hp Hlens Hll Hfp i Hi) as (_ & ? & _ & Hn & ?).
  split; [done|]. split; [|split; [done|split; [by rewrite Hn|split; [done|]]]].
  - exact (Forall2_lookup_lr _ _ _ _ _ _ Hlast (tl_load_lookup _ _ Hi) (tl_load_lookup _ _ Hl)).
  - rewrite lookup_zip_with, (tl_load_lookup _ _ Hi), (tl_load_lookup _ _ Hl). done.
Qed.

Lemma layout_elem x i :
  0 ≤ i < lenZ prefix_lens → x ∈ request_layout prefix_lens seq_lens last_loc fp p i →
  ∃ t, token i t ∧ x = slot_page p (Q i) (L i) (psum new i) fp t * p + t mod p.
Proof using All.
  intros Hi. destruct (request_at i Hi) as (Hq & Hl & _).
  unfold request_layout, request_slots. intros (t & -> & Ht%elem_of_seqZ)%list_elem_of_fmap.
  exists t. split; [split; lia|]. apply slot_decompose; [done|lia|done].
Qed.

(** Where a token's page comes from. *)
Lemma token_page i t :
  token i t →
  (t < cdiv (Q i) p * p ∧ Q i mod p ≠ 0 ∧ t / p = Q i / p ∧
   slot_page p (Q i) (L i) (psum new i) fp t = (L i + 1) / p ∧
   (L i + 1) / p ∈ open_pages p prefix_lens last_loc) ∨
  (∃ k, k = psum new i + t / p - cdiv (Q i) p ∧ psum new i ≤ k < psum new (i + 1) ∧ 0 ≤ k < lenZ fp ∧
   slot_page p (Q i) (L i) (psum new i) fp t = tl_load fp k).
Proof using All.
  intros [Hi Ht]. destruct (request_at i Hi) as (Hq & Hl & H0 & Hn & Hle & Hz). unfold slot_page.
  case_bool_decide as Hc.
  - left. destruct (open_same_page p (Q i) t Hp ltac:(lia) Hc) as [Hne He].
    split_and!; try done. apply (list_elem_of_fmap_2 (fun x : Z * Z => (x.2 + 1) / p) _ (Q i, L i)).
    apply list_elem_of_filter. split; [done|]. by eapply list_elem_of_lookup_2.
  - right. exists (psum new i + t / p - cdiv (Q i) p). pose proof (cdiv_covers p (Q i) t Hp ltac:(lia)).
    pose proof (below_cdiv p (S i) t Hp ltac:(lia)). split_and!; try done; lia.
Qed.

(** Page intervals of different requests are disjoint. *)
Lemma page_interval i j k :
  0 ≤ i < lenZ prefix_lens → 0 ≤ j < lenZ prefix_lens →
  psum new i ≤ k < psum new (i + 1) → psum new j ≤ k < psum new (j + 1) → i = j.
Proof using All.
  intros Hi Hj Hki Hkj. destruct (lens_nonneg p prefix_lens seq_lens Hp Hlens) as [_ Pn].
  destruct (Z.lt_trichotomy i j) as [H|[H|H]]; [|done|];
    [pose proof (psum_mono new (i + 1) j Pn ltac:(lia))|pose proof (psum_mono new (j + 1) i Pn ltac:(lia))]; lia.
Qed.

Lemma token_slot_inj i t j u :
  token i t → token j u →
  slot_page p (Q i) (L i) (psum new i) fp t * p + t mod p
  = slot_page p (Q j) (L j) (psum new j) fp u * p + u mod p → i = j ∧ t = u.
Proof using All.
  intros Hi Hj [Hpg Hoff]%page_offset_inj; [|done].
  assert (Hsame : t / p = u / p → t = u).
  { intros He. rewrite (Z.div_mod t p), (Z.div_mod u p) by lia. by rewrite He, Hoff. }
  pose proof Hnd as (Ho & Hdis & Hf)%NoDup_app.
  assert (Hfree : ∀ k, 0 ≤ k < lenZ fp → tl_load fp k ∈ fp).
  { intros k Hk. eapply list_elem_of_lookup_2, tl_load_lookup, Hk. }
  destruct (token_page i t Hi) as [(_ & Oi & Ti & Pi & Ei)|(k & Kk & Ki & Kb & Pi)],
    (token_page j u Hj) as [(_ & Oj & Tj & Pj & Ej)|(l & Ll & Lj & Lb & Pj)]; rewrite Pi, Pj in Hpg.
  - assert (Z.to_nat i = Z.to_nat j) as Hij.
    { destruct Hi as [Hi _], Hj as [Hj _]. destruct (request_at i Hi) as (_ & _ & _ & _ & _ & Zi).
      destruct (request_at j Hj) as (_ & _ & _ & _ & _ & Zj).
      exact (NoDup_fmap_filter _ _ _ _ _ _ _ Ho Zi Zj Oi Oj Hpg). }
    destruct Hi, Hj. assert (i = j) by lia. subst j. split; [done|]. apply Hsame. congruence.
  - destruct (Hdis _ Ei). rewrite Hpg. by apply Hfree.
  - destruct (Hdis _ Ej). rewrite <-Hpg. by apply Hfree.
  - assert (k = l) by (by eapply tl_load_inj). destruct Hi as [Hi _], Hj as [Hj _].
    assert (i = j) by (eapply (page_interval i j k); subst; lia). subst j. split; [done|]. apply Hsame. lia.
Qed.

Lemma batch_layout_NoDup : NoDup (batch_layout prefix_lens seq_lens last_loc fp p).
Proof using All.
  unfold batch_layout. rewrite concat_bind. apply NoDup_bind.
  - intros i j x Hi%elem_of_range Hj%elem_of_range Hxi Hxj.
    destruct (layout_elem x i Hi Hxi) as (t & Ht & ->), (layout_elem _ j Hj Hxj) as (u & Hu & He).
    by apply token_slot_inj in He as [-> _].
  - intros i Hi%elem_of_range. unfold request_layout, request_slots. apply NoDup_fmap_2_strong; [|apply NoDup_seqZ].
    destruct (request_at i Hi) as (Hq & Hl & _).
    intros t u Ht%elem_of_seqZ Hu%elem_of_seqZ He.
    rewrite !slot_decompose in He by (done || lia).
    apply token_slot_inj in He as [_ ->]; [done|split; lia..].
  - apply NoDup_seqZ.
Qed.

Lemma batch_layout_pages x :
  x ∈ batch_layout prefix_lens seq_lens last_loc fp p →
  x / p ∈ open_pages p prefix_lens last_loc ++ take (Z.to_nat (get_num_new_pages seq_lens prefix_lens p)) fp.
Proof using All.
  unfold batch_layout. rewrite concat_bind, list_elem_of_bind. intros (i & Hx & Hi%elem_of_range).
  destruct (layout_elem x i Hi Hx) as (t & Ht & ->).
  rewrite Z.div_add_l, (Z.div_small (t mod p)), Z.add_0_r by (try apply Z.mod_pos_bound; lia).
  apply elem_of_app. destruct (token_page i t Ht) as [(_ & _ & _ & -> & Ei)|(k & _ & Hk & Kb & ->)]; [by left|right].
  destruct (lens_nonneg p prefix_lens seq_lens Hp Hlens) as [_ Pn].
  pose proof (psum_mono new (i + 1) (lenZ new) Pn) as Hle. rewrite psum_all in Hle.
  destruct (length_ext_new prefix_lens seq_lens last_loc fp p Hp Hlens length_last Hfp) as [_ Ln].
  eapply list_elem_of_lookup_2. rewrite lookup_take_lt; [by apply tl_load_lookup|].
  unfold get_num_new_pages. lia.
Qed.

End fresh.

(** ** [alloc_extend] *)

Lemma write_at_all v out : length v = length out → write_at 0 v out = v.
Proof. intros H. unfold write_at. rewrite drop_ge by lia. by rewrite app_nil_r. Qed.

Lemma forallb_zip {A B} (P : A → B → Prop) (f : B * A → bool) l k :
  (∀ a b, P a b → f (b, a) = true) → Forall2 P l k → forallb f (zip k l) = true.
Proof.
  intros Hf. induction 1 as [|a b l k Hab _ IH]; [done|]. simpl. by rewrite (Hf _ _ Hab), IH.
Qed.

Lemma take_free_eq n a :
  0 ≤ n ≤ lenZ (free_pages a) →
  take_free n a = Some (with_pages (drop (Z.to_nat n) (free_pages a)) (release_pages a) a,
                        take (Z.to_nat n) (free_pages a)).
Proof.
  intros Hn. unfold take_free, cut. rewrite bool_decide_eq_false_2, bool_decide_eq_true_2 by lia. done.
Qed.

Lemma refill_fields n a :
  page_size (refill n a) = page_size a ∧ need_sort (refill n a) = need_sort a ∧
  debug_mode (refill n a) = debug_mode a ∧ size (refill n a) = size a ∧
  is_not_in_free_group (refill n a) = is_not_in_free_group a ∧ free_group (refill n a) = free_group a ∧
  free_pages (refill n a) ++ release_pages (refill n a) ≡ₚ free_pages a ++ release_pages a.
Proof.
  unfold refill, merge_and_sort_free. destruct (need_sort a && _); [|done]. case_bool_decide; [|done].
  split_and!; try done. simpl. rewrite app_nil_r. apply merge_sort_Permutation.
Qed.

Lemma NoDup_refill n a l :
  NoDup (l ++ free_pages a ++ release_pages a) → NoDup (l ++ free_pages (refill n a)).
Proof.
  destruct (refill_fields n a) as (_ & _ & _ & _ & _ & _ & Hperm). rewrite <-Hperm, app_assoc.
  intros H. by apply NoDup_app in H as [? _].
Qed.

(** A batch extension on a paged allocator.  When the free list (merged with
    the released pages if the refill guard asks for it) covers the new pages, the
    call returns the layout of the reference, removes exactly the new pages from
    the free list, gives no slot to two tokens, and every slot lies on the open
    page of a request or on a removed page; in debug mode neither assertion fires.
    Otherwise it returns None and takes no page. *)
Theorem alloc_extend_spec uninit prefix_lens seq_lens last_loc a :
  let p := page_size a in
  let ext := sumZ (zip_with Z.sub seq_lens prefix_lens) in
  let a1 := refill (ext / p + lenZ prefix_lens + 1) a in
  let n := get_num_new_pages seq_lens prefix_lens p in
  (∀ k, 0 ≤ k → lenZ (uninit k) = k) → 0 < p →
  Forall2 (fun q s => 0 ≤ q ≤ s) prefix_lens seq_lens →
  Forall2 (fun q l => (l + 1) mod p = q mod p) prefix_lens last_loc →
  NoDup (open_pages p prefix_lens last_loc ++ free_pages a ++ release_pages a) →
  (n ≤ lenZ (free_pages a1) →
   let out := batch_layout prefix_lens seq_lens last_loc (free_pages a1) p in
   alloc_extend uninit prefix_lens seq_lens last_loc ext None a
   = Ok (with_pages (drop (Z.to_nat n) (free_pages a1)) (release_pages a1) a1, Some out)
   ∧ lenZ out = ext ∧ NoDup out
   ∧ ∀ x, x ∈ out → x / p ∈ open_pages p prefix_lens last_loc ++ take (Z.to_nat n) (free_pages a1)) ∧
  (n > lenZ (free_pages a1) → debug_mode a = false →
   alloc_extend uninit prefix_lens seq_lens last_loc ext None a = Ok (a1, None)).
Proof.
  intros p ext a1 n Hun Hp Hlens Hlast Hnd. destruct (lens_nonneg p _ _ Hp Hlens) as [Pe Pn].
  assert (Hext : 0 ≤ ext) by (by apply sumZ_nonneg). assert (Hn0 : 0 ≤ n) by (by apply sumZ_nonneg).
  assert (Hdbg : debug_mode a && negb (forallb (fun x => bool_decide ((x.1 + 1) mod p = x.2 mod p))
            (zip last_loc prefix_lens)) = false).
  { rewrite (forallb_zip (fun q l => (l + 1) mod p = q mod p)); [by rewrite andb_false_r| |done].
    intros q l H. by apply bool_decide_eq_true_2. }
  split.
  - intros Hn out. pose proof (NoDup_refill (ext / p + lenZ prefix_lens + 1) a _ Hnd) as Hnd1.
    pose proof (length_last _ _ _ Hlast) as Hll.
    pose proof (Hun ext Hext) as Hu.
    destruct (kernel_writes _ _ _ _ p Hp Hlens Hll Hn (uninit ext)) as [Hk Hlen]; [unfold ext in *; lia|].
    rewrite write_at_all in Hk by (unfold lenZ, ext in *; lia).
    pose proof (batch_layout_NoDup _ _ _ _ p Hp Hlens Hlast Hn Hnd1) as Hndo.
    split; [|split; [done|split; [done|intros x; by apply batch_layout_pages]]].
    unfold alloc_extend. fold p. rewrite Hdbg. cbv zeta. fold a1. rewrite Hk.
    rewrite (bool_decide_eq_true_2 _ Hndo), andb_false_r. cbn [default]. fold n.
    by rewrite take_free_eq by (done || lia).
  - intros Hn Hd. unfold alloc_extend. fold p. rewrite Hdbg, Hd. cbv zeta. fold a1. cbn [andb default]. fold n.
    unfold take_free. by rewrite bool_decide_eq_true_2 by done.
Qed.

Lemma alloc_extend_spec_witness :
  let a := mkAlloc 40 4 true true [5; 2] [9; 7] true [] in
  alloc_extend (fun n => replicate (Z.to_nat n) 0) [3; 0] [9; 2] [6; -1] 8 None a
  = Ok (with_pages [9] [] a, Some [7; 8; 9; 10; 11; 20; 28; 29]).
Proof.
  refine (proj1 (proj1 (alloc_extend_spec (fun n => replicate (Z.to_nat n) 0) [3; 0] [9; 2] [6; -1]
    (mkAlloc 40 4 true true [5; 2] [9; 7] true []) _ _ _ _ _) _)).
  - intros k Hk. unfold lenZ. len_lia.
  - simpl. lia.
  - repeat constructor; lia.
  - repeat constructor.
  - by apply (bool_decide_unpack _).
  - vm_compute. discriminate.
Defined.

(** ** [alloc_decode] is an extension by one token *)

Lemma cdiv_succ p a : 0 < p → cdiv (a + 1) p = a / p + 1.
Proof.
  intros Hp. unfold cdiv. replace (a + 1 + p - 1) with (a + 1 * p) by lia. rewrite Z.div_add by lia. lia.
Qed.

Lemma slot_one p pre last sn fp :
  0 < p → 0 ≤ pre →
  slot p pre last sn fp pre
  = if bool_decide (cdiv (pre + 1) p - cdiv pre p = 0) then last + 1 else tl_load fp sn * p.
Proof.
  intros Hp Hpre. unfold slot. pose proof (cdiv_bounds pre p Hp) as Hb.
  rewrite cdiv_succ by done. pose proof (cdiv_partial pre p Hp) as Hd. pose proof (Z.div_mod pre p ltac:(lia)).
  destruct (decide (pre mod p = 0)) as [Hm|Hm];
    [rewrite (bool_decide_eq_true_2 _ Hm) in Hd|rewrite (bool_decide_eq_false_2 _ Hm) in Hd]; rewrite Hd.
  - rewrite !bool_decide_eq_false_2 by nia. rewrite Hm, Z.add_0_r. do 2 f_equal. lia.
  - pose proof (Z.mod_pos_bound pre p Hp). rewrite !bool_decide_eq_true_2 by lia. lia.
Qed.

Lemma imap_masked l n pid :
  0 ≤ pid < lenZ l → lenZ l ≤ n →
  imap (fun i s => if bool_decide (Z.of_nat i <= pid) then s - 1 else s) (tl_load_upto l n pid)
  = tl_load_upto (Z.pred <$> l) n pid.
Proof.
  intros Hpid Hn. apply list_eq. intros i. rewrite list_lookup_imap. unfold tl_load_upto.
  rewrite !list_lookup_fmap. destruct (seqZ 0 n !! i) as [k|] eqn:Hk; [|done]. simpl.
  apply lookup_seqZ in Hk as [-> Hk]. rewrite Z.add_0_l. case_bool_decide as Hi; [|done]. f_equal.
  unfold tl_load. rewrite list_lookup_fmap.
  destruct (lookup_lt_is_Some_2 l (Z.to_nat (Z.of_nat i))) as [x ->]; [unfold lenZ in *; lia|]. simpl. lia.
Qed.

Lemma pred_lens seq_lens :
  Forall (Z.le 1) seq_lens → Forall2 (fun q s => 0 ≤ q ≤ s) (Z.pred <$> seq_lens) seq_lens.
Proof. induction 1; constructor; [lia|done]. Qed.

Lemma tl_load_pred l i : 0 ≤ i < lenZ l → tl_load (Z.pred <$> l) i = tl_load l i - 1.
Proof.
  intros Hi. unfold tl_load at 1. rewrite list_lookup_fmap, (tl_load_lookup l i Hi). simpl. lia.
Qed.

Lemma decode_program_extend seq_lens last_loc fp p out i :
  0 < p → Forall (Z.le 1) seq_lens → length last_loc = length seq_lens →
  length out = length seq_lens →
  get_num_new_pages seq_lens (Z.pred <$> seq_lens) p ≤ lenZ fp →
  0 ≤ i < lenZ seq_lens →
  alloc_decode_program seq_lens last_loc fp (next_power_of_2 (lenZ seq_lens)) p out i
  = alloc_extend_program (Z.pred <$> seq_lens) seq_lens last_loc fp (next_power_of_2 (lenZ seq_lens)) p out i.
Proof.
  intros Hp Hge Hll Ho Hfp Hi. pose proof (pred_lens _ Hge) as Hlens.
  assert (Hlp : lenZ (Z.pred <$> seq_lens) = lenZ seq_lens) by (unfold lenZ; by rewrite length_fmap).
  assert (Hsum : ∀ j, 0 ≤ j ≤ lenZ seq_lens → psum (zip_with Z.sub seq_lens (Z.pred <$> seq_lens)) j = j).
  { intros j Hj. unfold psum. rewrite zip_with_fmap_r.
    assert (zip_with (fun x y => x - Z.pred y) seq_lens seq_lens = replicate (length seq_lens) 1) as ->.
    { clear. induction seq_lens as [|s l IH]; [done|]. simpl. f_equal; [lia|done]. }
    rewrite take_replicate. unfold lenZ in Hj. rewrite Nat.min_l by lia.
    replace j with (Z.of_nat (Z.to_nat j)) at 2 by lia. generalize (Z.to_nat j) as m. clear.
    intros m; induction m as [|m IH]; [done|]. cbn [replicate]. rewrite sumZ_cons, IH. lia. }
  pose proof (program_writes (Z.pred <$> seq_lens) seq_lens last_loc fp p Hp Hlens
    ltac:(rewrite length_fmap; done) Hfp out i ltac:(lia)) as Hprog.
  rewrite Hlp, !Hsum in Hprog by lia. rewrite Hprog by (unfold lenZ in *; lia). clear Hprog.
  assert (H1 : 1 ≤ tl_load seq_lens i).
  { eapply (Forall_lookup_1 _ _ _ _ Hge), tl_load_lookup, Hi. }
  pose proof (next_power_of_2_ge (lenZ seq_lens) ltac:(unfold lenZ; lia)) as Hup.
  unfold alloc_decode_program. rewrite imap_masked by done.
  rewrite (lane_sum (fun s q => cdiv s p - cdiv q p)) by (rewrite ?length_fmap; done || lia).
  destruct (starts_bounds (Z.pred <$> seq_lens) seq_lens last_loc fp p Hp Hlens
    ltac:(rewrite length_fmap; done) Hfp i ltac:(lia)) as (_ & _ & _ & Hn & _).
  rewrite Hn, tl_load_pred, Z.add_simpl_r by done.
  unfold request_layout, request_slots. rewrite tl_load_pred by done.
  replace (tl_load seq_lens i - (tl_load seq_lens i - 1)) with 1 by lia.
  rewrite seqZ_cons by lia. change (Z.pred 1) with 0. cbn [fmap list_fmap].
  rewrite seqZ_nil by lia. cbn [fmap list_fmap]. rewrite slot_one by lia. rewrite write_at_one by (unfold lenZ in *; lia).
  replace (tl_load seq_lens i - 1 + 1) with (tl_load seq_lens i) by lia. by case_bool_decide.
Qed.

Lemma decode_pages p s : 2 ≤ p → cdiv s p - cdiv (Z.pred s) p = if bool_decide (s mod p = 1) then 1 else 0.
Proof.
  intros Hp. assert (∃ a, s = a + 1) as [a ->] by (exists (s - 1); lia).
  replace (Z.pred (a + 1)) with a by lia.
  rewrite cdiv_succ, cdiv_partial by lia.
  assert (Hm : (a + 1) mod p = 1 ↔ a mod p = 0).
  { pose proof (Z.mod_pos_bound a p ltac:(lia)). rewrite <-Zplus_mod_idemp_l.
    destruct (decide (a mod p = p - 1)) as [->|].
    - replace (p - 1 + 1) with (1 * p) by lia. rewrite Z.mod_mul by lia. lia.
    - rewrite Z.mod_small by lia. lia. }
  rewrite (bool_decide_ext _ _ Hm). case_bool_decide; lia.
Qed.

Lemma decode_count seq_lens p :
  2 ≤ p → get_num_new_pages_decode seq_lens p = get_num_new_pages seq_lens (Z.pred <$> seq_lens) p.
Proof.
  intros Hp. unfold get_num_new_pages_decode, get_num_new_pages, lenZ.
  induction seq_lens as [|s l IH]; [done|]. cbn [fmap list_fmap zip_with]. rewrite sumZ_cons, filter_cons.
  rewrite decode_pages by done. destruct (decide (s mod p = 1)) as [H|H].
  - rewrite (bool_decide_eq_true_2 _ H). cbn [length]. rewrite <-IH. lia.
  - rewrite (bool_decide_eq_false_2 _ H), <-IH. lia.
Qed.

Lemma decode_kernel_extend seq_lens last_loc fp out p :
  2 ≤ p → Forall (Z.le 1) seq_lens → length last_loc = length seq_lens → length out = length seq_lens →
  get_num_new_pages_decode seq_lens p ≤ lenZ fp →
  alloc_decode_kernel seq_lens last_loc fp out (next_power_of_2 (lenZ seq_lens)) p
  = alloc_extend_kernel (Z.pred <$> seq_lens) seq_lens last_loc fp out (next_power_of_2 (lenZ seq_lens)) p.
Proof.
  intros Hp Hge Hll Ho Hfp. rewrite decode_count in Hfp by done. unfold alloc_decode_kernel, alloc_extend_kernel.
  replace (lenZ (Z.pred <$> seq_lens)) with (lenZ seq_lens) by (unfold lenZ; by rewrite length_fmap).
  assert (Hlen : ∀ l o, length o = length seq_lens → (∀ i, i ∈ l → 0 ≤ i < lenZ seq_lens) →
    foldl (alloc_decode_program seq_lens last_loc fp (next_power_of_2 (lenZ seq_lens)) p) o l
    = foldl (alloc_extend_program (Z.pred <$> seq_lens) seq_lens last_loc fp (next_power_of_2 (lenZ seq_lens)) p) o l).
  { intros l. induction l as [|i l IH]; intros o Hlo Hl; [done|]. cbn [foldl].
    rewrite <-decode_program_extend by (try done; try lia; apply Hl; left). apply IH; [|intros; apply Hl; by right].
    unfold alloc_decode_program. case_bool_decide; by rewrite length_insert. }
  apply Hlen; [done|]. intros i. apply elem_of_range.
Qed.

(** With pages of at least two slots, decoding is an extension by one token:
    the decode kernel writes what the extension kernel writes for prefixes one
    shorter, and the pages counted for the free list are the pages the kernel
    takes. *)
Theorem decode_is_extend seq_lens last_loc fp out p :
  2 ≤ p → Forall (Z.le 1) seq_lens → length last_loc = length seq_lens → length out = length seq_lens →
  get_num_new_pages_decode seq_lens p ≤ lenZ fp →
  alloc_decode_kernel seq_lens last_loc fp out (next_power_of_2 (lenZ seq_lens)) p
  = alloc_extend_kernel (Z.pred <$> seq_lens) seq_lens last_loc fp out (next_power_of_2 (lenZ seq_lens)) p
  ∧ get_num_new_pages_decode seq_lens p = get_num_new_pages seq_lens (Z.pred <$> seq_lens) p.
Proof. intros. split; [by apply decode_kernel_extend|by apply decode_count]. Qed.

Lemma decode_is_extend_witness :
  alloc_decode_kernel [5; 8; 9] [15; 22; 31] [6; 3] (replicate 3 0) (next_power_of_2 3) 4
  = alloc_extend_kernel [4; 7; 8] [5; 8; 9] [15; 22; 31] [6; 3] (replicate 3 0) (next_power_of_2 3) 4
  ∧ alloc_decode_kernel [5; 8; 9] [15; 22; 31] [6; 3] (replicate 3 0) (next_power_of_2 3) 4 = [24; 23; 12].
Proof.
  split; [|vm_compute; reflexivity].
  refine (proj1 (decode_is_extend [5; 8; 9] [15; 22; 31] [6; 3] (replicate 3 0) 4 _ _ _ _ _)).
  - lia.
  - repeat constructor; lia.
  - reflexivity.
  - reflexivity.
  - vm_compute. discriminate.
Defined.

(** With one-slot pages the count is zero while the kernel takes a page. *)
Example decode_count_one_slot :
  get_num_new_pages_decode [7] 1 = 0 ∧ get_num_new_pages [7] [6] 1 = 1 ∧
  alloc_decode_kernel [7] [4] [9] [0] 1 1 = [9].
Proof. vm_compute. done. Qed.

(** * Conservation of pages *)

Lemma elem_of_pages_of p idx x : x ∈ pages_of p idx ↔ ∃ s, s ∈ idx ∧ x = s / p.
Proof.
  unfold pages_of, unique_sorted. rewrite merge_sort_Permutation, elem_of_remove_dups, list_elem_of_fmap.
  naive_solver.
Qed.

Lemma NoDup_pages_of p idx : NoDup (pages_of p idx).
Proof. unfold pages_of, unique_sorted. rewrite merge_sort_Permutation. apply NoDup_remove_dups. Qed.

Lemma pages_of_app p l k :
  (∀ x, x ∈ pages_of p l → x ∈ pages_of p k → False) →
  pages_of p (l ++ k) ≡ₚ pages_of p l ++ pages_of p k.
Proof.
  intros Hd. apply NoDup_Permutation.
  - apply NoDup_pages_of.
  - apply NoDup_app. split_and!; [apply NoDup_pages_of| |apply NoDup_pages_of]. intros x H1 H2. eauto.
  - intros x. rewrite elem_of_app, !elem_of_pages_of. setoid_rewrite elem_of_app. naive_solver.
Qed.

Lemma pages_of_slots p pages : 0 < p → NoDup pages → pages_of p (slots_of p pages) ≡ₚ pages.
Proof.
  intros Hp Hnd. apply NoDup_Permutation; [apply NoDup_pages_of|done|]. intros x.
  rewrite elem_of_pages_of. unfold slots_of. rewrite concat_bind. setoid_rewrite list_elem_of_bind.
  setoid_rewrite list_elem_of_fmap. setoid_rewrite elem_of_seqZ. split.
  - intros (s & (pg & (o & -> & Ho) & Hpg) & ->). rewrite Z.div_add_l, Z.div_small by lia. by rewrite Z.add_0_r.
  - intros Hx. exists (x * p + 0). split; [|rewrite Z.div_add_l, Z.div_0_l; lia].
    exists x. split; [exists 0; split; [done|lia]|done].
Qed.

(** Every page the extension takes carries a slot of the layout. *)
Lemma psum_find l k :
  0 ≤ k < sumZ l → Forall (Z.le 0) l →
  ∃ i, 0 ≤ i < lenZ l ∧ psum l i ≤ k < psum l (i + 1).
Proof.
  intros Hk Hl.
  assert (H : ∀ n : nat, (n ≤ length l)%nat → k < psum l (Z.of_nat n) →
    ∃ i, 0 ≤ i < Z.of_nat n ∧ psum l i ≤ k < psum l (i + 1)).
  { intros n. induction n as [|n IH]; intros Hn Hlt.
    - change (psum l (Z.of_nat 0)) with 0 in Hlt. lia.
    - destruct (decide (k < psum l (Z.of_nat n))) as [H|H].
      + destruct IH as (i & Hi & ?); [lia|done|]. exists i. split; [lia|done].
      + exists (Z.of_nat n). replace (Z.of_nat n + 1) with (Z.of_nat (S n)) by lia. lia. }
  apply (H (length l)); [done|]. fold (lenZ l). rewrite psum_all. lia.
Qed.

Lemma batch_layout_covers prefix_lens seq_lens last_loc fp p x :
  0 < p → Forall2 (fun q s => 0 ≤ q ≤ s) prefix_lens seq_lens →
  Forall2 (fun q l => (l + 1) mod p = q mod p) prefix_lens last_loc →
  get_num_new_pages seq_lens prefix_lens p ≤ lenZ fp →
  x ∈ take (Z.to_nat (get_num_new_pages seq_lens prefix_lens p)) fp →
  x ∈ pages_of p (batch_layout prefix_lens seq_lens last_loc fp p).
Proof.
  intros Hp Hlens Hlast Hfp Hx. destruct (lens_nonneg p _ _ Hp Hlens) as [_ Pn].
  pose proof (length_last _ _ _ Hlast) as Hll.
  apply list_elem_of_lookup_1 in Hx as [k Hk]. apply lookup_take_Some in Hk as [Hk Hkn].
  destruct (psum_find (zip_with (fun s q => cdiv s p - cdiv q p) seq_lens prefix_lens) (Z.of_nat k))
    as (i & Hi & Hki); [unfold get_num_new_pages in Hkn; lia|done|].
  destruct (length_ext_new _ _ _ _ p Hp Hlens Hll Hfp) as [_ Ln]. rewrite Ln in Hi.
  destruct (starts_bounds _ _ _ _ p Hp Hlens Hll Hfp i Hi) as (_ & _ & _ & Hn & _).
  destruct (lens_at _ _ _ _ p Hp Hlens Hll Hfp i Hi) as (Hq & _).
  set (sn := psum _ i) in *. set (q := tl_load prefix_lens i) in *. set (s := tl_load seq_lens i) in *.
  set (t := (Z.of_nat k - sn + cdiv q p) * p).
  pose proof (cdiv_bounds q p Hp). pose proof (cdiv_bounds s p Hp).
  assert (Ht : cdiv q p * p ≤ t ∧ t < s) by (unfold t; nia).
  apply elem_of_pages_of. exists (slot p q (tl_load last_loc i) sn fp t). split.
  - unfold batch_layout. rewrite concat_bind, list_elem_of_bind. exists i. split; [|by apply elem_of_range].
    unfold request_layout, request_slots. fold q s sn. apply list_elem_of_fmap_2, elem_of_seqZ. lia.
  - unfold slot. rewrite bool_decide_eq_false_2 by lia. unfold t.
    rewrite Z.div_mul, Z.mod_mul, Z.add_0_r, Z.div_mul by lia.
    unfold tl_load. replace (Z.to_nat _) with k by lia. by rewrite Hk.
Qed.

(** Pages whose release waits for the end of the free group. *)
Definition pending (a : Allocator) : list Z :=
  if is_not_in_free_group a then [] else pages_of (page_size a) (concat (free_group a)).

(** A batch the scheduler may extend: the requests' open pages are held. *)
Definition valid_batch (p : Z) (prefix_lens seq_lens last_loc held : list Z) : Prop :=
  Forall2 (fun q s => 0 ≤ q ≤ s) prefix_lens seq_lens ∧
  Forall2 (fun q l => (l + 1) mod p = q mod p) prefix_lens last_loc ∧
  NoDup (open_pages p prefix_lens last_loc) ∧
  open_pages p prefix_lens last_loc ⊆ held.

(** The pages of [out] that were not held before. *)
Definition fresh_pages (p : Z) (out held : list Z) : list Z := filter (fun x => x ∉ held) (pages_of p out).

Section conservation.
Context (uninit : Z → list Z).
Hypothesis Huninit : ∀ k, 0 ≤ k → lenZ (uninit k) = k.

(** Use of a paged allocator, with the pages its clients hold as ghost state:
    slots returned by an allocation are held, slots freed must be held, free
    groups do not nest. *)
Inductive pstep : Allocator * list Z → Allocator * list Z → Prop :=
  | step_alloc need a a' out held :
      alloc_paged need a = Ok (a', Some out) → pstep (a, held) (a', pages_of (page_size a) out ++ held)
  | step_alloc_none need a a' held :
      alloc_paged need a = Ok (a', None) → pstep (a, held) (a', held)
  | step_extend prefix_lens seq_lens last_loc a a' out held :
      valid_batch (page_size a) prefix_lens seq_lens last_loc held →
      alloc_extend uninit prefix_lens seq_lens last_loc
        (sumZ (zip_with Z.sub seq_lens prefix_lens)) None a = Ok (a', Some out) →
      pstep (a, held) (a', fresh_pages (page_size a) out held ++ held)
  | step_extend_none prefix_lens seq_lens last_loc n m a a' held :
      alloc_extend uninit prefix_lens seq_lens last_loc n m a = Ok (a', None) → pstep (a, held) (a', held)
  | step_decode seq_lens last_loc a a' out held :
      2 ≤ page_size a → Forall (Z.le 1) seq_lens →
      valid_batch (page_size a) (Z.pred <$> seq_lens) seq_lens last_loc held →
      alloc_decode uninit seq_lens last_loc a = Ok (a', Some out) →
      pstep (a, held) (a', fresh_pages (page_size a) out held ++ held)
  | step_decode_none seq_lens last_loc a a' held :
      alloc_decode uninit seq_lens last_loc a = Ok (a', None) → pstep (a, held) (a', held)
  | step_free idx a a' held held' :
      held ≡ₚ pages_of (page_size a) idx ++ held' → free_paged idx a = Ok a' → pstep (a, held) (a', held')
  | step_group_begin a held :
      is_not_in_free_group a = true → pstep (a, held) (free_group_begin a, held)
  | step_group_end a a' held :
      is_not_in_free_group a = false → free_group_end_paged a = Ok a' → pstep (a, held) (a', held)
  | step_merge a held : pstep (a, held) (merge_and_sort_free a, held)
  | step_clear a held : pstep (a, held) (clear_paged a, []).

(** Every page is free, released, pending or held, exactly once. *)
Definition page_inv (s : Allocator * list Z) : Prop :=
  0 < page_size s.1 ∧
  free_pages s.1 ++ release_pages s.1 ++ pending s.1 ++ s.2 ≡ₚ seqZ 1 (num_pages s.1).

Lemma page_inv_NoDup a held :
  page_inv (a, held) →
  NoDup (free_pages a ++ release_pages a ++ pending a ++ held).
Proof. intros [_ H]. simpl in H. rewrite H. apply NoDup_seqZ. Qed.

(** Fields that the operations keep. *)
Lemma pending_with_pages f r a : pending (with_pages f r a) = pending a.
Proof. done. Qed.

Lemma page_inv_perm a a' held held' :
  page_inv (a, held) → page_size a' = page_size a → size a' = size a →
  free_pages a' ++ release_pages a' ++ pending a' ++ held'
    ≡ₚ free_pages a ++ release_pages a ++ pending a ++ held →
  page_inv (a', held').
Proof.
  intros [Hp H] Hps Hsz Hperm. split; simpl in *; [by rewrite Hps|].
  rewrite Hperm, H. unfold num_pages. by rewrite Hps, Hsz.
Qed.

Lemma refill_pending n a : pending (refill n a) = pending a.
Proof.
  destruct (refill_fields n a) as (H1 & _ & _ & _ & H5 & H6 & _). unfold pending. by rewrite H1, H5, H6.
Qed.

Lemma page_inv_refill n a held : page_inv (a, held) → page_inv (refill n a, held).
Proof.
  intros H. destruct (refill_fields n a) as (H1 & _ & _ & H4 & _ & _ & Hp).
  apply (page_inv_perm a _ held); [done..|]. rewrite refill_pending, !app_assoc. by rewrite Hp.
Qed.

Lemma take_free_Some n a a' pages :
  take_free n a = Some (a', pages) →
  free_pages a = pages ++ free_pages a' ∧ release_pages a' = release_pages a ∧ pending a' = pending a ∧
  page_size a' = page_size a ∧ size a' = size a.
Proof.
  unfold take_free. case_bool_decide; [done|]. intros [= <- <-]. split_and!; try done.
  simpl. symmetry. apply take_drop.
Qed.

Lemma page_inv_take n a a' pages taken held :
  page_inv (a, held) → take_free n a = Some (a', pages) → taken ≡ₚ pages → page_inv (a', taken ++ held).
Proof.
  intros HI (Hf & Hr & Hpd & Hps & Hsz)%take_free_Some Ht. apply (page_inv_perm a _ held); try done.
  rewrite Hf, Hr, Hpd, Ht, <-!app_assoc.
  rewrite (Permutation_app_swap_app (pending a) pages), (Permutation_app_swap_app (release_pages a) pages).
  by rewrite (Permutation_app_swap_app (free_pages a') pages).
Qed.

Lemma pages_disjoint a held x :
  page_inv (a, held) → x ∈ free_pages a → x ∉ held.
Proof.
  intros HI%page_inv_NoDup Hx Hh. apply NoDup_app in HI as (_ & Hd & _).
  apply (Hd x Hx). rewrite !elem_of_app. eauto.
Qed.

Lemma fresh_taken p prefix_lens seq_lens last_loc fp held :
  0 < p → valid_batch p prefix_lens seq_lens last_loc held →
  get_num_new_pages seq_lens prefix_lens p ≤ lenZ fp →
  NoDup fp → (∀ x, x ∈ fp → x ∉ held) →
  fresh_pages p (batch_layout prefix_lens seq_lens last_loc fp p) held
  ≡ₚ take (Z.to_nat (get_num_new_pages seq_lens prefix_lens p)) fp.
Proof.
  intros Hp (Hlens & Hlast & Hno & Hsub) Hn Hfp Hd.
  assert (Hnd : NoDup (open_pages p prefix_lens last_loc ++ fp)).
  { apply NoDup_app. split_and!; [done| |done]. intros x Ho Hx. by apply (Hd x Hx), Hsub. }
  apply NoDup_Permutation.
  - apply NoDup_filter, NoDup_pages_of.
  - by apply (sublist_NoDup _ fp), sublist_take.
  - intros x. unfold fresh_pages. rewrite list_elem_of_filter. split.
    + intros [Hx (s & Hs & ->)%elem_of_pages_of].
      apply (batch_layout_pages _ _ _ _ _ Hp Hlens Hlast Hn Hnd), elem_of_app in Hs as [Ho|Ht]; [|done].
      by destruct (Hx (Hsub _ Ho)).
    + intros Hx. split; [|by apply batch_layout_covers].
      apply Hd. by eapply subseteq_take.
Qed.

(** Inversion of a successful batch call. *)
Lemma extend_out prefix_lens seq_lens last_loc n a a' out :
  alloc_extend uninit prefix_lens seq_lens last_loc n None a = Ok (a', Some out) →
  let a1 := refill (n / page_size a + lenZ prefix_lens + 1) a in
  out = alloc_extend_kernel prefix_lens seq_lens last_loc (free_pages a1) (uninit n)
          (next_power_of_2 (lenZ prefix_lens)) (page_size a) ∧
  ∃ pages, take_free (get_num_new_pages seq_lens prefix_lens (page_size a)) a1 = Some (a', pages).
Proof.
  unfold alloc_extend. destruct (_ && _); [done|]. cbv zeta. destruct (_ && _); [done|]. cbn [default].
  destruct (take_free _ _) as [[a2 pages]|]; [|done]. intros [= <- <-]. eauto.
Qed.

Lemma decode_out seq_lens last_loc a a' out :
  alloc_decode uninit seq_lens last_loc a = Ok (a', Some out) →
  let a1 := refill (lenZ seq_lens) a in
  out = alloc_decode_kernel seq_lens last_loc (free_pages a1) (uninit (lenZ seq_lens))
          (next_power_of_2 (lenZ seq_lens)) (page_size a) ∧
  ∃ pages, take_free (get_num_new_pages_decode seq_lens (page_size a)) a1 = Some (a', pages).
Proof.
  unfold alloc_decode. destruct (_ && _); [done|]. cbv zeta. destruct (_ && _); [done|].
  destruct (take_free _ _) as [[a2 pages]|]; [|done]. intros [= <- <-]. eauto.
Qed.

Lemma extend_none_state prefix_lens seq_lens last_loc n m a a' :
  alloc_extend uninit prefix_lens seq_lens last_loc n m a = Ok (a', None) →
  a' = refill (n / page_size a + lenZ prefix_lens + 1) a.
Proof.
  unfold alloc_extend. destruct (_ && _); [done|]. cbv zeta. destruct (_ && _); [done|].
  destruct (take_free _ _) as [[a2 pages]|]; [done|]. by intros [= <-].
Qed.

Lemma decode_none_state seq_lens last_loc a a' :
  alloc_decode uninit seq_lens last_loc a = Ok (a', None) → a' = refill (lenZ seq_lens) a.
Proof.
  unfold alloc_decode. destruct (_ && _); [done|]. cbv zeta. destruct (_ && _); [done|].
  destruct (take_free _ _) as [[a2 pages]|]; [done|]. by intros [= <-].
Qed.

(** The allocation of a laid-out batch keeps the invariant. *)
Lemma page_inv_batch prefix_lens seq_lens last_loc a a' pages held :
  page_inv (a, held) → valid_batch (page_size a) prefix_lens seq_lens last_loc held →
  take_free (get_num_new_pages seq_lens prefix_lens (page_size a)) a = Some (a', pages) →
  page_inv (a', fresh_pages (page_size a)
    (batch_layout prefix_lens seq_lens last_loc (free_pages a) (page_size a)) held ++ held).
Proof.
  intros HI Hv Ht. pose proof HI as [Hp _]. simpl in Hp. pose proof Hv as (Hlens & _).
  destruct (lens_nonneg _ _ _ Hp Hlens) as [_ Pn]. pose proof (sumZ_nonneg _ Pn) as Hn0.
  fold (get_num_new_pages seq_lens prefix_lens (page_size a)) in Hn0.
  assert (Hn : get_num_new_pages seq_lens prefix_lens (page_size a) ≤ lenZ (free_pages a)).
  { revert Ht. unfold take_free. case_bool_decide; [done|lia]. }
  rewrite take_free_eq in Ht by lia. injection Ht as <- <-.
  eapply page_inv_take; [done|by apply take_free_eq|].
  apply fresh_taken; try done.
  - by apply page_inv_NoDup, NoDup_app in HI as [? _].
  - intros x. by apply pages_disjoint.
Qed.

Lemma page_inv_extend prefix_lens seq_lens last_loc a a' out held :
  page_inv (a, held) → valid_batch (page_size a) prefix_lens seq_lens last_loc held →
  alloc_extend uninit prefix_lens seq_lens last_loc
    (sumZ (zip_with Z.sub seq_lens prefix_lens)) None a = Ok (a', Some out) →
  page_inv (a', fresh_pages (page_size a) out held ++ held).
Proof using Huninit.
  intros HI Hv [-> [pages Ht]]%extend_out. pose proof HI as [Hp _]. simpl in Hp.
  pose proof Hv as (Hlens & Hlast & _). pose proof (lens_nonneg _ _ _ Hp Hlens) as [Pe _].
  set (ext := sumZ _) in *. pose proof (Huninit ext (sumZ_nonneg _ Pe)) as Hu.
  set (a1 := refill _ a) in *. destruct (refill_fields (ext / page_size a + lenZ prefix_lens + 1) a) as (Hps & _).
  fold a1 in Hps. rewrite <-Hps in *.
  assert (Hn : get_num_new_pages seq_lens prefix_lens (page_size a1) ≤ lenZ (free_pages a1)).
  { revert Ht. unfold take_free. case_bool_decide; [done|lia]. }
  destruct (kernel_writes _ _ _ _ (page_size a1) Hp Hlens (length_last _ _ _ Hlast) Hn (uninit ext)) as [-> Hl];
    [unfold ext in *; lia|].
  rewrite write_at_all by (unfold lenZ, ext in *; lia).
  eapply page_inv_batch; [by apply page_inv_refill|done|done].
Qed.

Lemma page_inv_decode seq_lens last_loc a a' out held :
  page_inv (a, held) → 2 ≤ page_size a → Forall (Z.le 1) seq_lens →
  valid_batch (page_size a) (Z.pred <$> seq_lens) seq_lens last_loc held →
  alloc_decode uninit seq_lens last_loc a = Ok (a', Some out) →
  page_inv (a', fresh_pages (page_size a) out held ++ held).
Proof using Huninit.
  intros HI Hp2 Hge Hv [-> [pages Ht]]%decode_out. pose proof HI as [Hp _]. simpl in Hp.
  pose proof Hv as (Hlens & Hlast & _).
  assert (Hll : length last_loc = length seq_lens) by (rewrite (length_last _ _ _ Hlast); apply length_fmap).
  assert (Hu : length (uninit (lenZ seq_lens)) = length seq_lens).
  { apply Nat2Z.inj. apply Huninit. unfold lenZ. lia. }
  set (a1 := refill _ a) in *. destruct (refill_fields (lenZ seq_lens) a) as (Hps & _).
  fold a1 in Hps. rewrite <-Hps in *.
  assert (Hn : get_num_new_pages_decode seq_lens (page_size a1) ≤ lenZ (free_pages a1)).
  { revert Ht. unfold take_free. case_bool_decide; [done|lia]. }
  rewrite decode_kernel_extend by done.
  rewrite decode_count in Hn, Ht by done.
  assert (Hlp : lenZ (Z.pred <$> seq_lens) = lenZ seq_lens) by (unfold lenZ; by rewrite length_fmap).
  assert (Hext : sumZ (zip_with Z.sub seq_lens (Z.pred <$> seq_lens)) = lenZ seq_lens).
  { clear. unfold lenZ. induction seq_lens as [|s l IH]; [done|]. cbn [fmap list_fmap zip_with length].
    rewrite sumZ_cons. lia. }
  destruct (kernel_writes _ _ _ _ (page_size a1) Hp Hlens (length_last _ _ _ Hlast) Hn
    (uninit (lenZ seq_lens))) as [Hk Hl]; [rewrite Hext; unfold lenZ at 2; by rewrite Hu|].
  rewrite Hlp in Hk. rewrite Hk, write_at_all by (rewrite Hu; unfold lenZ in *; lia).
  eapply page_inv_batch; [by apply page_inv_refill|done|done].
Qed.

Lemma free_paged_out idx a a' :
  free_paged idx a = Ok a' →
  page_size a' = page_size a ∧ size a' = size a ∧
  (is_not_in_free_group a = true → pending a' = [] ∧
   free_pages a' ++ release_pages a' ≡ₚ pages_of (page_size a) idx ++ free_pages a ++ release_pages a) ∧
  (is_not_in_free_group a = false →
   free_pages a' = free_pages a ∧ release_pages a' = release_pages a ∧
   pending a' = pages_of (page_size a) (concat (free_group a) ++ idx)).
Proof.
  unfold free_paged. destruct idx as [|x idx].
  { intros [= <-]. split_and!; try done; intros H; unfold pending; rewrite H; rewrite ?app_nil_r; done. }
  set (l := x :: idx). cbv zeta. destruct (_ && _); [done|]. intros [= <-].
  destruct (is_not_in_free_group a) eqn:Hg; [destruct (need_sort a)|]; split_and!; try done;
    unfold pending; simpl; intros _; rewrite ?Hg; split_and?; try done.
  - apply Permutation_app_swap_app.
  - by rewrite <-app_assoc.
  - rewrite concat_app. cbn [concat]. by rewrite app_nil_r.
Qed.

Lemma page_inv_free idx a a' held held' :
  page_inv (a, held) → held ≡ₚ pages_of (page_size a) idx ++ held' → free_paged idx a = Ok a' →
  page_inv (a', held').
Proof.
  intros HI Hh (Hps & Hsz & Hout & Hin)%free_paged_out. pose proof (page_inv_NoDup _ _ HI) as Hnd.
  apply (page_inv_perm a _ held); [done..|]. rewrite Hh. destruct (is_not_in_free_group a) eqn:Hg.
  - destruct (Hout eq_refl) as [-> Hp]. unfold pending. rewrite Hg. simpl.
    rewrite app_assoc, Hp, <-!app_assoc.
    rewrite (Permutation_app_swap_app (pages_of _ _) (free_pages a)).
    by rewrite (Permutation_app_swap_app (pages_of _ _) (release_pages a)).
  - destruct (Hin eq_refl) as (-> & -> & ->). rewrite pages_of_app.
    + unfold pending. rewrite Hg. by rewrite <-!app_assoc.
    + intros x Hx Hy. unfold pending in Hnd. rewrite Hg in Hnd.
      do 2 apply NoDup_app in Hnd as (_ & _ & Hnd). apply NoDup_app in Hnd as (_ & Hd & _).
      apply (Hd x Hx). rewrite Hh, elem_of_app. by left.
Qed.

Lemma page_inv_alloc need a a' r held :
  page_inv (a, held) → alloc_paged need a = Ok (a', r) →
  page_inv (a', match r with Some out => pages_of (page_size a) out ++ held | None => held end).
Proof.
  intros HI. unfold alloc_paged. destruct (_ && _); [done|]. cbv zeta.
  pose proof (page_inv_refill (need / page_size a) _ _ HI) as HI1.
  destruct (take_free _ _) as [[a2 pages]|] eqn:Ht; intros [= <- <-]; [|done].
  eapply page_inv_take; [done|done|]. apply pages_of_slots; [by destruct HI|].
  apply page_inv_NoDup, NoDup_app in HI1 as [Hnd _].
  destruct (take_free_Some _ _ _ _ Ht) as [Hf _]. rewrite Hf in Hnd. by apply NoDup_app in Hnd as [? _].
Qed.

Lemma page_inv_group_end a a' held :
  page_inv (a, held) → is_not_in_free_group a = false → free_group_end_paged a = Ok a' → page_inv (a', held).
Proof.
  intros HI Hg. set (a1 := with_group true (free_group a) a).
  assert (HI1 : page_inv (a1, pending a ++ held)) by (apply (page_inv_perm a _ held); done).
  assert (Hpd : pending a = pages_of (page_size a1) (concat (free_group a))) by (unfold pending; by rewrite Hg).
  unfold free_group_end_paged. fold a1. destruct (free_group a) as [|g gs] eqn:E.
  - intros [= <-]. rewrite Hpd in HI1. exact HI1.
  - rewrite <-E in *. intros H. eapply page_inv_free; [exact HI1| |exact H]. by rewrite Hpd.
Qed.

Lemma page_inv_clear a : 0 < page_size a → page_inv (clear_paged a, []).
Proof. intros Hp. split; [done|]. simpl. by rewrite !app_nil_r. Qed.

Lemma pstep_inv s s' : pstep s s' → page_inv s → page_inv s'.
Proof using Huninit.
  intros Hs HI. destruct Hs.
  - exact (page_inv_alloc _ _ _ (Some out) _ HI H).
  - exact (page_inv_alloc _ _ _ None _ HI H).
  - by eapply page_inv_extend.
  - apply extend_none_state in H as ->. by apply page_inv_refill.
  - by eapply page_inv_decode.
  - apply decode_none_state in H as ->. by apply page_inv_refill.
  - by eapply page_inv_free.
  - apply (page_inv_perm a _ held); try done. unfold pending. rewrite H. done.
  - by eapply page_inv_group_end.
  - unfold merge_and_sort_free. case_bool_decide; [|done]. apply (page_inv_perm a _ held); try done.
    rewrite pending_with_pages. simpl. by rewrite merge_sort_Permutation, <-app_assoc.
  - apply page_inv_clear. by destruct HI.
Qed.

(** C30: Conservation, for the uses [pstep] allows: allocations; extensions of
    batches whose requests' open last pages are held, by one request each
    ([valid_batch]), by the sum of the requests' extensions; decodes of such
    batches on pages of at least two slots (with one-slot pages, for which the
    server uses the token allocator, decoding hands out pages that stay on the
    free list: [decode_count_one_slot]); frees of slots whose pages are held;
    free groups that are not nested; merges; and clears.  After any sequence of
    these on a paged allocator, and with the kernels' output buffer of the length
    asked for, every page 1..num_pages is exactly once among the free list, the released list, the pages waiting for the end of the free group and the pages
    held by clients: no page is lost, handed out twice or freed twice, slot 0's
    page is never handed out, and available_size counts the rest. *)
Theorem pages_conserved sz ps sort debug a held :
  0 < ps → rtc pstep (new_paged_allocator sz ps sort debug, []) (a, held) →
  free_pages a ++ release_pages a ++ pending a ++ held ≡ₚ seqZ 1 (num_pages a) ∧
  NoDup (free_pages a ++ release_pages a ++ pending a ++ held) ∧
  available_size a + (lenZ (pending a) + lenZ held) * page_size a
  = lenZ (seqZ 1 (num_pages a)) * page_size a.
Proof using Huninit.
  intros Hp Hr. assert (HI : page_inv (a, held)).
  { refine (rtc_ind_l (fun s => page_inv s → page_inv (a, held)) (a, held) _ _ _ Hr _); [done| |].
    - intros s s' Hs _ IH HI. apply IH. by eapply pstep_inv.
    - by apply page_inv_clear. }
  split; [apply HI|]. split; [by apply page_inv_NoDup|].
  destruct HI as [_ H]. simpl in H. apply Permutation_length in H. unfold available_size, lenZ.
  rewrite <-H, !length_app. lia.
Qed.

End conservation.

Lemma pages_conserved_witness :
  let un := fun n => replicate (Z.to_nat n) 0 in
  let a0 := new_paged_allocator 24 4 true false in
  let a1 := with_pages (seqZ 3 4) [] a0 in
  let a2 := with_pages (seqZ 3 4) [1] a0 in
  rtc (pstep un) (a0, []) (a2, [2]) ∧
  free_pages a2 ++ release_pages a2 ++ pending a2 ++ [2] ≡ₚ seqZ 1 (num_pages a2).
Proof.
  intros un a0 a1 a2.
  assert (Hs : rtc (pstep un) (a0, []) (a2, [2])).
  { eapply rtc_l; [apply (step_alloc un 8 a0 a1 (seqZ 4 8) []); vm_compute; reflexivity|].
    eapply rtc_l; [|apply rtc_refl].
    apply (step_free un [4; 5; 6; 7] a1 a2 _ [2]); [|vm_compute; reflexivity].
    vm_compute. reflexivity. }
  split; [exact Hs|].
  assert (Hun : ∀ k, 0 ≤ k → lenZ (un k) = k) by (intros k Hk; unfold lenZ, un; len_lia).
  exact (proj1 (pages_conserved un Hun 24 4 true false a2 [2] ltac:(lia) Hs)).
Defined.
