(* ===== verification/RadixKey.v ===== *)
(** Radix-tree keys ([RadixKey] of [mem_cache/radix_cache.py]): token sequences
    with a namespace tag, seen either as tokens or as overlapping bigrams, with
    their slices, page alignment, prefix match and dictionary key.

    Lengths and page sizes are naturals; the code calls the slices below with
    non-negative bounds only. *)

From S2P Require Import Prelude.

(** * Keys *)

Record RadixKey := mkKey {
  token_ids : list Z;
  extra_key : option string;
  is_bigram : bool;
}.

#[global] Instance RadixKey_eq_dec : EqDecision RadixKey.
Proof. solve_decision. Defined.

(** [__len__]: [n] raw tokens make [n - 1] bigrams. *)
Definition klen (k : RadixKey) : nat :=
  if is_bigram k then length (token_ids k) - 1 else length (token_ids k).

(** [__iter__]: the logical units. *)
Definition units (k : RadixKey) : list (Z * option Z) :=
  if is_bigram k then zip_with (fun a b => (a, Some b)) (token_ids k) (tail (token_ids k))
  else (fun a => (a, None)) <$> token_ids k.

(** [key[start:stop]], the bounds clipped to the length. *)
Definition kslice (start stop : nat) (k : RadixKey) : RadixKey :=
  let start := start `min` klen k in
  let stop := stop `min` klen k in
  if is_bigram k then
    mkKey (if decide (start < stop) then slice start (stop + 1) (token_ids k) else []) (extra_key k) true
  else mkKey (slice start stop (token_ids k)) (extra_key k) false.

(** [key[:n]] and [key[n:]]. *)
Definition kprefix (n : nat) (k : RadixKey) : RadixKey := kslice 0 n k.
Definition ksuffix (n : nat) (k : RadixKey) : RadixKey := kslice n (klen k) k.

(** [key[i]]. *)
Definition kget (i : Z) (k : RadixKey) : result RadixKey :=
  let n := Z.of_nat (klen k) in
  let i := if bool_decide (i < 0)%Z then (i + n)%Z else i in
  if bool_decide (i < 0 ∨ n ≤ i)%Z then Raise IndexError
  else Ok (kslice (Z.to_nat i) (Z.to_nat i + 1) k).

Definition page_aligned (page_size : nat) (k : RadixKey) : RadixKey :=
  if decide (page_size = 1) then k else kprefix (klen k / page_size * page_size) k.

(** [maybe_to_bigram_view]. *)
Definition maybe_to_bigram_view (is_eagle : bool) (k : RadixKey) (value : option (list Z))
  : RadixKey * option (list Z) :=
  if is_eagle && negb (is_bigram k) then
    let k' := mkKey (token_ids k) (extra_key k) true in
    (k', take (klen k') <$> value)
  else (k, value).

(** The loop [for a, b in zip(t0, t1): if a != b: break; i += 1]. *)
Fixpoint common_prefix {A} `{EqDecision A} (l k : list A) : nat :=
  match l, k with
  | a :: l, b :: k => if decide (a = b) then S (common_prefix l k) else 0
  | _, _ => 0
  end.

(** The page-wise loop of [match]. *)
Fixpoint match_pages (fuel page_size min_len i : nat) (t0 t1 : list Z) : nat :=
  match fuel with
  | 0 => i
  | S fuel =>
      if decide (i < min_len) then
        if decide (slice i (i + page_size) t0 = slice i (i + page_size) t1)
        then match_pages fuel page_size min_len (i + page_size) t0 t1
        else i
      else i
  end.

(** [match]. *)
Definition kmatch (page_size : nat) (k other : RadixKey) : result nat :=
  if decide (extra_key k ≠ extra_key other) then Raise ValueError
  else
    let t0 := token_ids k in
    let t1 := token_ids other in
    if is_bigram k then
      let i := common_prefix t0 t1 in
      let matched := (i - 1) `min` klen k `min` klen other in
      Ok (if decide (1 < page_size) then matched / page_size * page_size else matched)
    else if decide (page_size = 1) then Ok (common_prefix t0 t1)
    else
      let min_len := klen k `min` klen other in
      Ok (match_pages min_len page_size min_len 0 t0 t1).

(** The hashable values [child_key] returns. *)
Inductive plain_key :=
  | PTok (t : Z)
  | PPair (t u : Z)
  | PToks (ts : list Z)
  | PPairs (ts : list (Z * Z)).

#[global] Instance plain_key_eq_dec : EqDecision plain_key.
Proof. solve_decision. Defined.

Definition ChildKey : Type := option string * plain_key.

Definition child_key (page_size : nat) (k : RadixKey) : result ChildKey :=
  let t := token_ids k in
  do! plain <-
    (if is_bigram k then
       if decide (page_size = 1) then do! a <- py_get t 0; do! b <- py_get t 1; Ok (PPair a b)
       else do! ps <- traverse (fun j => do! a <- py_get t j; do! b <- py_get t (j + 1); Ok (a, b))
                        (range (Z.of_nat page_size)); Ok (PPairs ps)
     else if decide (page_size = 1) then do! a <- py_get t 0; Ok (PTok a)
     else Ok (PToks (take page_size t)));
  Ok (extra_key k, plain).

(** * Logical units *)

Lemma length_units k : length (units k) = klen k.
Proof.
  unfold units, klen. destruct (is_bigram k); [|apply length_fmap].
  rewrite length_zip_with. destruct (token_ids k); cbn [length tail]; lia.
Qed.

Lemma tail_drop {A} (l : list A) : tail l = drop 1 l.
Proof. by destruct l. Qed.

Lemma units_kslice a b k : units (kslice a b k) = slice a b (units k).
Proof.
  pose proof (length_units k) as Hlen. unfold kslice, units, klen, slice in *. destruct (is_bigram k); simpl.
  - set (t := token_ids k) in *. case_decide as Hd.
    + apply list_eq. intros i. rewrite tail_drop, lookup_zip_with, lookup_drop.
      destruct (decide (i < b - a)) as [Hi|Hi].
      * rewrite (lookup_take_lt _ (b - a)), lookup_drop, lookup_zip_with by lia.
        rewrite tail_drop, lookup_drop.
        destruct (decide (a + i < length t - 1)) as [Hl|Hl].
        -- rewrite !lookup_take_lt, !lookup_drop by lia.
           replace (a `min` (length t - 1)) with a by lia. by replace (a + (1 + i)) with (1 + (a + i)) by lia.
        -- rewrite (lookup_ge_None_2 t (1 + (a + i))) by lia. rewrite (lookup_take_ge _ _ (1 + i)) by lia.
           by destruct (take _ _ !! i), (t !! (a + i)).
      * rewrite (lookup_take_ge _ _ (1 + i)) by lia. rewrite (lookup_take_ge _ (b - a)) by lia.
        by destruct (take _ _ !! i).
    + simpl. symmetry. apply nil_length_inv. len_lia.
  - rewrite <-fmap_drop, <-fmap_take. f_equal. set (t := token_ids k) in *.
    apply list_eq. intros i. destruct (decide (a + i < length t)) as [Hl|Hl].
    + destruct (decide (i < b - a)); [|rewrite !lookup_take_ge by lia; done].
      rewrite !lookup_take_lt, !lookup_drop by lia. f_equal. lia.
    + rewrite !lookup_ge_None_2; [done|len_lia..].
Qed.

Lemma kslice_mode a b k : extra_key (kslice a b k) = extra_key k ∧ is_bigram (kslice a b k) = is_bigram k.
Proof. unfold kslice. by destruct (is_bigram k) eqn:E. Qed.

Lemma units_kprefix n k : units (kprefix n k) = take n (units k).
Proof. unfold kprefix. rewrite units_kslice. unfold slice. by rewrite Nat.sub_0_r, drop_0. Qed.

Lemma units_ksuffix n k : units (ksuffix n k) = drop n (units k).
Proof.
  unfold ksuffix. rewrite units_kslice. unfold slice. apply take_ge. rewrite length_drop, length_units. lia.
Qed.

Lemma klen_kprefix n k : klen (kprefix n k) = n `min` klen k.
Proof. by rewrite <-!length_units, units_kprefix, length_take. Qed.

Lemma klen_ksuffix n k : klen (ksuffix n k) = klen k - n.
Proof. by rewrite <-!length_units, units_ksuffix, length_drop. Qed.

(** ** Common prefixes *)

Lemma common_prefix_spec {A} `{EqDecision A} (l k : list A) :
  take (common_prefix l k) l = take (common_prefix l k) k ∧
  common_prefix l k ≤ length l ∧ common_prefix l k ≤ length k ∧
  ∀ x y, l !! common_prefix l k = Some x → k !! common_prefix l k = Some y → x ≠ y.
Proof.
  revert k. induction l as [|a l IH]; intros [|b k]; simpl; split_and!; try done; try lia.
  all: case_decide as Hab; simpl; subst; try done; try lia.
  - f_equal. apply IH.
  - destruct (IH k) as (_ & ? & _). lia.
  - destruct (IH k) as (_ & _ & ? & _). lia.
  - apply IH.
  - naive_solver.
Qed.

Lemma common_prefix_take {A} `{EqDecision A} (l k : list A) n :
  n ≤ length l → n ≤ length k → (take n l = take n k ↔ n ≤ common_prefix l k).
Proof.
  revert k n. induction l as [|a l IH]; intros [|b k] [|n]; simpl; try lia; try (split; [lia|done]).
  intros Hl Hk. case_decide as Hab.
  - subst. rewrite <-Nat.succ_le_mono, <-(IH k n) by lia. split; [by intros [= ?]|by intros ->].
  - split; [by intros [= ? ?]|lia].
Qed.

Lemma common_prefix_units k o :
  is_bigram k = is_bigram o →
  common_prefix (units k) (units o)
  = if is_bigram k then common_prefix (token_ids k) (token_ids o) - 1
    else common_prefix (token_ids k) (token_ids o).
Proof.
  intros Hb. unfold units. rewrite <-Hb. generalize (token_ids k) as l, (token_ids o) as m. clear.
  destruct (is_bigram k).
  - set (f := fun a b : Z => (a, Some b)). induction l as [|a l IH]; intros [|b m]; [done..|by destruct l|].
    destruct l as [|a' l], m as [|b' m]; [cbn; by case_decide..|].
    specialize (IH (b' :: m)). simpl tail in *.
    change (zip_with f (a :: a' :: l) (a' :: l)) with ((a, Some a') :: zip_with f (a' :: l) l).
    change (zip_with f (b :: b' :: m) (b' :: m)) with ((b, Some b') :: zip_with f (b' :: m) m).
    cbn [common_prefix] in *. rewrite IH. repeat case_decide; simplify_eq; simpl; lia.
  - induction l as [|a l IH]; intros [|b m]; try done. cbn [fmap list_fmap common_prefix].
    repeat case_decide; simplify_eq; try done. f_equal. apply IH.
Qed.

(** ** Match and dictionary keys of aligned keys *)

Definition aligned (ps : nat) (k : RadixKey) : Prop := klen k mod ps = 0.

#[global] Instance aligned_dec ps k : Decision (aligned ps k).
Proof. unfold aligned. apply _. Defined.

Lemma floor_spec n ps : 0 < ps → n / ps * ps ≤ n < n / ps * ps + ps.
Proof.
  intros Hp. pose proof (Nat.div_mod_eq n ps). pose proof (Nat.mod_upper_bound n ps ltac:(lia)). lia.
Qed.

Lemma multiple_floor m n ps : 0 < ps → m mod ps = 0 → m ≤ n → m ≤ n / ps * ps.
Proof.
  intros Hp Hm Hle. apply Nat.Div0.div_exact in Hm. rewrite Hm, Nat.mul_comm.
  apply Nat.mul_le_mono_r, Nat.Div0.div_le_mono, Hle.
Qed.

Lemma multiple_gap n m ps : n mod ps = 0 → m mod ps = 0 → n < m → n + ps ≤ m.
Proof.
  intros Hn Hm Hlt. pose proof (Nat.div_mod_eq n ps). pose proof (Nat.div_mod_eq m ps).
  assert (n / ps < m / ps) by nia. nia.
Qed.

Lemma slice_eq_take (t0 t1 : list Z) i ps :
  take i t0 = take i t1 → (slice i (i + ps) t0 = slice i (i + ps) t1 ↔ take (i + ps) t0 = take (i + ps) t1).
Proof.
  intros Hi. unfold slice. replace (i + ps - i) with ps by lia.
  split; intros H.
  - by rewrite <-(take_take_drop t0 i ps), <-(take_take_drop t1 i ps), Hi, H.
  - by rewrite !take_drop_commute, H.
Qed.

Lemma match_pages_spec ps fuel i t0 t1 :
  0 < ps → length t0 mod ps = 0 → length t1 mod ps = 0 → i mod ps = 0 →
  take i t0 = take i t1 → i ≤ length t0 `min` length t1 → length t0 `min` length t1 ≤ i + fuel →
  match_pages fuel ps (length t0 `min` length t1) i t0 t1 = common_prefix t0 t1 / ps * ps.
Proof.
  intros Hp H0 H1. revert i. set (m := length t0 `min` length t1).
  assert (Hm : m mod ps = 0) by (unfold m; destruct (Nat.min_spec (length t0) (length t1)) as [[_ ->]|[_ ->]]; done).
  destruct (common_prefix_spec t0 t1) as (_ & Hc0 & Hc1 & _).
  assert (Hfin : ∀ i, i mod ps = 0 → i = m → take i t0 = take i t1 → i = common_prefix t0 t1 / ps * ps).
  { intros i Hi Him Ht. apply common_prefix_take in Ht; [|lia..].
    pose proof (multiple_floor i _ ps Hp Hi Ht). pose proof (floor_spec (common_prefix t0 t1) ps Hp). lia. }
  induction fuel as [|fuel IH]; intros i Hi Ht Hle Hfuel; cbn [match_pages]; [apply Hfin; done || lia|].
  case_decide as Him; [|apply Hfin; done || lia].
  pose proof (multiple_gap i m ps Hi Hm Him) as Hnext.
  case_decide as Heq.
  - apply IH; [|by apply slice_eq_take|lia..]. rewrite <-Nat.Div0.add_mod_idemp_r, Nat.Div0.mod_same, Nat.add_0_r. done.
  - rewrite slice_eq_take in Heq by done. rewrite common_prefix_take in Heq by lia.
    apply common_prefix_take in Ht; [|lia..].
    pose proof (multiple_floor i _ ps Hp Hi Ht). pose proof (floor_spec (common_prefix t0 t1) ps Hp).
    pose proof (Nat.div_mod_eq i ps) as Hdi. rewrite Hi in Hdi. set (q := common_prefix t0 t1 / ps) in *.
    assert (Hq : q = i / ps) by (apply Nat.le_antisymm; nia). nia.
Qed.

Lemma kmatch_units ps k o :
  0 < ps → extra_key k = extra_key o → is_bigram k = is_bigram o → aligned ps k → aligned ps o →
  kmatch ps k o = Ok (common_prefix (units k) (units o) / ps * ps).
Proof.
  intros Hp He Hb Hk Ho. unfold kmatch. rewrite decide_False by naive_solver.
  destruct (common_prefix_spec (units k) (units o)) as (_ & Hck & Hco & _). rewrite !length_units in *.
  rewrite common_prefix_units in * by done. unfold aligned, klen in *. rewrite <-Hb in *.
  destruct (is_bigram k).
  - replace (_ `min` _ `min` _) with (common_prefix (token_ids k) (token_ids o) - 1) by lia.
    f_equal. case_decide; [done|]. assert (ps = 1) as -> by lia. by rewrite Nat.div_1_r, Nat.mul_1_r.
  - case_decide; [subst; by rewrite Nat.div_1_r, Nat.mul_1_r|]. f_equal.
    apply match_pages_spec; try done; try lia. apply Nat.Div0.mod_0_l.
Qed.

(** The units a dictionary key stands for. *)
Definition unplain (pl : plain_key) : list (Z * option Z) :=
  match pl with
  | PTok a => [(a, None)]
  | PPair a b => [(a, Some b)]
  | PToks ts => (fun a => (a, None)) <$> ts
  | PPairs ps => (fun x : Z * Z => (x.1, Some x.2)) <$> ps
  end.

(** Keys of one tree use one constructor. *)
Definition same_shape (p q : plain_key) : bool :=
  match p, q with
  | PTok _, PTok _ | PPair _ _, PPair _ _ | PToks _, PToks _ | PPairs _, PPairs _ => true
  | _, _ => false
  end.

Lemma unplain_inj p q : same_shape p q = true → unplain p = unplain q → p = q.
Proof.
  destruct p, q; try done; intros _; simpl.
  - by intros [= ->].
  - by intros [= -> ->].
  - intros H. f_equal. assert (Hi : Inj eq eq (fun a : Z => (a, @None Z))) by (by intros ?? [= ?]).
    exact (list_fmap_eq_inj _ Hi _ _ H).
  - intros H. f_equal. assert (Hi : Inj eq eq (fun x : Z * Z => (x.1, Some x.2))).
    { intros [] [] [= -> ->]. done. }
    exact (list_fmap_eq_inj _ Hi _ _ H).
Qed.

Definition shape_of (bg : bool) (ps : nat) : plain_key :=
  if bg then if decide (ps = 1) then PPair 0 0 else PPairs [] else if decide (ps = 1) then PTok 0 else PToks [].

Lemma units_bigram_lookup k i :
  is_bigram k = true → i < klen k →
  ∃ a b, token_ids k !! i = Some a ∧ token_ids k !! (i + 1) = Some b ∧ units k !! i = Some (a, Some b).
Proof.
  intros Hb. unfold klen, units. rewrite Hb. intros Hi.
  element (token_ids k) i as a Ha.
  destruct (lookup_lt_is_Some_2 (token_ids k) (i + 1)) as [b Hb']; [lia|].
  exists a, b. split_and!; [done..|]. rewrite lookup_zip_with, Ha, tail_drop, lookup_drop. simpl.
  rewrite Nat.add_1_r in Hb'. by rewrite Hb'.
Qed.

Lemma child_key_ok ps k :
  0 < ps ≤ klen k →
  ∃ pl, child_key ps k = Ok (extra_key k, pl) ∧ unplain pl = take ps (units k) ∧
    same_shape (shape_of (is_bigram k) ps) pl = true.
Proof.
  intros Hp. unfold child_key, shape_of. destruct (is_bigram k) eqn:Hb.
  - case_decide as H1.
    + subst ps. destruct (units_bigram_lookup k 0 Hb) as (a & b & Ha & Hb' & Hu); [lia|].
      rewrite (py_get_nat _ 0 _ Ha : py_get _ 0%Z = _). run_bind.
      rewrite (py_get_nat _ 1 _ Hb' : py_get _ 1%Z = _). run_bind. eexists. split_and!; [done| |done].
      destruct (units k) as [|u us]; [done|]. simpl in *. rewrite take_0. congruence.
    + set (f := fun u : Z * option Z => (u.1, default 0%Z u.2)).
      assert (Ht : traverse (fun j => do! a <- py_get (token_ids k) j; do! b <- py_get (token_ids k) (j + 1)%Z; Ok (a, b))
                (range (Z.of_nat ps)) = Ok (f <$> take ps (units k))).
      { rewrite range_nat. apply traverse_Ok, Forall2_fmap_l, Forall2_same_length_lookup_2.
        - rewrite length_seq, length_fmap, length_take, length_units. lia.
        - intros i j x [-> Hi]%lookup_seq Hx. simpl.
          rewrite list_lookup_fmap, lookup_take_lt in Hx by lia.
          destruct (units_bigram_lookup k i Hb) as (a & b & Ha & Hb' & Hu); [lia|].
          rewrite Hu in Hx. injection Hx as <-. run_gets.
          replace (Z.of_nat i + 1)%Z with (Z.of_nat (i + 1)) by lia. by rewrite (py_get_nat _ _ _ Hb'). }
      rewrite Ht. run_bind. eexists. split_and!; [done| |done]. simpl. rewrite <-list_fmap_compose.
      rewrite <-list_fmap_id. apply list_fmap_ext. intros i u Hu. apply lookup_take_Some in Hu as [Hu Hi].
      destruct (units_bigram_lookup k i Hb) as (a & b & _ & _ & Hu'); [lia|]. simplify_eq. done.
  - case_decide as H1.
    + subst ps. unfold klen, units in *. rewrite Hb in *. destruct (token_ids k) as [|a t]; [simpl in Hp; lia|].
      rewrite (py_get_nat (a :: t) 0 a eq_refl : py_get _ 0%Z = _). run_bind. eexists. by split_and!.
    + eexists. split_and!; [done| |done]. unfold units. rewrite Hb. simpl. by rewrite fmap_take.
Qed.

Lemma child_key_eq ps k o :
  0 < ps ≤ klen k → ps ≤ klen o → is_bigram k = is_bigram o →
  child_key ps k = child_key ps o ↔ extra_key k = extra_key o ∧ take ps (units k) = take ps (units o).
Proof.
  intros Hk Ho Hb. destruct (child_key_ok ps k Hk) as (pk & -> & Uk & Sk).
  destruct (child_key_ok ps o ltac:(lia)) as (po & -> & Uo & So). rewrite <-Hb in So. split.
  - intros [= -> ->]. split; [done|]. congruence.
  - intros [-> Hu]. do 2 f_equal. apply unplain_inj; [|congruence].
    destruct (shape_of _ _), pk, po; done.
Qed.

(** For page-aligned keys of one namespace and one mode, [match] returns the
    length of the longest shared prefix of whole pages of logical units (tokens or
    bigrams); slicing at it splits the key without loss or overlap; the two keys
    have the same dictionary key exactly when they share a page; and when both
    continue past the match their continuations have different dictionary keys. *)
Theorem match_split_spec ps k o :
  0 < ps → extra_key k = extra_key o → is_bigram k = is_bigram o → aligned ps k → aligned ps o →
  ∃ n, kmatch ps k o = Ok n ∧ n mod ps = 0 ∧ n ≤ klen k ∧ n ≤ klen o ∧
    units (kprefix n k) = units (kprefix n o) ∧
    units k = units (kprefix n k) ++ units (ksuffix n k) ∧
    (0 < klen k → 0 < klen o → (child_key ps k = child_key ps o ↔ 0 < n)) ∧
    (n < klen k → n < klen o → child_key ps (ksuffix n k) ≠ child_key ps (ksuffix n o)).
Proof.
  intros Hp He Hb Hk Ho. rewrite kmatch_units by done. eexists. split; [done|].
  set (c := common_prefix (units k) (units o)).
  destruct (common_prefix_spec (units k) (units o)) as (_ & Hck & Hco & _). fold c in Hck, Hco.
  rewrite !length_units in *. pose proof (floor_spec c ps Hp) as Hfl.
  assert (Hge : ∀ x, aligned ps x → 0 < klen x → ps ≤ klen x).
  { intros x Hx Hpos. apply (multiple_gap 0 (klen x) ps); [apply Nat.Div0.mod_0_l|done..]. }
  assert (Hlk : c / ps * ps ≤ klen k) by lia. assert (Hlo : c / ps * ps ≤ klen o) by lia.
  split_and!; [apply Nat.Div0.mod_mul|done|done| | | |].
  - rewrite !units_kprefix. apply common_prefix_take; rewrite ?length_units; fold c; lia.
  - by rewrite units_kprefix, units_ksuffix, take_drop.
  - intros Hk0 Ho0. rewrite child_key_eq by (try done; split_and?; try apply Hge; done).
    rewrite common_prefix_take by (rewrite length_units; apply Hge; done). fold c.
    split; [intros [_ H]; lia|intros H; split; [done|]].
    pose proof (multiple_gap 0 _ ps (Nat.Div0.mod_0_l _) (Nat.Div0.mod_mul (c / ps) ps) H). lia.
  - intros Hnk Hno. set (n := c / ps * ps) in *.
    assert (Hal : ∀ x, aligned ps x → n < klen x → ps ≤ klen (ksuffix n x)).
    { intros x Hx Hlt. rewrite klen_ksuffix. pose proof (multiple_gap n (klen x) ps (Nat.Div0.mod_mul _ _) Hx Hlt). lia. }
    destruct (kslice_mode n (klen k) k) as [Hek Hbk], (kslice_mode n (klen o) o) as [Heo Hbo].
    rewrite child_key_eq by (try split; auto; unfold ksuffix; congruence).
    intros [_ Hpg]. rewrite !units_ksuffix in Hpg.
    assert (Htake : take (n + ps) (units k) = take (n + ps) (units o)).
    { rewrite <-!(take_take_drop _ n ps), Hpg. f_equal.
      apply common_prefix_take; rewrite ?length_units; fold c; lia. }
    apply common_prefix_take in Htake; [fold c in Htake; lia|rewrite length_units..].
    + specialize (Hal k Hk Hnk). rewrite klen_ksuffix in Hal. lia.
    + specialize (Hal o Ho Hno). rewrite klen_ksuffix in Hal. lia.
Qed.

Lemma match_split_spec_witness :
  let k := mkKey [1; 2; 3; 4; 5; 6; 7]%Z (Some "lora"%string) true in
  let o := mkKey [1; 2; 3; 4; 5; 9; 7]%Z (Some "lora"%string) true in
  aligned 2 k ∧ kmatch 2 k o = Ok 4 ∧
  ∃ n, kmatch 2 k o = Ok n ∧ units (kprefix n k) = units (kprefix n o).
Proof.
  intros k o. split; [reflexivity|]. split; [vm_compute; reflexivity|].
  destruct (match_split_spec 2 k o ltac:(lia) eq_refl eq_refl eq_refl eq_refl)
    as (n & H1 & _ & _ & _ & H2 & _). exists n. split; [exact H1|exact H2].
Defined.

(** On keys that are not page-aligned the page loop counts a last short page in
    full, past the end of both keys. *)
Example match_overruns :
  let k := mkKey [1; 2; 3]%Z None false in klen k = 3 ∧ kmatch 2 k k = Ok 4.
Proof. vm_compute. done. Qed.
