(* ===== verification/RadixCache.v ===== *)
(** The radix tree of cached prefixes ([mem_cache/radix_cache.py]) and its
    eviction policies ([mem_cache/evict_policy.py]).

    Tree nodes are objects with identity: they live in a heap indexed by
    [TreeNode.id], children and parent are references.  [time.monotonic()] is an
    environment stream [monotonic], one reading per call.  The tree never stores a
    node without a value, so [evicted] is false throughout; host copies, page
    hashes and KV events belong to other caches and are not part of the state.
    A node removed from the tree is removed from the heap. *)

From S2P Require Import Prelude RadixKey.

Open Scope Z_scope.

(** * Nodes and eviction policies *)

Record TreeNode := mkNode {
  children : odict ChildKey nat;
  parent : option nat;
  key : RadixKey;
  value : list Z;
  lock_ref : Z;
  last_access_time : Z;
  creation_time : Z;
  hit_count : Z;
  priority : Z;
}.

Inductive EvictionStrategy :=
  | LRUStrategy
  | LFUStrategy
  | FIFOStrategy
  | MRUStrategy
  | FILOStrategy
  | PriorityStrategy
  | SLRUStrategy (protected_threshold : Z).

(** A priority is a number or a tuple of numbers: a list, compared
    lexicographically. *)
Definition get_priority (s : EvictionStrategy) (n : TreeNode) : list Z :=
  match s with
  | LRUStrategy => [last_access_time n]
  | LFUStrategy => [hit_count n; last_access_time n]
  | FIFOStrategy => [creation_time n]
  | MRUStrategy => [- last_access_time n]
  | FILOStrategy => [- creation_time n]
  | PriorityStrategy => [priority n; last_access_time n]
  | SLRUStrategy th => [if bool_decide (th ≤ hit_count n) then 1 else 0; last_access_time n]
  end.

(** The policy names the constructor accepts. *)
Definition strategy_of (policy : string) : result EvictionStrategy :=
  if decide (policy = "lru"%string) then Ok LRUStrategy
  else if decide (policy = "lfu"%string) then Ok LFUStrategy
  else if decide (policy = "fifo"%string) then Ok FIFOStrategy
  else if decide (policy = "mru"%string) then Ok MRUStrategy
  else if decide (policy = "filo"%string) then Ok FILOStrategy
  else if decide (policy = "priority"%string) then Ok PriorityStrategy
  else if decide (policy = "slru"%string) then Ok (SLRUStrategy 2)
  else Raise ValueError.

Fixpoint lex_lt (l k : list Z) : bool :=
  match l, k with
  | [], _ :: _ => true
  | x :: l, y :: k => if decide (x = y) then lex_lt l k else bool_decide (x < y)
  | _, [] => false
  end.

(** Entries [(priority, node)] of the eviction heap; equal priorities fall back on
    [TreeNode.__lt__], the access times. *)
Definition Entry : Type := list Z * Z * nat.

Definition entry_lt (a b : Entry) : bool := lex_lt (a.1.1 ++ [a.1.2]) (b.1.1 ++ [b.1.2]).

(** [heappop]: remove a least entry (the first of equal ones). *)
Fixpoint heappop (h : list Entry) : option (Entry * list Entry) :=
  match h with
  | [] => None
  | e :: h =>
      match heappop h with
      | None => Some (e, [])
      | Some (m, r) => if entry_lt m e then Some (m, e :: r) else Some (e, h)
      end
  end.

(** * The cache *)

Record RadixCache := mkCache {
  heap : gmap nat TreeNode;
  root_node : nat;
  counter : nat;
  ticks : nat;
  evictable_size_ : Z;
  protected_size_ : Z;
  evictable_leaves : gset nat;
}.

Definition set_heap (h : gmap nat TreeNode) (c : RadixCache) : RadixCache :=
  mkCache h (root_node c) (counter c) (ticks c) (evictable_size_ c) (protected_size_ c) (evictable_leaves c).

Definition set_leaves (s : gset nat) (c : RadixCache) : RadixCache :=
  mkCache (heap c) (root_node c) (counter c) (ticks c) (evictable_size_ c) (protected_size_ c) s.

Definition add_sizes (de dp : Z) (c : RadixCache) : RadixCache :=
  mkCache (heap c) (root_node c) (counter c) (ticks c) (evictable_size_ c + de) (protected_size_ c + dp)
    (evictable_leaves c).

Definition set_node (i : nat) (n : TreeNode) (c : RadixCache) : RadixCache := set_heap (<[i := n]> (heap c)) c.

(** Dereferencing; a reference that is not an object of the tree has no
    attributes. *)
Definition node_at (c : RadixCache) (i : nat) : result TreeNode :=
  match heap c !! i with Some n => Ok n | None => Raise AttributeError end.

Definition parent_of (n : TreeNode) : result nat :=
  match parent n with Some p => Ok p | None => Raise AttributeError end.

(** Field updates. *)
Definition with_children (ch : odict ChildKey nat) (n : TreeNode) : TreeNode :=
  mkNode ch (parent n) (key n) (value n) (lock_ref n) (last_access_time n) (creation_time n) (hit_count n) (priority n).
Definition with_access (t : Z) (n : TreeNode) : TreeNode :=
  mkNode (children n) (parent n) (key n) (value n) (lock_ref n) t (creation_time n) (hit_count n) (priority n).
Definition with_priority (q : Z) (n : TreeNode) : TreeNode :=
  mkNode (children n) (parent n) (key n) (value n) (lock_ref n) (last_access_time n) (creation_time n) (hit_count n) q.
Definition with_lock (l : Z) (n : TreeNode) : TreeNode :=
  mkNode (children n) (parent n) (key n) (value n) l (last_access_time n) (creation_time n) (hit_count n) (priority n).

(** [_inc_hit_count]. *)
Definition inc_hit_count (chunked : bool) (n : TreeNode) : TreeNode :=
  if chunked then n
  else mkNode (children n) (parent n) (key n) (value n) (lock_ref n) (last_access_time n) (creation_time n)
         (hit_count n + 1) (priority n).

Section cache.
Context (page_size : nat) (disable is_eagle : bool) (strategy : EvictionStrategy) (monotonic : nat → Z).

(** One reading of the clock. *)
Definition now (c : RadixCache) : RadixCache * Z :=
  (mkCache (heap c) (root_node c) (counter c) (S (ticks c)) (evictable_size_ c) (protected_size_ c)
     (evictable_leaves c), monotonic (ticks c)).

(** [TreeNode(...)] followed by the assignments of its fields: a new object at the
    next id, its access and creation times read one after the other. *)
Definition new_node (mk : Z → Z → TreeNode) (c : RadixCache) : RadixCache * nat :=
  (mkCache (<[counter c := mk (monotonic (ticks c)) (monotonic (S (ticks c)))]> (heap c)) (root_node c)
     (S (counter c)) (S (S (ticks c))) (evictable_size_ c) (protected_size_ c) (evictable_leaves c), counter c).

Definition maxsize : Z := 2 ^ 63 - 1.

Definition reset (c : RadixCache) : RadixCache :=
  let '(c1, r) := new_node (fun la cr => mkNode [] None (mkKey [] None false) [] 1 la cr 0 (- maxsize))
                    (mkCache ∅ (root_node c) (counter c) (ticks c) 0 0 ∅) in
  mkCache (heap c1) r (counter c1) (ticks c1) 0 0 ∅.

Definition new_cache : RadixCache := reset (mkCache ∅ 0 0 0 0 0 ∅).

(** [_update_leaf_status]. *)
Definition update_leaf_status (i : nat) (c : RadixCache) : result RadixCache :=
  do! n <- node_at c i;
  if bool_decide (0 < lock_ref n) then Ok (set_leaves (evictable_leaves c ∖ {[i]}) c)
  else match children n with
       | _ :: _ => Ok (set_leaves (evictable_leaves c ∖ {[i]}) c)
       | [] => Ok (set_leaves (evictable_leaves c ∪ {[i]}) c)
       end.

(** [_split_node]. *)
Definition split_node (k : RadixKey) (ci : nat) (split_len : nat) (c : RadixCache) : result (RadixCache * nat) :=
  do! child <- node_at c ci;
  do! ck_child <- child_key page_size (ksuffix split_len k);
  let '(c1, ni) := new_node (fun la cr =>
    mkNode [(ck_child, ci)] (parent child) (kprefix split_len (key child)) (take split_len (value child))
      (lock_ref child) la cr (hit_count child) (priority child)) c in
  let c2 := set_node ci (mkNode (children child) (Some ni) (ksuffix split_len (key child))
                           (drop split_len (value child)) (lock_ref child) (last_access_time child)
                           (creation_time child) (hit_count child) (priority child)) c1 in
  do! pi <- parent_of child;
  do! pn <- node_at c2 pi;
  do! ck <- child_key page_size k;
  Ok (set_node pi (with_children (od_set ck ni (children pn)) pn) c2, ni).

(** The loop of [_match_prefix_helper]; every iteration consumes a page of [k] or
    ends, so [fuel] above the key length never runs out. *)
Fixpoint match_loop (fuel : nat) (access_time : Z) (i : nat) (k : RadixKey) (vals : list (list Z))
    (c : RadixCache) : result (RadixCache * list (list Z) * nat) :=
  match fuel with
  | O => Raise RuntimeError
  | S fuel =>
      if decide (klen k = 0)%nat then Ok (c, vals, i)
      else
        do! ck <- child_key page_size k;
        do! n <- node_at c i;
        match od_get ck (children n) with
        | None => Ok (c, vals, i)
        | Some ci =>
            do! child <- node_at c ci;
            let child := with_access access_time child in
            let c1 := set_node ci child c in
            do! prefix_len <- kmatch page_size (key child) k;
            if decide (prefix_len < klen (key child))%nat then
              do! r <- split_node (key child) ci prefix_len c1;
              do! nn <- node_at r.1 r.2;
              Ok (r.1, vals ++ [value nn], r.2)
            else match_loop fuel access_time ci (ksuffix prefix_len k) (vals ++ [value child]) c1
        end
  end.

(** [_match_prefix_helper] from the root. *)
Definition match_prefix_helper (i : nat) (k : RadixKey) (c : RadixCache)
  : result (RadixCache * list (list Z) * nat) :=
  let '(c1, t) := now c in
  do! n <- node_at c1 i;
  match_loop (S (klen k)) t i k [] (set_node i (with_access t n) c1).

(** [match_prefix]: the device indices and the last node. *)
Definition match_prefix (k : RadixKey) (c : RadixCache) : result (RadixCache * list Z * nat) :=
  let k := (maybe_to_bigram_view is_eagle k None).1 in
  if disable || bool_decide (klen k = 0%nat) then Ok (c, [], root_node c)
  else
    let k := page_aligned page_size k in
    if decide (klen k = 0%nat) then Ok (c, [], root_node c)
    else do! r <- match_prefix_helper (root_node c) k c; Ok (r.1.1, concat r.1.2, r.2).

(** The loop of [_insert_helper]: the node reached, the rest of key and value,
    the total prefix length. *)
Fixpoint insert_loop (fuel : nat) (access_time prio : Z) (chunked : bool) (i : nat) (k : RadixKey) (v : list Z)
    (total : nat) (c : RadixCache) : result (RadixCache * nat * RadixKey * list Z * nat) :=
  match fuel with
  | O => Raise RuntimeError
  | S fuel =>
      if decide (klen k = 0)%nat then Ok (c, i, k, v, total)
      else
        do! ck <- child_key page_size k;
        do! n <- node_at c i;
        match od_get ck (children n) with
        | None => Ok (c, i, k, v, total)
        | Some ci =>
            do! child <- node_at c ci;
            let child := with_access access_time child in
            let c1 := set_node ci child c in
            do! prefix_len <- kmatch page_size (key child) k;
            let total := (total + prefix_len)%nat in
            let k := ksuffix prefix_len k in
            let v := drop prefix_len v in
            if decide (prefix_len < klen (key child))%nat then
              do! r <- split_node (key child) ci prefix_len c1;
              do! nn <- node_at r.1 r.2;
              let nn := inc_hit_count chunked (with_priority (priority nn `max` prio) nn) in
              insert_loop fuel access_time prio chunked r.2 k v total (set_node r.2 nn r.1)
            else
              let child := inc_hit_count chunked (with_priority (priority child `max` prio) child) in
              insert_loop fuel access_time prio chunked ci k v total (set_node ci child c1)
        end
  end.

(** The end of [_insert_helper]: the rest of the key becomes a new leaf. *)
Definition add_leaf (prio : Z) (chunked : bool) (i : nat) (k : RadixKey) (v : list Z) (c : RadixCache)
  : result RadixCache :=
  if decide (klen k = 0)%nat then Ok c
  else
    do! ck <- child_key page_size k;
    let '(c1, ni) := new_node (fun la cr => inc_hit_count chunked (mkNode [] (Some i) k v 0 la cr 0 prio)) c in
    do! n <- node_at c1 i;
    let c2 := set_node i (with_children (od_set ck ni (children n)) n) c1 in
    let c3 := add_sizes (Z.of_nat (klen k)) 0 c2 in
    do! c4 <- update_leaf_status i c3;
    update_leaf_status ni c4.

(** [_insert_helper]. *)
Definition insert_helper (i : nat) (k : RadixKey) (v : list Z) (prio : Z) (chunked : bool) (c : RadixCache)
  : result (RadixCache * nat) :=
  let '(c1, t) := now c in
  do! n <- node_at c1 i;
  let c2 := set_node i (with_priority (priority n `max` prio) (with_access t n)) c1 in
  if decide (klen k = 0)%nat then Ok (c2, 0%nat)
  else
    do! r <- insert_loop (S (klen k)) t prio chunked i k v 0 c2;
    let '(c3, j, k', v', total) := r in
    do! c4 <- add_leaf prio chunked j k' v' c3;
    Ok (c4, total).

(** [insert]. *)
Definition insert (k : RadixKey) (v : option (list Z)) (prio : Z) (chunked : bool) (c : RadixCache)
  : result (RadixCache * nat) :=
  if disable then Ok (c, 0%nat)
  else
    let '(k, v) := maybe_to_bigram_view is_eagle k v in
    let k := page_aligned page_size k in
    let v := match v with Some v => take (klen k) v | None => take (klen k) (token_ids k) end in
    insert_helper (root_node c) k v prio chunked c.

(** The loops of [inc_lock_ref] and [dec_lock_ref], from a node to the root. *)
Fixpoint inc_loop (fuel : nat) (i : nat) (delta : Z) (c : RadixCache) : result (RadixCache * Z) :=
  match fuel with
  | O => Raise RuntimeError
  | S fuel =>
      if decide (i = root_node c) then Ok (c, delta)
      else
        do! n <- node_at c i;
        let len := Z.of_nat (klen (key n)) in
        let '(c1, delta) := if bool_decide (lock_ref n = 0) then (add_sizes (- len) len c, delta - len)
                            else (c, delta) in
        let c2 := set_node i (with_lock (lock_ref n + 1) n) c1 in
        do! c3 <- update_leaf_status i c2;
        do! p <- parent_of n;
        inc_loop fuel p delta c3
  end.

Fixpoint dec_loop (fuel : nat) (i : nat) (delta : Z) (c : RadixCache) : result (RadixCache * Z) :=
  match fuel with
  | O => Raise RuntimeError
  | S fuel =>
      if decide (i = root_node c) then Ok (c, delta)
      else
        do! n <- node_at c i;
        let len := Z.of_nat (klen (key n)) in
        let '(c1, delta) := if bool_decide (lock_ref n = 1) then (add_sizes len (- len) c, delta + len)
                            else (c, delta) in
        let c2 := set_node i (with_lock (lock_ref n - 1) n) c1 in
        do! c3 <- update_leaf_status i c2;
        match parent n with
        | None => Raise AssertionError
        | Some p => dec_loop fuel p delta c3
        end
  end.

Definition inc_lock_ref (i : nat) (c : RadixCache) : result (RadixCache * Z) :=
  if disable then Ok (c, 0) else inc_loop (S (size (heap c))) i 0 c.

Definition dec_lock_ref (i : nat) (c : RadixCache) : result (RadixCache * Z) :=
  if disable then Ok (c, 0) else dec_loop (S (size (heap c))) i 0 c.

(** [_delete_leaf]. *)
Definition delete_leaf (i : nat) (c : RadixCache) : result RadixCache :=
  do! n <- node_at c i;
  do! ck <- child_key page_size (key n);
  do! p <- parent_of n;
  do! pn <- node_at c p;
  if bool_decide (od_get ck (children pn) = Some i) then
    let c1 := set_node p (with_children (od_del ck (children pn)) pn) c in
    let c2 := add_sizes (- Z.of_nat (klen (key n))) 0 c1 in
    let c3 := set_leaves (evictable_leaves c2 ∖ {[i]}) c2 in
    do! c4 <- update_leaf_status p c3;
    Ok (set_heap (delete i (heap c4)) c4)
  else Raise AssertionError.

Definition entry (c : RadixCache) (i : nat) : option Entry :=
  (fun n => (get_priority strategy n, last_access_time n, i)) <$> (heap c !! i).

(** The loop of [evict]; the values handed to the allocator are collected. *)
Fixpoint evict_loop (fuel : nat) (num_tokens num_evicted : Z) (h : list Entry) (freed : list (list Z))
    (c : RadixCache) : result (RadixCache * Z * list (list Z)) :=
  if decide (num_tokens ≤ num_evicted) then Ok (c, num_evicted, freed)
  else
    match heappop h with
    | None => Ok (c, num_evicted, freed)
    | Some ((_, _, x), h') =>
        match fuel with
        | O => Raise RuntimeError
        | S fuel =>
            do! n <- node_at c x;
            let freed := freed ++ [value n] in
            let num_evicted := num_evicted + Z.of_nat (length (value n)) in
            do! p <- parent_of n;
            do! c1 <- delete_leaf x c;
            do! pn <- node_at c1 p;
            let h'' := match children pn with
                       | [] => if bool_decide (lock_ref pn = 0)
                               then h' ++ [(get_priority strategy pn, last_access_time pn, p)] else h'
                       | _ => h'
                       end in
            evict_loop fuel num_tokens num_evicted h'' freed c1
        end
    end.

(** [evict]: the tokens evicted and the values freed, in order. *)
Definition evict (num_tokens : Z) (c : RadixCache) : result (RadixCache * Z * list (list Z)) :=
  if disable then Ok (c, 0, [])
  else evict_loop (size (heap c)) num_tokens 0 (omap (entry c) (elements (evictable_leaves c))) [] c.

End cache.

Definition evictable_size (c : RadixCache) : Z := evictable_size_ c.
Definition protected_size (c : RadixCache) : Z := protected_size_ c.

(** * Sums over the heap *)

Definition hsum (f : nat → TreeNode → Z) (H : gmap nat TreeNode) : Z :=
  map_fold (fun i n acc => f i n + acc) 0 H.

Lemma hsum_empty f : hsum f ∅ = 0.
Proof. apply map_fold_empty. Qed.

Lemma hsum_insert f H i n : H !! i = None → hsum f (<[i := n]> H) = f i n + hsum f H.
Proof. intros Hi. unfold hsum. rewrite map_fold_insert_L; [done| |done]. intros. lia. Qed.

Lemma hsum_delete f H i n : H !! i = Some n → hsum f (delete i H) = hsum f H - f i n.
Proof.
  intros Hi. assert (Hd : hsum f H = f i n + hsum f (delete i H)); [|lia].
  rewrite <-(hsum_insert f (delete i H) i n) by apply lookup_delete_eq. by rewrite insert_delete_id.
Qed.

Lemma hsum_update f H i n n' : H !! i = Some n → hsum f (<[i := n']> H) = hsum f H - f i n + f i n'.
Proof.
  intros Hi. rewrite <-insert_delete_eq, hsum_insert by apply lookup_delete_eq.
  rewrite (hsum_delete f H i n Hi). lia.
Qed.

Lemma hsum_ext f g H : (∀ i n, H !! i = Some n → f i n = g i n) → hsum f H = hsum g H.
Proof.
  induction H as [|i n H Hi IH] using map_ind; intros Hfg; [done|].
  rewrite !hsum_insert by done. rewrite (Hfg i n) by apply lookup_insert_eq. f_equal.
  apply IH. intros j m Hj. apply Hfg. rewrite lookup_insert_ne; [done|]. intros ->. congruence.
Qed.

Lemma hsum_nonneg f H : (∀ i n, H !! i = Some n → 0 ≤ f i n) → 0 ≤ hsum f H.
Proof.
  induction H as [|i n H Hi IH] using map_ind; intros Hf; [done|].
  rewrite hsum_insert by done. pose proof (Hf i n (lookup_insert_eq _ _ _)).
  assert (0 ≤ hsum f H); [|lia]. apply IH. intros j m Hj. apply Hf.
  rewrite lookup_insert_ne; [done|]. intros ->. congruence.
Qed.

Lemma hsum_zero f H : (∀ i n, H !! i = Some n → f i n = 0) → hsum f H = 0.
Proof.
  intros Hf. rewrite (hsum_ext f (fun _ _ => 0)) by done. clear.
  induction H as [|x y H Hx IH] using map_ind; [done|]. rewrite hsum_insert by done. lia.
Qed.

Lemma hsum_imap f (g : nat → TreeNode → TreeNode) H :
  (∀ i n, f i (g i n) = f i n) → hsum f (map_imap (fun i n => Some (g i n)) H) = hsum f H.
Proof.
  intros Hfg. induction H as [|i n H Hi IH] using map_ind; [done|].
  rewrite map_imap_insert_Some with (y := g i n) by done. rewrite !hsum_insert; [|done|by rewrite map_lookup_imap, Hi].
  by rewrite Hfg, IH.
Qed.

(** A member contributes at most the sum. *)
Lemma hsum_member f H i n :
  (∀ j m, H !! j = Some m → 0 ≤ f j m) → H !! i = Some n → f i n ≤ hsum f H.
Proof.
  intros Hf Hi. pose proof (hsum_delete f H i n Hi).
  assert (0 ≤ hsum f (delete i H)); [|lia]. apply hsum_nonneg. intros j m [_ Hj]%lookup_delete_Some. auto.
Qed.

(** * The invariant *)

Section invariant.
Context (page_size : nat) (is_eagle : bool).

(** The references from a node up to the root. *)
Inductive path (H : gmap nat TreeNode) (root : nat) : nat → list nat → Prop :=
  | path_root : path H root root []
  | path_up i n p l : i ≠ root → H !! i = Some n → parent n = Some p → path H root p l → path H root i (i :: l).

(** Keys are non-empty, made of whole pages, one value per unit. *)
Definition key_ok (n : TreeNode) : Prop :=
  (0 < klen (key n))%nat ∧ aligned page_size (key n) ∧ is_bigram (key n) = is_eagle ∧
  length (value n) = klen (key n).

(** The heap is a tree: parent and child references agree, children are filed
    under their dictionary keys. *)
Record tree_ok (H : gmap nat TreeNode) (root cnt : nat) : Prop := {
  ok_root : ∃ r, H !! root = Some r ∧ parent r = None ∧ 0 < lock_ref r ∧ value r = [];
  ok_id : ∀ i n, H !! i = Some n → (i < cnt)%nat;
  ok_child : ∀ i n ck j, H !! i = Some n → od_get ck (children n) = Some j →
    ∃ m, H !! j = Some m ∧ parent m = Some i ∧ child_key page_size (key m) = Ok ck;
  ok_nodup : ∀ i n, H !! i = Some n → NoDup (od_keys (children n));
  ok_parent : ∀ i n, H !! i = Some n → i ≠ root →
    ∃ p pn ck, parent n = Some p ∧ H !! p = Some pn ∧ child_key page_size (key n) = Ok ck ∧
      od_get ck (children pn) = Some i;
  ok_key : ∀ i n, H !! i = Some n → i ≠ root → key_ok n;
  ok_reach : ∀ i n, H !! i = Some n → ∃ l, path H root i l;
}.

(** The lock counts of the children of [i], added up. *)
Definition child_locks (H : gmap nat TreeNode) (i : nat) : Z :=
  hsum (fun _ m => if decide (parent m = Some i) then lock_ref m else 0) H.

(** Locks: a node carries the locks of its children besides its own. *)
Definition locks_ok (H : gmap nat TreeNode) (root : nat) : Prop :=
  (∀ i n, H !! i = Some n → 0 ≤ lock_ref n) ∧
  (∀ i n, H !! i = Some n → i ≠ root → child_locks H i ≤ lock_ref n).

(** The size of the nodes that satisfy [P]. *)
Definition size_of (root : nat) (unlocked : bool) (i : nat) (n : TreeNode) : Z :=
  if decide (i = root) then 0
  else if bool_decide (lock_ref n = 0) then if unlocked then Z.of_nat (klen (key n)) else 0
  else if unlocked then 0 else Z.of_nat (klen (key n)).

Definition is_leaf (H : gmap nat TreeNode) (i : nat) : Prop :=
  ∃ n, H !! i = Some n ∧ lock_ref n = 0 ∧ children n = [].

(** The counters and the leaf set describe the heap. *)
Definition books_ok (H : gmap nat TreeNode) (root : nat) (ev pr : Z) (lv : gset nat) : Prop :=
  ev = hsum (size_of root true) H ∧ pr = hsum (size_of root false) H ∧ (∀ i, i ∈ lv ↔ is_leaf H i).

(** How often a slot occurs in a list, and among the values of the nodes. *)
Definition count (x : Z) (l : list Z) : Z := Z.of_nat (length (filter (fun y => y = x) l)).

Definition slots (x : Z) (H : gmap nat TreeNode) : Z := hsum (fun _ n => count x (value n)) H.

(** Times, hit counts and priorities play no part. *)
Definition norm (n : TreeNode) : TreeNode :=
  mkNode (children n) (parent n) (key n) (value n) (lock_ref n) 0 0 0 0.

Definition nheap (c : RadixCache) : gmap nat TreeNode := norm <$> heap c.

Definition wf (c : RadixCache) : Prop :=
  tree_ok (nheap c) (root_node c) (counter c) ∧ locks_ok (nheap c) (root_node c) ∧
  books_ok (nheap c) (root_node c) (evictable_size_ c) (protected_size_ c) (evictable_leaves c).

Lemma count_app x l k : count x (l ++ k) = count x l + count x k.
Proof. unfold count. rewrite filter_app, length_app. lia. Qed.

Lemma count_perm x l k : l ≡ₚ k → count x l = count x k.
Proof. intros Hp. unfold count. by rewrite Hp. Qed.

(** ** Paths *)

Lemma path_det H root i l l' : path H root i l → path H root i l' → l = l'.
Proof.
  intros Hp. revert l'. induction Hp as [|i n p l Hi Hn Hpar _ IH]; intros l' Hq.
  - inversion Hq; [done|congruence].
  - inversion Hq; [congruence|]. simplify_eq. f_equal. auto.
Qed.

Lemma path_suffix H root i l j : path H root i l → j ∈ l → ∃ l', path H root j l' ∧ (length l' ≤ length l)%nat.
Proof.
  induction 1 as [|i n p l Hi Hn Hpar Hp IH]; intros Hj; [by apply not_elem_of_nil in Hj|].
  apply elem_of_cons in Hj as [->|Hj].
  - exists (i :: l). split; [by econstructor|done].
  - destruct (IH Hj) as (l' & ? & ?). exists l'. split; [done|simpl; lia].
Qed.

Lemma path_NoDup H root i l : path H root i l → NoDup l ∧ ∀ j, j ∈ l → is_Some (H !! j).
Proof.
  induction 1 as [|i n p l Hi Hn Hpar Hp [IH1 IH2]]; [split; [constructor|]; by intros ? ?%not_elem_of_nil|].
  split.
  - constructor; [|done]. intros Hin. destruct (path_suffix _ _ _ _ _ Hp Hin) as (l' & Hl' & Hlen).
    assert (Hq : path H root i (i :: l)) by (by econstructor).
    rewrite (path_det _ _ _ _ _ Hl' Hq) in Hlen. simpl in Hlen. lia.
  - intros j [->|Hj]%elem_of_cons; eauto.
Qed.

Lemma path_length H root i l : path H root i l → (length l ≤ size H)%nat.
Proof.
  intros [Hnd Hin]%path_NoDup. rewrite <-size_dom. rewrite <-(size_list_to_set (C := gset nat) l) by done.
  apply subseteq_size. intros j. rewrite elem_of_list_to_set, elem_of_dom. apply Hin.
Qed.

(** ** Adding a leaf *)

(** Nodes keep all fields but their children. *)
Definition same_data (m m' : TreeNode) : Prop :=
  parent m' = parent m ∧ key m' = key m ∧ value m' = value m ∧ lock_ref m' = lock_ref m.

Definition data_sub (H H' : gmap nat TreeNode) : Prop :=
  ∀ x m, H !! x = Some m → ∃ m', H' !! x = Some m' ∧ same_data m m'.

Lemma path_data_sub H H' root i l : data_sub H H' → path H root i l → path H' root i l.
Proof.
  intros Hs. induction 1 as [|i n p l Hi Hn Hpar _ IH]; [constructor|].
  destruct (Hs i n Hn) as (n' & Hn' & Hp' & _). econstructor; [done|done| |done]. congruence.
Qed.

Definition leaf_node (i : nat) (k : RadixKey) (v : list Z) : TreeNode := mkNode [] (Some i) k v 0 0 0 0 0.

Lemma add_data_sub H i n ch j m :
  H !! i = Some n → H !! j = None → data_sub H (<[i := with_children ch n]> (<[j := m]> H)).
Proof.
  intros Hi Hj x y Hx. destruct (decide (x = i)) as [->|Hne].
  - exists (with_children ch n). simplify_map_eq. done.
  - exists y. assert (x ≠ j) by congruence. by simplify_map_eq.
Qed.

Section add.
Context (H : gmap nat TreeNode) (root cnt i : nat) (n : TreeNode) (k : RadixKey) (v : list Z) (ck : ChildKey).
Hypothesis HT : tree_ok H root cnt.
Hypothesis Hi : H !! i = Some n.
Hypothesis Hck : child_key page_size k = Ok ck.
Hypothesis Hfree : od_get ck (children n) = None.
Hypothesis Hk : key_ok (leaf_node i k v).

#[local] Notation n' := (with_children (od_set ck cnt (children n)) n).
#[local] Notation H' := (<[i := n']> (<[cnt := leaf_node i k v]> H)).

Lemma cnt_fresh : H !! cnt = None.
Proof using HT.
  destruct (H !! cnt) as [m|] eqn:E; [|done]. apply (ok_id _ _ _ HT) in E. lia.
Qed.

Lemma add_lookup j m :
  H' !! j = Some m →
  (j = i ∧ m = n') ∨ (j = cnt ∧ j ≠ i ∧ m = leaf_node i k v) ∨ (j ≠ i ∧ j ≠ cnt ∧ H !! j = Some m).
Proof using HT Hi.
  intros [[<- <-]|[Hne [[<- <-]|[Hne' Hj]]%lookup_insert_Some]]%lookup_insert_Some; naive_solver.
Qed.

Lemma tree_add : tree_ok H' root (S cnt).
Proof using All.
  pose proof cnt_fresh as Hc. pose proof (add_data_sub H i n (od_set ck cnt (children n)) cnt (leaf_node i k v) Hi Hc) as Hs.
  assert (Hic : i ≠ cnt) by congruence.
  assert (Hcnt : H' !! cnt = Some (leaf_node i k v)) by (by simplify_map_eq).
  assert (Hold : ∀ x m, H !! x = Some m → ∃ m', H' !! x = Some m' ∧ same_data m m') by exact Hs.
  assert (Hroot : root ≠ cnt) by (destruct (ok_root _ _ _ HT) as (r & Hr & _); congruence).
  split.
  - destruct (ok_root _ _ _ HT) as (r & Hr & Hp & Hl). destruct (Hold _ _ Hr) as (r' & Hr' & Hsd).
    exists r'. destruct Hsd as (-> & _ & -> & ->). done.
  - intros j m [(-> & _)|[(-> & _)|(_ & _ & Hj)]]%add_lookup; [apply (ok_id _ _ _ HT) in Hi; lia|lia|].
    apply (ok_id _ _ _ HT) in Hj. lia.
  - assert (Hch : ∀ j m c x, H !! j = Some m → od_get c (children m) = Some x →
      ∃ y, H' !! x = Some y ∧ parent y = Some j ∧ child_key page_size (key y) = Ok c).
    { intros j m c x Hj Hx. destruct (ok_child _ _ _ HT _ _ _ _ Hj Hx) as (y & Hy & Hp & Hyk).
      destruct (Hold _ _ Hy) as (y' & Hy' & Ep & Ek & _). exists y'. rewrite Ep, Ek. done. }
    intros j m c x [(-> & ->)|[(-> & _ & ->)|(_ & _ & Hj)]]%add_lookup Hx; [|done|by eapply Hch].
    simpl in Hx. rewrite od_get_set in Hx. case_decide; [simplify_eq|by eapply Hch]. eauto.
  - intros j m [(-> & ->)|[(-> & _ & ->)|(_ & _ & Hj)]]%add_lookup; simpl.
    + eauto using ok_nodup with redknot.
    + constructor.
    + by eapply (ok_nodup _ _ _ HT).
  - assert (Hpar : ∀ j m, H !! j = Some m → j ≠ root → ∃ p pn c, parent m = Some p ∧ H' !! p = Some pn ∧
      child_key page_size (key m) = Ok c ∧ od_get c (children pn) = Some j).
    { intros j m Hj Hjr. destruct (ok_parent _ _ _ HT _ _ Hj Hjr) as (p & pn & c & Hp & Hpn & Hc' & Hg).
      destruct (decide (p = i)) as [->|Hpi].
      - exists i, n', c. assert (pn = n) as -> by congruence. simplify_map_eq. split_and!; try done.
        simpl. rewrite od_get_set, decide_False by congruence. done.
      - exists p, pn, c. assert (p ≠ cnt) by congruence. by simplify_map_eq. }
    intros j m [(-> & ->)|[(-> & _ & ->)|(_ & _ & Hj)]]%add_lookup Hjr.
    + destruct (Hpar _ _ Hi Hjr) as (p & pn & c & ? & ? & ? & ?). eauto 10.
    + exists i, n', ck. simplify_map_eq. split_and!; try done. simpl. by rewrite od_get_set, decide_True.
    + by apply Hpar.
  - intros j m [(-> & ->)|[(-> & _ & ->)|(_ & _ & Hj)]]%add_lookup Hjr; [|done|by eapply (ok_key _ _ _ HT)].
    exact (ok_key _ _ _ HT _ _ Hi Hjr).
  - assert (Hre : ∀ j m, H !! j = Some m → ∃ l, path H' root j l).
    { intros j m Hj. destruct (ok_reach _ _ _ HT _ _ Hj) as [l Hl]. exists l. by eapply path_data_sub. }
    intros j m [(-> & ->)|[(-> & _ & ->)|(_ & _ & Hj)]]%add_lookup; [by eapply Hre| |by eapply Hre].
    destruct (Hre _ _ Hi) as [l Hl]. exists (cnt :: l). econstructor; [done|done| |done]. done.
Qed.

Lemma add_hsum f : f i n' = f i n → hsum f H' = hsum f H + f cnt (leaf_node i k v).
Proof using All.
  intros Hf. pose proof cnt_fresh as Hc. assert (Hic : i ≠ cnt) by congruence.
  rewrite (hsum_update _ _ i n), hsum_insert by (by simplify_map_eq). lia.
Qed.

Lemma child_locks_add j : child_locks H' j = child_locks H j.
Proof using All. unfold child_locks. rewrite add_hsum by done. simpl. case_decide; lia. Qed.

Lemma locks_add : locks_ok H root → locks_ok H' root.
Proof using All.
  intros [Hpos Hlk]. pose proof child_locks_add as Hsum. pose proof cnt_fresh as Hc. split.
  - intros j m [(-> & ->)|[(-> & _ & ->)|(_ & _ & Hj)]]%add_lookup; simpl; eauto; lia.
  - intros j m [(-> & ->)|[(-> & _ & ->)|(_ & _ & Hj)]]%add_lookup Hjr; rewrite Hsum; [exact (Hlk _ _ Hi Hjr)| |exact (Hlk _ _ Hj Hjr)].
    unfold child_locks. rewrite hsum_zero; [done|]. intros x y Hx. case_decide as Hp; [|done].
    destruct (ok_parent _ _ _ HT _ _ Hx) as (p & pn & c & Hp' & Hpn & _); [|congruence].
    intros ->. destruct (ok_root _ _ _ HT) as (r & Hr & Hrp & _). congruence.
Qed.

Lemma books_add ev pr lv :
  books_ok H root ev pr lv →
  books_ok H' root (ev + Z.of_nat (klen k)) pr ((lv ∖ {[i]}) ∪ {[cnt]}).
Proof using All.
  intros (-> & -> & Hlv). pose proof cnt_fresh as Hc. assert (Hic : i ≠ cnt) by congruence.
  assert (Hroot : root ≠ cnt) by (destruct (ok_root _ _ _ HT) as (r & Hr & _); congruence).
  split_and!.
  - rewrite add_hsum by done. unfold size_of. simpl. rewrite (decide_False (P := cnt = root)) by done. lia.
  - rewrite add_hsum by done. unfold size_of. simpl. rewrite (decide_False (P := cnt = root)) by done. lia.
  - intros j. rewrite elem_of_union, elem_of_difference, !elem_of_singleton, Hlv. unfold is_leaf.
    destruct (decide (j = i)) as [->|Hji]; [|destruct (decide (j = cnt)) as [->|Hjc]].
    + split; [naive_solver|]. intros (m & Hm & _ & Hch). simplify_map_eq. exfalso.
      assert (Hg : od_get ck (od_set ck cnt (children n)) = Some cnt) by (by rewrite od_get_set, decide_True).
      simpl in Hch. rewrite Hch in Hg. done.
    + split; [|auto]. intros _. exists (leaf_node i k v). by simplify_map_eq.
    + simplify_map_eq. naive_solver.
Qed.

End add.

(** ** Removing a leaf *)

(** [_update_leaf_status] as a function of the heap. *)
Definition leaf_upd (H : gmap nat TreeNode) (i : nat) (lv : gset nat) : gset nat :=
  match H !! i with
  | None => lv
  | Some n => if bool_decide (0 < lock_ref n) then lv ∖ {[i]}
              else match children n with _ :: _ => lv ∖ {[i]} | [] => lv ∪ {[i]} end
  end.

Lemma leaf_upd_ok H i lv :
  (∀ j n, H !! j = Some n → 0 ≤ lock_ref n) → is_Some (H !! i) →
  (∀ j, j ≠ i → j ∈ lv ↔ is_leaf H j) → ∀ j, j ∈ leaf_upd H i lv ↔ is_leaf H j.
Proof.
  intros Hpos [n Hi] Hlv j. unfold leaf_upd. rewrite Hi. specialize (Hpos _ _ Hi).
  destruct (decide (j = i)) as [->|Hj].
  - unfold is_leaf. case_bool_decide; [|destruct (children n) eqn:E].
    + split; [set_solver|]. intros (m & ? & ? & ?). simplify_eq. lia.
    + split; [|set_solver]. intros _. exists n. split_and!; [done|lia|done].
    + split; [set_solver|]. intros (m & ? & ? & ?). simplify_eq. congruence.
  - rewrite <-Hlv by done. case_bool_decide; [set_solver|destruct (children n); set_solver].
Qed.

Section remove.
Context (H : gmap nat TreeNode) (root cnt x p : nat) (n pn : TreeNode) (ck : ChildKey).
Hypothesis HT : tree_ok H root cnt.
Hypothesis Hx : H !! x = Some n.
Hypothesis Hxr : x ≠ root.
Hypothesis Hleaf : children n = [].
Hypothesis Hlock : lock_ref n = 0.
Hypothesis Hpar : parent n = Some p.
Hypothesis Hp : H !! p = Some pn.
Hypothesis Hck : child_key page_size (key n) = Ok ck.
Hypothesis Hg : od_get ck (children pn) = Some x.

#[local] Notation pn' := (with_children (od_del ck (children pn)) pn).
#[local] Notation H' := (delete x (<[p := pn']> H)).

Lemma px_ne : p ≠ x.
Proof using All. intros ->. simplify_eq. by rewrite Hleaf in Hg. Qed.

Lemma no_child_of_leaf j m : H !! j = Some m → j ≠ root → parent m ≠ Some x.
Proof using All.
  intros Hj Hjr Hm. destruct (ok_parent _ _ _ HT _ _ Hj Hjr) as (q & qn & c & Hq & Hqn & _ & Hgq).
  simplify_eq. by rewrite Hleaf in Hgq.
Qed.

Lemma remove_lookup j m :
  H' !! j = Some m → j ≠ x ∧ ((j = p ∧ m = pn') ∨ (j ≠ p ∧ H !! j = Some m)).
Proof using All. intros [Hj [[<- <-]|[Hne Hm]]%lookup_insert_Some]%lookup_delete_Some; eauto. Qed.

Lemma remove_old j m : j ≠ x → H !! j = Some m → ∃ m', H' !! j = Some m' ∧ same_data m m'.
Proof using All.
  intros Hj Hm. rewrite lookup_delete_ne by done. destruct (decide (j = p)) as [->|].
  - exists pn'. simplify_map_eq. done.
  - exists m. by simplify_map_eq.
Qed.

Lemma remove_path j l : path H root j l → j ≠ x → path H' root j l.
Proof using All.
  induction 1 as [|j m q l Hjr Hj Hm _ IH]; intros Hjx; [constructor|].
  destruct (remove_old j m Hjx Hj) as (m' & Hm' & Ep & _). apply (path_up _ _ j m' q); [done|done|congruence|].
  apply IH. intros ->. by apply (no_child_of_leaf j m).
Qed.

Lemma tree_remove : tree_ok H' root cnt.
Proof using All.
  pose proof px_ne as Hpx. split.
  - destruct (ok_root _ _ _ HT) as (r & Hr & Hrp & Hl). destruct (remove_old root r ltac:(done) Hr) as (r' & Hr' & Hsd).
    exists r'. destruct Hsd as (-> & _ & -> & ->). done.
  - intros j m [_ [[-> _]|[_ Hj]]]%remove_lookup; by eapply (ok_id _ _ _ HT).
  - assert (Hch : ∀ j m c y, H !! j = Some m → od_get c (children m) = Some y → ¬ (j = p ∧ c = ck) →
      ∃ z, H' !! y = Some z ∧ parent z = Some j ∧ child_key page_size (key z) = Ok c).
    { intros j m c y Hj Hy Hne. destruct (ok_child _ _ _ HT _ _ _ _ Hj Hy) as (z & Hz & Hzp & Hzk).
      destruct (decide (y = x)) as [->|Hyx]; [destruct Hne; assert (z = n) as -> by congruence; split; congruence|].
      destruct (remove_old y z Hyx Hz) as (z' & Hz' & Ep & Ek & _). exists z'. by rewrite Ep, Ek. }
    intros j m c y [_ [[-> ->]|[Hjp Hj]]]%remove_lookup Hy; [|eapply Hch; [done|done|naive_solver]].
    simpl in Hy. rewrite od_get_del in Hy by (by eapply (ok_nodup _ _ _ HT)). case_decide; [done|].
    eapply Hch; [done|done|naive_solver].
  - intros j m [_ [[-> ->]|[_ Hj]]]%remove_lookup; simpl; [apply od_del_keys|]; by eapply (ok_nodup _ _ _ HT).
  - assert (Hpr : ∀ j m, H !! j = Some m → j ≠ root → j ≠ x → ∃ q qn c, parent m = Some q ∧ H' !! q = Some qn ∧
      child_key page_size (key m) = Ok c ∧ od_get c (children qn) = Some j).
    { intros j m Hj Hjr Hjx. destruct (ok_parent _ _ _ HT _ _ Hj Hjr) as (q & qn & c & Hq & Hqn & Hc & Hgq).
      assert (Hqx : q ≠ x) by (intros ->; by apply (no_child_of_leaf j m)).
      destruct (decide (q = p)) as [->|Hqp].
      - exists p, pn', c. rewrite lookup_delete_ne by done. simplify_map_eq. split_and!; try done.
        simpl. rewrite od_get_del by (by eapply (ok_nodup _ _ _ HT)). rewrite decide_False by congruence. done.
      - exists q, qn, c. rewrite lookup_delete_ne by done. by simplify_map_eq. }
    intros j m [Hjx [[-> ->]|[Hjp Hj]]]%remove_lookup Hjr; [exact (Hpr _ _ Hp Hjr Hjx)|exact (Hpr _ _ Hj Hjr Hjx)].
  - intros j m [Hjx [[-> ->]|[Hjp Hj]]]%remove_lookup Hjr.
    + exact (ok_key _ _ _ HT _ _ Hp Hjr).
    + exact (ok_key _ _ _ HT _ _ Hj Hjr).
  - intros j m [Hjx [[-> ->]|[Hjp Hj]]]%remove_lookup.
    + destruct (ok_reach _ _ _ HT _ _ Hp) as [l Hl]. exists l. by apply remove_path.
    + destruct (ok_reach _ _ _ HT _ _ Hj) as [l Hl]. exists l. by apply remove_path.
Qed.

Lemma remove_hsum f : f p pn' = f p pn → hsum f H' = hsum f H - f x n.
Proof using All.
  intros Hf. pose proof px_ne as Hpx.
  rewrite (hsum_delete _ _ x n) by (by rewrite lookup_insert_ne). rewrite (hsum_update _ _ p pn) by done. lia.
Qed.

Lemma child_locks_remove j : child_locks H' j = child_locks H j.
Proof using All. unfold child_locks. rewrite remove_hsum by done. rewrite Hlock. case_decide; lia. Qed.

Lemma locks_remove : locks_ok H root → locks_ok H' root.
Proof using All.
  intros [Hpos Hlk]. pose proof child_locks_remove as Hsum. split.
  - intros j m [_ [[-> ->]|[_ Hj]]]%remove_lookup; [exact (Hpos _ _ Hp)|by eapply Hpos].
  - intros j m [_ [[-> ->]|[_ Hj]]]%remove_lookup Hjr; rewrite Hsum; [exact (Hlk _ _ Hp Hjr)|exact (Hlk _ _ Hj Hjr)].
Qed.

Lemma books_remove ev pr lv :
  locks_ok H root → books_ok H root ev pr lv →
  books_ok H' root (ev - Z.of_nat (klen (key n))) pr (leaf_upd (<[p := pn']> H) p (lv ∖ {[x]})).
Proof using All.
  intros HL (-> & -> & Hlv). pose proof px_ne as Hpx. pose proof (locks_remove HL) as [Hpos' _].
  split_and!.
  - rewrite remove_hsum by done. unfold size_of. rewrite decide_False, bool_decide_eq_true_2 by done. done.
  - rewrite remove_hsum by done. unfold size_of. rewrite decide_False, bool_decide_eq_true_2 by done. lia.
  - assert (Hsame : leaf_upd (<[p := pn']> H) p (lv ∖ {[x]}) = leaf_upd H' p (lv ∖ {[x]})).
    { unfold leaf_upd. by rewrite lookup_delete_ne. }
    rewrite Hsame. apply leaf_upd_ok; [done|exists pn'; by rewrite lookup_delete_ne, lookup_insert_eq|].
    intros j Hj. rewrite elem_of_difference, elem_of_singleton, Hlv. unfold is_leaf.
    destruct (decide (j = x)) as [->|Hjx].
    + rewrite lookup_delete_eq. naive_solver.
    + rewrite lookup_delete_ne, lookup_insert_ne by done. naive_solver.
Qed.

End remove.

(** ** Changing a lock *)

Section relock.
Context (H : gmap nat TreeNode) (root cnt i : nat) (n : TreeNode) (l : Z).
Hypothesis HT : tree_ok H root cnt.
Hypothesis Hi : H !! i = Some n.
Hypothesis Hir : i ≠ root.

#[local] Notation H' := (<[i := with_lock l n]> H).

Lemma relock_lookup j m :
  H' !! j = Some m → ∃ m0, H !! j = Some m0 ∧ children m = children m0 ∧ parent m = parent m0 ∧ key m = key m0 ∧
    value m = value m0 ∧ lock_ref m = (if decide (j = i) then l else lock_ref m0).
Proof using Hi.
  intros [[<- <-]|[Hne Hj]]%lookup_insert_Some.
  - exists n. by rewrite decide_True.
  - exists m. by rewrite decide_False.
Qed.

Lemma relock_old j m :
  H !! j = Some m → ∃ m', H' !! j = Some m' ∧ children m' = children m ∧ parent m' = parent m ∧ key m' = key m.
Proof using Hi.
  intros Hj. destruct (decide (j = i)) as [->|Hne].
  - exists (with_lock l n). simplify_map_eq. done.
  - exists m. by simplify_map_eq.
Qed.

Lemma relock_path j ps : path H root j ps → path H' root j ps.
Proof using Hi.
  induction 1 as [|j m q ps Hjr Hj Hm _ IH]; [constructor|].
  destruct (relock_old j m Hj) as (m' & Hm' & _ & Ep & _). apply (path_up _ _ j m' q); congruence.
Qed.

Lemma tree_relock : tree_ok H' root cnt.
Proof using HT Hi Hir.
  split.
  - destruct (ok_root _ _ _ HT) as (r & Hr & Hrp & Hl). exists r. by rewrite lookup_insert_ne.
  - intros j m (m0 & Hm0 & _)%relock_lookup. by eapply (ok_id _ _ _ HT).
  - intros j m c x (m0 & Hm0 & -> & _)%relock_lookup Hx.
    destruct (ok_child _ _ _ HT _ _ _ _ Hm0 Hx) as (y & Hy & Hp & Hk).
    destruct (relock_old _ _ Hy) as (y' & Hy' & _ & Ep & Ek). exists y'. by rewrite Ep, Ek.
  - intros j m (m0 & Hm0 & -> & _)%relock_lookup. by eapply (ok_nodup _ _ _ HT).
  - intros j m (m0 & Hm0 & _ & -> & -> & _)%relock_lookup Hjr.
    destruct (ok_parent _ _ _ HT _ _ Hm0 Hjr) as (p & pn & c & Hp & Hpn & Hc & Hg).
    destruct (relock_old _ _ Hpn) as (pn' & Hpn' & Ec & _). exists p, pn', c. by rewrite Ec.
  - intros j m (m0 & Hm0 & _ & _ & Ek & Ev & _)%relock_lookup Hjr. unfold key_ok. rewrite Ek, Ev.
    exact (ok_key _ _ _ HT _ _ Hm0 Hjr).
  - intros j m (m0 & Hm0 & _)%relock_lookup. destruct (ok_reach _ _ _ HT _ _ Hm0) as [ps Hps].
    exists ps. by apply relock_path.
Qed.

Lemma child_locks_relock j :
  child_locks H' j = child_locks H j + (if decide (parent n = Some j) then l - lock_ref n else 0).
Proof using All. unfold child_locks. rewrite (hsum_update _ _ i n) by done. simpl. case_decide; lia. Qed.

Lemma books_relock ev pr lv :
  0 ≤ l → (∀ j m, H !! j = Some m → 0 ≤ lock_ref m) → books_ok H root ev pr lv →
  books_ok H' root (ev - size_of root true i n + size_of root true i (with_lock l n))
    (pr - size_of root false i n + size_of root false i (with_lock l n)) (leaf_upd H' i lv).
Proof using Hi.
  intros Hl Hpos (-> & -> & Hlv). split_and!; [by rewrite (hsum_update _ _ i n)..|].
  apply leaf_upd_ok.
  - intros j m (m0 & Hm0 & _ & _ & _ & _ & ->)%relock_lookup. case_decide; eauto.
  - exists (with_lock l n). apply lookup_insert_eq.
  - intros j Hj. rewrite Hlv. unfold is_leaf. by rewrite lookup_insert_ne.
Qed.

End relock.

(** ** Splitting a node *)

Section split.
Context (H : gmap nat TreeNode) (root cnt ci p sl : nat) (child pn : TreeNode) (ck ck2 : ChildKey).
Hypothesis Hps : (0 < page_size)%nat.
Hypothesis HT : tree_ok H root cnt.
Hypothesis Hc : H !! ci = Some child.
Hypothesis Hcr : ci ≠ root.
Hypothesis Hpar : parent child = Some p.
Hypothesis Hp : H !! p = Some pn.
Hypothesis Hck : child_key page_size (key child) = Ok ck.
Hypothesis Hck2 : child_key page_size (ksuffix sl (key child)) = Ok ck2.
Hypothesis Hsl : (0 < sl < klen (key child))%nat.
Hypothesis Hal : (sl mod page_size = 0)%nat.

Definition upper_half : TreeNode :=
  mkNode [(ck2, ci)] (parent child) (kprefix sl (key child)) (take sl (value child)) (lock_ref child) 0 0 0 0.
Definition lower_half : TreeNode :=
  mkNode (children child) (Some cnt) (ksuffix sl (key child)) (drop sl (value child)) (lock_ref child) 0 0 0 0.

#[local] Notation pn' := (with_children (od_set ck cnt (children pn)) pn).
#[local] Notation H' := (<[p := pn']> (<[ci := lower_half]> (<[cnt := upper_half]> H))).

Lemma split_fresh : H !! cnt = None ∧ cnt ≠ ci ∧ cnt ≠ p ∧ cnt ≠ root ∧ p ≠ ci ∧ od_get ck (children pn) = Some ci.
Proof using All.
  pose proof (cnt_fresh H root cnt HT) as Hf. destruct (ok_root _ _ _ HT) as (r & Hr & _).
  destruct (ok_parent _ _ _ HT _ _ Hc Hcr) as (q & qn & c & Hq & Hqn & Hcc & Hg).
  assert (q = p) as -> by congruence. assert (qn = pn) as -> by congruence.
  split_and!; try congruence. intros ->.
  destruct (ok_reach _ _ _ HT _ _ Hc) as [l Hl].
  assert (∃ l', l = ci :: l' ∧ path H root ci l') as (l' & -> & Hl').
  { remember ci as j eqn:Ej in Hl at 1. destruct Hl as [|j m q l' Hj Hm Hmq Hl']; [done|].
    subst j. exists l'. split; [done|]. by assert (q = ci) as <- by congruence. }
  pose proof (path_det _ _ _ _ _ Hl Hl') as E. apply (f_equal length) in E. simpl in E. lia.
Qed.

Lemma split_lookup j m :
  H' !! j = Some m →
  (j = p ∧ m = pn') ∨ (j = ci ∧ m = lower_half) ∨ (j = cnt ∧ m = upper_half) ∨
  (j ≠ p ∧ j ≠ ci ∧ j ≠ cnt ∧ H !! j = Some m).
Proof using All.
  intros [[<- <-]|[? [[<- <-]|[? [[<- <-]|[? Hj]]%lookup_insert_Some]]%lookup_insert_Some]]%lookup_insert_Some; naive_solver.
Qed.

Lemma split_at_ci : H' !! ci = Some lower_half.
Proof using All. destruct split_fresh as (? & ? & ? & ? & ? & ?). by simplify_map_eq. Qed.

Lemma split_at_cnt : H' !! cnt = Some upper_half.
Proof using All. destruct split_fresh as (? & ? & ? & ? & ? & ?). by simplify_map_eq. Qed.

Lemma split_old j m : j ≠ ci → H !! j = Some m → ∃ m', H' !! j = Some m' ∧ same_data m m'.
Proof using All.
  intros Hj Hm. destruct split_fresh as (Hf & ? & ? & ? & ? & ?). destruct (decide (j = p)) as [->|].
  - exists pn'. simplify_map_eq. done.
  - exists m. assert (j ≠ cnt) by congruence. by simplify_map_eq.
Qed.

Lemma split_path j l : path H root j l → ∃ l', path H' root j l'.
Proof using All.
  induction 1 as [|j m q l Hjr Hj Hm _ [l' IH]]; [eexists; constructor|].
  destruct split_fresh as (Hf & ? & ? & ? & ? & ?).
  destruct (decide (j = ci)) as [->|Hne].
  - assert (q = p) as -> by congruence. exists (ci :: cnt :: l').
    apply (path_up _ _ ci lower_half cnt); [done|apply split_at_ci|done|].
    apply (path_up _ _ cnt upper_half p); [done|apply split_at_cnt|done|done].
  - destruct (split_old j m Hne Hj) as (m' & Hm' & Ep & _). exists (j :: l').
    apply (path_up _ _ j m' q); congruence.
Qed.

Lemma upper_key : child_key page_size (kprefix sl (key child)) = Ok ck.
Proof using All.
  destruct (ok_key _ _ _ HT _ _ Hc Hcr) as (_ & Hka & _).
  pose proof (multiple_gap 0 sl page_size (Nat.Div0.mod_0_l _) Hal ltac:(lia)) as Hge.
  destruct (kslice_mode 0 sl (key child)) as [He Hb].
  rewrite <-Hck. apply child_key_eq; [rewrite klen_kprefix; lia|lia|done|].
  split; [done|]. rewrite units_kprefix, take_take. f_equal. lia.
Qed.

Lemma halves_ok : key_ok upper_half ∧ key_ok lower_half.
Proof using All.
  destruct (ok_key _ _ _ HT _ _ Hc Hcr) as (Hk0 & Hka & Hkb & Hkv).
  destruct (kslice_mode 0 sl (key child)) as [_ Hb1], (kslice_mode sl (klen (key child)) (key child)) as [_ Hb2].
  unfold key_ok, aligned. simpl. rewrite klen_kprefix, klen_ksuffix, length_take, length_drop.
  unfold kprefix, ksuffix. rewrite Hb1, Hb2, Hkv. split_and!; try done; try lia.
  - by rewrite Nat.min_l by lia.
  - unfold aligned in Hka. apply Nat.Div0.div_exact in Hka, Hal. rewrite Hka, Hal at 1.
    rewrite <-Nat.mul_sub_distr_l, Nat.mul_comm. apply Nat.Div0.mod_mul.
Qed.

Lemma split_tree_child j m c y :
  H' !! j = Some m → od_get c (children m) = Some y →
  ∃ z, H' !! y = Some z ∧ parent z = Some j ∧ child_key page_size (key z) = Ok c.
Proof using All.
  destruct split_fresh as (Hf & Hnc & Hnp & Hnr & Hpc & Hg).
  assert (Hch : ∀ j m c y, H !! j = Some m → od_get c (children m) = Some y → y ≠ ci →
      ∃ z, H' !! y = Some z ∧ parent z = Some j ∧ child_key page_size (key z) = Ok c).
  { clear j m c y. intros j m c y Hj Hy Hyc. destruct (ok_child _ _ _ HT _ _ _ _ Hj Hy) as (z & Hz & Hzp & Hzk).
    destruct (split_old y z Hyc Hz) as (z' & Hz' & Ep & Ek & _). exists z'. by rewrite Ep, Ek. }
  assert (Hci : ∀ j m c, H !! j = Some m → od_get c (children m) = Some ci → j = p ∧ c = ck).
  { clear j m c y. intros j m c Hj Hy. destruct (ok_child _ _ _ HT _ _ _ _ Hj Hy) as (z & Hz & Hzp & Hzk).
    assert (z = child) as -> by congruence. split; congruence. }
  intros [(-> & ->)|[(-> & ->)|[(-> & ->)|(Hjp & Hjc & Hjn & Hj)]]]%split_lookup Hy; simpl in Hy.
  - rewrite od_get_set in Hy. case_decide as Hcc.
    + simplify_eq. exists upper_half. split_and!; [apply split_at_cnt|done|apply upper_key].
    + eapply Hch; [exact Hp|done|]. intros ->. by destruct (Hci _ _ _ Hp Hy).
  - destruct (decide (y = ci)) as [->|Hyc]; [by destruct (Hci _ _ _ Hc Hy)|]. by eapply Hch.
  - case_decide; [|done]. simplify_eq. exists lower_half. split_and!; [apply split_at_ci|done|done].
  - destruct (decide (y = ci)) as [->|Hyc]; [by destruct (Hci _ _ _ Hj Hy)|]. by eapply Hch.
Qed.

Lemma split_tree_parent j m :
  H' !! j = Some m → j ≠ root →
  ∃ q qn c, parent m = Some q ∧ H' !! q = Some qn ∧ child_key page_size (key m) = Ok c ∧
    od_get c (children qn) = Some j.
Proof using All.
  destruct split_fresh as (Hf & Hnc & Hnp & Hnr & Hpc & Hg).
  assert (Hpr : ∀ j m, H !! j = Some m → j ≠ root → j ≠ ci → ∃ q qn c, parent m = Some q ∧ H' !! q = Some qn ∧
    child_key page_size (key m) = Ok c ∧ od_get c (children qn) = Some j).
  { clear j m. intros j m Hj Hjr Hjc. destruct (ok_parent _ _ _ HT _ _ Hj Hjr) as (q & qn & c & Hq & Hqn & Hcc & Hgq).
    destruct (decide (q = p)) as [->|Hqp]; [|destruct (decide (q = ci)) as [->|Hqc]].
    - assert (qn = pn) as -> by congruence. exists p, pn', c. split_and!; [done|apply lookup_insert_eq|done|].
      simpl. rewrite od_get_set, decide_False by congruence. done.
    - assert (qn = child) as -> by congruence. exists ci, lower_half, c. split_and!; [done|apply split_at_ci|done|done].
    - exists q, qn, c. assert (q ≠ cnt) by congruence. by simplify_map_eq. }
  intros [(-> & ->)|[(-> & ->)|[(-> & ->)|(Hjp & Hjc & Hjn & Hj)]]]%split_lookup Hjr.
  - exact (Hpr _ _ Hp Hjr Hpc).
  - exists cnt, upper_half, ck2. split_and!; [done|apply split_at_cnt|done|]. simpl. by rewrite decide_True.
  - exists p, pn', ck. split_and!; [done|apply lookup_insert_eq|apply upper_key|]. simpl.
    by rewrite od_get_set, decide_True.
  - exact (Hpr _ _ Hj Hjr Hjc).
Qed.

Lemma tree_split : tree_ok H' root (S cnt).
Proof using All.
  destruct split_fresh as (Hf & Hnc & Hnp & Hnr & Hpc & Hg). destruct halves_ok as [Hup Hlo].
  pose proof split_tree_child as Hch. pose proof split_tree_parent as Hpr. split.
  - destruct (ok_root _ _ _ HT) as (r & Hr & Hrp & Hl). destruct (split_old root r ltac:(done) Hr) as (r' & Hr' & Hsd).
    exists r'. destruct Hsd as (-> & _ & -> & ->). done.
  - intros j m [(-> & ->)|[(-> & ->)|[(-> & ->)|(_ & _ & _ & Hj)]]]%split_lookup; [| |lia|];
      [apply (ok_id _ _ _ HT) in Hp|apply (ok_id _ _ _ HT) in Hc|apply (ok_id _ _ _ HT) in Hj]; lia.
  - eauto.
  - intros j m [(-> & ->)|[(-> & ->)|[(-> & ->)|(_ & _ & _ & Hj)]]]%split_lookup; simpl.
    + eauto using ok_nodup with redknot.
    + by eapply (ok_nodup _ _ _ HT).
    + apply NoDup_singleton.
    + by eapply (ok_nodup _ _ _ HT).
  - eauto.
  - intros j m [(-> & ->)|[(-> & ->)|[(-> & ->)|(_ & _ & _ & Hj)]]]%split_lookup Hjr; [|done|done|].
    + exact (ok_key _ _ _ HT _ _ Hp Hjr).
    + exact (ok_key _ _ _ HT _ _ Hj Hjr).
  - intros j m Hj. apply split_lookup in Hj as [(-> & ->)|[(-> & ->)|[(-> & ->)|(_ & _ & _ & Hj)]]].
    + destruct (ok_reach _ _ _ HT _ _ Hp) as [l Hl]. by eapply split_path.
    + destruct (ok_reach _ _ _ HT _ _ Hc) as [l Hl]. by eapply split_path.
    + destruct (ok_reach _ _ _ HT _ _ Hp) as [l Hl]. destruct (split_path _ _ Hl) as [l' Hl'].
      exists (cnt :: l'). apply (path_up _ _ cnt upper_half p); [done|apply split_at_cnt|done|done].
    + destruct (ok_reach _ _ _ HT _ _ Hj) as [l Hl]. by eapply split_path.
Qed.

Lemma split_hsum f :
  f p pn' = f p pn → hsum f H' = hsum f H - f ci child + f ci lower_half + f cnt upper_half.
Proof using All.
  intros He. destruct split_fresh as (Hf & Hnc & Hnp & Hnr & Hpc & Hg).
  rewrite (hsum_update _ _ p pn) by (by simplify_map_eq).
  rewrite (hsum_update _ _ ci child) by (by simplify_map_eq).
  rewrite hsum_insert by done. lia.
Qed.

Lemma no_child_of_fresh : child_locks H cnt = 0.
Proof using All.
  unfold child_locks. apply hsum_zero. intros j m Hj. case_decide as Hm; [|done].
  destruct (decide (j = root)) as [->|Hjr].
  - destruct (ok_root _ _ _ HT) as (r & Hr & Hrp & _). congruence.
  - destruct (ok_parent _ _ _ HT _ _ Hj Hjr) as (q & qn & c & Hq & Hqn & _).
    destruct split_fresh as (Hf & _). congruence.
Qed.

Lemma child_locks_split j : child_locks H' j = child_locks H j + (if decide (j = cnt) then lock_ref child else 0).
Proof using All.
  destruct split_fresh as (Hf & Hnc & Hnp & Hnr & Hpc & Hg).
  unfold child_locks. rewrite split_hsum by done. simpl. rewrite Hpar. repeat case_decide; simplify_eq; try lia; congruence.
Qed.

Lemma locks_split : locks_ok H root → locks_ok H' root.
Proof using All.
  intros [Hpos Hlk]. destruct split_fresh as (Hf & Hnc & Hnp & Hnr & Hpc & Hg).
  pose proof child_locks_split as Hsum. split.
  - intros j m [(-> & ->)|[(-> & ->)|[(-> & ->)|(_ & _ & _ & Hj)]]]%split_lookup; simpl; eauto.
  - intros j m [(-> & ->)|[(-> & ->)|[(-> & ->)|(_ & _ & Hn & Hj)]]]%split_lookup Hjr; rewrite Hsum; simpl.
    + rewrite decide_False by done. specialize (Hlk _ _ Hp Hjr). lia.
    + rewrite decide_False by done. specialize (Hlk _ _ Hc Hjr). lia.
    + rewrite decide_True, no_child_of_fresh by done. lia.
    + rewrite decide_False by done. specialize (Hlk _ _ Hj Hjr). lia.
Qed.

Lemma books_split ev pr lv : books_ok H root ev pr lv → books_ok H' root ev pr lv.
Proof using All.
  intros (-> & -> & Hlv). destruct split_fresh as (Hf & Hnc & Hnp & Hnr & Hpc & Hg).
  assert (Hlen : klen (key child) = (klen (kprefix sl (key child)) + klen (ksuffix sl (key child)))%nat)
    by (rewrite klen_kprefix, klen_ksuffix; lia).
  split_and!.
  - rewrite split_hsum by done. unfold size_of. rewrite !decide_False by done. simpl. rewrite Hlen.
    case_bool_decide; lia.
  - rewrite split_hsum by done. unfold size_of. rewrite !decide_False by done. simpl. rewrite Hlen.
    case_bool_decide; lia.
  - intros j. rewrite Hlv. unfold is_leaf. split.
    + intros (m & Hm & Hl & Hch). destruct (decide (j = ci)) as [->|Hjc].
      * assert (m = child) as -> by congruence. exists lower_half. split; [apply split_at_ci|done].
      * destruct (decide (j = p)) as [->|Hjp]; [assert (m = pn) as -> by congruence; by rewrite Hch in Hg|].
        exists m. assert (j ≠ cnt) by congruence. by simplify_map_eq.
    + intros (m & Hm & Hl & Hch).
      apply split_lookup in Hm as [(-> & ->)|[(-> & ->)|[(-> & ->)|(_ & _ & _ & Hj)]]]; simpl in *.
      * assert (Hg' : od_get ck (od_set ck cnt (children pn)) = Some cnt) by (by rewrite od_get_set, decide_True).
        by rewrite Hch in Hg'.
      * eauto.
      * done.
      * eauto.
Qed.

End split.

End invariant.
