(* ===== verification/RadixOps.v ===== *)
(** The radix cache against its abstract contract: the tree stands for a set of
    cached prefixes, [match_prefix] returns the longest one, [insert] adds one,
    [evict] and the lock operations keep the books. *)

From S2P Require Import Prelude RadixKey RadixCache.

Open Scope Z_scope.

(** * What a tree stores *)

Section content.
Context (page_size : nat) (is_eagle : bool).

#[local] Notation Unit := (Z * option Z)%type.
#[local] Notation tree_ok := (tree_ok page_size is_eagle).
#[local] Notation key_ok := (key_ok page_size is_eagle).

(** The units and values read on the way from node [a] down to a node, in one
    namespace. *)
Inductive seg (H : gmap nat TreeNode) (root : nat) (e : option string) (a : nat) : nat → list Unit → list Z → Prop :=
  | seg_refl : seg H root e a a [] []
  | seg_up i n p us vs :
      i ≠ root → H !! i = Some n → parent n = Some p → extra_key (key n) = e → seg H root e a p us vs →
      seg H root e a i (us ++ units (key n)) (vs ++ value n).

Definition full (H : gmap nat TreeNode) (root : nat) (e : option string) := seg H root e root.

(** The abstract content: whole-page prefixes with their slots. *)
Definition stored (H : gmap nat TreeNode) (root : nat) (e : option string) (us : list Unit) (vs : list Z) : Prop :=
  ∃ i fu fv, full H root e i fu fv ∧ us = take (length us) fu ∧ vs = take (length us) fv ∧
    (length us mod page_size = 0)%nat.

Definition same_content (H H' : gmap nat TreeNode) (root : nat) : Prop :=
  ∀ e us vs, stored H root e us vs ↔ stored H' root e us vs.

Lemma same_content_refl H root : same_content H H root.
Proof. done. Qed.

Lemma same_content_trans H1 H2 H3 root :
  same_content H1 H2 root → same_content H2 H3 root → same_content H1 H3 root.
Proof. intros A B e us vs. by rewrite (A e us vs), (B e us vs). Qed.

Lemma full_det H root e i us vs us' vs' : full H root e i us vs → full H root e i us' vs' → us = us' ∧ vs = vs'.
Proof.
  intros Hf. revert us' vs'. induction Hf as [|i n p us vs Hi Hn Hp He _ IH]; intros us' vs' Hf'.
  - inversion Hf'; [done|congruence].
  - inversion Hf' as [|? n' p' us'' vs'' ? Hn' Hp' ? Hf'']; subst; [congruence|].
    assert (n' = n) as -> by congruence. assert (p' = p) as -> by congruence.
    destruct (IH _ _ Hf'') as [-> ->]. done.
Qed.

(** One unit per value, whole pages. *)
Lemma full_length H root cnt e i us vs :
  tree_ok H root cnt → full H root e i us vs →
  length us = length vs ∧ (length us mod page_size = 0)%nat ∧ (i ≠ root → (0 < length us)%nat).
Proof.
  intros HT. induction 1 as [|i n p us vs Hi Hn Hp He _ (IH1 & IH2 & _)].
  - split_and!; [done|apply Nat.Div0.mod_0_l|done].
  - destruct (ok_key _ _ _ _ _ HT _ _ Hn Hi) as (Hk0 & Hka & _ & Hkv).
    rewrite !length_app, length_units, Hkv. split_and!; [lia| |lia].
    unfold aligned in Hka. rewrite <-Nat.Div0.add_mod_idemp_l, IH2. exact Hka.
Qed.

Lemma seg_data_sub H H' root e a i us vs :
  data_sub H H' → seg H root e a i us vs → seg H' root e a i us vs.
Proof.
  intros Hs. induction 1 as [|i n p us vs Hi Hn Hp He _ IH]; [constructor|].
  destruct (Hs i n Hn) as (n' & Hn' & Ep & Ek & Ev & _). rewrite <-Ek, <-Ev.
  econstructor; [done|done| | |done]; congruence.
Qed.

(** Heaps whose full sequences extend to one another store the same. *)
Lemma stored_mono H H' root cnt e us vs :
  tree_ok H root cnt →
  (∀ i fu fv, full H root e i fu fv → ∃ j ru rv, full H' root e j (fu ++ ru) (fv ++ rv)) →
  stored H root e us vs → stored H' root e us vs.
Proof.
  intros HT Hm (i & fu & fv & Hf & Hu & Hv & Hl). destruct (Hm _ _ _ Hf) as (j & ru & rv & Hg).
  destruct (full_length _ _ _ _ _ _ _ HT Hf) as [Hlen _].
  assert (Hle : (length us ≤ length fu)%nat) by (rewrite Hu, length_take; lia).
  exists j, (fu ++ ru), (fv ++ rv). split_and!; [done| | |done]; by rewrite take_app_le by lia.
Qed.

(** ** Finding the branch of a longer prefix *)

Lemma seg_first H root e a j us vs :
  seg H root e a j us vs →
  (j = a ∧ us = [] ∧ vs = []) ∨
  ∃ b m ru rv, H !! b = Some m ∧ b ≠ root ∧ parent m = Some a ∧ extra_key (key m) = e ∧
    seg H root e b j ru rv ∧ us = units (key m) ++ ru ∧ vs = value m ++ rv.
Proof.
  induction 1 as [|i n p us vs Hi Hn Hp He Hs IH]; [by left|]. right.
  destruct IH as [(-> & -> & ->)|(b & m & ru & rv & Hb & Hbr & Hbp & Hbe & Hbs & -> & ->)].
  - exists i, n, [], []. rewrite !app_nil_r. split_and!; try done. constructor.
  - exists b, m, (ru ++ units (key n)), (rv ++ value n). rewrite !app_assoc. split_and!; try done. by econstructor.
Qed.

(** A child is determined by the first page of its key. *)
Lemma child_unique H root cnt a b i m n :
  (0 < page_size)%nat → tree_ok H root cnt → H !! a = Some m → a ≠ root → H !! b = Some n → b ≠ root →
  parent m = Some i → parent n = Some i → extra_key (key m) = extra_key (key n) →
  take page_size (units (key m)) = take page_size (units (key n)) → a = b.
Proof.
  intros Hps HT Ha Har Hb Hbr Hpa Hpb He Hu.
  destruct (ok_parent _ _ _ _ _ HT _ _ Ha Har) as (p & pn & c & Hp & Hpn & Hc & Hg).
  destruct (ok_parent _ _ _ _ _ HT _ _ Hb Hbr) as (q & qn & d & Hq & Hqn & Hd & Hg').
  destruct (ok_key _ _ _ _ _ HT _ _ Ha Har) as (Hk1 & Hk2 & Hk3 & _).
  destruct (ok_key _ _ _ _ _ HT _ _ Hb Hbr) as (Hl1 & Hl2 & Hl3 & _).
  assert (c = d) as ->.
  { assert (E : child_key page_size (key m) = child_key page_size (key n)); [|congruence].
    pose proof (multiple_gap 0 _ _ (Nat.Div0.mod_0_l _) Hk2 Hk1). pose proof (multiple_gap 0 _ _ (Nat.Div0.mod_0_l _) Hl2 Hl1).
    apply child_key_eq; [lia|lia|congruence|done]. }
  assert (p = q) as -> by congruence. congruence.
Qed.

(** A node whose sequence extends that of [i] lies below one child of [i]. *)
Lemma descend H root cnt e i us vs j fu fv :
  (0 < page_size)%nat → tree_ok H root cnt → full H root e i us vs → full H root e j fu fv →
  take (length us) fu = us → (length us < length fu)%nat →
  ∃ a m ru rv, H !! a = Some m ∧ a ≠ root ∧ parent m = Some i ∧ extra_key (key m) = e ∧
    seg H root e a j ru rv ∧ fu = us ++ units (key m) ++ ru ∧ fv = vs ++ value m ++ rv.
Proof.
  intros Hps HT Hi Hj. induction Hi as [|i n p us vs Hir Hn Hp He Hi IH]; intros Htake Hlt.
  { destruct (seg_first _ _ _ _ _ _ _ Hj) as [(_ & -> & _)|Hx]; [simpl in Hlt; lia|exact Hx]. }
  rewrite length_app in Hlt. destruct IH as (a & m & ru & rv & Ha & Har & Hap & Hae & Hs & Hfu & Hfv).
  - apply (f_equal (take (length us))) in Htake. rewrite take_take, length_app in Htake.
    rewrite Nat.min_l, take_app_le, (take_ge us) in Htake by lia. done.
  - lia.
  - destruct (ok_key _ _ _ _ _ HT _ _ Hn Hir) as (Hk1 & Hk2 & Hk3 & Hkv).
    destruct (ok_key _ _ _ _ _ HT _ _ Ha Har) as (Hl1 & Hl2 & Hl3 & _).
    pose proof (multiple_gap 0 _ _ (Nat.Div0.mod_0_l _) Hk2 Hk1) as Hkp.
    pose proof (multiple_gap 0 _ _ (Nat.Div0.mod_0_l _) Hl2 Hl1) as Hlp.
    assert (a = i) as ->.
    { eapply (child_unique H root cnt a i p m n); try done; [congruence|].
      apply (f_equal (drop (length us))) in Htake. rewrite Hfu in Htake.
      rewrite length_app, skipn_firstn_comm, drop_app_length, drop_app_length in Htake.
      replace (length us + length (units (key n)) - length us)%nat with (length (units (key n))) in Htake by lia.
      apply (f_equal (take page_size)) in Htake. rewrite take_take, length_units in Htake.
      rewrite Nat.min_l, take_app_le in Htake by (rewrite ?length_units; lia). exact Htake. }
    assert (m = n) as -> by congruence.
    destruct (seg_first _ _ _ _ _ _ _ Hs) as [(_ & -> & ->)|(b & mb & ru' & rv' & Hb & Hbr & Hbp & Hbe & Hbs & -> & ->)].
    { rewrite Hfu, !length_app in Hlt. simpl in Hlt. lia. }
    exists b, mb, ru', rv'. rewrite Hfu, Hfv, <-!app_assoc. done.
Qed.

(** ** Content of the four heap changes *)

Lemma same_content_full H H' root cnt cnt' :
  tree_ok H root cnt → tree_ok H' root cnt' →
  (∀ e i fu fv, full H root e i fu fv → full H' root e i fu fv) →
  (∀ e i fu fv, full H' root e i fu fv → ∃ j ru rv, full H root e j (fu ++ ru) (fv ++ rv)) →
  same_content H H' root.
Proof.
  intros HT HT' H1 H2 e us vs. split; [eapply stored_mono; [exact HT|]|eapply stored_mono; [exact HT'|exact (H2 e)]].
  intros i fu fv Hf. exists i, [], []. rewrite !app_nil_r. by apply H1.
Qed.

Lemma relock_full H root e i n l j us vs :
  H !! i = Some n → full H root e j us vs ↔ full (<[i := with_lock l n]> H) root e j us vs.
Proof.
  intros Hi. split.
  - induction 1 as [|j m p us vs Hj Hm Hp He _ IH]; [constructor|].
    destruct (decide (j = i)) as [->|Hne].
    + assert (m = n) as -> by congruence.
      apply (seg_up _ _ _ _ i (with_lock l n) p); try done. apply lookup_insert_eq.
    + apply (seg_up _ _ _ _ j m p); try done. by rewrite lookup_insert_ne.
  - induction 1 as [|j m p us vs Hj Hm Hp He _ IH]; [constructor|].
    apply lookup_insert_Some in Hm as [[<- <-]|[Hne Hm]].
    + by apply (seg_up _ _ _ _ i n p).
    + by apply (seg_up _ _ _ _ j m p).
Qed.

Section split_content.
Context (H : gmap nat TreeNode) (root cnt ci p sl : nat) (child pn : TreeNode) (ck ck2 : ChildKey).
Hypothesis Hps : (0 < page_size)%nat.
Hypothesis HT : tree_ok H root cnt.
Hypothesis Hc : H !! ci = Some child.
Hypothesis Hcr : ci ≠ root.
Hypothesis Hpar : parent child = Some p.
Hypothesis Hp : H !! p = Some pn.
Hypothesis Hck : child_key page_size (key child) = Ok ck.
Hypothesis Hck2 : child_key page_size (ksuffix sl (key child)) = Ok ck2.
Hypothesis Hsl : (0 < sl < klen (key child))%nat.
Hypothesis Hal : (sl mod page_size = 0)%nat.

#[local] Notation up := (upper_half ci sl child ck2).
#[local] Notation lo := (lower_half cnt sl child).
#[local] Notation H' := (<[p := with_children (od_set ck cnt (children pn)) pn]> (<[ci := lo]> (<[cnt := up]> H))).

Lemma halves_units : units (key child) = units (key up) ++ units (key lo) ∧ value child = value up ++ value lo.
Proof using All. simpl. by rewrite units_kprefix, units_ksuffix, !take_drop. Qed.

Lemma halves_extra : extra_key (key up) = extra_key (key child) ∧ extra_key (key lo) = extra_key (key child).
Proof using All. simpl. unfold kprefix, ksuffix. by rewrite !(proj1 (kslice_mode _ _ _)). Qed.

Lemma split_full_fwd e i us vs : full H root e i us vs → full H' root e i us vs.
Proof using All.
  destruct (split_fresh page_size is_eagle H root cnt ci p sl child pn ck ck2 Hps HT Hc Hcr Hpar Hp Hck Hck2 Hsl Hal)
    as (Hf & Hnc & Hnp & Hnr & Hpc & Hg).
  destruct halves_units as [Eu Ev], halves_extra as [Xu Xl].
  induction 1 as [|i n q us vs Hi Hn Hq He _ IH]; [constructor|].
  destruct (decide (i = ci)) as [->|Hne].
  - assert (n = child) as -> by congruence. assert (q = p) as -> by congruence.
    rewrite Eu, Ev, !app_assoc. apply (seg_up _ _ _ _ ci lo cnt); [done|by simplify_map_eq|done|congruence|].
    apply (seg_up _ _ _ _ cnt up p); [done|by simplify_map_eq|done|congruence|done].
  - destruct (split_old page_size is_eagle H root cnt ci p sl child pn ck ck2 Hps HT Hc Hcr Hpar Hp Hck Hck2 Hsl Hal
      i n Hne Hn) as (n' & Hn' & Ep & Ek & Evn & _).
    rewrite <-Ek, <-Evn. apply (seg_up _ _ _ _ i n' q); [done|done|congruence|congruence|done].
Qed.

Lemma split_full_bwd e i us vs :
  full H' root e i us vs →
  if decide (i = cnt) then ∃ u v, full H root e p u v ∧ extra_key (key child) = e ∧
      us = u ++ units (key up) ∧ vs = v ++ value up
  else full H root e i us vs.
Proof using All.
  destruct (split_fresh page_size is_eagle H root cnt ci p sl child pn ck ck2 Hps HT Hc Hcr Hpar Hp Hck Hck2 Hsl Hal)
    as (Hf & Hnc & Hnp & Hnr & Hpc & Hg).
  destruct halves_units as [Eu Ev], halves_extra as [Xu Xl].
  induction 1 as [|i n q us vs Hi Hn Hq He _ IH]; [rewrite decide_False by done; constructor|].
  apply (split_lookup page_size is_eagle H root cnt ci p sl child pn ck ck2 Hps HT Hc Hcr Hpar Hp Hck Hck2 Hsl Hal)
    in Hn as [(-> & ->)|[(-> & ->)|[(-> & ->)|(Hjp & Hjc & Hjn & Hn)]]].
  - rewrite decide_False by done. rewrite decide_False in IH.
    + by apply (seg_up _ _ _ _ p pn q).
    + intros ->. destruct (ok_parent _ _ _ _ _ HT _ _ Hp Hi) as (? & ? & ? & ? & ? & _). simpl in Hq. congruence.
  - rewrite decide_False by done. simpl in Hq. injection Hq as <-. rewrite decide_True in IH by done.
    destruct IH as (u & v & Hpf & Hce & -> & ->). rewrite <-!app_assoc, <-Eu, <-Ev.
    by apply (seg_up _ _ _ _ ci child p).
  - rewrite decide_True by done. simpl in Hq. assert (q = p) as -> by congruence.
    rewrite decide_False in IH by done. exists us, vs. split_and!; [done|congruence|done|done].
  - rewrite decide_False by done. rewrite decide_False in IH.
    + by apply (seg_up _ _ _ _ i n q).
    + intros ->. destruct (ok_parent _ _ _ _ _ HT _ _ Hn Hi) as (? & ? & ? & ? & ? & _). congruence.
Qed.

Lemma split_content : same_content H H' root.
Proof using All.
  eapply same_content_full; [exact HT| |exact split_full_fwd|].
  - by apply tree_split.
  - intros e i fu fv Hf%split_full_bwd. destruct halves_units as [Eu Ev]. case_decide as Hi.
    + destruct Hf as (u & v & Hpf & Hce & -> & ->). exists ci, (units (key lo)), (value lo).
      rewrite <-!app_assoc, <-Eu, <-Ev. by apply (seg_up _ _ _ _ ci child p).
    + exists i, [], []. by rewrite !app_nil_r.
Qed.

End split_content.

Lemma add_full H root cnt i n k v ck e j us vs :
  tree_ok H root cnt → H !! i = Some n →
  full (<[i := with_children (od_set ck cnt (children n)) n]> (<[cnt := leaf_node i k v]> H)) root e j us vs →
  if decide (j = cnt) then ∃ u w, full H root e i u w ∧ extra_key k = e ∧ us = u ++ units k ∧ vs = w ++ v
  else full H root e j us vs.
Proof.
  intros HT Hi. pose proof (cnt_fresh page_size is_eagle H root cnt HT) as Hf.
  assert (Hroot : root ≠ cnt) by (destruct (ok_root _ _ _ _ _ HT) as (r & Hr & _); congruence).
  induction 1 as [|j m q us vs Hj Hm Hq He _ IH]; [rewrite decide_False by done; constructor|].
  apply (add_lookup page_size is_eagle H root cnt i n k v ck HT Hi)
    in Hm as [(-> & ->)|[(-> & Hci & ->)|(Hji & Hjc & Hm)]].
  - rewrite decide_False by congruence. rewrite decide_False in IH.
    + by apply (seg_up _ _ _ _ i n q).
    + intros ->. destruct (ok_parent _ _ _ _ _ HT _ _ Hi Hj) as (? & ? & ? & ? & ? & _). simpl in Hq. congruence.
  - rewrite decide_True by done. simpl in Hq. injection Hq as <-. rewrite decide_False in IH by congruence.
    exists us, vs. done.
  - rewrite decide_False by done. rewrite decide_False in IH.
    + by apply (seg_up _ _ _ _ j m q).
    + intros ->. destruct (ok_parent _ _ _ _ _ HT _ _ Hm Hj) as (? & ? & ? & ? & ? & _). congruence.
Qed.

Lemma remove_full H root cnt x p n pn ck e j us vs :
  tree_ok H root cnt → H !! x = Some n → x ≠ root → children n = [] → parent n = Some p → H !! p = Some pn → p ≠ x →
  full (delete x (<[p := with_children (od_del ck (children pn)) pn]> H)) root e j us vs
  ↔ full H root e j us vs ∧ j ≠ x.
Proof.
  intros HT Hx Hxr Hch Hpar Hp Hpx.
  assert (Hno : ∀ j m q, H !! j = Some m → j ≠ root → parent m = Some q → q ≠ x).
  { intros k m q Hk Hkr Hkq ->. destruct (ok_parent _ _ _ _ _ HT _ _ Hk Hkr) as (r & rn & c & Hr & Hrn & _ & Hg).
    assert (r = x) as -> by congruence. assert (rn = n) as -> by congruence. by rewrite Hch in Hg. }
  split.
  - induction 1 as [|j m q us vs Hj Hm Hq He _ [IH IHx]]; [split; [constructor|done]|].
    apply lookup_delete_Some in Hm as [Hjx [[<- <-]|[Hne Hm]]%lookup_insert_Some].
    + split; [|done]. by apply (seg_up _ _ _ _ p pn q).
    + split; [|done]. by apply (seg_up _ _ _ _ j m q).
  - intros [Hf Hjx]. revert Hjx. induction Hf as [|j m q us vs Hj Hm Hq He _ IH]; intros Hjx; [constructor|].
    specialize (IH (Hno _ _ _ Hm Hj Hq)). destruct (decide (j = p)) as [->|Hne].
    + assert (m = pn) as -> by congruence.
      apply (seg_up _ _ _ _ p (with_children (od_del ck (children pn)) pn) q); try done.
      by rewrite lookup_delete_ne, lookup_insert_eq by done.
    + apply (seg_up _ _ _ _ j m q); try done. by rewrite lookup_delete_ne, lookup_insert_ne by done.
Qed.

End content.

(** * Operations *)

Lemma node_at_eq c i n : heap c !! i = Some n → node_at c i = Ok n.
Proof. intros Hi. unfold node_at. by rewrite Hi. Qed.

Lemma nheap_lookup c i n : heap c !! i = Some n → nheap c !! i = Some (norm n).
Proof. intros Hi. unfold nheap. by rewrite lookup_fmap, Hi. Qed.

Lemma nheap_Some c i m : nheap c !! i = Some m → ∃ n, heap c !! i = Some n ∧ m = norm n.
Proof. unfold nheap. rewrite lookup_fmap_Some. naive_solver. Qed.

Lemma nheap_set_node c i n : nheap (set_node i n c) = <[i := norm n]> (nheap c).
Proof. unfold nheap. apply fmap_insert. Qed.

Section ops.
Context (page_size : nat) (is_eagle : bool) (monotonic : nat → Z).
Hypothesis Hps : (0 < page_size)%nat.

#[local] Notation wf := (wf page_size is_eagle).
#[local] Notation stored c := (stored page_size (nheap c) (root_node c)).
#[local] Notation fullc c := (full (nheap c) (root_node c)).

(** The locks clients hold on [i] itself: its count less those of its children. *)
Definition own (c : RadixCache) (i : nat) : Z :=
  match nheap c !! i with Some n => lock_ref n - child_locks (nheap c) i | None => 0 end.

(** Nodes stay, no client gains or loses a lock. *)
Definition same_locks (c c' : RadixCache) : Prop :=
  (∀ j, is_Some (nheap c !! j) → is_Some (nheap c' !! j)) ∧ ∀ j, own c' j = own c j.

Lemma same_locks_refl c c' : nheap c' = nheap c → same_locks c c'.
Proof. intros E. unfold same_locks, own. rewrite E. done. Qed.

Lemma same_locks_trans c1 c2 c3 : same_locks c1 c2 → same_locks c2 c3 → same_locks c1 c3.
Proof. intros [A1 A2] [B1 B2]. split; [auto|]. intros j. by rewrite B2. Qed.

(** Old nodes keep their counts, new ones carry no more than their children. *)
Lemma same_locks_intro c c' :
  (∀ j n, nheap c !! j = Some n → ∃ n', nheap c' !! j = Some n' ∧ lock_ref n' = lock_ref n ∧
     child_locks (nheap c') j = child_locks (nheap c) j) →
  (∀ j n, nheap c !! j = None → nheap c' !! j = Some n → lock_ref n = child_locks (nheap c') j) → same_locks c c'.
Proof.
  intros Hold Hnew. split.
  - intros j [n Hj]. destruct (Hold j n Hj) as (n' & Hj' & _). by exists n'.
  - intros j. unfold own. destruct (nheap c !! j) as [n|] eqn:Hj.
    + destruct (Hold j n Hj) as (n' & -> & -> & ->). done.
    + destruct (nheap c' !! j) as [n'|] eqn:Hj'; [|done]. rewrite (Hnew j n' Hj Hj'). lia.
Qed.

Lemma fresh_child_locks (H : gmap nat TreeNode) root cnt i :
  tree_ok page_size is_eagle H root cnt → H !! i = None → child_locks H i = 0.
Proof.
  intros HT Hi. apply hsum_zero. intros x y Hx. case_decide as Hp; [|done].
  destruct (decide (x = root)) as [->|Hxr].
  - destruct (ok_root _ _ _ _ _ HT) as (r & Hr & Hrp & _). congruence.
  - destruct (ok_parent _ _ _ _ _ HT _ _ Hx Hxr) as (p & pn & ck & Hp' & Hpn & _). congruence.
Qed.

(** A change that clients do not observe: no prefix appears or disappears, no node
    loses its place, the counters stay. *)
Record quiet (c c' : RadixCache) : Prop := {
  q_wf : wf c';
  q_root : root_node c' = root_node c;
  q_evictable : evictable_size_ c' = evictable_size_ c;
  q_protected : protected_size_ c' = protected_size_ c;
  q_content : same_content page_size (nheap c) (nheap c') (root_node c);
  q_full : ∀ e j us vs, fullc c e j us vs → full (nheap c') (root_node c) e j us vs;
  q_slots : ∀ x, slots x (nheap c') = slots x (nheap c);
  q_locks : same_locks c c';
}.

Lemma quiet_refl c : wf c → quiet c c.
Proof. intros Hw. split; try done; by apply same_locks_refl. Qed.

Lemma quiet_trans c1 c2 c3 : quiet c1 c2 → quiet c2 c3 → quiet c1 c3.
Proof.
  intros [_ R1 E1 P1 S1 F1 T1 L1] [W2 R2 E2 P2 S2 F2 T2 L2]. rewrite R1 in *.
  split; [exact W2|congruence..|by eapply same_content_trans|auto|intros x; by rewrite T2, T1|by eapply same_locks_trans].
Qed.

Lemma quiet_stored c c' e us vs : quiet c c' → stored c e us vs ↔ stored c' e us vs.
Proof. intros [_ R _ _ S _ _ _]. rewrite R. apply S. Qed.

Lemma quiet_full c c' e j us vs : quiet c c' → fullc c e j us vs → fullc c' e j us vs.
Proof. intros [_ R _ _ _ F _ _]. rewrite R. apply F. Qed.

Lemma quiet_nheap c c' :
  wf c → nheap c' = nheap c → root_node c' = root_node c → counter c' = counter c →
  evictable_size_ c' = evictable_size_ c → protected_size_ c' = protected_size_ c →
  evictable_leaves c' = evictable_leaves c → quiet c c'.
Proof.
  intros Hw Hn Hr Hc He Hp Hl. 
  split; [|done..| | | |by apply same_locks_refl]; rewrite ?Hn; [|done..].
  unfold RadixCache.wf. rewrite Hn, Hr, Hc, He, Hp, Hl. exact Hw.
Qed.

Lemma touch_quiet c i n n' : wf c → heap c !! i = Some n → norm n' = norm n → quiet c (set_node i n' c).
Proof.
  intros Hw Hi Hn. apply quiet_nheap; try done. rewrite nheap_set_node, Hn. apply insert_id. by apply nheap_lookup.
Qed.

Lemma now_quiet c : wf c → quiet c (now monotonic c).1.
Proof. intros Hw. by apply quiet_nheap. Qed.

(** ** Splitting *)

Lemma split_node_ok c ci child sl :
  wf c → heap c !! ci = Some child → ci ≠ root_node c → (0 < sl < klen (key child))%nat → (sl mod page_size = 0)%nat →
  ∃ c' ni nn, split_node page_size monotonic (key child) ci sl c = Ok (c', ni) ∧ quiet c c' ∧
    heap c' !! ni = Some nn ∧ value nn = take sl (value child) ∧
    ∀ e p us vs, parent child = Some p → extra_key (key child) = e → fullc c e p us vs →
      fullc c' e ni (us ++ take sl (units (key child))) (vs ++ take sl (value child)).
Proof.
  intros Hw Hc Hcr Hsl Hal. pose proof Hw as (HT & HL & HB). pose proof (nheap_lookup _ _ _ Hc) as Hnc.
  destruct (ok_parent _ _ _ _ _ HT _ _ Hnc Hcr) as (p & pn0 & ck & Hp & Hpn & Hck & Hg). simpl in Hp, Hck.
  apply nheap_Some in Hpn as (pn & Hpn & ->).
  destruct (ok_key _ _ _ _ _ HT _ _ Hnc Hcr) as (Hk1 & Hk2 & Hk3 & Hk4). simpl in Hk1, Hk2, Hk3, Hk4.
  pose proof (multiple_gap sl _ _ Hal Hk2 ltac:(lia)) as Hgap.
  destruct (child_key_ok page_size (ksuffix sl (key child))) as (pl & Hck2 & _); [rewrite klen_ksuffix; lia|].
  set (ck2 := (extra_key (ksuffix sl (key child)), pl)) in *.
  pose proof (nheap_lookup _ _ _ Hpn) as Hnp.
  destruct (split_fresh page_size is_eagle _ _ _ ci p sl _ _ ck ck2 Hps HT Hnc Hcr Hp Hnp Hck Hck2 Hsl Hal)
    as (Hf & Hn1 & Hn2 & Hn3 & Hn4 & _).
  unfold split_node, node_at. rewrite Hc. run_bind. rewrite Hck2. run_bind. unfold new_node. cbv zeta.
  unfold parent_of. rewrite Hp. run_bind.
  match goal with |- context [match ?h !! p with _ => _ end] =>
    assert (h !! p = Some pn) as -> by (simpl; by simplify_map_eq) end.
  run_bind. rewrite Hck. run_bind. do 3 eexists. split; [done|].
  match goal with |- quiet _ ?c' ∧ _ => set (c1 := c') end.
  assert (Hh : nheap c1 = <[p := with_children (od_set ck (counter c) (children (norm pn))) (norm pn)]>
     (<[ci := lower_half (counter c) sl (norm child)]> (<[counter c := upper_half ci sl (norm child) ck2]> (nheap c)))).
  { unfold c1, nheap. simpl. rewrite !fmap_insert. unfold upper_half. simpl. by rewrite Hp. }
  assert (Hq : quiet c c1).
  { split; [|done..| | | |]; rewrite ?Hh.
    - unfold RadixCache.wf. rewrite Hh. simpl. split_and!.
      + exact (tree_split page_size is_eagle _ _ _ ci p sl _ _ ck ck2 Hps HT Hnc Hcr Hp Hnp Hck Hck2 Hsl Hal).
      + exact (locks_split page_size is_eagle _ _ _ ci p sl _ _ ck ck2 Hps HT Hnc Hcr Hp Hnp Hck Hck2 Hsl Hal HL).
      + exact (books_split page_size is_eagle _ _ _ ci p sl _ _ ck ck2 Hps HT Hnc Hcr Hp Hnp Hck Hck2 Hsl Hal _ _ _ HB).
    - exact (split_content page_size is_eagle _ _ _ ci p sl _ _ ck ck2 Hps HT Hnc Hcr Hp Hnp Hck Hck2 Hsl Hal).
    - exact (split_full_fwd page_size is_eagle _ _ _ ci p sl _ _ ck ck2 Hps HT Hnc Hcr Hp Hnp Hck Hck2 Hsl Hal).
    - intros x. unfold slots.
      rewrite (split_hsum page_size is_eagle _ _ _ ci p sl _ _ ck ck2 Hps HT Hnc Hcr Hp Hnp Hck Hck2 Hsl Hal) by done.
      simpl. rewrite <-(take_drop sl (value child)) at 1. rewrite count_app. lia.
    - apply same_locks_intro; rewrite Hh.
      2: { intros j m Hj Hj'.
        rewrite (child_locks_split page_size is_eagle _ _ _ ci p sl _ _ ck ck2 Hps HT Hnc Hcr Hp Hnp Hck Hck2 Hsl Hal).
        rewrite (fresh_child_locks _ _ _ j HT Hj).
        assert (p ≠ j ∧ ci ≠ j) as [Hpj Hcj] by (split; congruence).
        rewrite !lookup_insert_ne in Hj' by done. apply lookup_insert_Some in Hj' as [[<- <-]|[_ ?]]; [|congruence].
        rewrite decide_True by done. simpl. lia. }
      intros j m Hj. rewrite (child_locks_split page_size is_eagle _ _ _ ci p sl _ _ ck ck2 Hps HT Hnc Hcr Hp Hnp Hck Hck2 Hsl Hal).
      assert (j ≠ counter c) by congruence. rewrite decide_False by done.
      destruct (decide (j = ci)) as [->|Hjc]; [exists (lower_half (counter c) sl (norm child)); simplify_map_eq; split_and!; [done|done|lia]|].
      destruct (split_old page_size is_eagle _ _ _ ci p sl _ _ ck ck2 Hps HT Hnc Hcr Hp Hnp Hck Hck2 Hsl Hal j m Hjc Hj)
        as (m' & Hm' & _ & _ & _ & Hlk). exists m'. split_and!; [done|done|lia]. }
  split; [exact Hq|]. split; [unfold c1; simpl; by simplify_map_eq|]. split; [done|].
  intros e p' us vs Hp' He Hfull. assert (p' = p) as -> by congruence.
  apply (quiet_full _ _ _ _ _ _ Hq) in Hfull. unfold full in *.
  pose proof (seg_up (nheap c1) (root_node c1) e (root_node c1) (counter c) (upper_half ci sl (norm child) ck2) p us vs) as Hup.
  simpl in Hup. rewrite units_kprefix in Hup. apply Hup; [done| |done| |done].
  - rewrite Hh. simplify_map_eq. done.
  - unfold kprefix. by rewrite (proj1 (kslice_mode _ _ _)).
Qed.

(** ** One step down *)

(** No cached prefix goes more than [b] units into [k] past [us]. *)
Definition no_longer (c : RadixCache) (e : option string) (us : list (Z * option Z)) (k : RadixKey) (b : nat) : Prop :=
  ∀ m s, (m ≤ klen k)%nat → stored c e (us ++ take m (units k)) s → (m ≤ b)%nat.

(** The keys the loops carry: whole pages in the mode of the tree. *)
Definition arg_ok (e : option string) (k : RadixKey) : Prop :=
  aligned page_size k ∧ is_bigram k = is_eagle ∧ extra_key k = e.

Lemma aligned_ge k : aligned page_size k → (0 < klen k)%nat → (page_size ≤ klen k)%nat.
Proof. intros Ha Hk. exact (multiple_gap 0 _ _ (Nat.Div0.mod_0_l _) Ha Hk). Qed.

Lemma stored_multiple c e us k m s :
  (length us mod page_size = 0)%nat → (m ≤ klen k)%nat → stored c e (us ++ take m (units k)) s → (m mod page_size = 0)%nat.
Proof.
  intros Hu Hm (_ & _ & _ & _ & _ & _ & Hl). rewrite length_app, length_take, length_units, Nat.min_l in Hl by lia.
  by rewrite <-Nat.Div0.add_mod_idemp_l, Hu in Hl.
Qed.

(** A longer cached prefix goes through a child filed under the key of [k]. *)
Lemma longer_child c e i us vs k m s :
  wf c → fullc c e i us vs → arg_ok e k → (0 < m ≤ klen k)%nat → stored c e (us ++ take m (units k)) s →
  ∃ n ck ci child ru, heap c !! i = Some n ∧ child_key page_size k = Ok ck ∧ od_get ck (children n) = Some ci ∧
    heap c !! ci = Some child ∧ take m (units k) = take m (units (key child) ++ ru).
Proof.
  intros Hw Hi (Ha & Hb & He) Hm Hst. pose proof Hw as (HT & _).
  destruct (full_length _ _ _ _ _ _ _ _ _ HT Hi) as (_ & Hmul & _).
  pose proof (stored_multiple _ _ _ _ _ _ Hmul (proj2 Hm) Hst) as Hmm.
  pose proof (multiple_gap 0 m _ (Nat.Div0.mod_0_l _) Hmm ltac:(lia)) as Hge.
  destruct Hst as (j & fu & fv & Hj & Hu & _ & _).
  rewrite length_app, length_take, length_units, Nat.min_l in Hu by lia.
  assert (Hpre : take (length us) fu = us).
  { apply (f_equal (take (length us))) in Hu. rewrite take_app_length, take_take, Nat.min_l in Hu by lia. done. }
  assert (Hlen : (length us + m ≤ length fu)%nat).
  { apply (f_equal length) in Hu. rewrite length_app, !length_take, length_units in Hu. lia. }
  destruct (descend _ _ _ _ _ _ _ _ _ _ _ _ Hps HT Hi Hj Hpre ltac:(lia))
    as (a & nm & ru & rv & Hna & Har & Hap & Hae & _ & Hfu & _).
  apply nheap_Some in Hna as (child & Hc & ->). simpl in *.
  destruct (ok_parent _ _ _ _ _ HT _ _ (nheap_lookup _ _ _ Hc) Har) as (p & pn & ck & Hp & Hpn & Hck & Hg).
  simpl in *. assert (p = i) as -> by congruence. apply nheap_Some in Hpn as (n & Hn & ->).
  destruct (ok_key _ _ _ _ _ HT _ _ (nheap_lookup _ _ _ Hc) Har) as (Hk1 & Hk2 & Hk3 & _). simpl in *.
  assert (Htake : take m (units k) = take m (units (key child) ++ ru)).
  { rewrite Hfu in Hu. rewrite take_app_ge in Hu by lia. apply app_inv_head in Hu.
    by replace (length us + m - length us)%nat with m in Hu by lia. }
  exists n, ck, a, child, ru. split_and!; try done. rewrite <-Hck. apply child_key_eq; [|by apply aligned_ge|congruence|].
  - split; [done|]. by transitivity m; [|lia].
  - split; [congruence|]. apply (f_equal (take page_size)) in Htake.
    rewrite !take_take, Nat.min_l, take_app_le in Htake by (rewrite ?length_units; try apply aligned_ge; lia || done).
    done.
Qed.

(** The child filed under the key of [k], and how far it agrees with [k]. *)
Lemma found_child c e i n us vs k ck ci :
  wf c → heap c !! i = Some n → fullc c e i us vs → arg_ok e k → (0 < klen k)%nat →
  child_key page_size k = Ok ck → od_get ck (children n) = Some ci →
  ∃ child pl, heap c !! ci = Some child ∧ ci ≠ root_node c ∧ parent child = Some i ∧ extra_key (key child) = e ∧
    kmatch page_size (key child) k = Ok pl ∧ (0 < pl ≤ klen k)%nat ∧ (pl mod page_size = 0)%nat ∧
    (pl ≤ klen (key child))%nat ∧ length (value child) = klen (key child) ∧
    take pl (units (key child)) = take pl (units k) ∧
    ((pl < klen (key child))%nat → no_longer c e us k pl).
Proof.
  intros Hw Hi Hf (Ha & Hb & He) Hk Hck Hg. pose proof Hw as (HT & _).
  destruct (ok_child _ _ _ _ _ HT _ _ _ _ (nheap_lookup _ _ _ Hi) Hg) as (m & Hm & Hmp & Hmk).
  apply nheap_Some in Hm as (child & Hc & ->). simpl in *.
  assert (Hcr : ci ≠ root_node c).
  { intros ->. destruct (ok_root _ _ _ _ _ HT) as (r & Hr & Hrp & _). rewrite (nheap_lookup _ _ _ Hc) in Hr.
    injection Hr as <-. simpl in Hrp. congruence. }
  destruct (ok_key _ _ _ _ _ HT _ _ (nheap_lookup _ _ _ Hc) Hcr) as (Hk1 & Hk2 & Hk3 & Hk4). simpl in *.
  pose proof (aligned_ge _ Ha Hk) as Hge. pose proof (aligned_ge _ Hk2 Hk1) as Hge2.
  assert (Heq : child_key page_size (key child) = child_key page_size k) by congruence.
  apply child_key_eq in Heq as [Hex Hpage]; [|lia|done|congruence].
  exists child. rewrite kmatch_units by (done || congruence). eexists. split_and!; try done; [congruence| |..].
  all: set (cp := common_prefix (units (key child)) (units k)).
  all: destruct (common_prefix_spec (units (key child)) (units k)) as (Hcp & Hcl & Hcr' & _).
  all: fold cp in Hcp, Hcl, Hcr'; rewrite length_units in Hcl, Hcr'.
  all: pose proof (floor_spec cp page_size Hps) as Hfl.
  - apply common_prefix_take in Hpage; [|rewrite length_units; lia..]. fold cp in Hpage. nia.
  - lia.
  - apply Nat.Div0.mod_mul.
  - lia.
  - apply common_prefix_take; rewrite ?length_units; fold cp; lia.
  - intros Hlt m s Hm Hst. destruct (decide (m ≤ cp / page_size * page_size)%nat) as [|Hgt]; [done|exfalso].
    destruct (full_length _ _ _ _ _ _ _ _ _ HT Hf) as (_ & Hmul & _).
    pose proof (stored_multiple _ _ _ _ _ _ Hmul Hm Hst) as Hmm.
    destruct (longer_child c e i us vs k m s Hw Hf ltac:(done) ltac:(lia) Hst)
      as (n' & ck' & ci' & child' & ru & Hn' & Hck' & Hg' & Hc' & Htake).
    assert (n' = n) as -> by congruence. assert (ck' = ck) as -> by congruence.
    assert (ci' = ci) as -> by congruence. assert (child' = child) as -> by congruence.
    set (q := (cp / page_size * page_size + page_size)%nat).
    assert (Hq1 : (q ≤ m)%nat) by (apply multiple_gap; [apply Nat.Div0.mod_mul|done|lia]).
    assert (Hq2 : (q ≤ klen (key child))%nat) by (apply multiple_gap; [apply Nat.Div0.mod_mul|done|done]).
    apply (f_equal (take q)) in Htake. rewrite !take_take, Nat.min_l, take_app_le in Htake by (rewrite ?length_units; lia).
    symmetry in Htake. apply common_prefix_take in Htake; [|rewrite length_units; lia..]. fold cp in Htake. lia.
Qed.

Lemma full_child c e i ci child us vs :
  heap c !! ci = Some child → ci ≠ root_node c → parent child = Some i → extra_key (key child) = e →
  fullc c e i us vs → fullc c e ci (us ++ units (key child)) (vs ++ value child).
Proof. intros Hc Hr Hp He Hf. exact (seg_up _ _ _ _ ci (norm child) i _ _ Hr (nheap_lookup _ _ _ Hc) Hp He Hf). Qed.

Lemma arg_ok_suffix e k n : arg_ok e k → (n mod page_size = 0)%nat → (n ≤ klen k)%nat → arg_ok e (ksuffix n k).
Proof.
  intros (Ha & Hb & He) Hn Hle. unfold arg_ok, aligned, ksuffix. destruct (kslice_mode n (klen k) k) as [-> ->].
  split_and!; try done. fold (ksuffix n k). rewrite klen_ksuffix. unfold aligned in Ha.
  apply Nat.Div0.div_exact in Ha, Hn. rewrite Ha, Hn. rewrite <-Nat.mul_sub_distr_l, Nat.mul_comm. apply Nat.Div0.mod_mul.
Qed.

Lemma no_longer_extend c c' e us k pl b :
  quiet c c' → (pl ≤ klen k)%nat → no_longer c' e (us ++ take pl (units k)) (ksuffix pl k) b → no_longer c e us k (pl + b).
Proof.
  intros Hq Hpl Hn m s Hm Hst. destruct (decide (m ≤ pl)%nat); [lia|].
  assert (m - pl ≤ b)%nat; [|lia]. apply (Hn (m - pl)%nat s); [rewrite klen_ksuffix; lia|].
  apply (quiet_stored _ _ _ _ _ Hq). rewrite units_ksuffix, <-app_assoc.
  replace (take pl (units k) ++ take (m - pl) (drop pl (units k))) with (take m (units k)); [done|].
  replace m with (pl + (m - pl))%nat at 1 by lia. symmetry. apply take_take_drop.
Qed.

Lemma no_child_no_longer c e i n us vs k ck :
  wf c → heap c !! i = Some n → fullc c e i us vs → arg_ok e k →
  child_key page_size k = Ok ck → od_get ck (children n) = None → no_longer c e us k 0.
Proof.
  intros Hw Hi Hf Ha Hck Hg m s Hm Hst. destruct (decide (m = 0)%nat); [lia|exfalso].
  destruct (longer_child c e i us vs k m s Hw Hf Ha ltac:(lia) Hst) as (n' & ck' & ci & child & ru & ? & ? & ? & _).
  congruence.
Qed.

(** ** [match_prefix] *)

Lemma match_loop_ok fuel t i k vals c e us vs :
  (klen k < fuel)%nat → wf c → is_Some (heap c !! i) → fullc c e i us vs → arg_ok e k → concat vals = vs →
  ∃ c' vals' j b, match_loop page_size monotonic fuel t i k vals c = Ok (c', vals', j) ∧ quiet c c' ∧
    (b ≤ klen k)%nat ∧ fullc c' e j (us ++ take b (units k)) (concat vals') ∧ no_longer c e us k b.
Proof.
  revert i k vals c us vs. induction fuel as [|fuel IH]; intros i k vals c us vs Hfuel Hw [n Hi] Hf Ha Hvals; [lia|].
  cbn [match_loop]. case_decide as Hk0.
  { exists c, vals, i, 0%nat. rewrite take_0, app_nil_r, Hvals. split_and!; [done|by apply quiet_refl|lia|done|].
    intros m s Hm _. lia. }
  destruct (child_key_ok page_size k) as (pl0 & Hck & _); [split; [done|apply aligned_ge; [apply Ha|lia]]|].
  rewrite Hck. run_bind. rewrite (node_at_eq _ _ _ Hi). run_bind.
  destruct (od_get _ (children n)) as [ci|] eqn:Hg.
  2: { exists c, vals, i, 0%nat. rewrite take_0, app_nil_r, Hvals. split_and!; [done|by apply quiet_refl|lia|done|].
       by eapply no_child_no_longer. }
  destruct (found_child c e i n us vs k _ ci Hw Hi Hf Ha ltac:(lia) Hck Hg)
    as (child & pl & Hc & Hcr & Hcp & Hce & Hm & Hpl & Hplm & Hplc & Hlv & Htake & Hno).
  rewrite (node_at_eq _ _ _ Hc). run_bind. change (key (with_access t child)) with (key child).
  rewrite Hm. run_bind. pose proof (touch_quiet c ci child (with_access t child) Hw Hc eq_refl) as Hq1.
  set (c1 := set_node ci (with_access t child) c) in *.
  assert (Hc1 : heap c1 !! ci = Some (with_access t child)) by apply lookup_insert_eq.
  case_decide as Hlt.
  - destruct (split_node_ok c1 ci (with_access t child) pl (q_wf _ _ Hq1) Hc1 Hcr ltac:(simpl; lia) Hplm)
      as (c' & ni & nn & Hsp & Hq2 & Hnn & Hvn & Hfn).
    simpl in Hsp, Hvn, Hfn. rewrite Hsp. run_bind. cbn [fst snd]. rewrite (node_at_eq _ _ _ Hnn). run_bind.
    exists c', (vals ++ [value nn]), ni, pl. split_and!; [done|by eapply quiet_trans|lia| |auto].
    rewrite concat_app, Hvals. cbn [concat]. rewrite app_nil_r, Hvn, <-Htake.
    apply (Hfn e i); [done|done|]. by apply (quiet_full _ _ _ _ _ _ Hq1).
  - assert (pl = klen (key child)) as Hpe by lia.
    assert (Hun : units (key child) = take pl (units k)).
    { rewrite <-Htake. symmetry. apply take_ge. rewrite length_units. lia. }
    pose proof (full_child c e i ci child us vs Hc Hcr Hcp Hce Hf) as Hfc. rewrite Hun in Hfc.
    destruct (IH ci (ksuffix pl k) (vals ++ [value (with_access t child)]) c1 (us ++ take pl (units k)) (vs ++ value child))
      as (c' & vals' & j & b & Hr & Hq2 & Hb & Hfj & Hnl).
    + rewrite klen_ksuffix. lia.
    + apply Hq1.
    + by exists (with_access t child).
    + by apply (quiet_full _ _ _ _ _ _ Hq1).
    + by apply arg_ok_suffix; [|..|lia].
    + rewrite concat_app, Hvals. cbn [concat]. by rewrite app_nil_r.
    + rewrite klen_ksuffix in Hb. exists c', vals', j, (pl + b)%nat.
      split_and!; [done|by eapply quiet_trans|lia| |by eapply no_longer_extend; [|lia|]].
      rewrite units_ksuffix, <-app_assoc, take_take_drop in Hfj. done.
Qed.

(** The key an operation works on. *)
Definition norm_key (k : RadixKey) : RadixKey := page_aligned page_size (maybe_to_bigram_view is_eagle k None).1.

(** Callers of a plain tree pass plain keys. *)
Definition mode_ok (k : RadixKey) : Prop := is_bigram k = true → is_eagle = true.

Lemma page_aligned_ok k : aligned page_size (page_aligned page_size k) ∧
  extra_key (page_aligned page_size k) = extra_key k ∧ is_bigram (page_aligned page_size k) = is_bigram k ∧
  (klen (page_aligned page_size k) ≤ klen k)%nat.
Proof.
  unfold page_aligned. case_decide as H1.
  - rewrite H1. split_and!; try done.
  - destruct (kslice_mode 0 (klen k / page_size * page_size) k) as [He Hb]. unfold kprefix. rewrite He, Hb.
    fold (kprefix (klen k / page_size * page_size) k). unfold aligned. rewrite klen_kprefix.
    pose proof (floor_spec (klen k) page_size Hps). rewrite Nat.min_l by lia. split_and!; try done; [|lia].
    apply Nat.Div0.mod_mul.
Qed.

Lemma view_mode k v : mode_ok k →
  is_bigram (maybe_to_bigram_view is_eagle k v).1 = is_eagle ∧
  extra_key (maybe_to_bigram_view is_eagle k v).1 = extra_key k.
Proof.
  intros Hm. unfold maybe_to_bigram_view. unfold mode_ok in Hm.
  destruct is_eagle, (is_bigram k) eqn:E; simpl; try done. by specialize (Hm eq_refl).
Qed.

Lemma norm_key_ok k : mode_ok k → arg_ok (extra_key k) (norm_key k).
Proof.
  intros Hm. destruct (view_mode k None Hm) as [Hb He]. unfold arg_ok, norm_key.
  destruct (page_aligned_ok (maybe_to_bigram_view is_eagle k None).1) as (Ha & -> & -> & _). done.
Qed.

Lemma full_at_root c e : fullc c e (root_node c) [] [].
Proof. constructor. Qed.

Lemma root_lookup c : wf c → ∃ r, heap c !! root_node c = Some r.
Proof.
  intros (HT & _). destruct (ok_root _ _ _ _ _ HT) as (r & Hr & _). apply nheap_Some in Hr as (n & Hn & _). eauto.
Qed.

Lemma stored_full c e j us vs : wf c → fullc c e j us vs → stored c e us vs.
Proof.
  intros (HT & _) Hf. destruct (full_length _ _ _ _ _ _ _ _ _ HT Hf) as (Hl & Hm & _).
  exists j, us, vs. split_and!; [done| | |done]; by rewrite take_ge by lia.
Qed.

Lemma match_prefix_ok k c :
  wf c → mode_ok k →
  ∃ c' vs j n, match_prefix page_size false is_eagle monotonic k c = Ok (c', vs, j) ∧ quiet c c' ∧
    (n ≤ klen (norm_key k))%nat ∧ fullc c' (extra_key k) j (take n (units (norm_key k))) vs ∧
    no_longer c (extra_key k) [] (norm_key k) n.
Proof.
  intros Hw Hm. pose proof (norm_key_ok k Hm) as Ha. unfold match_prefix. cbv zeta. fold (norm_key k).
  assert (Hempty : klen (norm_key k) = 0%nat → ∃ c' vs j n, Ok (c, [], root_node c) = Ok (c', vs, j) ∧ quiet c c' ∧
    (n ≤ klen (norm_key k))%nat ∧ fullc c' (extra_key k) j (take n (units (norm_key k))) vs ∧
    no_longer c (extra_key k) [] (norm_key k) n).
  { intros H0. exists c, [], (root_node c), 0%nat. split_and!; [done|by apply quiet_refl|lia|constructor|].
    intros m s Hle _. lia. }
  simpl orb. case_bool_decide as Hk.
  { apply Hempty. destruct (page_aligned_ok (maybe_to_bigram_view is_eagle k None).1) as (_ & _ & _ & Hle).
    unfold norm_key. lia. }
  case_decide as Hk'; [by apply Hempty|]. unfold match_prefix_helper.
  destruct (now monotonic c) as [c1 t] eqn:Hnow.
  assert (Hq1 : quiet c c1) by (pose proof (now_quiet c Hw) as Hq; by rewrite Hnow in Hq).
  destruct (root_lookup c1 (q_wf _ _ Hq1)) as [r Hr]. rewrite (q_root _ _ Hq1) in Hr.
  rewrite (node_at_eq _ _ _ Hr). run_bind.
  pose proof (touch_quiet c1 (root_node c) r (with_access t r) (q_wf _ _ Hq1) Hr eq_refl) as Hq2.
  pose proof (quiet_trans _ _ _ Hq1 Hq2) as Hq12. set (c2 := set_node _ _ c1) in *.
  destruct (match_loop_ok (S (klen (norm_key k))) t (root_node c) (norm_key k) [] c2 (extra_key k) [] [])
    as (c' & vals' & j & b & Hr' & Hq3 & Hb & Hfj & Hnl); [lia|apply Hq12| | |done|done|].
  - exists (with_access t r). apply lookup_insert_eq.
  - rewrite <-(q_root _ _ Hq12). apply full_at_root.
  - rewrite Hr'. run_bind. exists c', (concat vals'), j, b.
    split_and!; [done|by eapply quiet_trans|done|done|].
    intros m s Hle Hst. apply (Hnl m s Hle). by apply (quiet_stored _ _ _ _ _ Hq12).
Qed.

(** ** [insert] *)

Lemma norm_hit ch q n : norm (inc_hit_count ch (with_priority q n)) = norm n.
Proof. by destruct ch. Qed.

Lemma insert_loop_ok fuel t prio ch i k v total c e us vs :
  (klen k < fuel)%nat → wf c → is_Some (heap c !! i) → fullc c e i us vs → arg_ok e k →
  ∃ c' j k' b ws n, insert_loop page_size monotonic fuel t prio ch i k v total c
      = Ok (c', j, k', drop b v, (total + b)%nat) ∧ quiet c c' ∧ (b ≤ klen k)%nat ∧
    arg_ok e k' ∧ units k' = drop b (units k) ∧ heap c' !! j = Some n ∧
    fullc c' e j (us ++ take b (units k)) ws ∧ no_longer c e us k b ∧
    ((0 < klen k')%nat → ∃ ck, child_key page_size k' = Ok ck ∧ od_get ck (children n) = None).
Proof.
  revert i k v total c us vs.
  induction fuel as [|fuel IH]; intros i k v total c us vs Hfuel Hw [n Hi] Hf Ha; [lia|].
  cbn [insert_loop]. case_decide as Hk0.
  { exists c, i, k, 0%nat, vs, n. rewrite take_0, app_nil_r, !drop_0, Nat.add_0_r.
    split_and!; [done|by apply quiet_refl|lia|done|done|done|done| |lia]. intros m s Hm _. lia. }
  destruct (child_key_ok page_size k) as (pl0 & Hck & _); [split; [done|apply aligned_ge; [apply Ha|lia]]|].
  rewrite Hck. run_bind. rewrite (node_at_eq _ _ _ Hi). run_bind.
  destruct (od_get _ (children n)) as [ci|] eqn:Hg.
  2: { exists c, i, k, 0%nat, vs, n. rewrite take_0, app_nil_r, !drop_0, Nat.add_0_r.
       split_and!; [done|by apply quiet_refl|lia|done|done|done|done|by eapply no_child_no_longer|eauto]. }
  destruct (found_child c e i n us vs k _ ci Hw Hi Hf Ha ltac:(lia) Hck Hg)
    as (child & pl & Hc & Hcr & Hcp & Hce & Hm & Hpl & Hplm & Hplc & Hlv & Htake & Hno).
  rewrite (node_at_eq _ _ _ Hc). run_bind. change (key (with_access t child)) with (key child).
  rewrite Hm. run_bind. pose proof (touch_quiet c ci child (with_access t child) Hw Hc eq_refl) as Hq1.
  set (c1 := set_node ci (with_access t child) c) in *.
  assert (Hc1 : heap c1 !! ci = Some (with_access t child)) by apply lookup_insert_eq.
  assert (Hnext : ∀ c2 nj nn ws, quiet c c2 → heap c2 !! nj = Some nn → fullc c2 e nj (us ++ take pl (units k)) ws →
    ∃ c' j k' b ws' n', insert_loop page_size monotonic fuel t prio ch nj (ksuffix pl k) (drop pl v) (total + pl)
        (set_node nj (inc_hit_count ch (with_priority (priority nn `max` prio) nn)) c2)
      = Ok (c', j, k', drop b v, (total + b)%nat) ∧ quiet c c' ∧ (b ≤ klen k)%nat ∧
      arg_ok e k' ∧ units k' = drop b (units k) ∧ heap c' !! j = Some n' ∧
      fullc c' e j (us ++ take b (units k)) ws' ∧ no_longer c e us k b ∧
      ((0 < klen k')%nat → ∃ ck, child_key page_size k' = Ok ck ∧ od_get ck (children n') = None)).
  { intros c2 nj nn ws Hq Hnj Hfn.
    pose proof (touch_quiet c2 nj nn _ (q_wf _ _ Hq) Hnj (norm_hit ch (priority nn `max` prio) nn)) as Hq2.
    destruct (IH nj (ksuffix pl k) (drop pl v) (total + pl)%nat
      (set_node nj (inc_hit_count ch (with_priority (priority nn `max` prio) nn)) c2) (us ++ take pl (units k)) ws)
      as (c' & j & k' & b & ws' & n' & Hr & Hq3 & Hb & Hak & Hu & Hn' & Hfj & Hnl & Hex).
    - rewrite klen_ksuffix. lia.
    - apply Hq2.
    - eexists. apply lookup_insert_eq.
    - by apply (quiet_full _ _ _ _ _ _ Hq2).
    - apply arg_ok_suffix; [done|done|lia].
    - rewrite klen_ksuffix in Hb. rewrite units_ksuffix in Hu, Hfj. rewrite !drop_drop in *.
      exists c', j, k', (pl + b)%nat, ws', n'.
      split_and!; [by rewrite Hr, Nat.add_assoc|exact (quiet_trans _ _ _ Hq (quiet_trans _ _ _ Hq2 Hq3))|lia|done|done|done| | |done].
      + by rewrite <-app_assoc, take_take_drop in Hfj.
      + eapply no_longer_extend; [exact (quiet_trans _ _ _ Hq Hq2)|lia|exact Hnl]. }
  case_decide as Hlt.
  - destruct (split_node_ok c1 ci (with_access t child) pl (q_wf _ _ Hq1) Hc1 Hcr ltac:(simpl; lia) Hplm)
      as (c' & ni & nn & Hsp & Hq2 & Hnn & Hvn & Hfn).
    simpl in Hsp, Hvn, Hfn. rewrite Hsp. run_bind. cbn [fst snd]. rewrite (node_at_eq _ _ _ Hnn). run_bind.
    apply (Hnext c' ni nn (vs ++ take pl (value child))); [by eapply quiet_trans|done|]. rewrite <-Htake.
    apply (Hfn e i); [done|done|]. by apply (quiet_full _ _ _ _ _ _ Hq1).
  - assert (Hun : units (key child) = take pl (units k)).
    { rewrite <-Htake. symmetry. apply take_ge. rewrite length_units. lia. }
    apply (Hnext c1 ci (with_access t child) (vs ++ value child) Hq1 Hc1).
    apply (quiet_full _ _ _ _ _ _ Hq1). rewrite <-Hun. by eapply full_child.
Qed.

Lemma update_leaf_status_eq c i n :
  heap c !! i = Some n →
  update_leaf_status i c = Ok (set_leaves (leaf_upd (nheap c) i (evictable_leaves c)) c).
Proof.
  intros Hi. unfold update_leaf_status, leaf_upd. rewrite (node_at_eq _ _ _ Hi), (nheap_lookup _ _ _ Hi). run_bind. simpl.
  case_bool_decide; [done|]. by destruct (children n).
Qed.

Lemma leaf_upd_parent H i n lv : H !! i = Some n → children n ≠ [] → leaf_upd H i lv = lv ∖ {[i]}.
Proof. intros Hi Hc. unfold leaf_upd. rewrite Hi. case_bool_decide; [done|]. by destruct (children n). Qed.

Lemma leaf_upd_other H i j lv : j ≠ i → j ∈ leaf_upd H i lv ↔ j ∈ lv.
Proof.
  intros Hj. unfold leaf_upd. destruct (H !! i) as [n|]; [|done]. case_bool_decide; [set_solver|].
  destruct (children n); set_solver.
Qed.

Lemma od_set_not_nil (k : ChildKey) (x : nat) d : od_set k x d ≠ [].
Proof. destruct d as [|[? ?] ?]; simpl; [done|]. by case_decide. Qed.

(** What the new leaf adds. *)
Lemma add_leaf_ok prio ch i n k v ck c e us vs :
  wf c → heap c !! i = Some n → fullc c e i us vs → arg_ok e k → (0 < klen k)%nat → length v = klen k →
  child_key page_size k = Ok ck → od_get ck (children n) = None →
  ∃ c' j, add_leaf page_size monotonic prio ch i k v c = Ok c' ∧ wf c' ∧ root_node c' = root_node c ∧
    evictable_size_ c' = evictable_size_ c + Z.of_nat (klen k) ∧ protected_size_ c' = protected_size_ c ∧
    fullc c' e j (us ++ units k) (vs ++ v) ∧
    (∀ e' j' us' vs', fullc c e' j' us' vs' → fullc c' e' j' us' vs') ∧
    (∀ x, slots x (nheap c') = slots x (nheap c) + count x v) ∧ same_locks c c' ∧
    (∀ e' us' vs', stored c' e' us' vs' → stored c e' us' vs' ∨
       (e' = e ∧ us' = take (length us') (us ++ units k) ∧ vs' = take (length us') (vs ++ v))).
Proof.
  intros Hw Hi Hf (Ha & Hb & He) Hk Hv Hck Hg. pose proof Hw as (HT & HL & HB).
  pose proof (nheap_lookup _ _ _ Hi) as Hni.
  assert (Hcf : heap c !! counter c = None).
  { pose proof (cnt_fresh _ _ _ _ _ HT) as Hcf. unfold nheap in Hcf. rewrite lookup_fmap in Hcf.
    by destruct (heap c !! counter c). }
  assert (Hic : counter c ≠ i) by congruence.
  unfold add_leaf. rewrite decide_False by lia. rewrite Hck. run_bind. unfold new_node. cbv zeta.
  match goal with |- context [node_at ?c1 i] => assert (Hl : heap c1 !! i = Some n) by (simpl; by simplify_map_eq) end.
  rewrite (node_at_eq _ _ _ Hl). run_bind. clear Hl.
  match goal with |- context [update_leaf_status i ?c3] => set (c3' := c3) end.
  assert (Hh : nheap c3' = <[i := with_children (od_set ck (counter c) (children (norm n))) (norm n)]>
     (<[counter c := leaf_node i k v]> (nheap c))).
  { unfold c3', nheap. simpl. rewrite !fmap_insert. by destruct ch. }
  rewrite (update_leaf_status_eq c3' i (with_children (od_set ck (counter c) (children n)) n)) by apply lookup_insert_eq.
  run_bind. erewrite update_leaf_status_eq by (simpl; rewrite lookup_insert_ne, lookup_insert_eq by done; done).
  set (c4 := set_leaves (leaf_upd (nheap c3') i (evictable_leaves c3')) c3').
  match goal with |- context [Ok ?c'] => set (c5 := c') end. exists c5, (counter c). split; [done|].
  assert (Hh5 : nheap c5 = nheap c3') by done. assert (Hr5 : root_node c5 = root_node c) by done.
  assert (Hlv5 : evictable_leaves c5 = (evictable_leaves c ∖ {[i]}) ∪ {[counter c]}).
  { unfold c5, c4. simpl. change (nheap (set_leaves _ c3')) with (nheap c3'). rewrite Hh.
    rewrite (leaf_upd_parent _ i (with_children (od_set ck (counter c) (children (norm n))) (norm n)))
      by (first [apply lookup_insert_eq|apply od_set_not_nil]).
    unfold leaf_upd. rewrite lookup_insert_ne, lookup_insert_eq by done. done. }
  assert (Hkok : key_ok page_size is_eagle (leaf_node i k v)) by (by split_and!).
  assert (Hfwd : ∀ e' j' us' vs', fullc c e' j' us' vs' → fullc c5 e' j' us' vs').
  { intros e' j' us' vs'. rewrite Hr5, Hh5, Hh. apply seg_data_sub, add_data_sub; [done|].
    unfold nheap. by rewrite lookup_fmap, Hcf. }
  split.
  { unfold RadixCache.wf. rewrite Hh5, Hh, Hr5, Hlv5. simpl. split_and!.
    - exact (tree_add page_size is_eagle _ _ _ i _ k v ck HT Hni Hck Hg Hkok).
    - exact (locks_add page_size is_eagle _ _ _ i _ k v ck HT Hni Hck Hg Hkok HL).
    - replace (protected_size_ c + 0) with (protected_size_ c) by lia.
      exact (books_add page_size is_eagle _ _ _ i _ k v ck HT Hni Hck Hg Hkok _ _ _ HB). }
  split; [done|]. split; [done|]. split; [simpl; lia|].
  split; [|split; [exact Hfwd|split; [|split]]].
  - unfold full. rewrite Hh5, Hh, Hr5.
    apply (seg_up _ _ _ _ (counter c) (leaf_node i k v) i); [|by simplify_map_eq|done|done|].
    + destruct (root_lookup c Hw) as [r Hr]. congruence.
    + rewrite <-Hh, <-Hh5, <-Hr5. by apply Hfwd.
  - intros x. rewrite Hh5, Hh. unfold slots.
    exact (add_hsum page_size is_eagle _ _ _ i _ k v ck HT Hni Hck Hg Hkok (fun _ n => count x (value n)) eq_refl).
  - pose proof (child_locks_add page_size is_eagle _ _ _ i _ k v ck HT Hni Hck Hg Hkok) as Hcl.
    apply same_locks_intro; intros j m Hj; rewrite Hh5, Hh, Hcl.
    2: { rewrite (fresh_child_locks _ _ _ j HT Hj), lookup_insert_ne by congruence.
         intros [[<- <-]|[_ ?]]%lookup_insert_Some; [done|congruence]. }
    destruct (add_data_sub (nheap c) i (norm n) (od_set ck (counter c) (children (norm n))) (counter c) (leaf_node i k v) Hni
      (cnt_fresh _ _ _ _ _ HT) j m Hj) as (m' & Hm' & _ & _ & _ & Hlk). exists m'. split_and!; done.
  - intros e' us' vs' (j & fu & fv & Hj & Hu & Hv' & Hmod). rewrite Hr5, Hh5, Hh in Hj. eapply add_full in Hj; [|exact HT|exact Hni]. case_decide as Hjc.
    + destruct Hj as (u & w & Hfu & <- & -> & ->). right.
      assert (e = extra_key k) by congruence. subst e. destruct (full_det _ _ _ _ _ _ _ _ Hfu Hf) as [-> ->]. done.
    + left. exists j, fu, fv. done.
Qed.

(** The values [insert] stores: one per unit of the aligned key. *)
Definition norm_value (k : RadixKey) (v : option (list Z)) : list Z :=
  match (maybe_to_bigram_view is_eagle k v).2 with
  | Some v => take (klen (norm_key k)) v
  | None => take (klen (norm_key k)) (token_ids (norm_key k))
  end.

Definition value_ok (k : RadixKey) (v : option (list Z)) : Prop :=
  match v with Some v => (klen (norm_key k) ≤ length v)%nat | None => True end.

Lemma norm_value_length k v : value_ok k v → length (norm_value k v) = klen (norm_key k).
Proof.
  destruct (page_aligned_ok (maybe_to_bigram_view is_eagle k None).1) as (_ & _ & _ & Hle). fold (norm_key k) in Hle.
  unfold norm_value, value_ok. destruct v as [v|].
  - intros Hv. revert Hle. unfold maybe_to_bigram_view. destruct (is_eagle && _); simpl; intros Hle;
      rewrite ?length_take; lia.
  - intros _. assert (Hl : (klen (norm_key k) ≤ length (token_ids (norm_key k)))%nat).
    { unfold klen. destruct (is_bigram _); lia. }
    unfold maybe_to_bigram_view. destruct (is_eagle && _); simpl; len_lia.
Qed.

(** The contract of an insertion of [k] with values [v] whose first [n] units were
    cached with values [ws]. *)
Record inserted (c c' : RadixCache) (e : option string) (k : RadixKey) (v : list Z) (n : nat) (ws : list Z) : Prop := {
  in_wf : wf c';
  in_root : root_node c' = root_node c;
  in_le : (n ≤ klen k)%nat;
  in_old : stored c e (take n (units k)) ws;
  in_longest : no_longer c e [] k n;
  in_new : stored c' e (units k) (ws ++ drop n v);
  in_keep : ∀ e' us vs, stored c e' us vs → stored c' e' us vs;
  in_only : ∀ e' us vs, stored c' e' us vs → stored c e' us vs ∨
    (e' = e ∧ us = take (length us) (units k) ∧ vs = take (length us) (ws ++ drop n v));
  in_evictable : evictable_size_ c' = evictable_size_ c + Z.of_nat (klen k - n);
  in_protected : protected_size_ c' = protected_size_ c;
  in_full : ∀ e' j us vs, fullc c e' j us vs → fullc c' e' j us vs;
  in_slots : ∀ x, slots x (nheap c') = slots x (nheap c) + count x (drop n v);
  in_locks : same_locks c c';
}.

Lemma inserted_quiet c c' e k v j ws :
  quiet c c' → fullc c' e j (units k) ws → no_longer c e [] k (klen k) → length v = klen k →
  inserted c c' e k v (klen k) ws.
Proof.
  intros Hq Hf Hnl Hv. pose proof (stored_full _ _ _ _ _ (q_wf _ _ Hq) Hf) as Hst.
  assert (Hnil : ws ++ drop (klen k) v = ws) by (rewrite drop_ge, app_nil_r by lia; done).
  split; rewrite ?Hnil; try done.
  - apply Hq.
  - apply Hq.
  - rewrite take_ge by (rewrite length_units; lia). by apply (quiet_stored _ _ _ _ _ Hq).
  - intros e' us vs. apply (quiet_stored _ _ _ _ _ Hq).
  - intros e' us vs Hs. left. by apply (quiet_stored _ _ _ _ _ Hq).
  - rewrite (q_evictable _ _ Hq). lia.
  - apply Hq.
  - intros e' j' us vs. apply (quiet_full _ _ _ _ _ _ Hq).
  - intros x. rewrite (q_slots _ _ Hq), drop_ge by lia. change (count x []) with 0. lia.
  - apply Hq.
Qed.

Lemma insert_helper_ok k v prio ch c e :
  wf c → arg_ok e k → length v = klen k →
  ∃ c' n ws, insert_helper page_size monotonic (root_node c) k v prio ch c = Ok (c', n) ∧ inserted c c' e k v n ws.
Proof.
  intros Hw Ha Hv. unfold insert_helper. destruct (now monotonic c) as [c1 t] eqn:Hnow.
  assert (Hq1 : quiet c c1) by (pose proof (now_quiet c Hw) as Hq; by rewrite Hnow in Hq).
  destruct (root_lookup c1 (q_wf _ _ Hq1)) as [r Hr]. rewrite (q_root _ _ Hq1) in Hr.
  rewrite (node_at_eq _ _ _ Hr). run_bind.
  pose proof (touch_quiet c1 (root_node c) r (with_priority (priority r `max` prio) (with_access t r))
    (q_wf _ _ Hq1) Hr eq_refl) as Hq2.
  pose proof (quiet_trans _ _ _ Hq1 Hq2) as Hq. set (c2 := set_node _ _ c1) in *.
  case_decide as Hk0.
  { exists c2, 0%nat, []. split; [done|]. rewrite <-Hk0.
    eapply (inserted_quiet _ _ _ _ _ (root_node c2)); [done| | |done].
    - assert (units k = []) as -> by (apply nil_length_inv; by rewrite length_units). constructor.
    - intros m s Hm _. done. }
  destruct (insert_loop_ok (S (klen k)) t prio ch (root_node c) k v 0 c2 e [] [])
    as (c3 & j & k' & b & ws & n & Hr' & Hq3 & Hb & Hak & Hu & Hn & Hfj & Hnl & Hex); [lia|apply Hq| | |done|].
  { eexists. apply lookup_insert_eq. }
  { rewrite <-(q_root _ _ Hq). apply full_at_root. }
  rewrite Hr'. run_bind. pose proof (quiet_trans _ _ _ Hq Hq3) as Hq13. rewrite app_nil_l in Hfj.
  assert (Hnl' : no_longer c e [] k b).
  { intros m s Hle Hst. apply (Hnl m s Hle). by apply (quiet_stored _ _ _ _ _ Hq). }
  assert (Hlk : klen k' = (klen k - b)%nat) by (by rewrite <-!length_units, Hu, length_drop).
  destruct (decide (klen k' = 0)%nat) as [Hk'|Hk'].
  - unfold add_leaf. rewrite decide_True by done. run_bind. assert (b = klen k) as -> by lia.
    exists c3, (klen k), ws. split; [done|]. eapply inserted_quiet; [done| |done|done].
    by rewrite take_ge in Hfj by (rewrite length_units; lia).
  - destruct (Hex ltac:(lia)) as (ck & Hck & Hg).
    destruct (add_leaf_ok prio ch j n k' (drop b v) ck c3 e (take b (units k)) ws (q_wf _ _ Hq13) Hn Hfj Hak)
      as (c4 & j' & Hadd & Hw4 & Hr4 & He4 & Hp4 & Hf4 & Hfw & Hsl & Hlk4 & Hon); try done; [lia|len_lia|].
    rewrite Hadd. run_bind. rewrite Hu, take_drop in Hf4. rewrite Hu, take_drop in Hon.
    exists c4, b, ws. split; [done|].
    assert (Hkeep : ∀ e' us vs, stored c e' us vs → stored c4 e' us vs).
    { intros e' us vs Hs. apply (quiet_stored _ _ _ _ _ Hq13) in Hs. pose proof (q_wf _ _ Hq13) as (HT & _).
      destruct Hs as (i' & fu & fv & Hfi & Hrest). exists i', fu, fv. split; [|done]. rewrite Hr4 in *. by apply Hfw. }
    split; try done.
    + rewrite Hr4. apply Hq13.
    + apply (quiet_stored _ _ _ _ _ Hq13). by eapply stored_full; [apply Hq13|].
    + by eapply stored_full.
    + intros e' us vs [Hs|Hs]%Hon; [left; by apply (quiet_stored _ _ _ _ _ Hq13)|by right].
    + rewrite He4, (q_evictable _ _ Hq13), Hlk. done.
    + rewrite Hp4. apply Hq13.
    + intros e' i' us vs Hfi. apply Hfw. by apply (quiet_full _ _ _ _ _ _ Hq13).
    + intros x. by rewrite Hsl, (q_slots _ _ Hq13).
    + by eapply same_locks_trans; [apply Hq13|].
Qed.

Lemma insert_ok k v prio ch c :
  wf c → mode_ok k → value_ok k v →
  ∃ c' n ws, insert page_size false is_eagle monotonic k v prio ch c = Ok (c', n) ∧
    inserted c c' (extra_key k) (norm_key k) (norm_value k v) n ws.
Proof.
  intros Hw Hm Hv. unfold insert.
  assert (Hkey : page_aligned page_size (maybe_to_bigram_view is_eagle k v).1 = norm_key k).
  { unfold norm_key, maybe_to_bigram_view. by destruct (is_eagle && _). }
  pose proof (norm_value_length k v Hv) as Hl. unfold norm_value in *.
  destruct (maybe_to_bigram_view is_eagle k v) as [k1 v1]. simpl in *. rewrite Hkey.
  apply insert_helper_ok; [done|by apply norm_key_ok|done].
Qed.

(** ** Locks *)

(** The lock invariant while a walk that adds [d] to every lock is about to visit
    [cur]: the children of [cur] may already be ahead by [d]. *)
Definition locks_at (H : gmap nat TreeNode) (root cur : nat) (d : Z) : Prop :=
  (∀ i n, H !! i = Some n → 0 ≤ lock_ref n) ∧
  (∀ i n, H !! i = Some n → i ≠ root → child_locks H i ≤ lock_ref n + (if decide (i = cur) then d else 0)).

Definition walk_ok (c : RadixCache) (cur : nat) (d : Z) : Prop :=
  tree_ok page_size is_eagle (nheap c) (root_node c) (counter c) ∧ locks_at (nheap c) (root_node c) cur d ∧
  books_ok (nheap c) (root_node c) (evictable_size_ c) (protected_size_ c) (evictable_leaves c).

Lemma child_locks_nonneg H i : (∀ j m, H !! j = Some m → 0 ≤ lock_ref m) → 0 ≤ child_locks H i.
Proof. intros Hp. apply hsum_nonneg. intros j m Hj. case_decide; [by eapply Hp|done]. Qed.

Lemma walk_start c i : wf c → walk_ok c i 1.
Proof.
  intros (HT & [Hp Hl] & HB). refine (conj HT (conj (conj Hp _) HB)). intros j n Hj Hr. specialize (Hl j n Hj Hr).
  case_decide; lia.
Qed.

Lemma walk_end c d : walk_ok c (root_node c) d → wf c.
Proof.
  intros (HT & [Hp Hl] & HB). refine (conj HT (conj (conj Hp _) HB)). intros j n Hj Hr. specialize (Hl j n Hj Hr).
  rewrite decide_False in Hl by done. lia.
Qed.

(** The state after one node of the walk. *)
Definition relocked (c : RadixCache) (i : nat) (n : TreeNode) (d de dp : Z) : RadixCache :=
  let c2 := set_node i (with_lock (lock_ref n + d) n) (add_sizes de dp c) in
  set_leaves (leaf_upd (nheap c2) i (evictable_leaves c2)) c2.

Lemma relock_walk c i n p d de dp :
  walk_ok c i d → heap c !! i = Some n → i ≠ root_node c → parent n = Some p → 0 ≤ lock_ref n + d → d = 1 ∨ d = -1 →
  de = size_of (root_node c) true i (with_lock (lock_ref n + d) n) - size_of (root_node c) true i n →
  dp = size_of (root_node c) false i (with_lock (lock_ref n + d) n) - size_of (root_node c) false i n →
  walk_ok (relocked c i n d de dp) p d.
Proof.
  intros (HT & [Hpos Hl] & HB) Hi Hr Hp Hd Hdd -> ->. pose proof (nheap_lookup _ _ _ Hi) as Hni.
  set (H := nheap c) in *. assert (Hne : p ≠ i).
  { intros ->. destruct (ok_reach _ _ _ _ _ HT _ _ Hni) as [l Hl'].
    destruct (ok_parent _ _ _ _ _ HT _ _ Hni Hr) as (q & pn & ck & Hq & _). simpl in Hq.
    assert (Hx : ∀ l', path H (root_node c) i l' → path H (root_node c) i (i :: l')).
    { intros l' Hl''. by apply (path_up _ _ i (norm n) i). }
    pose proof (path_det _ _ _ _ _ Hl' (Hx _ Hl')) as E. apply (f_equal length) in E. simpl in E. lia. }
  assert (Hh : nheap (relocked c i n d (size_of (root_node c) true i (with_lock (lock_ref n + d) n) - size_of (root_node c) true i n)
     (size_of (root_node c) false i (with_lock (lock_ref n + d) n) - size_of (root_node c) false i n))
     = <[i := with_lock (lock_ref n + d) (norm n)]> H).
  { unfold relocked, nheap. simpl. by rewrite fmap_insert. }
  unfold walk_ok. rewrite Hh. split; [|split; [split|]].
  - by apply tree_relock.
  - intros j m (m0 & Hm0 & _ & _ & _ & _ & ->)%relock_lookup; [|done]. case_decide; [done|]. by eapply Hpos.
  - intros j m Hj Hjr. rewrite (child_locks_relock page_size is_eagle H (root_node c) (counter c) i (norm n) _ HT Hni Hr).
    apply relock_lookup in Hj as (m0 & Hm0 & _ & _ & _ & _ & ->); [|done]. simpl. rewrite Hp.
    specialize (Hl j m0 Hm0 Hjr). destruct (decide (j = i)) as [->|Hji].
    + assert (m0 = norm n) as -> by congruence. rewrite decide_False by congruence. rewrite decide_False by done. simpl in Hl. lia.
    + destruct (decide (j = p)) as [->|Hjp]; [rewrite decide_True by done|rewrite decide_False by congruence]; lia.
  - pose proof (books_relock H (root_node c) i (norm n) (lock_ref n + d) Hni _ _ _ Hd Hpos HB) as (He & Hpr & Hlv).
    unfold size_of in He, Hpr. simpl in He, Hpr. split; [|split]; [simpl; unfold size_of; simpl; lia..|].
    replace (evictable_leaves (relocked _ _ _ _ _ _)) with (leaf_upd (<[i := with_lock (lock_ref n + d) (norm n)]> H) i
      (evictable_leaves c)); [exact Hlv|]. by rewrite <-Hh.
Qed.

(** The locks of the nodes of [l] change by [d], nothing else does. *)
Record relocks (c c' : RadixCache) (l : list nat) (d : Z) : Prop := {
  rl_root : root_node c' = root_node c;
  rl_total : evictable_size_ c' + protected_size_ c' = evictable_size_ c + protected_size_ c;
  rl_heap : ∀ j, nheap c' !! j
    = (fun n => with_lock (lock_ref n + (if decide (j ∈ l) then d else 0)) n) <$> nheap c !! j;
}.

Lemma relocks_full c c' l d e j us vs : relocks c c' l d → fullc c e j us vs ↔ fullc c' e j us vs.
Proof.
  intros [Hr _ Hh]. rewrite Hr. split.
  - induction 1 as [|i n p us vs Hi Hn Hp He _ IH]; [constructor|].
    specialize (Hh i). rewrite Hn in Hh. exact (seg_up _ _ _ _ i _ p _ _ Hi Hh Hp He IH).
  - induction 1 as [|i n p us vs Hi Hn Hp He _ IH]; [constructor|].
    specialize (Hh i). rewrite Hn in Hh. destruct (nheap c !! i) as [m|] eqn:Hm; [|done]. injection Hh as ->.
    exact (seg_up _ _ _ _ i m p _ _ Hi Hm Hp He IH).
Qed.

Lemma relocks_content c c' l d e us vs : relocks c c' l d → stored c e us vs ↔ stored c' e us vs.
Proof.
  intros Hr. unfold RadixOps.stored. by setoid_rewrite (relocks_full c c' l d e _ _ _ Hr).
Qed.

Lemma relocks_slots c c' l d x : relocks c c' l d → slots x (nheap c') = slots x (nheap c).
Proof.
  intros [_ _ Hh].
  assert (E : nheap c' = map_imap (fun j n => Some (with_lock (lock_ref n + (if decide (j ∈ l) then d else 0)) n)) (nheap c)).
  { apply map_eq. intros j. rewrite Hh, map_lookup_imap. by destruct (nheap c !! j). }
  rewrite E. unfold slots. apply hsum_imap. done.
Qed.

Lemma relocks_path c c' l d i l' : relocks c c' l d → path (nheap c) (root_node c) i l' → path (nheap c') (root_node c') i l'.
Proof.
  intros [Hr _ Hh]. rewrite Hr. induction 1 as [|i' n p l'' Hi Hn Hp _ IH]; [constructor|].
  specialize (Hh i'). rewrite Hn in Hh. exact (path_up _ _ i' _ p _ Hi Hh Hp IH).
Qed.

Lemma relocks_cons c c1 c' i l d :
  i ∉ l → relocks c c1 [i] d → relocks c1 c' l d → relocks c c' (i :: l) d.
Proof.
  intros Hi [R1 T1 H1] [R2 T2 H2]. split; [congruence|lia|]. intros j. rewrite H2, H1.
  destruct (nheap c !! j) as [n|]; [|done]. simpl. f_equal.
  destruct (decide (j = i)) as [->|Hji].
  - rewrite (decide_True (P := i ∈ [i])), (decide_False (P := i ∈ l)), (decide_True (P := i ∈ i :: l)) by set_solver.
    unfold with_lock. simpl. f_equal. lia.
  - rewrite (decide_False (P := j ∈ [i])) by set_solver.
    destruct (decide (j ∈ l)); [rewrite decide_True by set_solver|rewrite decide_False by set_solver];
      unfold with_lock; simpl; f_equal; lia.
Qed.

Lemma relocked_relocks c i n d de dp :
  heap c !! i = Some n → de + dp = 0 → relocks c (relocked c i n d de dp) [i] d.
Proof.
  intros Hi Hs. split; [done|simpl; lia|]. intros j.
  assert (Hh : nheap (relocked c i n d de dp) = <[i := with_lock (lock_ref n + d) (norm n)]> (nheap c)).
  { unfold relocked, nheap. simpl. by rewrite fmap_insert. }
  rewrite Hh. destruct (decide (j = i)) as [->|Hji].
  - rewrite lookup_insert_eq, (nheap_lookup _ _ _ Hi), decide_True by set_solver. done.
  - rewrite lookup_insert_ne, decide_False by set_solver. destruct (nheap c !! j) as [m|]; [|done].
    simpl. f_equal. destruct m. unfold with_lock. simpl. f_equal. lia.
Qed.

(** A step adds to the locks held on its node and takes from those held on the parent. *)
Lemma relocked_own c i n p d de dp j :
  tree_ok page_size is_eagle (nheap c) (root_node c) (counter c) → heap c !! i = Some n → i ≠ root_node c →
  parent n = Some p → own (relocked c i n d de dp) j
    = own c j + (if decide (j = i) then d else 0) - (if decide (j = p) then (if decide (is_Some (nheap c !! j)) then d else 0) else 0).
Proof.
  intros HT Hi Hir Hp. pose proof (nheap_lookup _ _ _ Hi) as Hni.
  assert (Hh : nheap (relocked c i n d de dp) = <[i := with_lock (lock_ref n + d) (norm n)]> (nheap c)).
  { unfold relocked, nheap. simpl. by rewrite fmap_insert. }
  unfold own. rewrite Hh, (child_locks_relock page_size is_eagle _ _ _ i (norm n) _ HT Hni Hir). simpl. rewrite Hp.
  destruct (decide (j = i)) as [->|Hji].
  - rewrite lookup_insert_eq, Hni. simpl. repeat case_decide; simplify_eq; lia.
  - rewrite lookup_insert_ne by done. destruct (nheap c !! j) as [m|]; simpl.
    + repeat case_decide; simplify_eq; lia.
    + case_decide; lia.
Qed.

(** What the evictable size gains when the lock of [n] changes by [d]. *)
Definition gain (c : RadixCache) (i : nat) (n : TreeNode) (d : Z) : Z :=
  size_of (root_node c) true i (with_lock (lock_ref n + d) n) - size_of (root_node c) true i n.

Lemma walk_step c i n l d :
  walk_ok c i d → path (nheap c) (root_node c) i l → heap c !! i = Some n → i ≠ root_node c →
  0 ≤ lock_ref n + d → d = 1 ∨ d = -1 →
  ∃ p l', l = i :: l' ∧ parent n = Some p ∧ i ∉ l' ∧
    let c1 := relocked c i n d (gain c i n d) (- gain c i n d) in
    walk_ok c1 p d ∧ relocks c c1 [i] d ∧ path (nheap c1) (root_node c1) p l' ∧ is_Some (heap c1 !! p) ∧
    (∀ j, own c1 j = own c j + (if decide (j = i) then d else 0) - (if decide (j = p) then d else 0)).
Proof.
  intros Hw Hp Hi Hir Hd Hdd. pose proof Hw as (HT & _). pose proof (nheap_lookup _ _ _ Hi) as Hni.
  pose proof (path_NoDup _ _ _ _ Hp) as [Hnd _].
  destruct Hp as [|i m p l _ Hm Hmp Hp]; [done|]. assert (m = norm n) as -> by congruence. simpl in Hmp.
  exists p, l. apply NoDup_cons in Hnd as [Hil _]. split_and!; [done|done|done|]. cbv zeta.
  set (c1 := relocked _ _ _ _ _ _).
  assert (Hr : relocks c c1 [i] d) by (apply relocked_relocks; [done|lia]).
  destruct (ok_parent _ _ _ _ _ HT _ _ Hni Hir) as (q & pn & ck & Hq & Hpn & _). simpl in Hq.
  assert (q = p) as -> by congruence.
  split; [|split; [done|split; [by eapply relocks_path|split]]].
  - apply relock_walk; try done. unfold gain, size_of. rewrite !(decide_False (P := i = root_node c)) by done. simpl.
    repeat case_bool_decide; lia.
  - pose proof (rl_heap _ _ _ _ Hr p) as Hh. rewrite Hpn in Hh.
    apply nheap_Some in Hh as (pn' & Hpn' & _). by exists pn'.
  - intros j. unfold c1. rewrite (relocked_own c i n p d _ _ j HT Hi Hir Hmp).
    destruct (decide (j = p)) as [->|]; [|done]. by rewrite (decide_True (P := is_Some _)) by (by eexists).
Qed.

(** The empty walk. *)
Lemma relocks_nil c d : relocks c c [] d.
Proof.
  split; [done|done|]. intros j. rewrite decide_False by set_solver. destruct (nheap c !! j) as [[]|]; [|done].
  simpl. unfold with_lock. simpl. do 2 f_equal. lia.
Qed.

Lemma inc_loop_ok fuel i l delta c :
  walk_ok c i 1 → path (nheap c) (root_node c) i l → is_Some (heap c !! i) → (length l < fuel)%nat →
  ∃ c', inc_loop fuel i delta c = Ok (c', delta + (evictable_size_ c' - evictable_size_ c)) ∧ wf c' ∧ relocks c c' l 1 ∧
    (∀ j, j ≠ root_node c → own c' j = own c j + (if decide (j = i) then 1 else 0)).
Proof.
  revert i l delta c. induction fuel as [|fuel IH]; intros i l delta c Hw Hp [n Hi] Hf; [lia|].
  cbn [inc_loop]. case_decide as Hir.
  { subst i. rewrite (path_det _ _ _ _ _ Hp (path_root _ _)). exists c.
    split; [do 2 f_equal; lia|]. split; [by eapply walk_end|]. split; [apply relocks_nil|].
    intros j Hj. rewrite decide_False by done. lia. }
  rewrite (node_at_eq _ _ _ Hi). run_bind. pose proof Hw as (_ & [Hpos _] & _).
  pose proof (Hpos _ _ (nheap_lookup _ _ _ Hi)) as Hpn. simpl in Hpn.
  destruct (walk_step c i n l 1 Hw Hp Hi Hir ltac:(lia) ltac:(by left))
    as (p & l' & -> & Hmp & Hil & Hw1 & Hr1 & Hp1 & Hs1 & Ho1).
  set (g := gain c i n 1) in *. set (len := Z.of_nat (klen (key n))).
  assert (Hpair : (if bool_decide (lock_ref n = 0) then (add_sizes (- len) len c, delta - len) else (c, delta))
     = (add_sizes g (- g) c, delta + g)).
  { unfold g, gain, size_of. rewrite !(decide_False (P := i = root_node c)) by done. simpl.
    rewrite (bool_decide_eq_false_2 (lock_ref n + 1 = 0)) by lia. destruct c. unfold add_sizes. simpl.
    case_bool_decide; fold len; f_equal; try lia; f_equal; lia. }
  rewrite Hpair. erewrite (update_leaf_status_eq _ i) by apply lookup_insert_eq. run_bind.
  unfold parent_of. rewrite Hmp. run_bind. fold (relocked c i n 1 g (- g)). simpl in Hf.
  destruct (IH p l' (delta + g) _ Hw1 Hp1 Hs1 ltac:(lia)) as (c' & Hr & Hw' & Hr2 & Ho2).
  exists c'. rewrite Hr. split; [|split; [done|split; [by eapply relocks_cons|]]]; [simpl; do 2 f_equal; lia|].
  intros j Hj. rewrite Ho2, Ho1 by done. lia.
Qed.

Lemma dec_loop_ok fuel i l delta c :
  walk_ok c i (-1) → path (nheap c) (root_node c) i l → is_Some (heap c !! i) → (length l < fuel)%nat →
  ∃ c', dec_loop fuel i delta c = Ok (c', delta + (evictable_size_ c' - evictable_size_ c)) ∧ wf c' ∧ relocks c c' l (-1) ∧
    (∀ j, j ≠ root_node c → own c' j = own c j + (if decide (j = i) then -1 else 0)).
Proof.
  revert i l delta c. induction fuel as [|fuel IH]; intros i l delta c Hw Hp [n Hi] Hf; [lia|].
  cbn [dec_loop]. case_decide as Hir.
  { subst i. rewrite (path_det _ _ _ _ _ Hp (path_root _ _)). exists c.
    split; [do 2 f_equal; lia|]. split; [by eapply walk_end|]. split; [apply relocks_nil|].
    intros j Hj. rewrite decide_False by done. lia. }
  rewrite (node_at_eq _ _ _ Hi). run_bind. pose proof Hw as (_ & [Hpos Hl] & _).
  specialize (Hl _ _ (nheap_lookup _ _ _ Hi) Hir). rewrite decide_True in Hl by done. simpl in Hl.
  pose proof (child_locks_nonneg _ i Hpos) as Hcl.
  destruct (walk_step c i n l (-1) Hw Hp Hi Hir ltac:(lia) ltac:(by right))
    as (p & l' & -> & Hmp & Hil & Hw1 & Hr1 & Hp1 & Hs1 & Ho1).
  set (g := gain c i n (-1)) in *. set (len := Z.of_nat (klen (key n))).
  assert (Hpair : (if bool_decide (lock_ref n = 1) then (add_sizes len (- len) c, delta + len) else (c, delta))
     = (add_sizes g (- g) c, delta + g)).
  { unfold g, gain, size_of. rewrite !(decide_False (P := i = root_node c)) by done. simpl.
    rewrite (bool_decide_eq_false_2 (lock_ref n = 0)) by lia. destruct c. unfold add_sizes. simpl.
    repeat case_bool_decide; fold len; try lia; f_equal; try lia; f_equal; lia. }
  rewrite Hpair. erewrite (update_leaf_status_eq _ i) by apply lookup_insert_eq. run_bind.
  rewrite Hmp. fold (relocked c i n (-1) g (- g)). simpl in Hf.
  destruct (IH p l' (delta + g) _ Hw1 Hp1 Hs1 ltac:(lia)) as (c' & Hr & Hw' & Hr2 & Ho2).
  exists c'. unfold relocked in Hr. replace (lock_ref n - 1) with (lock_ref n + -1) by lia. rewrite Hr.
  split; [|split; [done|split; [by eapply relocks_cons|]]]; [simpl; do 2 f_equal; lia|].
  intros j Hj. rewrite Ho2, Ho1 by done. lia.
Qed.

(** [i] is locked by a client of its own, not only through its children. *)
Definition held (c : RadixCache) (i : nat) : Prop :=
  ∃ n, heap c !! i = Some n ∧ (i ≠ root_node c → child_locks (nheap c) i < lock_ref n).

Lemma size_nheap c : size (nheap c) = size (heap c).
Proof. apply map_size_fmap. Qed.

Lemma live_path c i n : wf c → heap c !! i = Some n → ∃ l, path (nheap c) (root_node c) i l ∧ (length l < S (size (heap c)))%nat.
Proof.
  intros (HT & _) Hi. destruct (ok_reach _ _ _ _ _ HT _ _ (nheap_lookup _ _ _ Hi)) as [l Hl]. exists l. split; [done|].
  pose proof (path_length _ _ _ _ Hl) as Hle. rewrite size_nheap in Hle. lia.
Qed.

Lemma inc_lock_ok c i n :
  wf c → heap c !! i = Some n →
  ∃ c' l, path (nheap c) (root_node c) i l ∧
    inc_lock_ref false i c = Ok (c', evictable_size_ c' - evictable_size_ c) ∧ wf c' ∧ relocks c c' l 1 ∧
    (∀ j, j ≠ root_node c → own c' j = own c j + (if decide (j = i) then 1 else 0)).
Proof.
  intros Hw Hi. destruct (live_path c i n Hw Hi) as (l & Hl & Hlen).
  destruct (inc_loop_ok (S (size (heap c))) i l 0 c (walk_start c i Hw) Hl ltac:(by exists n) Hlen) as (c' & Hr & Hw' & Hrl & Ho).
  exists c', l. split_and!; [done|exact Hr|done|done|exact Ho].
Qed.

Lemma dec_lock_ok c i :
  wf c → held c i →
  ∃ c' l, path (nheap c) (root_node c) i l ∧
    dec_lock_ref false i c = Ok (c', evictable_size_ c' - evictable_size_ c) ∧ wf c' ∧ relocks c c' l (-1) ∧
    (∀ j, j ≠ root_node c → own c' j = own c j + (if decide (j = i) then -1 else 0)).
Proof.
  intros Hw (n & Hi & Hown). destruct (live_path c i n Hw Hi) as (l & Hl & Hlen).
  assert (Hstart : walk_ok c i (-1)).
  { destruct Hw as (HT & [Hp Hlk] & HB). refine (conj HT (conj (conj Hp _) HB)). intros j m Hj Hr.
    specialize (Hlk j m Hj Hr). destruct (decide (j = i)) as [->|]; [|lia].
    specialize (Hown Hr). rewrite (nheap_lookup _ _ _ Hi) in Hj. injection Hj as <-. simpl. lia. }
  destruct (dec_loop_ok (S (size (heap c))) i l 0 c Hstart Hl ltac:(by exists n) Hlen) as (c' & Hr & Hw' & Hrl & Ho).
  exists c', l. split_and!; [done|exact Hr|done|done|exact Ho].
Qed.

(** ** Eviction *)

(** An unlocked node leads down to an evictable leaf. *)
Lemma unlocked_leaf c i n :
  wf c → heap c !! i = Some n → i ≠ root_node c → lock_ref n = 0 → evictable_leaves c ≠ ∅.
Proof.
  intros Hw Hi Hr Hl. destruct (live_path c i n Hw Hi) as (l & Hp & Hlen).
  remember (S (size (heap c)) - length l)%nat as d eqn:Hd. revert i n l Hi Hr Hl Hp Hlen Hd.
  induction d as [|d IH]; intros i n l Hi Hr Hl Hp Hlen Hd; [lia|]. pose proof Hw as (HT & [Hpos Hlk] & (_ & _ & Hlv)).
  pose proof (nheap_lookup _ _ _ Hi) as Hni. destruct (children n) as [|[ck j] ch] eqn:Hch.
  - assert (Hin : i ∈ evictable_leaves c) by (apply Hlv; by exists (norm n)). set_solver.
  - assert (Hg : od_get ck (children (norm n)) = Some j) by (simpl; rewrite Hch; simpl; by rewrite decide_True).
    destruct (ok_child _ _ _ _ _ HT _ _ _ _ Hni Hg) as (m & Hm & Hmp & _).
    assert (Hjr : j ≠ root_node c).
    { intros ->. destruct (ok_root _ _ _ _ _ HT) as (r & Hr' & Hrp & _). congruence. }
    specialize (Hlk _ _ Hni Hr). simpl in Hlk.
    assert (Hjl : lock_ref m ≤ child_locks (nheap c) i).
    { unfold child_locks. pose proof (hsum_member (fun _ m => if decide (parent m = Some i) then lock_ref m else 0)
        (nheap c) j m) as Hmem. simpl in Hmem. rewrite decide_True in Hmem by done. apply Hmem; [|done].
      intros j' m' Hj'. case_decide; [by eapply Hpos|done]. }
    pose proof (Hpos _ _ Hm) as Hmpos. pose proof Hm as Hm'. apply nheap_Some in Hm as (m0 & Hm0 & ->). simpl in *.
    assert (Hpj : path (nheap c) (root_node c) j (j :: l)) by (by apply (path_up _ _ j (norm m0) i)).
    pose proof (path_length _ _ _ _ Hpj) as Hlj. rewrite size_nheap in Hlj. simpl in Hlj.
    apply (IH j m0 (j :: l)); try done; simpl; lia.
Qed.

Lemma no_leaf_no_size c : wf c → evictable_leaves c = ∅ → evictable_size_ c = 0.
Proof.
  intros Hw He. pose proof Hw as (_ & _ & (-> & _)). apply hsum_zero. intros i m Hm. unfold size_of.
  case_decide as Hir; [done|]. case_bool_decide as Hl; [|done]. exfalso.
  apply nheap_Some in Hm as (n & Hn & ->). by apply (unlocked_leaf c i n).
Qed.

(** Deleting a leaf keeps every other node. *)
Record deleted (c c' : RadixCache) (x p : nat) (n : TreeNode) : Prop := {
  dl_wf : wf c';
  dl_root : root_node c' = root_node c;
  dl_evictable : evictable_size_ c' = evictable_size_ c - Z.of_nat (klen (key n));
  dl_protected : protected_size_ c' = protected_size_ c;
  dl_full : ∀ e j us vs, fullc c' e j us vs ↔ fullc c e j us vs ∧ j ≠ x;
  dl_size : S (size (heap c')) = size (heap c);
  dl_node : ∀ j m, j ≠ x → heap c !! j = Some m → ∃ ch, heap c' !! j = Some (with_children ch m) ∧ (j ≠ p → ch = children m);
  dl_other : ∀ j, j ≠ x → j ≠ p → j ∈ evictable_leaves c' ↔ j ∈ evictable_leaves c;
  dl_gone : x ∉ evictable_leaves c' ∧ p ∉ evictable_leaves c ∧ p ≠ x;
  dl_slots : ∀ y, slots y (nheap c') = slots y (nheap c) - count y (value n);
  dl_own : ∀ j, own c' j = own c j;
}.

Lemma leaf_child_locks c H i n :
  tree_ok page_size is_eagle H (root_node c) (counter c) → H !! i = Some n → children n = [] → child_locks H i = 0.
Proof.
  intros HT Hi Hch. apply hsum_zero. intros x y Hx. case_decide as Hp; [|done].
  destruct (decide (x = root_node c)) as [->|Hxr].
  - destruct (ok_root _ _ _ _ _ HT) as (r & Hr & Hrp & _). congruence.
  - destruct (ok_parent _ _ _ _ _ HT _ _ Hx Hxr) as (p & pn & ck & Hp' & Hpn & _ & Hg).
    assert (p = i) as -> by congruence. assert (pn = n) as -> by congruence. by rewrite Hch in Hg.
Qed.

Lemma with_children_id n : with_children (children n) n = n.
Proof. by destruct n. Qed.

Lemma delete_leaf_ok c x :
  wf c → x ∈ evictable_leaves c →
  ∃ n p c', heap c !! x = Some n ∧ parent n = Some p ∧ length (value n) = klen (key n) ∧ lock_ref n = 0 ∧
    delete_leaf page_size x c = Ok c' ∧ deleted c c' x p n.
Proof.
  intros Hw Hx. pose proof Hw as (HT & HL & HB). pose proof HB as (_ & _ & Hlv).
  apply Hlv in Hx as (m & Hnx & Hlock & Hch). pose proof Hnx as Hnx'. apply nheap_Some in Hnx as (n & Hn & ->). simpl in *.
  assert (Hxr : x ≠ root_node c).
  { intros ->. destruct (ok_root _ _ _ _ _ HT) as (r & Hr & _ & Hrl & _). rewrite Hnx' in Hr. injection Hr as <-. simpl in Hrl. lia. }
  destruct (ok_parent _ _ _ _ _ HT _ _ Hnx' Hxr) as (p & pn0 & ck & Hp & Hpn & Hck & Hg). simpl in *.
  pose proof Hpn as Hpn'. apply nheap_Some in Hpn as (pn & Hpn & ->). simpl in Hg.
  destruct (ok_key _ _ _ _ _ HT _ _ Hnx' Hxr) as (_ & _ & _ & Hval). simpl in Hval.
  pose proof (px_ne page_size is_eagle _ _ _ x p (norm n) (norm pn) ck HT Hnx' Hxr Hch Hlock Hp Hpn' Hck Hg) as Hpx.
  exists n, p. unfold delete_leaf. rewrite (node_at_eq _ _ _ Hn). run_bind. rewrite Hck. run_bind.
  unfold parent_of. rewrite Hp. run_bind. rewrite (node_at_eq _ _ _ Hpn). run_bind.
  rewrite bool_decide_eq_true_2 by done.
  erewrite (update_leaf_status_eq _ p) by (simpl; apply lookup_insert_eq). run_bind.
  match goal with |- context [Ok ?c'] => set (c1 := c') end. exists c1. split_and!; try done.
  set (H1 := <[p := with_children (od_del ck (children (norm pn))) (norm pn)]> (nheap c)).
  assert (Hh : nheap c1 = delete x H1).
  { unfold c1, nheap, H1, nheap. simpl. by rewrite fmap_delete, fmap_insert. }
  assert (Hlv1 : evictable_leaves c1 = leaf_upd H1 p (evictable_leaves c ∖ {[x]})).
  { unfold c1, nheap, H1. simpl. unfold nheap. simpl. by rewrite fmap_insert. }
  assert (Hpl : p ∉ evictable_leaves c).
  { intros Hin. apply Hlv in Hin as (q & Hq & _ & Hqc). rewrite Hpn' in Hq. injection Hq as <-. simpl in Hqc. by rewrite Hqc in Hg. }
  split; try done.
  - unfold RadixCache.wf. rewrite Hh, Hlv1. simpl. split; [|split].
    + exact (tree_remove page_size is_eagle _ _ _ x p (norm n) (norm pn) ck HT Hnx' Hxr Hch Hlock Hp Hpn' Hck Hg).
    + exact (locks_remove page_size is_eagle _ _ _ x p (norm n) (norm pn) ck HT Hnx' Hxr Hch Hlock Hp Hpn' Hck Hg HL).
    + pose proof (books_remove page_size is_eagle _ _ _ x p (norm n) (norm pn) ck HT Hnx' Hxr Hch Hlock Hp Hpn' Hck Hg
        _ _ _ HL HB) as Hb. simpl in Hb. rewrite Z.add_0_r. exact Hb.
  - simpl. lia.
  - intros e j us vs. change (root_node c1) with (root_node c). rewrite Hh. unfold H1.
    by apply (remove_full page_size is_eagle _ _ (counter c) x p (norm n) (norm pn)).
  - simpl. rewrite map_size_delete_Some by (exists n; by rewrite lookup_insert_ne).
    rewrite map_size_insert_Some by (by eexists).
    pose proof (map_size_ne_0_lookup_2 (heap c) x ltac:(by exists n)). lia.
  - intros j m Hj Hm. simpl. rewrite lookup_delete_ne by done. destruct (decide (j = p)) as [->|Hjp].
    + rewrite lookup_insert_eq. assert (m = pn) as -> by congruence. eexists. split; [done|done].
    + rewrite lookup_insert_ne by done. exists (children m). by rewrite with_children_id.
  - intros j Hjx Hjp. rewrite Hlv1, leaf_upd_other by done. rewrite elem_of_difference, elem_of_singleton. tauto.
  - split_and!; [|done|done]. rewrite Hlv1, leaf_upd_other by done. rewrite elem_of_difference, elem_of_singleton. tauto.
  - intros y. rewrite Hh. unfold slots.
    exact (remove_hsum page_size is_eagle _ _ _ x p (norm n) (norm pn) ck HT Hnx' Hxr Hch Hlock Hp Hpn' Hck Hg
      (fun _ n => count y (value n)) eq_refl).
  - intros j. unfold own. rewrite Hh.
    rewrite (child_locks_remove page_size is_eagle _ _ _ x p (norm n) (norm pn) ck HT Hnx' Hxr Hch Hlock Hp Hpn' Hck Hg).
    destruct (decide (j = x)) as [->|Hjx].
    + rewrite lookup_delete_eq, Hnx'. simpl. rewrite Hlock, (leaf_child_locks c _ x (norm n) HT Hnx' Hch); done.
    + rewrite lookup_delete_ne by done. unfold H1. destruct (decide (j = p)) as [->|Hjp].
      * by rewrite lookup_insert_eq, Hpn'.
      * by rewrite lookup_insert_ne by done.
Qed.

(** *** The eviction order *)

Lemma lex_lt_asym a b : lex_lt a b = true → lex_lt b a = false.
Proof.
  revert b. induction a as [|x a IH]; intros [|y b]; simpl; try done. repeat case_decide; try congruence; first [apply IH|repeat case_bool_decide; done || lia].
Qed.

(** A strict order that is total up to equality: something lies between. *)
Lemma lex_lt_cotrans a b c : lex_lt a c = true → lex_lt a b = true ∨ lex_lt b c = true.
Proof.
  revert b c. induction a as [|x a IH]; intros [|y b] [|z c]; simpl; try tauto; try done.
  repeat case_decide; subst; try congruence; first [apply IH|repeat case_bool_decide; try tauto; lia].
Qed.

Lemma heappop_spec h :
  match heappop h with
  | None => h = []
  | Some (e, h') => h ≡ₚ e :: h' ∧ ∀ y, y ∈ h → entry_lt y e = false
  end.
Proof.
  assert (Hirr : ∀ e, entry_lt e e = false).
  { intros e. destruct (entry_lt e e) eqn:E; [|done]. unfold entry_lt in *. pose proof (lex_lt_asym _ _ E). congruence. }
  induction h as [|e h IH]; [done|]. cbn [heappop]. destruct (heappop h) as [[m r]|].
  - destruct IH as [Hp Hmin]. destruct (entry_lt m e) eqn:E.
    + split; [by rewrite Hp; constructor|]. intros y [->|Hy]%elem_of_cons; [|by apply Hmin]. by apply lex_lt_asym.
    + split; [done|]. intros y [->|Hy]%elem_of_cons; [apply Hirr|].
      destruct (entry_lt y e) eqn:Ey; [|done]. specialize (Hmin y Hy). unfold entry_lt in *.
      destruct (lex_lt_cotrans _ (m.1.1 ++ [m.1.2]) _ Ey); congruence.
  - subst h. split; [done|]. intros y ->%list_elem_of_singleton. apply Hirr.
Qed.

Section evict.
Context (strategy : EvictionStrategy).

(** No evictable leaf comes before [x] in the order of the policy. *)
Definition least (c : RadixCache) (x : nat) : Prop :=
  ∀ y a b, y ∈ evictable_leaves c → entry strategy c x = Some a → entry strategy c y = Some b → entry_lt b a = false.

(** A run of evictions: leaves in policy order, with the values they free. *)
Inductive evicts : RadixCache → list nat → list (list Z) → RadixCache → Prop :=
  | ev_nil c : evicts c [] [] c
  | ev_cons c x n p c1 xs freed c' :
      x ∈ evictable_leaves c → heap c !! x = Some n → lock_ref n = 0 → length (value n) = klen (key n) → least c x →
      delete_leaf page_size x c = Ok c1 → deleted c c1 x p n → evicts c1 xs freed c' →
      evicts c (x :: xs) (value n :: freed) c'.

Definition entries (c : RadixCache) (X : gset nat) : list Entry := omap (entry strategy c) (elements X).

Lemma elements_remove (X : gset nat) x : x ∈ X → elements X ≡ₚ x :: elements (X ∖ {[x]}).
Proof.
  intros Hx. rewrite (union_difference_singleton_L x X) at 1 by done. apply elements_union_singleton. set_solver.
Qed.

Lemma entries_remove c X x e : x ∈ X → entry strategy c x = Some e → entries c X ≡ₚ e :: entries c (X ∖ {[x]}).
Proof. intros Hx He. unfold entries. rewrite (elements_remove X x Hx). simpl. by rewrite He. Qed.

Lemma elem_of_entries c X e : e ∈ entries c X ↔ ∃ y, y ∈ X ∧ entry strategy c y = Some e.
Proof. unfold entries. rewrite list_elem_of_omap. setoid_rewrite elem_of_elements. naive_solver. Qed.

Lemma entries_ext c c' X : (∀ y, y ∈ X → entry strategy c y = entry strategy c' y) → entries c X = entries c' X.
Proof.
  intros Hy. unfold entries. assert (Hl : ∀ y, y ∈ elements X → entry strategy c y = entry strategy c' y)
    by (intros y; rewrite elem_of_elements; apply Hy).
  induction (elements X) as [|y l IH]; [done|].
  change (match entry strategy c y with Some z => z :: omap (entry strategy c) l | None => omap (entry strategy c) l end
    = match entry strategy c' y with Some z => z :: omap (entry strategy c') l | None => omap (entry strategy c') l end).
  rewrite (Hl y) by set_solver. by rewrite IH by set_solver.
Qed.

Lemma entry_id c x e : entry strategy c x = Some e → e.2 = x.
Proof. unfold entry. destruct (heap c !! x); [|done]. by intros [= <-]. Qed.

(** The heap after one eviction lists the new evictable leaves. *)
Lemma entries_deleted c c1 x p n pn :
  wf c → deleted c c1 x p n → heap c1 !! p = Some pn →
  (match children pn with
   | [] => if bool_decide (lock_ref pn = 0)
           then entries c (evictable_leaves c ∖ {[x]}) ++ [(get_priority strategy pn, last_access_time pn, p)]
           else entries c (evictable_leaves c ∖ {[x]})
   | _ => entries c (evictable_leaves c ∖ {[x]})
   end) ≡ₚ entries c1 (evictable_leaves c1).
Proof.
  intros Hw [Hw1 Hr He Hpr Hf Hsz Hnode Hoth (Hgx & Hgp & Hpx)] Hp. pose proof Hw1 as (_ & _ & (_ & _ & Hlv1)).
  pose proof Hw as (_ & _ & (_ & _ & Hlv)).
  assert (Hleaf : p ∈ evictable_leaves c1 ↔ lock_ref pn = 0 ∧ children pn = []).
  { rewrite Hlv1. unfold is_leaf. rewrite (nheap_lookup _ _ _ Hp). naive_solver. }
  assert (Heq : entries c (evictable_leaves c ∖ {[x]}) = entries c1 (evictable_leaves c ∖ {[x]})).
  { apply entries_ext. intros y [Hy Hyx]%elem_of_difference. rewrite elem_of_singleton in Hyx.
    assert (Hyp : y ≠ p) by congruence. apply Hlv in Hy as (m & Hm & _). apply nheap_Some in Hm as (m0 & Hm0 & _).
    destruct (Hnode y m0 Hyx Hm0) as (ch & Hc1 & Hch). rewrite (Hch Hyp), with_children_id in Hc1.
    unfold entry. by rewrite Hm0, Hc1. }
  rewrite Heq. assert (Hentry : entry strategy c1 p = Some (get_priority strategy pn, last_access_time pn, p)).
  { unfold entry. by rewrite Hp. }
  assert (Hno : (lock_ref pn = 0 ∧ children pn = [] → False) → evictable_leaves c1 = evictable_leaves c ∖ {[x]}).
  { intros Hn. apply set_eq. intros y. rewrite elem_of_difference, elem_of_singleton.
    destruct (decide (y = x)) as [->|]; [tauto|]. destruct (decide (y = p)) as [->|]; [tauto|]. rewrite Hoth by done. tauto. }
  destruct (children pn) as [|ch l] eqn:Hch; [case_bool_decide as Hl|].
  - assert (Hpin : p ∈ evictable_leaves c1) by tauto.
    rewrite (entries_remove c1 _ p _ Hpin Hentry), <-Permutation_cons_append. constructor.
    replace (evictable_leaves c1 ∖ {[p]}) with (evictable_leaves c ∖ {[x]}); [done|].
    apply set_eq. intros y. rewrite !elem_of_difference, !elem_of_singleton.
    destruct (decide (y = x)) as [->|]; [tauto|]. destruct (decide (y = p)) as [->|]; [tauto|]. rewrite Hoth by done. tauto.
  - rewrite Hno by tauto. done.
  - rewrite Hno by (intros [_ ?]; done). done.
Qed.

Lemma evict_loop_ok fuel num ev h freed c :
  wf c → h ≡ₚ entries c (evictable_leaves c) → (size (heap c) ≤ fuel)%nat →
  ∃ c' xs fr, evict_loop page_size strategy fuel num ev h freed c
      = Ok (c', ev + Z.of_nat (length (concat fr)), freed ++ fr) ∧ evicts c xs fr c' ∧
    (num ≤ ev + Z.of_nat (length (concat fr)) ∨ evictable_leaves c' = ∅) ∧
    (∀ pre last, fr = pre ++ [last] → ev + Z.of_nat (length (concat pre)) < num).
Proof.
  revert ev h freed c. induction fuel as [|fuel IH]; intros ev h freed c Hw Hh Hfuel.
  all: cbn [evict_loop]; case_decide as Hnum.
  1,3: exists c, [], []; rewrite app_nil_r, Z.add_0_r; split_and!; [done|constructor|by left|by intros [] ?].
  all: pose proof (heappop_spec h) as Hpop; destruct (heappop h) as [[[[pr la] x] h']|].
  2,4: subst h; exists c, [], []; rewrite app_nil_r, Z.add_0_r; split_and!; [done|constructor| |by intros [] ?];
    right; apply set_eq; intros y; split; [|set_solver]; intros Hy; exfalso;
    pose proof Hw as (_ & _ & (_ & _ & Hlv)); pose proof Hy as Hy'; apply Hlv in Hy' as (m & Hm & _);
    apply nheap_Some in Hm as (m0 & Hm0 & _);
    assert (Hin : (get_priority strategy m0, last_access_time m0, y) ∈ entries c (evictable_leaves c))
      by (apply elem_of_entries; exists y; split; [done|]; unfold entry; by rewrite Hm0);
    rewrite <-Hh in Hin; set_solver.
  all: destruct Hpop as [Hperm Hmin].
  all: assert (Hin : (pr, la, x) ∈ entries c (evictable_leaves c)) by (rewrite <-Hh, Hperm; left).
  all: apply elem_of_entries in Hin as (y & Hy & Hey); pose proof (entry_id _ _ _ Hey) as Hyx; simpl in Hyx; subst y.
  all: destruct (delete_leaf_ok c x Hw Hy) as (n & p & c1 & Hn & Hp & Hlen & Hlock & Hdel & Hd).
  { exfalso. pose proof (map_size_ne_0_lookup_2 (heap c) x ltac:(by exists n)). lia. }
  rewrite (node_at_eq _ _ _ Hn). run_bind. unfold parent_of. rewrite Hp. run_bind. rewrite Hdel. run_bind.
  assert (Hpn : ∃ pn, heap c1 !! p = Some pn).
  { pose proof Hw as (HT & _). assert (Hxr : x ≠ root_node c).
    { intros ->. destruct (ok_root _ _ _ _ _ HT) as (r & Hr & Hrp & _). rewrite (nheap_lookup _ _ _ Hn) in Hr.
      injection Hr as <-. simpl in Hrp. congruence. }
    destruct (ok_parent _ _ _ _ _ HT _ _ (nheap_lookup _ _ _ Hn) Hxr) as (q & qn & ck & Hq & Hqn & _). simpl in Hq.
    assert (q = p) as -> by congruence. apply nheap_Some in Hqn as (pn & Hpn & _).
    destruct (dl_node _ _ _ _ _ Hd p pn (proj2 (proj2 (dl_gone _ _ _ _ _ Hd))) Hpn) as (ch & Hc1 & _). eauto. }
  destruct Hpn as [pn Hpn]. rewrite (node_at_eq _ _ _ Hpn). run_bind.
  assert (Hh' : h' ≡ₚ entries c (evictable_leaves c ∖ {[x]})).
  { apply (Permutation_cons_inv (a := (pr, la, x))). by rewrite <-Hperm, Hh, (entries_remove c _ x _ Hy Hey). }
  pose proof (entries_deleted c c1 x p n pn Hw Hd Hpn) as Hent.
  match goal with |- context [evict_loop _ _ fuel num _ ?h2 _ c1] => assert (Hh2 : h2 ≡ₚ entries c1 (evictable_leaves c1)) end.
  { rewrite <-Hent. destruct (children pn); [case_bool_decide|]; by rewrite Hh'. }
  destruct (IH (ev + Z.of_nat (length (value n))) _ (freed ++ [value n]) c1 (dl_wf _ _ _ _ _ Hd) Hh2)
    as (c' & xs & fr & Hr & Hev & Hend & Hmin').
  { pose proof (dl_size _ _ _ _ _ Hd). lia. }
  exists c', (x :: xs), (value n :: fr). rewrite Hr. cbn [concat]. rewrite length_app, <-app_assoc. split_and!.
  - simpl. do 3 f_equal. lia.
  - econstructor; try done. intros z a b Hz Ha Hb. rewrite Hey in Ha. injection Ha as <-. apply Hmin.
    rewrite Hh. apply elem_of_entries. eauto.
  - destruct Hend as [Hend|Hend]; [left; lia|by right].
  - intros [|q pre] last; simpl; [lia|]. intros [= <- ->]. specialize (Hmin' pre last eq_refl). len_lia.
Qed.

(** What a run of evictions keeps. *)
Lemma evicts_ok c xs fr c' :
  wf c → evicts c xs fr c' →
  wf c' ∧ root_node c' = root_node c ∧
  evictable_size_ c' = evictable_size_ c - Z.of_nat (length (concat fr)) ∧ protected_size_ c' = protected_size_ c ∧
  (∀ j n, heap c !! j = Some n → 0 < lock_ref n → ∃ ch, heap c' !! j = Some (with_children ch n)) ∧
  (∀ e j us vs, fullc c' e j us vs → fullc c e j us vs) ∧
  (∀ e j us vs, fullc c e j us vs → j ∉ xs → fullc c' e j us vs) ∧
  (∀ x n, x ∈ xs → heap c !! x = Some n → lock_ref n = 0) ∧
  (∀ y, slots y (nheap c') = slots y (nheap c) - count y (concat fr)) ∧ (∀ j, own c' j = own c j).
Proof.
  intros Hw Hev. induction Hev as [c|c x n p c1 xs fr c' Hx Hn Hl Hlen Hleast Hdel Hd Hev IH].
  { split; [done|]. split_and!; try done.
    - simpl. lia.
    - intros j n Hj _. exists (children n). by rewrite with_children_id.
    - intros x n Hx. set_solver.
    - intros y. change (count y (concat [])) with 0. lia. }
  destruct (IH (dl_wf _ _ _ _ _ Hd)) as (W & R & E & P & K & F1 & F2 & L & S & O). split; [done|]. split_and!.
  - rewrite R. apply Hd.
  - rewrite E, (dl_evictable _ _ _ _ _ Hd). cbn [concat]. len_lia.
  - rewrite P. apply Hd.
  - intros j m Hj Hlm. assert (Hjx : j ≠ x) by (intros ->; simplify_eq; lia).
    destruct (dl_node _ _ _ _ _ Hd j m Hjx Hj) as (ch & Hc1 & _). destruct (K j _ Hc1 Hlm) as (ch' & Hc'). by exists ch'.
  - intros e j us vs Hf. apply F1 in Hf. by apply (dl_full _ _ _ _ _ Hd) in Hf as [? _].
  - intros e j us vs Hf Hj. apply not_elem_of_cons in Hj as [Hjx Hj]. apply F2; [|done]. by apply (dl_full _ _ _ _ _ Hd).
  - intros y m [->|Hy]%elem_of_cons Hm; [congruence|].
    destruct (decide (y = x)) as [->|Hyx]; [congruence|].
    destruct (dl_node _ _ _ _ _ Hd y m Hyx Hm) as (ch & Hc1 & _). exact (L y _ Hy Hc1).
  - intros y. rewrite S, (dl_slots _ _ _ _ _ Hd). cbn [concat]. rewrite count_app. lia.
  - intros j. by rewrite O, (dl_own _ _ _ _ _ Hd).
Qed.

Lemma evict_ok num c :
  wf c →
  ∃ c' k xs fr, evict page_size false strategy num c = Ok (c', k, fr) ∧ k = Z.of_nat (length (concat fr)) ∧
    evicts c xs fr c' ∧ (num ≤ k ∨ evictable_leaves c' = ∅) ∧
    (∀ pre last, fr = pre ++ [last] → Z.of_nat (length (concat pre)) < num).
Proof.
  intros Hw. unfold evict.
  destruct (evict_loop_ok (size (heap c)) num 0 (entries c (evictable_leaves c)) [] c Hw) as (c' & xs & fr & Hr & Hev & He & Hm);
    [done|lia|].
  exists c', (Z.of_nat (length (concat fr))), xs, fr. split_and!; [exact Hr|done|done|exact He|exact Hm].
Qed.

End evict.

(** ** The empty tree *)

Lemma reset_ok c : wf (reset monotonic c).
Proof.
  unfold RadixCache.wf, reset, nheap. simpl.
  set (r := mkNode [] None (mkKey [] None false) [] 1 (monotonic (ticks c)) (monotonic (S (ticks c))) 0 (- maxsize)).
  assert (Hh : norm <$> <[counter c := r]> (∅ : gmap nat TreeNode) = {[counter c := norm r]}).
  { by rewrite insert_empty, map_fmap_singleton. }
  rewrite Hh. assert (Hl : ∀ i n, ({[counter c := norm r]} : gmap nat TreeNode) !! i = Some n → i = counter c ∧ n = norm r).
  { intros i n Hi. apply lookup_singleton_Some in Hi as [<- <-]. done. }
  split; [|split].
  - split.
    + exists (norm r). rewrite lookup_singleton_eq. done.
    + intros i n [-> _]%Hl. lia.
    + intros i n ck j [-> ->]%Hl. done.
    + intros i n [-> ->]%Hl. constructor.
    + intros i n [-> _]%Hl. done.
    + intros i n [-> _]%Hl. done.
    + intros i n [-> _]%Hl. exists []. constructor.
  - split; [intros i n [-> ->]%Hl; simpl; lia|]. intros i n [-> _]%Hl. done.
  - split; [|split].
    + symmetry. apply hsum_zero. intros i n [-> _]%Hl. unfold size_of. by rewrite decide_True.
    + symmetry. apply hsum_zero. intros i n [-> _]%Hl. unfold size_of. by rewrite decide_True.
    + intros i. split; [set_solver|]. intros (n & [-> ->]%Hl & Hlk & _). done.
Qed.

End ops.
