(* ===== verification/RadixSpec.v ===== *)
(** What the radix cache promises its clients: longest-prefix matching, insertion
    as an update of the set of cached prefixes, eviction in policy order that
    never touches locked prefixes, exact size counters, and an invariant of every
    reachable cache under which no operation fails. *)

From S2P Require Import Prelude RadixKey RadixCache RadixOps.

Open Scope Z_scope.

(** * Cached prefixes are a function *)

Section det.
Context (page_size : nat) (is_eagle : bool).
Hypothesis Hps : (0 < page_size)%nat.

#[local] Notation tree_ok := (tree_ok page_size is_eagle).

(** Two walks from one node that read the same whole pages read the same values. *)
Lemma seg_agree H root cnt e m : ∀ a i j fu fv gu gv,
  tree_ok H root cnt → seg H root e a i fu fv → seg H root e a j gu gv → (m mod page_size = 0)%nat →
  (m ≤ length fu)%nat → (m ≤ length gu)%nat → take m fu = take m gu → take m fv = take m gv.
Proof.
  induction m as [m IH] using lt_wf_ind. intros a i j fu fv gu gv HT Hi Hj Hm Hf Hg E.
  destruct (decide (m = 0)%nat) as [->|Hm0]; [by rewrite !take_0|].
  pose proof (multiple_gap 0 m _ (Nat.Div0.mod_0_l _) Hm ltac:(lia)) as Hge.
  destruct (seg_first _ _ _ _ _ _ _ Hi) as [(_ & -> & _)|(b & bn & ru & rv & Hb & Hbr & Hbp & Hbe & Hbs & -> & ->)];
    [simpl in Hf; lia|].
  destruct (seg_first _ _ _ _ _ _ _ Hj) as [(_ & -> & _)|(d & dn & su & sv & Hd & Hdr & Hdp & Hde & Hds & -> & ->)];
    [simpl in Hg; lia|].
  destruct (ok_key _ _ _ _ _ HT _ _ Hb Hbr) as (Hk1 & Hk2 & _ & Hkv).
  destruct (ok_key _ _ _ _ _ HT _ _ Hd Hdr) as (Hl1 & Hl2 & _ & _).
  pose proof (multiple_gap 0 _ _ (Nat.Div0.mod_0_l _) Hk2 Hk1) as Hkp.
  pose proof (multiple_gap 0 _ _ (Nat.Div0.mod_0_l _) Hl2 Hl1) as Hlp.
  assert (b = d) as <-.
  { eapply (child_unique page_size is_eagle H root cnt b d a bn dn); try done; [congruence|].
    apply (f_equal (take page_size)) in E. rewrite !take_take, Nat.min_l in E by lia.
    rewrite !take_app_le in E by (rewrite length_units; lia). exact E. }
  assert (dn = bn) as -> by congruence. set (n := klen (key bn)) in *.
  destruct (decide (m ≤ n)%nat) as [Hmn|Hmn]; [by rewrite !take_app_le by lia|].
  assert (Hun : length (units (key bn)) = n) by apply length_units. rewrite !length_app in Hf, Hg.
  rewrite !take_app_ge in * by lia. rewrite Hun, Hkv in *. f_equal. apply app_inv_head in E.
  apply (IH (m - n)%nat ltac:(lia) b i j ru rv su sv HT Hbs Hds); [|lia|lia|done].
  unfold aligned in Hk2. fold n in Hk2. apply Nat.Lcm0.mod_divide in Hm, Hk2. apply Nat.Lcm0.mod_divide.
  by apply Nat.divide_sub_r.
Qed.

Lemma stored_det H root cnt e us vs ws :
  tree_ok H root cnt → stored page_size H root e us vs → stored page_size H root e us ws → vs = ws.
Proof.
  intros HT (i & fu & fv & Hi & Hu & Hv & Hm) (j & gu & gv & Hj & Hu' & Hv' & _). rewrite Hv, Hv'.
  apply (seg_agree H root cnt e (length us) root i j fu fv gu gv); try done; [..|congruence].
  - rewrite Hu, length_take. lia.
  - rewrite Hu', length_take. lia.
Qed.

Lemma stored_length H root cnt e us vs : tree_ok H root cnt → stored page_size H root e us vs → length vs = length us.
Proof using.
  clear Hps. intros HT (i & fu & fv & Hi & Hu & Hv & _). destruct (full_length _ _ _ _ _ _ _ _ _ HT Hi) as (Hl & _).
  rewrite Hv, length_take, <-Hl. apply (f_equal length) in Hu. rewrite length_take in Hu. lia.
Qed.

End det.

(** * The abstract contract *)

(** The cached prefixes: a namespace, the units of a key, their slots. *)
Definition Content : Type := option string → list (Z * option Z) → list Z → Prop.

Definition cached (page_size : nat) (c : RadixCache) : Content :=
  stored page_size (nheap c) (root_node c).

(** [vs] are the slots of the longest prefix of [us] in [A]; it has [n] units. *)
Definition longest (A : Content) (e : option string) (us : list (Z * option Z)) (n : nat) (vs : list Z) : Prop :=
  A e (take n us) vs ∧ (n ≤ length us)%nat ∧ length vs = n ∧
  ∀ m s, (m ≤ length us)%nat → A e (take m us) s → (m ≤ n)%nat.

(** [A'] is [A] with the whole-page prefixes of [us], whose slots are [vs]. *)
Definition extended (page_size : nat) (A A' : Content) (e : option string) (us : list (Z * option Z)) (vs : list Z) : Prop :=
  ∀ e' us' vs', A' e' us' vs' ↔
    A e' us' vs' ∨ (e' = e ∧ us' `prefix_of` us ∧ (length us' mod page_size = 0)%nat ∧ vs' = take (length us') vs).

(** The number of locks on a node. *)
Definition nlocks (i : nat) (L : list nat) : Z := Z.of_nat (length (filter (fun j => j = i) L)).

Lemma nlocks_cons i j L : nlocks i (j :: L) = nlocks i L + (if decide (i = j) then 1 else 0).
Proof. unfold nlocks. rewrite filter_cons. repeat case_decide; simplify_eq; simpl; lia. Qed.

Lemma nlocks_app i L1 L2 : nlocks i (L1 ++ L2) = nlocks i L1 + nlocks i L2.
Proof. unfold nlocks. rewrite filter_app, length_app. lia. Qed.

Lemma nlocks_pos i L : i ∈ L → 0 < nlocks i L.
Proof.
  intros Hi. induction Hi as [|? ? ? Hi IH]; rewrite nlocks_cons.
  - rewrite decide_True by done. unfold nlocks. lia.
  - case_decide; lia.
Qed.

Lemma heap_nheap c i : is_Some (heap c !! i) ↔ is_Some (nheap c !! i).
Proof. unfold nheap. rewrite lookup_fmap. by rewrite fmap_is_Some. Qed.

Section spec.
Context (page_size : nat) (is_eagle : bool) (monotonic : nat → Z).
Hypothesis Hps : (0 < page_size)%nat.

#[local] Notation wf := (wf page_size is_eagle).
#[local] Notation cached := (cached page_size).
#[local] Notation norm_key := (norm_key page_size is_eagle).
#[local] Notation norm_value := (norm_value page_size is_eagle).
#[local] Notation mode_ok := (mode_ok is_eagle).
#[local] Notation value_ok := (value_ok page_size is_eagle).

Lemma longest_det c e us n vs m ws : wf c → longest (cached c) e us n vs → longest (cached c) e us m ws → n = m ∧ vs = ws.
Proof.
  intros (HT & _) (H1 & L1 & _ & M1) (H2 & L2 & _ & M2).
  assert (n = m) as -> by (pose proof (M1 m ws L2 H2); pose proof (M2 n vs L1 H1); lia).
  split; [done|]. exact (stored_det page_size is_eagle Hps _ _ _ _ _ _ _ HT H1 H2).
Qed.

Lemma stored_longest c e us n vs :
  wf c → cached c e (take n us) vs → (n ≤ length us)%nat →
  (∀ m s, (m ≤ length us)%nat → cached c e ([] ++ take m us) s → (m ≤ n)%nat) → longest (cached c) e us n vs.
Proof.
  intros (HT & _) Hs Hn Hm. split_and!; [done|done| |done].
  rewrite (stored_length page_size is_eagle _ _ _ _ _ _ HT Hs), length_take. lia.
Qed.

Lemma match_prefix_longest k c :
  wf c → mode_ok k →
  ∃ c' vs j n, match_prefix page_size false is_eagle monotonic k c = Ok (c', vs, j) ∧ quiet page_size is_eagle c c' ∧
    longest (cached c) (extra_key k) (units (norm_key k)) n vs ∧
    full (nheap c') (root_node c') (extra_key k) j (take n (units (norm_key k))) vs.
Proof.
  intros Hw Hm. destruct (match_prefix_ok page_size is_eagle monotonic Hps k c Hw Hm) as (c' & vs & j & n & Hr & Hq & Hn & Hf & Hnl).
  exists c', vs, j, n. split; [done|]. split; [done|]. split; [|done].
  apply stored_longest; rewrite ?length_units; [done| |lia|exact Hnl].
  apply (quiet_stored page_size is_eagle _ _ _ _ _ Hq). eapply stored_full; [done|apply Hq|done].
Qed.

Lemma insert_longest k v prio ch c :
  wf c → mode_ok k → value_ok k v →
  ∃ c' n ws, insert page_size false is_eagle monotonic k v prio ch c = Ok (c', n) ∧
    longest (cached c) (extra_key k) (units (norm_key k)) n ws ∧
    inserted page_size is_eagle c c' (extra_key k) (norm_key k) (norm_value k v) n ws.
Proof.
  intros Hw Hm Hv. destruct (insert_ok page_size is_eagle monotonic Hps k v prio ch c Hw Hm Hv) as (c' & n & ws & Hr & Hi).
  exists c', n, ws. split; [done|]. split; [|done].
  apply stored_longest; rewrite ?length_units; [done|apply Hi|apply Hi|apply Hi].
Qed.

Lemma stored_prefix H root e us vs us' :
  stored page_size H root e us vs → us' `prefix_of` us → (length us' mod page_size = 0)%nat →
  stored page_size H root e us' (take (length us') vs).
Proof.
  intros (i & fu & fv & Hf & Hu & Hv & _) [ru ->] Hm. exists i, fu, fv. rewrite length_app in *. split_and!; [done| | |done].
  - apply (f_equal (take (length us'))) in Hu. rewrite take_app_length, take_take, Nat.min_l in Hu by lia. done.
  - rewrite Hv, take_take. f_equal. lia.
Qed.

Lemma inserted_extended c c' e k v n ws :
  wf c → inserted page_size is_eagle c c' e k v n ws → extended page_size (cached c) (cached c') e (units k) (ws ++ drop n v).
Proof.
  intros Hw Hi e' us' vs'. split.
  - intros Hs. destruct (in_only _ _ _ _ _ _ _ _ _ Hi _ _ _ Hs) as [?|(-> & Hu & Hv)]; [by left|]. right.
    split_and!; [done| |by destruct Hs as (? & ? & ? & _ & _ & _ & ?)|done].
    rewrite Hu. exists (drop (length us') (units k)). by rewrite take_drop.
  - intros [Hs|(-> & Hu & Hm & ->)]; [by apply (in_keep _ _ _ _ _ _ _ _ _ Hi)|].
    apply stored_prefix with (us := units k); [apply Hi|done|done].
Qed.

(** C11: [match_prefix] returns the slots of the longest cached prefix of the
    page-aligned key and the node where it ends; the tree may split a node, the
    cached prefixes, the sizes and the slots it holds stay. *)
Theorem match_prefix_spec k c :
  wf c → mode_ok k →
  ∃ c' vs j n, match_prefix page_size false is_eagle monotonic k c = Ok (c', vs, j) ∧
    longest (cached c) (extra_key k) (units (norm_key k)) n vs ∧
    full (nheap c') (root_node c') (extra_key k) j (take n (units (norm_key k))) vs ∧
    wf c' ∧ (∀ e us ws, cached c' e us ws ↔ cached c e us ws) ∧
    evictable_size_ c' = evictable_size_ c ∧ protected_size_ c' = protected_size_ c ∧
    (∀ x, slots x (nheap c') = slots x (nheap c)).
Proof.
  intros Hw Hm. destruct (match_prefix_longest k c Hw Hm) as (c' & vs & j & n & Hr & Hq & Hl & Hf).
  exists c', vs, j, n. split; [done|]. split; [done|]. split; [done|]. split; [apply Hq|].
  split; [|split; [apply Hq|split; [apply Hq|apply Hq]]].
  intros e us ws. symmetry. exact (quiet_stored page_size is_eagle _ _ _ _ _ Hq).
Qed.

(** C12: [insert] returns the length of the longest cached prefix of the key; the
    prefixes cached afterwards are the old ones and those of the key, the cached
    part with its old slots, the rest with the slots given; the evictable size
    and the slots in the tree grow by exactly the new part. *)
Theorem insert_refines k v prio ch c :
  wf c → mode_ok k → value_ok k v →
  ∃ c' n ws, insert page_size false is_eagle monotonic k v prio ch c = Ok (c', n) ∧
    longest (cached c) (extra_key k) (units (norm_key k)) n ws ∧
    extended page_size (cached c) (cached c') (extra_key k) (units (norm_key k)) (ws ++ drop n (norm_value k v)) ∧
    wf c' ∧ evictable_size_ c' = evictable_size_ c + Z.of_nat (klen (norm_key k) - n) ∧
    protected_size_ c' = protected_size_ c ∧
    (∀ x, slots x (nheap c') = slots x (nheap c) + count x (drop n (norm_value k v))).
Proof.
  intros Hw Hm Hv. destruct (insert_longest k v prio ch c Hw Hm Hv) as (c' & n & ws & Hr & Hl & Hi).
  exists c', n, ws. split; [done|]. split; [done|]. split; [by apply inserted_extended|]. destruct Hi. done.
Qed.

Lemma match_after_insert k v prio ch c c1 ws j c2 n :
  wf c → mode_ok k → value_ok k v →
  match_prefix page_size false is_eagle monotonic k c = Ok (c1, ws, j) →
  insert page_size false is_eagle monotonic k v prio ch c1 = Ok (c2, n) →
  n = length ws ∧ wf c2 ∧ cached c2 (extra_key k) (units (norm_key k)) (ws ++ drop n (norm_value k v)) ∧
  ∃ c3 j', match_prefix page_size false is_eagle monotonic k c2 = Ok (c3, ws ++ drop n (norm_value k v), j').
Proof.
  intros Hw Hm Hv Hr1 Hr2. destruct (match_prefix_longest k c Hw Hm) as (c1' & ws' & j0 & n1 & E1 & Hq & Hl & _).
  rewrite Hr1 in E1. injection E1 as <- <- <-. pose proof (q_wf _ _ _ _ Hq) as Hw1.
  destruct (insert_longest k v prio ch c1 Hw1 Hm Hv) as (c2' & n2 & ws2 & E2 & Hl2 & Hi).
  rewrite Hr2 in E2. injection E2 as <- <-.
  assert (Hl' : longest (cached c1) (extra_key k) (units (norm_key k)) n1 ws).
  { destruct Hl as (A & B & C & D). split_and!; [by apply (quiet_stored page_size is_eagle _ _ _ _ _ Hq)|done|done|].
    intros m s Hle Hs. apply (D m s Hle). by apply (quiet_stored page_size is_eagle _ _ _ _ _ Hq). }
  destruct (longest_det c1 _ _ _ _ _ _ Hw1 Hl' Hl2) as [-> <-]. split; [by destruct Hl as (_ & _ & -> & _)|].
  pose proof (in_wf _ _ _ _ _ _ _ _ _ Hi) as Hw2. split; [done|]. split; [apply Hi|].
  destruct (match_prefix_longest k c2 Hw2 Hm) as (c3 & vs & j' & n3 & Hr3 & _ & (A & B & _ & D) & _).
  exists c3, j'. rewrite Hr3. do 2 f_equal. f_equal.
  pose proof (in_new _ _ _ _ _ _ _ _ _ Hi) as Hnew.
  assert (n3 = length (units (norm_key k))) as ->.
  { specialize (D (length (units (norm_key k))) (ws ++ drop n (norm_value k v)) (le_n _)).
    rewrite firstn_all in D. specialize (D Hnew). lia. }
  rewrite firstn_all in A. pose proof Hw2 as (HT2 & _).
  exact (stored_det page_size is_eagle Hps _ _ _ _ _ _ _ HT2 A Hnew).
Qed.

(** C18: What [match_prefix] finds before and after an insertion: the insertion
    reports the length of the earlier match, and a later match returns the whole
    aligned key, the earlier slots followed by the inserted ones. *)
Theorem insert_match_roundtrip k v prio ch c c1 ws j c2 n :
  wf c → mode_ok k → value_ok k v →
  match_prefix page_size false is_eagle monotonic k c = Ok (c1, ws, j) →
  insert page_size false is_eagle monotonic k v prio ch c1 = Ok (c2, n) →
  n = length ws ∧ cached c2 (extra_key k) (units (norm_key k)) (ws ++ drop n (norm_value k v)) ∧
  ∃ c3 j', match_prefix page_size false is_eagle monotonic k c2 = Ok (c3, ws ++ drop n (norm_value k v), j').
Proof.
  intros Hw Hm Hv H1 H2. destruct (match_after_insert _ _ _ _ _ _ _ _ _ _ Hw Hm Hv H1 H2) as (Hn & _ & Hc & Hr). done.
Qed.

(** * Eviction *)

Section eviction.
Context (strategy : EvictionStrategy).

Lemma evict_run num c :
  wf c →
  ∃ c' xs fr, evict page_size false strategy num c = Ok (c', Z.of_nat (length (concat fr)), fr) ∧
    evicts page_size is_eagle strategy c xs fr c' ∧
    num `min` evictable_size_ c ≤ Z.of_nat (length (concat fr)) ∧
    (∀ pre last, fr = pre ++ [last] → Z.of_nat (length (concat pre)) < num).
Proof.
  intros Hw. destruct (evict_ok page_size is_eagle monotonic Hps strategy num c Hw) as (c' & k & xs & fr & Hr & -> & Hev & Hend & Hmin).
  exists c', xs, fr. split; [done|]. split; [done|]. split; [|done].
  destruct (evicts_ok page_size is_eagle Hps strategy c xs fr c' Hw Hev) as (Hw' & _ & He & _).
  destruct Hend as [?|Hend]; [lia|]. pose proof (no_leaf_no_size _ _ monotonic Hps c' Hw' Hend). lia.
Qed.

(** C13: [evict] always returns and frees as many tokens as requested, or
    everything evictable when that is less, stopping at the first leaf that
    reaches the request.  Leaves go in the order of the policy, are not locked,
    and their slots are exactly what leaves the tree; locked nodes and every
    prefix ending in a node that was not evicted stay cached. *)
Theorem evict_spec num c :
  wf c →
  ∃ c' xs fr, evict page_size false strategy num c = Ok (c', Z.of_nat (length (concat fr)), fr) ∧
    evicts page_size is_eagle strategy c xs fr c' ∧
    num `min` evictable_size_ c ≤ Z.of_nat (length (concat fr)) ∧
    (∀ pre last, fr = pre ++ [last] → Z.of_nat (length (concat pre)) < num) ∧
    wf c' ∧ evictable_size_ c' = evictable_size_ c - Z.of_nat (length (concat fr)) ∧
    protected_size_ c' = protected_size_ c ∧
    (∀ j n, heap c !! j = Some n → 0 < lock_ref n → ∃ ch, heap c' !! j = Some (with_children ch n)) ∧
    (∀ e j us vs, full (nheap c) (root_node c) e j us vs → j ∉ xs → cached c' e us vs) ∧
    (∀ e us vs, cached c' e us vs → cached c e us vs) ∧
    (∀ x, slots x (nheap c') = slots x (nheap c) - count x (concat fr)).
Proof.
  intros Hw. destruct (evict_run num c Hw) as (c' & xs & fr & Hr & Hev & Hnum & Hmin).
  destruct (evicts_ok page_size is_eagle Hps strategy c xs fr c' Hw Hev) as (Hw' & Hroot & He & Hp & Hk & Hf1 & Hf2 & _ & Hs & _).
  exists c', xs, fr. split; [done|]. split; [done|]. split; [done|]. split; [done|]. split; [done|].
  split; [done|]. split; [done|]. split; [done|]. split; [|split; [|done]].
  - intros e j us vs Hf Hj. unfold RadixSpec.cached. eapply stored_full; [done|exact Hw'|by apply Hf2].
  - intros e us vs (i & fu & fv & Hf & Hrest). exists i, fu, fv. split; [|done]. by apply Hf1.
Qed.

End eviction.

(** * Locks *)

Lemma own_held c i :
  wf c → is_Some (heap c !! i) → (i ≠ root_node c → 0 < own c i) → held c i.
Proof.
  intros Hw [n Hi] Ho. exists n. split; [done|]. intros Hr. specialize (Ho Hr). unfold own in Ho.
  rewrite (nheap_lookup _ _ _ Hi) in Ho. simpl in Ho. lia.
Qed.

Lemma own_nonneg c i : wf c → i ≠ root_node c → 0 ≤ own c i.
Proof.
  intros (_ & [_ Hl] & _) Hr. unfold own. destruct (nheap c !! i) as [n|] eqn:E; [|done]. specialize (Hl i n E Hr). lia.
Qed.

Lemma relocks_back c c1 c2 l : relocks c c1 l 1 → relocks c1 c2 l (-1) → nheap c2 = nheap c.
Proof.
  intros [_ _ H1] [_ _ H2]. apply map_eq. intros j. rewrite H2, H1. destruct (nheap c !! j) as [n|]; [|done].
  simpl. f_equal. destruct n. unfold with_lock. simpl. f_equal. case_decide; lia.
Qed.

(** Taking a lock and giving it back. *)
Lemma lock_unlock_run c i n :
  wf c → heap c !! i = Some n →
  ∃ c1 c2 l, inc_lock_ref false i c = Ok (c1, evictable_size_ c1 - evictable_size_ c) ∧ wf c1 ∧
    path (nheap c) (root_node c) i l ∧ relocks c c1 l 1 ∧
    dec_lock_ref false i c1 = Ok (c2, evictable_size_ c2 - evictable_size_ c1) ∧ wf c2 ∧
    nheap c2 = nheap c ∧ root_node c2 = root_node c.
Proof.
  intros Hw Hi. destruct (inc_lock_ok page_size is_eagle monotonic Hps c i n Hw Hi) as (c1 & l & Hl & Hr1 & Hw1 & Hl1 & Ho1).
  assert (Hheld : held c1 i).
  { apply own_held; [done| |].
    - pose proof (rl_heap _ _ _ _ Hl1 i) as E. rewrite (nheap_lookup _ _ _ Hi) in E.
      apply nheap_Some in E as (n1 & Hn1 & _). by exists n1.
    - rewrite (rl_root _ _ _ _ Hl1). intros Hr. rewrite Ho1, decide_True by done. pose proof (own_nonneg c i Hw Hr). lia. }
  destruct (dec_lock_ok page_size is_eagle monotonic Hps c1 i Hw1 Hheld) as (c2 & l2 & Hl2 & Hr2 & Hw2 & Hrl2 & _).
  assert (l2 = l) as ->.
  { symmetry. eapply path_det; [|exact Hl2]. by eapply relocks_path. }
  exists c1, c2, l. split_and!; try done; [by eapply relocks_back|]. rewrite (rl_root _ _ _ _ Hrl2). apply Hl1.
Qed.

(** [inc_lock_ref] on a node of the tree followed by [dec_lock_ref] on it
    succeeds and restores every node, the sizes and the evictable leaves; in
    between nothing on the path to the root is evictable, the cached prefixes are
    the same, and the two deltas reported cancel. *)
Theorem lock_unlock_roundtrip c i :
  wf c → is_Some (heap c !! i) →
  ∃ c1 c2 d l, inc_lock_ref false i c = Ok (c1, d) ∧ wf c1 ∧ path (nheap c) (root_node c) i l ∧
    (∀ j, j ∈ l → ∃ n, heap c1 !! j = Some n ∧ 0 < lock_ref n) ∧
    d = evictable_size_ c1 - evictable_size_ c ∧
    (∀ e us vs, cached c1 e us vs ↔ cached c e us vs) ∧
    dec_lock_ref false i c1 = Ok (c2, - d) ∧ wf c2 ∧ nheap c2 = nheap c ∧
    evictable_size_ c2 = evictable_size_ c ∧ protected_size_ c2 = protected_size_ c ∧
    evictable_leaves c2 = evictable_leaves c.
Proof.
  intros Hw [n Hi]. destruct (lock_unlock_run c i n Hw Hi) as (c1 & c2 & l & Hr1 & Hw1 & Hl & Hl1 & Hr2 & Hw2 & Hback & Hrt).
  pose proof Hw as (_ & [Hpos _] & (E1 & P1 & L1)). pose proof Hw2 as (_ & _ & (E2 & P2 & L2)). rewrite Hback, Hrt in *.
  exists c1, c2, (evictable_size_ c1 - evictable_size_ c), l. split; [done|]. split; [done|]. split; [done|].
  split; [|split; [done|split; [|split; [rewrite Hr2; do 2 f_equal; lia|]]]].
  - intros j Hj. destruct (path_NoDup _ _ _ _ Hl) as [_ Hin]. destruct (Hin j Hj) as [m Hm].
    pose proof (rl_heap _ _ _ _ Hl1 j) as E. rewrite Hm, decide_True in E by done. simpl in E.
    apply nheap_Some in E as (n1 & Hn1 & En). exists n1. split; [done|]. apply (f_equal lock_ref) in En. simpl in En.
    specialize (Hpos _ _ Hm). lia.
  - intros e us vs. symmetry. exact (relocks_content page_size _ _ _ _ _ _ _ Hl1).
  - split; [done|]. split; [done|]. split; [lia|]. split; [lia|]. apply set_eq. intros j. by rewrite L1, L2.
Qed.

(** * Reachable caches *)

(** A cache and the locks its clients hold, one entry per [inc_lock_ref] not yet
    undone. *)
Definition Client : Type := RadixCache * list nat.

Section reach.
Context (strategy : EvictionStrategy).

Inductive rstep : Client → Client → Prop :=
  | r_match c L k c' vs j :
      mode_ok k → match_prefix page_size false is_eagle monotonic k c = Ok (c', vs, j) → rstep (c, L) (c', L)
  | r_insert c L k v prio ch c' n :
      mode_ok k → value_ok k v → insert page_size false is_eagle monotonic k v prio ch c = Ok (c', n) →
      rstep (c, L) (c', L)
  | r_lock c L i c' d :
      is_Some (heap c !! i) → inc_lock_ref false i c = Ok (c', d) → rstep (c, L) (c', i :: L)
  | r_unlock c L1 i L2 c' d :
      dec_lock_ref false i c = Ok (c', d) → rstep (c, L1 ++ i :: L2) (c', L1 ++ L2)
  | r_evict c L num c' k fr : evict page_size false strategy num c = Ok (c', k, fr) → rstep (c, L) (c', L)
  | r_reset c : rstep (c, []) (reset monotonic c, []).

(** The tree is well formed and its lock counts are those of the clients. *)
Definition rinv (s : Client) : Prop :=
  wf s.1 ∧ (∀ i, i ≠ root_node s.1 → own s.1 i = nlocks i s.2) ∧ (∀ i, i ∈ s.2 → is_Some (heap s.1 !! i)).

Lemma rinv_same c c' L : rinv (c, L) → wf c' → root_node c' = root_node c → same_locks c c' → rinv (c', L).
Proof.
  intros (_ & Ho & Hl) Hw Hr [Hs Hown]. simpl in *. split; [done|]. split; simpl.
  - intros i Hi. rewrite Hr in Hi. rewrite Hown. by apply Ho.
  - intros i Hi. apply heap_nheap, Hs, heap_nheap. by apply Hl.
Qed.

Lemma rinv_relock c c' L i l d L' :
  rinv (c, L) → wf c' → relocks c c' l d →
  (∀ j, j ≠ root_node c → own c' j = own c j + (if decide (j = i) then d else 0)) →
  (∀ j, nlocks j L' = nlocks j L + (if decide (j = i) then d else 0)) →
  (∀ j, j ∈ L' → is_Some (heap c !! j)) → rinv (c', L').
Proof.
  intros (_ & Ho & _) Hw [Hr _ Hh] Ho' Hn Hl. simpl in *. split; [done|]. split; simpl.
  - intros j Hj. rewrite Hr in Hj. by rewrite Ho', Ho, Hn.
  - intros j Hj. apply heap_nheap. rewrite Hh. apply fmap_is_Some, heap_nheap. by apply Hl.
Qed.

Lemma rinv_held c L i : rinv (c, L) → i ∈ L → held c i.
Proof.
  intros (Hw & Ho & Hl) Hi. simpl in *. apply own_held; [done|by apply Hl|]. intros Hr. rewrite Ho by done. by apply nlocks_pos.
Qed.

(** Locked nodes survive an eviction. *)
Lemma rinv_evict c L xs fr c' : rinv (c, L) → evicts page_size is_eagle strategy c xs fr c' → rinv (c', L).
Proof.
  intros Hinv Hev. pose proof Hinv as (Hw & Ho & Hl). simpl in *.
  destruct (evicts_ok page_size is_eagle Hps strategy c xs fr c' Hw Hev) as (Hw' & Hroot & _ & _ & Hk & _ & _ & _ & _ & Hown).
  split; [done|]. split; simpl.
  - intros i Hi. rewrite Hroot in Hi. rewrite Hown. by apply Ho.
  - intros i Hi. destruct (rinv_held c L i Hinv Hi) as (n & Hn & Hlt). destruct (decide (i = root_node c)) as [->|Hr].
    + rewrite <-Hroot. destruct (root_lookup page_size is_eagle c' Hw') as [r Hr]. by exists r.
    + pose proof Hw as (_ & [Hpos _] & _). destruct (Hk i n Hn) as (ch & Hc'); [|by eexists].
      pose proof (child_locks_nonneg (nheap c) i Hpos). specialize (Hlt Hr). lia.
Qed.

Lemma rinv_reset c : rinv (reset monotonic c, []).
Proof.
  split; [by apply reset_ok|]. split; [|by intros ? ?%not_elem_of_nil]. simpl. intros i Hi. unfold own, nheap. simpl in *.
  rewrite fmap_insert, lookup_insert_ne, fmap_empty by done. done.
Qed.

Lemma rinv_step s s' : rinv s → rstep s s' → rinv s'.
Proof.
  intros Hinv Hs. pose proof Hinv as (Hw & Ho & Hl).
  destruct Hs as [c L k c' vs j Hm Hr|c L k v prio ch c' n Hm Hv Hr|c L i c' d Hi Hr|c L1 i L2 c' d Hr|c L num c' k fr Hr|c]; cbn [fst snd] in *.
  - destruct (match_prefix_longest k c Hw Hm) as (c1 & vs1 & j1 & n1 & E & Hq & _). rewrite Hr in E. injection E as <- <- <-.
    apply (rinv_same c); [done|apply Hq..].
  - destruct (insert_longest k v prio ch c Hw Hm Hv) as (c1 & n1 & ws & E & _ & Hi). rewrite Hr in E. injection E as <- <-.
    apply (rinv_same c); [done|apply Hi..].
  - destruct Hi as [n Hi]. destruct (inc_lock_ok page_size is_eagle monotonic Hps c i n Hw Hi) as (c1 & l & _ & E & Hw1 & Hl1 & Ho1).
    rewrite Hr in E. injection E as <- _. apply (rinv_relock c c' L i l 1); try done.
    + intros j. by rewrite nlocks_cons.
    + intros j [->|Hj]%elem_of_cons; [by exists n|by apply Hl].
  - assert (Hh : held c i) by (apply (rinv_held c (L1 ++ i :: L2)); [done|set_solver]).
    destruct (dec_lock_ok page_size is_eagle monotonic Hps c i Hw Hh) as (c1 & l & _ & E & Hw1 & Hl1 & Ho1).
    rewrite Hr in E. injection E as <- _. apply (rinv_relock c c' (L1 ++ i :: L2) i l (-1)); try done.
    + intros j. rewrite !nlocks_app, nlocks_cons. case_decide; lia.
    + intros j Hj. apply Hl. set_solver.
  - destruct (evict_run strategy num c Hw) as (c1 & xs & fr1 & E & Hev & _). rewrite Hr in E. injection E as <- _ <-.
    by eapply rinv_evict.
  - apply rinv_reset.
Qed.

Lemma rinv_reachable s : rtc rstep (new_cache monotonic, []) s → rinv s.
Proof.
  remember (new_cache monotonic, []) as s0 eqn:Hs0. intros Hr.
  assert (H0 : rinv s0) by (rewrite Hs0; apply rinv_reset). clear Hs0.
  induction Hr as [|s0 s1 s2 Hst _ IH]; [done|]. apply IH. by eapply rinv_step.
Qed.

(** C14: After any sequence of matches, insertions, locks, unlocks, evictions and
    resets (with no lock held) from a new cache, the counters are the sizes of the
    unlocked and locked nodes, the leaf set holds exactly the unlocked leaves,
    every lock count is the number of client locks on the node and below it, and
    no operation raises: neither on a lookup, nor on the assertions of
    [dec_lock_ref] and [_delete_leaf], nor by an endless loop. *)
Theorem reachable_safe c L :
  rtc rstep (new_cache monotonic, []) (c, L) →
  evictable_size_ c = hsum (size_of (root_node c) true) (nheap c) ∧
  protected_size_ c = hsum (size_of (root_node c) false) (nheap c) ∧
  (∀ i, i ∈ evictable_leaves c ↔ is_leaf (nheap c) i) ∧
  (∀ i n, i ≠ root_node c → nheap c !! i = Some n → lock_ref n = child_locks (nheap c) i + nlocks i L) ∧
  (∀ k, mode_ok k → is_ok (match_prefix page_size false is_eagle monotonic k c)) ∧
  (∀ k v prio ch, mode_ok k → value_ok k v → is_ok (insert page_size false is_eagle monotonic k v prio ch c)) ∧
  (∀ i, is_Some (heap c !! i) → is_ok (inc_lock_ref false i c)) ∧
  (∀ i, i ∈ L → is_ok (dec_lock_ref false i c)) ∧
  (∀ num, is_ok (evict page_size false strategy num c)).
Proof.
  intros Hr. pose proof (rinv_reachable _ Hr) as Hinv. pose proof Hinv as (Hw & Ho & Hl). cbn [fst snd] in *.
  pose proof Hw as (_ & _ & (HE & HP & HL)).
  split; [done|]. split; [done|]. split; [done|]. split.
  { intros i n Hi Hn. specialize (Ho i Hi). unfold own in Ho. rewrite Hn in Ho. lia. }
  repeat split.
  - intros k Hm. destruct (match_prefix_longest k c Hw Hm) as (? & ? & ? & ? & -> & _). done.
  - intros k v prio ch Hm Hv. destruct (insert_longest k v prio ch c Hw Hm Hv) as (? & ? & ? & -> & _). done.
  - intros i [n Hi]. destruct (inc_lock_ok page_size is_eagle monotonic Hps c i n Hw Hi) as (? & ? & _ & -> & _). done.
  - intros i Hi. destruct (dec_lock_ok page_size is_eagle monotonic Hps c i Hw (rinv_held c L i Hinv Hi)) as (? & ? & _ & -> & _). done.
  - intros num. destruct (evict_run strategy num c Hw) as (? & ? & ? & -> & _). done.
Qed.

End reach.
End spec.

(** * A concrete tree *)

(** Two prompts that share a page, pages of two tokens. *)
Definition clock (i : nat) : Z := Z.of_nat i.
Definition prompt (ts : list Z) : RadixKey := mkKey ts None false.

Definition after (r : result (RadixCache * nat)) : RadixCache :=
  match r with Ok (c, _) => c | Raise _ => new_cache clock end.

Definition demo_insert (ts vs : list Z) (c : RadixCache) : result (RadixCache * nat) :=
  insert 2 false false clock (prompt ts) (Some vs) 0 false c.

Definition demo : RadixCache :=
  after (demo_insert [1; 2; 5; 6] [20; 21; 22; 23] (after (demo_insert [1; 2; 3; 4] [10; 11; 12; 13] (new_cache clock)))).

Lemma demo_insert_wf ts vs c :
  wf 2 false c → (length ts ≤ length vs)%nat → wf 2 false (after (demo_insert ts vs c)).
Proof.
  intros Hw Hl. assert (Hv : value_ok 2 false (prompt ts) (Some vs)).
  { destruct (page_aligned_ok 2 ltac:(lia) (prompt ts)) as (_ & _ & _ & Hle). unfold value_ok, norm_key. simpl in *.
    unfold klen in *. simpl in *. lia. }
  destruct (insert_ok 2 false clock ltac:(lia) (prompt ts) (Some vs) 0 false c Hw ltac:(done) Hv) as (c' & n & ws & Hr & Hi).
  unfold demo_insert. rewrite Hr. apply Hi.
Qed.

Lemma demo_wf : wf 2 false demo.
Proof. apply demo_insert_wf; [apply demo_insert_wf; [|simpl; lia]|simpl; lia]. apply reset_ok. lia. Qed.

Lemma match_prefix_spec_witness :
  ∃ c' j, match_prefix 2 false false clock (prompt [1; 2; 3; 4; 9]) demo = Ok (c', [10; 11; 12; 13], j) ∧
    longest (cached 2 demo) None [(1, None); (2, None); (3, None); (4, None)] 4 [10; 11; 12; 13].
Proof.
  destruct (match_prefix_spec 2 false clock ltac:(lia) (prompt [1; 2; 3; 4; 9]) demo demo_wf ltac:(done))
    as (c' & vs & j & n & Hr & Hl & _).
  exists c', j. assert (vs = [10; 11; 12; 13]) as ->.
  { apply (f_equal (fun r => match r with Ok (_, vs, _) => vs | Raise _ => [] end)) in Hr. vm_compute in Hr. done. }
  split; [done|]. pose proof Hl as (_ & _ & Hn & _). simpl in Hn. subst n. exact Hl.
Defined.

Lemma insert_refines_witness :
  ∃ c' n ws, insert 2 false false clock (prompt [1; 2; 3; 8]) (Some [30; 31; 32; 33]) 0 false demo = Ok (c', n) ∧
    longest (cached 2 demo) None [(1, None); (2, None); (3, None); (8, None)] n ws ∧
    evictable_size_ c' = evictable_size_ demo + Z.of_nat (4 - n).
Proof.
  destruct (insert_refines 2 false clock ltac:(lia) (prompt [1; 2; 3; 8]) (Some [30; 31; 32; 33]) 0 false demo demo_wf
    ltac:(done) ltac:(vm_compute; lia)) as (c' & n & ws & Hr & Hl & _ & _ & He & _).
  exists c', n, ws. split; [exact Hr|]. split; [exact Hl|exact He].
Defined.

Lemma insert_match_roundtrip_witness :
  match match_prefix 2 false false clock (prompt [1; 2; 3; 8]) demo with
  | Ok (c1, ws, _) =>
      match insert 2 false false clock (prompt [1; 2; 3; 8]) (Some [30; 31; 32; 33]) 0 false c1 with
      | Ok (c2, n) => n = length ws ∧
          ∃ c3 j', match_prefix 2 false false clock (prompt [1; 2; 3; 8]) c2 = Ok (c3, [10; 11; 32; 33], j')
      | Raise _ => False
      end
  | Raise _ => False
  end.
Proof.
  destruct (match_prefix 2 false false clock (prompt [1; 2; 3; 8]) demo) as [[[c1 ws] j]|] eqn:H1; [|vm_compute in H1; done].
  destruct (insert 2 false false clock (prompt [1; 2; 3; 8]) (Some [30; 31; 32; 33]) 0 false c1) as [[c2 n]|] eqn:H2.
  - destruct (insert_match_roundtrip 2 false clock ltac:(lia) (prompt [1; 2; 3; 8]) (Some [30; 31; 32; 33]) 0 false demo c1 ws j c2 n
      demo_wf ltac:(done) ltac:(vm_compute; lia) H1 H2) as (Hn & _ & c3 & j' & Hr). split; [done|]. exists c3, j'. rewrite Hr.
    assert (ws = [10; 11]) as -> by (vm_compute in H1; by injection H1). simpl in Hn. by rewrite Hn.
  - exfalso. apply (f_equal (fun r => match r with Ok (c, _, _) => c | Raise _ => demo end)) in H1.
    rewrite <-H1 in H2. vm_compute in H2. done.
Defined.

Lemma evict_spec_witness :
  ∃ c' xs fr, evict 2 false LRUStrategy 3 demo = Ok (c', 4, fr) ∧ evicts 2 false LRUStrategy demo xs fr c' ∧
    evictable_size_ c' = evictable_size_ demo - 4.
Proof.
  destruct (evict_spec 2 false clock ltac:(lia) LRUStrategy 3 demo demo_wf)
    as (c' & xs & fr & Hr & Hev & _ & _ & _ & He & _).
  exists c', xs, fr. assert (length (concat fr) = 4%nat) as Hl.
  { apply (f_equal (fun r => match r with Ok (_, _, fr) => length (concat fr) | Raise _ => 0%nat end)) in Hr.
    vm_compute in Hr. done. }
  rewrite Hl in Hr, He. exact (conj Hr (conj Hev He)).
Defined.

Lemma lock_unlock_roundtrip_witness :
  ∃ c1 c2 d, inc_lock_ref false 1 demo = Ok (c1, d) ∧ dec_lock_ref false 1 c1 = Ok (c2, - d) ∧ nheap c2 = nheap demo.
Proof.
  destruct (lock_unlock_roundtrip 2 false clock ltac:(lia) demo 1 demo_wf ltac:(vm_compute; by eexists))
    as (c1 & c2 & d & l & H1 & _ & _ & _ & _ & _ & H2 & _ & H3 & _).
  exact (ex_intro _ c1 (ex_intro _ c2 (ex_intro _ d (conj H1 (conj H2 H3))))).
Defined.

(** A lock is taken, the rest of the tree evicted, the lock released. *)
Lemma reachable_safe_witness :
  match inc_lock_ref false 1 (after (demo_insert [1; 2; 3; 4] [10; 11; 12; 13] (new_cache clock))) with
  | Ok (c, _) => is_ok (dec_lock_ref false 1 c) ∧ is_ok (evict 2 false LRUStrategy 100 c)
  | Raise _ => False
  end.
Proof.
  set (c0 := after (demo_insert [1; 2; 3; 4] [10; 11; 12; 13] (new_cache clock))).
  destruct (inc_lock_ref false 1 c0) as [[c d]|] eqn:Hl; [|vm_compute in Hl; done].
  destruct (reachable_safe 2 false clock ltac:(lia) LRUStrategy c [1%nat]) as (_ & _ & _ & _ & _ & _ & _ & Hd & He).
  - apply rtc_l with (c0, []).
    + apply r_insert with (k := prompt [1; 2; 3; 4]) (v := Some [10; 11; 12; 13]) (prio := 0) (ch := false) (n := 0%nat);
        [done|vm_compute; lia|vm_compute; done].
    + apply rtc_once. apply r_lock with (d := d); [vm_compute; by eexists|done].
  - split; [apply Hd; set_solver|apply He].
Defined.
