(* ===== verification/ReqPool.v ===== *)
(** Requests as the caches see them ([Req] of [managers/schedule_batch.py]) and
    the table from requests to KV slots ([ReqToTokenPool] of
    [mem_cache/memory_pool.py]).

    The table is a list of rows of [max_context_len] slots; row 0 is the padding
    row.  The fields of [Req] that belong to sampling, tokenisation and streaming
    are left out. *)

From S2P Require Import Prelude.

(** * Requests *)

Record Req := mkReq {
  origin_input_ids : list Z;
  output_ids : list Z;
  fill_ids : list Z;
  req_extra_key : option string;
  req_priority : option Z;
  reasoning_tokens : Z;
  inflight_middle_chunks : Z;
  skip_radix_cache_insert : bool;
  req_pool_idx : option nat;
  prefix_indices : list Z;
  last_node : option nat;
  cache_protected_len : nat;
  kv_committed_len : nat;
  kv_allocated_len : nat;
  kv_committed_freed : bool;
  kv_overallocated_freed : bool;
}.

Definition set_pool_idx (i : option nat) (r : Req) : Req :=
  mkReq (origin_input_ids r) (output_ids r) (fill_ids r) (req_extra_key r) (req_priority r) (reasoning_tokens r)
    (inflight_middle_chunks r) (skip_radix_cache_insert r) i (prefix_indices r) (last_node r) (cache_protected_len r)
    (kv_committed_len r) (kv_allocated_len r) (kv_committed_freed r) (kv_overallocated_freed r).

Definition set_inflight (n : Z) (r : Req) : Req :=
  mkReq (origin_input_ids r) (output_ids r) (fill_ids r) (req_extra_key r) (req_priority r) (reasoning_tokens r)
    n (skip_radix_cache_insert r) (req_pool_idx r) (prefix_indices r) (last_node r) (cache_protected_len r)
    (kv_committed_len r) (kv_allocated_len r) (kv_committed_freed r) (kv_overallocated_freed r).

Definition set_freed (committed over : bool) (r : Req) : Req :=
  mkReq (origin_input_ids r) (output_ids r) (fill_ids r) (req_extra_key r) (req_priority r) (reasoning_tokens r)
    (inflight_middle_chunks r) (skip_radix_cache_insert r) (req_pool_idx r) (prefix_indices r) (last_node r)
    (cache_protected_len r) (kv_committed_len r) (kv_allocated_len r) committed over.

(** The fields [cache_unfinished_req] assigns. *)
Definition set_prefix (idx : list Z) (node : option nat) (protected : nat) (r : Req) : Req :=
  mkReq (origin_input_ids r) (output_ids r) (fill_ids r) (req_extra_key r) (req_priority r) (reasoning_tokens r)
    (inflight_middle_chunks r) (skip_radix_cache_insert r) (req_pool_idx r) idx node protected
    (kv_committed_len r) (kv_allocated_len r) (kv_committed_freed r) (kv_overallocated_freed r).

Definition set_lens (committed allocated : nat) (r : Req) : Req :=
  mkReq (origin_input_ids r) (output_ids r) (fill_ids r) (req_extra_key r) (req_priority r) (reasoning_tokens r)
    (inflight_middle_chunks r) (skip_radix_cache_insert r) (req_pool_idx r) (prefix_indices r) (last_node r)
    (cache_protected_len r) committed allocated (kv_committed_freed r) (kv_overallocated_freed r).

Definition set_tokens (output fill : list Z) (r : Req) : Req :=
  mkReq (origin_input_ids r) output fill (req_extra_key r) (req_priority r) (reasoning_tokens r)
    (inflight_middle_chunks r) (skip_radix_cache_insert r) (req_pool_idx r) (prefix_indices r) (last_node r)
    (cache_protected_len r) (kv_committed_len r) (kv_allocated_len r) (kv_committed_freed r) (kv_overallocated_freed r).

Section server_args.
Context (strip_thinking_cache : bool).

(** [_cache_commit_len]. *)
Definition cache_commit_len (r : Req) : nat :=
  if strip_thinking_cache && bool_decide (0 < reasoning_tokens r)%Z
  then kv_committed_len r `min` length (origin_input_ids r)
  else kv_committed_len r.

Definition pop_committed_kv_cache (r : Req) : result (Req * nat) :=
  if kv_committed_freed r then Raise AssertionError
  else Ok (set_freed true (kv_overallocated_freed r) r, cache_commit_len r).

Definition pop_overallocated_kv_cache (r : Req) : result (Req * (nat * nat)) :=
  if kv_overallocated_freed r then Raise AssertionError
  else Ok (set_freed (kv_committed_freed r) true r, (cache_commit_len r, kv_allocated_len r)).

End server_args.

(** * The request table *)

Record ReqToTokenPool := mkPool {
  pool_size : nat;
  max_context_len : nat;
  req_to_token : list (list Z);
  free_slots : list nat;
}.

Definition new_pool (size ctx : nat) : ReqToTokenPool :=
  mkPool size ctx (replicate (size + 1) (replicate ctx 0%Z)) (seq 1 size).

Definition set_rows (t : list (list Z)) (p : ReqToTokenPool) : ReqToTokenPool :=
  mkPool (pool_size p) (max_context_len p) t (free_slots p).

Definition set_free (l : list nat) (p : ReqToTokenPool) : ReqToTokenPool :=
  mkPool (pool_size p) (max_context_len p) (req_to_token p) l.

Definition row_at (p : ReqToTokenPool) (i : nat) : result (list Z) :=
  match req_to_token p !! i with Some r => Ok r | None => Raise IndexError end.

(** [row[a:b] = values]: the bounds are clipped, a single value broadcasts. *)
Definition write_slice (a b : nat) (values row : list Z) : result (list Z) :=
  let a := a `min` length row in
  let n := (b `min` length row) - a in
  let put v := take a row ++ v ++ drop (a + n) row in
  if decide (length values = n) then Ok (put values)
  else match values with [x] => Ok (put (replicate n x)) | _ => Raise RuntimeError end.

(** [write((i, slice(a, b)), values)]. *)
Definition pool_write (i a b : nat) (values : list Z) (p : ReqToTokenPool) : result ReqToTokenPool :=
  do! row <- row_at p i;
  do! row' <- write_slice a b values row;
  Ok (set_rows (<[i := row']> (req_to_token p)) p).

(** One element of the advanced index of [write((rows, columns), values)]. *)
Definition pool_put (i j : nat) (x : Z) (p : ReqToTokenPool) : result ReqToTokenPool :=
  do! row <- row_at p i;
  if decide (j < length row) then Ok (set_rows (<[i := <[j := x]> row]> (req_to_token p)) p) else Raise IndexError.

(** [req_to_token[i, :n]]. *)
Definition pool_read (i n : nat) (p : ReqToTokenPool) : result (list Z) :=
  do! row <- row_at p i; Ok (take n row).

Definition pool_available (p : ReqToTokenPool) : nat := length (free_slots p).

(** The rows handed out in order to the requests that have none. *)
Fixpoint assign_slots (sel : list nat) (reqs : list Req) : result (list Req) :=
  match reqs with
  | [] => Ok []
  | r :: reqs =>
      match req_pool_idx r with
      | Some _ => do! rs <- assign_slots sel reqs; Ok (r :: rs)
      | None =>
          match sel with
          | [] => Raise IndexError
          | i :: sel => do! rs <- assign_slots sel reqs; Ok (set_pool_idx (Some i) r :: rs)
          end
      end
  end.

Definition reusable (r : Req) : bool :=
  match req_pool_idx r with
  | Some _ => bool_decide (0 < inflight_middle_chunks r)%Z || bool_decide (0 < kv_committed_len r)
  | None => true
  end.

(** [alloc]: [None] when the free rows do not suffice. *)
Definition pool_alloc (reqs : list Req) (p : ReqToTokenPool) : result (option (ReqToTokenPool * list Req * list nat)) :=
  assert! forallb reusable reqs;
  let need_size := length reqs - length (omap req_pool_idx reqs) in
  if decide (length (free_slots p) < need_size) then Ok None
  else
    do! rs <- assign_slots (take need_size (free_slots p)) reqs;
    Ok (Some (set_free (drop need_size (free_slots p)) p, rs, omap req_pool_idx rs)).

Definition pool_free (r : Req) (p : ReqToTokenPool) : result (ReqToTokenPool * Req) :=
  match req_pool_idx r with
  | None => Raise AssertionError
  | Some i => Ok (set_free (free_slots p ++ [i]) p, set_pool_idx None r)
  end.

Definition pool_clear (p : ReqToTokenPool) : ReqToTokenPool := set_free (seq 1 (pool_size p)) p.

(** * Rows *)

(** The table has its shape, and every row but the padding row is free or held by
    exactly one of the [held]. *)
Record pool_ok (p : ReqToTokenPool) (held : list nat) : Prop := {
  po_rows : rect (pool_size p + 1) (max_context_len p) (req_to_token p);
  po_slots : free_slots p ++ held ≡ₚ seq 1 (pool_size p);
}.

Lemma new_pool_ok size ctx : pool_ok (new_pool size ctx) [].
Proof.
  split; simpl; [|by rewrite app_nil_r]. split; [by rewrite length_replicate|].
  apply Forall_replicate. by rewrite length_replicate.
Qed.

Lemma held_row p held i : pool_ok p held → i ∈ held → ∃ row, req_to_token p !! i = Some row ∧ length row = max_context_len p.
Proof.
  intros [Hr Hs] Hi. assert (Hin : i ∈ seq 1 (pool_size p)) by (rewrite <-Hs; set_solver).
  apply elem_of_seq in Hin. destruct (rect_lookup _ _ _ i Hr ltac:(lia)) as (row & Hrow & Hl). eauto.
Qed.

Lemma held_pos p held i : pool_ok p held → i ∈ held → 1 ≤ i ≤ pool_size p.
Proof.
  intros [_ Hs] Hi. assert (Hin : i ∈ seq 1 (pool_size p)) by (rewrite <-Hs; set_solver). apply elem_of_seq in Hin. lia.
Qed.

Lemma write_slice_eq a b values row :
  a ≤ b → b ≤ length row → length values = b - a →
  write_slice a b values row = Ok (take a row ++ values ++ drop b row).
Proof.
  intros Hab Hb Hv. unfold write_slice. rewrite !Nat.min_l by lia. rewrite decide_True by done.
  by replace (a + (b - a)) with b by lia.
Qed.

Lemma rect_insert {A} R C (m : list (list A)) i row : rect R C m → length row = C → rect R C (<[i := row]> m).
Proof. intros [Hl Hf] Hr. split; [by rewrite length_insert|]. by apply Forall_insert. Qed.

(** Writing a range of a row. *)
Lemma pool_write_ok p held i row a b values :
  pool_ok p held → req_to_token p !! i = Some row → a ≤ b → b ≤ length row → length values = b - a →
  ∃ p', pool_write i a b values p = Ok p' ∧ pool_ok p' held ∧
    req_to_token p' = <[i := take a row ++ values ++ drop b row]> (req_to_token p) ∧ free_slots p' = free_slots p ∧
    max_context_len p' = max_context_len p ∧ pool_size p' = pool_size p.
Proof.
  intros Hp Hi Hab Hb Hv. unfold pool_write, row_at. rewrite Hi. run_bind. rewrite write_slice_eq by done. run_bind.
  eexists. split; [done|]. split; [|done]. destruct Hp as [Hr Hs]. split; [|done]. simpl. apply rect_insert; [done|].
  rewrite !length_app, length_take, length_drop. destruct Hr as [_ Hf].
  rewrite Forall_lookup in Hf. specialize (Hf _ _ Hi). simpl in Hf. lia.
Qed.

Lemma pool_put_ok p held i row j x :
  pool_ok p held → req_to_token p !! i = Some row → j < length row →
  ∃ p', pool_put i j x p = Ok p' ∧ pool_ok p' held ∧ req_to_token p' = <[i := <[j := x]> row]> (req_to_token p) ∧
    max_context_len p' = max_context_len p.
Proof.
  intros Hp Hi Hj. unfold pool_put, row_at. rewrite Hi. run_bind. rewrite decide_True by done. eexists. split; [done|].
  split; [|done]. destruct Hp as [Hr Hs]. split; [|done]. simpl. apply rect_insert; [done|]. rewrite length_insert.
  destruct Hr as [_ Hf]. rewrite Forall_lookup in Hf. exact (Hf _ _ Hi).
Qed.

Lemma pool_read_eq p i row n : req_to_token p !! i = Some row → pool_read i n p = Ok (take n row).
Proof. intros Hi. unfold pool_read, row_at. by rewrite Hi. Qed.

(** * Handing out rows *)

Lemma idx_cons r reqs :
  omap req_pool_idx (r :: reqs) = match req_pool_idx r with Some i => [i] | None => [] end ++ omap req_pool_idx reqs.
Proof. simpl. by destruct (req_pool_idx r). Qed.

Lemma idx_le reqs : length (omap req_pool_idx reqs) ≤ length reqs.
Proof.
  induction reqs as [|r reqs IH]; [done|]. rewrite idx_cons, length_app. destruct (req_pool_idx r); simpl; lia.
Qed.

Lemma assign_slots_ok sel reqs :
  length reqs - length (omap req_pool_idx reqs) = length sel →
  ∃ rs, assign_slots sel reqs = Ok rs ∧ length rs = length reqs ∧
    omap req_pool_idx rs ≡ₚ sel ++ omap req_pool_idx reqs ∧ length (omap req_pool_idx rs) = length reqs ∧
    ∀ j r, reqs !! j = Some r → ∃ i, rs !! j = Some (set_pool_idx (Some i) r) ∧ (req_pool_idx r = Some i ∨ req_pool_idx r = None ∧ i ∈ sel).
Proof.
  revert sel. induction reqs as [|r reqs IH]; intros sel Hl.
  { exists []. simpl in Hl. destruct sel; [|done]. done. }
  pose proof (idx_le reqs) as Hle. rewrite idx_cons in *. cbn [assign_slots]. rewrite length_app in Hl.
  destruct (req_pool_idx r) as [i|] eqn:Hr; simpl in Hl.
  - destruct (IH sel ltac:(lia)) as (rs & -> & Hlen & Hp & Hn & Hj). exists (r :: rs). run_bind.
    rewrite idx_cons, Hr.
    split_and!; [done|simpl; lia| |simpl; lia|].
    + rewrite Hp. simpl. by rewrite Permutation_middle.
    + intros [|j] r' Hr'; [|by apply Hj]. simpl in Hr'. injection Hr' as <-. exists i. split; [|by left].
      simpl. f_equal. destruct r. simpl in Hr. by subst.
  - destruct sel as [|i sel]; [simpl in Hl; lia|]. simpl in Hl.
    destruct (IH sel ltac:(lia)) as (rs & -> & Hlen & Hp & Hn & Hj). exists (set_pool_idx (Some i) r :: rs). run_bind.
    rewrite idx_cons. simpl.
    split_and!; [done|lia|by rewrite Hp|lia|].
    intros [|j] r' Hr'; simpl in Hr'.
    + injection Hr' as <-. exists i. split; [done|]. right. split; [done|left].
    + destruct (Hj j r' Hr') as (i' & Hi' & Hor). exists i'. split; [done|]. destruct Hor as [?|[? ?]]; [by left|right; split; [done|by right]].
Qed.

Lemma pool_alloc_ok reqs others p :
  pool_ok p (omap req_pool_idx reqs ++ others) → Forall (fun r => reusable r = true) reqs →
  let need := length reqs - length (omap req_pool_idx reqs) in
  if decide (pool_available p < need) then pool_alloc reqs p = Ok None
  else ∃ p' rs, pool_alloc reqs p = Ok (Some (p', rs, omap req_pool_idx rs)) ∧
    pool_ok p' (omap req_pool_idx rs ++ others) ∧ NoDup (omap req_pool_idx rs ++ others) ∧
    length (omap req_pool_idx rs) = length reqs ∧ 0 ∉ omap req_pool_idx rs ∧
    req_to_token p' = req_to_token p ∧ max_context_len p' = max_context_len p ∧ length rs = length reqs ∧ pool_available p' = pool_available p - need ∧
    (∀ j r, reqs !! j = Some r →
       ∃ i, rs !! j = Some (set_pool_idx (Some i) r) ∧ (req_pool_idx r = Some i ∨ req_pool_idx r = None ∧ i ∈ free_slots p)).
Proof.
  intros [Hr Hs] Hre need. unfold pool_alloc, pool_available.
  assert (forallb reusable reqs = true) as ->.
  { apply forallb_forall. intros r Hin%list_elem_of_In. rewrite Forall_forall in Hre. by apply Hre. }
  cbv zeta. fold need. case_decide as Hd; [done|].
  destruct (assign_slots_ok (take need (free_slots p)) reqs) as (rs & -> & Hlen & Hp & Hn & Hj).
  { rewrite length_take. unfold need in *. lia. }
  run_bind. eexists _, rs. split; [done|].
  assert (Hperm : drop need (free_slots p) ++ omap req_pool_idx rs ++ others ≡ₚ seq 1 (pool_size p)).
  { rewrite <-Hs, Hp, !app_assoc. do 2 f_equiv. rewrite Permutation_app_comm. by rewrite take_drop. }
  assert (Hok : pool_ok (set_free (drop need (free_slots p)) p) (omap req_pool_idx rs ++ others)) by (split; [exact Hr|exact Hperm]).
  split; [done|]. split; [|split; [done|split; [|split; [done|split; [done|split; [done|split; [simpl; by rewrite length_drop|]]]]]]].
  - pose proof (NoDup_seq 1 (pool_size p)) as Hnd. rewrite <-Hperm in Hnd. by apply NoDup_app in Hnd as (_ & _ & ?).
  - intros H0. pose proof (held_pos _ _ 0 Hok ltac:(set_solver)). lia.
  - intros j r Hjr. destruct (Hj j r Hjr) as (i & Hi & Hor). exists i. split; [done|].
    destruct Hor as [?|[? Hin]]; [by left|right; split; [done|]]. rewrite <-(take_drop need (free_slots p)). set_solver.
Qed.

(** [ReqToTokenPool.alloc] gives every request of the batch a row: requests
    that have one keep it, the others get distinct free rows, never the padding
    row, and the rows held by other requests are untouched; it returns [None]
    exactly when the free rows do not suffice. *)
Theorem pool_alloc_spec reqs others p :
  pool_ok p (omap req_pool_idx reqs ++ others) → Forall (fun r => reusable r = true) reqs →
  let need := length reqs - length (omap req_pool_idx reqs) in
  if decide (pool_available p < need) then pool_alloc reqs p = Ok None
  else ∃ p' rs, pool_alloc reqs p = Ok (Some (p', rs, omap req_pool_idx rs)) ∧
    pool_ok p' (omap req_pool_idx rs ++ others) ∧ NoDup (omap req_pool_idx rs ++ others) ∧
    length (omap req_pool_idx rs) = length reqs ∧ 0 ∉ omap req_pool_idx rs ∧
    req_to_token p' = req_to_token p ∧ pool_available p' = pool_available p - need ∧
    (∀ j r, reqs !! j = Some r →
       ∃ i, rs !! j = Some (set_pool_idx (Some i) r) ∧ (req_pool_idx r = Some i ∨ req_pool_idx r = None ∧ i ∈ free_slots p)).
Proof.
  intros Hp Hre need. pose proof (pool_alloc_ok reqs others p Hp Hre) as Hok. cbv zeta in Hok. fold need in Hok.
  case_decide; [done|]. destruct Hok as (p' & rs & H1 & H2 & H3 & H4 & H5 & H6 & _ & _ & H7 & H8). exists p', rs. done.
Qed.

(** [free] undoes it: the row goes back to the free rows, and a second free of
    the same request fails its assertion. *)
Theorem pool_free_spec r i p held :
  req_pool_idx r = Some i → pool_ok p (i :: held) →
  ∃ p' r', pool_free r p = Ok (p', r') ∧ pool_ok p' held ∧ i ∈ free_slots p' ∧ i ∉ held ∧
    pool_free r' p' = Raise AssertionError.
Proof.
  intros Hi [Hr Hs]. unfold pool_free. rewrite Hi. eexists _, _. split; [done|]. split; [|split; [|split]].
  - split; [exact Hr|]. simpl. by rewrite <-app_assoc.
  - simpl. set_solver.
  - assert (Hnd : NoDup (free_slots p ++ i :: held)) by (rewrite Hs; apply NoDup_seq).
    apply NoDup_app in Hnd as (_ & _ & Hnd). by apply NoDup_cons in Hnd as [? _].
  - done.
Qed.

Definition demo_req (idx : option nat) : Req := mkReq [5%Z; 6%Z] [] [5%Z; 6%Z] None None 0 0 false idx [] None 0 2 2 false false.

(** One request keeps row 2, the other gets the first free row. *)
Lemma pool_alloc_spec_witness :
  ∃ p' rs, pool_alloc [demo_req (Some 2); demo_req None] (set_free [1; 3] (new_pool 3 4)) = Ok (Some (p', rs, omap req_pool_idx rs)) ∧
    NoDup (omap req_pool_idx rs ++ []).
Proof.
  assert (Hok : pool_ok (set_free [1; 3] (new_pool 3 4)) (omap req_pool_idx [demo_req (Some 2); demo_req None] ++ [])).
  { split; [apply (po_rows _ _ (new_pool_ok 3 4))|]. simpl. constructor. apply Permutation_swap. }
  pose proof (pool_alloc_spec [demo_req (Some 2); demo_req None] [] _ Hok ltac:(by repeat constructor)) as Hs.
  vm_compute decide in Hs. destruct Hs as (p' & rs & Hr & _ & Hnd & _). exists p', rs. split; [exact Hr|exact Hnd].
Defined.

Lemma pool_free_spec_witness :
  ∃ p' r', pool_free (demo_req (Some 2)) (set_free [1; 3] (new_pool 3 4)) = Ok (p', r') ∧ pool_ok p' [] ∧
    pool_free r' p' = Raise AssertionError.
Proof.
  assert (Hok : pool_ok (set_free [1; 3] (new_pool 3 4)) [2]).
  { split; [apply (po_rows _ _ (new_pool_ok 3 4))|]. simpl. constructor. apply Permutation_swap. }
  destruct (pool_free_spec (demo_req (Some 2)) 2 _ [] eq_refl Hok) as (p' & r' & H1 & H2 & _ & _ & H3).
  exists p', r'. split; [exact H1|]. split; [exact H2|exact H3].
Defined.
