(* ===== verification/ReqCache.v ===== *)
(** How requests hand their KV slots to the prefix caches and get new ones: the
    request methods of [RadixCache] ([mem_cache/radix_cache.py]) and [ChunkCache]
    ([mem_cache/chunk_cache.py]), [release_kv_cache] and [alloc_token_slots]
    ([mem_cache/common.py]).

    A cache, the slot allocator and the request table form a [World].  What the
    scheduler-side routines need of a cache is the class [PrefixCache] with its
    laws [PrefixCacheLaws]; both caches are instances.  The allocator is the
    token allocator, whose pages are single slots.  [kv_indices] is a view of a
    row of the table: slices of it are read here before the row is written, which
    is what the code does outside a free group. *)

From S2P Require Import Prelude Tensor VisiblePlan Allocator RadixKey RadixCache RadixOps RadixSpec ReqPool.

Open Scope Z_scope.

(** * State *)

Record World (T : Type) := mkWorld { tree : T; kv : Allocator; pool : ReqToTokenPool }.
Arguments mkWorld {_} _ _ _.
Arguments tree {_} _.
Arguments kv {_} _.
Arguments pool {_} _.

Definition set_tree {T} (t : T) (w : World T) : World T := mkWorld t (kv w) (pool w).
Definition set_kv {T} (a : Allocator) (w : World T) : World T := mkWorld (tree w) a (pool w).
Definition set_pool {T} (p : ReqToTokenPool) (w : World T) : World T := mkWorld (tree w) (kv w) p.

(** The row of a request; a request without one is not in the table. *)
Definition row_index (r : Req) : result nat :=
  match req_pool_idx r with Some i => Ok i | None => Raise IndexError end.

Definition free_all (ls : list (list Z)) (a : Allocator) : Allocator := foldl (fun a l => Allocator.free l a) a ls.

(** * [RadixCache] *)

Section radix.
Context (page_size : nat) (disable is_eagle disable_finished_insert strip_thinking_cache : bool)
  (strategy : EvictionStrategy) (monotonic : nat → Z).

Definition radix_key_of (token_ids : list Z) (r : Req) : RadixKey :=
  page_aligned page_size (mkKey token_ids (req_extra_key r) is_eagle).

(** [cache_finished_req]. *)
Definition cache_finished_req (is_insert : bool) (r : Req) (w : World RadixCache) : result (World RadixCache * Req) :=
  let is_insert := is_insert && negb disable_finished_insert in
  do! pop <- pop_committed_kv_cache strip_thinking_cache r;
  let '(r, kv_committed_len) := pop in
  do! i <- row_index r;
  if disable then
    do! kv_indices <- pool_read i kv_committed_len (pool w);
    Ok (set_kv (Allocator.free kv_indices (kv w)) w, r)
  else
    let token_ids := take kv_committed_len (origin_input_ids r ++ output_ids r) in
    do! kv_indices <- pool_read i (length token_ids) (pool w);
    let radix_key := radix_key_of token_ids r in
    let key_len := klen radix_key in
    let values := take key_len kv_indices in
    do! w1 <-
      (if is_insert then
         do! res <- insert page_size disable is_eagle monotonic radix_key (Some values) (default 0 (req_priority r)) false (tree w);
         Ok (mkWorld res.1 (Allocator.free (slice (cache_protected_len r) res.2 kv_indices) (kv w)) (pool w))
       else Ok (set_kv (Allocator.free (slice (cache_protected_len r) key_len kv_indices) (kv w)) w));
    let w2 := set_kv (Allocator.free (drop key_len kv_indices) (kv w1)) w1 in
    match last_node r with
    | None => Ok (w2, r)
    | Some n => do! d <- dec_lock_ref disable n (tree w2); Ok (set_tree d.1 w2, r)
    end.

(** [cache_unfinished_req]. *)
Definition cache_unfinished_req (chunked : bool) (r : Req) (w : World RadixCache) : result (World RadixCache * Req) :=
  if disable then Ok (w, r)
  else
    let token_ids := fill_ids r in
    do! i <- row_index r;
    do! kv_indices <- pool_read i (length token_ids) (pool w);
    let radix_key := radix_key_of token_ids r in
    let values := take (klen radix_key) kv_indices in
    do! res <- insert page_size disable is_eagle monotonic radix_key (Some values) (default 0 (req_priority r)) chunked (tree w);
    let new_prefix_len := res.2 in
    let a1 := Allocator.free (slice (cache_protected_len r) new_prefix_len kv_indices) (kv w) in
    do! m <- match_prefix page_size disable is_eagle monotonic radix_key res.1;
    let '(c2, new_indices, new_last_node) := m in
    if decide (length new_indices ≠ klen radix_key) then Raise AssertionError
    else
      do! p <- pool_write i (cache_protected_len r) (length new_indices) (drop (cache_protected_len r) new_indices) (pool w);
      match last_node r with
      | None => Raise AttributeError
      | Some n =>
          do! d <- dec_lock_ref disable n c2;
          do! u <- inc_lock_ref disable new_last_node d.1;
          let prefix := if decide (length new_indices < length kv_indices)%nat
                        then new_indices ++ drop (length new_indices) kv_indices else new_indices in
          Ok (mkWorld u.1 a1 p, set_prefix prefix (Some new_last_node) (length new_indices) r)
      end.

End radix.

(** * [ChunkCache] *)

(** It keeps nothing. *)
Record ChunkCache := mkChunk { chunk_page_size : nat }.

Section chunk.
Context (strip_thinking_cache : bool).

Definition chunk_match_prefix (k : RadixKey) (c : ChunkCache) : list Z * option nat := ([], None).
Definition chunk_insert (k : RadixKey) (v : option (list Z)) (c : ChunkCache) : ChunkCache * nat := (c, 0%nat).
Definition chunk_evict (num : Z) (c : ChunkCache) : result (ChunkCache * Z * list (list Z)) := Ok (c, 0, []).

Definition chunk_finished_req (is_insert : bool) (r : Req) (w : World ChunkCache) : result (World ChunkCache * Req) :=
  do! pop <- pop_committed_kv_cache strip_thinking_cache r;
  let '(r, kv_committed_len) := pop in
  do! i <- row_index r;
  do! kv_indices <- pool_read i kv_committed_len (pool w);
  Ok (set_kv (Allocator.free kv_indices (kv w)) w, r).

Definition chunk_unfinished_req (chunked : bool) (r : Req) (w : World ChunkCache) : result (World ChunkCache * Req) :=
  do! i <- row_index r;
  do! kv_indices <- pool_read i (length (fill_ids r)) (pool w);
  Ok (w, set_prefix kv_indices (last_node r) (cache_protected_len r) r).

End chunk.

(** * The interface the scheduler uses *)

Class PrefixCache (T : Type) := {
  is_chunk_cache : bool;
  evictable : T → Z;
  evict_cache : Z → T → result (T * Z * list (list Z));
  match_req : RadixKey → T → result (T * list Z * option nat);
  lock_node : option nat → T → result T;
  finished_req : bool → Req → World T → result (World T * Req);
  unfinished_req : bool → Req → World T → result (World T * Req);
}.

Definition RadixPrefixCache (page_size : nat) (is_eagle disable_finished_insert strip : bool) (strategy : EvictionStrategy)
    (monotonic : nat → Z) : PrefixCache RadixCache := {|
  is_chunk_cache := false;
  evictable := evictable_size;
  evict_cache := evict page_size false strategy;
  match_req := fun k c => do! m <- match_prefix page_size false is_eagle monotonic k c; Ok (m.1.1, m.1.2, Some m.2);
  lock_node := fun n c =>
    match n with Some j => do! d <- inc_lock_ref false j c; Ok d.1 | None => Raise AttributeError end;
  finished_req := cache_finished_req page_size false is_eagle disable_finished_insert strip monotonic;
  unfinished_req := cache_unfinished_req page_size false is_eagle monotonic;
|}.

Definition ChunkPrefixCache (strip : bool) : PrefixCache ChunkCache := {|
  is_chunk_cache := true;
  evictable := fun _ => 0;
  evict_cache := chunk_evict;
  match_req := fun k c => let '(idx, node) := chunk_match_prefix k c in Ok (c, idx, node);
  lock_node := fun _ c => Ok c;
  finished_req := chunk_finished_req strip;
  unfinished_req := chunk_unfinished_req;
|}.

Section client.
Context {T : Type} `{PC : PrefixCache T} (strip_thinking_cache no_speculation : bool) (page_size : nat).

(** [tree_cache.evict]: the freed values go to the allocator one by one. *)
Definition evict_and_free (num : Z) (w : World T) : result (World T) :=
  do! r <- evict_cache num (tree w);
  Ok (mkWorld r.1.1 (free_all r.2 (kv w)) (pool w)).

(** [evict_from_tree_cache], standard allocator. *)
Definition evict_from_tree_cache (num_tokens : Z) (w : World T) : result (World T) :=
  if is_chunk_cache then Ok w
  else if bool_decide (available_size (kv w) < num_tokens) then evict_and_free num_tokens w
  else Ok w.

Definition alloc_token_slots (num_tokens : Z) (w : World T) : result (World T * list Z) :=
  do! w <- evict_from_tree_cache num_tokens w;
  match Allocator.alloc num_tokens (kv w) with
  | (a, Some out_cache_loc) => Ok (set_kv a w, out_cache_loc)
  | (_, None) => Raise RuntimeError
  end.

Definition ceil_align (x y : nat) : nat := (x + y - 1) / y * y.

(** [release_kv_cache]; no cache here manages mamba states. *)
Definition release_kv_cache (is_insert : bool) (r : Req) (w : World T) : result (World T * Req) :=
  match req_pool_idx r with
  | None => Raise AssertionError
  | Some _ =>
      do! f <- finished_req (is_insert && negb (skip_radix_cache_insert r)) r w;
      let '(w, r) := f in
      match req_pool_idx r with
      | None => Ok (w, r)
      | Some i =>
          do! pop <- pop_overallocated_kv_cache strip_thinking_cache r;
          let '(r, (start_p, end_p)) := pop in
          assert! negb (no_speculation && negb strip_thinking_cache) || bool_decide (start_p = end_p);
          let start_p := if decide (1 < page_size)%nat then ceil_align start_p page_size else start_p in
          do! w <- (if decide (start_p < end_p)%nat then
                      do! row <- row_at (pool w) i; Ok (set_kv (Allocator.free (slice start_p end_p row) (kv w)) w)
                    else Ok w);
          do! f <- pool_free r (pool w);
          Ok (set_pool f.1 w, f.2)
      end
  end.

End client.

(** * The allocator's slots *)

(** Immediate frees, and nothing awaits sorting when sorting is off. *)
Definition kv_ok (a : Allocator) : Prop :=
  is_not_in_free_group a = true ∧ (need_sort a = false → release_pages a = []) ∧ Allocator.page_size a = 1.

(** How often a slot is on the free lists. *)
Definition free_count (x : Z) (a : Allocator) : Z := count x (free_pages a) + count x (release_pages a).

Lemma count_nil x : count x [] = 0.
Proof. done. Qed.

Lemma count_split x n l : count x l = count x (take n l) + count x (drop n l).
Proof. by rewrite <-count_app, take_drop. Qed.

Lemma count_slice x a b n l : (a ≤ b)%nat → (b ≤ n)%nat → count x (slice a n l) = count x (slice a b l) + count x (slice b n l).
Proof.
  intros Hab Hbn. rewrite (count_split x (b - a) (slice a n l)). unfold slice.
  rewrite take_take, skipn_firstn_comm, drop_drop. rewrite Nat.min_l by lia.
  replace (n - a - (b - a))%nat with (n - b)%nat by lia. by replace (a + (b - a))%nat with b by lia.
Qed.

Lemma slice_take {A} a b n (l : list A) : (b ≤ n)%nat → slice a b (take n l) = slice a b l.
Proof. intros Hb. unfold slice. rewrite skipn_firstn_comm, take_take. f_equal. lia. Qed.

Lemma drop_slice {A} a n (l : list A) : (n ≤ length l)%nat → drop a (take n l) = slice a n l.
Proof. intros Hn. unfold slice. by rewrite skipn_firstn_comm. Qed.

Lemma free_ok l a : kv_ok a → kv_ok (Allocator.free l a) ∧ ∀ x, free_count x (Allocator.free l a) = free_count x a + count x l.
Proof.
  intros (Hg & Hs & Hp). unfold Allocator.free. destruct l as [|y l]; [split; [done|]; intros x; rewrite count_nil; lia|].
  rewrite Hg. destruct (need_sort a) eqn:E.
  - split; [|intros x; unfold free_count; simpl; rewrite count_app; lia]. split; [done|]. split; [|done]. simpl. by rewrite E.
  - split; [|intros x; unfold free_count; simpl; rewrite count_app; lia]. split; [done|]. split; [|done]. simpl. by rewrite Hs.
Qed.

Lemma free_all_ok ls a :
  kv_ok a → kv_ok (free_all ls a) ∧ ∀ x, free_count x (free_all ls a) = free_count x a + count x (concat ls).
Proof.
  revert a. induction ls as [|l ls IH]; intros a Ha.
  - split; [done|]. intros x. change (concat []) with (@nil Z). rewrite count_nil. simpl. lia.
  - destruct (free_ok l a Ha) as [Ha1 Hc]. destruct (IH _ Ha1) as [Ha2 Hc2]. split; [done|]. intros x. cbn [concat free_all foldl].
    unfold free_all in *. rewrite Hc2, Hc, count_app. lia.
Qed.

Lemma free_avail l a : kv_ok a → available_size (Allocator.free l a) = available_size a + lenZ l.
Proof.
  intros (Hg & Hs & Hp). unfold Allocator.free, available_size. destruct l as [|y l]; [unfold lenZ; simpl; lia|]. rewrite Hg.
  destruct (need_sort a); simpl; rewrite Hp; unfold lenZ; rewrite length_app; simpl; lia.
Qed.

Lemma free_all_avail ls a : kv_ok a → available_size (free_all ls a) = available_size a + lenZ (concat ls).
Proof.
  revert a. induction ls as [|l ls IH]; intros a Ha; [unfold lenZ; simpl; lia|].
  destruct (free_ok l a Ha) as [Ha1 _]. cbn [free_all foldl concat]. unfold free_all in IH.
  rewrite (IH _ Ha1), free_avail by done. unfold lenZ. len_lia.
Qed.

Lemma merge_ok a : kv_ok a → kv_ok (merge_and_sort_free a) ∧ (∀ x, free_count x (merge_and_sort_free a) = free_count x a) ∧
  release_pages (merge_and_sort_free a) = [] ∧ lenZ (free_pages (merge_and_sort_free a)) = lenZ (free_pages a) + lenZ (release_pages a).
Proof.
  intros (Hg & Hs & Hp). unfold merge_and_sort_free. case_bool_decide as Hl; simpl.
  - split; [done|]. split; [|split; [done|]].
    + intros x. unfold free_count. simpl. rewrite (count_perm x _ _ (merge_sort_Permutation _ _)), count_app, count_nil. lia.
    + unfold lenZ. rewrite (Permutation_length (merge_sort_Permutation _ _)), length_app. lia.
  - destruct (release_pages a) eqn:E; [|simpl in Hl; lia]. split; [split; [done|]; split; [by rewrite E|done]|]. split; [done|].
    split; [done|]. unfold lenZ. simpl. lia.
Qed.

(** The token allocator: it succeeds exactly when enough slots are free. *)
Lemma alloc_ok n a :
  kv_ok a → 0 ≤ n →
  if decide (n ≤ available_size a) then
    ∃ a' idx, Allocator.alloc n a = (a', Some idx) ∧ kv_ok a' ∧ lenZ idx = n ∧
      available_size a' = available_size a - n ∧ ∀ x, free_count x a' = free_count x a - count x idx
  else ∃ a', Allocator.alloc n a = (a', None).
Proof.
  intros Ha Hn. unfold Allocator.alloc.
  assert (Hr : ∃ a1, refill n a = a1 ∧ kv_ok a1 ∧ (∀ x, free_count x a1 = free_count x a) ∧ available_size a1 = available_size a ∧
    (n > lenZ (free_pages a1) ↔ n > available_size a)).
  { pose proof Ha as (Hg & Hs & Hp). unfold refill. destruct (need_sort a && bool_decide (n > lenZ (free_pages a))) eqn:E.
    - destruct (merge_ok a Ha) as (Hm & Hc & Hrl & Hlen). eexists. split; [done|]. split; [done|]. split; [done|].
      pose proof Hm as (_ & _ & Hp'). unfold available_size. rewrite Hp, Hp', Hrl, Hlen. unfold lenZ. simpl. lia.
    - eexists. split; [done|]. split; [done|]. split; [done|]. split; [done|]. unfold available_size. rewrite Hp.
      apply andb_false_iff in E as [E|E%bool_decide_eq_false].
      + rewrite (Hs E). unfold lenZ. simpl. lia.
      + unfold lenZ in *. lia. }
  destruct Hr as (a1 & -> & Ha1 & Hc & Hav & Hiff). unfold take_free. case_decide as Hd.
  - rewrite bool_decide_eq_false_2 by lia. do 2 eexists. split; [done|]. pose proof Ha1 as (Hg & Hs & Hp).
    assert (Hle : (Z.to_nat n ≤ length (free_pages a1))%nat) by (unfold lenZ in *; lia).
    unfold cut. rewrite bool_decide_eq_true_2 by done. split; [done|]. split; [|split].
    + unfold lenZ. len_lia.
    + rewrite <-Hav. unfold available_size. simpl. rewrite Hp. unfold lenZ. len_lia.
    + intros x. rewrite <-Hc. unfold free_count. simpl. rewrite (count_split x (Z.to_nat n) (free_pages a1)). lia.
  - rewrite bool_decide_eq_true_2 by lia. by eexists.
Qed.

(** * Keys of requests *)

Lemma slice_0 {A} n (l : list A) : slice 0 n l = take n l.
Proof. unfold slice. by rewrite Nat.sub_0_r, drop_0. Qed.

Lemma kprefix_idem n k : (n ≤ klen k)%nat → kprefix n (kprefix n k) = kprefix n k.
Proof.
  intros Hn. unfold kprefix at 1. unfold kslice. pose proof (klen_kprefix n k) as Hl. rewrite Nat.min_l in Hl by done.
  rewrite Hl. rewrite !Nat.min_l by lia. unfold kprefix, kslice in *. rewrite Nat.min_l, (Nat.min_l n) in * by lia.
  destruct (is_bigram k); simpl.
  - case_decide; [|done]. by rewrite !slice_0, take_take, Nat.min_id.
  - by rewrite !slice_0, take_take, Nat.min_id.
Qed.

Section keys.
Context (page_size : nat) (is_eagle : bool).
Hypothesis Hps : (0 < page_size)%nat.

Lemma page_aligned_klen k : klen (page_aligned page_size k) = (klen k / page_size * page_size)%nat.
Proof.
  unfold page_aligned. case_decide as H1; [rewrite H1; by rewrite Nat.div_1_r, Nat.mul_1_r|].
  rewrite klen_kprefix. pose proof (floor_spec (klen k) page_size Hps). lia.
Qed.

Lemma page_aligned_units k : units (page_aligned page_size k) = take (klen (page_aligned page_size k)) (units k).
Proof.
  rewrite page_aligned_klen. unfold page_aligned. case_decide as H1.
  - rewrite H1, Nat.div_1_r, Nat.mul_1_r, <-length_units. by rewrite firstn_all.
  - apply units_kprefix.
Qed.

Lemma page_aligned_idem k : page_aligned page_size (page_aligned page_size k) = page_aligned page_size k.
Proof.
  unfold page_aligned at 1. case_decide as H1; [done|]. rewrite page_aligned_klen, Nat.div_mul by lia.
  unfold page_aligned. rewrite decide_False by done. apply kprefix_idem. pose proof (floor_spec (klen k) page_size Hps). lia.
Qed.

Lemma aligned_le m k : (m mod page_size = 0)%nat → (m ≤ klen k)%nat → (m ≤ klen (page_aligned page_size k))%nat.
Proof.
  intros Hm Hle. rewrite page_aligned_klen. apply Nat.Lcm0.mod_divide in Hm as [q ->].
  apply Nat.mul_le_mono_r. apply Nat.div_le_lower_bound; [lia|]. lia.
Qed.

Lemma radix_key_norm ts r : norm_key page_size is_eagle (radix_key_of page_size is_eagle ts r) = radix_key_of page_size is_eagle ts r.
Proof.
  unfold norm_key, radix_key_of. set (k := mkKey ts (req_extra_key r) is_eagle).
  destruct (page_aligned_ok page_size Hps k) as (_ & _ & Hb & _). unfold maybe_to_bigram_view. rewrite Hb. simpl.
  rewrite andb_negb_r. simpl. apply page_aligned_idem.
Qed.

Lemma radix_key_extra ts r : extra_key (radix_key_of page_size is_eagle ts r) = req_extra_key r ∧
  mode_ok is_eagle (radix_key_of page_size is_eagle ts r).
Proof.
  unfold radix_key_of, mode_ok. destruct (page_aligned_ok page_size Hps (mkKey ts (req_extra_key r) is_eagle)) as (_ & -> & -> & _). done.
Qed.

Lemma radix_key_len ts r : (klen (radix_key_of page_size is_eagle ts r) ≤ length ts)%nat.
Proof.
  unfold radix_key_of. destruct (page_aligned_ok page_size Hps (mkKey ts (req_extra_key r) is_eagle)) as (_ & _ & _ & Hle).
  unfold klen in *. simpl in *. destruct is_eagle; lia.
Qed.

Lemma radix_key_value ts r v : length v = klen (radix_key_of page_size is_eagle ts r) →
  value_ok page_size is_eagle (radix_key_of page_size is_eagle ts r) (Some v) ∧
  norm_value page_size is_eagle (radix_key_of page_size is_eagle ts r) (Some v) = v.
Proof.
  intros Hv. unfold value_ok, norm_value. rewrite radix_key_norm, Hv. split; [lia|].
  destruct (page_aligned_ok page_size Hps (mkKey ts (req_extra_key r) is_eagle)) as (_ & _ & Hb & _).
  unfold maybe_to_bigram_view, radix_key_of in *. rewrite Hb. simpl. rewrite andb_negb_r. simpl. apply take_ge. lia.
Qed.

End keys.

(** * What a cache promises *)

Definition option_list {A} (o : option A) : list A := match o with Some x => [x] | None => [] end.
Definition node_of (r : Req) : list nat := option_list (last_node r).

Class PrefixCacheLaws (T : Type) {PC : PrefixCache T} (strip : bool) := {
  (** The cache is well formed and the nodes of [L] are locked by its clients. *)
  cache_ok : T → list nat → Prop;
  (** How often the cache holds a slot. *)
  holds : Z → T → Z;
  (** The first [cache_protected_len] slots of the row of a request with these tokens are the cache's. *)
  claim : T → Req → list Z → list Z → Prop;

  cache_ok_perm t L L' : L ≡ₚ L' → cache_ok t L → cache_ok t L';
  claim_ext t r ts row r' ts' row' :
    claim t r ts row → last_node r' = last_node r → req_extra_key r' = req_extra_key r →
    cache_protected_len r' = cache_protected_len r → ts `prefix_of` ts' →
    take (cache_protected_len r) row' = take (cache_protected_len r) row → claim t r' ts' row';
  claim_cut t r ts row ts' :
    claim t r ts row → ts' `prefix_of` ts → (cache_protected_len r < length ts')%nat → claim t r ts' row;
  start_law t L ts e : cache_ok t L →
    ∃ t1 vs node t2, match_req (mkKey ts e false) t = Ok (t1, vs, node) ∧ lock_node node t1 = Ok t2 ∧
      cache_ok t2 (option_list node ++ L) ∧ (∀ x, holds x t2 = holds x t) ∧ (length vs ≤ length ts)%nat ∧
      (∀ r, last_node r = node → req_extra_key r = e → cache_protected_len r = length vs → claim t2 r ts vs) ∧
      (∀ r ts row, claim t r ts row → claim t2 r ts row);
  evictable_pos t L : cache_ok t L → 0 ≤ evictable t;
  chunk_law t : is_chunk_cache = true → evictable t = 0;
  evict_law n t L : cache_ok t L →
    ∃ t' fr, evict_cache n t = Ok (t', lenZ (concat fr), fr) ∧ cache_ok t' L ∧
      (∀ x, holds x t' = holds x t - count x (concat fr)) ∧ n `min` evictable t ≤ lenZ (concat fr) ∧
      evictable t' = evictable t - lenZ (concat fr) ∧
      (∀ r ts row, (∀ j, last_node r = Some j → j ∈ L) → claim t r ts row → claim t' r ts row);

  finished_law ins r w L i row m :
    cache_ok (tree w) (node_of r ++ L) → kv_ok (kv w) → req_pool_idx r = Some i →
    req_to_token (pool w) !! i = Some row → kv_committed_freed r = false →
    m = cache_commit_len strip r → (m ≤ length (origin_input_ids r ++ output_ids r))%nat → (m ≤ length row)%nat →
    claim (tree w) r (take m (origin_input_ids r ++ output_ids r)) row →
    ∃ t' a', finished_req ins r w = Ok (mkWorld t' a' (pool w), set_freed true (kv_overallocated_freed r) r) ∧
      cache_ok t' L ∧ kv_ok a' ∧
      (∀ x, free_count x a' + holds x t'
            = free_count x (kv w) + holds x (tree w) + count x (slice (cache_protected_len r) m row)) ∧
      (∀ r' ts' row', claim (tree w) r' ts' row' → claim t' r' ts' row');

  unfinished_law ch r w L i row held :
    cache_ok (tree w) (node_of r ++ L) → kv_ok (kv w) → pool_ok (pool w) held → req_pool_idx r = Some i →
    req_to_token (pool w) !! i = Some row → (length (fill_ids r) ≤ length row)%nat → claim (tree w) r (fill_ids r) row →
    ∃ t' a' p' r' row', unfinished_req ch r w = Ok (mkWorld t' a' p', r') ∧ cache_ok t' (node_of r' ++ L) ∧ kv_ok a' ∧
      pool_ok p' held ∧ req_to_token p' = <[i := row']> (req_to_token (pool w)) ∧ length row' = length row ∧
      drop (length (fill_ids r)) row' = drop (length (fill_ids r)) row ∧
      r' = set_prefix (take (length (fill_ids r)) row') (last_node r') (cache_protected_len r') r ∧
      (cache_protected_len r ≤ cache_protected_len r' ≤ length (fill_ids r))%nat ∧ claim t' r' (fill_ids r) row' ∧
      (∀ x, free_count x a' + holds x t' + count x (slice (cache_protected_len r') (length (fill_ids r)) row')
            = free_count x (kv w) + holds x (tree w) + count x (slice (cache_protected_len r) (length (fill_ids r)) row)) ∧
      (∀ r' ts' row', claim (tree w) r' ts' row' → claim t' r' ts' row');
}.

(** ** [ChunkCache] keeps the promise *)

#[export] Instance chunk_laws strip : @PrefixCacheLaws ChunkCache (ChunkPrefixCache strip) strip.
Proof.
  refine {| cache_ok _ _ := True; holds _ _ := 0; claim _ r _ _ := cache_protected_len r = 0%nat |}.
  - done.
  - intros t r ts row r' ts' row' H0 _ _ -> _ _. done.
  - done.
  - intros t L ts e _. exists t, [], None, t. cbn. split_and!; try done. lia.
  - done.
  - done.
  - intros n t L _. exists t, []. unfold lenZ. cbn. split_and!; try done; lia.
  - intros ins r w L i row m _ Ha Hi Hrow Hc -> _ Hlen Hcl. cbn. unfold chunk_finished_req, pop_committed_kv_cache. rewrite Hc. run_bind.
    unfold row_index. cbn. rewrite Hi. run_bind. rewrite (pool_read_eq _ _ _ _ Hrow). run_bind.
    destruct (free_ok (take (cache_commit_len strip r) row) (kv w) Ha) as [Ha' Hx].
    do 2 eexists. split; [done|]. split; [done|]. split; [done|]. split; [|done]. intros x. rewrite Hx, Hcl, slice_0. lia.
  - intros ch r w L i row held _ Ha Hp Hi Hrow Hlen Hcl. cbn. unfold chunk_unfinished_req, row_index. rewrite Hi. run_bind.
    rewrite (pool_read_eq _ _ _ _ Hrow). run_bind. exists (tree w), (kv w), (pool w). do 2 eexists.
    split; [by destruct w|]. cbn. rewrite Hcl, list_insert_id by done. split_and!; try done; lia.
Defined.

(** ** [RadixCache] keeps the promise *)

Section radix_laws.
Context (page_size : nat) (is_eagle disable_finished_insert strip : bool) (strategy : EvictionStrategy) (monotonic : nat → Z).
Hypothesis Hps : (0 < page_size)%nat.

#[local] Notation wf := (wf page_size is_eagle).
#[local] Notation fullc c := (full (nheap c) (root_node c)).
#[local] Notation key_of := (radix_key_of page_size is_eagle).
#[local] Notation inserted := (inserted page_size is_eagle).

Definition radix_claim (c : RadixCache) (r : Req) (ts row : list Z) : Prop :=
  ∃ j, last_node r = Some j ∧ (cache_protected_len r ≤ klen (mkKey ts (req_extra_key r) is_eagle))%nat ∧
    (cache_protected_len r ≤ length row)%nat ∧
    fullc c (req_extra_key r) j (take (cache_protected_len r) (units (mkKey ts (req_extra_key r) is_eagle)))
      (take (cache_protected_len r) row).

(** Claims survive whatever keeps the nodes in place. *)
Lemma claim_mono c c' r ts row :
  (∀ e j us vs, last_node r = Some j → fullc c e j us vs → fullc c' e j us vs) → radix_claim c r ts row → radix_claim c' r ts row.
Proof. intros Hf (j & Hj & H1 & H2 & H3). exists j. split_and!; try done. by apply Hf. Qed.

(** The claimed slots are whole pages, the same in the aligned key. *)
Lemma claim_aligned c r ts row :
  wf c → radix_claim c r ts row →
  (cache_protected_len r ≤ klen (key_of ts r))%nat ∧ (cache_protected_len r mod page_size = 0)%nat ∧
  cached page_size c (req_extra_key r) (take (cache_protected_len r) (units (key_of ts r))) (take (cache_protected_len r) row).
Proof.
  intros Hw (j & Hj & Hk & Hr & Hf). pose proof Hw as (HT & _).
  destruct (full_length _ _ _ _ _ _ _ _ _ HT Hf) as (_ & Hm & _).
  rewrite length_take, length_units, Nat.min_l in Hm by done.
  pose proof (aligned_le page_size Hps _ _ Hm Hk) as Hle. split; [done|]. split; [done|].
  unfold radix_key_of in *. rewrite (page_aligned_units page_size Hps), take_take, Nat.min_l by done. by eapply stored_full.
Qed.

(** Inserting the row of a request: what was claimed is found again. *)
Lemma hand_over c r ts row prio ch :
  wf c → radix_claim c r ts row → (length ts ≤ length row)%nat →
  let v := take (klen (key_of ts r)) (take (length ts) row) in
  ∃ c' n ws, insert page_size false is_eagle monotonic (key_of ts r) (Some v) prio ch c = Ok (c', n) ∧
    inserted c c' (req_extra_key r) (key_of ts r) v n ws ∧ (cache_protected_len r ≤ n ≤ klen (key_of ts r))%nat ∧
    length ws = n ∧ take (cache_protected_len r) ws = take (cache_protected_len r) row.
Proof.
  intros Hw Hcl Hlen v. destruct (claim_aligned c r ts row Hw Hcl) as (Hle & Hm & Hst).
  pose proof (radix_key_len page_size is_eagle Hps ts r) as Hkl.
  assert (Hv : length v = klen (key_of ts r)) by (unfold v; len_lia).
  destruct (radix_key_value page_size is_eagle Hps ts r v Hv) as [Hvo Hvn].
  destruct (radix_key_extra page_size is_eagle Hps ts r) as [He Hmo].
  destruct (insert_longest page_size is_eagle monotonic Hps (key_of ts r) (Some v) prio ch c Hw Hmo Hvo)
    as (c' & n & ws & Hr & (Hs & Hn & Hlw & Hmax) & Hin).
  rewrite radix_key_norm, ?Hvn, He in * by done. rewrite length_units in *.
  exists c', n, ws. split; [done|]. split; [done|]. specialize (Hmax _ _ Hle Hst). split; [lia|]. split; [done|].
  pose proof Hw as (HT & _). eapply (stored_det page_size is_eagle Hps _ _ _ _ _ _ _ HT); [|exact Hst].
  set (p := cache_protected_len r) in *. set (U := units (key_of ts r)) in *.
  assert (HU : take p U = take p (take n U)) by (rewrite take_take; f_equal; lia).
  assert (HlU : length (take p U) = p) by (unfold U; rewrite length_take, length_units; lia).
  replace (take p ws) with (take (length (take p U)) ws) by (by rewrite HlU).
  apply stored_prefix with (us := take n U); [exact Hps|exact Hs| |by rewrite HlU]. rewrite HU. apply prefix_take.
Qed.

#[local] Notation rinv := (rinv page_size is_eagle).

Lemma inserted_rinv c c' e k v n ws L : rinv (c, L) → inserted c c' e k v n ws → rinv (c', L).
Proof. intros Hr Hi. apply (rinv_same page_size is_eagle c); [done|apply Hi..]. Qed.

Lemma quiet_rinv c c' L : rinv (c, L) → quiet page_size is_eagle c c' → rinv (c', L).
Proof. intros Hr Hq. apply (rinv_same page_size is_eagle c); [done|apply Hq..]. Qed.

(** Giving a lock back. *)
Lemma unlock c j L :
  rinv (c, j :: L) → ∃ c' d, dec_lock_ref false j c = Ok (c', d) ∧ rinv (c', L) ∧
    (∀ x, slots x (nheap c') = slots x (nheap c)) ∧ (∀ e i us vs, fullc c e i us vs ↔ fullc c' e i us vs).
Proof.
  intros Hr. assert (Hj : j ∈ j :: L) by left. pose proof (rinv_held page_size is_eagle Hps c _ j Hr Hj) as Hh. pose proof Hr as (Hw & _ & Hl).
  destruct (dec_lock_ok page_size is_eagle monotonic Hps c j Hw Hh) as (c' & l & _ & E & Hw' & Hrl & Ho).
  exists c'. eexists. split; [exact E|]. split; [|split].
  - apply (rinv_relock page_size is_eagle c c' (j :: L) j l (-1)); try done.
    + intros i. rewrite nlocks_cons. case_decide; lia.
    + intros i Hi. apply Hl. by right.
  - intros x. by eapply relocks_slots.
  - intros e i us vs. by eapply relocks_full.
Qed.

Lemma lock c j L :
  rinv (c, L) → is_Some (heap c !! j) → ∃ c' d, inc_lock_ref false j c = Ok (c', d) ∧ rinv (c', j :: L) ∧
    (∀ x, slots x (nheap c') = slots x (nheap c)) ∧ (∀ e i us vs, fullc c e i us vs ↔ fullc c' e i us vs).
Proof.
  intros Hr [n Hj]. pose proof Hr as (Hw & _ & Hl).
  destruct (inc_lock_ok page_size is_eagle monotonic Hps c j n Hw Hj) as (c' & l & _ & E & Hw' & Hrl & Ho).
  exists c'. eexists. split; [exact E|]. split; [|split].
  - apply (rinv_relock page_size is_eagle c c' L j l 1); try done.
    + intros i. by rewrite nlocks_cons.
    + intros i [->|Hi]%elem_of_cons; [by exists n|by apply Hl].
  - intros x. by eapply relocks_slots.
  - intros e i us vs. by eapply relocks_full.
Qed.

Lemma full_live c e j us vs : wf c → fullc c e j us vs → is_Some (heap c !! j).
Proof.
  intros Hw Hf. destruct Hf as [|i n p us vs _ Hn _ _ _].
  - destruct (root_lookup page_size is_eagle c Hw) as [r Hr]. by exists r.
  - apply nheap_Some in Hn as (m & Hm & _). by exists m.
Qed.

Lemma radix_ok_perm c L L' : L ≡ₚ L' → rinv (c, L) → rinv (c, L').
Proof.
  intros Hp (Hw & Ho & Hl). split; [done|]. cbn [fst snd] in *. split.
  - intros i Hi. rewrite Ho by done. unfold nlocks. by rewrite Hp.
  - intros i Hi. apply Hl. by rewrite Hp.
Qed.

Lemma units_prefix ts ts' e b : ts `prefix_of` ts' → units (mkKey ts e b) `prefix_of` units (mkKey ts' e b).
Proof.
  intros [k ->]. unfold units. simpl. destruct b.
  - induction ts as [|a [|b ts] IH]; [apply prefix_nil|apply prefix_nil|]. simpl in *. by apply prefix_cons.
  - rewrite fmap_app. by apply prefix_app_r.
Qed.

Lemma radix_claim_ext c r ts row r' ts' row' :
  radix_claim c r ts row → last_node r' = last_node r → req_extra_key r' = req_extra_key r →
  cache_protected_len r' = cache_protected_len r → ts `prefix_of` ts' →
  take (cache_protected_len r) row' = take (cache_protected_len r) row → radix_claim c r' ts' row'.
Proof.
  intros (j & Hj & Hk & Hr & Hf) Hn He Hp Hts Htk. exists j. rewrite Hn, He, Hp.
  destruct (units_prefix ts ts' (req_extra_key r) is_eagle Hts) as [rest Hu].
  assert (Hl : (klen (mkKey ts (req_extra_key r) is_eagle) ≤ klen (mkKey ts' (req_extra_key r) is_eagle))%nat).
  { rewrite <-!length_units, Hu, length_app. lia. }
  split; [done|]. split; [lia|]. split.
  - apply (f_equal length) in Htk. rewrite !length_take in Htk. lia.
  - rewrite Hu, take_app_le, Htk by (rewrite length_units; lia). exact Hf.
Qed.

Lemma radix_claim_cut c r ts row ts' :
  radix_claim c r ts row → ts' `prefix_of` ts → (cache_protected_len r < length ts')%nat → radix_claim c r ts' row.
Proof.
  intros (j & Hj & Hk & Hr & Hf) Hts Hlt. destruct (units_prefix ts' ts (req_extra_key r) is_eagle Hts) as [rest Hu].
  assert (Hl : (cache_protected_len r ≤ klen (mkKey ts' (req_extra_key r) is_eagle))%nat) by (unfold klen; simpl; destruct is_eagle; lia).
  exists j. split; [done|]. split; [done|]. split; [done|]. by rewrite Hu, take_app_le in Hf by (rewrite length_units; lia).
Qed.

Lemma radix_start_law c L ts e :
  rinv (c, L) →
  ∃ t1 vs node t2, (do! m <- match_prefix page_size false is_eagle monotonic (mkKey ts e false) c; Ok (m.1.1, m.1.2, Some m.2))
      = Ok (t1, vs, node) ∧
    match node with Some j => do! d <- inc_lock_ref false j t1; Ok d.1 | None => Raise AttributeError end = Ok t2 ∧
    rinv (t2, option_list node ++ L) ∧ (∀ x, slots x (nheap t2) = slots x (nheap c)) ∧ (length vs ≤ length ts)%nat ∧
    (∀ r, last_node r = node → req_extra_key r = e → cache_protected_len r = length vs → radix_claim t2 r ts vs) ∧
    (∀ r ts row, radix_claim c r ts row → radix_claim t2 r ts row).
Proof.
  intros Hr. pose proof Hr as (Hw & _). cbn [fst] in Hw.
  destruct (match_prefix_longest page_size is_eagle monotonic Hps (mkKey ts e false) c Hw ltac:(done))
    as (c1 & vs & j & n & -> & Hq & (_ & Hn & Hlv & _) & Hf). run_bind. cbn [fst snd].
  destruct (lock c1 j L (quiet_rinv _ _ _ Hr Hq)) as (c2 & d & E & Hr2 & Hs2 & Hf2).
  { by eapply full_live; [apply Hq|]. }
  assert (Hview : (maybe_to_bigram_view is_eagle (mkKey ts e false) None).1 = mkKey ts e is_eagle).
  { unfold maybe_to_bigram_view. by destruct is_eagle. }
  unfold norm_key in *. rewrite Hview in *. rewrite length_units in Hn.
  destruct (page_aligned_ok page_size Hps (mkKey ts e is_eagle)) as (_ & _ & _ & Hle).
  assert (Hts : (klen (mkKey ts e is_eagle) ≤ length ts)%nat) by (unfold klen; simpl; destruct is_eagle; lia).
  exists c1, vs, (Some j), c2. rewrite E. run_bind. split; [done|]. split; [done|]. split; [done|].
  split; [intros x; by rewrite Hs2, (q_slots _ _ _ _ Hq)|]. split; [lia|]. split.
  - intros r Hl He Hp. exists j. rewrite He, Hp. split; [done|]. split; [lia|]. split; [done|].
    rewrite (take_ge vs) by lia. apply Hf2. rewrite Hlv.
    rewrite (page_aligned_units page_size Hps), take_take, Nat.min_l in Hf by lia. exact Hf.
  - intros r ts' row. apply claim_mono. intros e' jj us vs' _ Hf'. apply Hf2. by apply (quiet_full page_size is_eagle _ _ _ _ _ _ Hq).
Qed.

Lemma radix_evictable_pos c L : rinv (c, L) → 0 ≤ evictable_size c.
Proof.
  intros ((_ & _ & (He & _)) & _). unfold evictable_size. cbn [fst] in He. rewrite He. apply hsum_nonneg. intros i n _.
  unfold size_of. case_decide; [done|]. case_bool_decide; lia.
Qed.

Lemma radix_evict_law n c L :
  rinv (c, L) →
  ∃ c' fr, evict page_size false strategy n c = Ok (c', lenZ (concat fr), fr) ∧ rinv (c', L) ∧
    (∀ x, slots x (nheap c') = slots x (nheap c) - count x (concat fr)) ∧ n `min` evictable_size c ≤ lenZ (concat fr) ∧
    evictable_size c' = evictable_size c - lenZ (concat fr) ∧
    (∀ r ts row, (∀ j, last_node r = Some j → j ∈ L) → radix_claim c r ts row → radix_claim c' r ts row).
Proof.
  intros Hr. pose proof Hr as (Hw & _ & _). cbn [fst] in Hw.
  destruct (evict_run page_size is_eagle monotonic Hps strategy n c Hw) as (c' & xs & fr & E & Hev & Hn & _).
  destruct (evicts_ok page_size is_eagle Hps strategy c xs fr c' Hw Hev) as (_ & _ & He & _ & _ & _ & Hf2 & Hx & Hs & _).
  exists c', fr. split; [done|]. split; [by eapply rinv_evict|]. split; [done|]. split; [done|]. split; [done|].
  intros r ts row Hin. apply claim_mono. intros e j us vs Hj Hf. apply Hf2; [done|]. intros Hxs.
  destruct (rinv_held page_size is_eagle Hps c L j Hr (Hin j Hj)) as (m & Hm & Hlt).
  specialize (Hx j m Hxs Hm). pose proof Hw as (HT & [Hpos _] & _).
  pose proof (child_locks_nonneg (nheap c) j Hpos). destruct (decide (j = root_node c)) as [->|Hjr]; [|specialize (Hlt Hjr); lia].
  destruct (ok_root _ _ _ _ _ HT) as (rt & Hrt & _ & Hrl & _). rewrite (nheap_lookup _ _ _ Hm) in Hrt. injection Hrt as <-.
  simpl in Hrl. lia.
Qed.

(** The frees of [cache_finished_req]: duplicates up to [n], then the tail. *)
Lemma frees a p n k m row :
  kv_ok a → (p ≤ n)%nat → (n ≤ k)%nat → (k ≤ m)%nat → (m ≤ length row)%nat →
  let a' := Allocator.free (drop k (take m row)) (Allocator.free (slice p n (take m row)) a) in
  kv_ok a' ∧ ∀ x, free_count x a' = free_count x a + count x (slice p n row) + count x (slice k m row).
Proof.
  intros Ha Hpn Hnk Hkm Hm a'. destruct (free_ok (slice p n (take m row)) a Ha) as [Ha1 H1].
  destruct (free_ok (drop k (take m row)) _ Ha1) as [Ha2 H2]. split; [done|]. intros x. unfold a'.
  by rewrite H2, H1, slice_take, drop_slice by lia.
Qed.

Lemma radix_finished_law ins r w L i row m :
  rinv (tree w, node_of r ++ L) → kv_ok (kv w) → req_pool_idx r = Some i →
  req_to_token (pool w) !! i = Some row → kv_committed_freed r = false →
  m = cache_commit_len strip r → (m ≤ length (origin_input_ids r ++ output_ids r))%nat → (m ≤ length row)%nat →
  radix_claim (tree w) r (take m (origin_input_ids r ++ output_ids r)) row →
  ∃ c' a', cache_finished_req page_size false is_eagle disable_finished_insert strip monotonic ins r w
      = Ok (mkWorld c' a' (pool w), set_freed true (kv_overallocated_freed r) r) ∧
    rinv (c', L) ∧ kv_ok a' ∧
    (∀ x, free_count x a' + slots x (nheap c')
          = free_count x (kv w) + slots x (nheap (tree w)) + count x (slice (cache_protected_len r) m row)) ∧
    (∀ r' ts' row', radix_claim (tree w) r' ts' row' → radix_claim c' r' ts' row').
Proof.
  intros Hr Ha Hi Hrow Hc -> Hlen Hrl Hcl. set (m := cache_commit_len strip r) in *.
  set (ts := take m (origin_input_ids r ++ output_ids r)) in *.
  assert (Hts : length ts = m) by (unfold ts; len_lia).
  pose proof Hcl as (j & Hj & _). assert (Hno : node_of r = [j]) by (unfold node_of; by rewrite Hj). rewrite Hno in Hr.
  pose proof Hr as (Hw & _ & _). cbn [fst] in Hw.
  destruct (claim_aligned (tree w) r ts row Hw Hcl) as (Hle & _ & _).
  pose proof (radix_key_len page_size is_eagle Hps ts r) as Hkl. rewrite Hts in Hkl.
  unfold cache_finished_req, pop_committed_kv_cache. rewrite Hc. run_bind. fold m.
  unfold row_index. cbn [req_pool_idx set_freed origin_input_ids output_ids last_node cache_protected_len req_priority].
  rewrite Hi. run_bind. fold ts. rewrite Hts, (pool_read_eq _ _ _ _ Hrow). run_bind.
  change (radix_key_of page_size is_eagle ts (set_freed true (kv_overallocated_freed r) r)) with (key_of ts r). rewrite Hj.
  destruct (ins && negb disable_finished_insert).
  - destruct (hand_over (tree w) r ts row (default 0 (req_priority r)) false Hw Hcl ltac:(lia))
      as (c' & n & ws & E & Hin & [Hpn Hnk] & _). rewrite Hts in E, Hin. rewrite E. run_bind. cbn [fst snd tree kv pool set_kv].
    destruct (unlock c' j L (inserted_rinv _ _ _ _ _ _ _ _ Hr Hin)) as (c2 & d & -> & Hr2 & Hs2 & Hf2). run_bind.
    destruct (frees (kv w) _ n _ m row Ha Hpn Hnk Hkl Hrl) as [Ha' Hx].
    do 2 eexists. split; [done|]. split; [done|]. split; [exact Ha'|]. split.
    + intros x. cbn [fst]. rewrite Hx, Hs2, (in_slots _ _ _ _ _ _ _ _ _ Hin).
      rewrite (drop_slice n (klen (key_of ts r))) by len_lia. rewrite slice_take by lia.
      rewrite (count_slice x (cache_protected_len r) n m), (count_slice x n (klen (key_of ts r)) m) by lia. lia.
    + intros r' ts' row'. apply claim_mono. intros e jj us vs _ Hf. apply Hf2. by apply (in_full _ _ _ _ _ _ _ _ _ Hin).
  - run_bind. cbn [fst snd tree kv pool set_kv]. destruct (unlock (tree w) j L Hr) as (c2 & d & -> & Hr2 & Hs2 & Hf2). run_bind.
    destruct (frees (kv w) _ _ _ m row Ha Hle (le_n _) Hkl Hrl) as [Ha' Hx].
    do 2 eexists. split; [done|]. split; [done|]. split; [exact Ha'|]. split.
    + intros x. cbn [fst]. rewrite Hx, Hs2, (count_slice x (cache_protected_len r) (klen (key_of ts r)) m) by lia. lia.
    + intros r' ts' row'. apply claim_mono. intros e jj us vs _ Hf. by apply Hf2.
Qed.

(** Matching the key just inserted: the whole key, the tree's slots. *)
Lemma match_inserted c c' ts r v n ws :
  wf c → inserted c c' (req_extra_key r) (key_of ts r) v n ws →
  ∃ c2 j, match_prefix page_size false is_eagle monotonic (key_of ts r) c' = Ok (c2, ws ++ drop n v, j) ∧
    quiet page_size is_eagle c' c2 ∧ fullc c2 (req_extra_key r) j (units (key_of ts r)) (ws ++ drop n v).
Proof.
  intros Hw Hin. pose proof (in_wf _ _ _ _ _ _ _ _ _ Hin) as Hw'. pose proof Hw' as (HT & _).
  destruct (radix_key_extra page_size is_eagle Hps ts r) as [He Hmo].
  destruct (match_prefix_longest page_size is_eagle monotonic Hps (key_of ts r) c' Hw' Hmo)
    as (c2 & vs & j & n2 & E & Hq & (Hs & Hn2 & _ & Hmax) & Hf).
  rewrite radix_key_norm, He in * by done. pose proof (in_new _ _ _ _ _ _ _ _ _ Hin) as Hnew.
  assert (n2 = length (units (key_of ts r))) as ->.
  { specialize (Hmax _ (ws ++ drop n v) (le_n _)). rewrite firstn_all in Hmax. specialize (Hmax Hnew). lia. }
  rewrite firstn_all in *. assert (vs = ws ++ drop n v) as -> by exact (stored_det page_size is_eagle Hps _ _ _ _ _ _ _ HT Hs Hnew).
  exists c2, j. done.
Qed.

Lemma take_app_eq {A} (l k : list A) n : length l = n → take n (l ++ k) = l.
Proof. intros <-. apply take_app_length. Qed.

Lemma drop_app_eq {A} (l k : list A) n : length l = n → drop n (l ++ k) = k.
Proof. intros <-. apply drop_app_length. Qed.

Lemma radix_unfinished_run ch r w L i row held :
  rinv (tree w, node_of r ++ L) → kv_ok (kv w) → pool_ok (pool w) held → req_pool_idx r = Some i →
  req_to_token (pool w) !! i = Some row → (length (fill_ids r) ≤ length row)%nat → radix_claim (tree w) r (fill_ids r) row →
  ∃ t' a' p' r' row', cache_unfinished_req page_size false is_eagle monotonic ch r w = Ok (mkWorld t' a' p', r') ∧
    rinv (t', node_of r' ++ L) ∧ kv_ok a' ∧
    pool_ok p' held ∧ req_to_token p' = <[i := row']> (req_to_token (pool w)) ∧ length row' = length row ∧
    drop (length (fill_ids r)) row' = drop (length (fill_ids r)) row ∧
    r' = set_prefix (take (length (fill_ids r)) row') (last_node r') (cache_protected_len r') r ∧
    (cache_protected_len r ≤ cache_protected_len r' ≤ length (fill_ids r))%nat ∧ radix_claim t' r' (fill_ids r) row' ∧
    (∀ x, free_count x a' + slots x (nheap t') + count x (slice (cache_protected_len r') (length (fill_ids r)) row')
          = free_count x (kv w) + slots x (nheap (tree w)) + count x (slice (cache_protected_len r) (length (fill_ids r)) row)) ∧
    (∀ r' ts' row', radix_claim (tree w) r' ts' row' → radix_claim t' r' ts' row') ∧
    cache_protected_len r' = klen (key_of (fill_ids r) r) ∧ drop (cache_protected_len r') row' = drop (cache_protected_len r') row.
Proof.
  intros Hr Ha Hpool Hi Hrow Hlen Hcl. set (ts := fill_ids r) in *. set (n0 := length ts) in *.
  pose proof Hcl as (j & Hj & _). assert (Hno : node_of r = [j]) by (unfold node_of; by rewrite Hj). rewrite Hno in Hr.
  pose proof Hr as (Hw & _ & _). cbn [fst] in Hw.
  pose proof (radix_key_len page_size is_eagle Hps ts r) as Hkl. fold n0 in Hkl.
  destruct (hand_over (tree w) r ts row (default 0 (req_priority r)) ch Hw Hcl Hlen)
    as (c1 & n & ws & E1 & Hin & [Hpn Hnk] & Hws & Hpre). fold n0 in E1, Hin.
  set (k := klen (key_of ts r)) in *. set (p := cache_protected_len r) in *. set (v := take k (take n0 row)) in *.
  destruct (match_inserted _ _ _ _ _ _ _ Hw Hin) as (c2 & jn & E2 & Hq & Hf2).
  assert (Hv : length v = k) by (unfold v; len_lia).
  set (new := ws ++ drop n v) in *. assert (Hnew : length new = k) by (unfold new; len_lia).
  assert (Htp : take p new = take p row) by (unfold new; rewrite take_app_le by lia; exact Hpre).
  destruct (unlock c2 j L (quiet_rinv _ _ _ (inserted_rinv _ _ _ _ _ _ _ _ Hr Hin) Hq)) as (c3 & d3 & E3 & Hr3 & Hs3 & Hf3).
  apply Hf3 in Hf2. destruct (lock c3 jn L Hr3) as (c4 & d4 & E4 & Hr4 & Hs4 & Hf4).
  { by eapply full_live; [apply Hr3|]. }
  apply Hf4 in Hf2. set (row' := new ++ drop k row).
  destruct (pool_write_ok (pool w) held i row p k (drop p new) Hpool Hrow ltac:(lia) ltac:(lia)) as (p' & Ep & Hpool' & Hrows & _).
  { len_lia. }
  assert (Hrow' : take p row ++ drop p new ++ drop k row = row') by (rewrite <-Htp, app_assoc, take_drop; done).
  rewrite Hrow' in Hrows.
  assert (Hpref : (if decide (k < n0)%nat then new ++ drop k (take n0 row) else new) = take n0 row').
  { unfold row'. rewrite take_app, Hnew, (take_ge new) by lia. rewrite drop_slice by lia. unfold slice.
    case_decide; [done|]. replace (n0 - k)%nat with 0%nat by lia. by rewrite take_0, app_nil_r. }
  destruct (free_ok (slice p n (take n0 row)) (kv w) Ha) as [Ha' Hx].
  exists c4, (Allocator.free (slice p n (take n0 row)) (kv w)), p', (set_prefix (take n0 row') (Some jn) k r), row'.
  split.
  { unfold cache_unfinished_req, row_index. rewrite Hi. run_bind. fold ts n0. rewrite (pool_read_eq _ _ _ _ Hrow). run_bind.
    fold k v p. rewrite E1. run_bind. cbn [fst snd]. rewrite E2. run_bind. fold new. rewrite Hnew, decide_False by lia.
    rewrite Ep. run_bind. rewrite Hj, E3. run_bind. cbn [fst]. rewrite E4. run_bind. cbn [fst].
    rewrite length_take, Nat.min_l, Hpref by lia. done. }
  split; [exact Hr4|]. split; [done|]. split; [done|]. split; [done|].
  split; [unfold row'; len_lia|].
  split; [unfold row'; rewrite drop_app, Hnew, (drop_ge new), drop_drop by lia; simpl; f_equal; lia|].
  split; [done|]. split; [simpl; lia|]. split; [|split; [|split; [|split; [done|cbn; unfold row'; by rewrite drop_app_eq]]]].
  - exists jn. cbn [last_node set_prefix cache_protected_len req_extra_key].
    split; [done|]. split; [|split; [unfold row'; len_lia|]].
    + destruct (page_aligned_ok page_size Hps (mkKey ts (req_extra_key r) is_eagle)) as (_ & _ & _ & Hle). exact Hle.
    + unfold row'. rewrite take_app_eq by done. unfold radix_key_of in Hf2 at 1.
      rewrite (page_aligned_units page_size Hps) in Hf2. exact Hf2.
  - intros x. cbn [cache_protected_len set_prefix]. rewrite Hs4, Hs3, (q_slots _ _ _ _ Hq), (in_slots _ _ _ _ _ _ _ _ _ Hin), Hx.
    rewrite slice_take by lia. unfold v. rewrite (drop_slice n k) by len_lia. rewrite slice_take by lia.
    replace (slice k n0 row') with (slice k n0 row).
    + rewrite (count_slice x p n n0), (count_slice x n k n0) by lia. lia.
    + unfold slice, row'. by rewrite drop_app_eq by done.
  - intros r' ts' row0. apply claim_mono. intros e jj us vs _ Hf. apply Hf4, Hf3, (quiet_full page_size is_eagle _ _ _ _ _ _ Hq).
    by apply (in_full _ _ _ _ _ _ _ _ _ Hin).
Qed.

Lemma radix_unfinished_law ch r w L i row held :
  rinv (tree w, node_of r ++ L) → kv_ok (kv w) → pool_ok (pool w) held → req_pool_idx r = Some i →
  req_to_token (pool w) !! i = Some row → (length (fill_ids r) ≤ length row)%nat → radix_claim (tree w) r (fill_ids r) row →
  ∃ t' a' p' r' row', cache_unfinished_req page_size false is_eagle monotonic ch r w = Ok (mkWorld t' a' p', r') ∧
    rinv (t', node_of r' ++ L) ∧ kv_ok a' ∧
    pool_ok p' held ∧ req_to_token p' = <[i := row']> (req_to_token (pool w)) ∧ length row' = length row ∧
    drop (length (fill_ids r)) row' = drop (length (fill_ids r)) row ∧
    r' = set_prefix (take (length (fill_ids r)) row') (last_node r') (cache_protected_len r') r ∧
    (cache_protected_len r ≤ cache_protected_len r' ≤ length (fill_ids r))%nat ∧ radix_claim t' r' (fill_ids r) row' ∧
    (∀ x, free_count x a' + slots x (nheap t') + count x (slice (cache_protected_len r') (length (fill_ids r)) row')
          = free_count x (kv w) + slots x (nheap (tree w)) + count x (slice (cache_protected_len r) (length (fill_ids r)) row)) ∧
    (∀ r' ts' row', radix_claim (tree w) r' ts' row' → radix_claim t' r' ts' row').
Proof.
  intros Hr Ha Hp Hi Hrow Hlen Hcl.
  destruct (radix_unfinished_run ch r w L i row held Hr Ha Hp Hi Hrow Hlen Hcl)
    as (t' & a' & p' & r' & row' & H1 & H2 & H3 & H4 & H5 & H6 & H7 & H8 & H9 & H10 & H11 & H12 & _).
  exists t', a', p', r', row'. done.
Qed.

(** C17: [cache_unfinished_req] on a running request: its assertion never fires;
    the tokens so far are cached and the row of the request now names the slots of
    the tree for all whole pages, the rest of the row stays; the request keeps a
    lock on the node of its prefix; duplicates are freed, so that free slots, tree
    and row together hold what they held. *)
Theorem cache_unfinished_req_spec ch r w L i row held :
  rinv (tree w, node_of r ++ L) → kv_ok (kv w) → pool_ok (pool w) held → req_pool_idx r = Some i →
  req_to_token (pool w) !! i = Some row → (length (fill_ids r) ≤ length row)%nat → radix_claim (tree w) r (fill_ids r) row →
  ∃ t' a' p' r' row' n, cache_unfinished_req page_size false is_eagle monotonic ch r w = Ok (mkWorld t' a' p', r') ∧
    rinv (t', node_of r' ++ L) ∧ pool_ok p' held ∧ req_to_token p' = <[i := row']> (req_to_token (pool w)) ∧
    drop n row' = drop n row ∧ cached page_size t' (req_extra_key r) (units (key_of (fill_ids r) r)) (take n row') ∧
    n = klen (key_of (fill_ids r) r) ∧ cache_protected_len r' = n ∧ prefix_indices r' = take (length (fill_ids r)) row' ∧
    (∀ x, free_count x a' + slots x (nheap t') + count x (slice n (length (fill_ids r)) row')
          = free_count x (kv w) + slots x (nheap (tree w)) + count x (slice (cache_protected_len r) (length (fill_ids r)) row)).
Proof.
  intros Hr Ha Hp Hi Hrow Hlen Hcl.
  destruct (radix_unfinished_run ch r w L i row held Hr Ha Hp Hi Hrow Hlen Hcl)
    as (t' & a' & p' & r' & row' & E & Hr' & _ & Hp' & Hrows & _ & _ & Hset & _ & Hcl' & Hx & _ & Hk & Hdrop).
  exists t', a', p', r', row', (cache_protected_len r'). split; [exact E|]. split; [done|]. split; [done|].
  split; [done|]. split; [done|]. pose proof Hr' as (Hw' & _). cbn [fst] in Hw'.
  assert (Hkey : key_of (fill_ids r) r' = key_of (fill_ids r) r ∧ req_extra_key r' = req_extra_key r) by (by rewrite Hset).
  destruct (claim_aligned _ _ _ _ Hw' Hcl') as (_ & _ & Hst). destruct Hkey as [Hkey He]. rewrite Hkey, He in Hst.
  split; [|split; [done|split; [done|split; [by rewrite Hset|exact Hx]]]].
  by rewrite (take_ge (units _)) in Hst by (rewrite length_units; lia).
Qed.

#[export] Instance radix_laws :
  @PrefixCacheLaws RadixCache (RadixPrefixCache page_size is_eagle disable_finished_insert strip strategy monotonic) strip.
Proof.
  refine (@Build_PrefixCacheLaws RadixCache (RadixPrefixCache page_size is_eagle disable_finished_insert strip strategy monotonic) strip
    (fun c L => rinv (c, L)) (fun x c => slots x (nheap c)) radix_claim _ _ _ _ _ _ _ _ _).
  - exact radix_ok_perm.
  - exact radix_claim_ext.
  - exact radix_claim_cut.
  - exact radix_start_law.
  - exact radix_evictable_pos.
  - done.
  - exact radix_evict_law.
  - exact radix_finished_law.
  - exact radix_unfinished_law.
Defined.

End radix_laws.

(** * Clients of the interface *)

Section client_laws.
Context {T : Type} {PC : PrefixCache T} {strip : bool} {PL : PrefixCacheLaws T strip}.

Definition total (x : Z) (w : World T) : Z := free_count x (kv w) + holds x (tree w).

Lemma evict_from_spec n w L :
  cache_ok (tree w) L → kv_ok (kv w) →
  ∃ w', evict_from_tree_cache n w = Ok w' ∧ cache_ok (tree w') L ∧ kv_ok (kv w') ∧ pool w' = pool w ∧
    (∀ x, total x w' = total x w) ∧
    available_size (kv w') + evictable (tree w') = available_size (kv w) + evictable (tree w) ∧
    (n ≤ available_size (kv w') ∨ evictable (tree w') = 0) ∧
    (∀ r ts row, (∀ j, last_node r = Some j → j ∈ L) → claim (tree w) r ts row → claim (tree w') r ts row).
Proof.
  intros Hc Ha. unfold evict_from_tree_cache. destruct is_chunk_cache eqn:Hch.
  { exists w. split; [done|]. split_and!; try done. right. by apply (chunk_law (tree w)). }
  case_bool_decide as Hd; [|exists w; split; [done|]; split_and!; try done; left; lia].
  destruct (evict_law n (tree w) L Hc) as (t' & fr & E & Hc' & Hh & Hmin & Hev & Hk). unfold evict_and_free. rewrite E. run_bind.
  eexists. split; [done|]. cbn [fst snd tree kv pool]. destruct (free_all_ok fr (kv w) Ha) as [Ha' Hx]. pose proof (evictable_pos t' L Hc').
  split; [done|]. split; [done|]. split; [done|]. split; [|split; [|split; [|done]]].
  - intros x. unfold total. cbn [tree kv pool set_kv set_pool]. rewrite Hx, Hh. lia.
  - rewrite free_all_avail by done. lia.
  - rewrite free_all_avail by done. pose proof (Z.min_spec n (evictable (tree w))).
    assert (0 ≤ available_size (kv w)) by (destruct Ha as (_ & _ & Hp); unfold available_size, lenZ; rewrite Hp; lia). lia.
Qed.

Lemma alloc_token_slots_ok n w L :
  cache_ok (tree w) L → kv_ok (kv w) → 0 ≤ n →
  if decide (n ≤ available_size (kv w) + evictable (tree w)) then
    ∃ w' out, alloc_token_slots n w = Ok (w', out) ∧ lenZ out = n ∧ cache_ok (tree w') L ∧ kv_ok (kv w') ∧ pool w' = pool w ∧
      (∀ x, total x w' + count x out = total x w) ∧
      (∀ r ts row, (∀ j, last_node r = Some j → j ∈ L) → claim (tree w) r ts row → claim (tree w') r ts row)
  else alloc_token_slots n w = Raise RuntimeError.
Proof.
  intros Hc Ha Hn. destruct (evict_from_spec n w L Hc Ha) as (w1 & E & Hc1 & Ha1 & Hp1 & Ht & Hsum & Hor & Hk).
  unfold alloc_token_slots. rewrite E. run_bind. pose proof (alloc_ok n (kv w1) Ha1 Hn) as Hal.
  pose proof (evictable_pos (tree w1) L Hc1). destruct (decide (n ≤ available_size (kv w1))) as [Hle|Hle].
  - rewrite decide_True by lia. destruct Hal as (a' & idx & -> & Ha' & Hl & _ & Hx). do 2 eexists. split; [done|]. cbn [tree kv pool set_kv].
    split_and!; try done. intros x. rewrite <-Ht. unfold total. cbn [tree kv pool set_kv set_pool]. rewrite Hx. lia.
  - rewrite decide_False by lia. destruct Hal as (a' & ->). done.
Qed.

(** C15: [alloc_token_slots] succeeds exactly when the request fits in the free and
    the evictable slots, against any prefix cache.  It hands out that many slots,
    each leaving the free lists or the cache; what running requests hold in the
    cache stays theirs. *)
Theorem alloc_token_slots_spec n w L :
  cache_ok (tree w) L → kv_ok (kv w) → 0 ≤ n →
  if decide (n ≤ available_size (kv w) + evictable (tree w)) then
    ∃ w' out, alloc_token_slots n w = Ok (w', out) ∧ lenZ out = n ∧ cache_ok (tree w') L ∧ kv_ok (kv w') ∧ pool w' = pool w ∧
      (∀ x, total x w' + count x out = total x w) ∧
      (∀ r ts row, (∀ j, last_node r = Some j → j ∈ L) → claim (tree w) r ts row → claim (tree w') r ts row)
  else alloc_token_slots n w = Raise RuntimeError.
Proof. exact (alloc_token_slots_ok n w L). Qed.

Lemma release_kv_cache_ok no_spec ps ins r w L i row held :
  (ps ≤ 1)%nat → cache_ok (tree w) (node_of r ++ L) → kv_ok (kv w) → pool_ok (pool w) (i :: held) →
  req_pool_idx r = Some i → req_to_token (pool w) !! i = Some row →
  kv_committed_freed r = false → kv_overallocated_freed r = false →
  (cache_protected_len r ≤ cache_commit_len strip r ≤ kv_allocated_len r)%nat → (kv_allocated_len r ≤ length row)%nat →
  (cache_commit_len strip r ≤ length (origin_input_ids r ++ output_ids r))%nat →
  (no_spec = true → strip = false → cache_commit_len strip r = kv_allocated_len r) →
  claim (tree w) r (take (cache_commit_len strip r) (origin_input_ids r ++ output_ids r)) row →
  ∃ w' r', release_kv_cache strip no_spec ps ins r w = Ok (w', r') ∧ r' = set_pool_idx None (set_freed true true r) ∧
    cache_ok (tree w') L ∧ kv_ok (kv w') ∧ pool_ok (pool w') held ∧ req_to_token (pool w') = req_to_token (pool w) ∧
    max_context_len (pool w') = max_context_len (pool w) ∧
    (∀ x, total x w' = total x w + count x (slice (cache_protected_len r) (kv_allocated_len r) row)) ∧
    (∀ r' ts' row', claim (tree w) r' ts' row' → claim (tree w') r' ts' row').
Proof.
  intros Hps Hc Ha Hp Hi Hrow Hf1 Hf2 Hlen Hal Htok Hspec Hcl. set (m := cache_commit_len strip r) in *.
  destruct (finished_law (ins && negb (skip_radix_cache_insert r)) r w L i row m Hc Ha Hi Hrow Hf1 eq_refl Htok ltac:(lia) Hcl)
    as (t' & a' & E & Hc' & Ha' & Hx & Hk).
  unfold release_kv_cache. rewrite Hi, E. run_bind. cbn [req_pool_idx set_freed]. rewrite Hi.
  unfold pop_overallocated_kv_cache. cbn [kv_overallocated_freed set_freed]. rewrite Hf2. run_bind.
  change (cache_commit_len strip (set_freed true false r)) with m. cbn [kv_allocated_len set_freed].
  assert (negb (no_spec && negb strip) || bool_decide (m = kv_allocated_len r) = true) as ->.
  { destruct no_spec, strip; simpl; try done. by apply bool_decide_eq_true_2, Hspec. }
  rewrite (decide_False (P := (1 < ps)%nat)) by lia.
  assert (Hfree : ∃ a2, (if decide (m < kv_allocated_len r)%nat
     then do! row <- row_at (pool (mkWorld t' a' (pool w))) i;
          Ok (set_kv (Allocator.free (slice m (kv_allocated_len r) row) (kv (mkWorld t' a' (pool w)))) (mkWorld t' a' (pool w)))
     else Ok (mkWorld t' a' (pool w))) = Ok (mkWorld t' a2 (pool w)) ∧ kv_ok a2 ∧
     ∀ x, free_count x a2 = free_count x a' + count x (slice m (kv_allocated_len r) row)).
  { case_decide as Hd.
    - unfold row_at. cbn [pool]. rewrite Hrow. run_bind. destruct (free_ok (slice m (kv_allocated_len r) row) a' Ha') as [Ha2 Hx2].
      eexists. split; [done|]. done.
    - exists a'. split; [done|]. split; [done|]. intros x. unfold slice. replace (kv_allocated_len r - m)%nat with 0%nat by lia.
      rewrite take_0, count_nil. lia. }
  destruct Hfree as (a2 & -> & Ha2 & Hx2). run_bind. unfold pool_free. cbn [req_pool_idx set_freed]. rewrite Hi. run_bind.
  do 2 eexists. split; [done|]. cbn [fst snd tree kv pool set_pool]. split; [done|]. split; [done|]. split; [done|]. split; [|split; [done|split; [done|split; [|done]]]].
  - destruct Hp as [Hr Hs]. split; [exact Hr|]. simpl. by rewrite <-app_assoc.
  - intros x. specialize (Hx x). unfold total. cbn [tree kv pool set_kv set_pool]. rewrite Hx2, (count_slice x (cache_protected_len r) m) by lia. lia.
Qed.

(** C16: [release_kv_cache] of a finished request never fails: the row returns to
    the table, the lock to the cache, and the slots the request owned (all it
    allocated beyond the protected prefix) are each freed or kept by the cache
    once: none leaks and none is freed twice. *)
Theorem release_kv_cache_spec no_spec ps ins r w L i row held :
  (ps ≤ 1)%nat → cache_ok (tree w) (node_of r ++ L) → kv_ok (kv w) → pool_ok (pool w) (i :: held) →
  req_pool_idx r = Some i → req_to_token (pool w) !! i = Some row →
  kv_committed_freed r = false → kv_overallocated_freed r = false →
  (cache_protected_len r ≤ cache_commit_len strip r ≤ kv_allocated_len r)%nat → (kv_allocated_len r ≤ length row)%nat →
  (cache_commit_len strip r ≤ length (origin_input_ids r ++ output_ids r))%nat →
  (no_spec = true → strip = false → cache_commit_len strip r = kv_allocated_len r) →
  claim (tree w) r (take (cache_commit_len strip r) (origin_input_ids r ++ output_ids r)) row →
  ∃ w' r', release_kv_cache strip no_spec ps ins r w = Ok (w', r') ∧ req_pool_idx r' = None ∧
    cache_ok (tree w') L ∧ kv_ok (kv w') ∧ pool_ok (pool w') held ∧ req_to_token (pool w') = req_to_token (pool w) ∧
    (∀ x, total x w' = total x w + count x (slice (cache_protected_len r) (kv_allocated_len r) row)) ∧
    (∀ r' ts' row', claim (tree w) r' ts' row' → claim (tree w') r' ts' row').
Proof.
  intros H1 H2 H3 H4 H5 H6 H7 H8 H9 H10 H11 H12 H13.
  destruct (release_kv_cache_ok no_spec ps ins r w L i row held H1 H2 H3 H4 H5 H6 H7 H8 H9 H10 H11 H12 H13)
    as (w' & r' & E & -> & Hc & Ha & Hp & Hrows & _ & Hx & Hk). do 2 eexists. done.
Qed.

End client_laws.

(** * A concrete run *)

(** A tree that holds slots 1 and 2 for the tokens 7, 8, two free slots, one row. *)
Definition demo_cache : RadixCache :=
  after (insert 1 false false clock (prompt [7; 8]) (Some [1; 2]) 0 false (new_cache clock)).

Definition demo_kv : Allocator := mkAlloc 4 1 true false [3] [4] true [].

Definition demo_pool (row : list Z) : ReqToTokenPool := mkPool 1 4 [[0; 0; 0; 0]; row] [].

Lemma demo_cache_rinv L : Forall (eq 0%nat) L → rinv 1 false (demo_cache, L).
Proof.
  intros HL. assert (Hr0 : rinv 1 false (new_cache clock, [])) by (apply rinv_reset; lia).
  assert (Hr1 : rinv 1 false (demo_cache, [])).
  { destruct (insert_longest 1 false clock ltac:(lia) (prompt [7; 8]) (Some [1; 2]) 0 false (new_cache clock) (proj1 Hr0) ltac:(done)
      ltac:(vm_compute; lia)) as (c & n & ws & E & _ & Hi).
    unfold demo_cache. rewrite E. cbn [after]. apply (rinv_same 1 false (new_cache clock)); [done|apply Hi..]. }
  destruct Hr1 as (Hw & Ho & _). assert (Hroot : root_node demo_cache = 0%nat) by (vm_compute; done).
  cbn [fst snd] in *. split; [exact Hw|]. split; cbn [fst snd].
  - intros i Hi. rewrite Ho by done. unfold nlocks. rewrite Hroot in Hi. rewrite (filter_none _ L); [done|].
    apply Forall_forall. intros j Hj ->. rewrite Forall_forall in HL. by specialize (HL i Hj).
  - intros i Hi. rewrite Forall_forall in HL. rewrite <-(HL i Hi). vm_compute. by eexists.
Qed.

#[local] Instance demo_prefix_cache : PrefixCache RadixCache := RadixPrefixCache 1 false false false LRUStrategy clock.
#[local] Instance demo_laws : PrefixCacheLaws RadixCache false := radix_laws 1 false false false LRUStrategy clock (le_n 1).

Lemma demo_kv_ok : kv_ok demo_kv.
Proof. split; [done|]. split; done. Qed.

(** Three slots although only two are free: the tree gives up its leaf. *)
Lemma alloc_token_slots_spec_witness :
  ∃ w' out, alloc_token_slots 3 (mkWorld demo_cache demo_kv (demo_pool [0; 0; 0; 0])) = Ok (w', out) ∧ lenZ out = 3.
Proof.
  pose proof (alloc_token_slots_spec 3 (mkWorld demo_cache demo_kv (demo_pool [0; 0; 0; 0])) []
    (demo_cache_rinv [] ltac:(constructor)) demo_kv_ok ltac:(lia)) as Hs.
  rewrite decide_True in Hs by (vm_compute; done).
  destruct Hs as (w' & out & E & Hl & _). exists w', out. exact (conj E Hl).
Defined.

(** A request that computed both tokens itself while they were cached. *)
Definition demo_run : Req := mkReq [7; 8] [] [7; 8] None None 0 0 false (Some 1%nat) [] (Some 0%nat) 0 2 2 false false.

Lemma demo_claim row : radix_claim false demo_cache demo_run [7; 8] row.
Proof. exists 0%nat. split; [done|]. split; [simpl; lia|]. split; [simpl; lia|]. simpl. vm_compute nheap. vm_compute root_node. constructor. Qed.

Lemma demo_pool_ok row : length row = 4%nat → pool_ok (demo_pool row) [1%nat].
Proof. intros Hl. split; [|done]. split; [done|]. repeat constructor. exact Hl. Qed.

Lemma release_kv_cache_spec_witness :
  ∃ w' r', release_kv_cache false true 1 true demo_run (mkWorld demo_cache demo_kv (demo_pool [3; 4; 0; 0])) = Ok (w', r') ∧
    req_pool_idx r' = None ∧ pool_ok (pool w') [].
Proof.
  destruct (release_kv_cache_spec true 1 true demo_run (mkWorld demo_cache demo_kv (demo_pool [3; 4; 0; 0])) [] 1 [3; 4; 0; 0] []
    ltac:(lia) (demo_cache_rinv [0%nat] ltac:(by repeat constructor)) demo_kv_ok (demo_pool_ok [3; 4; 0; 0] eq_refl) eq_refl eq_refl eq_refl eq_refl
    ltac:(vm_compute; lia) ltac:(vm_compute; lia) ltac:(vm_compute; lia) ltac:(done) (demo_claim [3; 4; 0; 0]))
    as (w' & r' & E & Hi & _ & _ & Hp & _).
  exists w', r'. exact (conj E (conj Hi Hp)).
Defined.

Lemma cache_unfinished_req_spec_witness :
  ∃ t' a' p' r' row', cache_unfinished_req 1 false false clock false demo_run (mkWorld demo_cache demo_kv (demo_pool [3; 4; 0; 0]))
      = Ok (mkWorld t' a' p', r') ∧
    cached 1 t' None [(7, None); (8, None)] (take 2 row') ∧ cache_protected_len r' = 2%nat.
Proof.
  destruct (cache_unfinished_req_spec 1 false clock ltac:(lia) false demo_run (mkWorld demo_cache demo_kv (demo_pool [3; 4; 0; 0])) []
    1 [3; 4; 0; 0] [1%nat] (demo_cache_rinv [0%nat] ltac:(by repeat constructor)) demo_kv_ok (demo_pool_ok [3; 4; 0; 0] eq_refl) eq_refl eq_refl
    ltac:(vm_compute; lia) (demo_claim [3; 4; 0; 0]))
    as (t' & a' & p' & r' & row' & n & E & _ & _ & _ & _ & Hc & -> & Hn & _).
  exists t', a', p', r', row'. exact (conj E (conj Hc Hn)).
Defined.
