(* ===== verification/KvSystem.v ===== *)
(** The life of the KV slots of a server: requests enter with a match of their
    prompt ([Req.init_next_round_input]), extend and decode in batches
    ([alloc_for_extend], [alloc_for_decode], [write_cache_indices] of
    [mem_cache/common.py], called from [prepare_for_extend] and
    [prepare_for_decode]), are cached between chunks, and leave through
    [release_kv_cache].  Every step is the composition of the operations of the
    other files; the theorems hold for every cache that meets [PrefixCacheLaws].

    Speculative decoding and the stripping of thinking tokens are off, so that a
    request has no slots beyond its committed ones; allocation in the theorems is
    by single slots ([page_size = 1]). *)

From S2P Require Import Prelude Tensor VisiblePlan Allocator RadixKey RadixCache RadixOps RadixSpec ReqPool ReqCache.

Open Scope Z_scope.

Section batch.
(** [torch.empty] is a parameter of the paged allocations. *)
Context {T : Type} {PC : PrefixCache T} (uninit : Z → list Z) (page_size : nat).

(** ** Entering *)

Definition compute_max_prefix_len (return_logprob : bool) (logprob_start_len : Z) (input_len : nat) : nat :=
  let m := Z.of_nat input_len - 1 in
  let m := if return_logprob && bool_decide (0 ≤ logprob_start_len) then m `min` logprob_start_len else m in
  Z.to_nat (m `max` 0).

(** [init_next_round_input] with a tree, and the lock [PrefillAdder] takes on the node matched. *)
Definition init_next_round_input (return_logprob : bool) (logprob_start_len : Z) (r : Req) (t : T) : result (T * Req) :=
  let fill := origin_input_ids r ++ output_ids r in
  let ids := take (compute_max_prefix_len return_logprob logprob_start_len (length fill)) fill in
  do! m <- match_req (mkKey ids (req_extra_key r) false) t;
  let '(t, idx, node) := m in
  Ok (t, set_prefix idx node (length idx) (set_tokens (output_ids r) fill r)).

Definition req_inc_lock_ref (r : Req) (t : T) : result T := lock_node (last_node r) t.

(** The chunk of a prompt that fits: [fill_ids] cut after the prefix ([add_chunked_req]). *)
Definition truncate_fill (extend_input_len : nat) (r : Req) : Req :=
  set_tokens (output_ids r) (take (length (prefix_indices r) + extend_input_len) (fill_ids r)) r.

(** [init_next_round_input] without a tree: the next chunk of a request that keeps its row. *)
Definition next_chunk (r : Req) : Req := set_tokens (output_ids r) (origin_input_ids r ++ output_ids r) r.

(** ** Extension *)

(** [l[a:b]]. *)
Definition py_slice {A} (a b : Z) (l : list A) : list A :=
  let pos i := Z.to_nat (if bool_decide (i < 0) then i + lenZ l else i) in slice (pos a) (pos b) l.

(** [write_cache_indices]: per request its prefix, then its part of the new slots, as many as
    its [extend_input_len]; [pt] is where that part begins. *)
Fixpoint write_cache_indices (pt : Z) (out_cache_loc : list Z) (reqs : list Req) (extend_lens : list Z) (p : ReqToTokenPool) : result ReqToTokenPool :=
  match reqs, extend_lens with
  | r :: reqs, extend_len :: extend_lens =>
      let prefix_len := length (prefix_indices r) in
      let seq_len := length (fill_ids r) in
      do! i <- row_index r;
      do! p <- pool_write i 0 prefix_len (prefix_indices r) p;
      do! p <- pool_write i prefix_len seq_len (py_slice pt (pt + extend_len) out_cache_loc) p;
      write_cache_indices (pt + extend_len) out_cache_loc reqs extend_lens p
  | _, _ => Ok p
  end.

Definition alloc_req_slots (reqs : list Req) (p : ReqToTokenPool) : result (ReqToTokenPool * list Req) :=
  do! a <- pool_alloc reqs p;
  match a with Some (p, rs, _) => Ok (p, rs) | None => Raise RuntimeError end.

Definition extend_num_tokens (reqs : list Req) : nat :=
  sum_list ((fun r => length (fill_ids r) - length (prefix_indices r)) <$> reqs)%nat.

(** [alloc_paged_token_slots_extend]. *)
Definition alloc_paged_token_slots_extend (reqs : list Req) (w : World T) : result (World T * list Z) :=
  let prefix_lens := (fun r => Z.of_nat (length (prefix_indices r))) <$> reqs in
  let seq_lens := (fun r => Z.of_nat (length (fill_ids r))) <$> reqs in
  let last_loc := (fun r => default (-1) (last (prefix_indices r))) <$> reqs in
  let n := Z.of_nat (extend_num_tokens reqs) in
  do! w <- evict_from_tree_cache (n + lenZ seq_lens * Allocator.page_size (kv w)) w;
  do! r <- alloc_extend uninit prefix_lens seq_lens last_loc n None (kv w);
  match r with
  | (a, Some out_cache_loc) => Ok (set_kv a w, out_cache_loc)
  | (_, None) => Raise RuntimeError
  end.

(** [extend_lens]: [req.extend_input_len] of each request. *)
Definition alloc_for_extend (reqs : list Req) (extend_lens : list Z) (w : World T) : result (World T * list Req * list Z) :=
  do! a <- alloc_req_slots reqs (pool w);
  let '(p, rs) := a in
  let w := set_pool p w in
  do! o <- (if decide (page_size = 1)%nat then alloc_token_slots (Z.of_nat (extend_num_tokens rs)) w
            else alloc_paged_token_slots_extend rs w);
  let '(w, out_cache_loc) := o in
  do! p <- write_cache_indices 0 out_cache_loc rs extend_lens (pool w);
  Ok (set_pool p w, rs, out_cache_loc).

(** The KV side of [prepare_for_extend], on requests with the given [extend_input_len]. *)
Definition prepare_for_extend (reqs : list Req) (extend_lens : list Z) (w : World T) : result (World T * list Req * list Z) :=
  do! a <- alloc_for_extend reqs extend_lens w;
  let '(w, rs, out) := a in
  assert! forallb (fun x => bool_decide (Z.of_nat (length (fill_ids x.1)) - Z.of_nat (length (prefix_indices x.1)) = x.2)) (zip rs extend_lens);
  Ok (w, (fun r => set_lens (length (fill_ids r)) (length (fill_ids r)) r) <$> rs, out).

(** ** Decoding *)

Fixpoint put_locs (out_cache_loc : list Z) (reqs : list Req) (p : ReqToTokenPool) : result ReqToTokenPool :=
  match reqs, out_cache_loc with
  | r :: reqs, x :: out =>
      do! i <- row_index r;
      do! p <- pool_put i (kv_committed_len r) x p;
      put_locs out reqs p
  | _, _ => Ok p
  end.

(** [alloc_paged_token_slots_decode]; [last_loc] is read off the rows. *)
Definition alloc_paged_token_slots_decode (reqs : list Req) (w : World T) : result (World T * list Z) :=
  do! last_loc <- traverse (fun r => do! i <- row_index r; do! row <- row_at (pool w) i;
                                     py_get row (Z.of_nat (kv_committed_len r) - 1)) reqs;
  let seq_lens_next := (fun r => Z.of_nat (kv_committed_len r) + 1) <$> reqs in
  do! w <- evict_from_tree_cache (lenZ reqs * Allocator.page_size (kv w)) w;
  do! r <- alloc_decode uninit seq_lens_next last_loc (kv w);
  match r with
  | (a, Some out_cache_loc) => Ok (set_kv a w, out_cache_loc)
  | (_, None) => Raise RuntimeError
  end.

(** [alloc_for_decode] with one token per request; the sequence lengths of the batch are the committed lengths. *)
Definition alloc_for_decode (reqs : list Req) (w : World T) : result (World T * list Z) :=
  do! o <- (if decide (page_size = 1)%nat then alloc_token_slots (lenZ reqs) w else alloc_paged_token_slots_decode reqs w);
  let '(w, out_cache_loc) := o in
  do! p <- put_locs out_cache_loc reqs (pool w);
  Ok (set_pool p w, out_cache_loc).

(** The KV side of [prepare_for_decode]. *)
Definition prepare_for_decode (reqs : list Req) (w : World T) : result (World T * list Req * list Z) :=
  do! a <- alloc_for_decode reqs w;
  let '(w, out) := a in
  Ok (w, (fun r => set_lens (S (kv_committed_len r)) (S (kv_allocated_len r)) r) <$> reqs, out).

End batch.

(** * Rows and batches *)

Definition row_of (p : ReqToTokenPool) (r : Req) : list Z :=
  match req_pool_idx r with Some i => default [] (req_to_token p !! i) | None => prefix_indices r end.

Lemma row_of_at p r i row : req_pool_idx r = Some i → req_to_token p !! i = Some row → row_of p r = row.
Proof. intros Hi Hr. unfold row_of. by rewrite Hi, Hr. Qed.

(** A row of the table, and other tables that agree on it. *)
Definition has_row (p : ReqToTokenPool) (r : Req) : Prop :=
  ∃ i row, req_pool_idx r = Some i ∧ req_to_token p !! i = Some row ∧ length row = max_context_len p.

Lemma row_of_same p p' r :
  (∀ i, req_pool_idx r = Some i → req_to_token p' !! i = req_to_token p !! i) → row_of p' r = row_of p r.
Proof. intros Hi. unfold row_of. destruct (req_pool_idx r) as [i|]; [|done]. by rewrite Hi. Qed.

Lemma has_row_write p held i row row' p' r :
  pool_ok p held → req_to_token p !! i = Some row → length row' = length row →
  req_to_token p' = <[i := row']> (req_to_token p) → max_context_len p' = max_context_len p → has_row p r → has_row p' r.
Proof.
  intros [[_ Hf] _] Hi Hl Hp Hc (j & rj & Hj & Hrj & Hlj). destruct (decide (i = j)) as [->|Hne].
  - exists j, row'. rewrite Hp, Hc, list_lookup_insert_eq by (by eapply lookup_lt_Some). split_and!; [done|done|].
    rewrite Hrj in Hi. injection Hi as ->. lia.
  - exists j, rj. rewrite Hp, Hc, list_lookup_insert_ne by done. done.
Qed.

Lemma row_of_write p i row' p' r :
  req_to_token p' = <[i := row']> (req_to_token p) → req_pool_idx r ≠ Some i → row_of p' r = row_of p r.
Proof. intros Hp Hr. apply row_of_same. intros j Hj. rewrite Hp, list_lookup_insert_ne by congruence. done. Qed.

Definition extendable (p : ReqToTokenPool) (r : Req) : Prop :=
  has_row p r ∧ (length (prefix_indices r) ≤ length (fill_ids r) ≤ max_context_len p)%nat.

Definition sum_over (f : Req → Z) (rs : list Req) : Z := sumZ (f <$> rs).

Lemma sum_over_app f l k : sum_over f (l ++ k) = sum_over f l + sum_over f k.
Proof. unfold sum_over. by rewrite fmap_app, sumZ_app. Qed.

Lemma sum_over_cons f r l : sum_over f (r :: l) = f r + sum_over f l.
Proof. done. Qed.

Lemma sum_over_perm f l k : l ≡ₚ k → sum_over f l = sum_over f k.
Proof. intros Hp. unfold sum_over. apply sumZ_perm. by rewrite Hp. Qed.

Lemma sum_over_ext f g l : (∀ r, r ∈ l → f r = g r) → sum_over f l = sum_over g l.
Proof.
  induction l as [|r l IH]; intros Hfg; [done|]. rewrite !sum_over_cons, Hfg, IH by set_solver. done.
Qed.

Lemma idx_elem r i (l : list Req) : r ∈ l → req_pool_idx r = Some i → i ∈ omap req_pool_idx l.
Proof. intros Hr Hi. apply list_elem_of_omap. eauto. Qed.

(** The tokens a request still has to run, which [extend_input_len] has to be. *)
Definition to_run (r : Req) : Z := Z.of_nat (length (fill_ids r)) - Z.of_nat (length (prefix_indices r)).

(** [write_cache_indices] when every [extend_input_len] is right: each request takes its slots off the front. *)
Fixpoint write_parts (out_cache_loc : list Z) (reqs : list Req) (p : ReqToTokenPool) : result ReqToTokenPool :=
  match reqs with
  | [] => Ok p
  | r :: reqs =>
      let prefix_len := length (prefix_indices r) in
      let seq_len := length (fill_ids r) in
      do! i <- row_index r;
      do! p <- pool_write i 0 prefix_len (prefix_indices r) p;
      do! p <- pool_write i prefix_len seq_len (take (seq_len - prefix_len) out_cache_loc) p;
      write_parts (drop (seq_len - prefix_len) out_cache_loc) reqs p
  end.

Lemma write_indices_parts reqs : ∀ (k : nat) out p,
  Forall (fun r => length (prefix_indices r) ≤ length (fill_ids r))%nat reqs →
  write_cache_indices (Z.of_nat k) out reqs (to_run <$> reqs) p = write_parts (drop k out) reqs p.
Proof.
  induction reqs as [|r reqs IH]; intros k out p Hle; [done|]. apply Forall_cons in Hle as [Hr Hle].
  rewrite fmap_cons. cbn [write_cache_indices write_parts]. destruct (row_index r) as [i|]; run_bind; [|done].
  destruct (pool_write i 0 _ _ p) as [p1|]; run_bind; [|done].
  assert (Hk : Z.of_nat k + to_run r = Z.of_nat (k + (length (fill_ids r) - length (prefix_indices r)))) by (unfold to_run; lia). rewrite Hk.
  unfold py_slice. rewrite !bool_decide_eq_false_2 by lia. rewrite !Nat2Z.id. unfold slice.
  rewrite Nat.add_comm, Nat.add_sub. destruct (pool_write i _ _ _ p1) as [p2|]; run_bind; [|done].
  rewrite drop_drop, (Nat.add_comm k). apply (IH (_ + _)%nat out p2 Hle).
Qed.

(** The assertion of [prepare_for_extend]. *)
Lemma lens_checked reqs : ∀ lens, length lens = length reqs →
  forallb (fun x => bool_decide (Z.of_nat (length (fill_ids x.1)) - Z.of_nat (length (prefix_indices x.1)) = x.2)) (zip reqs lens) = true ↔ lens = to_run <$> reqs.
Proof.
  induction reqs as [|r reqs IH]; intros [|n lens] Hl; try done. injection Hl as Hl. cbn. rewrite andb_true_iff, (IH lens Hl), bool_decide_eq_true. unfold to_run at 2.
  split; [intros [<- ->]; done|]. intros [= -> ->]. done.
Qed.

(** The rows after [write_cache_indices]: prefix, new slots, the old rest. *)
Lemma write_rows_ok reqs : ∀ p held out,
  pool_ok p held → Forall (extendable p) reqs → NoDup (omap req_pool_idx reqs) → length out = extend_num_tokens reqs →
  ∃ p', write_parts out reqs p = Ok p' ∧ pool_ok p' held ∧ max_context_len p' = max_context_len p ∧
    (∀ i, i ∉ omap req_pool_idx reqs → req_to_token p' !! i = req_to_token p !! i) ∧
    Forall (fun r => has_row p' r ∧ take (length (prefix_indices r)) (row_of p' r) = prefix_indices r) reqs ∧
    (∀ x, sum_over (fun r => count x (slice (length (prefix_indices r)) (length (fill_ids r)) (row_of p' r))) reqs = count x out).
Proof.
  induction reqs as [|r reqs IH]; intros p held out Hp Hex Hnd Hout.
  { exists p. simpl. split_and!; try done. intros x. change (extend_num_tokens []) with 0%nat in Hout.
    by rewrite (nil_length_inv out Hout). }
  apply Forall_cons in Hex as [[(i & row & Hi & Hrow & Hlr) Hlen] Hex].
  rewrite idx_cons, Hi in Hnd. cbn [app] in Hnd. apply NoDup_cons in Hnd as [Hir Hnd].
  set (pre := length (prefix_indices r)) in *. set (sq := length (fill_ids r)) in *.
  assert (Hsum : extend_num_tokens (r :: reqs) = ((sq - pre) + extend_num_tokens reqs)%nat) by done. rewrite Hsum in Hout.
  cbn [write_parts]. fold pre sq. unfold row_index. rewrite Hi. run_bind.
  destruct (pool_write_ok p held i row 0 pre (prefix_indices r) Hp Hrow ltac:(lia) ltac:(lia) ltac:(lia))
    as (p1 & -> & Hp1 & Hrows1 & _ & Hc1 & _). run_bind. rewrite take_0, app_nil_l in Hrows1.
  set (row1 := prefix_indices r ++ drop pre row) in *.
  assert (Hrow1 : req_to_token p1 !! i = Some row1) by (rewrite Hrows1; apply list_lookup_insert_eq; by eapply lookup_lt_Some).
  assert (Hl1 : length row1 = length row) by (unfold row1; len_lia).
  set (seg := take (sq - pre) out). assert (Hseg : length seg = (sq - pre)%nat) by (unfold seg; len_lia).
  destruct (pool_write_ok p1 held i row1 pre sq seg Hp1 Hrow1 ltac:(lia) ltac:(lia) Hseg)
    as (p2 & -> & Hp2 & Hrows2 & _ & Hc2 & _). run_bind.
  assert (Hr2 : take pre row1 ++ seg ++ drop sq row1 = prefix_indices r ++ seg ++ drop sq row).
  { unfold row1. rewrite take_app_eq by done. rewrite drop_app, (drop_ge (prefix_indices r)) by lia.
    rewrite drop_drop. fold pre. simpl. do 3 f_equal. lia. }
  rewrite Hr2 in Hrows2. set (row2 := prefix_indices r ++ seg ++ drop sq row) in *.
  assert (Hl2 : length row2 = length row) by (unfold row2; rewrite !length_app, length_drop; fold pre; lia).
  assert (Hrow2 : req_to_token p2 !! i = Some row2).
  { rewrite Hrows2. apply list_lookup_insert_eq. rewrite Hrows1, length_insert. by eapply lookup_lt_Some. }
  assert (Hoth : ∀ j, j ≠ i → req_to_token p2 !! j = req_to_token p !! j).
  { intros j Hj. by rewrite Hrows2, list_lookup_insert_ne, Hrows1, list_lookup_insert_ne by done. }
  assert (Hidx : ∀ r', r' ∈ reqs → req_pool_idx r' ≠ Some i) by (intros r' Hr' E; apply Hir; by eapply idx_elem).
  destruct (IH p2 held (drop (sq - pre) out)) as (p3 & E3 & Hp3 & Hc3 & Hoth3 & Hall3 & Hsum3); [done| |done|len_lia|].
  { rewrite Forall_forall in Hex |- *. intros r' Hr'. destruct (Hex r' Hr') as [(j & rj & Hj & Hrj & Hlj) Hle].
    unfold extendable, has_row. rewrite Hc2, Hc1. split; [|done]. exists j, rj. rewrite Hoth by (intros ->; by apply (Hidx r' Hr')). done. }
  rewrite E3. exists p3.
  assert (Hrow3 : req_to_token p3 !! i = Some row2) by (by rewrite Hoth3).
  assert (Hro : row_of p3 r = row2) by (by eapply row_of_at).
  split; [done|]. split; [done|]. split; [by rewrite Hc3, Hc2, Hc1|]. split; [|split].
  - intros j. rewrite idx_cons, Hi. cbn [app]. intros [Hji Hj]%not_elem_of_cons. by rewrite Hoth3, Hoth.
  - constructor; [|done]. split.
    + exists i, row2. rewrite Hc3, Hc2, Hc1, Hl2. done.
    + rewrite Hro. unfold row2. by apply take_app_eq.
  - intros x. rewrite sum_over_cons, Hsum3, Hro, (count_split x (sq - pre) out). f_equal.
    fold pre sq. unfold row2, slice. by rewrite drop_app_eq, take_app_eq by done.
Qed.

Lemma slice_one {A} n x (row : list A) : (n < length row)%nat → slice n (S n) (<[n := x]> row) = [x].
Proof.
  intros Hn. unfold slice. replace (S n - n)%nat with 1%nat by lia.
  rewrite drop_insert_ge by lia. rewrite Nat.sub_diag. pose proof (length_drop row n) as Hl. destruct (drop n row) as [|y l]; [simpl in Hl; lia|].
  done.
Qed.

(** The rows after a decode step: one more slot each. *)
Lemma put_locs_ok reqs : ∀ p held out,
  pool_ok p held → Forall (fun r => has_row p r ∧ (kv_committed_len r < max_context_len p)%nat) reqs →
  NoDup (omap req_pool_idx reqs) → length out = length reqs →
  ∃ p', put_locs out reqs p = Ok p' ∧ pool_ok p' held ∧ max_context_len p' = max_context_len p ∧
    (∀ i, i ∉ omap req_pool_idx reqs → req_to_token p' !! i = req_to_token p !! i) ∧
    Forall (fun r => has_row p' r ∧ take (kv_committed_len r) (row_of p' r) = take (kv_committed_len r) (row_of p r)) reqs ∧
    (∀ x, sum_over (fun r => count x (slice (kv_committed_len r) (S (kv_committed_len r)) (row_of p' r))) reqs = count x out).
Proof.
  induction reqs as [|r reqs IH]; intros p held out Hp Hex Hnd Hout.
  { rewrite (nil_length_inv out Hout). exists p. by split_and!. }
  destruct out as [|x0 out]; [done|]. apply Nat.succ_inj in Hout.
  apply Forall_cons in Hex as [[(i & row & Hi & Hrow & Hlr) Hlen] Hex].
  rewrite idx_cons, Hi in Hnd. cbn [app] in Hnd. apply NoDup_cons in Hnd as [Hir Hnd].
  cbn [put_locs]. unfold row_index. rewrite Hi. run_bind. set (n := kv_committed_len r) in *.
  destruct (pool_put_ok p held i row n x0 Hp Hrow ltac:(lia)) as (p1 & -> & Hp1 & Hrows1 & Hc1). run_bind.
  set (row1 := <[n := x0]> row) in *. assert (Hl1 : length row1 = length row) by (unfold row1; apply length_insert).
  assert (Hrow1 : req_to_token p1 !! i = Some row1) by (rewrite Hrows1; apply list_lookup_insert_eq; by eapply lookup_lt_Some).
  assert (Hoth : ∀ j, j ≠ i → req_to_token p1 !! j = req_to_token p !! j).
  { intros j Hj. by rewrite Hrows1, list_lookup_insert_ne by done. }
  assert (Hidx : ∀ r', r' ∈ reqs → req_pool_idx r' ≠ Some i) by (intros r' Hr' E; apply Hir; by eapply idx_elem).
  assert (Hsame : ∀ r', r' ∈ reqs → row_of p1 r' = row_of p r') by (intros r' Hr'; by eapply row_of_write; [|apply Hidx]).
  destruct (IH p1 held out) as (p2 & E2 & Hp2 & Hc2 & Hoth2 & Hall2 & Hsum2); [done| |done|done|].
  { rewrite Forall_forall in Hex |- *. intros r' Hr'. destruct (Hex r' Hr') as [(j & rj & Hj & Hrj & Hlj) Hle].
    unfold has_row. rewrite Hc1. split; [|done]. exists j, rj. rewrite Hoth by (intros ->; by apply (Hidx r' Hr')). done. }
  rewrite E2. exists p2. assert (Hro : row_of p2 r = row1) by (eapply row_of_at; [done|]; by rewrite Hoth2).
  split; [done|]. split; [done|]. split; [by rewrite Hc2|]. split; [|split].
  - intros j. rewrite idx_cons, Hi. cbn [app]. intros [Hji Hj]%not_elem_of_cons. by rewrite Hoth2, Hoth.
  - constructor.
    + split; [exists i, row1; rewrite Hc2, Hc1, Hl1, Hoth2 by done; done|]. rewrite Hro, (row_of_at p r i row Hi Hrow).
      unfold row1. by rewrite take_insert_ge by lia.
    + rewrite Forall_forall in Hall2 |- *. intros r' Hr'. rewrite <-(Hsame r' Hr'). by apply Hall2.
  - intros x. rewrite sum_over_cons, Hsum2, Hro. fold n. unfold row1. rewrite slice_one by lia. by rewrite <-count_app.
Qed.

Lemma count_NoDup x l : NoDup l → count x l = if decide (x ∈ l) then 1 else 0.
Proof.
  induction 1 as [|y l Hy _ IH]; [done|]. change (y :: l) with ([y] ++ l). rewrite count_app, IH. unfold count. rewrite filter_cons, filter_nil.
  repeat case_decide; simpl; set_solver by lia.
Qed.

(** * The system *)

Definition tokens (r : Req) : list Z := origin_input_ids r ++ output_ids r.

(** The slots a request holds beyond its cached prefix. *)
Definition owned (p : ReqToTokenPool) (r : Req) : list Z :=
  slice (cache_protected_len r) (kv_allocated_len r) (row_of p r).

Definition nodes (rs : list Req) : list nat := concat (node_of <$> rs).

Section system.
Context {T : Type} {PC : PrefixCache T} {PL : PrefixCacheLaws T false} (uninit : Z → list Z).

Definition req_inv (t : T) (p : ReqToTokenPool) (r : Req) : Prop :=
  kv_committed_freed r = false ∧ kv_overallocated_freed r = false ∧ fill_ids r `prefix_of` tokens r ∧
  kv_allocated_len r = kv_committed_len r ∧ (kv_committed_len r ≤ length (tokens r))%nat ∧
  match req_pool_idx r with
  | Some _ => has_row p r ∧ (cache_protected_len r ≤ kv_committed_len r ≤ max_context_len p)%nat ∧
      claim t r (take (kv_committed_len r) (tokens r)) (row_of p r)
  | None => kv_committed_len r = 0%nat ∧ cache_protected_len r = length (prefix_indices r) ∧
      claim t r (tokens r) (prefix_indices r)
  end.

(** Cache, allocator and table are consistent with the running requests, and each
    of the [N] slots is free, cached or owned by one request, once. *)
Record sys_inv (N : Z) (w : World T) (rs : list Req) : Prop := {
  si_cache : cache_ok (tree w) (nodes rs);
  si_kv : kv_ok (kv w);
  si_pool : pool_ok (pool w) (omap req_pool_idx rs);
  si_reqs : Forall (req_inv (tree w) (pool w)) rs;
  si_slots : ∀ x, total x w + sum_over (fun r => count x (owned (pool w) r)) rs = if decide (1 ≤ x ≤ N) then 1 else 0;
}.

Lemma nodes_perm rs rs' : rs ≡ₚ rs' → nodes rs ≡ₚ nodes rs'.
Proof.
  unfold nodes. induction 1 as [|r l k _ IH|a b l|l k m _ IH1 _ IH2]; cbn; [done| | |by etrans].
  - by rewrite IH.
  - rewrite !app_assoc. by rewrite (Permutation_app_comm (node_of a)).
Qed.

Lemma sys_inv_perm N w rs rs' : rs ≡ₚ rs' → sys_inv N w rs → sys_inv N w rs'.
Proof.
  intros Hp [H1 H2 [H3a H3b] H4 H5]. split; [|done| | |].
  - by eapply cache_ok_perm; [apply nodes_perm|].
  - split; [done|]. by rewrite <-Hp.
  - by rewrite <-Hp.
  - intros x. by rewrite <-(sum_over_perm _ _ _ Hp).
Qed.

(** What happens to requests a step does not concern. *)
Lemma req_inv_mono t p t' p' r :
  req_inv t p r → (∀ ts row, claim t r ts row → claim t' r ts row) → max_context_len p' = max_context_len p →
  (∀ i, req_pool_idx r = Some i → req_to_token p' !! i = req_to_token p !! i) →
  req_inv t' p' r ∧ owned p' r = owned p r.
Proof.
  intros (H1 & H2 & H3 & H4 & H5 & H6) Hcl Hc Hrow. pose proof (row_of_same p p' r Hrow) as Hro.
  split; [|unfold owned; by rewrite Hro]. refine (conj H1 (conj H2 (conj H3 (conj H4 (conj H5 _))))).
  destruct (req_pool_idx r) as [i|] eqn:Hi; [|naive_solver]. destruct H6 as ((j & row & Hj & Hr & Hl) & Hle & Hk).
  rewrite Hro, Hc. split; [|split; [done|by apply Hcl]]. exists j, row. rewrite Hc. split; [done|]. split; [|done].
  rewrite Hrow by congruence. done.
Qed.

(** The rest of the requests after a step. *)
Lemma others_ok t p t' p' os :
  Forall (req_inv t p) os → (∀ r ts row, r ∈ os → claim t r ts row → claim t' r ts row) →
  max_context_len p' = max_context_len p → (∀ i, i ∈ omap req_pool_idx os → req_to_token p' !! i = req_to_token p !! i) →
  Forall (req_inv t' p') os ∧ (∀ x, sum_over (fun r => count x (owned p' r)) os = sum_over (fun r => count x (owned p r)) os).
Proof.
  intros Hf Hcl Hc Hrow. rewrite Forall_forall in Hf.
  assert (Hall : ∀ r, r ∈ os → req_inv t' p' r ∧ owned p' r = owned p r).
  { intros r Hr. apply (req_inv_mono t p); [by apply Hf|intros ts row; by apply Hcl|done|].
    intros i Hi. apply Hrow. by eapply idx_elem. }
  split; [apply Forall_forall; intros r Hr; by apply Hall|].
  intros x. apply sum_over_ext. intros r Hr. by destruct (Hall r Hr) as [_ ->].
Qed.

Lemma node_in r rs j : r ∈ rs → last_node r = Some j → j ∈ nodes rs.
Proof.
  intros Hr. unfold nodes. induction Hr as [|? ? ? _ IH]; intros Hj; cbn; apply elem_of_app; [left|right; by apply IH].
  unfold node_of. rewrite Hj. left.
Qed.

(** ** Eviction *)

(** Eviction moves slots from the cache to the free lists: enough of them, or all it can. *)
Lemma evict_room N w rs n :
  sys_inv N w rs →
  ∃ w', evict_from_tree_cache n w = Ok w' ∧ sys_inv N w' rs ∧ pool w' = pool w ∧
    available_size (kv w') + evictable (tree w') = available_size (kv w) + evictable (tree w) ∧
    (n ≤ available_size (kv w') ∨ evictable (tree w') = 0).
Proof.
  intros [H1 H2 H3 H4 H5]. destruct (evict_from_spec n w (nodes rs) H1 H2) as (w' & E & Hc & Ha & Hp & Ht & Hsum & Hor & Hk).
  exists w'. split; [done|]. destruct (others_ok (tree w) (pool w) (tree w') (pool w') rs H4) as [Hr Hs]; [|by rewrite Hp|by rewrite Hp|].
  { intros r ts row Hr. apply Hk. intros j. by apply node_in. }
  split; [|done]. split; [done|done|by rewrite Hp|done|]. intros x. by rewrite Ht, Hs.
Qed.

Lemma evict_inv N w rs n : sys_inv N w rs → ∃ w', evict_from_tree_cache n w = Ok w' ∧ sys_inv N w' rs.
Proof. intros Hs. destruct (evict_room N w rs n Hs) as (w' & E & Hs' & _). by exists w'. Qed.

(** ** Leaving *)

Lemma finish_inv N w r os ins :
  sys_inv N w (r :: os) → req_pool_idx r ≠ None →
  ∃ w' r', release_kv_cache false true 1 ins r w = Ok (w', r') ∧ sys_inv N w' os ∧ r' = set_pool_idx None (set_freed true true r) ∧
    max_context_len (pool w') = max_context_len (pool w).
Proof.
  intros [H1 H2 H3 H4 H5] Hidx. apply Forall_cons in H4 as [Hr Hos]. destruct Hr as (F1 & F2 & Hfill & Hal & Htok & Hrow).
  destruct (req_pool_idx r) as [i|] eqn:Hi; [|done]. destruct Hrow as ((j & row & Hj & Hrow & Hl) & Hle & Hcl).
  rewrite Hi in Hj. injection Hj as <-. rewrite (row_of_at _ _ _ _ Hi Hrow) in Hcl. rewrite idx_cons, Hi in H3. cbn [app] in H3.
  assert (Hcm : cache_commit_len false r = kv_committed_len r) by done.
  destruct (release_kv_cache_ok true 1 ins r w (nodes os) i row (omap req_pool_idx os))
    as (w' & r' & E & Hnone & Hc' & Ha' & Hp' & Hrows & Hctx & Hx & Hk); rewrite ?Hcm; try done; [lia|lia|].
  exists w', r'. split; [done|]. split; [|done].
  destruct (others_ok (tree w) (pool w) (tree w') (pool w') os Hos) as [Hr' Hs]; [|done|by intros; rewrite Hrows|].
  { intros r0 ts row0 _. apply Hk. }
  split; [done|done|done|done|]. intros x. specialize (H5 x). rewrite sum_over_cons in H5. rewrite Hx, Hs, <-H5.
  unfold owned. rewrite (row_of_at _ _ _ _ Hi Hrow). lia.
Qed.

(** ** Entering *)

Definition fresh (r : Req) : Prop :=
  req_pool_idx r = None ∧ kv_committed_len r = 0%nat ∧ kv_allocated_len r = 0%nat ∧
  kv_committed_freed r = false ∧ kv_overallocated_freed r = false.

Lemma slice_nil {A} a b (l : list A) : (b ≤ a)%nat → slice a b l = [].
Proof. intros Hb. unfold slice. by replace (b - a)%nat with 0%nat by lia. Qed.

Lemma max_prefix_le b l n : (compute_max_prefix_len b l n ≤ n)%nat.
Proof. unfold compute_max_prefix_len. destruct (b && _); lia. Qed.

(** A request that holds a lock on its match joins the others. *)
Lemma enter_world N w rs t2 r :
  sys_inv N w rs → cache_ok t2 (node_of r ++ nodes rs) → (∀ x, holds x t2 = holds x (tree w)) →
  (∀ r ts row, claim (tree w) r ts row → claim t2 r ts row) → fresh r → fill_ids r = tokens r →
  cache_protected_len r = length (prefix_indices r) → claim t2 r (tokens r) (prefix_indices r) →
  sys_inv N (set_tree t2 w) (r :: rs).
Proof.
  intros [H1 H2 H3 H4 H5] Hc2 Hh Hk (Hi & Hc & Ha & Hf1 & Hf2) Hfill Hprot Hcl.
  assert (Hown : ∀ p, owned p r = []) by (intros p; apply slice_nil; lia).
  destruct (others_ok (tree w) (pool w) t2 (pool w) rs H4) as [Hos Hs]; [|done|done|].
  { intros r0 ts row _. apply Hk. }
  split; [exact Hc2|done| | |].
  - rewrite idx_cons. cbn. by rewrite Hi.
  - constructor; [|exact Hos]. unfold req_inv. rewrite Hc, Ha, Hi, Hfill. split_and!; try done. lia.
  - intros x. rewrite sum_over_cons, Hown, count_nil, <-H5. unfold total. cbn [tree kv pool set_tree]. rewrite Hh. lia.
Qed.

Lemma enter_inv N w rs r b l :
  sys_inv N w rs → fresh r →
  ∃ t1 r' t2, init_next_round_input b l r (tree w) = Ok (t1, r') ∧ req_inc_lock_ref r' t1 = Ok t2 ∧
    sys_inv N (set_tree t2 w) (r' :: rs).
Proof.
  intros Hs Hf. set (ids := take (compute_max_prefix_len b l (length (tokens r))) (tokens r)).
  destruct (start_law (tree w) (nodes rs) ids (req_extra_key r) (si_cache _ _ _ Hs)) as (t1 & vs & node & t2 & E1 & E2 & Hc2 & Hh & Hlv & Hcl & Hk).
  set (r' := set_prefix vs node (length vs) (set_tokens (output_ids r) (tokens r) r)).
  exists t1, r', t2. split; [|split; [exact E2|]].
  { unfold init_next_round_input. fold (tokens r). fold ids. rewrite E1. done. }
  apply enter_world; try done. apply (claim_ext t2 r' ids vs r' (tokens r) vs); try done; [by apply Hcl|apply prefix_take].
Qed.

(** ** Between batches *)

(** A change of tokens that keeps the committed ones. *)
Lemma retoken_inv N w r os out fill :
  sys_inv N w (r :: os) → fill `prefix_of` origin_input_ids r ++ out → output_ids r `prefix_of` out →
  sys_inv N w (set_tokens out fill r :: os).
Proof.
  intros [H1 H2 H3 H4 H5] Hfill Hout. apply Forall_cons in H4 as [(F1 & F2 & Hpre & Hal & Htok & Hrow) Hos].
  assert (Htoks : tokens r `prefix_of` tokens (set_tokens out fill r)) by (by apply prefix_app).
  pose proof (prefix_length _ _ Htoks) as Hl. split; [exact H1|done|exact H3| |exact H5]. constructor; [|done].
  split; [done|]. split; [done|]. split; [done|]. split; [done|]. split; [cbn in *; lia|].
  cbn [req_pool_idx set_tokens]. destruct (req_pool_idx r) as [i|] eqn:Hi.
  - destruct Hrow as (Hr & Hle & Hcl). split; [done|]. split; [done|].
    destruct Htoks as [k Hk]. cbn [kv_committed_len set_tokens]. rewrite Hk, take_app_le by done.
    eapply claim_ext; [exact Hcl|done..].
  - destruct Hrow as (Hc & Hp & Hcl). split; [done|]. split; [done|]. by eapply claim_ext; [exact Hcl|..].
Qed.

Lemma pool_ok_in p r os i :
  pool_ok p (omap req_pool_idx (r :: os)) → req_pool_idx r = Some i → i ∉ omap req_pool_idx os.
Proof.
  intros [_ Hs] Hi. rewrite idx_cons, Hi in Hs. pose proof (NoDup_seq 1 (pool_size p)) as Hnd. rewrite <-Hs in Hnd.
  apply NoDup_app in Hnd as (_ & _ & Hnd). by apply NoDup_cons in Hnd as [? _].
Qed.

Lemma pool_ok_NoDup p held : pool_ok p held → NoDup held.
Proof.
  intros [_ Hs]. pose proof (NoDup_seq 1 (pool_size p)) as Hnd. rewrite <-Hs in Hnd. by apply NoDup_app in Hnd as (_ & _ & ?).
Qed.

(** Caching a request between chunks. *)
Lemma cache_inv N w r os ch :
  sys_inv N w (r :: os) → req_pool_idx r ≠ None → fill_ids r = take (kv_committed_len r) (tokens r) →
  ∃ w' r', unfinished_req ch r w = Ok (w', r') ∧ sys_inv N w' (r' :: os) ∧
    r' = set_prefix (take (kv_committed_len r) (row_of (pool w') r')) (last_node r') (cache_protected_len r') r ∧
    max_context_len (pool w') = max_context_len (pool w).
Proof.
  intros [H1 H2 H3 H4 H5] Hidx Hfill. apply Forall_cons in H4 as [(F1 & F2 & Hpre & Hal & Htok & Hrow) Hos].
  destruct (req_pool_idx r) as [i|] eqn:Hi; [|done]. destruct Hrow as ((j & row & Hj & Hrow & Hl) & Hle & Hcl).
  rewrite Hi in Hj. injection Hj as <-. rewrite (row_of_at _ _ _ _ Hi Hrow) in Hcl. rewrite <-Hfill in Hcl.
  assert (Hlf : length (fill_ids r) = kv_committed_len r) by (rewrite Hfill, length_take; lia).
  destruct (unfinished_law ch r w (nodes os) i row _ H1 H2 H3 Hi Hrow ltac:(lia) Hcl)
    as (t' & a' & p' & r' & row' & E & Hc' & Ha' & Hp' & Hrows & Hlr & Hdrop & Hr' & Hprot & Hcl' & Hx & Hk).
  exists (mkWorld t' a' p'), r'. split; [done|]. rewrite Hlf in *.
  assert (Hrow' : req_to_token p' !! i = Some row') by (rewrite Hrows; apply list_lookup_insert_eq; by eapply lookup_lt_Some).
  assert (Hi' : req_pool_idx r' = Some i) by (by rewrite Hr').
  assert (Hcm : kv_committed_len r' = kv_committed_len r ∧ kv_allocated_len r' = kv_committed_len r ∧ tokens r' = tokens r)
    by (rewrite Hr'; done). destruct Hcm as (Hcm & Hca & Htk).
  assert (Hctx : max_context_len p' = max_context_len (pool w)).
  { destruct (held_row p' _ i Hp') as (row0 & Hr0 & Hl0); [rewrite idx_cons, Hi; left|]. rewrite Hrow' in Hr0. injection Hr0 as <-. lia. }
  destruct (others_ok (tree w) (pool w) t' p' os Hos) as [Hos' Hs]; [|done| |].
  { intros r0 ts row0 _. apply Hk. }
  { intros k Hin. rewrite Hrows, list_lookup_insert_ne; [done|]. intros <-. by apply (pool_ok_in _ _ _ _ H3 Hi). }
  pose proof (row_of_at _ _ _ _ Hi' Hrow') as Hro. split; [|cbn [pool]; rewrite Hro; done].
  split; [exact Hc'|done| | |].
  - cbn [pool]. rewrite idx_cons, Hi'. rewrite idx_cons, Hi in Hp'. exact Hp'.
  - constructor; [|exact Hos']. unfold req_inv. cbn [tree pool]. rewrite Hi', Hcm, Hca, Htk, Hro, Hctx.
    split; [by rewrite Hr'|]. split; [by rewrite Hr'|]. split; [by rewrite Hr'|]. split; [done|]. split; [done|].
    split; [exists i, row'; rewrite Hctx; split_and!; [done|done|lia]|]. split; [lia|]. by rewrite <-Hfill.
  - intros x. specialize (H5 x). specialize (Hx x). rewrite sum_over_cons in H5 |- *. cbn [pool]. rewrite Hs, <-H5. unfold total, owned.
    rewrite Hro, Hca, (row_of_at _ _ _ _ Hi Hrow), Hal. cbn [tree kv]. lia.
Qed.

(** ** Batches *)

(** A request the scheduler may extend: its prefix is what its row or its match says. *)
Definition extend_ready (p : ReqToTokenPool) (r : Req) : Prop :=
  reusable r = true ∧ (length (prefix_indices r) < length (fill_ids r) ≤ max_context_len p)%nat ∧
  (req_pool_idx r ≠ None → prefix_indices r = take (kv_committed_len r) (row_of p r)).

Lemma nodes_app a b : nodes (a ++ b) = nodes a ++ nodes b.
Proof. unfold nodes. by rewrite fmap_app, concat_app. Qed.

(** One request of an extended batch. *)
Lemma extended_req t p t' p' r i :
  req_inv t p r → extend_ready p r → (∀ ts row, claim t r ts row → claim t' r ts row) →
  let r1 := set_pool_idx (Some i) r in
  (req_pool_idx r = Some i ∨ req_pool_idx r = None) → has_row p' r1 → max_context_len p' = max_context_len p →
  take (length (prefix_indices r)) (row_of p' r1) = prefix_indices r →
  let r' := set_lens (length (fill_ids r)) (length (fill_ids r)) r1 in
  req_inv t' p' r' ∧
  ∀ x, count x (owned p' r') = count x (owned p r) + count x (slice (length (prefix_indices r)) (length (fill_ids r)) (row_of p' r1)).
Proof.
  intros (F1 & F2 & Hpre & Hal & Htok & Hrow) (Hre & Hlen & Hpref) Hk r1 Hor Hhas Hctx Htk r'.
  set (m := length (prefix_indices r)) in *. set (n := length (fill_ids r)) in *.
  pose proof (prefix_length _ _ Hpre) as Hpl. fold n in Hpl.
  assert (Hfill : fill_ids r = take n (tokens r)).
  { destruct Hpre as [k ->]. unfold n. by rewrite take_app_length. }
  assert (Hrow' : (cache_protected_len r ≤ m)%nat ∧ owned p r = drop (cache_protected_len r) (prefix_indices r) ∧
     claim t' r (take n (tokens r)) (prefix_indices r)).
  { destruct (req_pool_idx r) as [i0|] eqn:Hi.
    - destruct Hrow as ((i1 & row & Hi1 & Hrw & Hl1) & Hle & Hcl). specialize (Hpref ltac:(done)). apply Hk in Hcl.
      rewrite (row_of_at _ _ _ _ Hi1 Hrw) in *.
      assert (Hm : m = kv_committed_len r) by (unfold m; rewrite Hpref, length_take; lia). split; [lia|]. split.
      + unfold owned. rewrite (row_of_at _ _ _ _ Hi1 Hrw), Hal, Hpref. by rewrite drop_slice by lia.
      + eapply claim_ext; [exact Hcl|done..| |].
        * exists (drop (kv_committed_len r) (take n (tokens r))). rewrite <-(take_drop (kv_committed_len r) (take n (tokens r))) at 1.
          by rewrite take_take, Nat.min_l by lia.
        * by rewrite Hpref, take_take, Nat.min_l by lia.
    - destruct Hrow as (Hc & Hp & Hcl). split; [lia|]. split.
      + unfold owned. rewrite Hal, Hc, slice_nil, drop_ge by lia. done.
      + apply (claim_cut t' r (tokens r)); [by apply Hk|apply prefix_take|len_lia]. }
  destruct Hrow' as (Hpm & Hown & Hcl). destruct Hhas as (i2 & row & Hi2 & Hrw & Hl). injection Hi2 as <-.
  assert (Hro : row_of p' r' = row) by (by eapply row_of_at). assert (Hro1 : row_of p' r1 = row) by (by eapply row_of_at).
  rewrite Hro1 in Htk |- *. split.
  - refine (conj F1 (conj F2 (conj Hpre (conj eq_refl (conj Hpl _))))).
    change (req_pool_idx r') with (Some i). change (cache_protected_len r') with (cache_protected_len r).
    change (kv_committed_len r') with n. rewrite Hro. split; [by exists i, row|]. split; [lia|].
    change (tokens r') with (tokens r). eapply claim_ext; [exact Hcl|done..|].
    rewrite <-Htk, take_take, Nat.min_l by lia. done.
  - intros x. unfold owned at 1. rewrite Hro.
    change (cache_protected_len r') with (cache_protected_len r). change (kv_allocated_len r') with n.
    rewrite (count_slice x _ m n) by lia. rewrite Hown. do 2 f_equal. rewrite <-Htk. rewrite drop_slice; [done|lia].
Qed.

Lemma extended_batch t p t' p' batch rs :
  Forall2 (fun r r1 => ∃ i, r1 = set_pool_idx (Some i) r ∧ (req_pool_idx r = Some i ∨ req_pool_idx r = None)) batch rs →
  Forall (req_inv t p) batch → Forall (extend_ready p) batch → (∀ r ts row, r ∈ batch → claim t r ts row → claim t' r ts row) →
  Forall (fun r => has_row p' r ∧ take (length (prefix_indices r)) (row_of p' r) = prefix_indices r) rs →
  max_context_len p' = max_context_len p →
  let batch' := (fun r => set_lens (length (fill_ids r)) (length (fill_ids r)) r) <$> rs in
  Forall (req_inv t' p') batch' ∧ nodes batch' = nodes batch ∧ omap req_pool_idx batch' = omap req_pool_idx rs ∧
  ∀ x, sum_over (fun r => count x (owned p' r)) batch' = sum_over (fun r => count x (owned p r)) batch
     + sum_over (fun r => count x (slice (length (prefix_indices r)) (length (fill_ids r)) (row_of p' r))) rs.
Proof.
  intros HF. induction HF as [|r r1 batch rs (i & -> & Hor) _ IH]; intros Hinv Hre Hk Hrows Hctx; [done|].
  apply Forall_cons in Hinv as [Hr Hinv], Hre as [Hr1 Hre], Hrows as [[Hh Htk] Hrows].
  destruct (extended_req t p t' p' r i Hr Hr1 ltac:(intros; apply Hk; [left|done]) Hor Hh Hctx Htk) as [Hr' Hx].
  destruct IH as (I1 & I2 & I3 & I4); try done; [intros; apply Hk; [by right|done]|].
  cbv zeta. rewrite !fmap_cons. split; [by constructor|]. split; [|split].
  - unfold nodes in *. rewrite !fmap_cons. cbn [concat]. by rewrite I2.
  - rewrite !idx_cons, I3. done.
  - intros x. rewrite !sum_over_cons, I4, Hx. cbn [fill_ids prefix_indices set_pool_idx]. lia.
Qed.

(** The state after the rows of a batch are written. *)
Lemma extended_world N w w2 p1 p3 batch rs os idx :
  (∀ x, total x w + sum_over (fun r => count x (owned (pool w) r)) (batch ++ os) = if decide (1 ≤ x ≤ N) then 1 else 0) →
  Forall (req_inv (tree w) (pool w)) batch → Forall (req_inv (tree w) (pool w)) os → Forall (extend_ready (pool w)) batch →
  Forall2 (fun r r1 => ∃ i, r1 = set_pool_idx (Some i) r ∧ (req_pool_idx r = Some i ∨ req_pool_idx r = None)) batch rs →
  req_to_token p1 = req_to_token (pool w) → max_context_len p1 = max_context_len (pool w) →
  (∀ i, i ∈ omap req_pool_idx rs → i ∉ omap req_pool_idx os) →
  cache_ok (tree w2) (nodes (batch ++ os)) → kv_ok (kv w2) → (∀ x, total x w2 + count x idx = total x (set_pool p1 w)) →
  (∀ r ts row, (∀ j, last_node r = Some j → j ∈ nodes (batch ++ os)) → claim (tree w) r ts row → claim (tree w2) r ts row) →
  pool_ok p3 (omap req_pool_idx rs ++ omap req_pool_idx os) → max_context_len p3 = max_context_len p1 →
  (∀ i, i ∉ omap req_pool_idx rs → req_to_token p3 !! i = req_to_token p1 !! i) →
  Forall (fun r => has_row p3 r ∧ take (length (prefix_indices r)) (row_of p3 r) = prefix_indices r) rs →
  (∀ x, sum_over (fun r => count x (slice (length (prefix_indices r)) (length (fill_ids r)) (row_of p3 r))) rs = count x idx) →
  sys_inv N (set_pool p3 w2) (((fun r => set_lens (length (fill_ids r)) (length (fill_ids r)) r) <$> rs) ++ os).
Proof.
  intros H5 Hb Hos Hre HF Hrows1 Hctx1 Hdis Hc2 Ha2 Ht2 Hk2 Hp3 Hctx3 Hoth3 Hall3 Hsum3.
  assert (Hkeep : ∀ r ts row, r ∈ batch ++ os → claim (tree w) r ts row → claim (tree w2) r ts row).
  { intros r ts row Hr. apply Hk2. intros j Hn. by eapply node_in. }
  destruct (extended_batch (tree w) (pool w) (tree w2) p3 batch rs HF Hb Hre) as (I1 & I2 & I3 & I4);
    [intros; apply Hkeep; [by apply elem_of_app; left|done]|done|congruence|].
  destruct (others_ok (tree w) (pool w) (tree w2) p3 os Hos) as [Hos' Hs];
    [intros; apply Hkeep; [by apply elem_of_app; right|done]|congruence| |].
  { intros i Hi. rewrite Hoth3, Hrows1; [done|]. intros Hin. exact (Hdis i Hin Hi). }
  split; cbn [tree kv pool set_pool].
  - by rewrite nodes_app, I2, <-nodes_app.
  - done.
  - by rewrite omap_app, I3.
  - by apply Forall_app.
  - intros x. specialize (H5 x). rewrite sum_over_app in H5 |- *. rewrite I4, Hs, Hsum3, <-H5. specialize (Ht2 x).
    change (total x (set_pool p1 w)) with (total x w) in Ht2. change (total x (set_pool p3 w2)) with (total x w2). lia.
Qed.

Lemma extend_num_tokens_same batch rs :
  Forall2 (fun r r1 => ∃ i, r1 = set_pool_idx (Some i) r ∧ (req_pool_idx r = Some i ∨ req_pool_idx r = None)) batch rs →
  extend_num_tokens rs = extend_num_tokens batch.
Proof. induction 1 as [|r r1 l k (i & -> & _) _ IH]; [done|]. unfold extend_num_tokens in *. rewrite !fmap_cons. simpl in *. lia. Qed.

Lemma to_run_same batch rs :
  Forall2 (fun r r1 => ∃ i, r1 = set_pool_idx (Some i) r ∧ (req_pool_idx r = Some i ∨ req_pool_idx r = None)) batch rs →
  to_run <$> rs = to_run <$> batch.
Proof. induction 1 as [|r r1 l k (i & -> & _) _ IH]; [done|]. rewrite !fmap_cons, IH. done. Qed.

(** A request after [prepare_for_extend]: it has a row and its tokens so far are committed. *)
Definition extended (r r' : Req) : Prop :=
  ∃ i, r' = set_lens (length (fill_ids r)) (length (fill_ids r)) (set_pool_idx (Some i) r).

(** A batch extends exactly if there are rows and slots for it, and then consistently. *)
Lemma extend_cases N w batch os :
  sys_inv N w (batch ++ os) → Forall (extend_ready (pool w)) batch →
  if decide ((length batch - length (omap req_pool_idx batch) ≤ pool_available (pool w))%nat ∧
             Z.of_nat (extend_num_tokens batch) ≤ available_size (kv w) + evictable (tree w))
  then ∃ w' batch' out, prepare_for_extend uninit 1 batch (to_run <$> batch) w = Ok (w', batch', out) ∧ sys_inv N w' (batch' ++ os) ∧
         Forall2 extended batch batch' ∧ max_context_len (pool w') = max_context_len (pool w)
  else prepare_for_extend uninit 1 batch (to_run <$> batch) w = Raise RuntimeError.
Proof.
  intros [H1 H2 H3 H4 H5] Hre. apply Forall_app in H4 as [Hb Hos]. rewrite omap_app in H3.
  pose proof (pool_alloc_ok batch (omap req_pool_idx os) (pool w) H3) as Hpa. cbv zeta in Hpa.
  unfold prepare_for_extend, alloc_for_extend, alloc_req_slots. destruct (decide (pool_available (pool w) < _)%nat) as [Hd|Hd].
  { rewrite decide_False by lia. rewrite Hpa; [done|]. eapply Forall_impl; [exact Hre|]. by intros r (? & _). }
  destruct Hpa as (p1 & rs & E1 & Hp1 & Hnd & _ & _ & Hrows1 & Hctx1 & Hlen & _ & Hj).
  { eapply Forall_impl; [exact Hre|]. by intros r (? & _). }
  rewrite E1. run_bind. rewrite (decide_True (P := (1 = 1)%nat)) by done.
  assert (HF : Forall2 (fun r r1 => ∃ i, r1 = set_pool_idx (Some i) r ∧ (req_pool_idx r = Some i ∨ req_pool_idx r = None)) batch rs).
  { apply Forall2_same_length_lookup_2; [done|].
    intros j r r1 Hr Hr1. destruct (Hj j r Hr) as (i & Hi & Hor). exists i. split; [congruence|]. naive_solver. }
  rewrite nodes_app in H1. rewrite <-(extend_num_tokens_same batch rs HF).
  pose proof (alloc_token_slots_ok (Z.of_nat (extend_num_tokens rs)) (set_pool p1 w) (nodes batch ++ nodes os) H1 H2 ltac:(lia)) as Hal.
  cbn [kv tree set_pool] in Hal. destruct (decide (Z.of_nat _ ≤ _)) as [Hle|Hle]; [rewrite decide_True by lia|rewrite decide_False by lia; by rewrite Hal].
  destruct Hal as (w2 & idx & E2 & Hln & Hc2 & Ha2 & Hp2 & Ht2 & Hk2).
  rewrite E2. run_bind. cbn [pool set_pool] in Hp2. rewrite Hp2.
  assert (Hex : Forall (extendable p1) rs).
  { apply Forall_lookup. intros j r1 Hr1. apply Forall2_lookup_r with (i := j) (y := r1) in HF as (r & Hr & i & -> & Hor); [|done].
    rewrite Forall_lookup in Hre. destruct (Hre j r Hr) as (_ & Hl & _). split; [|cbn; lia].
    destruct (held_row _ _ i Hp1) as (row & Hrow & Hlr); [|by exists i, row].
    apply elem_of_app. left. eapply idx_elem; [by eapply list_elem_of_lookup_2|done]. }
  apply NoDup_app in Hnd as (Hnd & Hdis & _).
  destruct (write_rows_ok rs p1 _ idx Hp1 Hex Hnd) as (p3 & E3 & Hp3 & Hctx3 & Hoth3 & Hall3 & Hsum3); [unfold lenZ in Hln; lia|].
  change (write_cache_indices 0) with (write_cache_indices (Z.of_nat 0)). rewrite <-(to_run_same batch rs HF).
  rewrite write_indices_parts, drop_0, E3 by (eapply Forall_impl; [exact Hex|]; intros r [_ ?]; lia). run_bind.
  rewrite (proj2 (lens_checked rs (to_run <$> rs) ltac:(by rewrite length_fmap)) eq_refl). do 3 eexists. split; [done|]. split; [|split].
  - eapply (extended_world N w w2 p1 p3 batch rs os idx); try done; by rewrite ?nodes_app.
  - apply Forall2_fmap_r. eapply Forall2_impl; [exact HF|]. intros r r1 (i & -> & _). by exists i.
  - cbn [pool set_pool]. congruence.
Qed.

Lemma assign_to_run batch : ∀ slots rs, assign_slots slots batch = Ok rs → to_run <$> rs = to_run <$> batch.
Proof.
  induction batch as [|r batch IH]; intros slots rs; cbn [assign_slots]; [by intros [= <-]|].
  destruct (req_pool_idx r); [|destruct slots as [|i slots]; [done|]]; intros H; unbind H as rs' E; injection H as <-; rewrite !fmap_cons; f_equal; by eapply IH.
Qed.

(** A batch only extends if every [extend_input_len] is the number of its tokens to run. *)
Lemma lens_right batch lens w out : length lens = length batch → prepare_for_extend uninit 1 batch lens w = Ok out → lens = to_run <$> batch.
Proof.
  intros Hlen. unfold prepare_for_extend, alloc_for_extend, alloc_req_slots, pool_alloc. intros H.
  destruct (forallb reusable batch); [|discriminate H]. destruct (decide (length (free_slots _) < _)%nat); run_bind; [discriminate H|].
  destruct (assign_slots _ batch) as [rs|] eqn:E; [|discriminate H]. run_bind. apply assign_to_run in E. clear -H E Hlen.
  destruct (decide (1 = 1)%nat); [|done]. destruct (alloc_token_slots _ _) as [[w2 idx]|]; [|discriminate H]. run_bind.
  destruct (write_cache_indices _ _ _ _ _) as [p|]; [|discriminate H]. run_bind.
  destruct (forallb _ (zip rs lens)) eqn:Hz; [|discriminate H]. rewrite <-E. apply lens_checked; [|exact Hz].
  rewrite Hlen. apply (f_equal length) in E. by rewrite !length_fmap in E.
Qed.

Lemma extend_inv N w batch lens os w' batch' out :
  sys_inv N w (batch ++ os) → Forall (extend_ready (pool w)) batch → length lens = length batch →
  prepare_for_extend uninit 1 batch lens w = Ok (w', batch', out) → sys_inv N w' (batch' ++ os).
Proof.
  intros Hs Hre Hlen Hrun. rewrite (lens_right _ _ _ _ Hlen Hrun) in Hrun. pose proof (extend_cases N w batch os Hs Hre) as Hc. case_decide; [|congruence].
  destruct Hc as (w1 & b1 & o1 & E & Hi & _). rewrite E in Hrun. by injection Hrun as <- <- _.
Qed.

Definition decode_ready (p : ReqToTokenPool) (r : Req) : Prop :=
  req_pool_idx r ≠ None ∧ (kv_committed_len r < length (tokens r))%nat ∧ (kv_committed_len r < max_context_len p)%nat.

Definition decoded (r : Req) : Req := set_lens (S (kv_committed_len r)) (S (kv_allocated_len r)) r.

Lemma decoded_req t p t' p' r :
  req_inv t p r → decode_ready p r → (∀ ts row, claim t r ts row → claim t' r ts row) → has_row p' r →
  max_context_len p' = max_context_len p →
  take (kv_committed_len r) (row_of p' r) = take (kv_committed_len r) (row_of p r) →
  req_inv t' p' (decoded r) ∧
  ∀ x, count x (owned p' (decoded r)) = count x (owned p r) + count x (slice (kv_committed_len r) (S (kv_committed_len r)) (row_of p' r)).
Proof.
  intros (F1 & F2 & Hpre & Hal & Htok & Hrow) (Hidx & Hlt & Hcx) Hk Hhas Hctx Htk. set (n := kv_committed_len r) in *.
  destruct (req_pool_idx r) as [i|] eqn:Hi; [|done]. destruct Hrow as (_ & Hle & Hcl). clear Hidx.
  change (row_of p' r) with (row_of p' (decoded r)) in *. split.
  - refine (conj F1 (conj F2 (conj Hpre (conj (f_equal S Hal) (conj Hlt _))))). change (req_pool_idx (decoded r)) with (req_pool_idx r).
    rewrite Hi. change (kv_committed_len (decoded r)) with (S n). change (cache_protected_len (decoded r)) with (cache_protected_len r).
    split; [done|]. split; [lia|]. apply Hk in Hcl. eapply claim_ext; [exact Hcl|done..| |].
    + exists (drop n (take (S n) (tokens r))). change (tokens (decoded r)) with (tokens r).
      rewrite <-(take_drop n (take (S n) (tokens r))) at 1. by rewrite take_take, Nat.min_l by lia.
    + apply (f_equal (take (cache_protected_len r))) in Htk. by rewrite !take_take, !Nat.min_l in Htk by lia.
  - intros x. unfold owned. change (cache_protected_len (decoded r)) with (cache_protected_len r).
    change (kv_allocated_len (decoded r)) with (S (kv_allocated_len r)). rewrite Hal.
    rewrite (count_slice x _ n (S n)) by lia. do 2 f_equal.
    pose proof (slice_take (cache_protected_len r) n n (row_of p' (decoded r)) (le_n n)) as E. rewrite Htk, slice_take in E by lia. done.
Qed.

Lemma decoded_batch t p t' p' batch :
  Forall (req_inv t p) batch → Forall (decode_ready p) batch → (∀ r ts row, r ∈ batch → claim t r ts row → claim t' r ts row) →
  Forall (fun r => has_row p' r ∧ take (kv_committed_len r) (row_of p' r) = take (kv_committed_len r) (row_of p r)) batch →
  max_context_len p' = max_context_len p →
  Forall (req_inv t' p') (decoded <$> batch) ∧ nodes (decoded <$> batch) = nodes batch ∧
  omap req_pool_idx (decoded <$> batch) = omap req_pool_idx batch ∧
  ∀ x, sum_over (fun r => count x (owned p' r)) (decoded <$> batch) = sum_over (fun r => count x (owned p r)) batch
     + sum_over (fun r => count x (slice (kv_committed_len r) (S (kv_committed_len r)) (row_of p' r))) batch.
Proof.
  induction batch as [|r batch IH]; intros Hinv Hre Hk Hrows Hctx; [done|].
  apply Forall_cons in Hinv as [Hr Hinv], Hre as [Hr1 Hre], Hrows as [[Hh Htk] Hrows].
  destruct (decoded_req t p t' p' r Hr Hr1 ltac:(intros; apply Hk; [left|done]) Hh Hctx Htk) as [Hr' Hx].
  destruct IH as (I1 & I2 & I3 & I4); try done; [intros; apply Hk; [by right|done]|].
  rewrite !fmap_cons. split; [by constructor|]. split; [|split].
  - unfold nodes in *. rewrite !fmap_cons. cbn [concat]. by rewrite I2.
  - rewrite !idx_cons, I3. done.
  - intros x. rewrite !sum_over_cons, I4, Hx. lia.
Qed.

(** A batch decodes exactly if there is a slot for each request, and then consistently. *)
Lemma decode_cases N w batch os :
  sys_inv N w (batch ++ os) → Forall (decode_ready (pool w)) batch →
  if decide (lenZ batch ≤ available_size (kv w) + evictable (tree w))
  then ∃ w' out, prepare_for_decode uninit 1 batch w = Ok (w', decoded <$> batch, out) ∧ lenZ out = lenZ batch ∧
         max_context_len (pool w') = max_context_len (pool w) ∧ sys_inv N w' ((decoded <$> batch) ++ os)
  else prepare_for_decode uninit 1 batch w = Raise RuntimeError.
Proof.
  intros [H1 H2 H3 H4 H5] Hre. apply Forall_app in H4 as [Hb Hos]. rewrite nodes_app in H1.
  unfold prepare_for_decode, alloc_for_decode. rewrite (decide_True (P := (1 = 1)%nat)) by done.
  pose proof (alloc_token_slots_ok (lenZ batch) w (nodes batch ++ nodes os) H1 H2 ltac:(unfold lenZ; lia)) as Hal.
  case_decide; [|by rewrite Hal]. destruct Hal as (w2 & idx & E2 & Hln & Hc2 & Ha2 & Hp2 & Ht2 & Hk2).
  rewrite E2. run_bind. rewrite Hp2. rewrite omap_app in H3.
  pose proof (pool_ok_NoDup _ _ H3) as Hnd. apply NoDup_app in Hnd as (Hnd & Hdis & _).
  destruct (put_locs_ok batch (pool w) _ idx H3) as (p3 & E3 & Hp3 & Hctx3 & Hoth3 & Hall3 & Hsum3); [|done|unfold lenZ in Hln; lia|].
  { rewrite Forall_forall in Hb, Hre |- *. intros r Hr. destruct (Hre r Hr) as (Hi & _ & Hlt). split; [|done].
    destruct (Hb r Hr) as (_ & _ & _ & _ & _ & Hrow). destruct (req_pool_idx r); [by destruct Hrow|done]. }
  rewrite E3. run_bind. do 2 eexists. split; [done|]. split; [done|]. split; [done|].
  assert (Hkeep : ∀ r ts row, r ∈ batch ++ os → claim (tree w) r ts row → claim (tree w2) r ts row).
  { intros r ts row Hr. apply Hk2. intros j Hn. rewrite <-nodes_app. by eapply node_in. }
  destruct (decoded_batch (tree w) (pool w) (tree w2) p3 batch Hb Hre) as (I1 & I2 & I3 & I4);
    [intros; apply Hkeep; [by apply elem_of_app; left|done]|done|done|].
  destruct (others_ok (tree w) (pool w) (tree w2) p3 os Hos) as [Hos' Hs];
    [intros; apply Hkeep; [by apply elem_of_app; right|done]|done| |].
  { intros i Hi. rewrite Hoth3; [done|]. intros Hin. exact (Hdis i Hin Hi). }
  split; cbn [tree kv pool set_pool].
  - by rewrite nodes_app, I2.
  - done.
  - by rewrite omap_app, I3.
  - by apply Forall_app.
  - intros x. specialize (H5 x). rewrite sum_over_app in H5 |- *. rewrite I4, Hs, Hsum3, <-H5. specialize (Ht2 x).
    change (total x (set_pool p3 w2)) with (total x w2). lia.
Qed.

Lemma decode_inv N w batch os w' batch' out :
  sys_inv N w (batch ++ os) → Forall (decode_ready (pool w)) batch →
  prepare_for_decode uninit 1 batch w = Ok (w', batch', out) → sys_inv N w' (batch' ++ os).
Proof.
  intros Hs Hre Hrun. pose proof (decode_cases N w batch os Hs Hre) as Hc. case_decide; [|congruence].
  destruct Hc as (w1 & o1 & E & _ & _ & Hi). rewrite E in Hrun. by injection Hrun as <- <- _.
Qed.

(** ** Runs *)

Definition State : Type := World T * list Req.

Inductive sstep : State → State → Prop :=
  | s_enter w rs r b l t1 r' t2 :
      fresh r → init_next_round_input b l r (tree w) = Ok (t1, r') → req_inc_lock_ref r' t1 = Ok t2 →
      sstep (w, rs) (set_tree t2 w, r' :: rs)
  | s_truncate w rs r os n : rs ≡ₚ r :: os → sstep (w, rs) (w, truncate_fill n r :: os)
  | s_next_chunk w rs r os : rs ≡ₚ r :: os → sstep (w, rs) (w, next_chunk r :: os)
  | s_output w rs r os tok :
      rs ≡ₚ r :: os → sstep (w, rs) (w, set_tokens (output_ids r ++ [tok]) (fill_ids r) r :: os)
  | s_extend w rs batch lens os w' batch' out :
      rs ≡ₚ batch ++ os → Forall (extend_ready (pool w)) batch → length lens = length batch →
      prepare_for_extend uninit 1 batch lens w = Ok (w', batch', out) → sstep (w, rs) (w', batch' ++ os)
  | s_decode w rs batch os w' batch' out :
      rs ≡ₚ batch ++ os → Forall (decode_ready (pool w)) batch →
      prepare_for_decode uninit 1 batch w = Ok (w', batch', out) → sstep (w, rs) (w', batch' ++ os)
  | s_cache w rs r os ch w' r' :
      rs ≡ₚ r :: os → req_pool_idx r ≠ None → fill_ids r = take (kv_committed_len r) (tokens r) →
      unfinished_req ch r w = Ok (w', r') → sstep (w, rs) (w', r' :: os)
  | s_finish w rs r os ins w' r' :
      rs ≡ₚ r :: os → req_pool_idx r ≠ None → release_kv_cache false true 1 ins r w = Ok (w', r') → sstep (w, rs) (w', os)
  | s_evict w rs n w' : evict_from_tree_cache n w = Ok w' → sstep (w, rs) (w', rs).

Lemma sstep_inv N s s' : sys_inv N s.1 s.2 → sstep s s' → sys_inv N s'.1 s'.2.
Proof.
  intros Hi Hs. destruct Hs as [w rs r b l t1 r' t2 Hf E1 E2|w rs r os n Hp|w rs r os Hp|w rs r os tok Hp|
    w rs batch lens os w' batch' out Hp Hr Hl E|w rs batch os w' batch' out Hp Hr E|w rs r os ch w' r' Hp Hn Hfl E|
    w rs r os ins w' r' Hp Hn E|w rs n w' E]; cbn [fst snd] in *; try apply (sys_inv_perm _ _ _ _ Hp) in Hi.
  - destruct (enter_inv N w rs r b l Hi Hf) as (t1' & r1 & t2' & E1' & E2' & Hs).
    rewrite E1 in E1'. injection E1' as <- <-. rewrite E2 in E2'. by injection E2' as <-.
  - apply retoken_inv; [done| |done]. pose proof (si_reqs _ _ _ Hi) as Hr. apply Forall_cons in Hr as [(_ & _ & Hpre & _) _].
    etrans; [apply prefix_take|exact Hpre].
  - by apply retoken_inv.
  - apply retoken_inv; [done| |by apply prefix_app_r]. pose proof (si_reqs _ _ _ Hi) as Hr.
    apply Forall_cons in Hr as [(_ & _ & Hpre & _) _]. rewrite app_assoc. by apply prefix_app_r.
  - by eapply extend_inv.
  - by eapply decode_inv.
  - destruct (cache_inv N w r os ch Hi Hn Hfl) as (w1 & r1 & E' & Hs & _). rewrite E in E'. by injection E' as <- <-.
  - destruct (finish_inv N w r os ins Hi Hn) as (w1 & r1 & E' & Hs & _). rewrite E in E'. by injection E' as <- <-.
  - destruct (evict_inv N w rs n Hi) as (w1 & E' & Hs). rewrite E in E'. by injection E' as <-.
Qed.

Definition init_world (t : T) (N : Z) (sort : bool) (size ctx : nat) : World T :=
  mkWorld t (new_token_allocator N sort) (ReqPool.new_pool size ctx).

Lemma init_inv t N sort size ctx :
  cache_ok t [] → (∀ x, holds x t = 0) → sys_inv N (init_world t N sort size ctx) [].
Proof.
  intros Hc Hh. split; [exact Hc| |apply new_pool_ok|by constructor|].
  - split; [done|]. split; done.
  - intros x. unfold total, free_count. cbn. rewrite Hh, count_nil, count_NoDup by apply NoDup_seqZ.
    repeat case_decide; rewrite ?elem_of_seqZ in *; lia.
Qed.

Lemma reach_inv t N sort size ctx w rs :
  cache_ok t [] → (∀ x, holds x t = 0) → rtc sstep (init_world t N sort size ctx, []) (w, rs) → sys_inv N w rs.
Proof.
  intros Hc Hh. remember (init_world t N sort size ctx, []) as s0 eqn:Hs0. remember (w, rs) as s1 eqn:Hs1. intros Hr.
  assert (H0 : sys_inv N s0.1 s0.2) by (rewrite Hs0; by apply init_inv). assert (H1 : sys_inv N s1.1 s1.2); [|by rewrite Hs1 in H1].
  clear Hs0 Hs1. induction Hr as [|s0 s1 s2 Hst _ IH]; [done|]. apply IH. by eapply sstep_inv.
Qed.

(** C10: From an empty server, through any sequence of requests entering, chunked
    and batched extension, decoding, caching, eviction and release, every one of
    the [N] KV slots is, exactly once, free, held by the cache or owned by one
    running request, and no other slot number ever appears; running requests have
    distinct rows; and no release, caching or eviction ever fails. *)
Theorem kv_slots_conserved t N sort size ctx w rs :
  cache_ok t [] → (∀ x, holds x t = 0) → rtc sstep (init_world t N sort size ctx, []) (w, rs) →
  (∀ x, total x w + sum_over (fun r => count x (owned (pool w) r)) rs = if decide (1 ≤ x ≤ N) then 1 else 0) ∧
  NoDup (omap req_pool_idx rs) ∧
  (∀ r ins, r ∈ rs → req_pool_idx r ≠ None → is_ok (release_kv_cache false true 1 ins r w)) ∧
  (∀ r ch, r ∈ rs → req_pool_idx r ≠ None → fill_ids r = take (kv_committed_len r) (tokens r) → is_ok (unfinished_req ch r w)) ∧
  (∀ n, is_ok (evict_from_tree_cache n w)).
Proof.
  intros Hc Hh Hr. pose proof (reach_inv t N sort size ctx w rs Hc Hh Hr) as Hi.
  split; [apply Hi|]. split; [eapply pool_ok_NoDup, Hi|]. split; [|split].
  - intros r ins [os Hp]%elem_of_Permutation Hn. destruct (finish_inv N w r os ins (sys_inv_perm _ _ _ _ Hp Hi) Hn) as (? & ? & -> & _). done.
  - intros r ch [os Hp]%elem_of_Permutation Hn Hf.
    destruct (cache_inv N w r os ch (sys_inv_perm _ _ _ _ Hp Hi) Hn Hf) as (? & ? & -> & _). done.
  - intros n. destruct (evict_inv N w rs n Hi) as (? & -> & _). done.
Qed.

End system.

(** * A concrete run *)

#[local] Instance serve_cache : PrefixCache RadixCache := RadixPrefixCache 1 false false false LRUStrategy clock.
#[local] Instance serve_laws : PrefixCacheLaws RadixCache false := radix_laws 1 false false false LRUStrategy clock (le_n 1).

Definition empty_tensor (n : Z) : list Z := replicate (Z.to_nat n) 0.
Definition new_req (ids : list Z) (p : option Z) : Req := mkReq ids [] [] None p 0 0 false None [] None 0 0 0 false false.
Definition server : World RadixCache := init_world (new_cache clock) 4 true 2 4.

(** One request enters and its prompt is extended. *)
Definition serve (r : Req) (w : World RadixCache) : option (World RadixCache * Req) :=
  match init_next_round_input false 0 r (tree w) with
  | Ok (t1, r1) =>
      match req_inc_lock_ref r1 t1 with
      | Ok t2 =>
          match prepare_for_extend empty_tensor 1 [r1] [to_run r1] (set_tree t2 w) with
          | Ok (w', [r'], _) => Some (w', r')
          | _ => None
          end
      | Raise _ => None
      end
  | Raise _ => None
  end.

Lemma server_ok : cache_ok (new_cache clock) [] ∧ ∀ x, holds x (new_cache clock) = 0.
Proof. split; [apply rinv_reset; lia|]. intros x. vm_compute. done. Qed.

Lemma serve_reach p :
  match serve (new_req [7; 8] p) server with
  | Some (w, r) => rtc (sstep empty_tensor) (server, []) (w, [r]) ∧ req_pool_idx r ≠ None ∧ req_priority r = p
  | None => False
  end.
Proof.
  unfold serve. destruct (init_next_round_input false 0 (new_req [7; 8] p) (tree server)) as [[t1 r1]|] eqn:E1; [|vm_compute in E1; done].
  destruct (req_inc_lock_ref r1 t1) as [t2|] eqn:E2; [|vm_compute in E1; injection E1 as <- <-; vm_compute in E2; done].
  assert (Hst : rtc (sstep empty_tensor) (server, []) (set_tree t2 server, [r1])).
  { apply rtc_once. eapply s_enter; [|exact E1|exact E2]. by split_and!. }
  vm_compute in E1. injection E1 as <- <-. vm_compute in E2. injection E2 as <-.
  destruct (prepare_for_extend empty_tensor 1 _ _ _) as [[[w' rs'] out]|] eqn:E3; [|vm_compute in E3; done].
  assert (Hlen : ∃ r', rs' = [r'] ∧ req_pool_idx r' ≠ None ∧ req_priority r' = p).
  { vm_compute in E3. injection E3 as _ <- _. eexists. by split_and!. }
  destruct Hlen as (r' & -> & Hidx). split; [|exact Hidx].
  eapply rtc_r; [exact Hst|]. change [r'] with ([r'] ++ []). eapply s_extend; [by rewrite app_nil_r| | |exact E3].
  - constructor; [|done]. split; [done|]. split; [cbn; lia|done].
  - done.
Qed.

Lemma kv_slots_conserved_witness :
  match serve (new_req [7; 8] None) server with
  | Some (w, r) => total 1 w + count 1 (owned (pool w) r) = 1 ∧ is_ok (release_kv_cache false true 1 true r w)
  | None => False
  end.
Proof.
  pose proof (serve_reach None) as Hr. destruct (serve _ _) as [[w r]|]; [|exact Hr]. destruct Hr as (Hr & Hidx & _).
  destruct (kv_slots_conserved empty_tensor (new_cache clock) 4 true 2 4 w [r] (proj1 server_ok) (proj2 server_ok) Hr)
    as (Hx & _ & Hrel & _).
  split; [|apply Hrel; [left|done]]. specialize (Hx 1). rewrite sum_over_cons in Hx. change (sum_over _ []) with 0 in Hx.
  rewrite decide_True in Hx by lia. lia.
Defined.
