(* ===== verification/SchedulePolicy.v ===== *)
(** The order of the waiting queue ([SchedulePolicy] of
    [managers/schedule_policy.py]): first come first serve, priorities, longest
    output, routing keys, and the two policies that look at the radix tree, with
    in-batch prefix sharing.

    A queued request is a [Req] with the fields the scheduler reads.  Cache-aware
    policies run on an enabled [RadixCache]; a disabled one is turned into first
    come first serve when the policy is built.  [random.shuffle] and the content of
    [torch.empty] are parameters.  The environment flag that forces cache misses is
    off. *)

From S2P Require Import Prelude PySort RadixKey RadixCache RadixOps RadixSpec ReqPool ReqCache.

Open Scope Z_scope.

(** * Queued requests *)

Record QReq := mkQReq {
  base : Req;
  rid : string;
  max_new_tokens : Z;
  ignore_eos : bool;
  extend_input_len : Z;
  wait_queue_entry_time : Z;
  routing_key : option string;
  finished : bool;
}.

Definition set_base (b : Req) (r : QReq) : QReq :=
  mkQReq b (rid r) (max_new_tokens r) (ignore_eos r) (extend_input_len r) (wait_queue_entry_time r) (routing_key r) (finished r).

Definition CLIP_MAX_NEW_TOKENS : Z := 4096.
Definition IN_BATCH_PREFIX_CACHING_CHECK_THRESHOLD : Z := 32.
Definition IN_BATCH_PREFIX_CACHING_DEPRIORITIZE_THRESHOLD : Z := 32.

(** * Policies *)

Inductive CacheAwarePolicy := LPM | DFS_WEIGHT.
Inductive CacheAgnosticPolicy := FCFS | LOF | RANDOM | ROUTING_KEY.
Inductive Policy := Aware (p : CacheAwarePolicy) | Agnostic (p : CacheAgnosticPolicy).

#[export] Instance aware_eq_dec : EqDecision CacheAwarePolicy.
Proof. solve_decision. Defined.
#[export] Instance agnostic_eq_dec : EqDecision CacheAgnosticPolicy.
Proof. solve_decision. Defined.
#[export] Instance policy_eq_dec : EqDecision Policy.
Proof. solve_decision. Defined.

Definition aware_of (s : string) : option CacheAwarePolicy :=
  if bool_decide (s = "lpm") then Some LPM
  else if bool_decide (s = "dfs-weight") then Some DFS_WEIGHT else None.

Definition agnostic_of (s : string) : option CacheAgnosticPolicy :=
  if bool_decide (s = "fcfs") then Some FCFS
  else if bool_decide (s = "lof") then Some LOF
  else if bool_decide (s = "random") then Some RANDOM
  else if bool_decide (s = "routing-key") then Some ROUTING_KEY else None.

Definition _validate_and_adjust_policy (policy : string) (disable : bool) : result Policy :=
  match aware_of policy with
  | Some p => Ok (if disable then Agnostic FCFS else Aware p)
  | None => match agnostic_of policy with Some p => Ok (Agnostic p) | None => Raise ValueError end
  end.

Record SchedulePolicy := mkSP {
  policy : Policy;
  enable_priority_scheduling : bool;
  priority_sign : Z;
  waiting_queue_radix_tree : RadixCache;
}.

Definition set_waiting_tree (c : RadixCache) (sp : SchedulePolicy) : SchedulePolicy :=
  mkSP (policy sp) (enable_priority_scheduling sp) (priority_sign sp) c.

Definition _determine_active_policy (sp : SchedulePolicy) (q : list QReq) : Policy :=
  if bool_decide (policy sp = Aware LPM) && bool_decide (128 < length q)%nat then Agnostic FCFS else policy sp.

(** * Sorting *)

(** [list.sort] with a key that may raise: all keys are computed first. *)
Definition sort_with {K} `{PyOrd K} (key : QReq → result K) (q : list QReq) : result (list QReq) :=
  do! ks <- traverse key q;
  Ok ((py_sort snd (zip q ks)).*1).

(** [x.priority * priority_sign]; [None] has no product. *)
Definition signed_priority (sign : Z) (r : QReq) : result Z :=
  match req_priority (base r) with Some p => Ok (p * sign) | None => Raise TypeError end.

Definition _sort_by_priority_and_fcfs (sign : Z) (q : list QReq) : result (list QReq) :=
  sort_with (fun x => do! p <- signed_priority sign x; Ok (p, wait_queue_entry_time x)) q.

Definition _sort_by_longest_output (prio : bool) (sign : Z) (q : list QReq) : result (list QReq) :=
  if prio then sort_with (fun x => do! p <- signed_priority sign x; Ok (p, - max_new_tokens x)) q
  else Ok (py_sort (fun x => - max_new_tokens x) q).

(** [-len(prefix)], or infinity for a request that waits for a shared prefix. *)
Definition longest_prefix_key (deprioritized : gset string) (r : QReq) : option Z :=
  if decide (rid r ∈ deprioritized) then None else Some (- Z.of_nat (length (prefix_indices (base r)))).

Definition _sort_by_longest_prefix (deprioritized : gset string) (q : list QReq) : list QReq :=
  py_sort (longest_prefix_key deprioritized) q.

(** A routing key that is present and not empty. *)
Definition active_key (r : QReq) : option string :=
  match routing_key r with Some k => if bool_decide (k = "") then None else Some k | None => None end.

Definition count_keys (running : list QReq) : gmap string Z :=
  foldl (fun m r => match active_key r with Some k => <[k := default 0 (m !! k) + 1]> m | None => m end) ∅ running.

Definition routing_sort_key (counts : gmap string Z) (r : QReq) : Z * Z * string :=
  match active_key r with
  | Some k => match counts !! k with Some n => (0, - n, k) | None => (1, 0, k) end
  | None => (1, 0, "")
  end.

Definition _sort_by_routing_key (running q : list QReq) : list QReq :=
  let counts := count_keys running in
  if bool_decide (counts = ∅) then q else py_sort (routing_sort_key counts) q.

(** ** Depth-first weights *)

Definition group_by_node (q : list QReq) : gmap (option nat) (list QReq) :=
  foldl (fun m r => <[last_node (base r) := default [] (m !! last_node (base r)) ++ [r]]> m) ∅ q.

(** A [defaultdict(int)] keyed by nodes. *)
Definition weight (m : gmap (option nat) Z) (i : nat) : Z := default 0 (m !! Some i).

(** [_calc_weight]; the recursion goes down the tree. *)
Fixpoint calc_weight (fuel : nat) (c : RadixCache) (cur : nat) (m : gmap (option nat) Z) : result (gmap (option nat) Z) :=
  match fuel with
  | O => Raise RuntimeError
  | S fuel =>
      do! n <- node_at c cur;
      foldM (fun m p => do! m <- calc_weight fuel c p.2 m; Ok (<[Some cur := weight m cur + weight m p.2]> m)) (children n) m
  end.

Fixpoint get_dfs_priority (fuel : nat) (c : RadixCache) (cur : nat) (m : gmap (option nat) Z)
    (reqs : gmap (option nat) (list QReq)) (q : list QReq) : result (list QReq) :=
  match fuel with
  | O => Raise RuntimeError
  | S fuel =>
      do! n <- node_at c cur;
      do! q <- foldM (fun q child => get_dfs_priority fuel c child m reqs q) (py_sort (fun x => - weight m x) (children n).*2) q;
      Ok (q ++ default [] (reqs !! Some cur))
  end.

(** [_sort_by_dfs_weight]; no path of the tree is longer than its number of nodes. *)
Definition _sort_by_dfs_weight (c : RadixCache) (q : list QReq) : result (list QReq) :=
  let reqs := group_by_node q in
  let fuel := S (size (heap c)) in
  do! m <- calc_weight fuel c (root_node c) ((fun l => Z.of_nat (length l)) <$> reqs);
  get_dfs_priority fuel c (root_node c) m reqs [].

(** * Prefix matches *)

Section matches.
(** The tree of the server; [uninit] is the content of [torch.empty]. *)
Context (page_size : nat) (is_eagle : bool) (monotonic : nat → Z) (uninit : nat → list Z).

Definition prefix_ids (r : QReq) : list Z := origin_input_ids (base r) ++ output_ids (base r).
Definition prefix_key (r : QReq) : RadixKey := mkKey (prefix_ids r) (req_extra_key (base r)) false.

(** [match_prefix_for_req]; the cache reports no protected length, so that field stays. *)
Definition match_prefix_for_req (c : RadixCache) (r : QReq) : result (RadixCache * QReq) :=
  do! m <- match_prefix page_size false is_eagle monotonic (prefix_key r) c;
  let '(c, idx, node) := m in
  Ok (c, set_base (set_prefix idx (Some node) (cache_protected_len (base r)) (base r)) r).

(** The tree of the queue itself has pages of one token. *)
Definition queue_match (k : RadixKey) (c : RadixCache) := match_prefix 1 false false monotonic k c.
Definition queue_insert (k : RadixKey) (v : list Z) (c : RadixCache) := insert 1 false false monotonic k (Some v) 0 false c.

Record Matching := mkMatching { m_tree : RadixCache; m_queue : RadixCache; m_late : gset string; m_done : list QReq }.

(** One turn of the loop of [_compute_prefix_matches]. *)
Definition match_step (s : Matching) (r : QReq) : result Matching :=
  do! m <- match_prefix_for_req (m_tree s) r;
  let '(t, r) := m in
  if bool_decide (Z.of_nat (length (prefix_indices (base r))) ≤ IN_BATCH_PREFIX_CACHING_CHECK_THRESHOLD) then
    do! b <- queue_match (prefix_key r) (m_queue s);
    let '(c, in_batch, _) := b in
    if bool_decide (IN_BATCH_PREFIX_CACHING_DEPRIORITIZE_THRESHOLD ≤ Z.of_nat (length in_batch)) then
      Ok (mkMatching t c (m_late s ∪ {[rid r]}) (m_done s ++ [r]))
    else
      do! i <- queue_insert (prefix_key r) (uninit (length (prefix_ids r))) c;
      Ok (mkMatching t i.1 (m_late s) (m_done s ++ [r]))
  else Ok (mkMatching t (m_queue s) (m_late s) (m_done s ++ [r])).

Definition _compute_prefix_matches (t wt : RadixCache) (q : list QReq) : result Matching :=
  foldM match_step q (mkMatching t (reset monotonic wt) ∅ []).

(** * [calc_priority] *)

Context (shuffle : list QReq → list QReq).

(** [None] for [running_batch] skips the routing-key order. *)
Definition calc_priority (q : list QReq) (running : option (list QReq)) (t : RadixCache) (sp : SchedulePolicy)
  : result (RadixCache * SchedulePolicy * list QReq) :=
  if bool_decide (policy sp = Agnostic FCFS) then
    if enable_priority_scheduling sp
    then do! q <- _sort_by_priority_and_fcfs (priority_sign sp) q; Ok (t, sp, q) else Ok (t, sp, q)
  else
    match _determine_active_policy sp q with
    | Aware p =>
        do! m <- _compute_prefix_matches t (waiting_queue_radix_tree sp) q;
        let sp := set_waiting_tree (m_queue m) sp in
        match p with
        | LPM => Ok (m_tree m, sp, _sort_by_longest_prefix (m_late m) (m_done m))
        | DFS_WEIGHT => do! q <- _sort_by_dfs_weight (m_tree m) (m_done m); Ok (m_tree m, sp, q)
        end
    | Agnostic FCFS => Ok (t, sp, q)
    | Agnostic LOF =>
        do! q <- _sort_by_longest_output (enable_priority_scheduling sp) (priority_sign sp) q; Ok (t, sp, q)
    | Agnostic RANDOM => Ok (t, sp, shuffle q)
    | Agnostic ROUTING_KEY =>
        Ok (t, sp, match running with Some rs => _sort_by_routing_key rs q | None => q end)
    end.

End matches.

(** * What sorting promises *)

Lemma sort_insert_zip {K} `{PyOrd K} (k : QReq → K) r l :
  (sort_insert snd (r, k r) ((fun x => (x, k x)) <$> l)) = (fun x => (x, k x)) <$> sort_insert k r l.
Proof.
  induction l as [|x l IH]; [done|]. cbn. by destruct (py_lt _ _); [rewrite IH|].
Qed.

(** When no key raises, [sort_with] is the stable sort by the keys. *)
Lemma sort_with_ok {K} `{PyOrdLaws K, !EqDecision K} (key : QReq → result K) (k : QReq → K) q :
  (∀ r, r ∈ q → key r = Ok (k r)) → ∃ q', sort_with key q = Ok q' ∧ sorted_by k q q'.
Proof.
  intros Hk. exists (py_sort k q). split; [|exact (py_sort_spec k q)]. unfold sort_with.
  assert (traverse key q = Ok (k <$> q)) as ->.
  { apply traverse_Ok. induction q as [|r q IH]; [constructor|].
    constructor; [apply Hk; left|apply IH; intros; apply Hk; by right]. }
  cbn [mbind result_bind]. f_equal. clear Hk.
  assert (py_sort snd (zip q (k <$> q)) = (fun x => (x, k x)) <$> py_sort k q) as ->.
  { induction q as [|r q IH]; [done|].
    change (sort_insert snd (r, k r) (py_sort snd (zip q (k <$> q))) = (fun x => (x, k x)) <$> sort_insert k r (py_sort k q)).
    by rewrite IH, sort_insert_zip. }
  rewrite <-list_fmap_compose. by induction (py_sort k q) as [|x l IH]; [|rewrite fmap_cons, IH].
Qed.

(** * Subtrees *)

Lemma elem_of_concat {A} (x : A) ls : x ∈ concat ls ↔ ∃ l, x ∈ l ∧ l ∈ ls.
Proof. rewrite list_elem_of_In, in_concat. setoid_rewrite list_elem_of_In. naive_solver. Qed.

(** The nodes below [i], [i] included. *)
Inductive subtree (c : RadixCache) : nat → list nat → Prop :=
  | subtree_node i n nss :
      heap c !! i = Some n → Forall2 (subtree c) (children n).*2 nss → subtree c i (i :: concat nss).

Definition reqs_at (q : list QReq) (i : nat) : list QReq := filter (fun r => last_node (base r) = Some i) q.

(** Depth-first order: the requests of each child are together, larger groups
    first, the node's own requests last. *)
Inductive dfs_order (c : RadixCache) (q : list QReq) : nat → list QReq → Prop :=
  | dfs_order_node i n cs ls :
      heap c !! i = Some n → cs ≡ₚ (children n).*2 → Forall2 (dfs_order c q) cs ls →
      StronglySorted (fun a b => (length b ≤ length a)%nat) ls → dfs_order c q i (concat ls ++ reqs_at q i).

Lemma group_by_node_at q k : default [] (group_by_node q !! k) = filter (fun r => last_node (base r) = k) q.
Proof.
  unfold group_by_node. change (filter (fun r => last_node (base r) = k) q)
    with (default [] ((∅ : gmap (option nat) (list QReq)) !! k) ++ filter (fun r => last_node (base r) = k) q).
  generalize (∅ : gmap (option nat) (list QReq)). induction q as [|r q IH]; intros m; [by rewrite app_nil_r|].
  cbn [foldl]. rewrite IH, filter_cons. destruct (decide (last_node (base r) = k)) as [<-|Hk].
  - rewrite lookup_insert_eq. cbn. by rewrite <-app_assoc.
  - by rewrite lookup_insert_ne.
Qed.

(** Requests grouped by distinct nodes that cover them are all the requests. *)
Lemma group_cover q ns :
  NoDup ns → (∀ r, r ∈ q → ∃ i, last_node (base r) = Some i ∧ i ∈ ns) → concat (reqs_at q <$> ns) ≡ₚ q.
Proof.
  intros Hnd. induction q as [|r q IH]; intros Hc.
  { clear. induction ns as [|i ns IH]; [done|]. exact IH. }
  destruct (Hc r) as (i & Hi & Hin); [left|]. destruct (list_elem_of_split _ _ Hin) as (n1 & n2 & ->).
  assert (Hne : ∀ l : list nat, i ∉ l → reqs_at (r :: q) <$> l = reqs_at q <$> l).
  { intros l Hl. apply list_fmap_ext. intros x j Hj. unfold reqs_at. rewrite filter_cons, decide_False; [done|].
    rewrite Hi. intros [= <-]. apply Hl. by eapply list_elem_of_lookup_2. }
  apply NoDup_app in Hnd as Hsp. destruct Hsp as (_ & Hd & [Hn2 _]%NoDup_cons).
  assert (Hn1 : i ∉ n1) by (intros H1; apply (Hd i H1); left).
  assert (Hri : reqs_at (r :: q) i = r :: reqs_at q i) by (unfold reqs_at; by rewrite filter_cons, decide_True).
  rewrite fmap_app, fmap_cons, !Hne, Hri by done. rewrite concat_app. cbn [concat app]. rewrite <-Permutation_middle.
  constructor. etrans; [|apply IH; intros; apply Hc; by right]. by rewrite fmap_app, fmap_cons, concat_app.
Qed.

Section subtrees.
Context (page_size : nat) (is_eagle : bool).
#[local] Notation wf := (wf page_size is_eagle).
Variables (c : RadixCache).
Hypothesis Hw : wf c.

Lemma child_facts i n j l :
  heap c !! i = Some n → path (nheap c) (root_node c) i l → j ∈ (children n).*2 →
  is_Some (heap c !! j) ∧ path (nheap c) (root_node c) j (j :: l).
Proof.
  intros Hi Hl Hj. destruct Hw as (HT & _). pose proof (nheap_lookup _ _ _ Hi) as Hni.
  apply list_elem_of_fmap in Hj as ([ck j'] & -> & Hj). simpl.
  assert (Hg : od_get ck (children (norm n)) = Some j').
  { destruct (list_elem_of_split _ _ Hj) as (d1 & d2 & Hd). pose proof (ok_nodup _ _ _ _ _ HT _ _ Hni) as Hnd.
    simpl in *. unfold od_keys in Hnd. rewrite Hd in *. apply od_get_mid. rewrite fmap_app in Hnd.
    apply NoDup_app in Hnd as (_ & Hdis & _). intros Hin. apply (Hdis _ Hin). left. }
  destruct (ok_child _ _ _ _ _ HT _ _ _ _ Hni Hg) as (m & Hm & Hmp & _).
  pose proof (nheap_Some _ _ _ Hm) as (m' & Hm' & _). split; [by exists m'|]. econstructor; [|done|done|done].
  intros ->. destruct (ok_root _ _ _ _ _ HT) as (r & Hr & Hrp & _). congruence.
Qed.

Lemma children_NoDup i n : heap c !! i = Some n → NoDup (children n).*2.
Proof.
  intros Hi. destruct Hw as (HT & _). pose proof (nheap_lookup _ _ _ Hi) as Hni.
  pose proof (ok_nodup _ _ _ _ _ HT _ _ Hni) as Hnd. simpl in Hnd.
  assert (Hck : ∀ ck j, (ck, j) ∈ children n → ∃ m, nheap c !! j = Some m ∧ child_key page_size (key m) = Ok ck).
  { intros ck j Hj. destruct (list_elem_of_split _ _ Hj) as (d1 & d2 & Hd).
    assert (Hg : od_get ck (children (norm n)) = Some j).
    { simpl. rewrite Hd in *. apply od_get_mid. unfold od_keys in Hnd. rewrite fmap_app in Hnd.
      apply NoDup_app in Hnd as (_ & Hdis & _). intros Hin. apply (Hdis _ Hin). left. }
    destruct (ok_child _ _ _ _ _ HT _ _ _ _ Hni Hg) as (m & Hm & _ & Hc). eauto. }
  revert Hnd Hck. generalize (children n). induction o as [|[ck j] d IH]; intros Hnd Hck; [constructor|].
  apply NoDup_cons in Hnd as [Hn Hnd]. constructor; [|apply IH; [done|]; intros; apply Hck; by right].
  intros ([ck' j'] & E & Hin)%list_elem_of_fmap. simpl in E. subst j'.
  destruct (Hck ck j) as (m & Hm & Hc); [left|]. destruct (Hck ck' j) as (m' & Hm' & Hc'); [by right|].
  assert (ck' = ck) as -> by congruence. apply Hn. apply list_elem_of_fmap. by exists (ck, j).
Qed.

Lemma subtree_exists fuel i l :
  is_Some (heap c !! i) → path (nheap c) (root_node c) i l → (size (heap c) < fuel + length l)%nat → ∃ ns, subtree c i ns.
Proof.
  revert i l. induction fuel as [|fuel IH]; intros i l [n Hi] Hl Hf.
  { pose proof (path_length _ _ _ _ Hl) as Hle. rewrite size_nheap in Hle. lia. }
  assert (∃ nss, Forall2 (subtree c) (children n).*2 nss) as [nss Hn]; [|eexists; by econstructor].
  assert (Hall : ∀ j, j ∈ (children n).*2 → ∃ ns, subtree c j ns).
  { intros j Hj. destruct (child_facts i n j l Hi Hl Hj) as [Hs Hp]. apply (IH j (j :: l)); [done|done|simpl; lia]. }
  clear -Hall. induction ((children n).*2) as [|j js IHj]; [exists []; constructor|].
  destruct (Hall j) as [ns Hns]; [left|]. destruct IHj as [nss Hnss]; [intros; apply Hall; by right|].
  exists (ns :: nss). by constructor.
Qed.

Fixpoint subtree_strong (P : nat → list nat → Prop)
  (Hstep : ∀ i n nss, heap c !! i = Some n → Forall2 (fun j ns => subtree c j ns ∧ P j ns) (children n).*2 nss → P i (i :: concat nss))
  i ns (Hs : subtree c i ns) {struct Hs} : P i ns :=
  match Hs with
  | subtree_node _ i n nss Hi Hf =>
      Hstep i n nss Hi
        ((fix go js nss (Hf : Forall2 (subtree c) js nss) : Forall2 (fun j ns => subtree c j ns ∧ P j ns) js nss :=
            match Hf with
            | List.Forall2_nil _ => List.Forall2_nil _
            | List.Forall2_cons j ns Hj Hr => List.Forall2_cons j ns (conj Hj (subtree_strong P Hstep j ns Hj)) (go _ _ Hr)
            end) (children n).*2 nss Hf)
  end.

(** Every node below [i] has [i]'s path as the end of its own. *)
Lemma subtree_paths i ns l :
  subtree c i ns → path (nheap c) (root_node c) i l →
  NoDup ns ∧ ∀ j, j ∈ ns → is_Some (heap c !! j) ∧ ∃ l', path (nheap c) (root_node c) j (l' ++ l).
Proof.
  intros Hs. revert l. pattern i, ns. revert i ns Hs. apply subtree_strong. intros i n nss Hi Hf l Hl.
  assert (Hch : Forall2 (fun j ns => NoDup ns ∧ ∀ k, k ∈ ns → is_Some (heap c !! k) ∧
            ∃ l', path (nheap c) (root_node c) k (l' ++ j :: l)) (children n).*2 nss).
  { apply Forall2_same_length_lookup. split; [by eapply Forall2_length|]. intros x j ns Hj Hns.
    destruct (Forall2_lookup_lr _ _ _ _ _ _ Hf Hj Hns) as [_ IH].
    apply IH. apply (child_facts i n j l Hi Hl). by eapply list_elem_of_lookup_2. }
  assert (Hin : ∀ k, k ∈ concat nss → ∃ j, j ∈ (children n).*2 ∧ is_Some (heap c !! k) ∧ ∃ l', path (nheap c) (root_node c) k (l' ++ j :: l)).
  { intros k (ns & Hk & (x & Hx)%list_elem_of_lookup)%elem_of_concat.
    destruct (Forall2_lookup_r _ _ _ _ _ Hch Hx) as (j & Hj & _ & HP). exists j. split; [by eapply list_elem_of_lookup_2|by apply HP]. }
  split.
  - constructor.
    + intros (j & _ & _ & l' & Hp)%Hin. pose proof (path_det _ _ _ _ _ Hp Hl) as E. apply (f_equal length) in E.
      rewrite length_app in E. simpl in E. lia.
    + pose proof (children_NoDup i n Hi) as Hnd. clear -Hch Hnd. induction Hch as [|j ns js nss [H1 H2] Hch IH]; [constructor|].
      apply NoDup_cons in Hnd as [Hj Hnd]. cbn [concat]. apply NoDup_app. split; [done|]. split; [|by apply IH].
      intros k Hk (ns' & Hk' & (x & Hx)%list_elem_of_lookup)%elem_of_concat.
      destruct (Forall2_lookup_r _ _ _ _ _ Hch Hx) as (j' & Hj' & _ & HP).
      destruct (H2 k Hk) as (_ & l1 & P1). destruct (HP k Hk') as (_ & l2 & P2). pose proof (path_det _ _ _ _ _ P1 P2) as E.
      apply app_inj_2 in E as [_ E]; [|done]. injection E as ->. apply Hj. by eapply list_elem_of_lookup_2.
  - intros k [->|Hk]%elem_of_cons; [split; [by exists n|by exists []]|]. destruct (Hin k Hk) as (j & _ & Hs & l' & Hp).
    split; [done|]. exists (l' ++ [j]). by rewrite <-app_assoc.
Qed.

(** A subtree is closed under children. *)
Lemma subtree_closed i ns :
  subtree c i ns → ∀ p n j, p ∈ ns → heap c !! p = Some n → j ∈ (children n).*2 → j ∈ ns.
Proof.
  intros Hs. pattern i, ns. revert i ns Hs. apply subtree_strong. intros i n nss Hi Hf p pn j Hp Hpn Hj.
  apply elem_of_cons. right. apply elem_of_concat. apply elem_of_cons in Hp as [->|Hp].
  - assert (pn = n) as -> by congruence. apply list_elem_of_lookup in Hj as [x Hx].
    destruct (Forall2_lookup_l _ _ _ _ _ Hf Hx) as (ns & Hns & Hsub & _). exists ns.
    split; [|by eapply list_elem_of_lookup_2]. destruct Hsub. left.
  - apply elem_of_concat in Hp as (ns & Hp & Hns). exists ns. split; [|done]. apply list_elem_of_lookup in Hns as [x Hx].
    destruct (Forall2_lookup_r _ _ _ _ _ Hf Hx) as (k & _ & _ & IH). by eapply IH.
Qed.

Lemma root_covers ns i : subtree c (root_node c) ns → is_Some (heap c !! i) → i ∈ ns.
Proof.
  intros Hs [n Hi]. destruct Hw as (HT & _). destruct (ok_reach _ _ _ _ _ HT _ _ (nheap_lookup _ _ _ Hi)) as [l Hl].
  clear n Hi. induction Hl as [|i n p l Hir Hn Hp Hl IH]; [destruct Hs; left|].
  destruct (ok_parent _ _ _ _ _ HT _ _ Hn Hir) as (p' & pn & ck & Hp' & Hpn & _ & Hg).
  assert (p' = p) as -> by congruence. apply nheap_Some in Hpn as (pn' & Hpn' & ->).
  eapply subtree_closed; [done|exact IH|done|]. simpl in Hg. apply od_get_Some_elem in Hg.
  apply list_elem_of_fmap. by exists (ck, i).
Qed.

Lemma root_subtree : ∃ ns, subtree c (root_node c) ns ∧ NoDup ns ∧ ∀ i, is_Some (heap c !! i) → i ∈ ns.
Proof.
  destruct (root_lookup page_size is_eagle c Hw) as [r Hr].
  destruct (subtree_exists (S (size (heap c))) (root_node c) []) as [ns Hs]; [by exists r|constructor|simpl; lia|].
  exists ns. split; [done|]. split; [eapply subtree_paths; [done|constructor]|]. intros i. by apply root_covers.
Qed.

(** ** Weights *)

Definition weight_sum (m : gmap (option nat) Z) (ns : list nat) : Z := sumZ (weight m <$> ns).

Lemma weight_sum_same m m' ns : (∀ j, j ∈ ns → m' !! Some j = m !! Some j) → weight_sum m' ns = weight_sum m ns.
Proof.
  intros Hs. unfold weight_sum. f_equal. apply list_fmap_ext. intros i j Hj.
  unfold weight. by rewrite Hs by (by eapply list_elem_of_lookup_2).
Qed.

(** After the walk a node weighs what its subtree weighed before. *)
Definition weighed (m m' : gmap (option nat) Z) (ns : list nat) : Prop :=
  (∀ j nsj, j ∈ ns → subtree c j nsj → weight m' j = weight_sum m nsj) ∧ (∀ j, j ∉ ns → m' !! Some j = m !! Some j).

Lemma subtree_det i ns ns' : subtree c i ns → subtree c i ns' → ns = ns'.
Proof.
  intros Hs. revert ns'. pattern i, ns. revert i ns Hs. apply subtree_strong. intros i n nss Hi Hf ns' Hs'.
  destruct Hs' as [i n' nss' Hi' Hf']. assert (n' = n) as -> by congruence. do 2 f_equal. clear Hi Hi'.
  revert nss' Hf'. induction Hf as [|j ns js nss [_ Hj] _ IH]; intros nss' Hf'; [by apply Forall2_nil_inv_l in Hf'|].
  apply Forall2_cons_inv_l in Hf' as (ns1 & nss1 & H1 & H2 & ->). f_equal; [by apply Hj|by apply IH].
Qed.

(** Nodes below a node of a subtree are in it. *)
Lemma subtree_sub i ns j nsj : subtree c i ns → j ∈ ns → subtree c j nsj → nsj ⊆ ns.
Proof.
  intros Hs Hj Hsj. revert Hj. pattern j, nsj. revert j nsj Hsj. apply subtree_strong. intros j n nss Hn Hf Hj k.
  intros [->|(nsk & Hk & [x Hx]%list_elem_of_lookup)%elem_of_concat]%elem_of_cons; [done|].
  destruct (Forall2_lookup_r _ _ _ _ _ Hf Hx) as (j' & Hj' & _ & IH). apply IH; [|done].
  eapply subtree_closed; [done|exact Hj|done|]. by eapply list_elem_of_lookup_2.
Qed.

(** The loop over the children of [i]. *)
Lemma calc_children_ok fuel i l (d : odict ChildKey nat) nss m0 :
  (∀ j ns m, subtree c j ns → path (nheap c) (root_node c) j (j :: l) →
     ∃ m', calc_weight fuel c j m = Ok m' ∧ weighed m m' ns) →
  (∀ j, j ∈ d.*2 → path (nheap c) (root_node c) j (j :: l)) → Forall2 (subtree c) d.*2 nss →
  NoDup (concat nss) → i ∉ concat nss →
  ∃ m', foldM (fun m p => do! m <- calc_weight fuel c p.2 m; Ok (<[Some i := weight m i + weight m p.2]> m)) d m0 = Ok m' ∧
    weight m' i = weight m0 i + weight_sum m0 (concat nss) ∧
    (∀ j nsj, j ∈ concat nss → subtree c j nsj → weight m' j = weight_sum m0 nsj) ∧
    (∀ j, j ∉ i :: concat nss → m' !! Some j = m0 !! Some j).
Proof.
  intros IH. revert nss m0. induction d as [|[ck j] d IHd]; intros nss m0 Hp HF Hnd Hi; simpl in HF.
  { apply Forall2_nil_inv_l in HF as ->. exists m0. unfold weight_sum. simpl. split_and!; [done|unfold sumZ; simpl; lia|set_solver|done]. }
  apply Forall2_cons_inv_l in HF as (ns & nss' & Hsj & HF & ->). cbn [concat] in *. rewrite not_elem_of_app in Hi.
  apply NoDup_app in Hnd as (Hn1 & Hdis & Hn2).
  destruct (IH j ns m0 Hsj) as (m1 & E1 & W1 & W2); [apply Hp; left|].
  cbn [foldM snd]. rewrite E1. cbn [mbind result_bind]. set (m2 := <[Some i := weight m1 i + weight m1 j]> m1).
  destruct (IHd nss' m2) as (m' & E & H1 & H2 & H3); [intros; apply Hp; by right|done|done|apply Hi|].
  assert (Hji : j ∈ ns) by (destruct Hsj; left).
  assert (Hm2 : ∀ k, k ≠ i → m2 !! Some k = m1 !! Some k) by (intros k Hk; unfold m2; by rewrite lookup_insert_ne by congruence).
  assert (Hrest : ∀ k, k ∈ concat nss' → m2 !! Some k = m0 !! Some k).
  { intros k Hk. rewrite Hm2 by (intros ->; by apply Hi). apply W2. intros Hin. by apply (Hdis k). }
  exists m'. split; [exact E|]. split; [|split].
  - rewrite H1. rewrite (weight_sum_same m0 m2) by done. unfold m2 at 1. unfold weight at 1. rewrite lookup_insert_eq. cbn [default from_option id].
    rewrite (W1 j ns) by done. unfold weight at 1. rewrite W2 by apply Hi. unfold weight_sum. rewrite fmap_app, sumZ_app. unfold weight. lia.
  - intros k nsk [Hk|Hk]%elem_of_app Hsk.
    + unfold weight. rewrite H3, Hm2; [by apply W1|intros ->; by destruct Hi|].
      apply not_elem_of_cons. split; [intros ->; by destruct Hi|]. by apply Hdis.
    + rewrite (H2 k nsk Hk Hsk). apply weight_sum_same. intros k' Hk'. apply Hrest.
      apply elem_of_concat in Hk as (nsx & Hk & [x Hx]%list_elem_of_lookup).
      destruct (Forall2_lookup_r _ _ _ _ _ HF Hx) as (jx & _ & Hsx).
      apply elem_of_concat. exists nsx. split; [by eapply (subtree_sub jx nsx k nsk)|by eapply list_elem_of_lookup_2].
  - intros k Hk. rewrite not_elem_of_cons, not_elem_of_app in Hk. destruct Hk as (Hki & Hk1 & Hk2).
    rewrite H3 by (by apply not_elem_of_cons). rewrite Hm2 by done. by apply W2.
Qed.

Lemma calc_weight_ok fuel i l ns m :
  subtree c i ns → path (nheap c) (root_node c) i l → (size (heap c) < fuel + length l)%nat →
  ∃ m', calc_weight fuel c i m = Ok m' ∧ weighed m m' ns.
Proof.
  revert i l ns m. induction fuel as [|fuel IH]; intros i l ns m Hs Hl Hf.
  { pose proof (path_length _ _ _ _ Hl) as Hle. rewrite size_nheap in Hle. lia. }
  pose proof (subtree_paths i ns l Hs Hl) as [Hnd Hlive]. pose proof Hs as Hs0. destruct Hs as [i n nss Hi Hch].
  cbn [calc_weight]. rewrite (node_at_eq _ _ _ Hi). run_bind. apply NoDup_cons in Hnd as [Hni Hnd].
  assert (Hkids : ∀ j, j ∈ (children n).*2 → path (nheap c) (root_node c) j (j :: l))
    by (intros j Hj; by apply (child_facts i n j l Hi Hl Hj)).
  destruct (calc_children_ok fuel i l (children n) nss m) as (m' & E & H1 & H2 & H3); [|done|done|done|done|].
  { intros j nsj m0 Hsj Hp. apply (IH j (j :: l)); [done|done|simpl; lia]. }
  exists m'. split; [exact E|]. split; [|done]. intros j nsj [->|Hj]%elem_of_cons Hsj; [|by apply H2].
  rewrite (subtree_det _ _ _ Hsj Hs0). unfold weight_sum. rewrite fmap_cons, sumZ_cons. exact H1.
Qed.

(** ** The traversal *)

(** The weights are the numbers of requests below the nodes. *)
Definition counted (q : list QReq) (m : gmap (option nat) Z) (ns : list nat) : Prop :=
  ∀ j nsj, j ∈ ns → subtree c j nsj → weight m j = Z.of_nat (length (concat (reqs_at q <$> nsj))).

Lemma dfs_children_ok fuel m q cs nss acc :
  (∀ j ns acc, j ∈ cs → subtree c j ns → ∃ out,
     get_dfs_priority fuel c j m (group_by_node q) acc = Ok (acc ++ out) ∧ dfs_order c q j out ∧ out ≡ₚ concat (reqs_at q <$> ns)) →
  Forall2 (subtree c) cs nss →
  ∃ ls, foldM (fun a child => get_dfs_priority fuel c child m (group_by_node q) a) cs acc = Ok (acc ++ concat ls) ∧
    Forall2 (dfs_order c q) cs ls ∧ Forall2 (fun ns l => l ≡ₚ concat (reqs_at q <$> ns)) nss ls.
Proof.
  intros Hone HF. revert acc. induction HF as [|j ns cs nss Hj HF IH]; intros acc.
  { exists []. cbn. rewrite app_nil_r. by split_and!. }
  destruct (Hone j ns acc) as (out & E & Ho & Hp); [left|done|]. cbn [foldM]. rewrite E. cbn [mbind result_bind].
  destruct (IH ltac:(intros; apply Hone; [by right|done]) (acc ++ out)) as (ls & E' & H1 & H2).
  exists (out :: ls). rewrite E'. cbn [concat]. rewrite app_assoc. split; [done|]. split; by constructor.
Qed.

Lemma concat_reqs_perm q nss ls :
  Forall2 (fun ns l => l ≡ₚ concat (reqs_at q <$> ns)) nss ls → concat ls ≡ₚ concat (reqs_at q <$> concat nss).
Proof.
  induction 1 as [|ns l nss ls Hl _ IH]; [done|]. cbn [concat]. rewrite fmap_app, concat_app. by rewrite Hl, IH.
Qed.

Lemma sorted_lengths m q cs nss ls :
  in_order (fun x => - weight m x) cs → (∀ j nsj, j ∈ cs → subtree c j nsj → weight m j = Z.of_nat (length (concat (reqs_at q <$> nsj)))) →
  Forall2 (subtree c) cs nss → Forall2 (fun ns l => l ≡ₚ concat (reqs_at q <$> ns)) nss ls →
  StronglySorted (fun a b => (length b ≤ length a)%nat) ls.
Proof.
  intros Hs Hc Hsub. revert ls. induction Hsub as [|j ns cs nss Hj Hsub IH]; intros ls Hp.
  { apply Forall2_nil_inv_l in Hp as ->. constructor. }
  apply Forall2_cons_inv_l in Hp as (l & ls' & Hl & Hp & ->). apply StronglySorted_inv in Hs as [Hs Hall].
  constructor; [apply IH; [done|intros; apply Hc; [by right|done]|done]|].
  apply Forall_lookup. intros x l' Hx. destruct (Forall2_lookup_r _ _ _ _ _ Hp Hx) as (ns' & Hns' & Hl').
  destruct (Forall2_lookup_r _ _ _ _ _ Hsub Hns') as (k & Hk & Hsk). rewrite Forall_lookup in Hall. specialize (Hall _ _ Hk).
  unfold py_lt, Z_ord in Hall. rewrite Z.ltb_ge in Hall.
  rewrite (Hc j ns), (Hc k ns') in Hall; [|right; by eapply list_elem_of_lookup_2|done|left|done]. rewrite Hl, Hl'. lia.
Qed.

Lemma get_dfs_ok fuel i l ns m q acc :
  subtree c i ns → path (nheap c) (root_node c) i l → (size (heap c) < fuel + length l)%nat → counted q m ns →
  ∃ out, get_dfs_priority fuel c i m (group_by_node q) acc = Ok (acc ++ out) ∧ dfs_order c q i out ∧
    out ≡ₚ concat (reqs_at q <$> ns).
Proof.
  revert i l ns acc. induction fuel as [|fuel IH]; intros i l ns acc Hs Hl Hf Hc.
  { pose proof (path_length _ _ _ _ Hl) as Hle. rewrite size_nheap in Hle. lia. }
  pose proof Hs as Hs0. destruct Hs as [i n nss Hi Hch]. cbn [get_dfs_priority]. rewrite (node_at_eq _ _ _ Hi).
  cbn [mbind result_bind]. set (cs := py_sort (fun x => - weight m x) (children n).*2).
  assert (Hcs : cs ≡ₚ (children n).*2) by apply py_sort_perm.
  destruct (Permutation_Forall2 (Permutation_sym Hcs) Hch) as (nss' & Hpn & Hch').
  assert (Hsub : ∀ j nsj, j ∈ cs → subtree c j nsj → j ∈ i :: concat nss ∧ nsj ⊆ i :: concat nss).
  { intros j nsj Hj Hsj. assert (Hin : j ∈ i :: concat nss); [|split; [done|by eapply subtree_sub]].
    eapply subtree_closed; [exact Hs0|left|exact Hi|by rewrite <-Hcs]. }
  destruct (dfs_children_ok fuel m q cs nss' acc) as (ls & E & Ho & Hp); [|done|].
  { intros j nsj acc' Hj Hsj. destruct (Hsub j nsj Hj Hsj) as [Hin Hss].
    apply (IH j (j :: l)); [done|apply (child_facts i n j l Hi Hl); by rewrite <-Hcs|simpl; lia|].
    intros k nsk Hk Hsk. apply Hc; [by apply Hss|done]. }
  rewrite E. cbn [mbind result_bind]. rewrite group_by_node_at. fold (reqs_at q i).
  exists (concat ls ++ reqs_at q i). rewrite app_assoc. split; [done|]. split.
  - econstructor; [done|exact Hcs|exact Ho|]. apply (sorted_lengths m q cs nss' ls (py_sort_order _ _)); [|done|done].
    intros j nsj Hj Hsj. apply Hc; [exact (proj1 (Hsub j nsj Hj Hsj))|done].
  - rewrite (concat_reqs_perm q nss' ls Hp), fmap_cons. cbn [concat]. rewrite Permutation_app_comm. f_equiv.
    assert (Hcp : concat nss' ≡ₚ concat nss) by (by rewrite Hpn). by rewrite Hcp.
Qed.

(** The whole policy: the queue in depth-first order, nothing lost. *)
Lemma sort_by_dfs_weight_ok q :
  (∀ r, r ∈ q → ∃ i, last_node (base r) = Some i ∧ is_Some (heap c !! i)) →
  ∃ q', _sort_by_dfs_weight c q = Ok q' ∧ dfs_order c q (root_node c) q' ∧ q' ≡ₚ q.
Proof.
  intros Hq. destruct root_subtree as (ns & Hs & Hnd & Hall). unfold _sort_by_dfs_weight.
  set (m0 := (fun l : list QReq => Z.of_nat (length l)) <$> group_by_node q).
  destruct (calc_weight_ok (S (size (heap c))) (root_node c) [] ns m0 Hs) as (m & E & Hm & _); [constructor|simpl; lia|].
  rewrite E. cbn [mbind result_bind].
  destruct (get_dfs_ok (S (size (heap c))) (root_node c) [] ns m q [] Hs) as (out & E' & Ho & Hp); [constructor|simpl; lia| |].
  { intros j nsj Hj Hsj. rewrite (Hm j nsj Hj Hsj). clear. unfold weight_sum. induction nsj as [|k nsj IH]; [done|].
    rewrite !fmap_cons, sumZ_cons. cbn [concat]. rewrite length_app, Nat2Z.inj_add, IH. f_equal.
    unfold weight, m0, reqs_at. rewrite lookup_fmap, <-group_by_node_at. by destruct (group_by_node q !! Some k). }
  exists out. split; [exact E'|]. split; [done|]. rewrite Hp. apply group_cover; [done|].
  intros r Hr. destruct (Hq r Hr) as (i & Hi & Hin). exists i. split; [done|by apply Hall].
Qed.

End subtrees.

(** * Prefix sharing in the queue *)

(** The match of [r] against the server's tree, everything else as it was. *)
Definition rematched (r r' : QReq) : Prop :=
  ∃ idx node, r' = set_base (set_prefix idx (Some node) (cache_protected_len (base r)) (base r)) r.

(** Little of the request is cached. *)
Definition uncached (r : QReq) : Prop :=
  Z.of_nat (length (prefix_indices (base r))) ≤ IN_BATCH_PREFIX_CACHING_CHECK_THRESHOLD.

(** The prompts begin with the same tokens, under the same key. *)
Definition shares (r s : QReq) : Prop :=
  req_extra_key (base r) = req_extra_key (base s) ∧
  ∃ ts, IN_BATCH_PREFIX_CACHING_DEPRIORITIZE_THRESHOLD ≤ Z.of_nat (length ts) ∧
    ts `prefix_of` prefix_ids r ∧ ts `prefix_of` prefix_ids s.

(** Those that put their prompt into the tree of the queue. *)
Definition leader (late : gset string) (s : QReq) : Prop := uncached s ∧ rid s ∉ late.

(** A request waits exactly if an earlier leader will cache a prefix of it. *)
Definition shared_late (late : gset string) (q : list QReq) : Prop :=
  ∀ pre r post, q = pre ++ r :: post →
    rid r ∈ late ↔ uncached r ∧ ∃ s, s ∈ pre ∧ leader late s ∧ shares r s.

Section sharing.
Context (page_size : nat) (is_eagle : bool) (monotonic : nat → Z) (uninit : nat → list Z).
Hypothesis Hps : (0 < page_size)%nat.
Hypothesis Huninit : ∀ n, length (uninit n) = n.
#[local] Notation wf := (wf page_size is_eagle).
#[local] Notation quiet := (quiet page_size is_eagle).

(** What the loop has established after the requests [m_done]. *)
Record matching_ok (t : RadixCache) (q : list QReq) (s : Matching) : Prop := {
  mo_tree : quiet t (m_tree s);
  mo_done : Forall2 rematched q (m_done s);
  mo_match : Forall (fun r => (∃ j, last_node (base r) = Some j ∧ is_Some (heap (m_tree s) !! j)) ∧
               ∃ n, longest (cached page_size t) (req_extra_key (base r)) (units (norm_key page_size is_eagle (prefix_key r))) n
                      (prefix_indices (base r))) (m_done s);
  mo_queue : RadixCache.wf 1 false (m_queue s);
  mo_content : ∀ e us vs, cached 1 (m_queue s) e us vs → us ≠ [] →
    ∃ r, r ∈ m_done s ∧ leader (m_late s) r ∧ e = req_extra_key (base r) ∧ us `prefix_of` units (prefix_key r);
  mo_leaders : ∀ r us, r ∈ m_done s → leader (m_late s) r → us `prefix_of` units (prefix_key r) →
    ∃ vs, cached 1 (m_queue s) (req_extra_key (base r)) us vs;
  mo_rids : ∀ x, x ∈ m_late s → x ∈ rid <$> m_done s;
  mo_late : shared_late (m_late s) (m_done s);
}.

Lemma quiet_live c c' j : quiet c c' → is_Some (heap c !! j) → is_Some (heap c' !! j).
Proof. intros Hq Hj. apply heap_nheap. apply (q_locks _ _ _ _ Hq). by apply heap_nheap. Qed.

Lemma match_for_req_ok t r :
  wf t → ∃ t' r', match_prefix_for_req page_size is_eagle monotonic t r = Ok (t', r') ∧ quiet t t' ∧ rematched r r' ∧
    (∃ j, last_node (base r') = Some j ∧ is_Some (heap t' !! j)) ∧
    ∃ n, longest (cached page_size t) (req_extra_key (base r')) (units (norm_key page_size is_eagle (prefix_key r'))) n
           (prefix_indices (base r')).
Proof.
  intros Hw. destruct (match_prefix_longest page_size is_eagle monotonic Hps (prefix_key r) t Hw ltac:(done))
    as (t' & vs & j & n & E & Hq & Hl & Hf).
  unfold match_prefix_for_req. rewrite E. cbn [mbind result_bind]. do 2 eexists. split; [done|]. split; [done|].
  split; [by exists vs, j|]. split; [exists j; split; [done|]|by exists n].
  eapply (full_live page_size is_eagle); [apply Hq|exact Hf].
Qed.

Lemma reset_content c e us vs : cached 1 (reset monotonic c) e us vs → us = [].
Proof.
  intros (i & fu & fv & Hf & -> & _). destruct Hf as [|i n p us' vs' Hi Hn _ _ _]; [by rewrite take_nil|].
  exfalso. unfold nheap, reset in Hn. simpl in *. rewrite lookup_fmap, lookup_insert_ne, lookup_empty in Hn by done. done.
Qed.

Lemma prefix_key_units s ts :
  ((fun a => (a, None)) <$> ts) `prefix_of` units (prefix_key s) ↔ ts `prefix_of` prefix_ids s.
Proof.
  unfold units. cbn [is_bigram prefix_key token_ids]. split.
  - intros [k Hk]. exists (fst <$> k). apply (f_equal (fmap fst)) in Hk. rewrite fmap_app, <-!list_fmap_compose in Hk.
    by rewrite !list_fmap_id in Hk.
  - intros [k ->]. rewrite fmap_app. by eexists.
Qed.

Lemma longest_quiet c c' e us n vs : quiet c c' → longest (cached page_size c') e us n vs → longest (cached page_size c) e us n vs.
Proof.
  intros Hq (H1 & H2 & H3 & H4). pose proof (fun e us vs => quiet_stored page_size is_eagle c c' e us vs Hq) as Hs.
  split; [by apply Hs|]. split; [done|]. split; [done|]. intros m ws Hm Hc. apply (H4 m ws Hm). by apply Hs.
Qed.

(** The queue's tree finds a long match exactly if an earlier leader shares one. *)
Lemma queue_match_ok t q s r :
  matching_ok t q s →
  ∃ c vs j, queue_match monotonic (prefix_key r) (m_queue s) = Ok (c, vs, j) ∧ RadixOps.quiet 1 false (m_queue s) c ∧
    (IN_BATCH_PREFIX_CACHING_DEPRIORITIZE_THRESHOLD ≤ Z.of_nat (length vs) ↔
       ∃ x, x ∈ m_done s ∧ leader (m_late s) x ∧ shares r x).
Proof.
  intros Hs. destruct (match_prefix_longest 1 false monotonic ltac:(lia) (prefix_key r) (m_queue s) (mo_queue _ _ _ Hs) ltac:(done))
    as (c & vs & j & n & E & Hq & (H1 & H2 & H3 & H4) & _).
  change (norm_key 1 false (prefix_key r)) with (prefix_key r) in *. cbn [extra_key prefix_key] in *.
  exists c, vs, j. split; [exact E|]. split; [done|]. unfold IN_BATCH_PREFIX_CACHING_DEPRIORITIZE_THRESHOLD.
  assert (Hlu : length (units (prefix_key r)) = length (prefix_ids r)) by (rewrite length_units; done).
  split.
  - intros Hn. destruct (mo_content _ _ _ Hs _ _ _ H1) as (x & Hx & Hl & He & Hp).
    { intros E0. apply (f_equal length) in E0. rewrite length_take in E0. simpl in E0. lia. }
    exists x. split; [done|]. split; [done|]. split; [done|]. exists (take n (prefix_ids r)).
    split; [unfold IN_BATCH_PREFIX_CACHING_DEPRIORITIZE_THRESHOLD; len_lia|].
    split; [apply prefix_take|]. apply prefix_key_units. unfold units in Hp at 1. cbn [is_bigram prefix_key token_ids] in Hp. rewrite fmap_take. exact Hp.
  - intros (x & Hx & Hl & He & ts & Hlen & Hr & Hxs). unfold IN_BATCH_PREFIX_CACHING_DEPRIORITIZE_THRESHOLD in Hlen.
    destruct (mo_leaders _ _ _ Hs x ((fun a => (a, None)) <$> ts) Hx Hl) as [ws Hc]; [by apply prefix_key_units|].
    rewrite <-He in Hc. assert (Htk : take (length ts) (units (prefix_key r)) = (fun a => (a, None)) <$> ts).
    { unfold units. cbn [is_bigram prefix_key token_ids]. rewrite <-fmap_take. f_equal. destruct Hr as [k ->]. apply take_app_length. }
    rewrite <-Htk in Hc. pose proof (prefix_length _ _ Hr). specialize (H4 (length ts) ws ltac:(lia) Hc). lia.
Qed.

(** Leaders among the requests seen do not change with later ones. *)
Lemma leader_same late late' (dn : list QReq) x r :
  rid r ∉ rid <$> dn → (∀ y, y ≠ rid r → y ∈ late' ↔ y ∈ late) → x ∈ dn → leader late' x ↔ leader late x.
Proof.
  intros Hr Hl Hx. assert (rid x ≠ rid r) by (intros E; apply Hr; rewrite <-E; by apply list_elem_of_fmap_2).
  unfold leader. by rewrite Hl.
Qed.

Lemma shared_late_snoc late late' (dn : list QReq) r :
  shared_late late dn → rid r ∉ rid <$> dn → (∀ y, y ≠ rid r → y ∈ late' ↔ y ∈ late) →
  (rid r ∈ late' ↔ uncached r ∧ ∃ s, s ∈ dn ∧ leader late s ∧ shares r s) → shared_late late' (dn ++ [r]).
Proof.
  intros Hs Hr Hl Hnew pre r0 post E.
  assert (Hsame : ∀ l : list QReq, (∀ x, x ∈ l → x ∈ dn) → ∀ y, (∃ s, s ∈ l ∧ leader late' s ∧ shares y s) ↔ (∃ s, s ∈ l ∧ leader late s ∧ shares y s)).
  { intros l Hin y. split; intros (x & Hx & Hld & Hsh); exists x; (split; [done|]; split; [|done]);
      by apply (leader_same late late' dn x r Hr Hl (Hin _ Hx)). }
  destruct post as [|r1 post _] using rev_ind.
  - apply app_inj_tail in E as [-> ->]. by rewrite Hsame.
  - rewrite app_comm_cons, app_assoc in E. apply app_inj_tail in E as [-> ->].
    rewrite Hl by (intros E; apply Hr; rewrite <-E; apply list_elem_of_fmap_2; set_solver).
    rewrite (Hs pre r0 post eq_refl), Hsame; [done|]. set_solver.
Qed.

(** The part of the invariant every branch of the loop re-establishes. *)
Lemma matching_ok_snoc t q s r r' t' c' late' :
  matching_ok t q s → wf (m_tree s) → rid r ∉ rid <$> m_done s → quiet (m_tree s) t' → rematched r r' →
  (∃ j, last_node (base r') = Some j ∧ is_Some (heap t' !! j)) →
  (∃ n, longest (cached page_size (m_tree s)) (req_extra_key (base r')) (units (norm_key page_size is_eagle (prefix_key r'))) n
          (prefix_indices (base r'))) →
  RadixCache.wf 1 false c' → (∀ y, y ≠ rid r' → y ∈ late' ↔ y ∈ m_late s) →
  (rid r' ∈ late' ↔ uncached r' ∧ ∃ x, x ∈ m_done s ∧ leader (m_late s) x ∧ shares r' x) →
  (∀ e us vs, cached 1 c' e us vs → us ≠ [] → (∃ vs', cached 1 (m_queue s) e us vs') ∨
     leader late' r' ∧ e = req_extra_key (base r') ∧ us `prefix_of` units (prefix_key r')) →
  (∀ e us vs, cached 1 (m_queue s) e us vs → cached 1 c' e us vs) →
  (leader late' r' → ∀ us, us `prefix_of` units (prefix_key r') → ∃ vs, cached 1 c' (req_extra_key (base r')) us vs) →
  matching_ok t (q ++ [r]) (mkMatching t' c' late' (m_done s ++ [r'])).
Proof.
  intros Hs Hw Hrid Hq Hre Hlive Hlong Hwc Hl Hnew Honly Hkeep Hins.
  assert (Hrr : rid r' = rid r) by (by destruct Hre as (? & ? & ->)). rewrite <-Hrr in Hrid.
  assert (Hld : ∀ x, x ∈ m_done s → leader late' x ↔ leader (m_late s) x) by (intros x; by apply (leader_same _ _ _ x r' Hrid Hl)).
  destruct Hs as [S1 S2 S3 S4 S5 S6 S7 S8]. split; cbn [m_tree m_queue m_late m_done].
  - by eapply quiet_trans.
  - apply Forall2_app; [done|by constructor].
  - apply Forall_app. split; [|constructor; [|constructor]].
    + eapply Forall_impl; [exact S3|]. intros x [(j & Hj & Hs) Hn]. split; [|done]. exists j. split; [done|by eapply quiet_live].
    + split; [done|]. destruct Hlong as [n Hn]. exists n. by eapply longest_quiet.
  - done.
  - intros e us vs Hc Hne. destruct (Honly e us vs Hc Hne) as [[vs' Hc']|(H1 & H2 & H3)].
    + destruct (S5 e us vs' Hc' Hne) as (x & Hx & H1 & H2 & H3). exists x. rewrite elem_of_app, Hld by done. by split_and!; [left|..].
    + exists r'. rewrite elem_of_app. split_and!; [right; left|done..].
  - intros x us [Hx|Hx]%elem_of_app Hlx Hp.
    + destruct (S6 x us Hx) as [vs Hc]; [by apply Hld|done|]. exists vs. by apply Hkeep.
    + apply list_elem_of_singleton in Hx as ->. by apply Hins.
  - intros y Hy. rewrite fmap_app, elem_of_app. destruct (decide (y = rid r')) as [->|Hn]; [right; left|]. left. apply S7. by apply Hl.
  - by apply (shared_late_snoc (m_late s)).
Qed.

Lemma match_step_ok t q s r :
  matching_ok t q s → rid r ∉ rid <$> m_done s →
  ∃ s', match_step page_size is_eagle monotonic uninit s r = Ok s' ∧ matching_ok t (q ++ [r]) s'.
Proof.
  intros Hs Hrid. pose proof (q_wf _ _ _ _ (mo_tree _ _ _ Hs)) as Hw.
  destruct (match_for_req_ok (m_tree s) r Hw) as (t' & r' & E & Hq & Hre & Hlive & Hlong).
  assert (Hrr : rid r' = rid r) by (by destruct Hre as (? & ? & ->)).
  assert (Hnl : rid r' ∉ m_late s) by (rewrite Hrr; intros Hin; by apply Hrid, (mo_rids _ _ _ Hs)).
  unfold match_step. rewrite E. cbn [mbind result_bind]. case_bool_decide as Hshort.
  2:{ eexists. split; [done|]. eapply matching_ok_snoc; try done; [apply Hs|unfold uncached; naive_solver|naive_solver|].
      intros [Hu _]. done. }
  destruct (queue_match_ok t q s r' Hs) as (c & vs & j & Eq & Hqq & Hiff). rewrite Eq. cbn [mbind result_bind].
  pose proof (fun e us vs => quiet_stored 1 false (m_queue s) c e us vs Hqq) as Hst. case_bool_decide as Hlong'.
  { eexists. split; [done|]. eapply matching_ok_snoc; try done; [apply Hqq|set_solver|set_solver| | |].
    - intros e us ws Hc _. left. exists ws. by apply Hst.
    - intros e us ws Hc. by apply Hst.
    - intros [_ Hn]. set_solver. }
  destruct (insert_longest 1 false monotonic ltac:(lia) (prefix_key r') (Some (uninit (length (prefix_ids r')))) 0 false c)
    as (c2 & n & ws & Ei & _ & Hins); [apply Hqq|done|cbn; by rewrite Huninit|].
  unfold queue_insert. rewrite Ei. cbn [mbind result_bind fst]. eexists. split; [done|].
  apply (inserted_extended 1 false ltac:(lia)) in Hins as Hext; [|apply Hqq].
  change (norm_key 1 false (prefix_key r')) with (prefix_key r') in *.
  eapply matching_ok_snoc; try done; [apply Hins|naive_solver| | |].
  - intros e us ws' Hc _. apply Hext in Hc as [Hc|(-> & Hp & _)]; [left; exists ws'; by apply Hst|by right].
  - intros e us ws' Hc. apply Hext. left. by apply Hst.
  - intros _ us Hp. eexists. apply Hext. right. split; [done|]. split; [done|]. split; [apply Nat.mod_1_r|done].
Qed.

Lemma compute_prefix_matches_ok t wt q :
  wf t → NoDup (rid <$> q) →
  ∃ s, _compute_prefix_matches page_size is_eagle monotonic uninit t wt q = Ok s ∧ matching_ok t q s.
Proof.
  intros Hw Hnd. apply (foldM_invariant (matching_ok t)).
  - split; cbn [m_tree m_queue m_late m_done].
    + by apply quiet_refl.
    + constructor.
    + constructor.
    + apply (reset_ok 1 false monotonic); lia.
    + intros e us vs Hc Hne. by apply reset_content in Hc.
    + intros r us Hr. by apply not_elem_of_nil in Hr.
    + set_solver.
    + intros pre r post E. by destruct pre.
  - intros dn r todo s Hq Hs. apply match_step_ok; [done|]. intros Hin.
    assert (Hr : rid <$> m_done s = rid <$> dn).
    { pose proof (mo_done _ _ _ Hs) as HF. clear -HF. induction HF as [|x y l k (? & ? & ->) _ IH]; [done|]. rewrite !fmap_cons, IH. done. }
    rewrite Hr in Hin. rewrite Hq, fmap_app, fmap_cons in Hnd. apply NoDup_app in Hnd as (_ & Hd & _). apply (Hd _ Hin). left.
Qed.

(** Matching the waiting queue against the tree succeeds, gives every request
    its longest cached prefix and leaves the cached prefixes alone; a request is
    set back exactly if little of it is cached and an earlier request of the queue
    that is not set back itself shares at least the threshold of leading tokens
    under the same key, so that one request of each group goes first. *)
Theorem in_batch_sharing t wt q :
  wf t → NoDup (rid <$> q) →
  ∃ s, _compute_prefix_matches page_size is_eagle monotonic uninit t wt q = Ok s ∧
    Forall2 rematched q (m_done s) ∧ shared_late (m_late s) (m_done s) ∧
    Forall (fun r => ∃ n, longest (cached page_size t) (req_extra_key (base r))
              (units (norm_key page_size is_eagle (prefix_key r))) n (prefix_indices (base r))) (m_done s) ∧
    wf (m_tree s) ∧ (∀ e us vs, cached page_size (m_tree s) e us vs ↔ cached page_size t e us vs).
Proof.
  intros Hw Hnd. destruct (compute_prefix_matches_ok t wt q Hw Hnd) as (s & E & Hs). exists s. split; [done|].
  split; [apply Hs|]. split; [apply Hs|]. split; [|split].
  - eapply Forall_impl; [apply Hs|]. by intros r [_ ?].
  - apply (mo_tree _ _ _ Hs).
  - intros e us vs. symmetry. exact (quiet_stored page_size is_eagle _ _ _ _ _ (mo_tree _ _ _ Hs)).
Qed.

(** * The queue after [calc_priority] *)

Context (shuffle : list QReq → list QReq).
Hypothesis Hshuffle : ∀ l, shuffle l ≡ₚ l.

Definition priority_of (sign : Z) (r : QReq) : Z := default 0 (req_priority (base r)) * sign.

(** The order each policy promises for the requests [q1]. *)
Definition ordered (sp : SchedulePolicy) (q : list QReq) (running : option (list QReq)) (t' : RadixCache)
    (q1 q' : list QReq) : Prop :=
  match _determine_active_policy sp q with
  | Aware LPM => ∃ late, shared_late late q1 ∧ sorted_by (longest_prefix_key late) q1 q'
  | Aware DFS_WEIGHT => dfs_order t' q1 (root_node t') q'
  | Agnostic FCFS =>
      if bool_decide (policy sp = Agnostic FCFS) && enable_priority_scheduling sp
      then sorted_by (fun r => (priority_of (priority_sign sp) r, wait_queue_entry_time r)) q1 q' else q' = q1
  | Agnostic LOF =>
      if enable_priority_scheduling sp then sorted_by (fun r => (priority_of (priority_sign sp) r, - max_new_tokens r)) q1 q'
      else sorted_by (fun r => - max_new_tokens r) q1 q'
  | Agnostic RANDOM => True
  | Agnostic ROUTING_KEY =>
      match running with
      | Some rs => if bool_decide (count_keys rs = ∅) then q' = q1 else sorted_by (routing_sort_key (count_keys rs)) q1 q'
      | None => q' = q1
      end
  end.

Lemma signed_priority_ok (sp : SchedulePolicy) q :
  (enable_priority_scheduling sp = true → Forall (fun r => req_priority (base r) ≠ None) q) → enable_priority_scheduling sp = true →
  ∀ r, r ∈ q → signed_priority (priority_sign sp) r = Ok (priority_of (priority_sign sp) r).
Proof.
  intros Hp He r Hr. specialize (Hp He). rewrite Forall_forall in Hp. specialize (Hp r Hr).
  unfold signed_priority, priority_of. by destruct (req_priority (base r)).
Qed.

Lemma calc_priority_ok q running t sp :
  wf t → NoDup (rid <$> q) → (enable_priority_scheduling sp = true → Forall (fun r => req_priority (base r) ≠ None) q) →
  ∃ t' sp' q1 q', calc_priority page_size is_eagle monotonic uninit shuffle q running t sp = Ok (t', sp', q') ∧
    (q1 = q ∨ Forall2 rematched q q1) ∧ q' ≡ₚ q1 ∧ ordered sp q running t' q1 q' ∧
    policy sp' = policy sp ∧ enable_priority_scheduling sp' = enable_priority_scheduling sp ∧ quiet t t'.
Proof.
  intros Hw Hnd Hprio. unfold calc_priority, ordered. pose proof (signed_priority_ok sp q Hprio) as Hsp.
  case_bool_decide as Hf.
  { assert (_determine_active_policy sp q = Agnostic FCFS) as -> by (unfold _determine_active_policy; rewrite Hf; done).
    exists t, sp, q. destruct (enable_priority_scheduling sp); cbn [andb]; [|exists q; split_and!; auto using quiet_refl].
    destruct (sort_with_ok (fun x => do! p <- signed_priority (priority_sign sp) x; Ok (p, wait_queue_entry_time x))
      (fun r => (priority_of (priority_sign sp) r, wait_queue_entry_time r)) q) as (q' & E & Hs).
    { intros r Hr. by rewrite Hsp. }
    exists q'. unfold _sort_by_priority_and_fcfs. rewrite E. split_and!; auto using quiet_refl. apply Hs. }
  destruct (_determine_active_policy sp q) as [p|p] eqn:Hact.
  - destruct (compute_prefix_matches_ok t (waiting_queue_radix_tree sp) q Hw Hnd) as (s & E & Hs). rewrite E. cbn [mbind result_bind].
    pose proof (mo_tree _ _ _ Hs) as Hq. pose proof (mo_done _ _ _ Hs) as Hd.
    exists (m_tree s), (set_waiting_tree (m_queue s) sp), (m_done s). destruct p.
    + pose proof (py_sort_spec (longest_prefix_key (m_late s)) (m_done s)) as Hsort.
      eexists. split; [done|]. split; [by right|]. split; [apply Hsort|]. split; [|by split_and!]. exists (m_late s). split; [apply Hs|exact Hsort].
    + destruct (sort_by_dfs_weight_ok page_size is_eagle (m_tree s) (q_wf _ _ _ _ Hq) (m_done s)) as (q' & E' & Ho & Hp).
      { intros r Hr. pose proof (mo_match _ _ _ Hs) as Hm. rewrite Forall_forall in Hm. by destruct (Hm r Hr). }
      rewrite E'. exists q'. split_and!; auto.
  - exists t, sp, q. destruct p; cbn [andb].
    + exists q. split_and!; auto using quiet_refl.
    + unfold _sort_by_longest_output. destruct (enable_priority_scheduling sp).
      * destruct (sort_with_ok (fun x => do! p <- signed_priority (priority_sign sp) x; Ok (p, - max_new_tokens x))
          (fun r => (priority_of (priority_sign sp) r, - max_new_tokens r)) q) as (q' & E & Hs); [intros r Hr; by rewrite Hsp|].
        rewrite E. exists q'. split_and!; auto using quiet_refl. apply Hs.
      * pose proof (py_sort_spec (fun r => - max_new_tokens r) q) as Hs. eexists. split_and!; auto using quiet_refl. apply Hs.
    + exists (shuffle q). split_and!; auto using quiet_refl.
    + destruct running as [rs|]; [|exists q; split_and!; auto using quiet_refl]. unfold _sort_by_routing_key.
      case_bool_decide; [exists q; split_and!; auto using quiet_refl|].
      pose proof (py_sort_spec (routing_sort_key (count_keys rs)) q) as Hs. eexists. split_and!; auto using quiet_refl. apply Hs.
Qed.

(** C21: [calc_priority] never fails on a queue whose priorities are set, and
    returns the same requests (with their prefix matches renewed when the policy
    looks at the tree), no one lost or doubled, in the order of its policy: stable
    by priority and arrival, by longest output, by frequency of the routing key, by
    longest cached prefix with the sharers of a prefix last, or depth first through
    the tree with the larger subtrees first. *)
Theorem calc_priority_spec q running t sp :
  wf t → NoDup (rid <$> q) → (enable_priority_scheduling sp = true → Forall (fun r => req_priority (base r) ≠ None) q) →
  ∃ t' sp' q1 q', calc_priority page_size is_eagle monotonic uninit shuffle q running t sp = Ok (t', sp', q') ∧
    (q1 = q ∨ Forall2 rematched q q1) ∧ q' ≡ₚ q1 ∧ ordered sp q running t' q1 q' ∧
    policy sp' = policy sp ∧ enable_priority_scheduling sp' = enable_priority_scheduling sp ∧ quiet t t'.
Proof. apply calc_priority_ok. Qed.

End sharing.

(** * Witnesses *)

Definition demo_req (name : string) (ts : list Z) (prio : Z) : QReq :=
  mkQReq (mkReq ts [] [] None (Some prio) 0 0 false None [] None 0 0 0 false false) name 16 false 0 (- prio) None false.

(** Two prompts that share forty tokens, and one of its own. *)
Definition demo_queue : list QReq :=
  [demo_req "a" (seqZ 100 40 ++ [1]) 1; demo_req "b" (seqZ 100 40 ++ [2]) 5; demo_req "c" [1; 2; 3; 4; 5; 6] 3].

Definition demo_zeros (n : nat) : list Z := replicate n 0.

Definition late_of (r : result Matching) : gset string := match r with Ok s => m_late s | Raise _ => ∅ end.

Lemma in_batch_sharing_witness :
  ∃ s, _compute_prefix_matches 2 false clock demo_zeros demo demo demo_queue = Ok s ∧
    shared_late (m_late s) (m_done s) ∧ m_late s = {["b"]}.
Proof.
  destruct (in_batch_sharing 2 false clock demo_zeros ltac:(lia) ltac:(intros n; apply length_replicate) demo demo demo_queue demo_wf)
    as (s & E & _ & Hl & _); [apply (bool_decide_unpack _); vm_compute; exact I|].
  exists s. split; [exact E|]. split; [exact Hl|].
  apply (f_equal late_of) in E. cbn [late_of] in E. rewrite <-E. vm_compute. reflexivity.
Defined.

Definition names_of (r : result (RadixCache * SchedulePolicy * list QReq)) : list string :=
  match r with Ok (_, _, q) => rid <$> q | Raise _ => [] end.

Lemma calc_priority_spec_witness :
  ∃ t' sp' q1 q', calc_priority 2 false clock demo_zeros reverse demo_queue None demo (mkSP (Aware LPM) true (-1) demo) = Ok (t', sp', q') ∧
    q' ≡ₚ q1 ∧ rid <$> q' = ["c"; "a"; "b"].
Proof.
  destruct (calc_priority_spec 2 false clock demo_zeros ltac:(lia) ltac:(intros n; apply length_replicate) reverse
    ltac:(intros l; apply reverse_Permutation) demo_queue None demo (mkSP (Aware LPM) true (-1) demo) demo_wf)
    as (t' & sp' & q1 & q' & E & _ & Hp & _).
  - apply (bool_decide_unpack _). vm_compute. exact I.
  - intros _. by repeat constructor.
  - exists t', sp', q1, q'. split; [exact E|]. split; [exact Hp|].
    apply (f_equal names_of) in E. cbn [names_of] in E. rewrite <-E. vm_compute. reflexivity.
Defined.
