(* ===== verification/PrefillAdder.v ===== *)
(** Admission of waiting requests into a prefill batch ([PrefillAdder] of
    [managers/schedule_policy.py] and the admission loop of
    [_get_new_batch_prefill_raw] in [managers/scheduler.py]): token budgets, the
    temporary lock on the matched prefix, chunking, the path for requests that
    ignore the end token, and preemption of running requests.

    The adder works on a [World] whose cache meets the interface below.  Ratios are
    exact rationals.  The allocator is the standard one: the sliding-window and
    mamba branches are not taken, and since no cache of the interface has a host
    tier, [host_hit_length] is 0.  The outcome of the delay negotiation, which one
    pass asks once and then repeats, is a parameter. *)

From S2P Require Import Prelude PySort VisiblePlan Allocator RadixKey RadixCache RadixOps RadixSpec ReqPool ReqCache KvSystem SchedulePolicy.
From Stdlib Require Import QArith Qround Lqa.

Open Scope Z_scope.

(** * The cache as the adder uses it *)

Class LockCache (T : Type) {PC : PrefixCache T} := {
  unlock_node : option nat → T → result T;
  (** [getattr(tree_cache, "disable", True)] *)
  cache_disable : bool;
}.

Definition RadixLockCache (page_size : nat) (is_eagle dfi strip : bool) (strategy : EvictionStrategy) (monotonic : nat → Z)
  : @LockCache RadixCache (RadixPrefixCache page_size is_eagle dfi strip strategy monotonic) := {|
  unlock_node := fun n c =>
    match n with Some j => do! d <- dec_lock_ref false j c; Ok d.1 | None => Raise AttributeError end;
  cache_disable := false;
|}.

Definition ChunkLockCache (strip : bool) : @LockCache ChunkCache (ChunkPrefixCache strip) := {|
  unlock_node := fun _ c => Ok c;
  cache_disable := true;
|}.

(** * The adder *)

Inductive AddReqResult := CONTINUE | NO_TOKEN | OTHER.

#[export] Instance add_req_result_eq_dec : EqDecision AddReqResult.
Proof. solve_decision. Defined.

Definition set_extend_input_len (n : Z) (r : QReq) : QReq :=
  mkQReq (base r) (rid r) (max_new_tokens r) (ignore_eos r) n (wait_queue_entry_time r) (routing_key r) (finished r).

(** [l[:n]], counted from the end when [n] is negative. *)
Definition py_take {A} (n : Z) (l : list A) : list A :=
  take (Z.to_nat (if bool_decide (n < 0) then Z.of_nat (length l) + n else n)) l.

Definition cut_fill (n : Z) (r : QReq) : QReq :=
  set_base (set_tokens (output_ids (base r)) (py_take n (fill_ids (base r))) (base r)) r.

Definition prefix_len (r : QReq) : Z := Z.of_nat (length (prefix_indices (base r))).
Definition output_len (r : QReq) : Z := Z.of_nat (length (output_ids (base r))).

Record PrefillAdder := mkAdder {
  rem_input_tokens : Z;
  rem_chunk_tokens : option Z;
  rem_dllm_tokens : Z;
  rem_total_token_offset : Q;
  cur_rem_token_offset : Z;
  req_states : option (list (Q * Z));
  can_run_list : list QReq;
  preempt_list : list QReq;
  new_chunked_req : option QReq;
  log_hit_tokens : Z;
  log_input_tokens : Z;
}.

Definition add_run (r : QReq) (a : PrefillAdder) : PrefillAdder :=
  mkAdder (rem_input_tokens a) (rem_chunk_tokens a) (rem_dllm_tokens a) (rem_total_token_offset a) (cur_rem_token_offset a)
    (req_states a) (can_run_list a ++ [r]) (preempt_list a) (new_chunked_req a) (log_hit_tokens a) (log_input_tokens a).

Definition set_chunked (r : QReq) (a : PrefillAdder) : PrefillAdder :=
  mkAdder (rem_input_tokens a) (rem_chunk_tokens a) (rem_dllm_tokens a) (rem_total_token_offset a) (cur_rem_token_offset a)
    (req_states a) (can_run_list a) (preempt_list a) (Some r) (log_hit_tokens a) (log_input_tokens a).

Definition set_states (l : list (Q * Z)) (a : PrefillAdder) : PrefillAdder :=
  mkAdder (rem_input_tokens a) (rem_chunk_tokens a) (rem_dllm_tokens a) (rem_total_token_offset a) (cur_rem_token_offset a)
    (Some l) (can_run_list a) (preempt_list a) (new_chunked_req a) (log_hit_tokens a) (log_input_tokens a).

Definition Qlt_b (x y : Q) : bool := if Qlt_le_dec x y then true else false.

(** [int(x)]: towards zero. *)
Definition q_int (x : Q) : Z := Z.quot (Qnum x) (Z.pos (Qden x)).

Section adder.
Context {T : Type} {PC : PrefixCache T} {LC : LockCache T}.
(** Constants of one pass: [dllm] is the block size of a diffusion model, [allow_prefill]
    the outcome of the delay negotiation when there is a delayer, [context_parallel]
    stands for the two flags that limit the batch to one request. *)
Context (page_size : Z) (new_token_ratio : Q) (dllm : option Z) (allow_prefill : option bool) (context_parallel : bool)
  (prefill_max_requests : option nat) (preemption_threshold : Z).

Definition _get_running_request_total_token_offset (r : QReq) : Q :=
  inject_Z ((max_new_tokens r - output_len r) `min` CLIP_MAX_NEW_TOKENS) * new_token_ratio.

Definition qsum (l : list Q) : Q := foldr Qplus 0%Q l.

Definition new_adder (running : option (list QReq)) (rem_input : Z) (rem_chunk : option Z) (mixed : Z) (max_running_reqs : Z)
  : PrefillAdder :=
  mkAdder (rem_input - mixed) ((fun c => c - mixed) <$> rem_chunk)
    (match dllm with Some b => max_running_reqs * b | None => 0 end)
    (inject_Z mixed + match running with Some rs => qsum (_get_running_request_total_token_offset <$> rs) | None => 0 end)
    mixed None [] [] None 0 0.

Definition available_and_evictable (w : World T) : Z := available_size (kv w) + evictable (tree w).
Definition rem_total_tokens (w : World T) (a : PrefillAdder) : Q :=
  inject_Z (available_and_evictable w) - rem_total_token_offset a.
Definition cur_rem_tokens (w : World T) (a : PrefillAdder) : Z := available_and_evictable w - cur_rem_token_offset a.

Definition ceil_paged_tokens (tokens : Z) : Z := - (- tokens / page_size) * page_size.

Definition budget_state (w : World T) (a : PrefillAdder) : AddReqResult :=
  if Qle_bool (rem_total_tokens w a) 0 || bool_decide (cur_rem_tokens w a ≤ 0) then NO_TOKEN
  else if bool_decide (rem_input_tokens a ≤ 0) then OTHER
  else
    match dllm with
    | Some _ => if bool_decide (rem_dllm_tokens a ≤ 0) then OTHER else CONTINUE
    | None => match rem_chunk_tokens a with Some c => if bool_decide (c ≤ 0) then OTHER else CONTINUE | None => CONTINUE end
    end.

Definition _update_prefill_budget (prefix extend max_new : Z) (a : PrefillAdder) : PrefillAdder :=
  let extend := ceil_paged_tokens extend in
  mkAdder (rem_input_tokens a - extend)
    (match dllm with Some _ => rem_chunk_tokens a | None => (fun c => c - extend) <$> rem_chunk_tokens a end)
    (match dllm with Some _ => rem_dllm_tokens a - extend | None => rem_dllm_tokens a end)
    (rem_total_token_offset a + inject_Z (extend + max_new + page_size)) (cur_rem_token_offset a + (extend + page_size))
    (req_states a) (can_run_list a) (preempt_list a) (new_chunked_req a) (log_hit_tokens a + prefix) (log_input_tokens a + extend).

(** ** Diffusion models *)

Definition _get_dllm_remain_tokens (block : Z) (w : World T) (a : PrefillAdder) : Z :=
  let rem := rem_dllm_tokens a `min` block `min` q_int (rem_total_tokens w a) in
  if bool_decide (rem ≤ 0) then rem_dllm_tokens a else rem.

Definition _add_dllm_req (block : Z) (r : QReq) (prefix : Z) (a : PrefillAdder) : PrefillAdder * QReq :=
  let trunc_len := rem_dllm_tokens a `min` block / page_size * page_size in
  let r := cut_fill (prefix + trunc_len) (set_extend_input_len trunc_len r) in
  (_update_prefill_budget prefix trunc_len 0 (add_run r a), r).

Definition add_dllm_staging_req (r : QReq) (w : World T) (a : PrefillAdder) : result (PrefillAdder * QReq * AddReqResult) :=
  match dllm with
  | None => Raise AssertionError
  | Some block =>
      let rem := _get_dllm_remain_tokens block w a in
      if bool_decide (rem ≤ 0) then Ok (a, r, NO_TOKEN)
      else
        let truncated := bool_decide (rem < extend_input_len r) in
        let r := set_extend_input_len (extend_input_len r `min` rem) r in
        let r := cut_fill (prefix_len r + extend_input_len r) r in
        let max_new := if truncated then 0 else max_new_tokens r `min` CLIP_MAX_NEW_TOKENS in
        let a := _update_prefill_budget 0 (extend_input_len r) max_new (add_run r a) in
        Ok (a, r, if bool_decide (_get_dllm_remain_tokens block w a ≤ 0) then NO_TOKEN else CONTINUE)
  end.

(** ** The request of an unfinished chunked prefill *)

(** The request comes first in the batch; it is returned again when it is still unfinished. *)
Definition add_chunked_req (r : QReq) (w : World T) (a : PrefillAdder) : result (PrefillAdder * QReq * option QReq) :=
  do! rem <- match dllm with
             | Some block => Ok (_get_dllm_remain_tokens block w a)
             | None =>
                 match rem_chunk_tokens a with
                 | None => Raise TypeError
                 | Some c => let rem := c `min` q_int (rem_total_tokens w a) in Ok (if bool_decide (rem ≤ 0) then c else rem)
                 end
             end;
  let truncated := bool_decide (rem < extend_input_len r) in
  let r := set_extend_input_len (extend_input_len r `min` rem) r in
  let r := cut_fill (prefix_len r + extend_input_len r) r in
  let a := _update_prefill_budget 0 (extend_input_len r) (if truncated then 0 else max_new_tokens r `min` CLIP_MAX_NEW_TOKENS)
             (add_run r a) in
  Ok (a, r, if truncated then Some r else None).

(** ** Requests that ignore the end token *)

(** The state [add_req_state] keeps of a request: tokens it may still produce, tokens it occupies. *)
Definition state_of (r : QReq) : option (Q * Z) :=
  let ratio := if ignore_eos r then 1%Q else new_token_ratio in
  let tokens_left := (inject_Z (max_new_tokens r) * ratio - inject_Z (output_len r))%Q in
  if Qle_bool tokens_left 0 then None
  else Some (tokens_left, Z.of_nat (length (origin_input_ids (base r))) + output_len r).

(** The index the insertion loop ends at: the first state not below [tokens_left], else the last one. *)
Fixpoint insert_index (tokens_left : Q) (l : list (Q * Z)) : nat :=
  match l with
  | [] => 0%nat
  | s :: l' => if Qle_bool tokens_left s.1 then 0%nat else match l' with [] => 0%nat | _ => S (insert_index tokens_left l') end
  end.

Definition insert_state (s : Q * Z) (l : list (Q * Z)) : list (Q * Z) :=
  let i := insert_index s.1 l in take i l ++ s :: drop i l.

Definition Q_ord : PyOrd Q := Qlt_b.

Definition req_states_after (running : option (list QReq)) (r : QReq) (a : PrefillAdder) : list (Q * Z) :=
  match req_states a with
  | None => py_sort (H := Q_ord) fst (omap state_of (r :: default [] running ++ can_run_list a))
  | Some l => match state_of r with Some s => insert_state s l | None => l end
  end.

Definition IGNORE_EOS_RESERVE_TOKENS : Z := 1.

(** The loop over the states: does every request keep enough room until it ends? *)
Fixpoint states_fit (cur : Z) (freed : Z) (l : list (Q * Z)) : bool :=
  match l with
  | [] => true
  | (tokens_left, tokens_occupied) :: l' =>
      let bs := Z.of_nat (length l) in
      let min_free := (inject_Z (cur + freed) - tokens_left * inject_Z bs)%Q in
      if Qle_bool min_free (inject_Z (IGNORE_EOS_RESERVE_TOKENS * bs)) then false else states_fit cur (freed + tokens_occupied) l'
  end.

Definition add_one_req_ignore_eos (running : option (list QReq)) (r : QReq) (w : World T) (a : PrefillAdder)
  : PrefillAdder * QReq * AddReqResult :=
  let paged_input := ceil_paged_tokens (extend_input_len r) in
  if bool_decide (cur_rem_tokens w a < paged_input) || Qlt_b (rem_total_tokens w a) (inject_Z paged_input) then (a, r, NO_TOKEN)
  else
    let a := set_states (req_states_after running r a) a in
    if negb (states_fit (cur_rem_tokens w a - paged_input) 0 (default [] (req_states a))) then (a, r, NO_TOKEN)
    else if bool_decide (allow_prefill = Some false) then (a, r, OTHER)
    else
      match dllm with
      | Some block =>
          if bool_decide (rem_dllm_tokens a ≤ 0) then (a, r, OTHER)
          else let '(a, r) := _add_dllm_req block r 0 a in (a, r, budget_state w a)
      | None =>
          match rem_chunk_tokens a with
          | Some c =>
              if bool_decide (extend_input_len r ≤ c) then
                let a := _update_prefill_budget 0 (extend_input_len r) (max_new_tokens r `min` CLIP_MAX_NEW_TOKENS) (add_run r a) in
                (a, r, budget_state w a)
              else if bool_decide (c ≤ 0) then (a, r, OTHER)
              else
                let r := cut_fill c (set_extend_input_len c r) in
                let a := _update_prefill_budget 0 c 0 (set_chunked r (add_run r a)) in
                (a, r, budget_state w a)
          | None =>
              let a := _update_prefill_budget 0 (extend_input_len r) (max_new_tokens r `min` CLIP_MAX_NEW_TOKENS) (add_run r a) in
              (a, r, budget_state w a)
          end
      end.

(** ** One waiting request *)

(** Without chunking only the first request may exceed [max_prefill_tokens]. *)
Definition over_input (tokens : Z) (a : PrefillAdder) : bool :=
  bool_decide (rem_chunk_tokens a = None) && bool_decide (can_run_list a ≠ []) && bool_decide (rem_input_tokens a ≤ tokens).

(** The length of a truncated chunk, if one fits. *)
Definition chunk_length (align : option Z) (c prefix : Z) : option Z :=
  let trunc_len := c / page_size * page_size in
  if bool_decide (trunc_len ≤ 0) then None
  else
    match (match align with
           | Some al => if bool_decide (trunc_len < al) then None else Some (al * (trunc_len / al))
           | None => Some trunc_len
           end) with
    | None => None
    | Some trunc_len =>
        let trunc_len := (trunc_len + prefix) / page_size * page_size - prefix in
        if bool_decide (trunc_len ≤ 0) then None else Some trunc_len
    end.

Definition lock_for (r : QReq) (w : World T) : result (World T) :=
  do! t <- lock_node (last_node (base r)) (tree w); Ok (set_tree t w).

(** The body of [with self._lock_node(...)]; no verdict means that the request was added. *)
Definition add_locked (align : option Z) (total : Z) (r : QReq) (w : World T) (a : PrefillAdder)
  : result (World T * PrefillAdder * QReq * option AddReqResult) :=
  if Qle_bool (rem_total_tokens w a) (inject_Z total) then Ok (w, a, r, Some NO_TOKEN)
  else
    let input_tokens := ceil_paged_tokens (extend_input_len r) in
    if over_input input_tokens a then Ok (w, a, r, Some OTHER)
    else
      match dllm with
      | Some block =>
          if bool_decide (rem_dllm_tokens a ≤ 0) then Ok (w, a, r, Some OTHER)
          else
            assert! bool_decide (align = None);
            let '(a, r) := _add_dllm_req block r (prefix_len r) a in
            do! w <- lock_for r w; Ok (w, a, r, None)
      | None =>
          let whole := match rem_chunk_tokens a with Some c => bool_decide (input_tokens ≤ c) | None => true end in
          if whole then
            do! w <- lock_for r w;
            Ok (w, _update_prefill_budget (prefix_len r) input_tokens (max_new_tokens r `min` CLIP_MAX_NEW_TOKENS) (add_run r a), r, None)
          else
            match chunk_length align (default 0 (rem_chunk_tokens a)) (prefix_len r) with
            | None => Ok (w, a, r, Some OTHER)
            | Some trunc_len =>
                let r := cut_fill (prefix_len r + trunc_len) (set_extend_input_len trunc_len r) in
                do! w <- lock_for r w;
                Ok (w, _update_prefill_budget (prefix_len r) trunc_len 0 (set_chunked r (add_run r a)), r, None)
            end
      end.

Definition total_tokens (r : QReq) : Z :=
  extend_input_len r + ((max_new_tokens r - output_len r) `max` 0) `min` CLIP_MAX_NEW_TOKENS + page_size.

Definition add_one_req (running : option (list QReq)) (align : option Z) (r : QReq) (w : World T) (a : PrefillAdder)
  : result (World T * PrefillAdder * QReq * AddReqResult) :=
  let n := length (can_run_list a) in
  if bool_decide (allow_prefill = Some false) then Ok (w, a, r, OTHER)
  else if context_parallel && bool_decide (1 ≤ n)%nat then Ok (w, a, r, OTHER)
  else if match prefill_max_requests with Some x => bool_decide (x ≤ n)%nat | None => false end then Ok (w, a, r, OTHER)
  else if ignore_eos r && cache_disable then
    let '(a, r, res) := add_one_req_ignore_eos running r w a in Ok (w, a, r, res)
  else if Qle_bool (rem_total_tokens w a) (inject_Z (total_tokens r)) then Ok (w, a, r, NO_TOKEN)
  else if over_input (ceil_paged_tokens (extend_input_len r)) a then Ok (w, a, r, OTHER)
  else
    let node := last_node (base r) in
    do! t <- lock_node node (tree w);
    do! b <- add_locked align (total_tokens r) r (set_tree t w) a;
    let '(w, a, r, verdict) := b in
    do! t <- unlock_node node (tree w);
    let w := set_tree t w in
    Ok (w, a, r, match verdict with Some v => v | None => budget_state w a end).

(** ** Preemption *)

(** [Req.reset_for_retract], its KV side. *)
Definition reset_for_retract (r : QReq) : QReq :=
  let b := base r in
  set_extend_input_len 0
    (set_base (mkReq (origin_input_ids b) (output_ids b) (fill_ids b) (req_extra_key b) (req_priority b) (reasoning_tokens b) 0
                 (skip_radix_cache_insert b) (req_pool_idx b) [] None 0 0 0 false false) r).

(** The environment variable [SGLANG_RETRACT_DECODE_STEPS] and the flags of [release_kv_cache]. *)
Context (retract_decode_steps : Z) (strip no_speculation : bool).

(** [ScheduleBatch.release_req]. *)
Definition release_req (r : QReq) (remaining : Z) (w : World T) : result (World T * QReq) :=
  do! f <- release_kv_cache strip no_speculation (Z.to_nat page_size) false (base r) w;
  do! w <- evict_from_tree_cache (remaining * retract_decode_steps) f.1;
  Ok (w, reset_for_retract (set_base f.2 r)).

Definition priority_or_raise (r : QReq) : result Z :=
  match req_priority (base r) with Some p => Ok p | None => Raise TypeError end.

(** The victims in order until enough tokens are freed, and the tokens still missing. *)
Fixpoint take_victims (sign prio : Z) (missing : Q) (l : list QReq) : result (list QReq * Q) :=
  match l with
  | [] => Ok ([], missing)
  | v :: l =>
      do! p <- priority_or_raise v;
      if bool_decide (preemption_threshold < (prio - p) * - sign) then
        let missing := (missing - _get_running_request_total_token_offset v)%Q in
        if Qle_bool missing 0 then Ok ([v], missing)
        else do! rest <- take_victims sign prio missing l; Ok (v :: rest.1, rest.2)
      else Ok ([], missing)
  end.

(** The loop that releases the victims, in the order of the running batch. *)
Fixpoint release_victims (victims : list string) (n released : nat) (l : list QReq) (w : World T) (a : PrefillAdder)
  : result (World T * PrefillAdder * list QReq * list QReq) :=
  match l with
  | [] => Ok (w, a, [], [])
  | r :: l =>
      if bool_decide (rid r ∈ victims) then
        let a := mkAdder (rem_input_tokens a) (rem_chunk_tokens a) (rem_dllm_tokens a)
                   (rem_total_token_offset a - _get_running_request_total_token_offset r) (cur_rem_token_offset a)
                   (req_states a) (can_run_list a) (preempt_list a) (new_chunked_req a) (log_hit_tokens a) (log_input_tokens a) in
        do! x <- release_req r (Z.of_nat (n - S released)) w;
        do! y <- release_victims victims n (S released) l x.1 a;
        let '(w, a, keep, out) := y in Ok (w, a, keep, x.2 :: out)
      else
        do! y <- release_victims victims n released l w a;
        let '(w, a, keep, out) := y in Ok (w, a, r :: keep, out)
  end.

Definition preempt_to_schedule (low_first : bool) (r : QReq) (running : list QReq) (w : World T) (a : PrefillAdder)
  : result (World T * PrefillAdder * list QReq * bool) :=
  let sign := if low_first then 1 else -1 in
  let valid := filter (fun x => rid x ∉ rid <$> preempt_list a ∧ finished x = false) running in
  do! sorted <- sort_with (fun x => do! p <- priority_or_raise x; Ok (p * - sign, - wait_queue_entry_time x)) valid;
  let missing := (inject_Z (extend_input_len r + max_new_tokens r `min` CLIP_MAX_NEW_TOKENS) - rem_total_tokens w a)%Q in
  do! prio <- (match sorted with [] => Ok 0 | _ => priority_or_raise r end);
  do! v <- take_victims sign prio missing sorted;
  let '(victims, missing) := v in
  if bool_decide (victims = []) || Qlt_b 0 missing then Ok (w, a, running, false)
  else
    do! y <- release_victims (rid <$> victims) (length running) 0 running w a;
    let '(w, a, keep, out) := y in
    Ok (w, mkAdder (rem_input_tokens a) (rem_chunk_tokens a) (rem_dllm_tokens a) (rem_total_token_offset a) (cur_rem_token_offset a)
             (req_states a) (can_run_list a) (preempt_list a ++ out) (new_chunked_req a) (log_hit_tokens a) (log_input_tokens a),
        keep, true).

(** ** The admission loop of the scheduler *)

(** Per request whether and from where logprobs are returned; [max_batch] is the micro batch size. *)
Context (logprobs : QReq → bool * Z) (max_batch : Z) (enable_priority_preemption low_first : bool).

Definition get_num_allocatable_reqs (running_bs : Z) (w : World T) : Z :=
  (max_batch - running_bs) `min` Z.of_nat (pool_available (pool w)).

(** [init_next_round_input(self.tree_cache)] of a waiting request. *)
Definition next_round (r : QReq) (w : World T) : result (World T * QReq) :=
  do! m <- init_next_round_input (logprobs r).1 (logprobs r).2 (base r) (tree w);
  let b := m.2 in
  Ok (set_tree m.1 w, set_extend_input_len (Z.of_nat (length (fill_ids b)) - Z.of_nat (length (prefix_indices b))) (set_base b r)).

Record Pass := mkPass { p_world : World T; p_adder : PrefillAdder; p_running : list QReq; p_waiting : list QReq; p_full : bool }.

(** The loop over the waiting queue; a request that is added leaves the queue. *)
Fixpoint admit_loop (align : option Z) (queue : list QReq) (s : Pass) : result Pass :=
  match queue with
  | [] => Ok s
  | r :: queue =>
      let '(mkPass w a running waiting full) := s in
      let full := full || bool_decide (get_num_allocatable_reqs (lenZ running) w ≤ lenZ (can_run_list a)) in
      do! go <- (if full then
                   if enable_priority_preemption then preempt_to_schedule low_first r running w a else Ok (w, a, running, false)
                 else Ok (w, a, running, true));
      let '(w, a, running, go) := go in
      if negb go then Ok (mkPass w a running (waiting ++ r :: queue) full)
      else
        do! m <- next_round r w;
        do! x <- add_one_req (Some running) align m.2 m.1 a;
        let '(w, a', r, res) := x in
        let waiting := if bool_decide (length (can_run_list a) < length (can_run_list a'))%nat then waiting else waiting ++ [r] in
        if bool_decide (res = CONTINUE) then admit_loop align queue (mkPass w a' running waiting full)
        else Ok (mkPass w a' running (waiting ++ queue) (full || bool_decide (res = NO_TOKEN)))
  end.

(** [self.chunked_req.inflight_middle_chunks += 1]; the request is one of the batch. *)
Definition count_chunk (chunked : option QReq) (r : QReq) : QReq :=
  match chunked with
  | Some c => if bool_decide (rid c = rid r) then set_base (set_inflight (inflight_middle_chunks (base r) + 1) (base r)) r else r
  | None => r
  end.

(** The unfinished request of the last pass goes first: [init_next_round_input()] and [add_chunked_req]. *)
Definition start_pass (chunked : option QReq) (w : World T) (a : PrefillAdder) : result (PrefillAdder * option QReq) :=
  match chunked with
  | None => Ok (a, None)
  | Some r =>
      let b := next_chunk (base r) in
      let r := set_extend_input_len (Z.of_nat (length (fill_ids b)) - Z.of_nat (length (prefix_indices b))) (set_base b r) in
      do! x <- add_chunked_req r w a; Ok (x.1.1, x.2)
  end.

(** [_get_new_batch_prefill_raw] from the construction of the adder to [prepare_for_extend], on a queue
    in its final order.  The result has the state, the queue, the unfinished request and the new batch. *)
Definition get_new_batch_prefill (uninit : Z → list Z) (align : option Z) (max_prefill_tokens : Z) (chunked_prefill_size : option Z)
    (mixed max_dllm_reqs : Z) (running waiting : list QReq) (chunked : option QReq) (full : bool) (w : World T)
  : result (Pass * option QReq * option (list Req * list Z)) :=
  let a := new_adder (Some running) max_prefill_tokens chunked_prefill_size mixed max_dllm_reqs in
  do! c <- start_pass chunked w a;
  do! s <- admit_loop align waiting (mkPass w c.1 running [] full);
  match can_run_list (p_adder s) with
  | [] => Ok (s, c.2, None)
  | _ =>
      do! chunked <- match new_chunked_req (p_adder s), c.2 with
                     | Some _, Some _ => Raise AssertionError
                     | Some r, None => Ok (Some r)
                     | None, c => Ok c
                     end;
      let batch := base ∘ count_chunk chunked <$> can_run_list (p_adder s) in
      do! e <- prepare_for_extend uninit (Z.to_nat page_size) batch (extend_input_len <$> can_run_list (p_adder s)) (p_world s);
      let '(w, reqs, out) := e in
      Ok (mkPass w (p_adder s) (p_running s) (p_waiting s ++ preempt_list (p_adder s)) (p_full s), chunked, Some (reqs, out))
  end.

End adder.

(** * What the adder needs of a cache *)

Class LockLaws (T : Type) {PC : PrefixCache T} {LC : LockCache T} (strip : bool) {PL : PrefixCacheLaws T strip} := {
  match_law t L ts e : cache_ok t L →
    ∃ t1 vs node, match_req (mkKey ts e false) t = Ok (t1, vs, node) ∧ cache_ok t1 L ∧ (∀ x, holds x t1 = holds x t) ∧
      evictable t1 = evictable t ∧ (length vs ≤ length ts)%nat ∧ (cache_disable = true → vs = []) ∧
      (∀ r, last_node r = node → req_extra_key r = e → cache_protected_len r = length vs → claim t1 r ts vs) ∧
      (∀ r ts row, claim t r ts row → claim t1 r ts row);
  lock_law t L r ts row : cache_ok t L → claim t r ts row →
    ∃ t1, lock_node (last_node r) t = Ok t1 ∧ cache_ok t1 (node_of r ++ L) ∧ (∀ x, holds x t1 = holds x t) ∧
      (∀ r ts row, claim t r ts row → claim t1 r ts row);
  unlock_law t L r : cache_ok t (node_of r ++ L) → (∃ ts row, claim t r ts row) →
    ∃ t1, unlock_node (last_node r) t = Ok t1 ∧ cache_ok t1 L ∧ (∀ x, holds x t1 = holds x t) ∧
      (∀ r ts row, claim t r ts row → claim t1 r ts row);
  lock_unlock_law t L r ts row t1 t2 : cache_ok t L → claim t r ts row →
    lock_node (last_node r) t = Ok t1 → unlock_node (last_node r) t1 = Ok t2 → evictable t2 = evictable t;
  disabled_law n t : cache_disable = true → lock_node n t = Ok t;
}.

#[export] Instance chunk_lock_laws strip :
  @LockLaws ChunkCache (ChunkPrefixCache strip) (ChunkLockCache strip) strip (chunk_laws strip).
Proof.
  split.
  - intros t L ts e _. exists t, [], None. cbn. split_and!; try done. lia.
  - intros t L r ts row _ Hc. exists t. by split_and!.
  - intros t L r _ _. exists t. by split_and!.
  - intros t L r ts row t1 t2 _ _ [= <-] [= <-]. done.
  - done.
Defined.

Section radix_lock_laws.
Context (page_size : nat) (is_eagle dfi strip : bool) (strategy : EvictionStrategy) (monotonic : nat → Z).
Hypothesis Hps : (0 < page_size)%nat.
#[local] Notation rinv := (rinv page_size is_eagle).
#[local] Notation radix_claim := (radix_claim is_eagle).

Lemma radix_claim_live c r ts row :
  RadixCache.wf page_size is_eagle c → radix_claim c r ts row → ∃ j, last_node r = Some j ∧ is_Some (heap c !! j).
Proof. intros Hw (j & Hj & _ & _ & Hf). exists j. split; [done|]. by eapply (full_live page_size is_eagle). Qed.

Lemma radix_match_law c L ts e :
  rinv (c, L) →
  ∃ t1 vs node, (do! m <- match_prefix page_size false is_eagle monotonic (mkKey ts e false) c; Ok (m.1.1, m.1.2, Some m.2))
      = Ok (t1, vs, node) ∧ rinv (t1, L) ∧ (∀ x, slots x (nheap t1) = slots x (nheap c)) ∧
    evictable_size t1 = evictable_size c ∧ (length vs ≤ length ts)%nat ∧
    (∀ r, last_node r = node → req_extra_key r = e → cache_protected_len r = length vs → radix_claim t1 r ts vs) ∧
    (∀ r ts row, radix_claim c r ts row → radix_claim t1 r ts row).
Proof.
  intros Hr. pose proof Hr as (Hw & _). cbn [fst] in Hw.
  destruct (match_prefix_longest page_size is_eagle monotonic Hps (mkKey ts e false) c Hw ltac:(done))
    as (c1 & vs & j & n & -> & Hq & (_ & Hn & Hlv & _) & Hf). run_bind. cbn [fst snd].
  assert (Hview : (maybe_to_bigram_view is_eagle (mkKey ts e false) None).1 = mkKey ts e is_eagle).
  { unfold maybe_to_bigram_view. by destruct is_eagle. }
  unfold norm_key in *. rewrite Hview in *. rewrite length_units in Hn.
  destruct (page_aligned_ok page_size Hps (mkKey ts e is_eagle)) as (_ & _ & _ & Hle).
  assert (Hts : (klen (mkKey ts e is_eagle) ≤ length ts)%nat) by (unfold klen; simpl; destruct is_eagle; lia).
  exists c1, vs, (Some j). split; [done|]. split; [by eapply quiet_rinv|].
  split; [apply Hq|]. split; [apply Hq|]. split; [lia|]. split.
  - intros r Hl He Hp. exists j. rewrite He, Hp. split; [done|]. split; [lia|]. split; [done|].
    rewrite (take_ge vs) by lia. rewrite Hlv.
    rewrite (page_aligned_units page_size Hps), take_take, Nat.min_l in Hf by lia. exact Hf.
  - intros r ts' row. apply claim_mono. intros e' jj us vs' _ Hf'. by apply (quiet_full page_size is_eagle _ _ _ _ _ _ Hq).
Qed.

(** A lock that is given back leaves the evictable size as it was. *)
Lemma relock_size c j c1 d1 c2 d2 :
  RadixCache.wf page_size is_eagle c → is_Some (heap c !! j) →
  inc_lock_ref false j c = Ok (c1, d1) → dec_lock_ref false j c1 = Ok (c2, d2) → evictable_size_ c2 = evictable_size_ c.
Proof.
  intros Hw [n Hj] E1 E2.
  destruct (lock_unlock_run page_size is_eagle monotonic Hps c j n Hw Hj) as (c1' & c2' & l & E1' & _ & _ & _ & E2' & Hw2 & Hb & Hr).
  rewrite E1 in E1'. injection E1' as <- _. rewrite E2 in E2'. injection E2' as <- _.
  destruct Hw as (_ & _ & (E3 & _)), Hw2 as (_ & _ & (E4 & _)). rewrite Hb, Hr in E4. congruence.
Qed.

#[export] Instance radix_lock_laws :
  @LockLaws RadixCache (RadixPrefixCache page_size is_eagle dfi strip strategy monotonic)
    (RadixLockCache page_size is_eagle dfi strip strategy monotonic) strip
    (radix_laws page_size is_eagle dfi strip strategy monotonic Hps).
Proof.
  split.
  - intros t L ts e Hr. destruct (radix_match_law t L ts e Hr) as (t1 & vs & node & H1 & H2 & H3 & H4 & H5 & H6 & H7).
    exists t1, vs, node. by split_and!.
  - intros t L r ts row Hr Hc. pose proof Hr as (Hw & _). destruct (radix_claim_live t r ts row Hw Hc) as (j & Hj & Hs).
    destruct (lock page_size is_eagle monotonic Hps t j L Hr Hs) as (t1 & d & E & Hr1 & Hx & Hf). exists t1.
    split; [cbn [lock_node RadixPrefixCache]; by rewrite Hj, E|]. unfold node_of. rewrite Hj. split; [done|]. split; [done|].
    intros r' ts' row'. apply claim_mono. intros; by apply Hf.
  - intros t L r Hr (ts & row & Hc). pose proof Hr as (Hw & _). destruct (radix_claim_live t r ts row Hw Hc) as (j & Hj & _).
    unfold node_of in Hr. rewrite Hj in Hr.
    destruct (unlock page_size is_eagle monotonic Hps t j L Hr) as (t1 & d & E & Hr1 & Hx & Hf). exists t1.
    split; [cbn [unlock_node RadixLockCache]; by rewrite Hj, E|]. split; [done|]. split; [done|].
    intros r' ts' row'. apply claim_mono. intros; by apply Hf.
  - intros t L r ts row t1 t2 (Hw & _) Hc. destruct (radix_claim_live t r ts row Hw Hc) as (j & Hj & Hs).
    cbn [lock_node unlock_node RadixPrefixCache RadixLockCache]. rewrite Hj.
    destruct (inc_lock_ref false j t) as [[c1 d1]|] eqn:E1; [|done]. intros [= <-]. cbn [fst].
    destruct (dec_lock_ref false j c1) as [[c2 d2]|] eqn:E2; [|done]. intros [= <-].
    exact (relock_size t j c1 d1 c2 d2 Hw Hs E1 E2).
  - done.
Defined.

End radix_lock_laws.

(** * Admission *)

Section admission.
Context {T : Type} {PC : PrefixCache T} {LC : LockCache T} {strip : bool} {PL : PrefixCacheLaws T strip} {LL : LockLaws T strip}.
Context (p : Z) (ratio : Q) (allow : option bool) (cp : bool) (max_reqs : option nat).
Hypothesis Hp : 1 ≤ p.

#[local] Notation ceil := (ceil_paged_tokens p).
#[local] Notation update := (_update_prefill_budget p None).

Lemma ceil_bounds n : n ≤ ceil n < n + p.
Proof. unfold ceil_paged_tokens. pose proof (Z.div_mod (- n) p). pose proof (Z.mod_pos_bound (- n) p). nia. Qed.

Lemma ceil_mono n m : n ≤ m → ceil n ≤ ceil m.
Proof. unfold ceil_paged_tokens. intros Hnm. pose proof (Z.div_le_mono (- m) (- n) p). nia. Qed.

(** A request as [init_next_round_input] leaves it. *)
Definition admissible (r : QReq) : Prop :=
  extend_input_len r = Z.of_nat (length (fill_ids (base r))) - prefix_len r ∧ 1 ≤ extend_input_len r ∧ 0 ≤ max_new_tokens r ∧
  (cache_disable = true → prefix_indices (base r) = []).

(** A request without its KV state: who it is, its tokens and its parameters. *)
Definition core_req (r : Req) : Req :=
  mkReq (origin_input_ids r) (output_ids r) [] (req_extra_key r) (req_priority r) (reasoning_tokens r) (inflight_middle_chunks r)
    (skip_radix_cache_insert r) None [] None 0 0 0 false false.

Definition core (r : QReq) : QReq := set_extend_input_len 0 (set_base (core_req (base r)) r).

(** The budgets are those before. *)
Definition same_budgets (a a' : PrefillAdder) : Prop :=
  can_run_list a' = can_run_list a ∧ cur_rem_token_offset a' = cur_rem_token_offset a ∧
  rem_total_token_offset a' = rem_total_token_offset a ∧ rem_input_tokens a' = rem_input_tokens a ∧
  rem_chunk_tokens a' = rem_chunk_tokens a ∧ new_chunked_req a' = new_chunked_req a ∧ preempt_list a' = preempt_list a.

(** Nothing is left of an attempt but, for a request that ignores the end token while the
    cache is off, the list of request states it has computed. *)
Definition unchanged (running : option (list QReq)) (r : QReq) (a a' : PrefillAdder) : Prop :=
  a' = a ∨ ignore_eos r && cache_disable = true ∧ a' = set_states (req_states_after ratio running r a) a.

Lemma unchanged_budgets running r a a' : unchanged running r a a' → same_budgets a a'.
Proof. by intros [->|[_ ->]]. Qed.

(** The request is in the batch with its next [n] tokens, and the budgets are charged for them. *)
Record added (align : option Z) (r : QReq) (n : Z) (a : PrefillAdder) (r' : QReq) (a' : PrefillAdder) : Prop := {
  ad_len : 1 ≤ n ≤ extend_input_len r;
  ad_chunk : ∀ c, rem_chunk_tokens a = Some c → n ≤ c;
  ad_base : base r' = truncate_fill (Z.to_nat n) (base r);
  ad_ext : extend_input_len r' = n;
  ad_run : can_run_list a' = can_run_list a ++ [r'];
  ad_cur : cur_rem_token_offset a' = cur_rem_token_offset a + (ceil n + p);
  ad_total : (rem_total_token_offset a + inject_Z (ceil n + p) <= rem_total_token_offset a')%Q;
  ad_input : rem_input_tokens a' = rem_input_tokens a - ceil n;
  ad_rest : rem_chunk_tokens a' = (fun c => c - ceil n) <$> rem_chunk_tokens a;
  ad_new : new_chunked_req a' = if decide (n = extend_input_len r) then new_chunked_req a else Some r';
  ad_core : core r' = core r;
  ad_preempt : preempt_list a' = preempt_list a;
  ad_cut : n = extend_input_len r ∨ ∃ c, rem_chunk_tokens a = Some c ∧ (p = 1 → align = None → n = c);
}.

Lemma truncate_full r n : length (fill_ids r) = (length (prefix_indices r) + n)%nat → truncate_fill n r = r.
Proof. intros Hl. unfold truncate_fill. rewrite take_ge by lia. by destruct r. Qed.

Lemma cut_truncate r n m : 0 ≤ n → prefix_len r = m → base (cut_fill (m + n) r) = truncate_fill (Z.to_nat n) (base r).
Proof.
  intros Hn <-. unfold cut_fill, truncate_fill, py_take, prefix_len. cbn [base set_base].
  rewrite bool_decide_eq_false_2 by lia. f_equal. f_equal. lia.
Qed.

(** A request that goes in as a whole. *)
Lemma added_whole align r a k :
  admissible r → 0 ≤ k → (∀ c, rem_chunk_tokens a = Some c → extend_input_len r ≤ c) →
  ∀ x m, x = extend_input_len r ∨ x = ceil (extend_input_len r) → added align r (extend_input_len r) a r (update m x k (add_run r a)).
Proof.
  intros (He & H1 & _) Hk Hc x m Hx.
  assert (Hcx : ceil x = ceil (extend_input_len r)).
  { destruct Hx as [->| ->]; [done|]. unfold ceil_paged_tokens. rewrite <-Z.mul_opp_l, Z.opp_involutive, Z.div_mul by lia. done. }
  split; cbn [_update_prefill_budget add_run can_run_list cur_rem_token_offset rem_total_token_offset rem_input_tokens rem_chunk_tokens
    new_chunked_req]; rewrite ?Hcx; try done.
  - symmetry. apply truncate_full. unfold prefix_len in He. lia.
  - apply Qplus_le_r. rewrite <-Zle_Qle. lia.
  - by rewrite decide_True.
  - by left.
Qed.

(** A request that is cut. *)
Lemma added_cut align r a n m c :
  admissible r → 1 ≤ n < extend_input_len r → rem_chunk_tokens a = Some c → n ≤ c → (p = 1 → align = None → n = c) →
  let r' := cut_fill (prefix_len r + n) (set_extend_input_len n r) in
  added align r n a r' (update m n 0 (set_chunked r' (add_run r' a))).
Proof.
  intros (He & H1 & _) Hn Hch Hc Hcut r'.
  split; cbn [_update_prefill_budget set_chunked add_run can_run_list cur_rem_token_offset rem_total_token_offset rem_input_tokens
    rem_chunk_tokens new_chunked_req]; try done; try lia.
  - intros c' [= <-]%(eq_trans (eq_sym Hch)). done.
  - unfold r'. by rewrite (cut_truncate (set_extend_input_len n r)) by (done || lia).
  - apply Qplus_le_r. rewrite <-Zle_Qle. lia.
  - rewrite decide_False by lia. done.
  - right. by exists c.
Qed.

(** The guard on the alignment: a positive size. *)
Definition align_ok (align : option Z) : Prop := match align with Some al => 0 < al | None => True end.

Lemma chunk_length_ok align c m n :
  align_ok align → chunk_length p align c m = Some n → 1 ≤ n ≤ c / p * p ∧ (p = 1 → align = None → n = c).
Proof.
  unfold chunk_length. intros Hal Hn. split; [|intros -> ->; revert Hn; rewrite !Z.div_1_r, !Z.mul_1_r; repeat case_bool_decide; intros [= <-]; lia].
  revert Hn. case_bool_decide as H1; [done|]. set (t := c / p * p) in *.
  assert (Hgo : ∀ t', t' ≤ t → (if bool_decide ((t' + m) / p * p - m ≤ 0) then None else Some ((t' + m) / p * p - m)) = Some n →
            1 ≤ n ≤ t).
  { intros t' Ht'. case_bool_decide; [done|]. intros [= <-]. pose proof (Z.mul_div_le (t' + m) p ltac:(lia)). lia. }
  destruct align as [al|]; [|by apply Hgo]. simpl in Hal. case_bool_decide; [done|].
  apply Hgo. pose proof (Z.mul_div_le t al ltac:(lia)). lia.
Qed.

Lemma Qle_bool_false x y : Qle_bool x y = false → (y < x)%Q.
Proof. intros H. apply Qnot_le_lt. intros Hle. apply Qle_bool_iff in Hle. congruence. Qed.

(** The check on the total leaves room for the pages of the request. *)
Lemma total_room r w a n :
  n ≤ extend_input_len r → Qle_bool (rem_total_tokens w a) (inject_Z (total_tokens p r)) = false →
  (inject_Z (ceil n) <= rem_total_tokens w a)%Q.
Proof.
  intros Hn H%Qle_bool_false. apply Qlt_le_weak. eapply Qle_lt_trans; [|exact H]. rewrite <-Zle_Qle.
  pose proof (ceil_bounds n). unfold total_tokens, CLIP_MAX_NEW_TOKENS. lia.
Qed.

(** Why a request that ignores the end token is refused while the cache is off: its pages do
    not fit, one of the requests would run out of room before it ends, or the chunk budget is used up. *)
Definition eos_refusal (running : option (list QReq)) (r : QReq) (w : World T) (a : PrefillAdder) : Prop :=
  cur_rem_tokens w a < ceil (extend_input_len r) ∨ (rem_total_tokens w a < inject_Z (ceil (extend_input_len r)))%Q ∨
  states_fit (cur_rem_tokens w a - ceil (extend_input_len r)) 0 (req_states_after ratio running r a) = false ∨
  ∃ c, rem_chunk_tokens a = Some c ∧ c ≤ 0.

(** Why another request is refused: the memory left does not exceed what it may need, before
    its prefix is locked or after; without chunking, it is not the first and reaches the limit on input tokens; or
    no chunk of whole pages, aligned, fits the chunk budget. *)
Definition cached_refusal (align : option Z) (r : QReq) (w : World T) (a : PrefillAdder) : Prop :=
  (rem_total_tokens w a <= inject_Z (total_tokens p r))%Q ∨
  (∃ t, lock_node (last_node (base r)) (tree w) = Ok t ∧ (rem_total_tokens (set_tree t w) a <= inject_Z (total_tokens p r))%Q) ∨
  (rem_chunk_tokens a = None ∧ can_run_list a ≠ [] ∧ rem_input_tokens a ≤ ceil (extend_input_len r)) ∨
  ∃ c, rem_chunk_tokens a = Some c ∧ c < ceil (extend_input_len r) ∧ chunk_length p align c (prefix_len r) = None.

(** Why [add_one_req] refuses a request: the prefill is delayed, only one request may run, the batch has
    its full number of requests, or one of the above. *)
Definition refusal (running : option (list QReq)) (align : option Z) (r : QReq) (w : World T) (a : PrefillAdder) : Prop :=
  allow = Some false ∨ (cp = true ∧ can_run_list a ≠ []) ∨ (∃ x, max_reqs = Some x ∧ (x ≤ length (can_run_list a))%nat) ∨
  if ignore_eos r && cache_disable then eos_refusal running r w a else cached_refusal align r w a.

Lemma over_input_spec n a : over_input n a = true ↔ rem_chunk_tokens a = None ∧ can_run_list a ≠ [] ∧ rem_input_tokens a ≤ n.
Proof. unfold over_input. rewrite !andb_true_iff, !bool_decide_eq_true. tauto. Qed.

Lemma add_locked_ok align r w a L ts row :
  cache_ok (tree w) L → claim (tree w) (base r) ts row → admissible r → align_ok align → over_input (ceil (extend_input_len r)) a = false →
  let too_long := ∃ c, rem_chunk_tokens a = Some c ∧ c < ceil (extend_input_len r) ∧ chunk_length p align c (prefix_len r) = None in
  ∃ w' a' r' v, add_locked p None align (total_tokens p r) r w a = Ok (w', a', r', v) ∧
    match v with
    | Some res => res ≠ CONTINUE ∧ w' = w ∧ a' = a ∧ r' = r ∧ ((rem_total_tokens w a <= inject_Z (total_tokens p r))%Q ∨ too_long)
    | None => ∃ t n, added align r n a r' a' ∧ lock_node (last_node (base r)) (tree w) = Ok t ∧ w' = set_tree t w ∧
        (inject_Z (ceil n) <= rem_total_tokens w a)%Q ∧ ¬ (rem_total_tokens w a <= inject_Z (total_tokens p r))%Q ∧ ¬ too_long
    end.
Proof.
  intros Hc Hcl Hr Hal Hov too_long. unfold add_locked. destruct (Qle_bool _ _) eqn:Hq.
  { do 4 eexists. split; [done|]. do 4 (split; [done|]). left. by apply Qle_bool_iff. }
  assert (Hroom : ∀ n, n ≤ extend_input_len r → (inject_Z (ceil n) <= rem_total_tokens w a)%Q) by (intros; by apply (total_room r)).
  assert (Hgt : ¬ (rem_total_tokens w a <= inject_Z (total_tokens p r))%Q) by (intros Hle%Qle_bool_iff; congruence). rewrite Hov.
  destruct (lock_law (tree w) L (base r) ts row Hc Hcl) as (t & El & _). pose proof Hr as (He & H1 & Hmx & _).
  pose proof (ceil_bounds (extend_input_len r)) as Hb. unfold lock_for.
  assert (Hk : 0 ≤ max_new_tokens r `min` CLIP_MAX_NEW_TOKENS) by (unfold CLIP_MAX_NEW_TOKENS; lia).
  destruct (rem_chunk_tokens a) as [c|] eqn:Hch.
  - case_bool_decide as Hin; cbv zeta.
    { rewrite El. cbn [mbind result_bind]. do 4 eexists. split; [done|]. exists t, (extend_input_len r). split_and!; try done.
      + apply added_whole; try done; [|by right]. intros c' [= <-]%(eq_trans (eq_sym Hch)). lia.
      + by apply Hroom.
      + unfold too_long. intros (c' & [= <-] & Hlt & _). lia. }
    cbn [default from_option id]. destruct (chunk_length p align c (prefix_len r)) as [n|] eqn:Hn.
    2: { do 4 eexists. split; [done|]. do 4 (split; [done|]). right. exists c. split; [done|]. split; [lia|done]. }
    assert (Hfit : ¬ too_long) by (unfold too_long; intros (c' & [= <-] & _ & Hno); congruence).
    apply (chunk_length_ok align c _ n Hal) in Hn as [Hn Hcut].
    assert (Hlt : n < extend_input_len r).
    { enough (c / p * p < extend_input_len r) by lia.
      unfold ceil_paged_tokens in Hin, Hb. set (k := - (- extend_input_len r / p)) in *.
      assert (c / p < k) by (apply Z.div_lt_upper_bound; lia). nia. }
    change (last_node (base (cut_fill (prefix_len r + n) (set_extend_input_len n r)))) with (last_node (base r)).
    rewrite El. cbn [mbind result_bind]. do 4 eexists. split; [done|]. exists t, n. split_and!; try done; [|apply Hroom; lia].
    change (prefix_len (cut_fill (prefix_len r + n) (set_extend_input_len n r))) with (prefix_len r).
    apply (added_cut align r a n _ c); [done|lia|done| |done]. pose proof (Z.mul_div_le c p ltac:(lia)). lia.
  - rewrite El. cbn [mbind result_bind]. do 4 eexists. split; [done|]. exists t, (extend_input_len r). split_and!; try done; [|by apply Hroom|].
    + apply added_whole; try done; [|by right]. intros c' Hc'. congruence.
    + unfold too_long. by intros (c' & ? & _).
Qed.

Lemma added_states align l r n a r' a' : added align r n (set_states l a) r' a' → added align r n a r' a'.
Proof. intros [H1 H2 H3 H4 H5 H6 H7 H8 H9 H10 H11 H12 H13]. by split. Qed.

(** What an attempt to add a request may do to the budgets. *)
Definition attempt (running : option (list QReq)) (align : option Z) (w : World T) (r : QReq) (a : PrefillAdder) (r' : QReq) (a' : PrefillAdder) (res : AddReqResult) : Prop :=
  (unchanged running r a a' ∧ r' = r ∧ res ≠ CONTINUE ∧ eos_refusal running r w a) ∨
  (∃ n, added align r n a r' a' ∧ (inject_Z (ceil n) <= rem_total_tokens w a)%Q ∧ res = budget_state None w a' ∧ ¬ eos_refusal running r w a).

Lemma attempt_refused running align w r a b res :
  unchanged running r a b → res ≠ CONTINUE → eos_refusal running r w a →
  ∃ a' r' res', (b, r, res) = (a', r', res') ∧ attempt running align w r a r' a' res'.
Proof. intros. exists b, r, res. split; [done|]. by left. Qed.

Lemma attempt_added running align w r a r1 a1 n :
  added align r n a r1 a1 → (∀ m, m ≤ extend_input_len r → (inject_Z (ceil m) <= rem_total_tokens w a)%Q) → ¬ eos_refusal running r w a →
  ∃ a' r' res', (a1, r1, budget_state None w a1) = (a', r', res') ∧ attempt running align w r a r' a' res'.
Proof. intros Ha Hroom Hno. do 3 eexists. split; [done|]. right. exists n. split; [done|]. split; [apply Hroom, Ha|done]. Qed.

Lemma ignore_eos_ok align running r w a :
  admissible r → ignore_eos r = true → cache_disable = true → allow ≠ Some false →
  ∃ a' r' res, add_one_req_ignore_eos p ratio None allow running r w a = (a', r', res) ∧ attempt running align w r a r' a' res.
Proof.
  intros Hr Hig Hd Hal. unfold add_one_req_ignore_eos. pose proof Hr as (He & H1 & Hmx & Hpre). specialize (Hpre Hd).
  destruct (_ || _) eqn:Hg.
  { apply attempt_refused; [by left|done|]. apply orb_prop in Hg as [Hg|Hg]; [left; by apply bool_decide_eq_true in Hg|right; left].
    unfold Qlt_b in Hg. by destruct (Qlt_le_dec _ _). }
  apply orb_false_iff in Hg as [Hg1%bool_decide_eq_false Hg2]. unfold Qlt_b in Hg2. destruct (Qlt_le_dec _ _) as [|Hle]; [done|].
  cbv zeta. set (a1 := set_states _ a). assert (Hu : unchanged running r a a1) by (right; by rewrite Hig, Hd).
  destruct (negb _) eqn:Hfit; [apply attempt_refused; [done..|]; right; right; left; by apply negb_true_iff in Hfit|].
  apply negb_false_iff in Hfit. rewrite bool_decide_eq_false_2 by done.
  assert (Hk : 0 ≤ max_new_tokens r `min` CLIP_MAX_NEW_TOKENS) by (unfold CLIP_MAX_NEW_TOKENS; lia).
  assert (Hroom : ∀ n, n ≤ extend_input_len r → (inject_Z (ceil n) <= rem_total_tokens w a)%Q).
  { intros n Hn. eapply Qle_trans; [|exact Hle]. rewrite <-Zle_Qle. by apply ceil_mono. }
  assert (Hno : (∀ c, rem_chunk_tokens a = Some c → 0 < c) → ¬ eos_refusal running r w a).
  { intros Hc [?|[Hlt|[Hs|(c & Hc' & ?)]]]; [lia|lra| |specialize (Hc c Hc'); lia].
    change (states_fit (cur_rem_tokens w a - ceil (extend_input_len r)) 0 (req_states_after ratio running r a) = true) in Hfit. congruence. }
  change (rem_chunk_tokens a1) with (rem_chunk_tokens a). destruct (rem_chunk_tokens a) as [c|] eqn:Hch.
  - case_bool_decide as Hin; [|case_bool_decide as Hc0; [by apply attempt_refused; [..|right; right; right; exists c]|]].
    + eapply attempt_added; [|done|apply Hno; intros ? [= <-]; lia].
      eapply added_states, (added_whole align r a1); try done; [|by left]. intros c' [= <-]%(eq_trans (eq_sym Hch)). done.
    + eapply (attempt_added _ _ _ _ _ _ _ c); [|done|apply Hno; intros ? [= <-]; lia].
      assert (cut_fill c (set_extend_input_len c r) = cut_fill (prefix_len r + c) (set_extend_input_len c r)) as ->
        by (f_equal; unfold prefix_len; rewrite Hpre; simpl; lia).
      by eapply added_states, (added_cut align r a1 c _ c); [|lia|..].
  - eapply attempt_added; [|done|by apply Hno].
    eapply added_states, (added_whole align r a1); try done; [|by left]. intros c' Hc'. change (rem_chunk_tokens a = Some c') in Hc'. congruence.
Qed.

(** The cache, its locks and the claims after an attempt. *)
Record after_attempt (w w' : World T) (L L' : list nat) : Prop := {
  aa_cache : cache_ok (tree w') L';
  aa_holds : ∀ x, holds x (tree w') = holds x (tree w);
  aa_claim : ∀ r ts row, claim (tree w) r ts row → claim (tree w') r ts row;
  aa_kv : kv w' = kv w;
  aa_pool : pool w' = pool w;
}.

Lemma after_attempt_refl w L : cache_ok (tree w) L → after_attempt w w L L.
Proof. by split. Qed.

Lemma refused running align w r a L res :
  cache_ok (tree w) L → res ≠ CONTINUE → refusal running align r w a →
  ∃ w' a' r' res', Ok (w, a, r, res) = Ok (w', a', r', res') ∧
    (unchanged running r a a' ∧ r' = r ∧ res' ≠ CONTINUE ∧ after_attempt w w' L L ∧ evictable (tree w') = evictable (tree w) ∧
       refusal running align r w a ∨
     ∃ n, added align r n a r' a' ∧ after_attempt w w' L (node_of (base r) ++ L) ∧
       (inject_Z (ceil n) <= rem_total_tokens w a)%Q ∧ (inject_Z (ceil n) <= rem_total_tokens w' a)%Q ∧
       res' = budget_state None w' a' ∧ ¬ refusal running align r w a).
Proof. intros Hc Hres Hrf. exists w, a, r, res. split; [done|]. left. split; [by left|]. by split_and!. Qed.

(** The part of [add_one_req] that locks the prefix. *)
Lemma cached_ok running align r w a L ts row :
  cache_ok (tree w) L → claim (tree w) (base r) ts row → admissible r → align_ok align →
  ignore_eos r && cache_disable = false → Qle_bool (rem_total_tokens w a) (inject_Z (total_tokens p r)) = false →
  over_input (ceil (extend_input_len r)) a = false →
  (∀ Q : Prop, ¬ Q → ¬ (allow = Some false ∨ (cp = true ∧ can_run_list a ≠ []) ∨ (∃ x, max_reqs = Some x ∧ (x ≤ length (can_run_list a))%nat) ∨ Q)) →
  ∃ w' a' r' res,
    (do! t <- lock_node (last_node (base r)) (tree w);
     do! b <- add_locked p None align (total_tokens p r) r (set_tree t w) a;
     let '(w, a, r0, verdict) := b in
     do! t <- unlock_node (last_node (base r)) (tree w);
     let w := set_tree t w in
     Ok (w, a, r0, match verdict with Some v => v | None => budget_state None w a end)) = Ok (w', a', r', res) ∧
    (unchanged running r a a' ∧ r' = r ∧ res ≠ CONTINUE ∧ after_attempt w w' L L ∧ evictable (tree w') = evictable (tree w) ∧
       refusal running align r w a ∨
     ∃ n, added align r n a r' a' ∧ after_attempt w w' L (node_of (base r) ++ L) ∧
       (inject_Z (ceil n) <= rem_total_tokens w a)%Q ∧ (inject_Z (ceil n) <= rem_total_tokens w' a)%Q ∧
       res = budget_state None w' a' ∧ ¬ refusal running align r w a).
Proof.
  intros Hc Hcl Hr Hal Hd Hq Hov Hrest.
  destruct (lock_law (tree w) L (base r) ts row Hc Hcl) as (t1 & E1 & Hc1 & Hh1 & Hk1). rewrite E1. cbn [mbind result_bind].
  assert (Hcl1 : claim t1 (base r) ts row) by by apply Hk1.
  destruct (add_locked_ok align r (set_tree t1 w) a (node_of (base r) ++ L) ts row Hc1 Hcl1 Hr Hal Hov) as (w2 & a2 & r2 & v & E2 & Hv).
  rewrite E2. cbn [mbind result_bind]. destruct v as [res|].
  - destruct Hv as (Hres & -> & -> & -> & Hwhy). cbn [tree set_tree].
    destruct (unlock_law t1 L (base r) Hc1) as (t2 & E3 & Hc2 & Hh2 & Hk2); [by exists ts, row|]. rewrite E3. cbn [mbind result_bind].
    do 4 eexists. split; [done|]. left. split; [by left|]. split; [done|]. split; [done|]. split; [|split].
    + split; cbn; try done; [intros x; by rewrite Hh2|intros; by apply Hk2, Hk1].
    + cbn. by apply (lock_unlock_law (tree w) L (base r) ts row t1 t2).
    + do 3 right. rewrite Hd. destruct Hwhy as [Hw|Hw]; [right; left; by exists t1|by do 3 right].
  - destruct Hv as (t2 & n & Hn & E3 & -> & Hb & Hgt & Hfit). cbn [tree set_tree] in *.
    destruct (lock_law t1 (node_of (base r) ++ L) (base r) ts row Hc1 Hcl1) as (t2' & E3' & Hc2 & Hh2 & Hk2).
    rewrite E3 in E3'. injection E3' as <-.
    destruct (unlock_law t2 (node_of (base r) ++ L) (base r) Hc2) as (t3 & E4 & Hc3 & Hh3 & Hk3); [exists ts, row; by apply Hk2|].
    rewrite E4. cbn [mbind result_bind]. do 4 eexists. split; [done|]. right. exists n. split; [done|]. split; [|split; [|split; [|split; [done|]]]].
    + split; cbn; try done; [intros x; by rewrite Hh3, Hh2|intros; by apply Hk3, Hk2, Hk1].
    + apply (total_room r); [apply Hn|done].
    + unfold rem_total_tokens, available_and_evictable in *. cbn [kv tree set_tree] in *.
      by rewrite (lock_unlock_law t1 (node_of (base r) ++ L) (base r) ts row t2 t3 Hc1 Hcl1 E3 E4).
    + apply Hrest. rewrite Hd. intros [Hle%Qle_bool_iff|[(t & Et & Hle)|[Ho|Hlong]]]; [congruence| | |done].
      * rewrite E1 in Et. by injection Et as <-.
      * apply over_input_spec in Ho. congruence.
Qed.

(** [add_one_req] on a matched request. *)
Lemma add_one_req_ok running align r w a L ts row :
  cache_ok (tree w) L → claim (tree w) (base r) ts row → admissible r → align_ok align →
  ∃ w' a' r' res, add_one_req p ratio None allow cp max_reqs running align r w a = Ok (w', a', r', res) ∧
    (unchanged running r a a' ∧ r' = r ∧ res ≠ CONTINUE ∧ after_attempt w w' L L ∧ evictable (tree w') = evictable (tree w) ∧
       refusal running align r w a ∨
     ∃ n, added align r n a r' a' ∧ after_attempt w w' L (node_of (base r) ++ L) ∧
       (inject_Z (ceil n) <= rem_total_tokens w a)%Q ∧ (inject_Z (ceil n) <= rem_total_tokens w' a)%Q ∧
       res = budget_state None w' a' ∧ ¬ refusal running align r w a).
Proof.
  intros Hc Hcl Hr Hal. unfold add_one_req.
  case_bool_decide as Hdelay; [by apply refused; [..|left]|].
  destruct (cp && _) eqn:Hcp.
  { apply andb_prop in Hcp as [Hcp Hn%bool_decide_eq_true]. apply refused; [done..|right; left]. split; [done|]. intros E. rewrite E in Hn. simpl in Hn. lia. }
  destruct (match max_reqs with Some _ => _ | None => _ end) eqn:Hmax.
  { apply refused; [done..|right; right; left]. destruct max_reqs as [x|]; [|done]. exists x. by apply bool_decide_eq_true in Hmax. }
  assert (Hrest : ∀ Q : Prop, ¬ Q → ¬ (allow = Some false ∨ (cp = true ∧ can_run_list a ≠ []) ∨ (∃ x, max_reqs = Some x ∧ (x ≤ length (can_run_list a))%nat) ∨ Q)).
  { intros Q HQ [?|[[-> Hne]|[(x & Ex & Hx)|?]]]; [done| | |done].
    - cbn [andb] in Hcp. apply bool_decide_eq_false in Hcp. apply Hne, nil_length_inv. lia.
    - rewrite Ex in Hmax. apply bool_decide_eq_false in Hmax. lia. }
  destruct (ignore_eos r && cache_disable) eqn:Hd.
  { pose proof Hd as [Hig Hdis]%andb_true_iff. destruct (ignore_eos_ok align running r w a Hr Hig Hdis Hdelay) as (a' & r' & res & -> & Hat).
    exists w, a', r', res. split; [done|]. destruct Hat as [(H1 & H2 & H3 & H4)|(n & Hn & Hb & Hres & Hno)].
    - left. split_and!; try done. right. right. right. by rewrite Hd.
    - right. exists n. split; [done|]. split; [|split_and!; try done; apply Hrest; by rewrite Hd].
      destruct (lock_law (tree w) L (base r) ts row Hc Hcl) as (t & El & Hct & _).
      rewrite (disabled_law _ _ Hdis) in El. injection El as <-. by split. }
  destruct (Qle_bool _ _) eqn:Hq.
  { apply refused; [done..|]. do 3 right. rewrite Hd. left. by apply Qle_bool_iff. }
  destruct (over_input _ _) eqn:Hov.
  { apply refused; [done..|]. do 3 right. rewrite Hd. right. right. left. by apply over_input_spec. }
  eapply (cached_ok running align r w a L ts row); done.
Qed.

(** C20: [add_one_req], without a diffusion model and with a positive alignment, on a request that
    was just matched always returns and says whether the request may join.  It is refused
    exactly for one of the documented reasons: prefill is delayed, only one request may run, the batch
    has its full number of requests, the memory left (running requests and the batch set aside) does not
    exceed what the request may need, before or after its prefix is locked, the limit
    on input tokens (not for the first request, and only without chunking), or no chunk fits; for a request
    that ignores the end token while the cache is off, its pages do not fit, some request would
    run out of room, or the chunk budget is used up.  A refused request leaves the
    budgets, locks and evictable size as they were; only the cached list of request
    states may have been computed.  Otherwise it is in the batch with its next [n]
    tokens, at least one, no more than are missing and no more than the chunk
    budget, its prefix is locked once, the budgets are charged for whole pages
    and one page of overhead, the memory left covers its pages, and the verdict is that of the budgets afterwards. *)
Theorem add_one_req_spec running align r w a L ts row :
  cache_ok (tree w) L → claim (tree w) (base r) ts row → admissible r → align_ok align →
  ∃ w' a' r' res, add_one_req p ratio None allow cp max_reqs running align r w a = Ok (w', a', r', res) ∧
    (unchanged running r a a' ∧ r' = r ∧ res ≠ CONTINUE ∧ after_attempt w w' L L ∧ evictable (tree w') = evictable (tree w) ∧
       refusal running align r w a ∨
     ∃ n, added align r n a r' a' ∧ after_attempt w w' L (node_of (base r) ++ L) ∧
       (inject_Z (ceil n) <= rem_total_tokens w a)%Q ∧ (inject_Z (ceil n) <= rem_total_tokens w' a)%Q ∧
       res = budget_state None w' a' ∧ ¬ refusal running align r w a).
Proof. apply add_one_req_ok. Qed.

End admission.

(** * A pass over the waiting queue *)

Section pass.
Context {T : Type} {PC : PrefixCache T} {LC : LockCache T} {PL : PrefixCacheLaws T false} {LL : LockLaws T false}.
Context (ratio : Q) (allow : option bool) (cp : bool) (max_reqs : option nat) (threshold steps : Z) (no_spec low_first : bool)
  (logprobs : QReq → bool * Z) (max_batch : Z) (uninit : Z → list Z).

(** A pass with single-slot pages, without preemption. *)
#[local] Notation loop align q s :=
  (admit_loop 1 ratio None allow cp max_reqs threshold steps false no_spec logprobs max_batch false low_first align q s).

(** The tokens a request of the batch computes, and its charge. *)
Definition tokens_to_run (r : QReq) : Z := Z.of_nat (length (fill_ids (base r)) - length (prefix_indices (base r))).
Definition batch_tokens (l : list QReq) : Z := sumZ (tokens_to_run <$> l).

(** A request in the queue: it holds nothing yet. *)
Definition waiting_ok (p : ReqToTokenPool) (r : QReq) : Prop :=
  fresh (base r) ∧ (1 ≤ length (tokens (base r)) ≤ max_context_len p)%nat ∧ 0 ≤ max_new_tokens r.

(** The batch so far is consistent with the server; [os] are the other requests. *)
Record pass_cons (N : Z) (os : list Req) (w : World T) (a : PrefillAdder) : Prop := {
  pv_sys : sys_inv N w ((base <$> can_run_list a) ++ os);
  pv_ready : Forall (extend_ready (pool w)) (base <$> can_run_list a);
  pv_rows : (length (can_run_list a) - length (omap req_pool_idx (base <$> can_run_list a)) ≤ pool_available (pool w))%nat;
  pv_lens : Forall (fun r => extend_input_len r = to_run (base r)) (can_run_list a);
}.

(** It fits the memory; [mixed] are the tokens reserved for a decode in the same step. *)
Record pass_room (mixed : Z) (w : World T) (a : PrefillAdder) : Prop := {
  pv_cur : cur_rem_token_offset a = mixed + batch_tokens (can_run_list a) + lenZ (can_run_list a);
  pv_off : (inject_Z (cur_rem_token_offset a) <= rem_total_token_offset a)%Q;
  pv_room : can_run_list a = [] ∨ cur_rem_token_offset a - 1 ≤ available_and_evictable w;
}.

Lemma batch_tokens_snoc l r : batch_tokens (l ++ [r]) = batch_tokens l + tokens_to_run r.
Proof. unfold batch_tokens. rewrite fmap_app, sumZ_app. unfold sumZ at 2. simpl. lia. Qed.

Lemma batch_tokens_extend l :
  batch_tokens l = Z.of_nat (extend_num_tokens (base <$> l)).
Proof.
  unfold batch_tokens, extend_num_tokens. induction l as [|r l IH]; [done|]. rewrite !fmap_cons, sumZ_cons, IH. unfold tokens_to_run. simpl. lia.
Qed.

Lemma ceil_one n : ceil_paged_tokens 1 n = n.
Proof. unfold ceil_paged_tokens. rewrite Z.div_1_r. lia. Qed.

(** [init_next_round_input] on a waiting request. *)
Lemma next_round_ok N w rs r :
  sys_inv N w rs → waiting_ok (pool w) r →
  ∃ t1 r1, next_round logprobs r w = Ok (set_tree t1 w, r1) ∧ sys_inv N (set_tree t1 w) rs ∧ evictable t1 = evictable (tree w) ∧
    admissible r1 ∧ fresh (base r1) ∧ fill_ids (base r1) = tokens (base r1) ∧ tokens (base r1) = tokens (base r) ∧
    cache_protected_len (base r1) = length (prefix_indices (base r1)) ∧ claim t1 (base r1) (tokens (base r1)) (prefix_indices (base r1)) ∧
    core r1 = core r.
Proof.
  intros Hs (Hf & Hl & Hm). unfold next_round, init_next_round_input. fold (tokens (base r)).
  set (n := compute_max_prefix_len (logprobs r).1 (logprobs r).2 (length (tokens (base r)))). set (ids := take n (tokens (base r))).
  destruct (match_law (tree w) (nodes rs) ids (req_extra_key (base r)) (si_cache _ _ _ Hs))
    as (t1 & vs & node & E & Hc & Hh & He & Hlv & Hd & Hcl & Hk).
  rewrite E. cbn [mbind result_bind fst snd]. exists t1. eexists. split; [done|].
  assert (Hn : (length vs < length (tokens (base r)))%nat).
  { assert (Hlt : (n < length (tokens (base r)))%nat) by (unfold n, compute_max_prefix_len; destruct (_ && _); lia).
    unfold ids in Hlv. rewrite length_take in Hlv. lia. }
  split; [|split; [done|]].
  - destruct Hs as [H1 H2 H3 H4 H5].
    destruct (others_ok (tree w) (pool w) t1 (pool w) rs H4) as [Hos _]; [intros r0 ts row _; apply Hk|done|done|].
    split; [done|done|done|done|]. intros x. cbn [pool set_tree]. rewrite <-H5. unfold total. cbn [tree kv set_tree]. by rewrite Hh.
  - split; [|split; [done|]].
    + unfold admissible, prefix_len. cbn. split; [done|]. split; [lia|done].
    + split; [done|]. split; [done|]. split; [done|]. split; [|done]. set (b := base (set_extend_input_len _ _)).
      apply (claim_ext t1 b ids vs b (tokens b) vs); try done; [by apply Hcl|apply prefix_take].
Qed.

Lemma world_attempt N w w' rs : sys_inv N w rs → after_attempt w w' (nodes rs) (nodes rs) → sys_inv N w' rs.
Proof.
  intros [H1 H2 H3 H4 H5] [A1 A2 A3 A4 A5].
  destruct (others_ok (tree w) (pool w) (tree w') (pool w) rs H4) as [Hos _]; [intros r0 ts row _; apply A3|done|done|].
  split; rewrite ?A4, ?A5; try done. intros x. rewrite <-H5. unfold total. by rewrite A2, A4.
Qed.

(** An admitted request joins the batch. *)
Lemma join_attempt N w w' rs r n r' :
  sys_inv N w rs → after_attempt w w' (nodes rs) (node_of (base r) ++ nodes rs) → fresh (base r) →
  fill_ids (base r) = tokens (base r) → cache_protected_len (base r) = length (prefix_indices (base r)) →
  claim (tree w) (base r) (tokens (base r)) (prefix_indices (base r)) → base r' = truncate_fill n (base r) →
  sys_inv N w' (base r' :: rs).
Proof.
  intros Hs [A1 A2 A3 A4 A5] Hf Hfill Hpr Hcl ->.
  assert (w' = set_tree (tree w') w) as -> by (destruct w, w'; cbn in *; by subst).
  apply retoken_inv; [by apply enter_world; [done|exact A1|done|done|done|done|done|apply A3]| |done].
  rewrite Hfill. apply prefix_take.
Qed.

(** No chunk of another request can be added. *)
Definition blocked (w : World T) (a : PrefillAdder) : Prop :=
  (∃ c, rem_chunk_tokens a = Some c ∧ c ≤ 0) ∨ (rem_total_tokens w a < 1)%Q.

(** Not all tokens are part of the step. *)
Definition unfilled (r : QReq) : Prop := (length (fill_ids (base r)) < length (tokens (base r)))%nat.

(** What one attempt does to the batch: the request is sent back, or it joins, whole or as the last chunk. *)
Definition attempted (align : option Z) (w : World T) (a : PrefillAdder) (r : QReq) (w' : World T) (a' : PrefillAdder) (r' : QReq) : Prop :=
  core r' = core r ∧ preempt_list a' = preempt_list a ∧
  (can_run_list a' = can_run_list a ∧ new_chunked_req a' = new_chunked_req a ∧ fresh (base r') ∧ (blocked w a → blocked w' a') ∨
   can_run_list a' = can_run_list a ++ [r'] ∧ ¬ blocked w a ∧
   (new_chunked_req a' = new_chunked_req a ∧ fill_ids (base r') = tokens (base r') ∨
    new_chunked_req a' = Some r' ∧ unfilled r' ∧ (align = None → blocked w' a'))).

(** A request that was admitted joins a consistent batch. *)
Lemma admitted_cons N os align w w' a a' r1 r' n :
  pass_cons N os w a → admissible r1 → fresh (base r1) → fill_ids (base r1) = tokens (base r1) →
  (length (tokens (base r1)) ≤ max_context_len (pool w))%nat → pool w' = pool w →
  (length (can_run_list a) < pool_available (pool w))%nat →
  added 1 align r1 n a r' a' → sys_inv N w' (base r' :: (base <$> can_run_list a) ++ os) →
  pass_cons N os w' a' ∧ tokens_to_run r' = n.
Proof.
  intros [P1 P2 P6 P7] (Hx1 & Hx2 & _) Hf1 Hfill Hl Hpool Hrows Hadd Hs'. pose proof (ad_len _ _ _ _ _ _ _ Hadd) as Hn.
  assert (Hlen : length (fill_ids (base r')) = (length (prefix_indices (base r1)) + Z.to_nat n)%nat ∧
                 length (prefix_indices (base r')) = length (prefix_indices (base r1))).
  { rewrite (ad_base _ _ _ _ _ _ _ Hadd). cbn [truncate_fill fill_ids prefix_indices set_tokens]. rewrite length_take.
    unfold prefix_len in Hx1. lia. }
  split; [|unfold tokens_to_run; lia]. split; rewrite (ad_run _ _ _ _ _ _ _ Hadd), ?Hpool.
  - eapply sys_inv_perm; [|exact Hs']. rewrite fmap_app, <-app_assoc. cbn. by rewrite Permutation_middle.
  - rewrite fmap_app. apply Forall_app. split; [done|]. constructor; [|constructor].
    rewrite (ad_base _ _ _ _ _ _ _ Hadd) in *. destruct Hf1 as (Hi & _). split; [unfold reusable; cbn; by rewrite Hi|].
    split; [|cbn; by rewrite Hi]. rewrite Hfill in Hx1. unfold prefix_len in Hx1. cbn in *. lia.
  - rewrite fmap_app, omap_app, !length_app. simpl. lia.
  - apply Forall_app. split; [done|]. constructor; [|constructor]. rewrite (ad_ext _ _ _ _ _ _ _ Hadd). unfold to_run. lia.
Qed.

(** One turn of the loop that gets as far as [add_one_req]. *)
Lemma admit_step N mixed os align r w a running :
  pass_cons N os w a → waiting_ok (pool w) r → align_ok align → (length (can_run_list a) < pool_available (pool w))%nat →
  ∃ w1 r1 w' a' r' res, next_round logprobs r w = Ok (w1, r1) ∧
    add_one_req 1 ratio None allow cp max_reqs running align r1 w1 a = Ok (w', a', r', res) ∧
    pool w' = pool w ∧ pass_cons N os w' a' ∧ (pass_room mixed w a → pass_room mixed w' a') ∧ attempted align w a r w' a' r' ∧
    (length (can_run_list a) = length (can_run_list a') → res ≠ CONTINUE).
Proof.
  intros HP Hw Hal Hrows. pose proof HP as [P1 P2 P6 P7]. set (rs := (base <$> can_run_list a) ++ os) in *.
  destruct (next_round_ok N w rs r P1 Hw) as (t1 & r1 & E1 & Hs1 & He1 & Had & Hf1 & Hfill & Htok & Hpr & Hcl & Hcore).
  assert (Hrt : rem_total_tokens (set_tree t1 w) a = rem_total_tokens w a)
    by (unfold rem_total_tokens, available_and_evictable; cbn; by rewrite He1).
  destruct (add_one_req_ok 1 ratio allow cp max_reqs ltac:(lia) running align r1 (set_tree t1 w) a (nodes rs) _ _
    (si_cache _ _ _ Hs1) Hcl Had Hal) as (w' & a' & r' & res & E2 & Hor).
  exists (set_tree t1 w), r1, w', a', r', res. split; [done|]. split; [done|].
  destruct Hor as [(Hun & -> & Hres & Haa & Hev & _)|(n & Hadd & Haa & Hroom0 & Hroom & _)].
  - destruct (unchanged_budgets _ _ _ _ _ Hun) as (U1 & U2 & U3 & _ & U5 & U6 & U7).
    assert (Hav : available_and_evictable w' = available_and_evictable w)
      by (unfold available_and_evictable; rewrite (aa_kv _ _ _ _ Haa), Hev; cbn; by rewrite He1).
    split; [apply Haa|]. split; [|split; [|split; [|done]]].
    + split; rewrite ?U1, ?(aa_pool _ _ _ _ Haa); try done. by apply (world_attempt N (set_tree t1 w)).
    + intros [P3 P4 P5]. split; by rewrite ?U1, ?U2, ?U3, ?Hav.
    + split; [done|]. split; [done|]. left. split_and!; try done. unfold blocked, rem_total_tokens. by rewrite U5, U3, Hav.
  - split; [apply Haa|]. pose proof (ad_len _ _ _ _ _ _ _ Hadd) as Hn.
    pose proof (join_attempt N _ _ rs r1 (Z.to_nat n) r' Hs1 Haa Hf1 Hfill Hpr Hcl (ad_base _ _ _ _ _ _ _ Hadd)) as Hs'.
    destruct (admitted_cons N os align w w' a a' r1 r' n HP Had Hf1 Hfill) as [HP' Htr]; try done;
      [destruct Hw as (_ & ? & _); rewrite Htok; lia|apply Haa|].
    split; [done|]. rewrite ceil_one in *. split; [|split].
    + intros [P3 P4 P5]. split; rewrite ?(ad_run _ _ _ _ _ _ _ Hadd), ?(ad_cur _ _ _ _ _ _ _ Hadd), ?ceil_one.
      * rewrite batch_tokens_snoc, Htr, P3. unfold lenZ. rewrite length_app. simpl. lia.
      * eapply Qle_trans; [|apply Hadd]. rewrite ceil_one, inject_Z_plus. by apply Qplus_le_l.
      * right. unfold rem_total_tokens in Hroom.
        assert (Hq : (inject_Z n + inject_Z (cur_rem_token_offset a) <= inject_Z (available_and_evictable w'))%Q) by lra.
        rewrite <-inject_Z_plus, <-Zle_Qle in Hq. lia.
    + split; [by rewrite (ad_core _ _ _ _ _ _ _ Hadd)|]. split; [apply Hadd|]. right. split; [by rewrite (ad_run _ _ _ _ _ _ _ Hadd)|]. split.
      * intros [(c & Hch & Hc)|Hlt]; [pose proof (ad_chunk _ _ _ _ _ _ _ Hadd c Hch); lia|]. rewrite Hrt in Hroom0.
        assert (Hq : (inject_Z 1 <= inject_Z n)%Q) by (rewrite <-Zle_Qle; lia). change (inject_Z 1) with 1%Q in Hq. lra.
      * rewrite (ad_new _ _ _ _ _ _ _ Hadd). destruct (decide (n = extend_input_len r1)) as [->|Hne]; [left|right].
        { split; [done|]. rewrite (ad_base _ _ _ _ _ _ _ Hadd). destruct Had as (Hx1 & _). unfold prefix_len in Hx1.
          by rewrite truncate_full by lia. }
        split; [done|]. split.
        { unfold unfilled. rewrite (ad_base _ _ _ _ _ _ _ Hadd). cbn [truncate_fill fill_ids set_tokens]. rewrite length_take.
          change (tokens (truncate_fill (Z.to_nat n) (base r1))) with (tokens (base r1)). rewrite <-Hfill. destruct Had as (Hx1 & _). unfold prefix_len in Hx1. lia. }
        intros Ha. left. destruct (ad_cut _ _ _ _ _ _ _ Hadd) as [|(c & Hch & Hcut)]; [done|].
        rewrite (ad_rest _ _ _ _ _ _ _ Hadd), Hch, ceil_one. eexists. split; [done|]. rewrite Hcut by done. lia.
    + rewrite (ad_run _ _ _ _ _ _ _ Hadd), length_app. simpl. lia.
Qed.

(** What a pass does to the queue: a prefix of it joins the batch, the rest stays. *)
Record passed (align : option Z) (s s' : Pass (T := T)) (queue taken rest joined : list QReq) : Prop := {
  ps_queue : queue = taken ++ rest;
  ps_run : can_run_list (p_adder s') = can_run_list (p_adder s) ++ joined;
  ps_joined : core <$> joined = core <$> taken;
  ps_wait : ∃ rest', p_waiting s' = p_waiting s ++ rest' ∧ core <$> rest' = core <$> rest ∧ Forall (fun r => fresh (base r)) rest';
  ps_running : p_running s' = p_running s;
  ps_preempt : preempt_list (p_adder s') = preempt_list (p_adder s);
  ps_pool : pool (p_world s') = pool (p_world s);
  ps_blocked : blocked (p_world s) (p_adder s) → joined = [] ∧ new_chunked_req (p_adder s') = new_chunked_req (p_adder s);
  ps_chunk : align = None → (new_chunked_req (p_adder s) ≠ None → blocked (p_world s) (p_adder s)) →
    Forall (fun r => fill_ids (base r) = tokens (base r) ∨ new_chunked_req (p_adder s') = Some r) joined ∧
    (new_chunked_req (p_adder s') = new_chunked_req (p_adder s) ∨ ∃ c, new_chunked_req (p_adder s') = Some c ∧ c ∈ joined ∧ unfilled c);
}.

(** The pass ends here: nobody of [q] joins. *)
Lemma passed_stop align w a w' a' running waiting f f' q rest' :
  can_run_list a' = can_run_list a → new_chunked_req a' = new_chunked_req a → preempt_list a' = preempt_list a → pool w' = pool w →
  core <$> rest' = core <$> q → Forall (fun r => fresh (base r)) rest' →
  passed align (mkPass w a running waiting f) (mkPass w' a' running (waiting ++ rest') f') q [] q [].
Proof.
  intros H1 H2 H3 H4 H5 H6. split; cbn [p_world p_adder p_waiting p_running]; rewrite ?app_nil_r; try done; [by exists rest'|].
  intros _ _. split; [done|by left].
Qed.

(** One request joins, and then what the rest of the pass does. *)
Lemma passed_join align w a r w' a' r' running waiting f f' s' q taken rest joined :
  core r' = core r → preempt_list a' = preempt_list a → pool w' = pool w → can_run_list a' = can_run_list a ++ [r'] → ¬ blocked w a →
  (new_chunked_req a' = new_chunked_req a ∧ fill_ids (base r') = tokens (base r') ∨
   new_chunked_req a' = Some r' ∧ unfilled r' ∧ (align = None → blocked w' a')) →
  passed align (mkPass w' a' running waiting f') s' q taken rest joined →
  passed align (mkPass w a running waiting f) s' (r :: q) (r :: taken) rest (r' :: joined).
Proof.
  intros Hcore Hpl Hp Hrun Hnb Hnew [S1 S2 S3 S4 S5 Spl S6 S7 S8]. split; cbn [p_world p_adder p_waiting p_running] in *; try done.
  - by rewrite S1.
  - by rewrite S2, Hrun, <-app_assoc.
  - by rewrite !fmap_cons, Hcore, S3.
  - by rewrite Spl.
  - by rewrite S6.
  - intros Ha Hn. assert (Hnone : new_chunked_req a = None) by (destruct (new_chunked_req a); [by destruct Hnb; apply Hn|done]).
    destruct Hnew as [[Hn1 Hfill]|(Hn1 & Hun & Hbl)].
    + destruct (S8 Ha) as [S9 S10]; [by rewrite Hn1, Hnone|]. split; [constructor; [by left|done]|].
      destruct S10 as [->|(c & Hc & Hin & Hun)]; [left; congruence|right; exists c; split_and!; [done|by right|done]].
    + destruct (S7 (Hbl Ha)) as [-> Heq]. rewrite Heq, Hn1. split; [constructor; [by right|constructor]|].
      right. exists r'. split_and!; [done|left|done].
Qed.

(** The loop over the queue. *)
Lemma admit_loop_ok N mixed os align q s :
  pass_cons N os (p_world s) (p_adder s) → Forall (waiting_ok (pool (p_world s))) q → align_ok align →
  ∃ s' taken rest joined, loop align q s = Ok s' ∧ pass_cons N os (p_world s') (p_adder s') ∧
    (pass_room mixed (p_world s) (p_adder s) → pass_room mixed (p_world s') (p_adder s')) ∧ passed align s s' q taken rest joined.
Proof.
  intros Hs Hq Hal. revert s Hs Hq. induction q as [|r q IH]; intros s Hs Hq.
  { exists s, [], [], []. split_and!; try done. destruct s as [w a running waiting full].
    pose proof (passed_stop align w a w a running waiting full full [] []) as P. rewrite app_nil_r in P. by apply P. }
  apply Forall_cons in Hq as [Hr Hq]. assert (Hfq : Forall (fun r => fresh (base r)) q) by (eapply Forall_impl; [exact Hq|]; by intros x [? _]).
  destruct s as [w a running waiting full]. cbn [admit_loop p_world p_adder] in *.
  set (fl := full || bool_decide (get_num_allocatable_reqs max_batch (lenZ running) w ≤ lenZ (can_run_list a))).
  destruct fl eqn:Hfl; cbn [mbind result_bind negb].
  { eexists _, [], (r :: q), []. split; [done|]. cbn [p_world p_adder]. split_and!; try done.
    apply passed_stop; try done. constructor; [apply Hr|done]. }
  unfold fl in Hfl. apply orb_false_iff in Hfl as [_ Hfl%bool_decide_eq_false]. unfold get_num_allocatable_reqs, lenZ in Hfl.
  destruct (admit_step N mixed os align r w a (Some running) Hs Hr Hal)
    as (w1 & r1 & w' & a' & r' & res & E1 & E2 & Hp & Hs' & Hroom & (Hcore & Hpl & Hatt) & Hres); [lia|].
  rewrite E1. cbn [mbind result_bind fst snd]. rewrite E2. cbn [mbind result_bind].
  destruct Hatt as [(Hrun & Hnew & Hf & Hb)|(Hrun & Hnb & Hnew)]; rewrite Hrun.
  - rewrite (bool_decide_eq_false_2 (_ < _)%nat) by lia. rewrite bool_decide_eq_false_2 by (apply Hres; by rewrite Hrun).
    eexists _, [], (r :: q), []. split; [done|]. cbn [p_world p_adder]. split; [done|]. split; [done|]. rewrite <-app_assoc.
    apply passed_stop; try done; [by cbn [app]; rewrite !fmap_cons, Hcore|by constructor].
  - rewrite (bool_decide_eq_true_2 (_ < _)%nat) by (rewrite length_app; simpl; lia). case_bool_decide as Hcont.
    + destruct (IH (mkPass w' a' running waiting false)) as (s' & taken & rest & joined & E & Hc & Hrm & P); cbn [p_world p_adder] in *;
        [done|by rewrite Hp|].
      exists s', (r :: taken), rest, (r' :: joined). rewrite E. split_and!; try done; [tauto|]. by eapply passed_join.
    + eexists _, [r], q, [r']. split; [done|]. cbn [p_world p_adder]. split; [done|]. split; [done|].
      eapply passed_join; try done. by apply (passed_stop align w' a' w' a' running waiting false).
Qed.

(** ** The first request of a pass *)

Lemma q_int_bounds x : (0 <= x)%Q → (inject_Z (q_int x) <= x)%Q ∧ (x < inject_Z (q_int x) + 1)%Q.
Proof.
  intros Hx. assert (q_int x = Qfloor x) as ->.
  { destruct x as [n d]. unfold q_int. simpl. apply Z.quot_div_nonneg; [|lia]. unfold Qle in Hx. simpl in Hx. lia. }
  split; [apply Qfloor_le|]. pose proof (Qlt_floor x) as H. rewrite inject_Z_plus in H. exact H.
Qed.

Lemma qsum_nonneg l : Forall (fun x => 0 <= x)%Q l → (0 <= qsum l)%Q.
Proof. induction 1 as [|x l Hx _ IH]; simpl; [apply Qle_refl|lra]. Qed.

#[local] Notation start_adder running mp cps mixed dl := (new_adder ratio None (Some running) mp cps mixed dl).

(** Running requests do not exceed their length, so their reserve is not negative. *)
Lemma new_adder_off running mp cps mixed dl :
  (0 <= ratio)%Q → Forall (fun r => output_len r ≤ max_new_tokens r) running →
  (inject_Z mixed <= rem_total_token_offset (start_adder running mp cps mixed dl))%Q.
Proof.
  intros Hr Hrun. cbn. assert (0 <= qsum (_get_running_request_total_token_offset ratio <$> running))%Q; [|lra].
  apply qsum_nonneg. apply Forall_fmap. eapply Forall_impl; [exact Hrun|]. intros r Hle. cbn in Hle |- *.
  unfold _get_running_request_total_token_offset. apply Qmult_le_0_compat; [|done].
  change 0%Q with (inject_Z 0). rewrite <-Zle_Qle. unfold CLIP_MAX_NEW_TOKENS. lia.
Qed.

(** The unfinished request may continue: it is consistent and the chunk has a token. *)
Definition chunk_cont (w : World T) (a : PrefillAdder) (r : QReq) : Prop :=
  extend_ready (pool w) (next_chunk (base r)) ∧ req_pool_idx (base r) ≠ None ∧ 0 ≤ max_new_tokens r ∧
  ∃ c, rem_chunk_tokens a = Some c ∧ 1 ≤ c.

(** Also the memory has room for a token. *)
Definition chunk_ready (w : World T) (a : PrefillAdder) (r : QReq) : Prop := chunk_cont w a r ∧ (1 <= rem_total_tokens w a)%Q.

(** The tokens of the chunk, with and without memory for one. *)
Lemma chunk_rem c rt :
  1 ≤ c → let rem := if bool_decide (c `min` q_int rt ≤ 0) then c else c `min` q_int rt in
  1 ≤ rem ≤ c ∧ ((1 <= rt)%Q → (inject_Z rem <= rt)%Q) ∧ (rem = c ∨ (rt < inject_Z rem + 1)%Q).
Proof.
  intros Hc rem. unfold rem. case_bool_decide as Hd.
  - split; [lia|]. split; [|by left]. intros Hrt. destruct (q_int_bounds rt ltac:(lra)) as [Hq1 Hq2].
    enough (0 < q_int rt) by lia. rewrite Zlt_Qlt. change (inject_Z 0) with 0%Q. lra.
  - assert (Hpos : 0 < q_int rt) by lia. assert (Hrt : (0 <= rt)%Q).
    { destruct (Qlt_le_dec rt 0) as [Hneg|]; [|done]. exfalso. destruct rt as [n d]. unfold q_int in Hpos. cbn in Hpos.
      unfold Qlt in Hneg. cbn in Hneg. assert (n ≤ 0) by lia. pose proof (Z.quot_le_mono n 0 (Z.pos d)). rewrite Z.quot_0_l in *; lia. }
    destruct (q_int_bounds rt Hrt) as [Hq1 Hq2]. split; [lia|]. split.
    + intros _. eapply Qle_trans; [|exact Hq1]. rewrite <-Zle_Qle. lia.
    + destruct (decide (c ≤ q_int rt)); [left; lia|right]. by replace (c `min` q_int rt) with (q_int rt) by lia.
Qed.

Lemma start_chunked N mixed os w a r :
  sys_inv N w (base r :: os) → chunk_cont w a r → can_run_list a = [] → new_chunked_req a = None → cur_rem_token_offset a = mixed →
  (inject_Z mixed <= rem_total_token_offset a)%Q →
  ∃ a1 r1 c1, start_pass 1 None (Some r) w a = Ok (a1, c1) ∧ can_run_list a1 = [r1] ∧ core r1 = core r ∧ preempt_list a1 = preempt_list a ∧
    pass_cons N os w a1 ∧ ((1 <= rem_total_tokens w a)%Q → pass_room mixed w a1) ∧ new_chunked_req a1 = None ∧
    (c1 = None ∧ fill_ids (base r1) = tokens (base r1) ∨ c1 = Some r1 ∧ unfilled r1 ∧ blocked w a1).
Proof.
  intros Hs ((Hre & Hlen & Hpre) & Hidx & Hmx & (c & Hc & Hc1)) Hrun Hnew Hcur Hoff.
  unfold start_pass, add_chunked_req. set (b := next_chunk (base r)) in *.
  set (r0 := set_extend_input_len (Z.of_nat (length (fill_ids b)) - Z.of_nat (length (prefix_indices b))) (set_base b r)).
  rewrite Hc. cbn [mbind result_bind]. set (rt := rem_total_tokens w a) in *.
  destruct (chunk_rem c rt Hc1) as (Hrem & Hrem2 & Hrem3). set (rem := if bool_decide (c `min` q_int rt ≤ 0) then c else _) in *.
  set (n := extend_input_len r0 `min` rem).
  assert (He : extend_input_len r0 = Z.of_nat (length (fill_ids b) - length (prefix_indices b))) by (unfold r0; cbn [extend_input_len set_extend_input_len]; lia).
  assert (Hn : 1 ≤ n ≤ extend_input_len r0) by lia. cbv zeta. set (r1 := cut_fill _ (set_extend_input_len n r0)).
  assert (Hb1 : base r1 = truncate_fill (Z.to_nat n) b) by (apply cut_truncate; [cbn; lia|done]).
  change (extend_input_len r1) with n. change (max_new_tokens r1) with (max_new_tokens r).
  set (mx := if bool_decide (rem < extend_input_len r0) then 0 else max_new_tokens r `min` CLIP_MAX_NEW_TOKENS).
  assert (Hmx0 : 0 ≤ mx) by (unfold mx, CLIP_MAX_NEW_TOKENS; case_bool_decide; lia).
  assert (Hp1 : prefix_indices (base r1) = prefix_indices b) by (by rewrite Hb1).
  assert (Hl1 : length (fill_ids (base r1)) = (length (prefix_indices b) + Z.to_nat n)%nat)
    by (rewrite Hb1; cbn [truncate_fill fill_ids set_tokens]; rewrite length_take; lia).
  eexists _, r1, _. split; [done|]. cbn [fst snd _update_prefill_budget add_run can_run_list]. rewrite Hrun. split; [done|]. split; [done|]. split; [done|].
  split; [|split; [|split; [exact Hnew|]]].
  - split; cbn [_update_prefill_budget add_run can_run_list]; rewrite Hrun; cbn [app fmap list_fmap].
    + change (sys_inv N w (base r1 :: os)). rewrite Hb1. apply retoken_inv; [by apply retoken_inv| |done].
      cbn. etrans; [apply prefix_take|done].
    + constructor; [|constructor]. split; [by rewrite Hb1|]. split; [rewrite Hl1, Hp1; lia|by rewrite Hb1].
    + destruct (req_pool_idx (base r1)) as [i|] eqn:Hi; [rewrite idx_cons, Hi; simpl; lia|]. by rewrite Hb1 in Hi.
    + constructor; [|constructor]. change (extend_input_len r1) with n. unfold to_run. rewrite Hl1, Hp1. lia.
  - intros Ht. split; cbn [_update_prefill_budget add_run can_run_list cur_rem_token_offset rem_total_token_offset];
      rewrite ?Hrun; cbn [app fmap list_fmap]; rewrite ?ceil_one.
    + unfold batch_tokens, lenZ. cbn [fmap list_fmap length]. rewrite sumZ_cons. unfold tokens_to_run. rewrite Hl1, Hp1.
      unfold sumZ. cbn [foldr]. lia.
    + rewrite Hcur, inject_Z_plus. apply Qplus_le_compat; [done|]. rewrite <-Zle_Qle. lia.
    + right. enough (Hg : (inject_Z (mixed + n) <= inject_Z (available_and_evictable w))%Q) by (rewrite <-Zle_Qle in Hg; lia).
      assert (Hnq : (inject_Z n <= inject_Z rem)%Q) by (rewrite <-Zle_Qle; lia). rewrite inject_Z_plus.
      specialize (Hrem2 Ht). unfold rt, rem_total_tokens in Hrem2. lra.
  - case_bool_decide as Htr; [right; split; [done|split]|left; split; [done|]].
    + unfold unfilled. rewrite Hl1, Hb1. change (tokens (truncate_fill (Z.to_nat n) b)) with (fill_ids b). lia.
    + unfold blocked. cbn [_update_prefill_budget add_run rem_chunk_tokens]. rewrite Hc, ceil_one. cbn [fmap option_fmap option_map].
      destruct Hrem3 as [Hr3|Hr3]; [left; eexists; split; [done|]; lia|right].
      assert (Hnr : n = rem) by lia. unfold rem_total_tokens. cbn [rem_total_token_offset _update_prefill_budget add_run].
      rewrite ceil_one. unfold mx. rewrite !inject_Z_plus, Hnr. change (inject_Z 1) with 1%Q.
      unfold available_and_evictable, rt, rem_total_tokens, available_and_evictable in *.
      change (inject_Z 0) with 0%Q. rewrite !inject_Z_plus in *. lra.
    + rewrite Hb1, truncate_full; [done|]. lia.
Qed.

(** ** The count of unfinished chunks plays no part in the invariant *)

Lemma inflight_inv N w r os n : sys_inv N w (r :: os) → sys_inv N w (set_inflight n r :: os).
Proof.
  intros [H1 H2 H3 H4 H5]. apply Forall_cons in H4 as [(F1 & F2 & F3 & F4 & F5 & F6) Hos].
  split; [exact H1|done|exact H3| |exact H5]. constructor; [|done]. split_and!; try done.
  cbn [req_pool_idx set_inflight]. destruct (req_pool_idx r).
  - destruct F6 as (G1 & G2 & G3). split; [done|]. split; [done|]. by eapply claim_ext; [exact G3|..].
  - destruct F6 as (G1 & G2 & G3). split; [done|]. split; [done|]. by eapply claim_ext; [exact G3|..].
Qed.

Lemma count_chunk_inv N w chunked batch os :
  sys_inv N w ((base <$> batch) ++ os) → sys_inv N w ((base ∘ count_chunk chunked <$> batch) ++ os).
Proof.
  revert os. induction batch as [|r batch IH]; intros os Hs; [done|]. rewrite fmap_cons in *. cbn [app] in *.
  assert (Hr : sys_inv N w (base (count_chunk chunked r) :: (base <$> batch) ++ os)).
  { unfold count_chunk. destruct chunked as [c|]; [|done]. case_bool_decide; [by apply inflight_inv|done]. }
  apply (sys_inv_perm N w _ ((base <$> batch) ++ base (count_chunk chunked r) :: os)) in Hr; [|apply Permutation_middle].
  apply IH in Hr. eapply sys_inv_perm; [|exact Hr]. symmetry. apply Permutation_middle.
Qed.

Lemma count_chunk_ready p chunked r : extend_ready p (base r) → extend_ready p (base (count_chunk chunked r)).
Proof.
  intros (H1 & H2 & H3). unfold count_chunk. destruct chunked as [c|]; [|done]. case_bool_decide; [|done].
  split; [|done]. revert H1. unfold reusable. cbn. destruct (req_pool_idx (base r)); [|done].
  rewrite !orb_true_iff, !bool_decide_eq_true. intros [?|?]; [left; lia|by right].
Qed.

Lemma count_chunk_shape chunked batch :
  omap req_pool_idx (base ∘ count_chunk chunked <$> batch) = omap req_pool_idx (base <$> batch) ∧
  extend_num_tokens (base ∘ count_chunk chunked <$> batch) = extend_num_tokens (base <$> batch).
Proof.
  assert (Hone : ∀ r, req_pool_idx (base (count_chunk chunked r)) = req_pool_idx (base r) ∧
    fill_ids (base (count_chunk chunked r)) = fill_ids (base r) ∧ prefix_indices (base (count_chunk chunked r)) = prefix_indices (base r)).
  { intros r. unfold count_chunk. destruct chunked; [|done]. by case_bool_decide. }
  induction batch as [|r batch [I1 I2]]; [done|]. destruct (Hone r) as (O1 & O2 & O3). rewrite !fmap_cons.
  split; [by rewrite !idx_cons, I1; cbn; rewrite O1|].
  unfold extend_num_tokens in *. rewrite !fmap_cons. cbn. rewrite O2, O3. f_equal. exact I2.
Qed.

(** ** A new prefill batch *)

(** The batch of a finished pass extends, or memory is missing that was not promised. *)
Lemma pass_extends N mixed os w a chunked :
  pass_cons N os w a →
  (∃ w' reqs out, prepare_for_extend uninit 1 (base ∘ count_chunk chunked <$> can_run_list a) (extend_input_len <$> can_run_list a) w = Ok (w', reqs, out) ∧
     sys_inv N w' (reqs ++ os) ∧ Forall2 extended (base ∘ count_chunk chunked <$> can_run_list a) reqs ∧
     max_context_len (pool w') = max_context_len (pool w)) ∨
  prepare_for_extend uninit 1 (base ∘ count_chunk chunked <$> can_run_list a) (extend_input_len <$> can_run_list a) w = Raise RuntimeError ∧
    ¬ (pass_room mixed w a ∧ can_run_list a ≠ [] ∧ 0 ≤ mixed).
Proof.
  intros [P1 P2 P6 P7]. pose proof (extend_cases uninit N w (base ∘ count_chunk chunked <$> can_run_list a) os) as Hc.
  assert (Hl : extend_input_len <$> can_run_list a = to_run <$> (base ∘ count_chunk chunked <$> can_run_list a)).
  { rewrite <-list_fmap_compose. apply list_fmap_ext. intros i r Hr%list_elem_of_lookup_2. rewrite Forall_forall in P7. rewrite (P7 r Hr). cbn.
    unfold count_chunk. destruct chunked; [|done]. by case_bool_decide. }
  rewrite Hl. clear Hl.
  destruct (count_chunk_shape chunked (can_run_list a)) as [S1 S2].
  assert (Hre : Forall (extend_ready (pool w)) (base ∘ count_chunk chunked <$> can_run_list a)).
  { apply Forall_fmap. rewrite Forall_fmap in P2. eapply Forall_impl; [exact P2|]. intros r. apply count_chunk_ready. }
  specialize (Hc (count_chunk_inv _ _ _ _ _ P1) Hre). case_decide as Hd; [left; exact Hc|right]. split; [exact Hc|].
  intros ([P3 P4 P5] & Hne & Hm). apply Hd. destruct P5 as [|P5]; [done|].
  rewrite S1, S2, length_fmap. split; [exact P6|]. rewrite <-batch_tokens_extend. unfold available_and_evictable, lenZ in *.
  destruct (can_run_list a); [done|]. simpl length in *. lia.
Qed.

(** What a pass leaves behind: the requests of the queue that joined are run, the others wait. *)
Record built (N : Z) (align : option Z) (os : list Req) (w : World T) (running waiting : list QReq) (chunked : option QReq) (s : Pass (T := T))
    (c' : option QReq) (out : option (list Req * list Z)) : Prop := {
  bu_queue : ∃ taken rest, waiting = taken ++ rest ∧ core <$> can_run_list (p_adder s) = core <$> option_list chunked ++ taken ∧
    core <$> p_waiting s = core <$> rest ∧ Forall (fun r => fresh (base r)) (p_waiting s);
  bu_running : p_running s = running;
  bu_ctx : max_context_len (pool (p_world s)) = max_context_len (pool w);
  bu_chunk : align = None → Forall (fun r => fill_ids (base r) = tokens (base r) ∨ c' = Some r) (can_run_list (p_adder s));
  bu_some : Forall (fun r => fill_ids (base r) ≠ []) (can_run_list (p_adder s));
  bu_next : align = None → c' = None ∨ ∃ c, c' = Some c ∧ c ∈ can_run_list (p_adder s) ∧ unfilled c;
  bu_out :
    match out with
    | Some (reqs, _) => can_run_list (p_adder s) ≠ [] ∧ sys_inv N (p_world s) (reqs ++ os) ∧
        Forall2 extended (base ∘ count_chunk c' <$> can_run_list (p_adder s)) reqs
    | None => can_run_list (p_adder s) = [] ∧ sys_inv N (p_world s) os
    end;
}.

(** The first request of the pass, if one is unfinished. *)
Lemma start_ok N mixed os w a chunked :
  sys_inv N w (option_list (base <$> chunked) ++ os) → (∀ r, chunked = Some r → chunk_cont w a r) → can_run_list a = [] →
  new_chunked_req a = None → cur_rem_token_offset a = mixed → (inject_Z mixed <= rem_total_token_offset a)%Q → 
  ∃ a1 c1, start_pass 1 None chunked w a = Ok (a1, c1) ∧ core <$> can_run_list a1 = core <$> option_list chunked ∧
    pass_cons N os w a1 ∧ ((chunked ≠ None → (1 <= rem_total_tokens w a)%Q) → pass_room mixed w a1) ∧
    new_chunked_req a1 = None ∧ preempt_list a1 = preempt_list a ∧
    Forall (fun r => fill_ids (base r) = tokens (base r) ∨ c1 = Some r) (can_run_list a1) ∧
    (c1 = None ∨ ∃ c, c1 = Some c ∧ c ∈ can_run_list a1 ∧ unfilled c ∧ blocked w a1).
Proof.
  intros Hs Hch Hrun Hnew Hcur Hoff. destruct chunked as [r|].
  - destruct (start_chunked N mixed os w a r Hs (Hch r eq_refl) Hrun Hnew Hcur Hoff)
      as (a1 & r1 & c1 & E & Hr1 & Hcore & Hpl & Hcons & Hroom & Hn1 & Hc1).
    exists a1, c1. split; [done|]. rewrite Hr1. cbn [option_list fmap list_fmap]. rewrite Hcore. split; [done|]. split; [done|].
    split; [intros Ht; apply Hroom, Ht; done|]. split; [done|]. split; [done|].
    destruct Hc1 as [[-> Hfull]|(-> & Hun & Hbl)]; (split; [apply Forall_singleton|]); [by left|by left|by right|].
    right. exists r1. split_and!; [done|left|done|done].
  - exists a, None. split; [done|]. rewrite Hrun. split; [done|]. split.
    { split; rewrite Hrun; [exact Hs|constructor|simpl; lia|constructor]. }
    split; [|split; [done|split; [done|split; [constructor|by left]]]].
    intros _. split; rewrite ?Hrun; [unfold lenZ, batch_tokens, sumZ; simpl; lia|by rewrite Hcur|by left].
Qed.

(** At most one request of the batch is unfinished. *)
Lemma next_chunked_ok align w a1 running full s waiting taken rest joined c1 :
  new_chunked_req a1 = None → Forall (fun r => fill_ids (base r) = tokens (base r) ∨ c1 = Some r) (can_run_list a1) →
  (c1 = None ∨ ∃ c, c1 = Some c ∧ c ∈ can_run_list a1 ∧ unfilled c ∧ blocked w a1) →
  passed align (mkPass w a1 running [] full) s waiting taken rest joined →
  ∃ c', match new_chunked_req (p_adder s), c1 with
        | Some _, Some _ => Raise AssertionError
        | Some r, None => Ok (Some r)
        | None, c => Ok c
        end = Ok c' ∧
    (align = None → Forall (fun r => fill_ids (base r) = tokens (base r) ∨ c' = Some r) (can_run_list (p_adder s)) ∧
                    (c' = None ∨ ∃ c, c' = Some c ∧ c ∈ can_run_list (p_adder s) ∧ unfilled c)).
Proof.
  intros Hnew Hfull Hc1 P. pose proof (ps_run _ _ _ _ _ _ _ P) as S2. pose proof (ps_blocked _ _ _ _ _ _ _ P) as S9.
  pose proof (ps_chunk _ _ _ _ _ _ _ P) as S10. cbn [p_world p_adder] in *. rewrite S2. destruct Hc1 as [->|(c & -> & Hin & Hun & Hbl)].
  - exists (new_chunked_req (p_adder s)). split; [by destruct (new_chunked_req (p_adder s))|]. intros Ha.
    destruct (S10 Ha) as [S11 S12]; [by rewrite Hnew|]. split.
    + apply Forall_app. split; [|done]. eapply Forall_impl; [exact Hfull|]. intros r [?|?]; [by left|done].
    + rewrite Hnew in S12. destruct S12 as [->|(c & -> & Hin & Hun)]; [by left|right]. exists c. split_and!; [done| |done]. apply elem_of_app. by right.
  - destruct (S9 Hbl) as [-> ->]. rewrite Hnew. exists (Some c). split; [done|]. intros _. rewrite app_nil_r. split; [done|].
    right. by exists c.
Qed.

(** A pass builds a batch, or it has no memory for the unfinished request. *)
Lemma new_batch_ok N align mp cps mixed dl running waiting chunked full w os :
  sys_inv N w (option_list (base <$> chunked) ++ os) → (0 <= ratio)%Q → 0 ≤ mixed →
  Forall (fun r => output_len r ≤ max_new_tokens r) running → Forall (waiting_ok (pool w)) waiting → align_ok align →
  (∀ r, chunked = Some r → chunk_cont w (start_adder running mp cps mixed dl) r) →
  let run := get_new_batch_prefill 1 ratio None allow cp max_reqs threshold steps false no_spec logprobs max_batch false low_first uninit
      align mp cps mixed dl running waiting chunked full w in
  (∃ s c' out, run = Ok (s, c', out) ∧ built N align os w running waiting chunked s c' out) ∨
  run = Raise RuntimeError ∧ chunked ≠ None ∧ ¬ (1 <= rem_total_tokens w (start_adder running mp cps mixed dl))%Q.
Proof.
  intros Hs Hr Hm Hrun Hwait Hal Hch. unfold get_new_batch_prefill. set (a := start_adder running mp cps mixed dl) in *. cbv zeta.
  destruct (start_ok N mixed os w a chunked Hs Hch) as (a1 & c1 & -> & Hcore1 & Hcons1 & Hroom1 & Hnew1 & Hpl1 & Hfull1 & Hc1);
    [done|done|done|by apply new_adder_off|].
  cbn [mbind result_bind fst snd].
  destruct (admit_loop_ok N mixed os align waiting (mkPass w a1 running [] full) Hcons1 Hwait Hal)
    as (s & taken & rest & joined & -> & Hcons & Hroom & P). cbn [mbind result_bind p_world p_adder] in *.
  pose proof P as [S1 S2 S3 (rest' & S4 & S5 & S6) S7 Spl S8 S9 S10]. cbn [p_world p_adder p_waiting p_running app] in *.
  assert (Hcc : core <$> can_run_list (p_adder s) = core <$> option_list chunked ++ taken) by (by rewrite S2, !fmap_app, Hcore1, S3).
  destruct (next_chunked_ok align w a1 running full s waiting taken rest joined c1 Hnew1 Hfull1 Hc1 P) as (c' & Ec & Hnext).
  assert (Hpl : p_waiting s ++ preempt_list (p_adder s) = rest') by (rewrite S4, Spl, Hpl1; apply app_nil_r).
  assert (Hsome : Forall (fun r => fill_ids (base r) ≠ []) (can_run_list (p_adder s))).
  { pose proof (pv_ready _ _ _ _ Hcons) as Hre. rewrite Forall_fmap in Hre. eapply Forall_impl; [exact Hre|]. cbn.
    intros r (_ & Hlen & _) E. rewrite E in Hlen. cbn in Hlen. lia. }
  destruct (can_run_list (p_adder s)) as [|r0 l0] eqn:Hcr.
  { left. do 3 eexists. split; [done|]. assert (c1 = None) as ->.
    { destruct Hc1 as [|(c & _ & Hin & _ & _)]; [done|]. symmetry in S2. apply app_nil in S2 as [S2 _]. rewrite S2 in Hin. by apply not_elem_of_nil in Hin. }
    split; rewrite ?Hcr; try done.
    - exists taken, rest. by rewrite S4.
    - by rewrite S8.
    - by left.
    - split; [done|]. pose proof (pv_sys _ _ _ _ Hcons) as Hss. by rewrite Hcr in Hss. }
  rewrite Ec. cbn [mbind result_bind]. rewrite <-Hcr in *. change (Z.to_nat 1) with 1%nat.
  destruct (pass_extends N mixed os (p_world s) (p_adder s) c' Hcons) as [(w' & reqs & out & -> & Hs' & Hext & Hctx)|[-> Hno]].
  - left. cbn [mbind result_bind]. do 3 eexists. split; [done|]. rewrite Hpl. split; cbn [p_world p_adder p_waiting p_running]; try done.
    + by exists taken, rest.
    + by rewrite Hctx, S8.
    + apply Hnext.
    + apply Hnext.
    + split; [by rewrite Hcr|done].
  - right. split; [done|]. destruct chunked as [r|].
    + split; [done|]. intros Ht. apply Hno. split; [apply Hroom, Hroom1; by intros|]. by rewrite Hcr.
    + exfalso. apply Hno. split; [by apply Hroom, Hroom1|]. by rewrite Hcr.
Qed.

(** C9: Building a new prefill batch never fails.  Take a consistent server with
    single-slot pages, without preemption and without a diffusion model; a ratio of new
    tokens that is not negative, a positive alignment, running requests within their length, waiting
    requests that hold nothing and fit the context.  If a
    chunked request is unfinished, it keeps its row, its prefix is what the row holds and
    leaves something to run within the context, and the chunk
    budget has room for a token and so has the memory.  Then whatever the waiting
    queue, the budgets, the order of priorities, the delay and the limits on the number of requests,
    the requests the adder admits get their rows and slots: the batch does not run out of memory, the
    assertion that [extend_input_len] is the number of tokens each request has to run
    holds, and the state afterwards is consistent again with every slot free, cached
    or owned once. *)
Theorem prefill_never_oom N align mp cps mixed dl running waiting chunked full w os :
  sys_inv N w (option_list (base <$> chunked) ++ os) → (0 <= ratio)%Q → 0 ≤ mixed →
  Forall (fun r => output_len r ≤ max_new_tokens r) running → Forall (waiting_ok (pool w)) waiting → align_ok align →
  (∀ r, chunked = Some r → chunk_ready w (start_adder running mp cps mixed dl) r) →
  ∃ s c' out,
    get_new_batch_prefill 1 ratio None allow cp max_reqs threshold steps false no_spec logprobs max_batch false low_first uninit
      align mp cps mixed dl running waiting chunked full w = Ok (s, c', out) ∧
    match out with
    | Some (reqs, _) => sys_inv N (p_world s) (reqs ++ os)
    | None => can_run_list (p_adder s) = [] ∧ sys_inv N (p_world s) os
    end.
Proof.
  intros Hs Hr Hm Hrun Hwait Hal Hch.
  destruct (new_batch_ok N align mp cps mixed dl running waiting chunked full w os Hs Hr Hm Hrun Hwait Hal) as [(s & c' & out & E & B)|(_ & Hne & Hrt)].
  - intros r Hc. by apply Hch.
  - exists s, c', out. split; [done|]. pose proof (bu_out _ _ _ _ _ _ _ _ _ _ B) as Ho. destruct out as [[reqs locs]|]; [apply Ho|done].
  - destruct chunked as [r|]; [|done]. destruct Hrt. apply (Hch r eq_refl).
Qed.

End pass.

(** * Preemption *)

Section preemption.
Context {T : Type} {PC : PrefixCache T} {LC : LockCache T} {PL : PrefixCacheLaws T false}.
Context (ratio : Q) (threshold steps : Z) (low_first : bool).


#[local] Notation offset := (_get_running_request_total_token_offset ratio).

Definition has_priority (r : QReq) : Prop := req_priority (base r) ≠ None.
Definition prio (r : QReq) : Z := default 0 (req_priority (base r)).

Lemma priority_or_raise_ok r : has_priority r → priority_or_raise r = Ok (prio r).
Proof. unfold has_priority, priority_or_raise, prio. by destruct (req_priority (base r)). Qed.

Lemma qsum_cons (f : QReq → Q) r l : qsum (f <$> r :: l) = (f r + qsum (f <$> l))%Q.
Proof. done. Qed.

(** The victims are taken from the front, each beaten by the threshold, until enough is freed. *)
Lemma take_victims_ok sign pr missing l :
  Forall has_priority l →
  ∃ vs m, take_victims ratio threshold sign pr missing l = Ok (vs, m) ∧ vs `prefix_of` l ∧
    Forall (fun v => threshold < (pr - prio v) * - sign) vs ∧ (m == missing - qsum (offset <$> vs))%Q.
Proof.
  revert missing. induction l as [|v l IH]; intros missing Hl.
  { exists [], missing. cbn. split_and!; try done. lra. }
  apply Forall_cons in Hl as [Hv Hl]. cbn [take_victims]. rewrite (priority_or_raise_ok v Hv). cbn [mbind result_bind].
  case_bool_decide as Hd; [|exists [], missing; cbn; split_and!; try done; [apply prefix_nil|lra]]. cbv zeta.
  destruct (Qle_bool _ 0).
  { do 2 eexists. split; [done|]. split; [by apply prefix_cons, prefix_nil|]. split; [by constructor|]. rewrite qsum_cons. unfold qsum. simpl fmap. simpl foldr. lra. }
  destruct (IH (missing - offset v)%Q Hl) as (vs & m & E & Hp & Hf & Hm). rewrite E. cbn [mbind result_bind].
  do 2 eexists. split; [done|]. cbn [fst snd]. split; [by apply prefix_cons|]. split; [by constructor|]. rewrite qsum_cons. lra.
Qed.

(** Requests that still have their KV cache. *)
Definition alive (l : list QReq) : list Req := base <$> filter (fun r => finished r = false) l.

(** A request that was released: no KV state, the tokens as they were. *)
Definition retracted_req (r : QReq) : QReq := reset_for_retract (set_base (set_pool_idx None (set_freed true true (base r))) r).

Lemma retracted_fresh r : fresh (base (retracted_req r)) ∧ rid (retracted_req r) = rid r.
Proof. by split_and!. Qed.

Lemma release_req_ok N w r rs rem :
  sys_inv N w (base r :: rs) → req_pool_idx (base r) ≠ None →
  ∃ w', release_req 1 steps false true r rem w = Ok (w', retracted_req r) ∧ sys_inv N w' rs ∧
    max_context_len (pool w') = max_context_len (pool w).
Proof.
  intros Hs Hi. unfold release_req. change (Z.to_nat 1) with 1%nat.
  destruct (finish_inv N w (base r) rs false Hs Hi) as (w1 & b1 & E1 & Hs1 & Hn & Hctx). rewrite E1. cbn [mbind result_bind fst snd].
  destruct (evict_room N w1 rs (rem * steps) Hs1) as (w2 & E2 & Hs2 & Hp & _). rewrite E2. cbn [mbind result_bind].
  eexists. split; [by rewrite Hn|]. split; [done|]. by rewrite Hp.
Qed.

Lemma release_victims_ok N victims n l : ∀ released w a os,
  sys_inv N w (alive l ++ os) → Forall (fun r => finished r = false → req_pool_idx (base r) ≠ None) l →
  Forall (fun r => rid r ∈ victims → finished r = false) l →
  ∃ w' a' out, release_victims 1 ratio steps false true victims n released l w a
      = Ok (w', a', filter (fun r => rid r ∉ victims) l, out) ∧
    sys_inv N w' (alive (filter (fun r => rid r ∉ victims) l) ++ os) ∧ Forall (fun r => fresh (base r)) out ∧
    rid <$> out = rid <$> filter (fun r => rid r ∈ victims) l ∧
    can_run_list a' = can_run_list a ∧ preempt_list a' = preempt_list a ∧ cur_rem_token_offset a' = cur_rem_token_offset a ∧
    (rem_total_token_offset a' == rem_total_token_offset a - qsum (offset <$> filter (fun r => rid r ∈ victims) l))%Q.
Proof.
  induction l as [|r l IH]; intros released w a os Hs Hrow Hvic.
  { exists w, a, []. cbn. split_and!; try done. lra. }
  apply Forall_cons in Hrow as [Hr Hrow], Hvic as [Hv Hvic]. cbn [release_victims]. rewrite !filter_cons. case_bool_decide as Hin.
  - rewrite decide_False, (decide_True (P := rid r ∈ victims)) by tauto. specialize (Hv Hin). unfold alive in Hs at 1. rewrite filter_cons, decide_True in Hs by done.
    destruct (release_req_ok N w r (alive l ++ os) (Z.of_nat (n - S released)) Hs (Hr Hv)) as (w1 & E1 & Hs1 & _).
    destruct (retracted_fresh r) as [Hf1 Hrid].
    rewrite E1. cbn [mbind result_bind fst snd].
    destruct (IH (S released) w1 (mkAdder (rem_input_tokens a) (rem_chunk_tokens a) (rem_dllm_tokens a)
      (rem_total_token_offset a - offset r) (cur_rem_token_offset a) (req_states a) (can_run_list a) (preempt_list a)
      (new_chunked_req a) (log_hit_tokens a) (log_input_tokens a)) os Hs1 Hrow Hvic)
      as (w' & a' & out & E2 & Hs2 & Hf2 & Hr2 & C1 & C2 & C3 & C4).
    rewrite E2. cbn [mbind result_bind]. do 3 eexists. split; [done|]. split; [done|]. split; [by constructor|].
    split; [by rewrite !fmap_cons, Hr2, Hrid|]. rewrite qsum_cons. split_and!; try done. cbn [rem_total_token_offset] in C4. lra.
  - rewrite decide_True, (decide_False (P := rid r ∈ victims)) by done. unfold alive in Hs |- *. rewrite !filter_cons in *.
    destruct (decide (finished r = false)) as [Hfin|Hfin].
    + assert (Hs' : sys_inv N w (alive l ++ base r :: os)) by (eapply sys_inv_perm; [|exact Hs]; apply Permutation_middle).
      destruct (IH released w a (base r :: os) Hs' Hrow Hvic) as (w' & a' & out & E2 & Hs2 & Hrest). rewrite E2. cbn [mbind result_bind].
      do 3 eexists. split; [done|]. split; [|exact Hrest]. eapply sys_inv_perm; [|exact Hs2]. symmetry. apply Permutation_middle.
    + destruct (IH released w a os Hs Hrow Hvic) as (w' & a' & out & E2 & Hs2 & Hrest). rewrite E2. cbn [mbind result_bind].
      do 3 eexists. split; [done|]. by split.
Qed.

(** Among requests with distinct ids, those with the ids of a part are that part. *)
Lemma pick_by_rid (vs l : list QReq) :
  NoDup (rid <$> l) → vs ⊆+ l → filter (fun r => rid r ∈ rid <$> vs) l ≡ₚ vs.
Proof.
  intros Hnd [k Hk]%submseteq_Permutation. rewrite Hk, filter_app. rewrite Hk, fmap_app in Hnd.
  apply NoDup_app in Hnd as (_ & Hd & _). rewrite (filter_all _ vs), (filter_none _ k), app_nil_r; [done|apply Forall_forall..].
  - intros x Hx Hin. apply (Hd (rid x) Hin). by apply list_elem_of_fmap_2.
  - intros x Hx. by apply list_elem_of_fmap_2.
Qed.

Lemma qsum_perm (l k : list Q) : l ≡ₚ k → (qsum l == qsum k)%Q.
Proof.
  unfold qsum. induction 1; simpl; [apply Qeq_refl|lra|lra|by eapply Qeq_trans].
Qed.

(** The order in which running requests are given up: the weakest and latest first. *)
Definition victim_key (x : QReq) : Z * Z :=
  (prio x * - (if low_first then 1 else -1), - wait_queue_entry_time x).

(** The requests that preemption considers. *)
Definition preemptible (a : PrefillAdder) (x : QReq) : Prop := rid x ∉ rid <$> preempt_list a ∧ finished x = false.

Lemma prefix_ordered {A K} `{PyOrd K} (k : A → K) (vs l : list A) v x :
  in_order k l → vs `prefix_of` l → v ∈ vs → x ∈ l → x ∉ vs → py_lt (k x) (k v) = false.
Proof.
  intros Hs [rest ->] Hv Hx Hn. apply elem_of_app in Hx as [|Hx]; [done|]. clear Hn.
  induction vs as [|y vs IH]; [by apply not_elem_of_nil in Hv|]. simpl in Hs. apply StronglySorted_inv in Hs as [Hs Hy].
  apply elem_of_cons in Hv as [->|Hv]; [|by apply IH]. rewrite Forall_forall in Hy. apply Hy. apply elem_of_app. by right.
Qed.

(** C19: Preemption either changes nothing, or gives up a non-empty set of running requests
    that are unfinished, not given up before, each weaker than the new request by more than
    the threshold and none stronger than one that is kept; the tokens they reserve cover what
    the new request lacks; their slots return to the pool, so that the memory invariant holds
    for the requests that are kept; and they leave the batch without any KV state. *)
Theorem preempt_spec N r running w a os :
  sys_inv N w (alive running ++ os) → NoDup (rid <$> running) → has_priority r → Forall has_priority running →
  Forall (fun x => finished x = false → req_pool_idx (base x) ≠ None) running →
  ∃ w' a' keep ok, preempt_to_schedule 1 ratio threshold steps false true low_first r running w a = Ok (w', a', keep, ok) ∧
    if ok then
      ∃ victims out, victims ≠ [] ∧ victims ⊆+ running ∧ Forall (preemptible a) victims ∧
        Forall (fun v => threshold < (prio r - prio v) * - (if low_first then 1 else -1)) victims ∧
        (∀ v x, v ∈ victims → x ∈ keep → preemptible a x → py_lt (victim_key x) (victim_key v) = false) ∧
        (inject_Z (extend_input_len r + max_new_tokens r `min` CLIP_MAX_NEW_TOKENS)
           <= rem_total_tokens w a + qsum (offset <$> victims))%Q ∧
        (rem_total_token_offset a' == rem_total_token_offset a - qsum (offset <$> victims))%Q ∧
        keep = filter (fun x => rid x ∉ rid <$> victims) running ∧ sys_inv N w' (alive keep ++ os) ∧
        preempt_list a' = preempt_list a ++ out ∧ rid <$> out ≡ₚ rid <$> victims ∧ Forall (fun x => fresh (base x)) out
    else w' = w ∧ a' = a ∧ keep = running.
Proof.
  intros Hs Hnd Hpr Hprs Hrow. unfold preempt_to_schedule.
  set (sign := if low_first then 1 else -1). set (valid := filter _ running).
  destruct (sort_with_ok (fun x => do! p <- priority_or_raise x; Ok (p * - sign, - wait_queue_entry_time x))
    (victim_key) valid) as (sorted & -> & Hperm & Hord & _).
  { intros x [_ Hx]%list_elem_of_filter. rewrite priority_or_raise_ok; [done|]. rewrite Forall_forall in Hprs. by apply Hprs. }
  assert (Hsub : sorted ⊆+ running) by (rewrite Hperm; apply sublist_submseteq, sublist_filter).
  assert (Hval : ∀ x, x ∈ sorted ↔ preemptible a x ∧ x ∈ running) by (intros x; rewrite Hperm; apply list_elem_of_filter).
  cbn [mbind result_bind].
  assert (∃ p, match sorted with [] => Ok 0 | _ => priority_or_raise r end = Ok p ∧ (sorted ≠ [] → p = prio r)) as (p & -> & Hp).
  { destruct sorted; [by exists 0|]. exists (prio r). by rewrite priority_or_raise_ok. }
  cbn [mbind result_bind].
  set (missing := (_ - rem_total_tokens w a)%Q).
  destruct (take_victims_ok sign p missing sorted) as (vs & m & -> & Hpre & Hbeat & Hm).
  { apply Forall_forall. intros x [_ Hx]%Hval. rewrite Forall_forall in Hprs. by apply Hprs. }
  cbn [mbind result_bind].
  destruct (bool_decide (vs = []) || Qlt_b 0 m) eqn:Hfail; [by do 4 eexists|].
  apply orb_false_iff in Hfail as [Hne%bool_decide_eq_false Hle]. unfold Qlt_b in Hle. destruct (Qlt_le_dec 0 m) as [|Hle']; [done|].
  rewrite Hp in Hbeat by (intros Hnil; rewrite Hnil in Hpre; by apply Hne, prefix_nil_inv).
  assert (Hvs : vs ⊆+ running) by (transitivity sorted; [destruct Hpre as [? ->]; by apply submseteq_inserts_r|done]).
  assert (Hvin : ∀ v, v ∈ vs → preemptible a v) by (intros v Hv; apply Hval; exact (elem_of_prefix _ _ _ Hv Hpre)).
  pose proof (pick_by_rid vs running Hnd Hvs) as Hpick.
  destruct (release_victims_ok N (rid <$> vs) (length running) running 0 w a os Hs Hrow) as (w' & a' & out & -> & Hs' & Hf & Ho & _ & Hl & _ & Hoff).
  { apply Forall_forall. intros x Hx Hin. assert (x ∈ vs) as Hv by (rewrite <-Hpick; by apply list_elem_of_filter). by apply Hvin. }
  cbn [mbind result_bind]. do 4 eexists. split; [done|]. exists vs, out. rewrite (qsum_perm _ _ (fmap_Permutation offset _ _ Hpick)) in Hoff.
  cbn [preempt_list rem_total_token_offset]. split_and!; try done.
  - by apply Forall_forall.
  - intros v x Hv [Hx Hxr]%list_elem_of_filter Hxp. eapply prefix_ordered; [exact Hord|exact Hpre|done|by apply Hval|].
    intros Hxv. apply Hx. by apply list_elem_of_fmap_2.
  - unfold missing in Hm. lra.
  - by rewrite Hl.
  - by rewrite Ho, Hpick.
Qed.

End preemption.

(** * A concrete pass *)

#[local] Instance pass_cache : PrefixCache RadixCache := RadixPrefixCache 1 false false false LRUStrategy clock.
#[local] Instance pass_locks : LockCache RadixCache := RadixLockCache 1 false false false LRUStrategy clock.
#[local] Instance pass_cache_laws : PrefixCacheLaws RadixCache false := radix_laws 1 false false false LRUStrategy clock (le_n 1).
#[local] Instance pass_lock_laws : LockLaws RadixCache false := radix_lock_laws 1 false false false LRUStrategy clock (le_n 1).

Definition queued (id : string) (ids : list Z) (p : Z) : QReq :=
  mkQReq (new_req ids (Some p)) id 4 false (Z.of_nat (length ids)) 0 None false.

Definition small_server : World RadixCache := init_world (new_cache clock) 32 true 4 16.

Definition new_queue : list QReq := [queued "a" [7; 8; 9] 0; queued "b" [7; 8] 0].

Definition first_pass : result (Pass (T := RadixCache) * option QReq * option (list Req * list Z)) :=
  get_new_batch_prefill 1 (1 # 2) None None false None 0 20 false true (fun _ => (false, 0)) 8 false false empty_tensor
    None 16 (Some 4) 0 8 [] new_queue None false small_server.

Lemma small_server_inv : sys_inv 32 small_server [].
Proof. apply init_inv; [apply rinv_reset; lia|]. intros x. vm_compute. done. Qed.

(** Both requests are admitted, the second one with the first token only: the chunk size is four. *)
Lemma prefill_never_oom_witness :
  ∃ s c' reqs out, first_pass = Ok (s, c', Some (reqs, out)) ∧ length reqs = 2%nat ∧ rid <$> c' = Some "b" ∧
    sys_inv 32 (p_world s) (reqs ++ []).
Proof.
  destruct (prefill_never_oom (1 # 2) None false None 0 20 true false (fun _ => (false, 0)) 8 empty_tensor
    32 None 16 (Some 4) 0 8 [] new_queue None false small_server []) as (s & c' & out & E & Hout).
  - exact small_server_inv.
  - lra.
  - lia.
  - constructor.
  - repeat constructor; cbn; lia.
  - done.
  - done.
  - assert (Hb : match first_pass with Ok (_, c, Some (reqs, _)) => length reqs = 2%nat ∧ rid <$> c = Some "b" | _ => False end)
      by (vm_compute; by split).
    unfold first_pass in *. rewrite E in Hb. destruct out as [[reqs out]|]; [|exact (False_ind _ Hb)]. destruct Hb as [Hb1 Hb2].
    exists s, c', reqs, out. exact (conj E (conj Hb1 (conj Hb2 Hout))).
Defined.

(** A request that was served before gives way to a stronger one. *)
Lemma preempt_spec_witness :
  match serve (new_req [7; 8] (Some 0)) server with
  | Some (w, b) =>
      let old := mkQReq b "old" 4 false 0 0 None false in
      let a := new_adder (1 # 2) None (Some [old]) 16 None 0 0 in
      ∃ w' a', preempt_to_schedule 1 (1 # 2) 0 20 false true false (mkQReq (new_req [9] (Some 5)) "new" 1 false 1 0 None false) [old] w a
          = Ok (w', a', [], true) ∧ sys_inv 4 w' [] ∧ rid <$> preempt_list a' = ["old"]
  | None => False
  end.
Proof.
  pose proof (serve_reach (Some 0)) as Hr. destruct (serve _ _) as [[w b]|] eqn:Es; [|exact Hr]. cbv zeta. destruct Hr as (Hr & Hidx & Hp).
  set (new := mkQReq (new_req [9] _) _ _ _ _ _ _ _). set (old := mkQReq b _ _ _ _ _ _ _).
  destruct (preempt_spec (1 # 2) 0 20 false 4 new [old] w (new_adder (1 # 2) None (Some [old]) 16 None 0 0) [])
    as (w' & a' & keep & ok & E & Hok).
  - rewrite app_nil_r. exact (reach_inv empty_tensor (new_cache clock) 4 true 2 4 w [b] (proj1 server_ok) (proj2 server_ok) Hr).
  - apply NoDup_singleton.
  - discriminate.
  - constructor; [|constructor]. unfold has_priority, old. cbn [base]. rewrite Hp. discriminate.
  - constructor; [|constructor]. intros _. exact Hidx.
  - assert (Ht : match preempt_to_schedule 1 (1 # 2) 0 20 false true false new [old] w
        (new_adder (1 # 2) None (Some [old]) 16 None 0 0) with Ok (_, _, [], true) => True | _ => False end).
    { unfold old, new. clear -Es. vm_compute in Es. injection Es as <- <-. vm_compute. exact I. }
    rewrite E in Ht. destruct keep; [|exact (False_ind _ Ht)]. destruct ok; [|exact (False_ind _ Ht)]. exists w', a'. split; [exact E|].
    destruct Hok as (vs & out & Hne & Hsub & _ & _ & _ & _ & _ & _ & Hs & Hl & Hperm & _). split; [exact Hs|]. rewrite Hl. cbn.
    assert (Hvs : vs = [old]).
    { destruct vs as [|v vs]; [exact (False_ind _ (Hne eq_refl))|]. pose proof (submseteq_length _ _ Hsub) as Hlen. cbn in Hlen.
      destruct vs; [|cbn in Hlen; lia]. apply singleton_submseteq_l, list_elem_of_singleton in Hsub. by rewrite Hsub. }
    rewrite Hvs in Hperm. cbn in Hperm. by apply Permutation_singleton_r in Hperm.
Defined.

#[local] Instance plain_cache : PrefixCache ChunkCache := ChunkPrefixCache false.
#[local] Instance plain_locks : LockCache ChunkCache := ChunkLockCache false.

Definition plain_server : World ChunkCache := init_world (mkChunk 1) 8 true 2 8.
Definition ready_req : QReq := mkQReq (set_tokens [] [7; 8; 9] (new_req [7; 8; 9] None)) "r" 2 false 3 0 None false.

(** A chunk of two tokens of three is admitted. *)
Lemma add_one_req_spec_witness :
  ∃ w' a' r', add_one_req 1 (1 # 2) None None false None (Some []) None ready_req plain_server
      (new_adder (1 # 2) None (Some []) 8 (Some 2) 0 0) = Ok (w', a', r', OTHER) ∧ cur_rem_token_offset a' = 3 ∧
    new_chunked_req a' = Some r'.
Proof.
  set (a := new_adder _ _ _ _ _ _ _).
  destruct (add_one_req_spec (PC := plain_cache) (LC := plain_locks) (LL := chunk_lock_laws false) 1 (1 # 2) None false None ltac:(lia) (Some []) None ready_req plain_server a [] [] [])
    as (w' & a' & r' & res & E & Hcase).
  - done.
  - done.
  - split_and!; [reflexivity|cbn; lia|cbn; lia|reflexivity].
  - done.
  - assert (Ht : match add_one_req 1 (1 # 2) None None false None (Some []) None ready_req plain_server a with
        Ok (_, _, r, OTHER) => extend_input_len r = 2 | _ => False end) by (vm_compute; reflexivity).
    rewrite E in Ht. destruct res; [exact (False_ind _ Ht)..|]. exists w', a', r'. split; [exact E|].
    destruct Hcase as [(_ & Hr & _)|(n & Hadd & _)]; [rewrite Hr in Ht; cbn in Ht; lia|].
    rewrite (ad_ext _ _ _ _ _ _ _ Hadd) in Ht. subst n. split; [exact (ad_cur _ _ _ _ _ _ _ Hadd)|exact (ad_new _ _ _ _ _ _ _ Hadd)].
Defined.

(** * Divergences *)

(** [insert_sort] never inserts at the end: a request with more tokens left than all
    others goes before the last one, and the states are no longer sorted. *)
Lemma insert_state_unordered :
  in_order (H := Q_ord) fst [((5 # 1)%Q, 2)] ∧
  insert_state ((10 # 1)%Q, 3) [((5 # 1)%Q, 2)] = [((10 # 1)%Q, 3); ((5 # 1)%Q, 2)] ∧
  ¬ in_order (H := Q_ord) fst (insert_state ((10 # 1)%Q, 3) [((5 # 1)%Q, 2)]).
Proof.
  split; [repeat constructor|]. split; [reflexivity|]. intros Hs. apply StronglySorted_inv in Hs as [_ Hs].
  apply Forall_cons in Hs as [Hs _]. vm_compute in Hs. discriminate.
Qed.

(** Two requests run; the batch is full. *)
Definition crowded : option (World RadixCache * QReq * QReq) :=
  match serve (new_req [1; 2] (Some 0)) (init_world (new_cache clock) 16 true 4 16) with
  | Some (w, b1) =>
      match serve (new_req [11; 12; 13; 14; 15; 16; 17; 18] (Some 9)) w with
      | Some (w, b2) => Some (w, mkQReq b1 "weak" 4 false 0 0 None false, mkQReq b2 "strong" 4 false 0 0 None false)
      | None => None
      end
  | None => None
  end.

(** A request of medium priority preempts the weak one but does not fit; the pass ends without a batch,
    and the preempted request is neither running nor waiting. *)
Lemma preempted_request_lost :
  match crowded with
  | Some (w, weak, strong) =>
      match get_new_batch_prefill 1 (1 # 2) None None false None 0 20 false true (fun _ => (false, 0)) 2 true false empty_tensor
              None 64 None 0 8 [weak; strong] [mkQReq (new_req [21; 22; 23; 24; 25; 26] (Some 5)) "new" 2 false 0 0 None false]
              None false w with
      | Ok (s, _, None) =>
          rid <$> preempt_list (p_adder s) = ["weak"] ∧ rid <$> p_running s = ["strong"] ∧ rid <$> p_waiting s = ["new"]
      | _ => False
      end
  | None => False
  end.
Proof. vm_compute. split; [reflexivity|]. split; reflexivity. Qed.
