(* ===== verification/Sampling.v ===== *)
(** Sampling parameters ([sampling/sampling_params.py]) and the stop conditions of a
    request ([Req.tail_str], [Req.update_finish_state] and the checks it makes,
    [managers/schedule_batch.py]).

    Texts are lists of code points and floats are rationals.  The tokenizer, the
    grammar and [re.search] are parameters; a stop regex is its parse tree.
    A server started with [skip_tokenizer_init] has no tokenizer. *)

From S2P Require Import Prelude.
From Stdlib Require Import QArith Lqa.

Open Scope Z_scope.

(** * Stop patterns *)

Notation text := (list Z).

(** Parse trees of [sre_parse]; [None] as a count is [MAXREPEAT]. *)
Inductive node :=
  | LITERAL (c : Z)
  | IN (ranges : list (Z * Z))
  | ANY
  | SUBPATTERN (p : list node)
  | BRANCH (p : list node) (more : list (list node))
  | MAX_REPEAT (min : Z) (max : option Z) (p : list node)
  | MIN_REPEAT (min : Z) (max : option Z) (p : list node)
  | AT (code : Z)
  | OTHER_TOKEN (name : string).

Definition MAX_LEN : Z := 2 ^ 30.

Fixpoint max_length (n : node) : Z :=
  let sub p := sumZ (map max_length p) in
  match n with
  | LITERAL _ | IN _ | ANY => 1
  | SUBPATTERN p => sub p
  | BRANCH p more => fold_left Z.max (map sub more) (sub p)
  | MAX_REPEAT _ k p | MIN_REPEAT _ k p => match k with None => MAX_LEN | Some k => k * sub p end
  | AT _ => 0
  | OTHER_TOKEN _ => MAX_LEN
  end.

Definition _max_length_from_subpattern (p : list node) : Z := sumZ (map max_length p).

Definition get_max_seq_length (p : list node) : Z := _max_length_from_subpattern p.

(** * Parameters *)

(** [Optional[Union[str, List[str]]]]. *)
Inductive StopArg (A : Type) := NoStop | OneStop (x : A) | Stops (l : list A).
Arguments NoStop {_}.
Arguments OneStop {_} _.
Arguments Stops {_} _.

Definition stop_list {A} (x : StopArg A) : list A := match x with NoStop => [] | OneStop y => [y] | Stops l => l end.

(** The arguments of the constructor that it or [verify] look at. *)
Record SamplingArgs := mkArgs {
  a_max_new_tokens : option Z;
  a_stop : StopArg text;
  a_stop_token_ids : option (list (option Z));
  a_stop_regex : StopArg (list node);
  a_temperature : option Q;
  a_top_p : option Q;
  a_top_k : option Z;
  a_min_p : option Q;
  a_frequency_penalty : option Q;
  a_presence_penalty : option Q;
  a_repetition_penalty : option Q;
  a_min_new_tokens : option Z;
  a_json_schema : option string;
  a_regex : option string;
  a_ebnf : option string;
  a_ignore_eos : option bool;
  a_logit_bias : option (list Z);
}.

Record SamplingParams := mkSampling {
  sp_max_new_tokens : option Z;
  sp_stop_strs : StopArg text;
  (** a set; empty for [None] *)
  sp_stop_token_ids : list Z;
  sp_stop_regex_strs : StopArg (list node);
  sp_temperature : Q;
  sp_top_p : Q;
  sp_top_k : Z;
  sp_min_p : Q;
  sp_frequency_penalty : Q;
  sp_presence_penalty : Q;
  sp_repetition_penalty : Q;
  sp_min_new_tokens : Z;
  sp_json_schema : option string;
  sp_regex : option string;
  sp_ebnf : option string;
  sp_ignore_eos : bool;
  sp_logit_bias : option (list Z);
}.

Definition _SAMPLING_EPS : Q := 1 # 1000000.
Definition TOP_K_ALL : Z := Z.shiftl 1 30.

Definition qlt (x y : Q) : bool := if Qlt_le_dec x y then true else false.

(** [SamplingParams.__init__]. *)
Definition new_sampling (a : SamplingArgs) : SamplingParams :=
  let ids := match a_stop_token_ids a with Some l => remove_dups (omap id l) | None => [] end in
  let temperature := default 1%Q (a_temperature a) in
  let top_k := default (-1) (a_top_k a) in
  let greedy := Qle_bool 0 temperature && qlt temperature _SAMPLING_EPS in
  let temperature := if greedy then 1%Q else temperature in
  let top_k := if greedy then 1 else top_k in
  let top_k := if bool_decide (top_k = -1) then TOP_K_ALL else top_k in
  mkSampling (a_max_new_tokens a) (a_stop a) ids (a_stop_regex a) temperature (default 1%Q (a_top_p a)) top_k (default 0%Q (a_min_p a))
    (default 0%Q (a_frequency_penalty a)) (default 0%Q (a_presence_penalty a)) (default 1%Q (a_repetition_penalty a))
    (default 0 (a_min_new_tokens a)) (a_json_schema a) (a_regex a) (a_ebnf a) (default false (a_ignore_eos a)) (a_logit_bias a).

Definition raise_if {A} (b : bool) (k : result A) : result A := if b then Raise ValueError else k.

Definition count_some {A} (l : list (option A)) : nat := length (omap id l).

Definition verify (vocab_size : Z) (p : SamplingParams) : result () :=
  raise_if (qlt (sp_temperature p) 0) $
  raise_if (negb (qlt 0 (sp_top_p p) && Qle_bool (sp_top_p p) 1)) $
  raise_if (negb (Qle_bool 0 (sp_min_p p) && Qle_bool (sp_min_p p) 1)) $
  raise_if (bool_decide (sp_top_k p < 1) || bool_decide (sp_top_k p = -1)) $
  raise_if (negb (Qle_bool (-2) (sp_frequency_penalty p) && Qle_bool (sp_frequency_penalty p) 2)) $
  raise_if (negb (Qle_bool (-2) (sp_presence_penalty p) && Qle_bool (sp_presence_penalty p) 2)) $
  raise_if (negb (qlt 0 (sp_repetition_penalty p) && Qle_bool (sp_repetition_penalty p) 2)) $
  raise_if (negb (bool_decide (0 ≤ sp_min_new_tokens p))) $
  raise_if (match sp_max_new_tokens p with
            | Some n => bool_decide (n < 0) || negb (bool_decide (sp_min_new_tokens p ≤ n))
            | None => false
            end) $
  raise_if (match sp_logit_bias p with
            | Some keys => existsb (fun k => negb (bool_decide (0 ≤ k < vocab_size))) keys
            | None => false
            end) $
  raise_if (bool_decide (1 < count_some [sp_json_schema p; sp_regex p; sp_ebnf p])%nat) $
  Ok tt.

(** What [normalize] leaves: the lists and how many tokens of the output they look at. *)
Record StopSet := mkStops {
  stop_strs : list text;
  stop_regex_strs : list (list node);
  stop_str_max_len : Z;
  stop_regex_max_len : Z;
}.

(** [encode]: the length of a string in tokens; without a tokenizer, in characters. *)
Definition normalize (encode : option (text → list Z)) (p : SamplingParams) : StopSet :=
  let strs := stop_list (sp_stop_strs p) in
  let regexes := stop_list (sp_stop_regex_strs p) in
  let len s := match encode with Some e => Z.of_nat (length (e s)) | None => Z.of_nat (length s) end in
  mkStops strs regexes (fold_left (fun n s => Z.max n (len s)) strs 0)
    (fold_left (fun n r => Z.max n (get_max_seq_length r)) regexes 0).

(** * Finishing *)

Inductive FinishReason :=
  | FINISH_MATCHED_TOKEN (matched : Z)
  | FINISH_MATCHED_STR (matched : text)
  | FINISHED_MATCHED_REGEX (matched : list node)
  | FINISH_LENGTH (length : Z)
  | FINISH_ABORT.

(** ["NaN happened"]. *)
Definition NAN_HAPPENED : text := [78; 97; 78; 32; 104; 97; 112; 112; 101; 110; 101; 100].

Record FinishState := mkFinish {
  f_output_ids : list Z;
  f_reason : option FinishReason;
  f_finished_len : option Z;
  f_to_finish : option FinishReason;
}.

(** [x in s] for strings. *)
Fixpoint py_in (x s : text) : bool :=
  bool_decide (x `prefix_of` s) || match s with [] => false | _ :: s' => py_in x s' end.

Section finish.

(** [tokenizer.eos_token_id] and [additional_stop_token_ids], if there is a tokenizer;
    [tokenizer.decode]; [re.search]; [next(iter(s))] of a set. *)
Context (tokenizer : option (option Z * list Z)) (decode : list Z → text) (re_search : list node → text → bool) (any_of : list Z → Z).

(** The parameters of the request: [sampling_params], [eos_token_ids], [vocab_size], [decoded_text]. *)
Context (sampling : SamplingParams) (stops : StopSet) (max_new_tokens : Z) (eos_token_ids : list Z) (vocab_size : Z) (decoded_text : text).

(** [self.tokenizer.decode] of a server started with [skip_tokenizer_init] is an attribute of [None]. *)
Definition tail_str (output_ids : list Z) : result text :=
  if bool_decide (stop_strs stops = []) && bool_decide (stop_regex_strs stops = []) then Ok []
  else
    let max_len_tail_str := Z.max (stop_str_max_len stops + 1) (stop_regex_max_len stops + 1) in
    let tail_len := Z.min max_len_tail_str (Z.of_nat (length output_ids)) in
    match tokenizer with
    | Some _ => Ok (decode (drop (length output_ids - Z.to_nat tail_len) output_ids))
    | None => Raise AttributeError
    end.

(** Some prefix of [stop_str] ends [tail]. *)
Definition overlaps (tail stop_str : text) : bool :=
  existsb (fun i => bool_decide (drop (length tail - i) tail = take i stop_str)) (seq 1 (min (length tail) (length stop_str))).

Definition check_match_stop_str_prefix (output_ids : list Z) : result bool :=
  if bool_decide (stop_strs stops = []) then Ok false
  else
    do! tail <- tail_str output_ids;
    if bool_decide (tail = []) then Ok false
    else Ok (existsb (fun s => if bool_decide (s = []) then false else py_in s tail || overlaps tail s) (stop_strs stops)).

Definition is_stop_token (t : Z) : bool :=
  bool_decide (t ∈ sp_stop_token_ids sampling) || bool_decide (t ∈ eos_token_ids)
  || match tokenizer with
     | Some (eos, more) => bool_decide (eos = Some t) || bool_decide (t ∈ more)
     | None => false
     end.

(** The first of the new tokens with a property. *)
Fixpoint first_token (P : Z → bool) (i : nat) (l : list Z) : option (nat * Z) :=
  match l with
  | [] => None
  | t :: l => if P t then Some (i, t) else first_token P (S i) l
  end.

Definition _check_token_based_finish (new : list Z) (s : FinishState) : option FinishState :=
  if sp_ignore_eos sampling then None
  else match first_token is_stop_token 0 new with
       | Some (i, t) =>
           let matched_pos := Z.of_nat (length (f_output_ids s)) - Z.of_nat (length new) + Z.of_nat i in
           Some (mkFinish (f_output_ids s) (Some (FINISH_MATCHED_TOKEN t)) (Some (matched_pos + 1)) (f_to_finish s))
       | None => None
       end.

Definition _check_vocab_boundary_finish (new : list Z) (s : FinishState) : option FinishState :=
  match first_token (fun t => bool_decide (vocab_size < t) || bool_decide (t < 0)) 0 new with
  | Some (i, t) =>
      let offset := (length (f_output_ids s) - length new + i)%nat in
      let out := f_output_ids s in
      let out := if bool_decide (sp_stop_token_ids sampling = []) then out else <[offset := any_of (sp_stop_token_ids sampling)]> out in
      let out := if bool_decide (eos_token_ids = []) then out else <[offset := any_of eos_token_ids]> out in
      Some (mkFinish out (Some (FINISH_MATCHED_STR NAN_HAPPENED)) (Some (Z.of_nat offset + 1)) (f_to_finish s))
  | None => None
  end.

Definition _check_str_based_finish (s : FinishState) : result (option FinishState) :=
  let finish r := Some (mkFinish (f_output_ids s) (Some r) (f_finished_len s) (f_to_finish s)) in
  if bool_decide (stop_strs stops = []) && bool_decide (stop_regex_strs stops = []) then Ok None
  else
    do! tail <- tail_str (f_output_ids s);
    match find (fun x => py_in x tail || py_in x decoded_text) (stop_strs stops) with
    | Some x => Ok (finish (FINISH_MATCHED_STR x))
    | None => match find (fun r => re_search r tail) (stop_regex_strs stops) with
              | Some r => Ok (finish (FINISHED_MATCHED_REGEX r))
              | None => Ok None
              end
    end.

(** [grammar_done]: there is a grammar and it has ended; [self.output_ids[-1]] of no output raises. *)
Definition update_finish_state (grammar_done : bool) (new_accepted_len : nat) (s : FinishState) : result FinishState :=
  match f_reason s with
  | Some _ => Ok s
  | None =>
  match f_to_finish s with
  | Some r => Ok (mkFinish (f_output_ids s) (Some r) (f_finished_len s) None)
  | None =>
  if bool_decide (max_new_tokens ≤ Z.of_nat (length (f_output_ids s))) then
    Ok (mkFinish (f_output_ids s) (Some (FINISH_LENGTH max_new_tokens)) (Some max_new_tokens) None)
  else if grammar_done then
    do! t <- py_get (f_output_ids s) (-1);
    Ok (mkFinish (f_output_ids s) (Some (FINISH_MATCHED_TOKEN t)) (f_finished_len s) None)
  else
    (* [l[-0:]] is all of [l] *)
    let out := f_output_ids s in
    let new := if bool_decide (new_accepted_len = 0)%nat then out else drop (length out - new_accepted_len) out in
    match _check_token_based_finish new s with
    | Some s => Ok s
    | None =>
    match _check_vocab_boundary_finish new s with
    | Some s => Ok s
    | None => do! o <- _check_str_based_finish s; Ok (default s o)
    end end
  end end.

(** A property of requests. *)
Definition output_ids_through_stop (s : FinishState) : list Z :=
  match f_finished_len s with
  | Some n => if bool_decide (0 ≤ n) then take (Z.to_nat n) (f_output_ids s)
              else take (length (f_output_ids s) - Z.to_nat (- n)) (f_output_ids s)
  | None => f_output_ids s
  end.

End finish.

(** * The length of a match *)

(** What a pattern matches: characters are tested by [accepts], assertions and the
    tokens the code does not know may match anything. *)
Section matching.
Context (accepts : node → Z → bool) (other : string → text → Prop).

Inductive nmatch : node → text → Prop :=
  | m_literal c x : accepts (LITERAL c) x = true → nmatch (LITERAL c) [x]
  | m_in l x : accepts (IN l) x = true → nmatch (IN l) [x]
  | m_any x : accepts ANY x = true → nmatch ANY [x]
  | m_group p s : pmatch p s → nmatch (SUBPATTERN p) s
  | m_branch p more q s : q ∈ p :: more → pmatch q s → nmatch (BRANCH p more) s
  | m_max lo hi p k s : repeats k p s → lo ≤ Z.of_nat k → (∀ h, hi = Some h → Z.of_nat k ≤ h) → nmatch (MAX_REPEAT lo hi p) s
  | m_min lo hi p k s : repeats k p s → lo ≤ Z.of_nat k → (∀ h, hi = Some h → Z.of_nat k ≤ h) → nmatch (MIN_REPEAT lo hi p) s
  | m_at c : nmatch (AT c) []
  | m_other n s : other n s → nmatch (OTHER_TOKEN n) s
with pmatch : list node → text → Prop :=
  | p_nil : pmatch [] []
  | p_cons n p a b : nmatch n a → pmatch p b → pmatch (n :: p) (a ++ b)
with repeats : nat → list node → text → Prop :=
  | r_zero p : repeats 0 p []
  | r_next k p a b : pmatch p a → repeats k p b → repeats (S k) p (a ++ b).

Scheme nmatch_mut := Induction for nmatch Sort Prop
with pmatch_mut := Induction for pmatch Sort Prop
with repeats_mut := Induction for repeats Sort Prop.
Combined Scheme match_ind from nmatch_mut, pmatch_mut, repeats_mut.

(** Trees of the parser: counts are not negative. *)
Inductive well_formed : node → Prop :=
  | wf_literal c : well_formed (LITERAL c)
  | wf_in l : well_formed (IN l)
  | wf_any : well_formed ANY
  | wf_group p : Forall well_formed p → well_formed (SUBPATTERN p)
  | wf_branch p more : Forall well_formed p → Forall (Forall well_formed) more → well_formed (BRANCH p more)
  | wf_max lo hi p : (∀ h, hi = Some h → 0 ≤ h) → Forall well_formed p → well_formed (MAX_REPEAT lo hi p)
  | wf_min lo hi p : (∀ h, hi = Some h → 0 ≤ h) → Forall well_formed p → well_formed (MIN_REPEAT lo hi p)
  | wf_at c : well_formed (AT c)
  | wf_other n : well_formed (OTHER_TOKEN n).

Lemma fold_max_le {A} (f : A → Z) (l : list A) : ∀ n,
  n ≤ fold_left (fun n x => Z.max n (f x)) l n ∧ ∀ x, x ∈ l → f x ≤ fold_left (fun n x => Z.max n (f x)) l n.
Proof.
  induction l as [|y l IH]; intros n; cbn [fold_left]; [split; [lia|by intros ? ?%not_elem_of_nil]|].
  destruct (IH (Z.max n (f y))) as [H1 H2]. split; [lia|]. intros x [->|Hx]%elem_of_cons; [lia|by apply H2].
Qed.

Lemma fold_max_map {A} (f : A → Z) l : ∀ n, fold_left Z.max (map f l) n = fold_left (fun n x => Z.max n (f x)) l n.
Proof. induction l as [|y l IH]; intros n; [done|]. apply IH. Qed.

Lemma branch_bound p more q : q ∈ p :: more → _max_length_from_subpattern q ≤ max_length (BRANCH p more).
Proof.
  cbn [max_length]. rewrite fold_max_map. fold (_max_length_from_subpattern p).
  destruct (fold_max_le (fun p => sumZ (map max_length p)) more (_max_length_from_subpattern p)) as [H1 H2].
  intros [->|Hq]%elem_of_cons; [done|]. by apply H2.
Qed.

Lemma bound_nonneg : ∀ n, well_formed n → 0 ≤ max_length n.
Proof.
  fix IH 2. intros n H.
  assert (Hall : ∀ p, Forall well_formed p → 0 ≤ sumZ (map max_length p)).
  { fix IHl 2. intros p Hp. destruct Hp as [|x p Hx Hp]; [done|]. cbn [map sumZ foldr]. pose proof (IH x Hx). pose proof (IHl p Hp). unfold sumZ in *. lia. }
  destruct H as [c|l| |p Hp|p more Hp _|lo hi p Hh Hp|lo hi p Hh Hp|c|n]; cbn [max_length]; try (unfold MAX_LEN; lia).
  - by apply Hall.
  - rewrite fold_max_map. destruct (fold_max_le (fun p => sumZ (map max_length p)) more (sumZ (map max_length p))) as [H1 _].
    pose proof (Hall p Hp). lia.
  - destruct hi as [h|]; [|done]. pose proof (Hall p Hp). pose proof (Hh h eq_refl). nia.
  - destruct hi as [h|]; [|done]. pose proof (Hall p Hp). pose proof (Hh h eq_refl). nia.
Qed.

Lemma pattern_nonneg p : Forall well_formed p → 0 ≤ _max_length_from_subpattern p.
Proof. intros Hp. apply sumZ_nonneg. apply Forall_fmap. eapply Forall_impl; [exact Hp|]. apply bound_nonneg. Qed.

(** A bounded number of repetitions. *)
Lemma repeat_bound (k : nat) hi p (s : text) : well_formed (MAX_REPEAT 0 hi p) →
  (∀ h, hi = Some h → Z.of_nat k ≤ h) → (_max_length_from_subpattern p < MAX_LEN → Z.of_nat (length s) ≤ Z.of_nat k * _max_length_from_subpattern p) →
  (k = 0%nat → s = []) → max_length (MAX_REPEAT 0 hi p) < MAX_LEN → Z.of_nat (length s) ≤ max_length (MAX_REPEAT 0 hi p).
Proof.
  intros Hw Hk Hs H0. inversion Hw as [| | | | |? ? ? Hh Hp| | |]; subst. cbn [max_length]. fold (_max_length_from_subpattern p).
  destruct hi as [h|]; [|done]. intros Hlt. pose proof (pattern_nonneg p Hp). pose proof (Hk h eq_refl).
  destruct k as [|k]; [rewrite H0 by done; cbn; nia|]. assert (_max_length_from_subpattern p < MAX_LEN) by nia. specialize (Hs ltac:(done)). nia.
Qed.

Lemma matches_bounded :
  (∀ n s, nmatch n s → well_formed n → max_length n < MAX_LEN → Z.of_nat (length s) ≤ max_length n) ∧
  (∀ p s, pmatch p s → Forall well_formed p → _max_length_from_subpattern p < MAX_LEN → Z.of_nat (length s) ≤ _max_length_from_subpattern p) ∧
  (∀ k p s, repeats k p s → Forall well_formed p → _max_length_from_subpattern p < MAX_LEN →
     Z.of_nat (length s) ≤ Z.of_nat k * _max_length_from_subpattern p).
Proof.
  apply match_ind; try (intros; cbn; lia).
  - intros p s _ IH Hw. inversion Hw. by apply IH.
  - intros p more q s Hq _ IH Hw Hlt. pose proof (branch_bound p more q Hq). inversion Hw as [| | | |? ? Hp Hm| | | |]; subst.
    assert (Forall well_formed q) by (apply elem_of_cons in Hq as [->|Hq]; [done|by eapply Forall_forall in Hm]).
    specialize (IH ltac:(done) ltac:(lia)). lia.
  - intros lo hi p k s Hr IH _ Hk Hw. assert (well_formed (MAX_REPEAT 0 hi p)) by (inversion Hw; by constructor).
    apply (repeat_bound k hi p s); try done; [intros; apply IH; [by inversion Hw|done]|intros ->; by inversion Hr].
  - intros lo hi p k s Hr IH _ Hk Hw. assert (well_formed (MAX_REPEAT 0 hi p)) by (inversion Hw; by constructor).
    apply (repeat_bound k hi p s); try done; [intros; apply IH; [by inversion Hw|done]|intros ->; by inversion Hr].
  - intros n s _ _ Hlt. by apply Z.lt_irrefl in Hlt.
  - intros n p a b _ IHn _ IHp Hw Hlt. apply Forall_cons in Hw as [Hn Hp]. unfold _max_length_from_subpattern in *. cbn [map] in *.
    rewrite sumZ_cons in *. pose proof (bound_nonneg n Hn). pose proof (pattern_nonneg p Hp). unfold _max_length_from_subpattern in *.
    rewrite length_app. specialize (IHn Hn ltac:(lia)). specialize (IHp Hp ltac:(lia)). lia.
  - intros k p a b _ IHp _ IHk Hw Hlt. rewrite length_app. specialize (IHp Hw Hlt). specialize (IHk Hw Hlt). lia.
Qed.

End matching.

(** * Parameters that are accepted *)

(** What a sampler relies on. *)
Record sampling_ok (vocab_size : Z) (p : SamplingParams) : Prop := {
  so_temperature : (0 <= sp_temperature p)%Q;
  so_top_p : (0 < sp_top_p p ∧ sp_top_p p <= 1)%Q;
  so_min_p : (0 <= sp_min_p p ∧ sp_min_p p <= 1)%Q;
  so_top_k : 1 ≤ sp_top_k p;
  so_frequency : (-2 <= sp_frequency_penalty p ∧ sp_frequency_penalty p <= 2)%Q;
  so_presence : (-2 <= sp_presence_penalty p ∧ sp_presence_penalty p <= 2)%Q;
  so_repetition : (0 < sp_repetition_penalty p ∧ sp_repetition_penalty p <= 2)%Q;
  so_min_new : 0 ≤ sp_min_new_tokens p;
  so_max_new : ∀ n, sp_max_new_tokens p = Some n → sp_min_new_tokens p ≤ n;
  so_bias : ∀ keys k, sp_logit_bias p = Some keys → k ∈ keys → 0 ≤ k < vocab_size;
  so_grammars : (count_some [sp_json_schema p; sp_regex p; sp_ebnf p] ≤ 1)%nat;
}.

Lemma qlt_spec x y : qlt x y = true ↔ (x < y)%Q.
Proof. unfold qlt. destruct (Qlt_le_dec x y); split; try done. intros ?. lra. Qed.

Lemma qlt_false x y : qlt x y = false ↔ (y <= x)%Q.
Proof. unfold qlt. destruct (Qlt_le_dec x y); split; try done. intros ?. lra. Qed.

Lemma raise_if_ok {A} b (k : result A) x : raise_if b k = Ok x ↔ b = false ∧ k = Ok x.
Proof. destruct b; naive_solver. Qed.

Lemma raise_if_error {A} b (k : result A) e : raise_if b k = Raise e → e = ValueError ∨ k = Raise e.
Proof. destruct b; naive_solver. Qed.

Lemma verify_ok vocab_size p : verify vocab_size p = Ok tt ↔ sampling_ok vocab_size p.
Proof.
  unfold verify. rewrite !raise_if_ok. split.
  - intros (H1 & H2 & H3 & H4 & H5 & H6 & H7 & H8 & H9 & H10 & H11 & _).
    repeat match goal with
    | H : negb _ = false |- _ => apply negb_false_iff in H
    | H : _ && _ = true |- _ => apply andb_prop in H as [? H]
    | H : _ || _ = false |- _ => apply orb_false_elim in H as [? H]
    | H : Qle_bool _ _ = true |- _ => apply Qle_bool_imp_le in H
    | H : qlt _ _ = true |- _ => apply qlt_spec in H
    | H : qlt _ _ = false |- _ => apply qlt_false in H
    | H : bool_decide _ = true |- _ => apply bool_decide_eq_true in H
    | H : bool_decide _ = false |- _ => apply bool_decide_eq_false in H
    end.
    split; try done; try lia.
    + intros n Hn. rewrite Hn in H9. apply orb_false_elim in H9 as [_ H9%negb_false_iff%bool_decide_eq_true]. done.
    + intros keys k Hk Hin. rewrite Hk in H10. destruct (decide (0 ≤ k < vocab_size)) as [|Hno]; [done|].
      exfalso. assert (existsb (fun k => negb (bool_decide (0 ≤ k < vocab_size))) keys = true) as E; [|by rewrite E in H10].
      apply existsb_exists. exists k. split; [by apply list_elem_of_In|]. by rewrite bool_decide_eq_false_2.
  - intros [S1 [S2 S2'] [S3 S3'] S4 [S5 S5'] [S6 S6'] [S7 S7'] S8 S9 S10 S11].
    rewrite qlt_false. split; [done|]. rewrite !negb_false_iff, !andb_true_iff, !Qle_bool_iff, !qlt_spec.
    do 2 (split; [done|]). split; [rewrite orb_false_iff, !bool_decide_eq_false; lia|]. do 3 (split; [done|]).
    split; [by apply bool_decide_eq_true|]. split; [|split; [|split; [by apply bool_decide_eq_false; lia|done]]].
    + destruct (sp_max_new_tokens p) as [n|]; [|done]. specialize (S9 n eq_refl).
      rewrite orb_false_iff, negb_false_iff, bool_decide_eq_false, bool_decide_eq_true. lia.
    + destruct (sp_logit_bias p) as [keys|]; [|done]. apply not_true_is_false. intros (k & Hk & Hno)%existsb_exists.
      apply negb_true_iff, bool_decide_eq_false in Hno. apply Hno. apply (S10 keys); [done|by apply list_elem_of_In].
Qed.

Lemma verify_error vocab_size p e : verify vocab_size p = Raise e → e = ValueError.
Proof.
  unfold verify. intros H. repeat (apply raise_if_error in H as [H|H]; [done|]). done.
Qed.

(** C26: The constructor and [verify] accept exactly the parameters a sampler can use
    and reject the others with [ValueError]: temperature, nucleus and penalties in their ranges, at
    least one candidate token, at most one grammar, biases of tokens of the
    vocabulary; a greedy request ([temperature] below the threshold) has one
    candidate, and [top_k = -1] means all of them. *)
Theorem sampling_verified vocab_size a :
  let p := new_sampling a in
  (verify vocab_size p = Ok tt ∧ sampling_ok vocab_size p ∨ verify vocab_size p = Raise ValueError ∧ ¬ sampling_ok vocab_size p) ∧
  ((default 1 (a_temperature a) < _SAMPLING_EPS)%Q → (0 <= default 1 (a_temperature a))%Q → sp_top_k p = 1 ∧ sp_temperature p = 1%Q) ∧
  ((_SAMPLING_EPS <= default 1 (a_temperature a))%Q → default (-1) (a_top_k a) = -1 → sp_top_k p = TOP_K_ALL) ∧
  (∀ t, t ∈ sp_stop_token_ids p ↔ ∃ l, a_stop_token_ids a = Some l ∧ Some t ∈ l).
Proof.
  intros p. split.
  { destruct (verify vocab_size p) as [[]|e] eqn:E; [left; split; [done|by apply verify_ok]|right].
    split; [f_equal; by eapply verify_error|]. intros Hok%verify_ok. congruence. }
  split; [|split].
  - intros H1%qlt_spec H2%Qle_bool_iff. unfold p, new_sampling. cbn [sp_top_k sp_temperature]. by rewrite H1, H2.
  - intros H1%qlt_false Hk. unfold p, new_sampling. cbn [sp_top_k]. by rewrite H1, andb_false_r, Hk.
  - intros t. unfold p, new_sampling. cbn [sp_stop_token_ids]. destruct (a_stop_token_ids a) as [l|].
    + rewrite elem_of_remove_dups, list_elem_of_omap. split; [intros (x & Hx & E); exists l; split; [done|]; by rewrite <-E|intros (? & [= <-] & ?); by exists (Some t)].
    + split; [by intros ?%not_elem_of_nil|by intros (? & ? & _)].
Qed.

(** * Stop conditions *)

Lemma py_in_spec x s : py_in x s = true ↔ ∃ a b, s = a ++ x ++ b.
Proof.
  induction s as [|c s IH]; cbn [py_in]; rewrite orb_true_iff, bool_decide_eq_true.
  - split; [intros [[b Hb]|?]; [by exists [], b|done]|]. intros (a & b & Hs). left. exists b.
    symmetry in Hs. apply app_nil in Hs as [_ Hs]. done.
  - rewrite IH. split.
    + intros [[b Hb]|(a & b & ->)]; [by exists [], b|by exists (c :: a), b].
    + intros ([|c' a] & b & Hs); [left; by exists b|]. injection Hs as -> ->. right. by exists a, b.
Qed.

Lemma first_token_spec P l : ∀ i,
  match first_token P i l with
  | Some (j, t) => (i ≤ j)%nat ∧ l !! (j - i)%nat = Some t ∧ P t = true ∧ Forall (fun x => P x = false) (take (j - i) l)
  | None => Forall (fun x => P x = false) l
  end.
Proof.
  induction l as [|t l IH]; intros i; cbn [first_token]; [constructor|]. destruct (P t) eqn:Ht.
  - rewrite Nat.sub_diag. by split_and!.
  - specialize (IH (S i)). destruct (first_token P (S i) l) as [[j u]|]; [|by constructor].
    destruct IH as (Hj & Hl & Hu & Hall). replace (j - i)%nat with (S (j - S i)) by lia. split; [lia|]. cbn. split_and!; try done. by constructor.
Qed.

Lemma py_get_last {A} (l : list A) x : last l = Some x → py_get l (-1) = Ok x.
Proof.
  rewrite last_lookup. intros Hl. pose proof (lookup_lt_Some _ _ _ Hl). unfold py_get, py_pos.
  rewrite bool_decide_eq_false_2, bool_decide_eq_true_2 by lia. replace (Z.to_nat _) with (pred (length l)) by lia. by rewrite Hl.
Qed.

Section finish_laws.
Context (tokenizer : option (option Z * list Z)) (decode : list Z → text) (re_search : list node → text → bool) (any_of : list Z → Z).
Context (sampling : SamplingParams) (stops : StopSet) (max_new_tokens : Z) (eos_token_ids : list Z) (vocab_size : Z) (decoded_text : text).

Notation update := (update_finish_state tokenizer decode re_search any_of sampling stops max_new_tokens eos_token_ids vocab_size decoded_text).
Notation is_stop := (is_stop_token tokenizer sampling eos_token_ids).

(** A stop string, or a stop regex, is seen in the text. *)
Definition seen (out : list Z) (x : text) : Prop :=
  ∃ tail, tail_str tokenizer decode stops out = Ok tail ∧ (py_in x tail = true ∨ py_in x decoded_text = true).

Definition found (out : list Z) (r : list node) : Prop :=
  ∃ tail, tail_str tokenizer decode stops out = Ok tail ∧ re_search r tail = true.

(** There is something to look for in the text, and nothing to read the text with. *)
Definition unreadable : Prop := tokenizer = None ∧ (stop_strs stops ≠ [] ∨ stop_regex_strs stops ≠ []).

Lemma find_none_in {A} (P : A → bool) l : find P l = None ↔ ∀ x, x ∈ l → P x = false.
Proof.
  split; [intros Hn x Hx; apply (find_none _ _ Hn); by apply list_elem_of_In|]. intros Hl.
  destruct (find P l) as [x|] eqn:E; [|done]. apply find_some in E as [Hx%list_elem_of_In Hp]. rewrite Hl in Hp; done.
Qed.

Lemma find_first {A} (P : A → bool) l x : find P l = Some x → ∃ pre post, l = pre ++ x :: post ∧ P x = true ∧ Forall (fun y => P y = false) pre.
Proof.
  induction l as [|y l IH]; [done|]. cbn [find]. destruct (P y) eqn:Hy.
  - intros [= ->]. exists [], l. by repeat split.
  - intros (pre & post & -> & Hx & Hpre)%IH. exists (y :: pre), post. repeat split; [done|]. by constructor.
Qed.

(** What is read off the text: the first stop string seen in it, or the first regex. *)
Inductive reads (out : list Z) : option FinishReason → Prop :=
  | reads_str pre x post : stop_strs stops = pre ++ x :: post → seen out x → Forall (fun y => ¬ seen out y) pre →
      reads out (Some (FINISH_MATCHED_STR x))
  | reads_regex pre r post : Forall (fun y => ¬ seen out y) (stop_strs stops) → stop_regex_strs stops = pre ++ r :: post →
      found out r → Forall (fun y => ¬ found out y) pre → reads out (Some (FINISHED_MATCHED_REGEX r))
  | reads_nothing : Forall (fun y => ¬ seen out y) (stop_strs stops) → Forall (fun y => ¬ found out y) (stop_regex_strs stops) → reads out None.

Lemma not_seen out tail l : tail_str tokenizer decode stops out = Ok tail →
  Forall (fun x => py_in x tail || py_in x decoded_text = false) l → Forall (fun x => ¬ seen out x) l.
Proof. intros E Hl. eapply Forall_impl; [exact Hl|]. intros x [H1 H2]%orb_false_iff (tail' & E' & Hs). simplify_eq. destruct Hs; congruence. Qed.

Lemma not_found out tail l : tail_str tokenizer decode stops out = Ok tail →
  Forall (fun r => re_search r tail = false) l → Forall (fun r => ¬ found out r) l.
Proof. intros E Hl. eapply Forall_impl; [exact Hl|]. intros x Hx (tail' & E' & Hs). simplify_eq. congruence. Qed.

Lemma tail_str_cases out :
  match tail_str tokenizer decode stops out with Ok _ => tokenizer ≠ None ∨ stop_strs stops = [] ∧ stop_regex_strs stops = [] | Raise e => e = AttributeError ∧ unreadable end.
Proof.
  unfold tail_str, unreadable. case_bool_decide as H1; [case_bool_decide as H2|]; cbn [andb]; [by right|..].
  all: destruct tokenizer; [by left|]; split; [done|]; split; [done|]; by (left + right).
Qed.

Lemma check_str_cases s :
  match _check_str_based_finish tokenizer decode re_search stops decoded_text s with
  | Ok o => ∃ reason, reads (f_output_ids s) reason ∧ o = (fun r => mkFinish (f_output_ids s) (Some r) (f_finished_len s) (f_to_finish s)) <$> reason
  | Raise e => e = AttributeError ∧ unreadable
  end.
Proof.
  unfold _check_str_based_finish. destruct (bool_decide _ && bool_decide _) eqn:Hno.
  { apply andb_prop in Hno as [H1%bool_decide_eq_true H2%bool_decide_eq_true]. exists None. split; [|done]. apply reads_nothing; [rewrite H1|rewrite H2]; constructor. }
  pose proof (tail_str_cases (f_output_ids s)) as Hc. destruct (tail_str _ _ _ _) as [tail|e] eqn:E; cbn [mbind result_bind]; [clear Hc|done].
  destruct (find _ (stop_strs stops)) as [x|] eqn:E1.
  { apply find_first in E1 as (pre & post & Hl & Hx & Hpre). exists (Some (FINISH_MATCHED_STR x)). split; [|done].
    eapply reads_str; [done| |by eapply not_seen]. exists tail. by apply orb_prop in Hx. }
  rewrite find_none_in, <-Forall_forall in E1. apply (not_seen _ _ _ E) in E1.
  destruct (find _ (stop_regex_strs stops)) as [r|] eqn:E2.
  - apply find_first in E2 as (pre & post & Hl & Hx & Hpre). exists (Some (FINISHED_MATCHED_REGEX r)). split; [|done].
    eapply reads_regex; [done..| |by eapply not_found]. by exists tail.
  - rewrite find_none_in, <-Forall_forall in E2. apply (not_found _ _ _ E) in E2. exists None. split; [|done]. by apply reads_nothing.
Qed.

(** None of the conditions on the tokens ends the request. *)
Record undecided (grammar_done : bool) (old new : list Z) : Prop := {
  un_length : Z.of_nat (length (old ++ new)) < max_new_tokens;
  un_grammar : grammar_done = false;
  un_stop : sp_ignore_eos sampling = true ∨ Forall (fun x => is_stop x = false) new;
  un_vocab : Forall (fun t => 0 ≤ t ≤ vocab_size) new;
}.

(** The token that takes the place of one outside the vocabulary. *)
Definition replacement (t : Z) : Z :=
  if bool_decide (eos_token_ids = []) then if bool_decide (sp_stop_token_ids sampling = []) then t else any_of (sp_stop_token_ids sampling)
  else any_of eos_token_ids.

(** What a step makes of a request with [new] as its last tokens; the conditions are tried in this order. *)
Inductive finishing (grammar_done : bool) (old new : list Z) (s' : FinishState) : Prop :=
  | fin_length : max_new_tokens ≤ Z.of_nat (length (old ++ new)) → f_output_ids s' = old ++ new →
      f_reason s' = Some (FINISH_LENGTH max_new_tokens) → f_finished_len s' = Some max_new_tokens → finishing grammar_done old new s'
  | fin_grammar t : Z.of_nat (length (old ++ new)) < max_new_tokens → grammar_done = true → last (old ++ new) = Some t → f_output_ids s' = old ++ new →
      f_reason s' = Some (FINISH_MATCHED_TOKEN t) → f_finished_len s' = None → finishing grammar_done old new s'
  | fin_token pre t post : Z.of_nat (length (old ++ new)) < max_new_tokens → grammar_done = false → new = pre ++ t :: post →
      sp_ignore_eos sampling = false → is_stop t = true → Forall (fun x => is_stop x = false) pre →
      f_output_ids s' = old ++ new → f_reason s' = Some (FINISH_MATCHED_TOKEN t) →
      output_ids_through_stop s' = old ++ pre ++ [t] → finishing grammar_done old new s'
  | fin_vocab pre t post : Z.of_nat (length (old ++ new)) < max_new_tokens → grammar_done = false →
      (sp_ignore_eos sampling = true ∨ Forall (fun x => is_stop x = false) new) → new = pre ++ t :: post → (vocab_size < t ∨ t < 0) →
      Forall (fun t => 0 ≤ t ≤ vocab_size) pre → f_output_ids s' = old ++ pre ++ replacement t :: post →
      f_reason s' = Some (FINISH_MATCHED_STR NAN_HAPPENED) →
      output_ids_through_stop s' = old ++ pre ++ [replacement t] → finishing grammar_done old new s'
  | fin_text : undecided grammar_done old new → reads (old ++ new) (f_reason s') → s' = mkFinish (old ++ new) (f_reason s') None None →
      finishing grammar_done old new s'.

Lemma through_stop_at old pre u post s' :
  f_output_ids s' = old ++ pre ++ u :: post → f_finished_len s' = Some (Z.of_nat (length old + length pre) + 1) →
  output_ids_through_stop s' = old ++ pre ++ [u].
Proof.
  intros Ho Hl. unfold output_ids_through_stop. rewrite Hl, Ho, bool_decide_eq_true_2 by lia.
  replace (old ++ pre ++ u :: post) with ((old ++ pre ++ [u]) ++ post) by (rewrite <-!app_assoc; done).
  apply take_app_length'. rewrite !length_app. simpl. lia.
Qed.

Lemma check_token_cases old new s :
  f_output_ids s = old ++ new → Z.of_nat (length (old ++ new)) < max_new_tokens →
  match _check_token_based_finish tokenizer sampling eos_token_ids new s with
  | Some s' => finishing false old new s'
  | None => sp_ignore_eos sampling = true ∨ Forall (fun x => is_stop x = false) new
  end.
Proof.
  intros Ho Hlen. unfold _check_token_based_finish. destruct (sp_ignore_eos sampling) eqn:Hig; [by left|].
  pose proof (first_token_spec is_stop new 0) as Hf. destruct (first_token _ 0 new) as [[j t]|]; [|by right].
  destruct Hf as (_ & Hl & Ht & Hall). rewrite Nat.sub_0_r in Hl, Hall. pose proof (take_drop_middle new j t Hl) as Hsplit. pose proof (lookup_lt_Some _ _ _ Hl).
  apply (fin_token _ old new _ (take j new) t (drop (S j) new)); try done. eapply (through_stop_at _ _ _ (drop (S j) new)); [cbn; by rewrite Ho, Hsplit|].
  cbn. f_equal. rewrite Ho, length_app, length_take. lia.
Qed.

Lemma check_vocab_cases old new s :
  f_output_ids s = old ++ new → Z.of_nat (length (old ++ new)) < max_new_tokens →
  (sp_ignore_eos sampling = true ∨ Forall (fun x => is_stop x = false) new) →
  match _check_vocab_boundary_finish any_of sampling eos_token_ids vocab_size new s with
  | Some s' => finishing false old new s'
  | None => Forall (fun t => 0 ≤ t ≤ vocab_size) new
  end.
Proof.
  intros Ho Hlen Hstop. unfold _check_vocab_boundary_finish. set (P := fun t => bool_decide (vocab_size < t) || bool_decide (t < 0)).
  assert (HP : ∀ t, P t = false → 0 ≤ t ≤ vocab_size).
  { unfold P. intros t [H1 H2]%orb_false_iff. apply bool_decide_eq_false in H1, H2. lia. }
  pose proof (first_token_spec P new 0) as Hf. destruct (first_token P 0 new) as [[j t]|].
  2: { by eapply Forall_impl. }
  destruct Hf as (_ & Hl & Ht & Hpre). rewrite Nat.sub_0_r in Hl, Hpre. pose proof (take_drop_middle new j t Hl) as Hsplit. pose proof (lookup_lt_Some _ _ _ Hl).
  rewrite Ho, length_app. replace (length old + length new - length new + j)%nat with (length old + j)%nat by lia.
  assert (Hset : ∀ x u, <[(length old + j)%nat := u]> (old ++ take j new ++ x :: drop (S j) new) = old ++ take j new ++ u :: drop (S j) new).
  { intros x u. rewrite insert_app_r. f_equal. rewrite insert_app_r_alt by (rewrite length_take; lia). rewrite length_take, Nat.min_l by lia. by rewrite Nat.sub_diag. }
  set (out := if bool_decide (eos_token_ids = []) then _ else _).
  assert (out = old ++ take j new ++ replacement t :: drop (S j) new) as Eo.
  { subst out. unfold replacement. assert (old ++ new = old ++ take j new ++ t :: drop (S j) new) as -> by (by rewrite Hsplit). do 2 case_bool_decide; by rewrite ?Hset. }
  rewrite Eo. apply (fin_vocab _ old new _ (take j new) t (drop (S j) new)); try done.
  - unfold P in Ht. apply orb_prop in Ht as [?%bool_decide_eq_true|?%bool_decide_eq_true]; [by left|by right].
  - by eapply Forall_impl.
  - eapply through_stop_at; [done|]. cbn. f_equal. rewrite length_take. lia.
Qed.

Lemma update_finishes g old new :
  new ≠ [] →
  match update g (length new) (mkFinish (old ++ new) None None None) with
  | Ok s' => finishing g old new s'
  | Raise e => e = AttributeError ∧ unreadable ∧ undecided g old new
  end.
Proof.
  intros Hne. unfold update_finish_state. cbn [f_reason f_to_finish f_output_ids]. case_bool_decide as Hlen; [by apply fin_length|].
  assert (Z.of_nat (length (old ++ new)) < max_new_tokens) by lia. destruct g.
  { destruct (last (old ++ new)) as [t|] eqn:Hl.
    - rewrite (py_get_last _ _ Hl). cbn [mbind result_bind]. by eapply fin_grammar.
    - apply last_None, app_nil in Hl as [_ ?]. done. }
  rewrite bool_decide_eq_false_2 by (by destruct new). rewrite length_app, Nat.add_sub, drop_app_length.
  set (s := mkFinish _ _ _ _). pose proof (check_token_cases old new s eq_refl ltac:(done)) as Ht.
  destruct (_check_token_based_finish _ _ _ new s) as [s'|]; [done|].
  pose proof (check_vocab_cases old new s eq_refl ltac:(done) Ht) as Hv. destruct (_check_vocab_boundary_finish _ _ _ _ new s) as [s'|]; [done|].
  assert (undecided false old new) by done.
  pose proof (check_str_cases s) as Hs. destruct (_check_str_based_finish _ _ _ _ _ s) as [o|e]; cbn [mbind result_bind]; [|naive_solver].
  destruct Hs as (reason & Hr & ->). apply fin_text; [done|..]; by destruct reason.
Qed.

(** C24: [update_finish_state] on a request that has got new tokens, nothing having ended it
    before.  The conditions are tried in this order and the first that holds gives the
    reason: the output has its full length; the grammar has ended; one of the new tokens is
    a stop token (the first one counts) and end tokens are not ignored; one of the new tokens is
    negative or above [vocab_size] (the id [vocab_size] itself passes), which is replaced by an end
    or stop token where the request has one; the first stop string of the list that occurs in the tail
    of the text; the first stop regex of the list found in it.  If none holds the request
    is as it was.  When a token stops the request, what is reported ends with it.  The one
    error is [AttributeError]: stop strings or regexes are set, no
    earlier condition holds, and the server has no tokenizer to decode the tail. *)
Theorem update_finish_spec g old new :
  new ≠ [] →
  match update g (length new) (mkFinish (old ++ new) None None None) with
  | Ok s' => finishing g old new s'
  | Raise e => e = AttributeError ∧ unreadable ∧ undecided g old new
  end.
Proof. apply update_finishes. Qed.

End finish_laws.

(** * The tail is long enough *)

(** Patterns the code has a bound for and whose matches do not depend on what is around them. *)
Inductive plain : node → Prop :=
  | pl_literal c : plain (LITERAL c)
  | pl_in l : plain (IN l)
  | pl_any : plain ANY
  | pl_group p : Forall plain p → plain (SUBPATTERN p)
  | pl_branch p more : Forall plain p → Forall (Forall plain) more → plain (BRANCH p more)
  | pl_max lo hi p : (∀ h, hi = Some h → 0 ≤ h) → Forall plain p → plain (MAX_REPEAT lo hi p)
  | pl_min lo hi p : (∀ h, hi = Some h → 0 ≤ h) → Forall plain p → plain (MIN_REPEAT lo hi p).

Lemma plain_well_formed : ∀ n, plain n → well_formed n.
Proof.
  fix IH 2. intros n H.
  assert (Hall : ∀ p, Forall plain p → Forall well_formed p).
  { fix IHl 2. intros p Hp. destruct Hp as [|x p Hx Hp]; constructor; [by apply IH|by apply IHl]. }
  assert (Hmore : ∀ ps, Forall (Forall plain) ps → Forall (Forall well_formed) ps).
  { fix IHm 2. intros ps Hp. destruct Hp as [|x ps Hx Hp]; constructor; [by apply Hall|by apply IHm]. }
  destruct H; constructor; try done; by apply Hall || by apply Hmore.
Qed.

Lemma regex_bound encode sampling r :
  r ∈ stop_regex_strs (normalize encode sampling) → get_max_seq_length r ≤ stop_regex_max_len (normalize encode sampling).
Proof. intros Hr. by apply (fold_max_le get_max_seq_length). Qed.

(** The tail is the text of the last tokens: of all, or of more than a match of [r] has characters. *)
Lemma tail_splits tokenizer decode encode sampling r out :
  tokenizer ≠ None → r ∈ stop_regex_strs (normalize encode sampling) → Forall well_formed r →
  ∃ pre suf, out = pre ++ suf ∧ tail_str tokenizer decode (normalize encode sampling) out = Ok (decode suf) ∧
    (pre = [] ∨ get_max_seq_length r < Z.of_nat (length suf)).
Proof.
  intros Htok Hr Hwf. unfold tail_str.
  assert (bool_decide (stop_regex_strs (normalize encode sampling) = []) = false) as ->.
  { apply bool_decide_eq_false. intros E. rewrite E in Hr. by apply not_elem_of_nil in Hr. }
  rewrite andb_false_r. destruct tokenizer as [tk|]; [|done]. set (n := Z.to_nat _).
  exists (take (length out - n) out), (drop (length out - n) out). split; [by rewrite take_drop|]. split; [done|].
  pose proof (regex_bound encode sampling r Hr) as Hbound. assert (0 ≤ get_max_seq_length r) by by apply pattern_nonneg.
  assert ((length out - n = 0)%nat ∨ get_max_seq_length r + 1 ≤ Z.of_nat n ∧ (n ≤ length out)%nat) as [->|Hn] by (subst n; lia); [by left|].
  right. rewrite length_drop. lia.
Qed.

(** C23: The tail of the output in which stop regexes are searched is long enough.  On a
    server with a tokenizer, for a stop regex of the request (any tree of the parser,
    whose counts are not negative) and at most [2^30] output tokens, [tail_str] decodes the whole output or
    a suffix with more tokens than any text the regex matches has characters, whatever
    its character classes accept and the constructs the code has no bound for match.  So a match that
    ends in the newest token and takes at most one token per character lies in the tokens
    that are decoded. *)
Theorem regex_tail_covers accepts other tokenizer decode encode sampling r out :
  tokenizer ≠ None → r ∈ stop_regex_strs (normalize encode sampling) → Forall well_formed r → Z.of_nat (length out) ≤ MAX_LEN →
  ∃ pre suf, out = pre ++ suf ∧ tail_str tokenizer decode (normalize encode sampling) out = Ok (decode suf) ∧
    (pre = [] ∨ ∀ m, pmatch accepts other r m → (length m < length suf)%nat).
Proof.
  intros Htok Hr Hwf Hlen. destruct (tail_splits tokenizer decode encode sampling r out Htok Hr Hwf) as (pre & suf & E & Ht & Hor).
  exists pre, suf. split; [done|]. split; [done|]. destruct Hor as [Hp|Hlt]; [by left|right]. intros m Hm.
  rewrite E, length_app in Hlen. pose proof (proj1 (proj2 (matches_bounded accepts other)) r m Hm Hwf) as Hb.
  fold (get_max_seq_length r) in Hb. lia.
Qed.

Section tail.
Context (accepts : node → Z → bool) (re_search : list node → text → bool) (token_text : Z → text) (encode : option (text → list Z)).
Context (tokenizer : option (option Z * list Z)) (sampling : SamplingParams) (decoded_text : text).

(** A tokenizer that decodes tokens one by one, each to some text. *)
Definition decodes_each (out : list Z) : Prop := Forall (fun t => token_text t ≠ []) out.
Definition decode_all (out : list Z) : text := concat (token_text <$> out).

(** [re.search] finds the matches of a pattern. *)
Definition searches (r : list node) : Prop :=
  ∀ s, re_search r s = true ↔ ∃ a m b, s = a ++ m ++ b ∧ pmatch accepts (fun _ _ => False) r m.

Lemma decode_long out : decodes_each out → (length out ≤ length (decode_all out))%nat.
Proof.
  intros H. induction H as [|t out Ht Hout IH]; [done|]. unfold decode_all in *. cbn. rewrite length_app.
  assert (length (token_text t) ≠ 0%nat) by (by intros ?%nil_length_inv). lia.
Qed.

Lemma decode_app l k : decode_all (l ++ k) = decode_all l ++ decode_all k.
Proof. unfold decode_all. by rewrite fmap_app, concat_app. Qed.

Lemma app_snoc_inv {A} (a b l : list A) x : l ++ [x] = a ++ b → b ≠ [] → ∃ b', b = b' ++ [x].
Proof.
  intros E Hb. destruct (exists_last Hb) as (b' & y & ->). rewrite app_assoc in E. apply app_inj_tail in E as [_ <-]. by exists b'.
Qed.

Lemma suffix_inside {A} (a m b x y : list A) : a ++ m ++ b = x ++ y → (length m + length b ≤ length y)%nat → ∃ c, y = c ++ m ++ b.
Proof.
  intros H Hlen. exists (drop (length x) a). pose proof (f_equal length H) as Hl. rewrite !length_app in Hl.
  pose proof (f_equal (drop (length x)) H) as Hd. rewrite drop_app_length in Hd. rewrite <-Hd. rewrite drop_app_le by lia. done.
Qed.

(** A stop regex is not missed by a tokenizer that decodes token by token: when the text of
    the output contains a match that ends inside the newest token, the request finishes. *)
Lemma regex_stop_complete out t r a m b s :
  tokenizer ≠ None → decodes_each (out ++ [t]) → searches r → Forall plain r → r ∈ stop_regex_strs (normalize encode sampling) →
  f_output_ids s = out ++ [t] → decode_all (out ++ [t]) = a ++ m ++ b → (length b < length (token_text t))%nat →
  pmatch accepts (fun _ _ => False) r m → Z.of_nat (length out) < MAX_LEN →
  ∃ s', _check_str_based_finish tokenizer decode_all re_search (normalize encode sampling) decoded_text s = Ok (Some s') ∧ f_reason s' ≠ None.
Proof.
  intros Htok Hdec Hre Hplain Hr Hout Htext Hb Hm Hshort.
  pose proof (check_str_cases tokenizer decode_all re_search (normalize encode sampling) decoded_text s) as Hc.
  destruct (_check_str_based_finish _ _ _ _ _ s) as [o|e]; [|by destruct Hc as (_ & ? & _)].
  destruct Hc as ([reason|] & Hreads & ->); [by eexists|]. exfalso. inversion Hreads as [| |_ Hno]; subst.
  eapply Forall_forall in Hno; [|exact Hr]. apply Hno.
  assert (Hwf : Forall well_formed r) by (eapply Forall_impl; [exact Hplain|apply plain_well_formed]).
  destruct (tail_splits tokenizer decode_all encode sampling r (out ++ [t]) Htok Hr Hwf) as (pre & suf & E & Ht & Hor).
  exists (decode_all suf). rewrite Hout. split; [done|]. apply Hre. rewrite E, decode_app in Htext.
  destruct (suffix_inside a m b _ _ (eq_sym Htext)) as [c Hc']; [|by exists c, m, b].
  destruct Hor as [->|Hlt].
  { cbn [decode_all fmap list_fmap concat app] in Htext. apply (f_equal length) in Htext. rewrite !length_app in Htext. cbn in Htext. lia. }
  assert (Z.of_nat (length m) ≤ get_max_seq_length r).
  { destruct (decide (get_max_seq_length r < MAX_LEN)); [by apply (proj1 (proj2 (matches_bounded accepts (fun _ _ => False)))) with (s := m)|].
    apply (f_equal length) in E. rewrite !length_app in E. cbn in E. lia. }
  destruct (app_snoc_inv pre suf out t E) as [suf' ->]; [intros ->; cbn in Hlt; pose proof (pattern_nonneg r Hwf); unfold get_max_seq_length in *; lia|].
  rewrite decode_app, length_app. assert (Hd : decodes_each suf').
  { unfold decodes_each in *. rewrite E, !Forall_app in Hdec. naive_solver. }
  pose proof (decode_long _ Hd). rewrite length_app in Hlt. unfold decode_all at 2. cbn in *. rewrite app_nil_r. lia.
Qed.

End tail.

(** * Text that may become a stop string *)

Lemma overlaps_spec tail x : overlaps tail x = true ↔ ∃ u, u ≠ [] ∧ u `suffix_of` tail ∧ u `prefix_of` x.
Proof.
  unfold overlaps. rewrite existsb_exists. split.
  - intros (i & Hi & E%bool_decide_eq_true). apply in_seq in Hi. exists (take i x). split_and!.
    + intros E0. apply (f_equal length) in E0. rewrite length_take in E0. cbn in E0. lia.
    + rewrite <-E. exists (take (length tail - i) tail). by rewrite take_drop.
    + exists (drop i x). by rewrite take_drop.
  - intros (u & Hne & [a ->] & [b ->]). exists (length u). rewrite !length_app. assert (length u ≠ 0%nat) by (by intros ?%nil_length_inv).
    split; [apply in_seq; lia|]. apply bool_decide_eq_true. rewrite take_app_length. rewrite Nat.add_sub. by rewrite drop_app_length.
Qed.

(** Streamed text is held back exactly while its end is, or may grow into, a stop string. *)
Lemma stop_prefix_spec tokenizer decode stops out b :
  check_match_stop_str_prefix tokenizer decode stops out = Ok b → ∃ tail, (stop_strs stops = [] ∨ tail_str tokenizer decode stops out = Ok tail) ∧
  (b = true ↔ ∃ x u, x ∈ stop_strs stops ∧ u ≠ [] ∧ (u = x ∧ py_in x tail = true ∨ u `suffix_of` tail ∧ u `prefix_of` x)).
Proof.
  unfold check_match_stop_str_prefix. case_bool_decide as Hs.
  { intros [= <-]. exists []. split; [by left|]. rewrite Hs. split; [done|]. by intros (x & u & ?%not_elem_of_nil & _). }
  destruct (tail_str _ _ _ _) as [tail|] eqn:Etail; cbn [mbind result_bind]; [|done]. intros Hb. exists tail. split; [by right|]. revert Hb. case_bool_decide as Ht; intros [= <-].
  { split; [done|]. rewrite Ht. intros (x & u & _ & Hne & [[-> Hin]|[[a Ha] _]]).
    - apply py_in_spec in Hin as (a & b' & E). symmetry in E. by apply app_nil in E as [_ [? _]%app_nil].
    - symmetry in Ha. by apply app_nil in Ha as [_ ?]. }
  rewrite existsb_exists. split.
  - intros (x & Hx%list_elem_of_In & Hp). case_bool_decide as Hx0; [done|]. apply orb_prop in Hp as [Hp|(u & Hu & Hsuf & Hpre)%overlaps_spec].
    + exists x, x. naive_solver.
    + exists x, u. naive_solver.
  - intros (x & u & Hx & Hne & Hor). exists x. split; [by apply list_elem_of_In|].
    assert (Hx0 : x ≠ []). { intros ->. destruct Hor as [[-> _]|[_ [b' Hb]]]; [done|]. symmetry in Hb. by apply app_nil in Hb as [? _]. }
    rewrite bool_decide_eq_false_2 by done. destruct Hor as [[_ ->]|Hor]; [done|]. apply orb_true_iff. right. apply overlaps_spec. by exists u.
Qed.

Lemma stop_prefix_error tokenizer decode stops out e :
  check_match_stop_str_prefix tokenizer decode stops out = Raise e → e = AttributeError ∧ unreadable tokenizer stops.
Proof.
  unfold check_match_stop_str_prefix. case_bool_decide; [done|]. pose proof (tail_str_cases tokenizer decode stops out) as Hc.
  destruct (tail_str _ _ _ _) as [tail|]; cbn [mbind result_bind]; [by case_bool_decide|]. intros [= <-]. done.
Qed.

(** * Concrete requests *)

Definition stop_at (strs : StopArg text) (regexes : StopArg (list node)) : SamplingParams :=
  new_sampling (mkArgs (Some 8) strs (Some [Some 2; None]) regexes None None None None None None None None None None None None None).

(** One character per token. *)
Definition letter (t : Z) : text := [t].

Definition accepts_literal (n : node) (x : Z) : bool := match n with LITERAL c => bool_decide (c = x) | _ => false end.

Definition search_ab (r : list node) (s : text) : bool := py_in [97; 98] s.

Lemma search_ab_ok : searches accepts_literal search_ab [LITERAL 97; LITERAL 98].
Proof.
  intros s. unfold search_ab. rewrite py_in_spec. split.
  - intros (a & b & ->). exists a, [97; 98], b. split; [done|].
    apply (p_cons _ _ _ _ [97] [98]); [by constructor|]. apply (p_cons _ _ _ _ [98] []); [by constructor|constructor].
  - intros (a & m & b & -> & Hm). exists a, b. do 2 f_equal. inversion Hm as [|? ? a1 b1 H1 H2]; subst.
    inversion H1 as [? x Hx| | | | | | | |]; subst. inversion H2 as [|? ? a2 b2 H3 H4]; subst. inversion H3 as [? y Hy| | | | | | | |]; subst.
    inversion H4; subst. cbn in Hx, Hy. by apply bool_decide_eq_true in Hx as <-, Hy as <-.
Qed.

Definition has_tokenizer : option (option Z * list Z) := Some (None, []).

(** A match of [ab] has two characters: of the four tokens the last three are decoded. *)
Lemma regex_tail_covers_witness :
  ∃ pre suf, [120; 120; 97; 98] = pre ++ suf ∧
    tail_str has_tokenizer (decode_all letter) (normalize None (stop_at NoStop (OneStop [LITERAL 97; LITERAL 98]))) [120; 120; 97; 98] = Ok (decode_all letter suf) ∧
    (pre = [] ∨ ∀ m, pmatch accepts_literal (fun _ _ => False) [LITERAL 97; LITERAL 98] m → (length m < length suf)%nat).
Proof.
  apply (regex_tail_covers accepts_literal (fun _ _ => False) has_tokenizer (decode_all letter) None (stop_at NoStop (OneStop [LITERAL 97; LITERAL 98]))
           [LITERAL 97; LITERAL 98] [120; 120; 97; 98]).
  - discriminate.
  - cbn. by left.
  - repeat constructor.
  - vm_compute. discriminate.
Defined.

Example regex_tail_of_three :
  tail_str has_tokenizer (decode_all letter) (normalize None (stop_at NoStop (OneStop [LITERAL 97; LITERAL 98]))) [120; 120; 97; 98] = Ok [120; 97; 98].
Proof. reflexivity. Qed.

(** The match of a regex ends the request. *)
Example regex_stop_completes :
  ∃ s', _check_str_based_finish has_tokenizer (decode_all letter) search_ab (normalize None (stop_at NoStop (OneStop [LITERAL 97; LITERAL 98]))) []
          (mkFinish [120; 97; 98] None None None) = Ok (Some s') ∧ f_reason s' ≠ None.
Proof.
  apply (regex_stop_complete accepts_literal search_ab letter None has_tokenizer (stop_at NoStop (OneStop [LITERAL 97; LITERAL 98])) []
           [120; 97] 98 [LITERAL 97; LITERAL 98] [120] [97; 98] [] (mkFinish [120; 97; 98] None None None)).
  - discriminate.
  - repeat constructor; discriminate.
  - apply search_ab_ok.
  - repeat constructor.
  - cbn. by left.
  - reflexivity.
  - reflexivity.
  - cbn. lia.
  - apply (p_cons _ _ _ _ [97] [98]); [by constructor|]. apply (p_cons _ _ _ _ [98] []); [by constructor|constructor].
  - reflexivity.
Qed.

(** The second of two new tokens is a stop token; without a tokenizer a stop string that
    has to be looked for is an error. *)
Lemma update_finish_spec_witness :
  let p := stop_at (OneStop [97]) NoStop in
  let update new := update_finish_state None (decode_all letter) search_ab (default 0 ∘ head) p (normalize None p) 8 [] 100 [] false 2 (mkFinish (5 :: new) None None None) in
  (∃ s', update [7; 2] = Ok s' ∧ f_reason s' = Some (FINISH_MATCHED_TOKEN 2) ∧ f_finished_len s' = Some 3 ∧
     finishing None (decode_all letter) search_ab (default 0 ∘ head) p (normalize None p) 8 [] 100 [] false [5] [7; 2] s') ∧
  (update [7; 8] = Raise AttributeError ∧ unreadable None (normalize None p) ∧ undecided None p 8 [] 100 false [5] [7; 8]).
Proof.
  intros p update. pose proof (fun new => update_finish_spec None (decode_all letter) search_ab (default 0 ∘ head) p (normalize None p) 8 [] 100 [] false [5] new) as H.
  split.
  - specialize (H [7; 2] ltac:(discriminate)). eexists. split; [vm_compute; reflexivity|]. split; [reflexivity|]. split; [reflexivity|]. exact H.
  - specialize (H [7; 8] ltac:(discriminate)). split; [reflexivity|]. exact (proj2 H).
Defined.

(** Of several stop strings the first of the list is reported, whichever comes first in the text. *)
Example first_stop_string_reported :
  let p := stop_at (Stops [[98]; [97]]) NoStop in
  update_finish_state has_tokenizer (decode_all letter) search_ab (default 0 ∘ head) p (normalize None p) 8 [] 1000 []
    false 2 (mkFinish [97; 98] None None None) = Ok (mkFinish [97; 98] (Some (FINISH_MATCHED_STR [98])) None None).
Proof. reflexivity. Qed.

(** The ids of a vocabulary of [n] tokens are below [n], which is what [verify] accepts for a
    bias; the check for tokens outside the vocabulary lets the id [n] pass. *)
Lemma vocab_boundary_off_by_one :
  let args := mkArgs (Some 8) NoStop None NoStop None None None None None None None None None None None None (Some [10]) in
  verify 10 (new_sampling args) = Raise ValueError ∧
  update_finish_state None (decode_all letter) search_ab (default 0 ∘ head) (stop_at NoStop NoStop) (normalize None (stop_at NoStop NoStop)) 8 [] 10 []
    false 1 (mkFinish [10] None None None) = Ok (mkFinish [10] None None None).
Proof. split; reflexivity. Qed.

(** A stop string that the tokenizer encodes as one token and the model writes as three is
    not noticed: the tail has two tokens, and [decoded_text] is only ever the empty string. *)
Lemma stop_string_missed :
  let encode s := if bool_decide (s = [97; 98; 99]) then [500] else s in
  let p := stop_at (OneStop [97; 98; 99]) NoStop in
  py_in [97; 98; 99] (decode_all letter [97; 98; 99]) = true ∧
  update_finish_state has_tokenizer (decode_all letter) search_ab (default 0 ∘ head) p (normalize (Some encode) p) 8 [] 1000 []
    false 1 (mkFinish [97; 98; 99] None None None) = Ok (mkFinish [97; 98; 99] None None None).
Proof. split; reflexivity. Qed.
