(* ===== verification/DecodeBatch.v ===== *)
(** The running batch between two decode steps ([update_running_batch] of
    [managers/scheduler.py], [check_decode_mem] and [retract_decode] of
    [managers/schedule_batch.py], [NewTokenRatioTracker], and the waiting queue
    that takes retracted requests back): memory is checked before every step,
    and requests are retracted, in the last resort aborted, until the step fits.

    Ratios are exact rationals.  The batch is in the mode without disaggregation
    and without host tiers; the text of abort messages is left out. *)

From S2P Require Import Prelude PySort VisiblePlan Allocator RadixKey RadixCache RadixOps RadixSpec ReqPool ReqCache KvSystem SchedulePolicy PrefillAdder.
From Stdlib Require Import QArith Qround Lqa.

Open Scope Z_scope.

(** * [NewTokenRatioTracker] *)

Record NewTokenRatioTracker := mkTracker { ratio_init : Q; ratio_min : Q; ratio_decay : Q; ratio_current : Q }.

Definition q_min (x y : Q) : Q := if Qlt_b y x then y else x.
Definition q_max (x y : Q) : Q := if Qlt_b x y then y else x.

(** [init_ratio], [min_factor] and [decay_steps] are environment variables. *)
Definition from_server_args (init_ratio conservativeness min_factor : Q) (decay_steps : positive) : NewTokenRatioTracker :=
  let init := q_min (init_ratio * conservativeness) 1 in
  let min_ratio := q_min (init * min_factor) 1 in
  mkTracker init min_ratio ((init - min_ratio) * (1 # decay_steps))%Q init.

Definition set_current (x : Q) (t : NewTokenRatioTracker) : NewTokenRatioTracker :=
  mkTracker (ratio_init t) (ratio_min t) (ratio_decay t) x.

Definition decay_step (t : NewTokenRatioTracker) : NewTokenRatioTracker :=
  set_current (q_max (ratio_current t - ratio_decay t) (ratio_min t)) t.

Definition ratio_reset (t : NewTokenRatioTracker) : NewTokenRatioTracker := set_current (ratio_init t) t.

(** [/] of two integers, whose divisor is checked by Python. *)
Definition true_div (x y : Z) : result Q :=
  if bool_decide (y = 0) then Raise ZeroDivisionError else Ok (inject_Z x / inject_Z y)%Q.

Definition estimate_new_token_ratio_after_retract (retract_decode_steps : Z) (reqs : list QReq) : result Q :=
  do! x <- true_div (sumZ (output_len <$> reqs) + retract_decode_steps * lenZ reqs) (sumZ (max_new_tokens <$> reqs) + 1);
  Ok (q_min 1 x).

(** * The waiting queue *)

Definition sys_maxsize : Z := 2 ^ 63 - 1.

Record QueueConfig := mkQueueConfig {
  max_queued_requests : option nat;
  qc_priority_scheduling : bool;
  qc_low_first : bool;
  abort_on_priority_when_disabled : bool;
}.

Definition set_priority (p : Z) (r : QReq) : QReq :=
  let b := base r in
  set_base (mkReq (origin_input_ids b) (output_ids b) (fill_ids b) (req_extra_key b) (Some p) (reasoning_tokens b)
              (inflight_middle_chunks b) (skip_radix_cache_insert b) (req_pool_idx b) (prefix_indices b) (last_node b)
              (cache_protected_len b) (kv_committed_len b) (kv_allocated_len b) (kv_committed_freed b) (kv_overallocated_freed b)) r.

Definition set_entry_time (t : Z) (r : QReq) : QReq :=
  mkQReq (base r) (rid r) (max_new_tokens r) (ignore_eos r) (extend_input_len r) t (routing_key r) (finished r).

(** [None]: the request is refused. *)
Definition _set_or_validate_priority (c : QueueConfig) (r : QReq) : option QReq :=
  match req_priority (base r) with
  | None =>
      if qc_priority_scheduling c then Some (set_priority (if qc_low_first c then sys_maxsize else - sys_maxsize - 1) r) else Some r
  | Some _ => if negb (qc_priority_scheduling c) && abort_on_priority_when_disabled c then None else Some r
  end.

(** [max(enumerate(q), key=...)]: the first of the greatest, with its position. *)
Fixpoint max_by {A K} `{PyOrd K} (key : A → result K) (i : nat) (best : nat * A) (bk : K) (l : list A) : result (nat * A) :=
  match l with
  | [] => Ok best
  | x :: l => do! k <- key x; if py_lt bk k then max_by key (S i) (i, x) k l else max_by key (S i) best bk l
  end.

Definition py_max {A K} `{PyOrd K} (key : A → result K) (l : list A) : result (nat * A) :=
  match l with [] => Raise ValueError | x :: l => do! k <- key x; max_by key 1 (0%nat, x) k l end.

(** [_abort_on_queued_limit]: the queue and the request that is aborted, if any. *)
Definition _abort_on_queued_limit (c : QueueConfig) (r : QReq) (waiting : list QReq) : result (list QReq * option QReq) :=
  match max_queued_requests c with
  | None => Ok (waiting, None)
  | Some m =>
      if bool_decide (length waiting + 1 ≤ m)%nat then Ok (waiting, None)
      else if qc_priority_scheduling c then
        let direction := if qc_low_first c then 1 else -1 in
        do! best <- py_max (fun x => do! p <- priority_or_raise x; Ok (direction * p, wait_queue_entry_time x)) waiting;
        let '(idx, candidate) := best in
        do! p <- priority_or_raise r;
        do! q <- priority_or_raise candidate;
        if bool_decide (direction * p < direction * q) then Ok (take idx waiting ++ drop (S idx) waiting, Some candidate)
        else Ok (waiting, Some r)
      else Ok (waiting, Some r)
  end.

(** [_add_request_to_queue] at the time [now]: the queue and what was aborted. *)
Definition _add_request_to_queue (c : QueueConfig) (now : Z) (r : QReq) (waiting : list QReq) : result (list QReq * list QReq) :=
  match _set_or_validate_priority c r with
  | None => Ok (waiting, [r])
  | Some r =>
      do! x <- _abort_on_queued_limit c r waiting;
      let '(waiting, aborted) := x in
      if bool_decide (rid <$> aborted = Some (rid r)) then Ok (waiting, option_list aborted)
      else Ok (waiting ++ [set_entry_time now r], option_list aborted)
  end.

(** * Memory for the next step *)

(** The speculative decoding in use; the numbers are the server arguments. *)
Inductive SpecAlgorithm :=
  | NoSpec
  | SpecV1 (num_steps eagle_topk : option nat) (num_draft_tokens : nat)
  | SpecV2 (alloc_len : nat).

(** [x or 1]. *)
Definition or_one (x : option nat) : nat := match x with None | Some O => 1 | Some n => n end.

Definition new_tokens_required_next_decode (spec : SpecAlgorithm) (page_size : nat) (reqs : list QReq) : Z :=
  match spec with
  | NoSpec => Z.of_nat (length (filter (fun r => kv_committed_len (base r) `mod` page_size = 0)%nat reqs) * page_size)
  | SpecV2 alloc_len =>
      sumZ ((fun r => let x := (kv_committed_len (base r) + 2 * alloc_len - kv_allocated_len (base r))%nat in
                      let cur := kv_allocated_len (base r) in
                      Z.of_nat (ceil_align (cur + x) page_size) - Z.of_nat (ceil_align cur page_size)) <$> reqs)
  | SpecV1 num_steps eagle_topk tokens =>
      let len_per_topk := or_one num_steps in
      let topk := or_one eagle_topk in
      let '(len_per_topk, tokens) :=
        if bool_decide (1 < page_size ∧ 1 < topk)%nat then (ceil_align (len_per_topk + page_size) page_size, ceil_align tokens page_size)
        else if bool_decide (1 < page_size)%nat then (ceil_align len_per_topk page_size, ceil_align tokens page_size)
        else (len_per_topk, tokens) in
      Z.of_nat ((len_per_topk * topk) `max` tokens * length reqs)
  end.

Section decode.
Context {T : Type} {PC : PrefixCache T}.
Context (spec : SpecAlgorithm) (page_size : nat) (retract_decode_steps : Z) (strip : bool).

Definition is_spec : bool := match spec with NoSpec => false | _ => true end.

#[local] Notation release := (release_req (Z.of_nat page_size) retract_decode_steps strip (negb is_spec)).

Definition check_decode_mem (selected : list QReq) (w : World T) : result (World T * bool) :=
  let num_tokens := new_tokens_required_next_decode spec page_size selected in
  do! w <- evict_from_tree_cache num_tokens w;
  Ok (w, bool_decide (num_tokens ≤ available_size (kv w))).

(** ** Retraction *)

(** [sort(key=(len(output_ids), -len(origin_input_ids)), reverse=True)]: descending and stable. *)
Definition retract_key (r : QReq) : Z * Z := (- output_len r, Z.of_nat (length (origin_input_ids (base r)))).

Definition retract_order (reqs : list QReq) : list QReq := if is_spec then reqs else py_sort retract_key reqs.

(** The [while] loop; [stack] is the sorted list from its end, so that [pop()] takes the head. *)
Fixpoint retract_loop (first_iter : bool) (stack retracted : list QReq) (w : World T) : result (World T * list QReq * list QReq) :=
  do! c <- (if first_iter then Ok (w, false) else check_decode_mem (reverse stack) w);
  let '(w, enough) := c in
  if enough : bool then Ok (w, stack, retracted)
  else
    match stack with
    | [] => Raise IndexError
    | [_] => Ok (w, stack, retracted)
    | r :: rest => do! x <- release r (lenZ rest) w; retract_loop false rest (retracted ++ [x.2]) x.1
    end.

Record Retraction := mkRetraction {
  rt_world : World T;
  rt_reqs : list QReq;
  rt_retracted : list QReq;
  rt_ratio : Q;
  rt_aborted : list QReq;
}.

(** [filter_batch(keep_indices=...)], the requests of it. *)
Definition filter_keep (keep reqs : list QReq) : list QReq := if bool_decide (length keep = length reqs) then reqs else keep.

(** The last request is aborted when even it does not fit. *)
Definition abort_last (stack : list QReq) (w : World T) : result (World T * list QReq * list QReq) :=
  do! c <- (if bool_decide (length stack ≤ 1)%nat then check_decode_mem (reverse stack) w else Ok (w, true));
  let '(w, enough) := c in
  if enough : bool then Ok (w, stack, [])
  else
    match stack with
    | [] => Raise IndexError
    | r :: rest => do! x <- release r 0 w; Ok (x.1, rest, [x.2])
    end.

Definition retract_decode (reqs : list QReq) (w : World T) : result Retraction :=
  do! l <- retract_loop true (reverse (retract_order reqs)) [] w;
  let '(w, stack, retracted) := l in
  do! a <- abort_last stack w;
  let '(w, stack, aborted) := a in
  let reqs := filter_keep (reverse stack) reqs in
  do! ratio <- estimate_new_token_ratio_after_retract retract_decode_steps reqs;
  Ok (mkRetraction w reqs retracted ratio aborted).

(** [retract_all]: [filter_batch] excludes the requests it is given, which is all of them. *)
Fixpoint retract_all_loop (n : nat) (idx : nat) (reqs : list QReq) (w : World T) : result (World T * list QReq) :=
  match reqs with
  | [] => Ok (w, [])
  | r :: reqs =>
      do! x <- release r (Z.of_nat (n - idx)) w;
      do! y <- retract_all_loop n (S idx) reqs x.1;
      Ok (y.1, x.2 :: y.2)
  end.

Definition retract_all (reqs : list QReq) (w : World T) : result (World T * list QReq * list QReq) :=
  do! y <- retract_all_loop (length reqs) 0 reqs w;
  Ok (y.1, [], y.2).

(** ** [update_running_batch] *)

Context (uninit : Z → list Z) (config : QueueConfig).

Record Running := mkRunning {
  ru_world : World T;
  ru_reqs : list QReq;
  ru_full : bool;
  ru_tracker : NewTokenRatioTracker;
  ru_waiting : list QReq;
  (** reported to the client as aborted *)
  ru_aborted : list QReq;
  (** [out_cache_loc] of the step, if there is one *)
  ru_out : option (list Z);
}.

(** Retracted requests go back to the queue one by one, each with its own time stamp. *)
Fixpoint requeue (clock : nat → Z) (i : nat) (reqs waiting : list QReq) : result (list QReq * list QReq) :=
  match reqs with
  | [] => Ok (waiting, [])
  | r :: reqs =>
      do! x <- _add_request_to_queue config (clock i) r waiting;
      do! y <- requeue clock (S i) reqs x.1;
      Ok (y.1, x.2 ++ y.2)
  end.

(** Memory for the next step of [reqs], by retraction if need be; [test_retract] forces one. *)
Definition make_room (test_retract : bool) (clock : nat → Z) (reqs : list QReq) (s : Running) : result Running :=
  do! c <- check_decode_mem reqs (ru_world s);
  let '(w, enough) := c in
  if negb enough || test_retract then
    do! rt <- retract_decode reqs w;
    do! q <- requeue clock 0 (rt_retracted rt) (ru_waiting s);
    Ok (mkRunning (rt_world rt) (rt_reqs rt) (ru_full s) (set_current (rt_ratio rt) (ru_tracker s)) q.1 (rt_aborted rt ++ q.2) None)
  else Ok (mkRunning w reqs (ru_full s) (decay_step (ru_tracker s)) (ru_waiting s) [] None).

(** With speculative decoding the slots of the step are allocated by the draft worker. *)
Definition update_running_batch (test_retract : bool) (clock : nat → Z) (s : Running) : result Running :=
  let reqs := filter (fun r => finished r = false) (ru_reqs s) in
  if bool_decide (reqs = []) then
    Ok (mkRunning (ru_world s) [] false (ru_tracker s) (ru_waiting s) [] None)
  else
    do! x <- make_room test_retract clock reqs s;
    let full := if bool_decide (length (ru_reqs x) < length (ru_reqs s))%nat then false else ru_full x in
    if bool_decide (ru_reqs x = []) then Ok (mkRunning (ru_world x) [] full (ru_tracker x) (ru_waiting x) (ru_aborted x) None)
    else
      if is_spec then Ok (mkRunning (ru_world x) (ru_reqs x) full (ru_tracker x) (ru_waiting x) (ru_aborted x) None)
      else
        do! d <- prepare_for_decode uninit page_size (base <$> ru_reqs x) (ru_world x);
        let '(w, bs, out) := d in
        Ok (mkRunning w (zip_with (fun r b => set_base b r) (ru_reqs x) bs) full (ru_tracker x) (ru_waiting x) (ru_aborted x) (Some out)).

End decode.

(** * The queue *)

Section queue.
Context (config : QueueConfig).

(** The keys of the queue can be compared, and one request fits. *)
Definition queue_ok (waiting : list QReq) : Prop :=
  (qc_priority_scheduling config = true → Forall has_priority waiting) ∧ max_queued_requests config ≠ Some 0%nat.

Definition within_limit (waiting : list QReq) : Prop :=
  match max_queued_requests config with Some m => (length waiting ≤ m)%nat | None => True end.

(** The rank of a request: the greater, the less it is preferred. *)
Definition rank (r : QReq) : Z := (if qc_low_first config then 1 else -1) * prio r.

Lemma max_by_ok {A K} `{PyOrdLaws K} (key : A → result K) (k : A → K) (full : list A) : ∀ l i best,
  (∀ x, x ∈ full → key x = Ok (k x)) → drop i full = l → full !! best.1 = Some best.2 →
  (∀ x, x ∈ take i full → py_lt (k best.2) (k x) = false) →
  ∃ j x, max_by key i best (k best.2) l = Ok (j, x) ∧ full !! j = Some x ∧ ∀ y, y ∈ full → py_lt (k x) (k y) = false.
Proof.
  induction l as [|x l IH]; intros i [j b] Hk Hd Hb Hmax; cbn [fst snd] in *.
  { exists j, b. split; [done|]. split; [done|]. intros y Hy. apply Hmax. rewrite take_ge; [done|].
    apply (f_equal length) in Hd. rewrite length_drop in Hd. simpl in Hd. lia. }
  assert (Hx : full !! i = Some x) by (rewrite <-(Nat.add_0_r i), <-lookup_drop, Hd; done).
  assert (Hd' : drop (S i) full = l) by (by rewrite (drop_S _ _ _ Hx) in Hd; injection Hd).
  cbn [max_by]. rewrite Hk by (by eapply list_elem_of_lookup_2). cbn [mbind result_bind].
  destruct (py_lt (k b) (k x)) eqn:Hlt.
  - apply (IH (S i) (i, x) Hk Hd' Hx). cbn [snd]. intros y Hy. rewrite (take_S_r _ _ _ Hx) in Hy.
    apply elem_of_app in Hy as [Hy|Hy%list_elem_of_singleton]; [|subst; apply py_lt_irrefl].
    destruct (py_lt (k x) (k y)) eqn:E; [|done]. pose proof (Hmax y Hy) as Hm. by rewrite (py_lt_trans _ _ _ Hlt E) in Hm.
  - apply (IH (S i) (j, b) Hk Hd' Hb). cbn [snd]. intros y Hy. rewrite (take_S_r _ _ _ Hx) in Hy.
    apply elem_of_app in Hy as [Hy|Hy%list_elem_of_singleton]; [by apply Hmax|by subst].
Qed.

Lemma remove_index {A} (l : list A) i x : l !! i = Some x → l ≡ₚ x :: take i l ++ drop (S i) l.
Proof. intros Hi. rewrite <-(take_drop_middle _ _ _ Hi) at 1. symmetry. apply Permutation_middle. Qed.

Lemma py_max_ok {A K} `{PyOrdLaws K} (key : A → result K) (k : A → K) l :
  l ≠ [] → (∀ x, x ∈ l → key x = Ok (k x)) →
  ∃ j x, py_max key l = Ok (j, x) ∧ l !! j = Some x ∧ ∀ y, y ∈ l → py_lt (k x) (k y) = false.
Proof.
  intros Hne Hk. destruct l as [|a l]; [done|]. cbn [py_max]. rewrite Hk by left. cbn [mbind result_bind].
  apply (max_by_ok key k (a :: l) l 1 (0%nat, a)); [done|done|done|].
  intros x Hx%list_elem_of_singleton. subst. apply py_lt_irrefl.
Qed.

Lemma validated_ok r r' : _set_or_validate_priority config r = Some r' → rid r' = rid r ∧ (qc_priority_scheduling config = true → has_priority r').
Proof.
  unfold _set_or_validate_priority, has_priority. destruct (req_priority (base r)) eqn:E; destruct (qc_priority_scheduling config); cbn [negb andb].
  - intros [= <-]. rewrite E. done.
  - destruct (abort_on_priority_when_disabled config); [done|]. intros [= <-]. done.
  - intros [= <-]. done.
  - intros [= <-]. done.
Qed.

(** The order in which requests leave a full queue: by rank, then the later one. *)
Definition least_preferred (waiting : list QReq) (x : QReq) : Prop :=
  ∀ y, y ∈ waiting → rank y < rank x ∨ rank y = rank x ∧ wait_queue_entry_time y ≤ wait_queue_entry_time x.

(** Whether the queue is full decides; with priorities the least preferred request goes. *)
Lemma abort_on_queued_limit_ok r waiting :
  queue_ok waiting → within_limit waiting → (qc_priority_scheduling config = true → has_priority r) →
  ∃ l out, _abort_on_queued_limit config r waiting = Ok (l, out) ∧
    match out with
    | None => l = waiting ∧ within_limit (waiting ++ [r])
    | Some x => ¬ within_limit (waiting ++ [r]) ∧
        (x = r ∧ l = waiting ∧ (qc_priority_scheduling config = false ∨ ∀ y, y ∈ waiting → rank y ≤ rank r) ∨
         ∃ i, waiting !! i = Some x ∧ l = take i waiting ++ drop (S i) waiting ∧ rank r < rank x ∧ qc_priority_scheduling config = true ∧ least_preferred waiting x)
    end.
Proof.
  intros [Hp Hz] Hlim Hr. unfold _abort_on_queued_limit, within_limit in *. destruct (max_queued_requests config) as [m|]; [|by do 2 eexists].
  rewrite length_app. simpl length. case_bool_decide as Hm; [by do 2 eexists|].
  destruct (qc_priority_scheduling config); [|do 2 eexists; split; [done|]; split; [done|]; left; by auto].
  destruct (py_max_ok (fun x => do! p <- priority_or_raise x; Ok ((if qc_low_first config then 1 else -1) * p, wait_queue_entry_time x))
    (fun x => (rank x, wait_queue_entry_time x)) waiting) as (i & c & -> & Hi & Hmax).
  { intros ->. simpl in *. destruct m; [done|lia]. }
  { intros x Hx. specialize (Hp eq_refl). rewrite Forall_forall in Hp. by rewrite priority_or_raise_ok by (by apply Hp). }
  assert (Hle : least_preferred waiting c).
  { intros y Hy. specialize (Hmax y Hy). unfold py_lt, pair_ord in Hmax. cbn [fst snd] in Hmax. apply orb_false_iff in Hmax as [Hmax Hmax'].
    unfold py_lt, Z_ord in Hmax, Hmax'. apply Z.ltb_ge in Hmax. apply andb_false_iff in Hmax' as [Hm'|Hm'].
    - apply negb_false_iff, Z.ltb_lt in Hm'. by left.
    - apply Z.ltb_ge in Hm'. lia. }
  cbn [mbind result_bind]. rewrite (priority_or_raise_ok r) by (by apply Hr). cbn [mbind result_bind].
  rewrite priority_or_raise_ok by (specialize (Hp eq_refl); rewrite Forall_forall in Hp; apply Hp; by eapply list_elem_of_lookup_2).
  cbn [mbind result_bind]. case_bool_decide as Hd; do 2 eexists; (split; [done|]); (split; [done|]).
  - right. by exists i.
  - left. do 2 (split; [done|]). right. intros y Hy. specialize (Hle y Hy). unfold rank in *. lia.
Qed.

Lemma least_rank waiting x y : least_preferred waiting x → y ∈ waiting → rank y ≤ rank x.
Proof. intros H Hy. specialize (H y Hy). lia. Qed.

(** Properties that the time stamp and the default priority do not touch. *)
Definition queue_prop (Q : QReq → Prop) : Prop := (∀ r t, Q r → Q (set_entry_time t r)) ∧ (∀ r p, Q r → Q (set_priority p r)).

(** What happens when a request joins the queue. *)
Record joined (r : QReq) (waiting waiting' aborted : list QReq) : Prop := {
  jo_queue : queue_ok waiting';
  jo_limit : within_limit waiting';
  jo_all : rid <$> waiting' ++ aborted ≡ₚ rid <$> r :: waiting;
  jo_one : (length aborted ≤ 1)%nat;
  jo_rank : qc_priority_scheduling config = true → ∀ x y, x ∈ aborted → y ∈ waiting' → rank y ≤ rank x;
  jo_order : ∃ r', rid r' = rid r ∧ waiting' `sublist_of` waiting ++ [r'];
  jo_keep : ∀ Q, queue_prop Q → Q r → Forall Q waiting → Forall Q waiting';
}.

Lemma validated_keep r r' Q : queue_prop Q → _set_or_validate_priority config r = Some r' → Q r → Q r'.
Proof.
  intros [_ HQ]. unfold _set_or_validate_priority. destruct (req_priority (base r)), (qc_priority_scheduling config); cbn [negb andb];
    [|destruct (abort_on_priority_when_disabled config); [done|]|..]; intros [= <-] Hr; try done. by apply HQ.
Qed.

Lemma add_request_ok now r waiting :
  queue_ok waiting → within_limit waiting → rid r ∉ rid <$> waiting →
  ∃ waiting' aborted, _add_request_to_queue config now r waiting = Ok (waiting', aborted) ∧ joined r waiting waiting' aborted.
Proof.
  intros Hq Hl Hid. unfold _add_request_to_queue. destruct (_set_or_validate_priority config r) as [v|] eqn:Hv.
  2: { do 2 eexists. split; [done|]. split; [done|done| |simpl; lia| |exists r; split; [done|by apply sublist_inserts_r]|done].
       - rewrite fmap_app, fmap_cons. symmetry. apply Permutation_cons_append.
       - intros Hp. unfold _set_or_validate_priority in Hv. rewrite Hp in Hv. by destruct (req_priority _). }
  destruct (validated_ok r v Hv) as [Hvid Hvp].
  destruct (abort_on_queued_limit_ok v waiting Hq Hl Hvp) as (l & out & -> & Hout). cbn [mbind result_bind].
  assert (Hjoin : ∀ l, l `sublist_of` waiting → (qc_priority_scheduling config = true → Forall has_priority l) →
            queue_ok (l ++ [set_entry_time now v])).
  { intros l' _ Hpl. split; [|apply Hq]. intros Hp. apply Forall_app. split; [by apply Hpl|]. repeat constructor. by apply Hvp. }
  destruct out as [x|].
  - destruct Hout as [_ [(-> & -> & Hwhy)|(i & Hi & -> & Hlt & Hsched & Hleast)]].
    + assert (Hrank : qc_priority_scheduling config = true → ∀ y, y ∈ waiting → rank y ≤ rank v) by (destruct Hwhy as [Hwhy|Hwhy]; [rewrite Hwhy|]; done). rewrite bool_decide_eq_true_2 by done. do 2 eexists. split; [done|]. split; [done|done| |simpl; lia| | |done].
      * rewrite fmap_app, fmap_cons. simpl. rewrite Hvid. symmetry. apply Permutation_cons_append.
      * intros Hp x y ->%list_elem_of_singleton Hy. by apply Hrank.
      * exists r. split; [done|by apply sublist_inserts_r].
    + pose proof (remove_index waiting i x Hi) as Hperm.
      assert (Hrank : ∀ y, y ∈ take i waiting ++ drop (S i) waiting → rank y ≤ rank x)
        by (intros y Hy; eapply least_rank; [exact Hleast|]; rewrite Hperm; by right). rewrite bool_decide_eq_false_2.
      2: { simpl. intros [= Hx]. apply Hid. rewrite <-Hvid, <-Hx. apply list_elem_of_fmap_2. by eapply list_elem_of_lookup_2. }
      assert (Hsub : take i waiting ++ drop (S i) waiting `sublist_of` waiting).
      { rewrite <-(take_drop_middle _ _ _ Hi) at 3. apply sublist_app; [done|]. by apply sublist_cons. }
      do 2 eexists. split; [done|]. split.
      * apply Hjoin; [done|]. intros Hp. destruct Hq as [Hq _]. specialize (Hq Hp). rewrite Hperm in Hq. by apply Forall_cons in Hq as [_ ?].
      * unfold within_limit in *. destruct (max_queued_requests config); [|done]. apply Permutation_length in Hperm.
        rewrite length_app. simpl in *. lia.
      * rewrite fmap_cons. etrans; [|apply perm_skip; symmetry; exact (fmap_Permutation rid _ _ Hperm)].
        rewrite !fmap_cons, !fmap_app. simpl. rewrite Hvid. solve_Permutation.
      * simpl. lia.
      * intros Hp z y ->%list_elem_of_singleton [Hy|Hy]%elem_of_app; [by apply Hrank|]. apply list_elem_of_singleton in Hy as ->.
        change (rank v ≤ rank x). lia.
      * exists (set_entry_time now v). split; [done|]. by apply sublist_app.
      * intros Q HQ Hr Hw. apply Forall_app. split; [|constructor; [apply HQ; by eapply validated_keep|constructor]].
        rewrite Hperm in Hw. by apply Forall_cons in Hw as [_ ?].
  - destruct Hout as [-> Hlim]. rewrite bool_decide_eq_false_2 by done. do 2 eexists. split; [done|]. split.
    + apply Hjoin; [done|]. apply Hq.
    + unfold within_limit in *. destruct (max_queued_requests config); [|done]. rewrite length_app in *. done.
    + simpl. rewrite app_nil_r, fmap_app. simpl. rewrite Hvid. symmetry. apply Permutation_cons_append.
    + simpl. lia.
    + intros _ x y []%not_elem_of_nil.
    + by exists (set_entry_time now v).
    + intros Q HQ Hr Hw. apply Forall_app. split; [done|]. constructor; [apply HQ; by eapply validated_keep|constructor].
Qed.

(** A priority given to a server that does not schedule by priority and is told to refuse it. *)
Definition refuses (r : QReq) : Prop :=
  qc_priority_scheduling config = false ∧ abort_on_priority_when_disabled config = true ∧ has_priority r.

(** The request with the priority it is given when it has none. *)
Definition ranked (r : QReq) : QReq :=
  if qc_priority_scheduling config then
    match req_priority (base r) with None => set_priority (if qc_low_first config then sys_maxsize else - sys_maxsize - 1) r | Some _ => r end
  else r.

(** The queue and the aborted requests after [r] asked to join. *)
Inductive queueing (now : Z) (r : QReq) (waiting : list QReq) : list QReq → list QReq → Prop :=
  | qu_refused : refuses r → queueing now r waiting waiting [r]
  | qu_room : ¬ refuses r → within_limit (waiting ++ [r]) → queueing now r waiting (waiting ++ [set_entry_time now (ranked r)]) []
  | qu_full : ¬ refuses r → ¬ within_limit (waiting ++ [r]) →
      (qc_priority_scheduling config = false ∨ ∀ y, y ∈ waiting → rank y ≤ rank (ranked r)) → queueing now r waiting waiting [ranked r]
  | qu_displaces i x : ¬ refuses r → ¬ within_limit (waiting ++ [r]) → qc_priority_scheduling config = true →
      waiting !! i = Some x → least_preferred waiting x → rank (ranked r) < rank x →
      queueing now r waiting ((take i waiting ++ drop (S i) waiting) ++ [set_entry_time now (ranked r)]) [x].

Lemma validated_cases r :
  match _set_or_validate_priority config r with None => refuses r | Some v => ¬ refuses r ∧ v = ranked r end.
Proof.
  unfold _set_or_validate_priority, refuses, ranked, has_priority.
  destruct (req_priority (base r)), (qc_priority_scheduling config), (abort_on_priority_when_disabled config); cbn; naive_solver.
Qed.

Lemma within_limit_length l k : length l = length k → within_limit l → within_limit k.
Proof. unfold within_limit. by intros ->. Qed.

Lemma queueing_ok now r waiting :
  queue_ok waiting → within_limit waiting → rid r ∉ rid <$> waiting →
  ∃ waiting' aborted, _add_request_to_queue config now r waiting = Ok (waiting', aborted) ∧ queueing now r waiting waiting' aborted.
Proof.
  intros Hq Hl Hid. unfold _add_request_to_queue. pose proof (validated_cases r) as Hv. pose proof (validated_ok r) as Hvo.
  destruct (_set_or_validate_priority config r) as [v|] eqn:Ev; [|by do 2 eexists; split; [|apply qu_refused]].
  destruct Hv as [Hacc ->]. destruct (Hvo _ eq_refl) as [Hvid Hvp].
  assert (Hlim : ∀ v, within_limit (waiting ++ [r]) ↔ within_limit (waiting ++ [v])) by (intros v; split; apply within_limit_length; by rewrite !length_app).
  destruct (abort_on_queued_limit_ok (ranked r) waiting Hq Hl Hvp) as (l & out & -> & Hout). cbn [mbind result_bind].
  destruct out as [x|]; [destruct Hout as [Hfull [(-> & -> & Hwhy)|(i & Hi & -> & Hlt & Hsched & Hleast)]]|destruct Hout as [-> Hroom]].
  - rewrite bool_decide_eq_true_2 by done. do 2 eexists. split; [done|]. apply qu_full; [done|by rewrite (Hlim (ranked r))|done].
  - rewrite bool_decide_eq_false_2.
    2: { simpl. intros [= Hx]. apply Hid. rewrite <-Hvid, <-Hx. apply list_elem_of_fmap_2. by eapply list_elem_of_lookup_2. }
    do 2 eexists. split; [done|]. apply (qu_displaces _ _ _ i x); try done. by rewrite (Hlim (ranked r)).
  - rewrite bool_decide_eq_false_2 by done. do 2 eexists. split; [done|]. apply qu_room; [done|]. by rewrite (Hlim (ranked r)).
Qed.

(** C25: What happens to a request with a name of its own that joins the waiting queue.  It is refused
    and reported exactly when it carries a priority, priorities are not scheduled and the
    server is told to refuse them.  Otherwise it gets the worst priority if it has none and
    priorities are scheduled, and: while the queue has room it is appended with its time of
    entry and nobody is aborted; when the queue is at its limit, it is aborted itself if priorities are
    not scheduled or nobody waiting ranks behind it, else the least preferred
    request (the worst rank, of those the latest) is aborted and the new one is appended.  The queue
    never exceeds its limit, and everyone is queued or reported. *)
Theorem add_request_spec now r waiting :
  queue_ok waiting → within_limit waiting → rid r ∉ rid <$> waiting →
  ∃ waiting' aborted, _add_request_to_queue config now r waiting = Ok (waiting', aborted) ∧ queueing now r waiting waiting' aborted ∧
    within_limit waiting' ∧ rid <$> waiting' ++ aborted ≡ₚ rid <$> r :: waiting.
Proof.
  intros Hq Hl Hid. destruct (queueing_ok now r waiting Hq Hl Hid) as (l & ab & E & Hqu).
  destruct (add_request_ok now r waiting Hq Hl Hid) as (l' & ab' & E' & J). rewrite E in E'. injection E' as <- <-.
  exists l, ab. split; [done|]. split; [done|]. split; apply J.
Qed.

Lemma requeue_ok clock reqs : ∀ i waiting,
  queue_ok waiting → within_limit waiting → NoDup (rid <$> reqs ++ waiting) →
  ∃ waiting' aborted, requeue config clock i reqs waiting = Ok (waiting', aborted) ∧ queue_ok waiting' ∧ within_limit waiting' ∧
    rid <$> waiting' ++ aborted ≡ₚ rid <$> reqs ++ waiting ∧
    ∀ Q, queue_prop Q → Forall Q reqs → Forall Q waiting → Forall Q waiting'.
Proof.
  induction reqs as [|r reqs IH]; intros i waiting Hq Hl Hnd.
  { exists waiting, []. rewrite app_nil_r. by split_and!. }
  cbn [app] in Hnd. rewrite fmap_cons in Hnd. apply NoDup_cons in Hnd as [Hr Hnd]. rewrite fmap_app, not_elem_of_app in Hr. destruct Hr as [Hr1 Hr2].
  destruct (add_request_ok (clock i) r waiting Hq Hl Hr2) as (w1 & ab1 & E1 & J). cbn [requeue]. rewrite E1. cbn [mbind result_bind fst snd].
  pose proof (jo_all _ _ _ _ J) as Hall. rewrite fmap_app, fmap_cons in Hall.
  destruct (IH (S i) w1 (jo_queue _ _ _ _ J) (jo_limit _ _ _ _ J)) as (w2 & ab2 & -> & Hq2 & Hl2 & Hall2 & Hkeep2).
  { rewrite fmap_app in Hnd |- *. apply NoDup_app in Hnd as (N1 & N2 & N3).
    assert (N4 : NoDup (rid r :: (rid <$> waiting))) by (by constructor). rewrite <-Hall in N4.
    apply NoDup_app in N4 as (N4 & _). apply NoDup_app. split; [done|]. split; [|done].
    intros x Hx Hx1. assert (x ∈ rid r :: (rid <$> waiting)) as [->|Hw]%elem_of_cons by (rewrite <-Hall, elem_of_app; by left); [done|].
    exact (N2 x Hx Hw). }
  cbn [mbind result_bind fst snd]. do 2 eexists. split; [done|]. split; [done|]. split; [done|]. split.
  2: { intros Q HQ [Hr Hrs]%Forall_cons Hw. apply Hkeep2; try done. by apply (jo_keep _ _ _ _ J). }
  rewrite (Permutation_app_comm ab1), app_assoc, fmap_app, Hall2, fmap_app, <-app_assoc, Hall. cbn [app]. rewrite fmap_cons, fmap_app.
  symmetry. apply Permutation_middle.
Qed.

End queue.

(** * Decode steps have memory *)

Section decode_laws.
Context {T : Type} {PC : PrefixCache T} {LC : LockCache T} {PL : PrefixCacheLaws T false}.
Context (steps : Z) (uninit : Z → list Z) (config : QueueConfig).

#[local] Notation check := (check_decode_mem NoSpec 1).
#[local] Notation retract := (retract_decode NoSpec 1 steps false).
#[local] Notation loop := (retract_loop NoSpec 1 steps false).

Lemma required_one reqs : new_tokens_required_next_decode NoSpec 1 reqs = lenZ reqs.
Proof.
  cbn. rewrite filter_all; [unfold lenZ; lia|]. apply Forall_true. intros r. cbn beta. apply (Nat.mod_1_r (kv_committed_len (base r))).
Qed.

(** The check is exact: it evicts what it needs and fails only when even that is not enough. *)
Lemma check_ok N w rs reqs :
  sys_inv N w rs →
  ∃ w', check reqs w = Ok (w', bool_decide (lenZ reqs ≤ available_size (kv w) + evictable (tree w))) ∧ sys_inv N w' rs ∧ pool w' = pool w ∧
    available_size (kv w') + evictable (tree w') = available_size (kv w) + evictable (tree w).
Proof.
  intros Hs. unfold check_decode_mem. rewrite required_one.
  destruct (evict_room N w rs (lenZ reqs) Hs) as (w' & -> & Hs' & Hp & Hsum & Hor). cbn [mbind result_bind].
  exists w'. split; [|done]. do 2 f_equal. pose proof (evictable_pos (tree w') _ (si_cache _ _ _ Hs')).
  apply bool_decide_ext. destruct Hor; lia.
Qed.

(** A request that runs. *)
Definition in_flight (r : QReq) : Prop := req_pool_idx (base r) ≠ None.

Lemma retracted_rids (l : list QReq) : rid <$> (retracted_req <$> l) = rid <$> l.
Proof. rewrite <-list_fmap_compose. by apply list_fmap_ext. Qed.

(** The loop gives up requests from the top of the stack, at least one remains. *)
Lemma retract_loop_ok N os stack : ∀ first out w,
  stack ≠ [] → sys_inv N w ((base <$> stack) ++ os) → Forall in_flight stack →
  ∃ w' gone keep, loop first stack out w = Ok (w', keep, out ++ (retracted_req <$> gone)) ∧ stack = gone ++ keep ∧ keep ≠ [] ∧
    sys_inv N w' ((base <$> keep) ++ os) ∧ max_context_len (pool w') = max_context_len (pool w) ∧
    (length keep = 1%nat ∨ lenZ keep ≤ available_size (kv w') + evictable (tree w')).
Proof.
  induction stack as [|r rest IH]; intros first out w Hne Hs Hin; [done|]. cbn [retract_loop].
  assert (∃ w1 b, (if first then Ok (w, false) else check (reverse (r :: rest)) w) = Ok (w1, b) ∧ sys_inv N w1 ((base <$> r :: rest) ++ os) ∧
    max_context_len (pool w1) = max_context_len (pool w) ∧
    (b = true → lenZ (r :: rest) ≤ available_size (kv w1) + evictable (tree w1))) as (w1 & b & -> & Hs1 & Hctx & Hb).
  { destruct first; [by exists w, false|]. destruct (check_ok N w _ (reverse (r :: rest)) Hs) as (w1 & -> & Hs1 & Hp & Hsum).
    do 2 eexists. split; [done|]. split; [done|]. split; [by rewrite Hp|]. rewrite bool_decide_eq_true. unfold lenZ in *. rewrite length_reverse. lia. }
  cbn [mbind result_bind]. destruct b.
  { exists w1, [], (r :: rest). rewrite app_nil_r. split_and!; try done. right. by apply Hb. }
  destruct rest as [|r2 rest].
  { exists w1, [], [r]. rewrite app_nil_r. split_and!; try done. by left. }
  apply Forall_cons in Hin as [Hr Hin]. rewrite fmap_cons in Hs1. cbn [app] in Hs1.
  destruct (release_req_ok steps N w1 r ((base <$> r2 :: rest) ++ os) (lenZ (r2 :: rest)) Hs1 Hr) as (w2 & E & Hs2 & Hctx2).
  cbn [negb is_spec]. change (Z.of_nat 1) with 1. rewrite E. cbn [mbind result_bind fst snd].
  destruct (IH false (out ++ [retracted_req r]) w2 ltac:(done) Hs2 Hin) as (w3 & gone & keep & E3 & Heq & Hk & Hs3 & Hctx3 & Hroom).
  exists w3, (r :: gone), keep. split; [by rewrite E3, fmap_cons, <-app_assoc|]. rewrite Heq. split_and!; try done. congruence.
Qed.

(** ** The estimate *)

Lemma q_min_cases x y : (q_min x y <= x)%Q ∧ (q_min x y <= y)%Q ∧ (q_min x y = x ∨ q_min x y = y).
Proof. unfold q_min, Qlt_b. destruct (Qlt_le_dec y x); split_and!; try lra; auto. Qed.

Lemma q_max_cases x y : (x <= q_max x y)%Q ∧ (y <= q_max x y)%Q ∧ (q_max x y = x ∨ q_max x y = y).
Proof. unfold q_max, Qlt_b. destruct (Qlt_le_dec x y); split_and!; try lra; auto. Qed.

Lemma ratio_estimate_ok l :
  0 ≤ steps → Forall (fun r => 0 ≤ max_new_tokens r) l →
  ∃ x, estimate_new_token_ratio_after_retract steps l = Ok x ∧ (0 <= x <= 1)%Q.
Proof.
  intros Hst Hl. unfold estimate_new_token_ratio_after_retract, true_div.
  assert (0 ≤ sumZ (max_new_tokens <$> l)) by (apply sumZ_nonneg, Forall_fmap; exact Hl).
  assert (0 ≤ sumZ (output_len <$> l)) by (apply sumZ_nonneg, Forall_fmap, Forall_true; intros r; cbn; unfold output_len; lia).
  rewrite bool_decide_eq_false_2 by lia. cbn [mbind result_bind]. eexists. split; [done|].
  set (x := (_ / _)%Q). assert (0 <= x)%Q.
  { unfold x. apply Qle_shift_div_l; [change 0%Q with (inject_Z 0); rewrite <-Zlt_Qlt; lia|].
    rewrite Qmult_0_l. change 0%Q with (inject_Z 0). rewrite <-Zle_Qle. unfold lenZ. nia. }
  destruct (q_min_cases 1 x) as (Hmin & _ & [->|Heq]); [lra|rewrite Heq in *; lra].
Qed.

(** ** Retraction *)

(** The batch and the requests that were given up. *)
Record retraction (N : Z) (os : list Req) (w : World T) (reqs : list QReq) (rt : Retraction (T := T)) (gone lost : list QReq) : Prop := {
  re_all : rt_reqs rt ++ gone ++ lost ≡ₚ reqs;
  re_retracted : rt_retracted rt = retracted_req <$> gone;
  re_aborted : rt_aborted rt = retracted_req <$> lost;
  re_last : lost = [] ∨ rt_reqs rt = [] ∧ length lost = 1%nat;
  re_weakest : ∀ g k, g ∈ gone → k ∈ rt_reqs rt ++ lost → py_lt (retract_key g) (retract_key k) = false;
  re_sys : sys_inv N (rt_world rt) ((base <$> rt_reqs rt) ++ os);
  re_ctx : max_context_len (pool (rt_world rt)) = max_context_len (pool w);
  re_room : rt_reqs rt = [] ∨ lenZ (rt_reqs rt) ≤ available_size (kv (rt_world rt)) + evictable (tree (rt_world rt));
  re_ratio : (0 <= rt_ratio rt <= 1)%Q;
}.

Lemma filter_keep_perm (keep others reqs : list QReq) : keep ++ others ≡ₚ reqs → filter_keep keep reqs ≡ₚ keep.
Proof.
  intros Hp. unfold filter_keep. case_bool_decide as Hl; [|done]. pose proof (Permutation_length Hp) as Hlen. rewrite length_app in Hlen.
  destruct others; [by rewrite <-Hp, app_nil_r|simpl in Hlen; lia].
Qed.

Lemma abort_last_ok N os w keep :
  keep ≠ [] → sys_inv N w ((base <$> keep) ++ os) → Forall in_flight keep →
  (length keep = 1%nat ∨ lenZ keep ≤ available_size (kv w) + evictable (tree w)) →
  ∃ w' keep' lost, abort_last NoSpec 1 steps false keep w = Ok (w', keep', retracted_req <$> lost) ∧
    keep = lost ++ keep' ∧ (lost = [] ∨ keep' = [] ∧ length lost = 1%nat) ∧
    sys_inv N w' ((base <$> keep') ++ os) ∧ max_context_len (pool w') = max_context_len (pool w) ∧
    (keep' = [] ∨ lenZ keep' ≤ available_size (kv w') + evictable (tree w')).
Proof.
  intros Hne Hs Hin Hroom. unfold abort_last. case_bool_decide as Hl.
  2: { cbn [mbind result_bind]. exists w, keep, []. split_and!; try done; [by left|]. right. destruct Hroom; lia. }
  destruct keep as [|r [|r2 l]]; [done| |simpl in Hl; lia].
  destruct (check_ok N w _ (reverse [r]) Hs) as (w1 & -> & Hs1 & Hp & Hsum). cbn [mbind result_bind]. case_bool_decide as Hd.
  - exists w1, [r], []. split_and!; try done; [by left|by rewrite Hp|]. right. unfold lenZ in *. rewrite length_reverse in Hd. lia.
  - apply Forall_cons in Hin as [Hr _]. destruct (release_req_ok steps N w1 r os 0 Hs1 Hr) as (w2 & E & Hs2 & Hctx).
    cbn [negb is_spec]. change (Z.of_nat 1) with 1. rewrite E.
    cbn [mbind result_bind fst snd]. exists w2, [], [r]. split_and!; try done; [by right|by rewrite Hctx, Hp|by left].
Qed.

Lemma retract_decode_ok N os reqs w :
  0 ≤ steps → reqs ≠ [] → sys_inv N w ((base <$> reqs) ++ os) → Forall in_flight reqs → Forall (fun r => 0 ≤ max_new_tokens r) reqs →
  ∃ rt gone lost, retract reqs w = Ok rt ∧ retraction N os w reqs rt gone lost.
Proof.
  intros Hst Hne Hs Hin Hmax. unfold retract_decode, retract_order. cbn [is_spec negb].
  set (order := py_sort retract_key reqs). assert (Hperm : reverse order ≡ₚ reqs) by (rewrite reverse_Permutation; exact (py_sort_perm retract_key reqs)).
  assert (Hs0 : sys_inv N w ((base <$> reverse order) ++ os)) by (eapply sys_inv_perm; [|exact Hs]; by rewrite Hperm).
  destruct (retract_loop_ok N os (reverse order) true [] w) as (w1 & gone & keep & -> & Heq & Hk & Hs1 & Hctx1 & Hroom1);
    [intros E; rewrite E in Hperm; by apply Permutation_nil_l in Hperm|done|by rewrite Hperm|].
  cbn [mbind result_bind app].
  assert (Hin1 : Forall in_flight keep) by (rewrite <-Hperm, Heq in Hin; by apply Forall_app in Hin as [_ ?]).
  destruct (abort_last_ok N os w1 keep Hk Hs1 Hin1 Hroom1) as (w2 & keep2 & lost & -> & -> & Hlost & Hs2 & Hctx2 & Hroom2).
  cbn [mbind result_bind]. rewrite Heq in Hperm.
  assert (Hall : reverse keep2 ++ gone ++ lost ≡ₚ reqs) by (rewrite <-Hperm, reverse_Permutation; solve_Permutation).
  pose proof (filter_keep_perm _ _ _ Hall) as Hfk. set (fk := filter_keep _ _) in *. rewrite reverse_Permutation in Hfk.
  destruct (ratio_estimate_ok fk Hst) as (x & -> & Hx).
  { rewrite Hfk. rewrite <-Hperm in Hmax. apply Forall_app in Hmax as [_ Hmax]. by apply Forall_app in Hmax as [_ ?]. }
  cbn [mbind result_bind]. do 3 eexists. split; [done|]. split; cbn [rt_reqs rt_retracted rt_aborted rt_world rt_ratio]; try done.
  - by rewrite Hfk, <-Hperm; solve_Permutation.
  - destruct Hlost as [Hl|[-> Hl]]; [by left|right]. split; [|done]. by apply Permutation_nil_r in Hfk.
  - intros g k Hg Hkk. pose proof (py_sort_order retract_key reqs : in_order retract_key order) as Hord.
    assert (order = reverse (lost ++ keep2) ++ reverse gone) as Ho by (by rewrite <-reverse_app, <-Heq, reverse_involutive).
    unfold in_order in Hord. rewrite Ho in Hord. refine (StronglySorted_app_1_elem_of _ _ _ k g Hord _ _).
    + rewrite elem_of_reverse, elem_of_app. rewrite elem_of_app, Hfk in Hkk. tauto.
    + by rewrite elem_of_reverse.
  - eapply sys_inv_perm; [|exact Hs2]. by rewrite Hfk.
  - congruence.
  - destruct Hroom2 as [->|Hr]; [left; by apply Permutation_nil_r in Hfk|right]. unfold lenZ in *. by rewrite Hfk.
Qed.

(** ** The step *)

(** A request that can decode: it has a row, a token to compute and room in the row. *)
Definition decodes (p : ReqToTokenPool) (r : QReq) : Prop := decode_ready p (base r) ∧ 0 ≤ max_new_tokens r.

Definition decoded_q (r : QReq) : QReq := set_base (decoded (base r)) r.

(** The ratios of the tracker are not negative. *)
Definition tracker_ok (t : NewTokenRatioTracker) : Prop := (0 <= ratio_init t ∧ 0 <= ratio_min t ∧ 0 <= ratio_current t)%Q.

Lemma decay_ok t : tracker_ok t → tracker_ok (decay_step t).
Proof.
  intros (H1 & H2 & H3). unfold tracker_ok, decay_step, set_current. cbn [ratio_init ratio_min ratio_current]. split; [done|]. split; [done|].
  destruct (q_max_cases (ratio_current t - ratio_decay t) (ratio_min t)) as (_ & Hm & _). lra.
Qed.

(** The state with room for a step of the requests that are kept. *)
Record roomy (N : Z) (os : list Req) (reqs : list QReq) (s x : Running (T := T)) (gone lost : list QReq) : Prop := {
  ro_all : ru_reqs x ++ gone ++ lost ≡ₚ reqs;
  ro_last : lost = [] ∨ ru_reqs x = [] ∧ length lost = 1%nat;
  ro_weakest : ∀ g k, g ∈ gone → k ∈ ru_reqs x ++ lost → py_lt (retract_key g) (retract_key k) = false;
  ro_queue : rid <$> ru_waiting x ++ ru_aborted x ≡ₚ rid <$> gone ++ lost ++ ru_waiting s;
  ro_limit : queue_ok config (ru_waiting x) ∧ within_limit config (ru_waiting x);
  ro_sys : sys_inv N (ru_world x) ((base <$> ru_reqs x) ++ os);
  ro_ctx : max_context_len (pool (ru_world x)) = max_context_len (pool (ru_world s));
  ro_keep : ∀ Q, queue_prop Q → Forall (fun r => Q (retracted_req r)) reqs → Forall Q (ru_waiting s) → Forall Q (ru_waiting x);
  ro_tracker : tracker_ok (ru_tracker s) → tracker_ok (ru_tracker x);
  ro_room : ru_reqs x = [] ∨ lenZ (ru_reqs x) ≤ available_size (kv (ru_world x)) + evictable (tree (ru_world x));
}.

Lemma make_room_ok N os test clock reqs s :
  0 ≤ steps → reqs ≠ [] → sys_inv N (ru_world s) ((base <$> reqs) ++ os) → Forall (decodes (pool (ru_world s))) reqs →
  queue_ok config (ru_waiting s) → within_limit config (ru_waiting s) → NoDup (rid <$> reqs ++ ru_waiting s) →
  ∃ x gone lost, make_room NoSpec 1 steps false config test clock reqs s = Ok x ∧ roomy N os reqs s x gone lost.
Proof.
  intros Hst Hne Hs Hre Hq Hl Hnd. unfold make_room.
  destruct (check_ok N (ru_world s) _ reqs Hs) as (w & -> & Hs1 & Hp & Hsum). cbn [mbind result_bind].
  destruct (negb _ || test) eqn:Hgo.
  2: { apply orb_false_iff in Hgo as [Hgo%negb_false_iff%bool_decide_eq_true _]. do 3 eexists. split; [done|].
       split; cbn [ru_reqs ru_waiting ru_aborted ru_world]; rewrite ?app_nil_r; try done; [by left|by intros ? ? []%not_elem_of_nil|by rewrite Hp|by apply decay_ok|right; lia]. }
  destruct (retract_decode_ok N os reqs w Hst Hne Hs1) as (rt & gone & lost & -> & R).
  { eapply Forall_impl; [exact Hre|]. by intros r [(? & _) _]. }
  { eapply Forall_impl; [exact Hre|]. by intros r [_ ?]. }
  cbn [mbind result_bind].
  destruct (requeue_ok config clock (rt_retracted rt) 0 (ru_waiting s) Hq Hl) as (q & ab & -> & Hq' & Hl' & Hall & Hkeep).
  { rewrite fmap_app in Hnd |- *. rewrite (re_retracted _ _ _ _ _ _ _ R), retracted_rids. rewrite <-(re_all _ _ _ _ _ _ _ R), !fmap_app in Hnd.
    rewrite <-!app_assoc in Hnd. apply NoDup_app in Hnd as (_ & _ & Hnd). rewrite (Permutation_app_swap_app (rid <$> gone)) in Hnd.
    by apply NoDup_app in Hnd as (_ & _ & ?). }
  cbn [mbind result_bind fst snd]. exists (mkRunning (rt_world rt) (rt_reqs rt) (ru_full s) (set_current (rt_ratio rt) (ru_tracker s)) q (rt_aborted rt ++ ab) None), gone, lost.
  split; [done|]. destruct R as [R1 R2 R3 R4 R5 R6 R7 R8 R9]. split; cbn [ru_reqs ru_waiting ru_aborted ru_world ru_tracker]; try done; [|by rewrite R7, Hp| |].
  2: { intros Q HQ Hre' Hw. apply Hkeep; try done. rewrite R2. apply Forall_fmap. rewrite <-R1 in Hre'.
       apply Forall_app in Hre' as [_ Hre']. by apply Forall_app in Hre' as [? _]. }
  2: { intros (? & ? & ?). split_and!; try done. apply R9. }
  rewrite R3. rewrite R2, !fmap_app, retracted_rids in Hall. rewrite !fmap_app, retracted_rids.
  rewrite (app_assoc (rid <$> q)), (Permutation_app_comm (rid <$> q)), <-app_assoc, Hall. solve_Permutation.
Qed.

(** After the step: the requests that are kept have decoded. *)
Lemma update_running_ok N os test clock s :
  let reqs := filter (fun r => finished r = false) (ru_reqs s) in
  0 ≤ steps → sys_inv N (ru_world s) ((base <$> reqs) ++ os) → Forall (decodes (pool (ru_world s))) reqs →
  queue_ok config (ru_waiting s) → within_limit config (ru_waiting s) → NoDup (rid <$> reqs ++ ru_waiting s) →
  ∃ s' x gone lost,
    update_running_batch NoSpec 1 steps false uninit config test clock s = Ok s' ∧ roomy N os reqs s x gone lost ∧
    ru_reqs s' = decoded_q <$> ru_reqs x ∧ ru_waiting s' = ru_waiting x ∧ ru_aborted s' = ru_aborted x ∧ ru_tracker s' = ru_tracker x ∧
    sys_inv N (ru_world s') ((base <$> ru_reqs s') ++ os) ∧ max_context_len (pool (ru_world s')) = max_context_len (pool (ru_world s)) ∧
    (ru_reqs x ≠ [] → ∃ out, ru_out s' = Some out ∧ lenZ out = lenZ (ru_reqs x)).
Proof.
  intros reqs Hst Hs Hre Hq Hl Hnd. unfold update_running_batch. fold reqs. case_bool_decide as Hemp.
  { rewrite Hemp in *. eexists. exists (mkRunning (ru_world s) [] false (ru_tracker s) (ru_waiting s) [] None), [], [].
    split; [done|]. cbn [ru_reqs ru_waiting ru_aborted ru_world ru_tracker]. split; [|by split_and!].
    split; cbn [ru_reqs ru_waiting ru_aborted ru_world ru_tracker]; rewrite ?app_nil_r; try done; [by left|by intros ? ? []%not_elem_of_nil|by left]. }
  destruct (make_room_ok N os test clock reqs s Hst Hemp Hs Hre Hq Hl Hnd) as (x & gone & lost & -> & R). cbn [mbind result_bind].
  set (full := if bool_decide _ then false else _). pose proof R as [R1 _ _ _ _ R6 R7 _ _ R8].
  case_bool_decide as Hx.
  { eexists _, x, gone, lost. split; [done|]. split; [done|]. cbn [ru_reqs ru_waiting ru_aborted ru_world ru_tracker]. rewrite Hx in *. by split_and!. }
  cbn [is_spec].
  assert (Hdr : Forall (decode_ready (pool (ru_world x))) (base <$> ru_reqs x)).
  { rewrite <-R1 in Hre. apply Forall_app in Hre as [Hre _]. apply Forall_fmap. eapply Forall_impl; [exact Hre|].
    intros r [Hd _]. unfold decode_ready in *. cbn. by rewrite R7. }
  pose proof (decode_cases uninit N (ru_world x) (base <$> ru_reqs x) os R6 Hdr) as Hdec.
  destruct R8 as [|R8]; [done|]. rewrite decide_True in Hdec by (unfold lenZ in *; by rewrite length_fmap).
  destruct Hdec as (w' & out & -> & Hlen & Hctx & Hs'). cbn [mbind result_bind].
  eexists _, x, gone, lost. split; [done|]. split; [done|]. cbn [ru_reqs ru_waiting ru_aborted ru_world ru_tracker ru_out].
  assert (Hz : zip_with (fun r b => set_base b r) (ru_reqs x) (decoded <$> (base <$> ru_reqs x)) = decoded_q <$> ru_reqs x).
  { clear. induction (ru_reqs x) as [|r l IH]; [done|]. rewrite !fmap_cons. cbn [zip_with]. by rewrite IH. }
  rewrite Hz. split_and!; try done.
  - replace (base <$> (decoded_q <$> ru_reqs x)) with (decoded <$> (base <$> ru_reqs x)); [done|]. by rewrite <-!list_fmap_compose.
  - by rewrite Hctx, R7.
  - intros _. exists out. split; [done|]. unfold lenZ in *. by rewrite length_fmap in Hlen.
Qed.

(** C8: [update_running_batch] never fails and the step that follows never runs out
    of memory.  Finished requests leave the batch; the unfinished ones are split into
    those that decode, each with a slot of its own in [out], those that are
    retracted, and at most one that is aborted, this only when it is alone and
    does not fit.  Retracted requests have generated no more tokens than those that
    stay; they wait again or are reported as aborted by a full queue, so that none
    is lost.  Each slot is again free, cached or owned by one request. *)
Theorem decode_never_oom N os test clock s :
  let reqs := filter (fun r => finished r = false) (ru_reqs s) in
  0 ≤ steps → sys_inv N (ru_world s) ((base <$> reqs) ++ os) → Forall (decodes (pool (ru_world s))) reqs →
  queue_ok config (ru_waiting s) → within_limit config (ru_waiting s) → NoDup (rid <$> reqs ++ ru_waiting s) →
  ∃ s' keep gone lost,
    update_running_batch NoSpec 1 steps false uninit config test clock s = Ok s' ∧
    keep ++ gone ++ lost ≡ₚ reqs ∧ ru_reqs s' = decoded_q <$> keep ∧ (lost = [] ∨ keep = [] ∧ length lost = 1%nat) ∧
    (∀ g k, g ∈ gone → k ∈ keep ++ lost → py_lt (retract_key g) (retract_key k) = false) ∧
    rid <$> ru_waiting s' ++ ru_aborted s' ≡ₚ rid <$> gone ++ lost ++ ru_waiting s ∧ within_limit config (ru_waiting s') ∧
    sys_inv N (ru_world s') ((base <$> ru_reqs s') ++ os) ∧
    (keep ≠ [] → ∃ out, ru_out s' = Some out ∧ lenZ out = lenZ keep).
Proof.
  intros reqs Hst Hs Hre Hq Hl Hnd.
  destruct (update_running_ok N os test clock s Hst Hs Hre Hq Hl Hnd) as (s' & x & gone & lost & E & R & Hr & Hw & Ha & _ & Hs' & _ & Hout).
  exists s', (ru_reqs x), gone, lost. rewrite Hw, Ha. destruct R as [R1 R2 R3 R4 [_ R5] _ _ _ _ _]. by split_and!.
Qed.

End decode_laws.

(** * A concrete step *)

#[local] Instance step_cache : PrefixCache RadixCache := RadixPrefixCache 1 false false false LRUStrategy clock.
#[local] Instance step_laws : PrefixCacheLaws RadixCache false := radix_laws 1 false false false LRUStrategy clock (le_n 1).

Definition one_queue : QueueConfig := mkQueueConfig (Some 1%nat) true false false.

(** A request that got its first output token decodes; the queue is left alone. *)
Lemma decode_never_oom_witness :
  match serve (new_req [7; 8] (Some 0)) server with
  | Some (w, b) =>
      let r := mkQReq (set_tokens (output_ids b ++ [5]) (fill_ids b) b) "r" 2 false 0 0 None false in
      ∃ s', update_running_batch NoSpec 1 20 false empty_tensor one_queue false (fun _ => 0)
          (mkRunning w [r] true (from_server_args (7 # 10) 1 (14 # 100) 600) [] [] None) = Ok s' ∧
        ru_reqs s' = [decoded_q r] ∧ sys_inv 4 (ru_world s') [decoded (base r)]
  | None => False
  end.
Proof.
  pose proof (serve_reach (Some 0)) as Hr. destruct (serve _ _) as [[w b]|] eqn:Es; [|exact Hr]. cbv zeta. destruct Hr as (Hr & Hidx & Hp).
  set (r := mkQReq _ _ _ _ _ _ _ _). set (s := mkRunning _ _ _ _ _ _ _).
  assert (Hdr : decode_ready (pool w) (base r)).
  { split; [exact Hidx|]. clear -Es. vm_compute in Es. injection Es as <- <-. vm_compute. split; lia. }
  assert (Hs : sys_inv 4 w [base r]).
  { apply (reach_inv empty_tensor (new_cache clock) 4 true 2 4 w [base r] (proj1 server_ok) (proj2 server_ok)).
    eapply rtc_r; [exact Hr|]. by apply (s_output empty_tensor w [b] b [] 5). }
  destruct (decode_never_oom 20 empty_tensor one_queue 4 [] false (fun _ => 0) s) as (s' & keep & gone & lost & E & Hall & Hru & Hlast & _ & _ & _ & Hs' & _).
  - lia.
  - rewrite app_nil_r. exact Hs.
  - constructor; [|constructor]. split; [exact Hdr|]. cbn. lia.
  - split; [intros _; constructor|discriminate].
  - cbn. lia.
  - apply NoDup_singleton.
  - change (keep ++ gone ++ lost ≡ₚ [r]) in Hall. exists s'. split; [exact E|]. rewrite Hru in *. rewrite app_nil_r in Hs'.
    assert (Hk : match update_running_batch NoSpec 1 20 false empty_tensor one_queue false (fun _ => 0) s with
              | Ok s1 => length (ru_reqs s1) = 1%nat | Raise _ => False end).
    { unfold s, r. clear -Es. vm_compute in Es. injection Es as <- <-. vm_compute. reflexivity. }
    rewrite E in Hk. rewrite Hru, length_fmap in Hk. destruct keep as [|k [|]]; [discriminate| |discriminate].
    pose proof (Permutation_length Hall) as Hl. destruct (gone ++ lost) eqn:Hgl; [|cbn in Hl; lia].
    apply Permutation_singleton_r in Hall. injection Hall as ->. split; [reflexivity|exact Hs'].
Defined.

Definition waiting_req (id : string) (p : Z) : QReq := mkQReq (new_req [1] (Some p)) id 2 false 0 0 None false.

(** A queue of one: the stronger request takes the place of the weaker one. *)
Lemma add_request_spec_witness :
  ∃ l, _add_request_to_queue one_queue 3 (waiting_req "new" 7) [waiting_req "old" 2] = Ok (l, [waiting_req "old" 2]) ∧
    queueing one_queue 3 (waiting_req "new" 7) [waiting_req "old" 2] l [waiting_req "old" 2] ∧ within_limit one_queue l.
Proof.
  destruct (add_request_spec one_queue 3 (waiting_req "new" 7) [waiting_req "old" 2]) as (l & ab & E & Hq & Hl & _).
  - split; [intros _; repeat constructor; discriminate|discriminate].
  - cbn. lia.
  - vm_compute. intros H. inversion H as [|? ? ? H']. inversion H'.
  - exists l. assert (Hab : ab = [waiting_req "old" 2]) by (vm_compute in E; injection E as _ <-; reflexivity).
    rewrite Hab in *. split; [exact E|]. split; [exact Hq|exact Hl].
Defined.
