(* ===== verification/Scheduler.v ===== *)
(** The scheduler loop ([event_loop_normal], [get_next_batch_to_run] and
    [_get_new_batch_prefill_raw] of [managers/scheduler.py], [process_batch_result_prefill]
    and [process_batch_result_decode] of
    [managers/scheduler_components/batch_result_processor.py]): requests arrive,
    wait, are prefilled in chunks, decode, pause and finish.

    The model covers text generation on one engine without disaggregation, overlap,
    speculation, mixed chunks, LoRA, host tiers, timeouts and the test switch for
    retraction.  A running batch is never prefill-only here: a request that generates
    nothing ends with its first token.  The device is a parameter: each
    iteration is given the tokens it returns.  What the stop conditions need beyond the
    request is a [StopEnv], and the order of the waiting queue has the interface
    [QueuePolicy].  Requests are values: the unfinished chunk, which the code reaches
    through the batch and through [chunked_req], is the field [s_chunked], and the
    entry of the last batch with its name is always skipped. *)

From S2P Require Import Prelude PySort VisiblePlan Allocator RadixKey RadixCache RadixOps RadixSpec ReqPool ReqCache KvSystem SchedulePolicy PrefillAdder DecodeBatch Sampling.
From Stdlib Require Import QArith Qround Lqa.

Open Scope Z_scope.

(** * The order of the queue *)

Class QueuePolicy (T P : Type) := reorder : P → list QReq → list QReq → T → result (T * P * list QReq).

(** [SchedulePolicy.calc_priority] on the tree of the server. *)
Definition RadixQueuePolicy (page_size : nat) (is_eagle : bool) (monotonic : nat → Z) (uninit : nat → list Z)
  (shuffle : list QReq → list QReq) : QueuePolicy RadixCache SchedulePolicy := fun sp waiting running t =>
  calc_priority page_size is_eagle monotonic uninit shuffle waiting (Some running) t sp.

(** * Results of a batch *)

Definition append_token (tok : Z) (r : QReq) : QReq :=
  set_base (set_tokens (output_ids (base r) ++ [tok]) (fill_ids (base r)) (base r)) r.

(** The tokenizer, the grammars and the sampling parameters of the requests, by name. *)
Record StopEnv := mkStopEnv {
  e_tokenizer : option (option Z * list Z);
  e_encode : option (text → list Z);
  e_decode : list Z → text;
  e_re_search : list node → text → bool;
  e_any_of : list Z → Z;
  e_grammar_done : string → list Z → bool;
  e_sampling : string → SamplingParams;
  e_eos_token_ids : list Z;
  e_vocab_size : Z;
}.

Definition sampling_of (env : StopEnv) (r : QReq) : SamplingParams :=
  let p := e_sampling env (rid r) in
  mkSampling (Some (max_new_tokens r)) (sp_stop_strs p) (sp_stop_token_ids p) (sp_stop_regex_strs p) (sp_temperature p) (sp_top_p p)
    (sp_top_k p) (sp_min_p p) (sp_frequency_penalty p) (sp_presence_penalty p) (sp_repetition_penalty p) (sp_min_new_tokens p)
    (sp_json_schema p) (sp_regex p) (sp_ebnf p) (ignore_eos r) (sp_logit_bias p).

(** [Req.update_finish_state] on a request nobody aborts; [decoded_text] is never set. *)
Definition finish_state (env : StopEnv) (r : QReq) : result QReq :=
  if finished r then Ok r
  else
    do! s <- update_finish_state (e_tokenizer env) (e_decode env) (e_re_search env) (e_any_of env) (sampling_of env r)
               (normalize (e_encode env) (sampling_of env r)) (max_new_tokens r) (e_eos_token_ids env) (e_vocab_size env) []
               (e_grammar_done env (rid r) (output_ids (base r))) 1 (mkFinish (output_ids (base r)) None None None);
    let b := set_tokens (f_output_ids s) (fill_ids (base r)) (base r) in
    Ok (mkQReq b (rid r) (max_new_tokens r) (ignore_eos r) (extend_input_len r) (wait_queue_entry_time r) (routing_key r)
          (bool_decide (f_reason s ≠ None))).

Section scheduler.
Context {T P : Type} {PC : PrefixCache T} {LC : LockCache T} {QP : QueuePolicy T P}.

Context (page_size : nat) (strip : bool) (env : StopEnv).

Definition maybe_cache_unfinished_req (chunked : bool) (r : QReq) (w : World T) : result (World T * QReq) :=
  if skip_radix_cache_insert (base r) then Ok (w, r)
  else do! x <- unfinished_req chunked (base r) w; Ok (x.1, set_base x.2 r).

Definition release_finished (r : QReq) (w : World T) : result (World T * QReq) :=
  do! x <- release_kv_cache strip true page_size true (base r) w; Ok (x.1, set_base x.2 r).

(** One request of a prefill batch. *)
Definition prefill_result (tok : Z) (r : QReq) (w : World T) : result (World T * QReq) :=
  if finished r then Ok (w, r)
  else if bool_decide (inflight_middle_chunks (base r) ≤ 0) then
    do! r <- finish_state env (append_token tok r);
    if finished r then release_finished r w else maybe_cache_unfinished_req false r w
  else Ok (w, set_base (set_inflight (inflight_middle_chunks (base r) - 1) (base r)) r).

(** A loop over the requests and their tokens; [short] is what happens when the tokens run out. *)
Fixpoint each_result (f : Z → QReq → World T → result (World T * QReq)) (short : World T → list QReq → result (World T * list QReq))
    (toks : list Z) (reqs : list QReq) (w : World T) : result (World T * list QReq) :=
  match reqs, toks with
  | [], _ => Ok (w, [])
  | r :: reqs', tok :: toks =>
      do! x <- f tok r w;
      do! y <- each_result f short toks reqs' x.1;
      Ok (y.1, x.2 :: y.2)
  | _, [] => short w reqs
  end.

(** [for req, next_token_id in zip(batch.reqs, next_token_ids)]. *)
Definition process_batch_result_prefill : list Z → list QReq → World T → result (World T * list QReq) :=
  each_result prefill_result (fun w reqs => Ok (w, reqs)).

(** One request of a decode batch. *)
Definition decode_result (tok : Z) (r : QReq) (w : World T) : result (World T * QReq) :=
  do! r <- finish_state env (append_token tok r);
  if finished r then release_finished r w else Ok (w, r).

(** [next_token_ids[i]] for every request. *)
Definition decode_results : list Z → list QReq → World T → result (World T * list QReq) :=
  each_result decode_result (fun _ _ => Raise IndexError).

(** The slots of the requests that finish are freed together. *)
Definition process_batch_result_decode (toks : list Z) (reqs : list QReq) (w : World T) : result (World T * list QReq) :=
  do! y <- decode_results toks reqs (set_kv (free_group_begin (kv w)) w);
  Ok (set_kv (free_group_end (kv y.1)) y.1, y.2).

(** * The state *)

Record Sched := mkSched {
  s_world : World T;
  s_policy : P;
  s_waiting : list QReq;
  (** [running_batch.reqs] and [running_batch.batch_is_full] *)
  s_running : list QReq;
  s_full : bool;
  (** [last_batch] if it was a prefill batch, with the name of its [chunked_req] *)
  s_last : option (list QReq * option string);
  s_chunked : option QReq;
  (** [_chunked_req_scheduled_last_iter] *)
  s_scheduled : bool;
  s_tracker : NewTokenRatioTracker;
  (** what was reported as aborted, and what finished *)
  s_aborted : list QReq;
}.

Definition with_world (w : World T) (s : Sched) : Sched :=
  mkSched w (s_policy s) (s_waiting s) (s_running s) (s_full s) (s_last s) (s_chunked s) (s_scheduled s) (s_tracker s) (s_aborted s).
Definition with_waiting (q : list QReq) (s : Sched) : Sched :=
  mkSched (s_world s) (s_policy s) q (s_running s) (s_full s) (s_last s) (s_chunked s) (s_scheduled s) (s_tracker s) (s_aborted s).
Definition with_running (l : list QReq) (full : bool) (s : Sched) : Sched :=
  mkSched (s_world s) (s_policy s) (s_waiting s) l full (s_last s) (s_chunked s) (s_scheduled s) (s_tracker s) (s_aborted s).
Definition with_last (l : option (list QReq * option string)) (s : Sched) : Sched :=
  mkSched (s_world s) (s_policy s) (s_waiting s) (s_running s) (s_full s) l (s_chunked s) (s_scheduled s) (s_tracker s) (s_aborted s).
Definition with_chunked (c : option QReq) (b : bool) (s : Sched) : Sched :=
  mkSched (s_world s) (s_policy s) (s_waiting s) (s_running s) (s_full s) (s_last s) c b (s_tracker s) (s_aborted s).
Definition with_tracker (t : NewTokenRatioTracker) (s : Sched) : Sched :=
  mkSched (s_world s) (s_policy s) (s_waiting s) (s_running s) (s_full s) (s_last s) (s_chunked s) (s_scheduled s) t (s_aborted s).
Definition with_aborted (l : list QReq) (s : Sched) : Sched :=
  mkSched (s_world s) (s_policy s) (s_waiting s) (s_running s) (s_full s) (s_last s) (s_chunked s) (s_scheduled s) (s_tracker s) l.

(** * The next batch *)

(** Between two chunks the KV so far goes into the tree. *)
Definition stash_chunked_request (s : Sched) : result Sched :=
  match s_chunked s with
  | Some c =>
      if s_scheduled s then
        do! x <- maybe_cache_unfinished_req true c (s_world s);
        Ok (with_chunked (Some x.2) true (with_world x.1 s))
      else Ok s
  | None => Ok s
  end.

(** The last prefill batch joins the running one, or takes its place; then it has no requests of its own. *)
Definition merge_last (s : Sched) : Sched :=
  match s_last s with
  | None => s
  | Some (l, chunked) =>
      let keep := filter (fun r => finished r = false ∧ rid <$> s_chunked s ≠ Some (rid r) ∧ chunked ≠ Some (rid r)) l in
      let full := if bool_decide (length keep < length l)%nat then false else s_full s in
      if bool_decide (keep = []) then with_last (Some ([], chunked)) (with_running (s_running s) full s)
      else if bool_decide (s_running s = []) then with_last (Some ([], chunked)) (with_running keep false s)
      else with_last (Some (keep, chunked)) (with_running (s_running s ++ keep) full s)
  end.

(** Constants of the server. *)
Context (retract_decode_steps : Z) (config : QueueConfig) (allow : option bool) (cp : bool) (max_reqs : option nat)
  (threshold : Z) (logprobs : QReq → bool * Z) (max_batch : Z) (preemption : bool) (uninit : Z → list Z)
  (align : option Z) (max_prefill_tokens : Z) (chunked_prefill_size : option Z).

(** The entry of a batch with the name of the unfinished request is the same object. *)
Definition refresh (c : option QReq) (batch : list QReq) : option QReq :=
  match c with
  | Some c => Some (default c (head (filter (fun r => rid r = rid c) batch)))
  | None => None
  end.

(** [_get_new_batch_prefill_raw]. *)
Definition get_new_batch_prefill_raw (s : Sched) : result (Sched * option (list QReq)) :=
  let s := with_running (s_running s) (if preemption then false else s_full s) s in
  if (s_full s || bool_decide (s_waiting s = [])) && bool_decide (s_chunked s = None) then Ok (s, None)
  else if bool_decide (get_num_allocatable_reqs max_batch (lenZ (s_running s)) (s_world s) ≤ 0)
          && bool_decide (s_chunked s = None) && negb preemption
  then Ok (with_running (s_running s) true s, None)
  else
    do! q <- reorder (s_policy s) (s_waiting s) (s_running s) (tree (s_world s));
    let '(t, sp, waiting) := q in
    do! b <- get_new_batch_prefill (Z.of_nat page_size) (ratio_current (s_tracker s)) None allow cp max_reqs threshold
               retract_decode_steps strip true logprobs max_batch preemption (qc_low_first config) uninit align max_prefill_tokens
               chunked_prefill_size 0 0 (s_running s) waiting (s_chunked s) (s_full s) (set_tree t (s_world s));
    let '(p, c, out) := b in
    let s' c := mkSched (p_world p) sp (p_waiting p) (p_running p) (p_full p) (s_last s) c (bool_decide (c ≠ None)) (s_tracker s) (s_aborted s) in
    match out with
    | None => Ok (s' c, None)
    | Some (reqs, _) =>
        let batch := zip_with (fun r b => set_base b r) (can_run_list (p_adder p)) reqs in
        Ok (s' (refresh c batch), Some batch)
    end.

Inductive Batch := Prefill (reqs : list QReq) | Decode.

(** [get_next_batch_to_run]; a decode batch is the running batch itself. *)
Definition get_next_batch_to_run (clock : nat → Z) (s : Sched) : result (Sched * option Batch) :=
  do! s <- stash_chunked_request s;
  do! b <- get_new_batch_prefill_raw (merge_last s);
  let '(s, batch) := b in
  match batch with
  | Some reqs => Ok (s, Some (Prefill reqs))
  | None =>
      if bool_decide (s_running s = []) then Ok (s, None)
      else
        do! u <- update_running_batch NoSpec page_size retract_decode_steps strip uninit config false clock
                   (mkRunning (s_world s) (s_running s) (s_full s) (s_tracker s) (s_waiting s) [] None);
        let s := mkSched (ru_world u) (s_policy s) (ru_waiting u) (ru_reqs u) (ru_full u) (s_last s) (s_chunked s) (s_scheduled s)
                   (ru_tracker u) (s_aborted s ++ ru_aborted u) in
        Ok (s, if bool_decide (ru_reqs u = []) then None else Some Decode)
  end.

(** * The loop *)

(** What one iteration sees of the outside. *)
Record Turn := mkTurn { time : nat → Z; next_token_ids : list Z }.

(** [is_fully_idle], without a current batch. *)
Definition is_fully_idle (s : Sched) : bool :=
  bool_decide (s_running s = []) && bool_decide (s_chunked s = None)
  && match s_last s with Some (l, _) => bool_decide (l = []) | None => true end && bool_decide (s_waiting s = []).

(** One iteration of [event_loop_normal] after the requests were received. *)
Definition iterate (t : Turn) (s : Sched) : result Sched :=
  do! b <- get_next_batch_to_run (time t) s;
  let '(s, batch) := b in
  match batch with
  | Some (Prefill reqs) =>
      do! y <- process_batch_result_prefill (next_token_ids t) reqs (s_world s);
      let crid := rid <$> s_chunked s in
      Ok (with_last (Some (y.2, crid)) (with_chunked (refresh (s_chunked s) y.2) (s_scheduled s) (with_world y.1 s)))
  | Some Decode =>
      do! y <- process_batch_result_decode (next_token_ids t) (s_running s) (s_world s);
      Ok (with_last None (with_running y.2 (s_full s) (with_world y.1 s)))
  | None => Ok (with_last None (if is_fully_idle s then with_tracker (ratio_reset (s_tracker s)) s else s))
  end.

(** A new request. *)
Definition receive (now : Z) (r : QReq) (s : Sched) : result Sched :=
  do! x <- _add_request_to_queue config now r (s_waiting s);
  Ok (with_aborted (s_aborted s ++ x.2) (with_waiting x.1 s)).

End scheduler.

(** * Freeing in a group *)

(** Relations between allocators that [free] respects. *)
Definition free_rel (R : Allocator → Allocator → Prop) : Prop := ∀ x a b, R a b → R (Allocator.free x a) (Allocator.free x b).

(** Two results that differ in the allocator only. *)
Definition kv_rel {T A} (R : Allocator → Allocator → Prop) (m1 m2 : result (World T * A)) : Prop :=
  match m1, m2 with
  | Ok (w1, r1), Ok (w2, r2) => r1 = r2 ∧ tree w1 = tree w2 ∧ pool w1 = pool w2 ∧ R (kv w1) (kv w2)
  | Raise e1, Raise e2 => e1 = e2
  | _, _ => False
  end.

(** What the cache does with a finished request depends on the allocator only through [free]. *)
Class FreeLaws (T : Type) {PC : PrefixCache T} := finished_frees R ins r (w : World T) b :
  free_rel R → R (kv w) b → kv_rel R (finished_req ins r w) (finished_req ins r (set_kv b w)).

Ltac kv_rel_done HR := cbn [kv_rel tree pool kv set_kv set_tree]; split_and!; [done|done|done|by repeat apply HR].

#[export] Instance radix_free_laws page_size is_eagle dfi strip strategy monotonic :
  @FreeLaws RadixCache (RadixPrefixCache page_size is_eagle dfi strip strategy monotonic).
Proof.
  intros R ins r w b HR Hab. cbn [finished_req RadixPrefixCache]. unfold cache_finished_req. cbn [pool tree kv set_kv].
  destruct (pop_committed_kv_cache strip r) as [[r1 n]|]; cbn [mbind result_bind]; [|done].
  destruct (row_index r1) as [i|]; cbn [mbind result_bind]; [|done].
  destruct (pool_read i _ (pool w)) as [ix|]; cbn [mbind result_bind]; [|done].
  destruct (ins && negb dfi).
  - destruct (insert _ _ _ _ _ _ _ _ (tree w)) as [[t m]|]; cbn [mbind result_bind fst snd]; [|done].
    cbn [kv tree pool set_kv set_tree]. destruct (last_node r1); [|kv_rel_done HR].
    destruct (dec_lock_ref _ _ _) as [[t' d]|]; cbn [mbind result_bind fst snd]; [|done]. kv_rel_done HR.
  - cbn [mbind result_bind kv tree pool set_kv set_tree]. destruct (last_node r1); [|kv_rel_done HR].
    destruct (dec_lock_ref _ _ _) as [[t' d]|]; cbn [mbind result_bind fst snd]; [|done]. kv_rel_done HR.
Qed.

#[export] Instance chunk_free_laws strip : @FreeLaws ChunkCache (ChunkPrefixCache strip).
Proof.
  intros R ins r w b HR Hab. cbn [finished_req ChunkPrefixCache]. unfold chunk_finished_req. cbn [pool tree kv set_kv].
  destruct (pop_committed_kv_cache strip r) as [[r1 n]|]; cbn [mbind result_bind]; [|done].
  destruct (row_index r1) as [i|]; cbn [mbind result_bind]; [|done].
  destruct (pool_read i _ (pool w)) as [ix|]; cbn [mbind result_bind]; [|done]. kv_rel_done HR.
Qed.

(** The first allocator collects what the second frees at once. *)
Definition collects (a b : Allocator) : Prop :=
  is_not_in_free_group a = false ∧ is_not_in_free_group b = true ∧ need_sort b = need_sort a ∧ Allocator.page_size b = Allocator.page_size a ∧
  free_pages b = (if need_sort a then free_pages a else free_pages a ++ concat (free_group a)) ∧
  release_pages b = (if need_sort a then release_pages a ++ concat (free_group a) else release_pages a).

Lemma collects_free : free_rel collects.
Proof.
  intros x a b (H1 & H2 & H3 & H4 & H5 & H6). destruct x as [|y x]; [by split_and!|]. unfold Allocator.free. rewrite H1, H2, H3.
  unfold collects. cbn [with_group is_not_in_free_group need_sort Allocator.page_size free_pages release_pages free_group].
  rewrite concat_app. cbn [concat]. rewrite app_nil_r. destruct (need_sort a) eqn:Hn; cbn [with_pages is_not_in_free_group need_sort
    Allocator.page_size free_pages release_pages]; rewrite ?Hn, ?H5, ?H6, ?app_assoc; by split_and!.
Qed.

Lemma collects_begin a : is_not_in_free_group a = true → collects (free_group_begin a) a.
Proof.
  intros Hn. unfold collects. cbn. rewrite !app_nil_r. split_and!; try done; by destruct (need_sort a).
Qed.

(** When the group is closed both have the same free slots. *)
Lemma collects_end a b : collects a b → kv_ok b →
  kv_ok (free_group_end a) ∧ ∀ x, free_count x (free_group_end a) = free_count x b.
Proof.
  intros (H1 & H2 & H3 & H4 & H5 & H6) (K1 & K2 & K3).
  assert (Hend : is_not_in_free_group (free_group_end a) = true ∧ need_sort (free_group_end a) = need_sort b ∧
    Allocator.page_size (free_group_end a) = Allocator.page_size b ∧ free_pages (free_group_end a) = free_pages b ∧
    release_pages (free_group_end a) = release_pages b).
  { unfold free_group_end. rewrite H5, H6, H3, H4. destruct (free_group a) as [|x g] eqn:Hg; [cbn; rewrite !app_nil_r; by destruct (need_sort a)|].
    unfold Allocator.free. destruct (concat (x :: g)) as [|y l] eqn:Hc; [cbn; rewrite !app_nil_r; by destruct (need_sort a)|].
    cbn [is_not_in_free_group with_group need_sort]. destruct (need_sort a) eqn:Hs; cbn; by rewrite ?Hs. }
  destruct Hend as (E1 & E2 & E3 & E4 & E5). unfold kv_ok, free_count. rewrite E1, E2, E3, E4, E5. done.
Qed.

(** * Policies keep the queue *)

(** The same request, with what is known about its prefix renewed. *)
Definition same_core (r r' : QReq) : Prop := core r' = core r ∧ (fresh (base r) → fresh (base r')).

Lemma same_core_refl r : same_core r r.
Proof. done. Qed.

Class QueueLaws (T P : Type) {PC : PrefixCache T} {PL : PrefixCacheLaws T false} {QP : QueuePolicy T P} := {
  (** The policy compares priorities. *)
  needs_priority : P → bool;
  reorder_law sp q running t L :
    cache_ok t L → NoDup (rid <$> q) → (needs_priority sp = true → Forall has_priority q) →
    ∃ t' sp' q1 q', reorder sp q running t = Ok (t', sp', q') ∧ Forall2 same_core q q1 ∧ q' ≡ₚ q1 ∧ cache_ok t' L ∧
      (∀ x, holds x t' = holds x t) ∧ evictable t' = evictable t ∧ (∀ r ts row, claim t r ts row → claim t' r ts row) ∧ needs_priority sp' = needs_priority sp;
}.

#[export] Instance radix_queue_laws page_size is_eagle dfi strategy monotonic uninit shuffle (Hps : (0 < page_size)%nat) :
  (∀ n, length (uninit n) = n) → (∀ q, shuffle q ≡ₚ q) →
  @QueueLaws RadixCache SchedulePolicy (RadixPrefixCache page_size is_eagle dfi false strategy monotonic)
    (radix_laws page_size is_eagle dfi false strategy monotonic Hps) (RadixQueuePolicy page_size is_eagle monotonic uninit shuffle).
Proof.
  intros Hun Hsh. refine {| needs_priority := enable_priority_scheduling |}.
  intros sp q running t L Hc Hnd Hp. change (rinv page_size is_eagle (t, L)) in Hc. pose proof Hc as (Hw & _). cbn [fst] in Hw.
  destruct (calc_priority_ok page_size is_eagle monotonic uninit Hps Hun shuffle Hsh q (Some running) t sp Hw Hnd) as (t' & sp' & q1 & q' & E & Hq & Hperm & _ & _ & Hsp & Hquiet);
    [by intros ?; apply Hp|].
  exists t', sp', q1, q'. split; [exact E|]. split.
  { destruct Hq as [->|Hq]; [by apply Forall_Forall2_diag, Forall_true|]. eapply Forall2_impl; [exact Hq|]. by intros r r' (idx & node & ->). }
  split; [exact Hperm|]. split; [by eapply quiet_rinv|]. split; [apply Hquiet|]. split; [apply Hquiet|]. split; [|exact Hsp].
  intros r ts row. apply claim_mono. intros e jj us vs _ Hf. by apply (quiet_full page_size is_eagle _ _ _ _ _ _ Hquiet).
Defined.

(** * The invariant of the loop *)

Section loop.
Context {T P : Type} {PC : PrefixCache T} {LC : LockCache T} {PL : PrefixCacheLaws T false} {LL : LockLaws T false} {FL : FreeLaws T}
  {QP : QueuePolicy T P} {QL : QueueLaws T P}.
Context (env : StopEnv) (ctx : nat).

(** A request that fits the context. *)
Definition sane (r : QReq) : Prop :=
  (1 ≤ length (origin_input_ids (base r)))%nat ∧ Z.of_nat (length (origin_input_ids (base r))) + max_new_tokens r ≤ Z.of_nat ctx ∧
  0 ≤ max_new_tokens r ∧ skip_radix_cache_insert (base r) = false ∧ finished r = false.

(** Waiting: without KV state. *)
Definition queued_ok (r : QReq) : Prop :=
  sane r ∧ fresh (base r) ∧ output_len r ≤ max_new_tokens r ∧ inflight_middle_chunks (base r) = 0.

(** Running: all tokens but the last are computed. *)
Definition decoding (r : QReq) : Prop :=
  sane r ∧ req_pool_idx (base r) ≠ None ∧ S (kv_committed_len (base r)) = length (tokens (base r)) ∧
  output_len r < max_new_tokens r ∧ inflight_middle_chunks (base r) = 0.

(** Between two chunks. *)
Definition chunking (r : QReq) : Prop :=
  sane r ∧ req_pool_idx (base r) ≠ None ∧ fill_ids (base r) = take (kv_committed_len (base r)) (tokens (base r)) ∧
  (0 < kv_committed_len (base r) < length (tokens (base r)))%nat ∧ output_len r ≤ max_new_tokens r ∧ inflight_middle_chunks (base r) = 0.

(** In a batch that runs: all tokens computed, or one chunk of them. *)
Definition stepping (r : QReq) : Prop :=
  sane r ∧ req_pool_idx (base r) ≠ None ∧ kv_committed_len (base r) = length (tokens (base r)) ∧
  output_len r ≤ max_new_tokens r ∧ inflight_middle_chunks (base r) = 0.

Definition prefilling (r : QReq) : Prop :=
  fill_ids (base r) = take (kv_committed_len (base r)) (tokens (base r)) ∧
  (stepping r ∨ chunking (set_base (set_inflight 0 (base r)) r) ∧ inflight_middle_chunks (base r) = 1).

(** The KV state that is left of a request. *)
Definition live (r : QReq) : list Req := if finished r then [] else [base r].

Lemma alive_cons r l : alive (r :: l) = live r ++ alive l.
Proof. unfold alive, live. rewrite filter_cons. destruct (finished r) eqn:E; by rewrite ?decide_False, ?decide_True by congruence. Qed.

(** After [release_kv_cache]. *)
Definition released (r : QReq) : Prop :=
  req_pool_idx (base r) = None ∧ kv_committed_freed (base r) = true ∧ kv_overallocated_freed (base r) = true.

(** What the result of a step makes of a request. *)
Definition resulting (r r' : QReq) : Prop :=
  (finished r' = true → released r') ∧
  rid r' = rid r ∧ max_new_tokens r' = max_new_tokens r ∧ output_len r' ≤ output_len r + 1 ∧
  (finished r' = false → if decide (inflight_middle_chunks (base r) = 0) then decoding r' else chunking r') ∧
  (inflight_middle_chunks (base r) ≠ 0 → finished r' = false).

Lemma resulting_whole r r' :
  inflight_middle_chunks (base r) = 0 → rid r' = rid r → max_new_tokens r' = max_new_tokens r → output_len r' = output_len r + 1 →
  (finished r' = true → released r') → (finished r' = false → decoding r') → resulting r r'.
Proof. intros Hi Hr Hm Ho Hrel Hd. do 3 (split; [done|]). split; [lia|]. by rewrite decide_True. Qed.

Lemma resulting_chunk r r' :
  inflight_middle_chunks (base r) ≠ 0 → rid r' = rid r → max_new_tokens r' = max_new_tokens r → output_len r' = output_len r →
  finished r' = false → chunking r' → resulting r r'.
Proof. intros Hi Hr Hm Ho Hf Hd. split; [congruence|]. do 2 (split; [done|]). split; [lia|]. by rewrite decide_False. Qed.

Lemma output_len_append tok r : output_len (append_token tok r) = output_len r + 1.
Proof. unfold output_len, append_token. cbn. rewrite length_app. simpl. lia. Qed.

Lemma tokens_append tok r : tokens (base (append_token tok r)) = tokens (base r) ++ [tok].
Proof. unfold tokens, append_token. cbn. by rewrite app_assoc. Qed.

(** The new token, and whether the request ends with it. *)
Lemma append_inv N w tok r os : sys_inv N w (base r :: os) → sys_inv N w (base (append_token tok r) :: os).
Proof.
  intros Hs. apply retoken_inv; [done| |by apply prefix_app_r]. pose proof (si_reqs _ _ _ Hs) as Hr.
  apply Forall_cons in Hr as [(_ & _ & Hpre & _) _]. rewrite app_assoc. by apply prefix_app_r.
Qed.

(** A request whose text has to be searched, on a server without a tokenizer. *)
Definition text_unread (name : string) : Prop :=
  unreadable (e_tokenizer env) (normalize (e_encode env) (e_sampling env name)).

(** The step fails because it cannot read the text of one of these requests. *)
Definition unread {A} (names : list string) (m : result A) : Prop :=
  m = Raise AttributeError ∧ ∃ n, n ∈ names ∧ text_unread n.

Lemma unread_mono {A B} names names' (m : result A) (m' : result B) :
  unread names m → (m = Raise AttributeError → m' = Raise AttributeError) → (∀ n, n ∈ names → n ∈ names') → unread names' m'.
Proof. intros (E & n & Hn & Hu) Hm Hl. split; [by apply Hm|]. exists n. split; [by apply Hl|done]. Qed.

Lemma finish_cases tok r :
  finished r = false →
  (∃ x r', finish_state env (append_token tok r) = Ok r' ∧ base r' = base (append_token x r) ∧ rid r' = rid r ∧ max_new_tokens r' = max_new_tokens r ∧
    (finished r' = false → r' = append_token tok r ∧ output_len r' < max_new_tokens r')) ∨
  unread [rid r] (finish_state env (append_token tok r)).
Proof.
  intros Hf. unfold finish_state. cbn [finished append_token set_base]. rewrite Hf. cbn [base set_base output_ids set_tokens rid max_new_tokens].
  set (sp := sampling_of env _). set (g := e_grammar_done env _ _).
  pose proof (update_finishes (e_tokenizer env) (e_decode env) (e_re_search env) (e_any_of env) sp (normalize (e_encode env) sp) (max_new_tokens r)
    (e_eos_token_ids env) (e_vocab_size env) [] g (output_ids (base r)) [tok] ltac:(done)) as Hs.
  cbn [length] in Hs. change (output_ids (base r) ++ [tok]) with (output_ids (base (append_token tok r))) in Hs.
  change (max_new_tokens r) with (max_new_tokens (append_token tok r)) in Hs. destruct (update_finish_state _ _ _ _ _ _ _ _ _ _ _ _ _) as [s|e].
  2: { right. destruct Hs as (-> & Hu & _). split; [done|]. exists (rid r). split; [by apply list_elem_of_singleton|exact Hu]. }
  left. cbn [mbind result_bind].
  assert (∃ x, f_output_ids s = output_ids (base r) ++ [x] ∧ (f_reason s = None → x = tok ∧ Z.of_nat (length (output_ids (base r) ++ [x])) < max_new_tokens r))
    as (x & Ho & Hx).
  { destruct Hs as [? Ho Hr|t ? ? ? Ho Hr|pre t post ? ? ? ? ? ? Ho Hr|pre t post ? ? ? Hsp ? ? Ho Hr|[Hlt] _ ->].
    1-3: exists tok; split; [done|]; by rewrite Hr.
    - destruct pre as [|? [|]]; try done. injection Hsp as -> <-. eexists. split; [exact Ho|]. by rewrite Hr.
    - exists tok. done. }
  rewrite Ho. exists x. eexists. split; [done|]. split; [by destruct r|]. do 2 (split; [done|]). cbn [finished]. case_bool_decide as Hn; [done|]. intros _.
  destruct (Hx Hn) as [-> Hlt]. split; [|done]. unfold append_token. destruct r; cbn in *. by rewrite Hf.
Qed.

Lemma release_finished_ok N w r os :
  sys_inv N w (base r :: os) → req_pool_idx (base r) ≠ None →
  ∃ w' b, release_finished 1 false r w = Ok (w', set_base b r) ∧ sys_inv N w' os ∧ output_ids b = output_ids (base r) ∧ released (set_base b r) ∧ max_context_len (pool w') = max_context_len (pool w).
Proof.
  intros Hs Hi. unfold release_finished. destruct (finish_inv N w (base r) os true Hs Hi) as (w' & b & -> & Hs' & Hb & Hctx).
  cbn [mbind result_bind fst snd]. exists w', b. by rewrite Hb.
Qed.

Lemma decode_result_ok N os tok r w :
  sys_inv N w (base r :: os) → stepping r →
  (∃ w' r', decode_result 1 false env tok r w = Ok (w', r') ∧ sys_inv N w' (live r' ++ os) ∧ resulting r r' ∧
    max_context_len (pool w') = max_context_len (pool w)) ∨ unread [rid r] (decode_result 1 false env tok r w).
Proof.
  intros Hs (Hsane & Hi & Hc & Ho & Hin). unfold decode_result.
  destruct (finish_cases tok r) as [(x & r1 & -> & F1 & F2 & Fm & F3)|Hu]; [apply Hsane|left|right; eapply unread_mono; [exact Hu|by intros ->|done]].
  cbn [mbind result_bind].
  assert (Fo : output_len r1 = output_len r + 1) by (unfold output_len in *; rewrite F1; apply (output_len_append x r)).
  apply (append_inv N w x) in Hs. rewrite <-F1 in Hs. destruct (finished r1) eqn:Hf.
  - destruct (release_finished_ok N w r1 os Hs) as (w' & b & -> & Hs' & Hb & Hrel & Hctx); [by rewrite F1|]. exists w', (set_base b r1).
    unfold live. cbn [finished set_base]. rewrite Hf. split_and!; try done. apply resulting_whole; [done|exact F2|exact Fm| |done|cbn; congruence]. unfold output_len in *. cbn. by rewrite Hb.
  - exists w, r1. split; [done|]. unfold live. rewrite Hf. split; [done|]. split; [|done]. apply resulting_whole; [done..|congruence|].
    intros _. destruct (F3 eq_refl) as [-> Hlt]. split; [done|]. split; [done|]. rewrite tokens_append, length_app. simpl.
    split; [cbn; lia|done].
Qed.

Lemma prefill_result_ok N os tok r w :
  sys_inv N w (base r :: os) → prefilling r →
  (∃ w' r', prefill_result 1 false env tok r w = Ok (w', r') ∧ sys_inv N w' (live r' ++ os) ∧ resulting r r' ∧
    max_context_len (pool w') = max_context_len (pool w)) ∨ unread [rid r] (prefill_result 1 false env tok r w).
Proof.
  intros Hs (Hfill & [(Hsane & Hi & Hc & Ho & Hin)|[Hch Hin]]); unfold prefill_result.
  2: { pose proof Hch as (Hsane & Hrest). assert (Hf : finished r = false) by apply Hsane. rewrite Hf, Hin.
       rewrite bool_decide_eq_false_2 by lia. left. do 2 eexists. split; [done|]. unfold live. cbn [finished set_base]. rewrite Hf.
       split; [by apply inflight_inv|]. split; [|done]. apply resulting_chunk; [lia|done..]. }
  assert (Hf : finished r = false) by apply Hsane. rewrite Hf, Hin. rewrite bool_decide_eq_true_2 by done.
  destruct (finish_cases tok r) as [(x & r1 & -> & F1 & F2 & Fm & F3)|Hu]; [apply Hsane|left|right; eapply unread_mono; [exact Hu|by intros ->|done]].
  cbn [mbind result_bind].
  assert (Fo : output_len r1 = output_len r + 1) by (unfold output_len in *; rewrite F1; apply (output_len_append x r)).
  apply (append_inv N w x) in Hs. rewrite <-F1 in Hs. destruct (finished r1) eqn:Hf1.
  - destruct (release_finished_ok N w r1 os Hs) as (w' & b & -> & Hs' & Hb & Hrel & Hctx); [by rewrite F1|]. exists w', (set_base b r1).
    unfold live. cbn [finished set_base]. rewrite Hf1. split_and!; try done. apply resulting_whole; [done|exact F2|exact Fm| |done|cbn; congruence]. unfold output_len in *. cbn. by rewrite Hb.
  - destruct (F3 eq_refl) as [E1 Hlt]. rewrite E1 in *. clear F1. unfold maybe_cache_unfinished_req. assert (skip_radix_cache_insert (base (append_token tok r)) = false) as -> by apply Hsane.
    destruct (cache_inv N w (base (append_token tok r)) os false Hs) as (w' & b & -> & Hs' & Hb & Hctx); [done| |].
    { rewrite tokens_append. cbn. rewrite Hfill at 1. rewrite take_app_le by lia. done. }
    cbn [mbind result_bind fst snd]. do 2 eexists. split; [done|]. unfold live. cbn [finished set_base]. rewrite Hf1.
    split; [done|]. split; [|done]. rewrite Hb. apply resulting_whole; [done..|cbn; congruence|]. intros _. split; [done|]. split; [done|].
    split; [|done]. change (S (kv_committed_len (base r)) = length (tokens (base (append_token tok r)))). rewrite tokens_append, length_app. simpl. lia.
Qed.

(** ** The results of a batch *)

Lemma each_ok N f short (Pre : QReq → Prop) :
  (∀ os tok r w, sys_inv N w (base r :: os) → Pre r →
     (∃ w' r', f tok r w = Ok (w', r') ∧ sys_inv N w' (live r' ++ os) ∧ resulting r r' ∧
       max_context_len (pool w') = max_context_len (pool w)) ∨ unread [rid r] (f tok r w)) →
  ∀ reqs toks w os, length toks = length reqs → sys_inv N w ((base <$> reqs) ++ os) → Forall Pre reqs →
  (∃ w' l, each_result f short toks reqs w = Ok (w', l) ∧ sys_inv N w' (alive l ++ os) ∧ Forall2 resulting reqs l ∧
    max_context_len (pool w') = max_context_len (pool w)) ∨ unread (rid <$> reqs) (each_result f short toks reqs w).
Proof.
  intros Hf reqs. induction reqs as [|r reqs IH]; intros toks w os Hl Hs Hpre; [left; destruct toks; by exists w, []|].
  destruct toks as [|tok toks]; [done|]. apply Forall_cons in Hpre as [Hr Hpre]. injection Hl as Hl. cbn [each_result].
  destruct (Hf (fmap (M := list) base reqs ++ os) tok r w Hs Hr) as [(w1 & r1 & -> & Hs1 & Hr1 & Hc1)|Hu].
  2: { right. eapply unread_mono; [exact Hu|by intros ->|]. intros n ->%list_elem_of_singleton. by left. }
  cbn [mbind result_bind fst snd].
  destruct (IH toks w1 (live r1 ++ os) Hl) as [(w2 & l & -> & Hs2 & Hr2 & Hc2)|Hu]; [|done|left|].
  { eapply sys_inv_perm; [|exact Hs1]. rewrite !app_assoc. by rewrite (Permutation_app_comm (live r1)). }
  2: { right. eapply unread_mono; [exact Hu|by intros ->|]. intros n Hn. by right. }
  cbn [mbind result_bind fst snd]. exists w2, (r1 :: l). split; [done|]. rewrite alive_cons. split; [|split; [by constructor|congruence]].
  eapply sys_inv_perm; [|exact Hs2]. rewrite !app_assoc. by rewrite (Permutation_app_comm (live r1)).
Qed.

Lemma release_rel R ins r (w : World T) b : free_rel R → R (kv w) b →
  kv_rel R (release_kv_cache false true 1 ins r w) (release_kv_cache false true 1 ins r (set_kv b w)).
Proof.
  intros HR Hab. unfold release_kv_cache. destruct (req_pool_idx r) as [i0|]; [|done].
  pose proof (finished_frees R (ins && negb (skip_radix_cache_insert r)) r w b HR Hab) as Hf. unfold kv_rel in Hf.
  destruct (finished_req _ r w) as [[w1 r1]|], (finished_req _ r (set_kv b w)) as [[w2 r2]|]; try done; cbn [mbind result_bind].
  destruct Hf as (<- & Ht & Hp & Hk). destruct (req_pool_idx r1) as [i|]; [|by cbn [kv_rel]; split_and!].
  destruct (pop_overallocated_kv_cache false r1) as [[r3 [a0 z]]|]; cbn [mbind result_bind]; [|done].
  destruct (_ || _); [|done]. rewrite (decide_False (P := (1 < 1)%nat)) by lia. rewrite Hp. destruct (decide (a0 < z)%nat).
  - destruct (row_at (pool w2) i) as [row|]; cbn [mbind result_bind]; [|done]. cbn [pool set_kv]. rewrite Hp.
    destruct (pool_free r3 (pool w2)) as [[p r4]|]; cbn [mbind result_bind fst snd]; [|done]. cbn [kv_rel]. split_and!; try done. by apply HR.
  - cbn [mbind result_bind]. rewrite Hp. destruct (pool_free r3 (pool w2)) as [[p r4]|]; cbn [mbind result_bind fst snd]; [|done]. by cbn [kv_rel]; split_and!.
Qed.

Lemma decode_rel R toks reqs : free_rel R → ∀ (w : World T) b, R (kv w) b →
  kv_rel R (decode_results 1 false env toks reqs w) (decode_results 1 false env toks reqs (set_kv b w)).
Proof.
  intros HR. revert toks. induction reqs as [|r reqs IH]; intros toks w b Hab; [by destruct toks; cbn [decode_results each_result kv_rel]; split_and!|].
  destruct toks as [|tok toks]; [done|]. unfold decode_results. cbn [each_result]. fold (decode_results (T := T) 1 false env).
  assert (Hone : kv_rel R (decode_result 1 false env tok r w) (decode_result 1 false env tok r (set_kv b w))).
  { unfold decode_result, release_finished. destruct (finish_state env (append_token tok r)) as [r1|]; cbn [mbind result_bind]; [|done].
    destruct (finished r1); [|by cbn [kv_rel]; split_and!].
    pose proof (release_rel R true (base r1) w b HR Hab) as Hr. unfold kv_rel in Hr.
    destruct (release_kv_cache _ _ _ _ _ w) as [[w1 r2]|], (release_kv_cache _ _ _ _ _ (set_kv b w)) as [[w2 r3]|]; try done.
    cbn [mbind result_bind fst snd]. destruct Hr as (-> & ? & ? & ?). by cbn [kv_rel]; split_and!. }
  unfold kv_rel in Hone. destruct (decode_result _ _ _ _ _ w) as [[w1 r1]|], (decode_result _ _ _ _ _ (set_kv b w)) as [[w2 r2]|]; try done.
  destruct Hone as (-> & Ht & Hp & Hk). cbn [mbind result_bind fst snd].
  specialize (IH toks w1 (kv w2) Hk). replace (set_kv (kv w2) w1) with w2 in IH by (destruct w1, w2; cbn in *; by subst). unfold kv_rel in IH.
  destruct (decode_results _ _ _ toks reqs w1) as [[w3 l3]|], (decode_results _ _ _ toks reqs w2) as [[w4 l4]|]; try done.
  cbn [mbind result_bind fst snd]. destruct IH as (-> & ? & ? & ?). by cbn [kv_rel]; split_and!.
Qed.

(** The invariant sees of the allocator only what is free. *)
Lemma sys_inv_kv N (w : World T) a rs :
  sys_inv N w rs → kv_ok a → (∀ x, free_count x a = free_count x (kv w)) → sys_inv N (set_kv a w) rs.
Proof.
  intros [H1 H2 H3 H4 H5] Ha Hx. split; try done. intros x. cbn [pool set_kv]. rewrite <-H5. unfold total. cbn [kv tree set_kv]. by rewrite Hx.
Qed.

Lemma process_decode_ok N os toks reqs w :
  length toks = length reqs → sys_inv N w ((base <$> reqs) ++ os) → Forall stepping reqs →
  (∃ w' l, process_batch_result_decode 1 false env toks reqs w = Ok (w', l) ∧ sys_inv N w' (alive l ++ os) ∧ Forall2 resulting reqs l ∧
    max_context_len (pool w') = max_context_len (pool w)) ∨ unread (rid <$> reqs) (process_batch_result_decode 1 false env toks reqs w).
Proof.
  intros Hl Hs Hpre. pose proof (si_kv _ _ _ Hs) as (Hn & _).
  pose proof (decode_rel collects toks reqs collects_free (set_kv (free_group_begin (kv w)) w) (kv w) (collects_begin _ Hn)) as Hrel.
  replace (set_kv (kv w) (set_kv (free_group_begin (kv w)) w)) with w in Hrel by (by destruct w). unfold decode_results in Hrel at 2.
  unfold process_batch_result_decode.
  destruct (each_ok N (decode_result 1 false env) (fun _ _ => Raise IndexError) stepping) with (reqs := reqs) (toks := toks) (w := w) (os := os)
    as [(w2 & l & E & Hs2 & Hr & Hc)|(E & Hu)]; [intros; by apply decode_result_ok|done..|left|right]; rewrite E in Hrel; unfold kv_rel in Hrel.
  2: { split; [|done]. destruct (decode_results _ _ _ _ _ _) as [[w1 l1]|]; [done|]. by subst. }
  destruct (decode_results _ _ _ _ _ _) as [[w1 l1]|]; [|done].
  destruct Hrel as (-> & Ht & Hp & Hcol). cbn [mbind result_bind fst snd]. do 2 eexists. split; [done|].
  destruct (collects_end _ _ Hcol (si_kv _ _ _ Hs2)) as [Hok Hx].
  split; [|split; [done|cbn [pool set_kv]; by rewrite Hp]].
  replace (set_kv (free_group_end (kv w1)) w1) with (set_kv (free_group_end (kv w1)) w2) by (destruct w1, w2; cbn in *; by subst).
  by apply sys_inv_kv.
Qed.

Lemma process_prefill_ok N os toks reqs w :
  length toks = length reqs → sys_inv N w ((base <$> reqs) ++ os) → Forall prefilling reqs →
  (∃ w' l, process_batch_result_prefill 1 false env toks reqs w = Ok (w', l) ∧ sys_inv N w' (alive l ++ os) ∧ Forall2 resulting reqs l ∧
    max_context_len (pool w') = max_context_len (pool w)) ∨ unread (rid <$> reqs) (process_batch_result_prefill 1 false env toks reqs w).
Proof. intros. eapply each_ok; [|done..]. intros. by apply prefill_result_ok. Qed.

(** ** Between two iterations *)

Context (steps : Z) (config : QueueConfig) (allow : option bool) (cp : bool) (max_reqs : option nat) (threshold : Z)
  (logprobs : QReq → bool * Z) (max_batch : Z) (uninit : Z → list Z) (mp chunk_size : Z).
Hypothesis Hsteps : 0 ≤ steps.
Hypothesis Hchunk : 1 ≤ chunk_size.

#[local] Notation raw := (get_new_batch_prefill_raw 1 false steps config allow cp max_reqs threshold logprobs max_batch false uninit None mp
  (Some chunk_size)).
#[local] Notation next_batch := (get_next_batch_to_run 1 false steps config allow cp max_reqs threshold logprobs max_batch false uninit None mp
  (Some chunk_size)).
#[local] Notation turn := (iterate 1 false env steps config allow cp max_reqs threshold logprobs max_batch false uninit None mp (Some chunk_size)).

(** What [merge_last] adds to the running batch. *)
Definition pending (s : Sched (T := T) (P := P)) : list QReq :=
  match s_last s with
  | Some (l, chunked) => filter (fun r => finished r = false ∧ rid <$> s_chunked s ≠ Some (rid r) ∧ chunked ≠ Some (rid r)) l
  | None => []
  end.

Definition unfinished (l : list QReq) : list QReq := filter (fun r => finished r = false) l.

Lemma unfinished_app l k : unfinished (l ++ k) = unfinished l ++ unfinished k.
Proof. apply filter_app. Qed.

Definition done_of (l : list QReq) : list QReq := filter (fun r => finished r = true) l.

Lemma split_done (l : list QReq) : l ≡ₚ unfinished l ++ done_of l.
Proof.
  unfold unfinished, done_of. induction l as [|r l IH]; [done|]. rewrite !filter_cons. destruct (finished r) eqn:E.
  - rewrite decide_False, decide_True by congruence. rewrite IH at 1. by rewrite Permutation_middle.
  - rewrite decide_True, decide_False by congruence. rewrite IH at 1. done.
Qed.

(** The requests the server has accepted and not answered, by name. *)
Definition names (s : Sched (T := T) (P := P)) (running : list QReq) : list string :=
  rid <$> unfinished running ++ option_list (s_chunked s) ++ s_waiting s.

(** In the running batch: a finished request stays until the next step. *)
Definition active (r : QReq) : Prop := output_len r ≤ max_new_tokens r ∧ (finished r = false → decoding r) ∧ (finished r = true → released r).

(** The state with [running] as the running batch.  [stashed]: the prefix of the unfinished chunk is that of its row. *)
Record ready (stashed : Prop) (N : Z) (s : Sched (T := T) (P := P)) (running : list QReq) : Prop := {
  iv_sys : sys_inv N (s_world s) (option_list (base <$> s_chunked s) ++ alive running);
  iv_ctx : max_context_len (pool (s_world s)) = ctx;
  iv_run : Forall active running;
  iv_chunk : ∀ c, s_chunked s = Some c → chunking c ∧ s_scheduled s = true ∧
    (stashed → prefix_indices (base c) = take (kv_committed_len (base c)) (row_of (pool (s_world s)) (base c)));
  iv_wait : Forall queued_ok (s_waiting s);
  iv_names : NoDup (names s running);
  iv_queue : queue_ok config (s_waiting s);
  iv_limit : within_limit config (s_waiting s);
  iv_tracker : tracker_ok (s_tracker s);
  iv_policy : needs_priority (s_policy s) = true → qc_priority_scheduling config = true;
}.

(** The invariant of the loop. *)
Definition loop_inv (N : Z) (s : Sched) : Prop :=
  ready False N s (s_running s ++ pending s) ∧ (s_last s = None → s_chunked s = None) ∧
  ∀ l c, s_last s = Some (l, c) → unfinished l ≡ₚ option_list (s_chunked s) ++ pending s ∧ Forall (fun r => finished r = true → released r) l.

Lemma stash_ok N s running :
  ready False N s running → ∃ s', stash_chunked_request s = Ok s' ∧ ready True N s' running ∧
    s_running s' = s_running s ∧ s_last s' = s_last s ∧ rid <$> s_chunked s' = rid <$> s_chunked s ∧
    names s' running = names s running ∧ s_aborted s' = s_aborted s.
Proof.
  intros R. unfold stash_chunked_request. destruct (s_chunked s) as [c|] eqn:Hc.
  2: { exists s. split_and!; try done; [|by rewrite Hc]. destruct R. split; try done. intros c Hc'. congruence. }
  destruct (iv_chunk _ _ _ _ R c Hc) as (Hch & Hsc & _). rewrite Hsc. unfold maybe_cache_unfinished_req.
  pose proof Hch as (Hsane & Hi & Hfill & Hcom & Ho & Hin). assert (skip_radix_cache_insert (base c) = false) as -> by apply Hsane.
  pose proof (iv_sys _ _ _ _ R) as Hs. rewrite Hc in Hs. cbn [fmap option_fmap option_map option_list app] in Hs.
  destruct (cache_inv N _ (base c) _ true Hs Hi Hfill) as (w' & b & -> & Hs' & Hb & Hctx). cbn [mbind result_bind fst snd].
  assert (Hn : names (with_chunked (Some (set_base b c)) true (with_world w' s)) running = names s running).
  { unfold names. cbn [s_chunked s_waiting with_chunked with_world]. by rewrite Hc, !fmap_app. }
  eexists. split; [done|]. split; [|by split_and!]. destruct R. split; try done; cbn [s_world s_chunked with_chunked with_world]; [congruence| |].
  - intros ? [= <-]. cbn [base set_base]. split; [|split; [done|]].
    + rewrite Hb. exact Hch.
    + intros _. rewrite Hb at 1 2. done.
  - by rewrite Hn.
Qed.

Lemma merge_running s : s_running (merge_last s) = s_running s ++ pending s.
Proof.
  unfold merge_last, pending. destruct (s_last s) as [[l c]|]; [|by rewrite app_nil_r]. case_bool_decide as Hk; [by rewrite Hk, app_nil_r|].
  case_bool_decide as Hr; [cbn; by rewrite Hr|done].
Qed.

Lemma merge_last_ok N st s : ready st N s (s_running s ++ pending s) → ready st N (merge_last s) (s_running (merge_last s)).
Proof.
  rewrite merge_running. generalize (s_running s ++ pending s). intros running [].
  unfold merge_last. destruct (s_last s) as [[l c]|]; [|done]. repeat case_bool_decide; done.
Qed.

Lemma merge_same s running : names (merge_last s) running = names s running ∧ s_aborted (merge_last s) = s_aborted s.
Proof. unfold merge_last. destruct (s_last s) as [[l c]|]; [|done]. repeat case_bool_decide; done. Qed.

(** ** The prefill batch *)

Lemma core_fields r r' : core r' = core r →
  rid r' = rid r ∧ max_new_tokens r' = max_new_tokens r ∧ finished r' = finished r ∧ ignore_eos r' = ignore_eos r ∧
  origin_input_ids (base r') = origin_input_ids (base r) ∧ output_ids (base r') = output_ids (base r) ∧
  req_priority (base r') = req_priority (base r) ∧ inflight_middle_chunks (base r') = inflight_middle_chunks (base r) ∧
  skip_radix_cache_insert (base r') = skip_radix_cache_insert (base r).
Proof. destruct r as [[] ? ? ? ? ? ? ?], r' as [[] ? ? ? ? ? ? ?]. unfold core, core_req. cbn. intros [=]. by split_and!. Qed.

Lemma sane_core r r' : core r' = core r → sane r → sane r'.
Proof. intros (? & Hm & Hf & _ & Ho & _ & _ & _ & Hk)%core_fields. unfold sane. by rewrite Hm, Hf, Ho, Hk. Qed.

Lemma queued_core r r' : same_core r r' → queued_ok r → queued_ok r'.
Proof.
  intros [Hc Hfr] (Hsane & Hf & Ho & Hi). split; [by eapply sane_core|]. split; [by apply Hfr|]. unfold output_len in *.
  apply core_fields in Hc as (_ & -> & _ & _ & _ & -> & _ & -> & _). done.
Qed.

Lemma queued_waiting p r : max_context_len p = ctx → queued_ok r → waiting_ok p r.
Proof.
  intros Hctx ((H1 & H2 & H3 & _) & Hf & Ho & _). split; [done|]. split; [|done]. unfold tokens, output_len in *. rewrite length_app. lia.
Qed.

(** A renewed tree with the same content. *)
Lemma tree_inv N (w : World T) t rs :
  sys_inv N w rs → cache_ok t (nodes rs) → (∀ x, holds x t = holds x (tree w)) → (∀ r ts row, claim (tree w) r ts row → claim t r ts row) →
  sys_inv N (set_tree t w) rs.
Proof.
  intros [H1 H2 H3 H4 H5] Hc Hh Hk. split; try done.
  - eapply Forall_impl; [exact H4|]. intros r. unfold req_inv. cbn [tree pool set_tree]. destruct (req_pool_idx r); naive_solver.
  - intros x. rewrite <-H5. unfold total. cbn [tree kv pool set_tree]. by rewrite Hh.
Qed.

(** A prefill batch that is about to run. *)
Record batched (N : Z) (s : Sched (T := T) (P := P)) (batch : list QReq) : Prop := {
  ba_sys : sys_inv N (s_world s) ((base <$> batch) ++ alive (s_running s));
  ba_ctx : max_context_len (pool (s_world s)) = ctx;
  ba_pre : Forall prefilling batch;
  ba_inflight : Forall (fun r => inflight_middle_chunks (base r) = if decide (rid <$> s_chunked s = Some (rid r)) then 1 else 0) batch;
  ba_chunk : ∀ c, s_chunked s = Some c → c ∈ batch ∧ s_scheduled s = true;
  ba_run : Forall active (s_running s);
  ba_wait : Forall queued_ok (s_waiting s);
  ba_names : NoDup (rid <$> unfinished (s_running s) ++ batch ++ s_waiting s);
  ba_queue : queue_ok config (s_waiting s);
  ba_limit : within_limit config (s_waiting s);
  ba_tracker : tracker_ok (s_tracker s);
  ba_policy : needs_priority (s_policy s) = true → qc_priority_scheduling config = true;
}.

(** One request of the batch: [r] as it was admitted, [x] with its slots. *)
Lemma extended_prefilling (c' : option QReq) (r x : QReq) b :
  sane r → output_len r ≤ max_new_tokens r → inflight_middle_chunks (base r) = 0 → fill_ids (base r) ≠ [] →
  extended (base (count_chunk c' r)) b → x = set_base b r → fill_ids b `prefix_of` tokens b →
  (fill_ids (base r) = tokens (base r) ∧ rid <$> c' ≠ Some (rid r) ∨ unfilled r ∧ rid <$> c' = Some (rid r)) →
  prefilling x ∧ inflight_middle_chunks (base x) = if decide (rid <$> c' = Some (rid x)) then 1 else 0.
Proof.
  intros Hsane Ho Hin Hne (i & ->) -> Hpre Hor. cbn [base set_base rid] in *.
  assert (Hcc : base (count_chunk c' r) = if decide (rid <$> c' = Some (rid r)) then set_inflight 1 (base r) else base r).
  { unfold count_chunk. destruct c' as [c|]; cbn [fmap option_fmap option_map]; [|by rewrite decide_False].
    case_bool_decide as Hc; [rewrite decide_True by congruence; cbn; by rewrite Hin|by rewrite decide_False by congruence]. }
  rewrite Hcc in *. destruct (decide (rid <$> c' = Some (rid r))) as [E|E].
  - split; [|done]. destruct Hor as [[_ ?]|[Hun _]]; [done|].
    assert (Hfill : fill_ids (base r) = take (length (fill_ids (base r))) (tokens (base r))).
    { destruct Hpre as [k Hk]. change (tokens (base r) = fill_ids (base r) ++ k) in Hk. by rewrite Hk, take_app_length. }
    assert (length (fill_ids (base r)) ≠ 0%nat) by (by intros ?%nil_length_inv). unfold unfilled in Hun.
    split; [exact Hfill|]. right. split; [|done]. split; [exact Hsane|]. split; [done|]. split; [exact Hfill|].
    split; [change (0 < length (fill_ids (base r)) < length (tokens (base r)))%nat; lia|]. by split.
  - split; [|exact Hin]. destruct Hor as [[Hf _]|[_ ?]]; [|done]. unfold prefilling. cbn. rewrite Hf.
    change (tokens (set_lens _ _ _)) with (tokens (base r)). split; [by rewrite firstn_all|]. left.
    split; [exact Hsane|]. split; [done|]. split; [done|]. by split.
Qed.

(** A request that can be scheduled, wherever it waits. *)
Definition idle (r : QReq) : Prop := sane r ∧ output_len r ≤ max_new_tokens r ∧ inflight_middle_chunks (base r) = 0.

Lemma idle_core r r' : core r' = core r → idle r → idle r'.
Proof.
  intros Hc (Hs & Ho & Hi). split; [by eapply sane_core|]. unfold output_len in *.
  apply core_fields in Hc as (_ & -> & _ & _ & _ & -> & _ & -> & _). done.
Qed.

Lemma same_name (L : list QReq) a b : NoDup (rid <$> L) → a ∈ L → b ∈ L → rid a = rid b → a = b.
Proof.
  intros Hnd [i Hi]%list_elem_of_lookup [j Hj]%list_elem_of_lookup E.
  assert (i = j) as ->; [|congruence]. eapply NoDup_lookup; [exact Hnd|rewrite list_lookup_fmap, Hi; done|rewrite list_lookup_fmap, Hj; cbn; congruence].
Qed.

Lemma cores_rids (l k : list QReq) : core <$> l = core <$> k → rid <$> l = rid <$> k.
Proof.
  revert k. induction l as [|r l IH]; intros [|r' k]; try done. rewrite !fmap_cons. intros H.
  pose proof (f_equal (default (core r) ∘ head) H : core r = core r') as Hc. pose proof (f_equal tail H) as Hl.
  f_equal; [|by apply IH]. by apply core_fields in Hc as (-> & _).
Qed.

Lemma batch_each c' (L : list QReq) : ∀ reqs, Forall2 extended (base ∘ count_chunk c' <$> L) reqs →
  let batch := zip_with (fun r b => set_base b r) L reqs in
  base <$> batch = reqs ∧ rid <$> batch = rid <$> L ∧
  Forall (fun x => ∃ r b, r ∈ L ∧ b ∈ reqs ∧ extended (base (count_chunk c' r)) b ∧ x = set_base b r) batch.
Proof.
  induction L as [|r L IH]; intros reqs H; cbn [fmap list_fmap] in H; inversion H as [|? b ? reqs' Hb Hr]; subst; [by split_and!|].
  destruct (IH reqs' Hr) as (H1 & H2 & H3). cbn [zip_with]. split_and!.
  - rewrite fmap_cons. by f_equal.
  - rewrite !fmap_cons. by f_equal.
  - constructor; [exists r, b; split_and!; [left|left|exact Hb|done]|]. eapply Forall_impl; [exact H3|].
    intros x (r0 & b0 & Hr0 & Hb0 & He & ->). exists r0, b0. split_and!; [by right|by right|exact He|done].
Qed.

(** The unfinished request is the one of the batch with its name. *)
Lemma refresh_ok c (L : list QReq) : rid c ∈ rid <$> L → ∃ x, refresh (Some c) L = Some x ∧ x ∈ L ∧ rid x = rid c.
Proof.
  intros (y & Hy & Hin)%list_elem_of_fmap. cbn [refresh]. destruct (head _) as [x|] eqn:Hh.
  - apply head_Some_elem_of in Hh. apply list_elem_of_filter in Hh as [Hx Hl]. by exists x.
  - exfalso. apply head_None in Hh. assert (y ∈ filter (fun r => rid r = rid c) L) as Hyf by (by apply list_elem_of_filter). rewrite Hh in Hyf.
    by apply not_elem_of_nil in Hyf.
Qed.

(** What [built] says of the batch. *)
Lemma built_batch N os w running waiting chunked p c' reqs locs :
  built N None os w running waiting chunked p c' (Some (reqs, locs)) → Forall idle (option_list chunked ++ waiting) →
  NoDup (rid <$> option_list chunked ++ waiting) →
  let batch := zip_with (fun r b => set_base b r) (can_run_list (p_adder p)) reqs in
  base <$> batch = reqs ∧ rid <$> batch ++ p_waiting p = rid <$> option_list chunked ++ waiting ∧
  Forall (fun x => prefilling x ∧ inflight_middle_chunks (base x) = if decide (rid <$> refresh c' batch = Some (rid x)) then 1 else 0) batch ∧
  (∀ c, refresh c' batch = Some c → c ∈ batch) ∧ (c' = None → refresh c' batch = None) ∧ (c' ≠ None → refresh c' batch ≠ None).
Proof.
  intros B Hidle Hnd. destruct (bu_queue _ _ _ _ _ _ _ _ _ _ B) as (taken & rest & -> & Hcore & Hrest & _).
  destruct (bu_out _ _ _ _ _ _ _ _ _ _ B) as (Hne & Hsys & Hext). set (L := can_run_list (p_adder p)) in *. cbv zeta.
  destruct (batch_each c' L reqs Hext) as (Hb & Hids & Heach). set (batch := zip_with _ L reqs) in *.
  assert (HndL : NoDup (rid <$> L)).
  { rewrite (cores_rids _ _ Hcore). rewrite app_assoc, fmap_app in Hnd. by apply NoDup_app in Hnd as [? _]. }
  assert (Hall : ∀ r, r ∈ L → idle r).
  { intros r Hr. assert (core r ∈ core <$> option_list chunked ++ taken) as (r0 & Hc0 & Hr0)%list_elem_of_fmap by (rewrite <-Hcore; by apply list_elem_of_fmap_2).
    apply (idle_core r0); [done|]. rewrite Forall_forall in Hidle. apply Hidle. rewrite app_assoc. apply elem_of_app. by left. }
  assert (Hfresh : rid <$> refresh c' batch = rid <$> c' ∧ ∀ c, refresh c' batch = Some c → c ∈ batch).
  { destruct (bu_next _ _ _ _ _ _ _ _ _ _ B eq_refl) as [->|(c & -> & Hc & _)]; [done|].
    destruct (refresh_ok c batch) as (x & -> & Hx & Hrx); [rewrite Hids; by apply list_elem_of_fmap_2|]. cbn. split; [by rewrite Hrx|by intros ? [= <-]]. }
  destruct Hfresh as [Hfr Hfin]. split; [done|]. split; [|split; [|split; [done|]]].
  - rewrite fmap_app, Hids, (cores_rids _ _ Hcore), (cores_rids _ _ Hrest). by rewrite app_assoc, (fmap_app _ _ rest).
  - eapply Forall_impl; [exact Heach|]. intros x (r & b & Hr & Hbr & He & ->). rewrite Hfr. destruct (Hall r Hr) as (Hs & Ho & Hi).
    apply (extended_prefilling c' r (set_base b r) b); try done.
    + pose proof (bu_some _ _ _ _ _ _ _ _ _ _ B) as Hsome. rewrite Forall_forall in Hsome. by apply Hsome.
    + pose proof (si_reqs _ _ _ Hsys) as Hre. rewrite Forall_forall in Hre. apply (Hre b). apply elem_of_app. by left.
    + pose proof (bu_chunk _ _ _ _ _ _ _ _ _ _ B eq_refl) as Hch. rewrite Forall_forall in Hch.
      destruct (decide (rid <$> c' = Some (rid r))) as [E|E]; [right|left; split; [|done]; destruct (Hch r Hr) as [|Hc]; [done|by rewrite Hc in E]].
      split; [|done]. destruct (bu_next _ _ _ _ _ _ _ _ _ _ B eq_refl) as [Hn|(c & Hc & Hin & Hun)]; [by rewrite Hn in E|].
      rewrite Hc in E. injection E as E. by rewrite (same_name L r c HndL Hr Hin).
  - destruct c' as [c|]; done.
Qed.

(** The queue in its new order. *)
Definition reordered (t : T) (sp : P) (q : list QReq) (s : Sched (T := T) (P := P)) : Sched :=
  mkSched (set_tree t (s_world s)) sp q (s_running s) (s_full s) (s_last s) (s_chunked s) (s_scheduled s) (s_tracker s) (s_aborted s).

Lemma reorder_ok N s running :
  ready True N s running →
  ∃ t sp q, reorder (s_policy s) (s_waiting s) (s_running s) (tree (s_world s)) = Ok (t, sp, q) ∧ evictable t = evictable (tree (s_world s)) ∧
    ready True N (reordered t sp q s) running ∧ names (reordered t sp q s) running ≡ₚ names s running.
Proof.
  intros [H1 H2 H3 H4 H5 H6 H7 H8 H9 H10]. unfold names in *. pose proof (si_cache _ _ _ H1) as Hc.
  destruct (reorder_law (s_policy s) (s_waiting s) (s_running s) (tree (s_world s)) _ Hc) as (t & sp & q1 & q & E & Hq1 & Hq & Hct & Hh & He & Hk & Hp).
  { rewrite !fmap_app in H6. by apply NoDup_app in H6 as (_ & _ & (_ & _ & ?)%NoDup_app). }
  { intros Hn. apply H7. by apply H10. }
  exists t, sp, q. split; [done|]. split; [done|].
  assert (Hids : rid <$> q ≡ₚ rid <$> s_waiting s).
  { rewrite Hq. clear -Hq1. induction Hq1 as [|r r' l l' [Hr _] _ IH]; [done|]. rewrite !fmap_cons, IH. by apply core_fields in Hr as (-> & _). }
  assert (Hcores : ∀ Q : QReq → Prop, (∀ r r', same_core r r' → Q r → Q r') → Forall Q (s_waiting s) → Forall Q q).
  { intros Q HQ Hw. rewrite Hq. clear -Hq1 HQ Hw. induction Hq1 as [|r r' l l' Hr _ IH]; [done|]. apply Forall_cons in Hw as [Hw1 Hw2].
    constructor; [by eapply HQ|by apply IH]. }
  split; [|cbn [reordered s_chunked s_waiting]; rewrite !fmap_app; by rewrite Hids].
  split; cbn [reordered s_world s_chunked s_waiting s_tracker s_policy s_scheduled]; try done.
  - by apply tree_inv.
  - apply (Hcores queued_ok); [apply queued_core|done].
  - unfold names. cbn [reordered s_chunked s_waiting]. rewrite !fmap_app in *. by rewrite Hids.
  - destruct H7 as [H7 H7']. split; [|done]. intros Hpr. apply (Hcores has_priority); [|by apply H7].
    intros r r' [Hr _]. unfold has_priority. by apply core_fields in Hr as (_ & _ & _ & _ & _ & _ & -> & _).
  - unfold within_limit in *. destruct (max_queued_requests config); [|done]. apply Permutation_length in Hids. rewrite !length_fmap in Hids. lia.
  - by rewrite Hp.
Qed.

(** No memory for one token of the unfinished chunk. *)
Definition starved (s : Sched (T := T) (P := P)) : Prop :=
  s_chunked s ≠ None ∧
  ¬ (1 <= rem_total_tokens (s_world s) (new_adder (ratio_current (s_tracker s)) None (Some (s_running s)) mp (Some chunk_size) 0 0))%Q.

Lemma chunk_continues w a c :
  max_context_len (pool w) = ctx → chunking c → prefix_indices (base c) = take (kv_committed_len (base c)) (row_of (pool w) (base c)) →
  rem_chunk_tokens a = Some chunk_size → chunk_cont (T := T) w a c.
Proof.
  intros Hctx ((H1 & H2 & H3 & _) & Hi & Hfill & Hcom & Ho & Hin) Hpre Ha. split; [|split; [done|split; [done|by exists chunk_size]]].
  split; [unfold reusable; cbn; destruct (req_pool_idx (base c)); [|done]; apply orb_true_iff; right; apply bool_decide_eq_true; lia|].
  split; [|done]. cbn [next_chunk fill_ids set_tokens prefix_indices]. rewrite Hpre, length_take. fold (tokens (base c)).
  unfold tokens, output_len in *. rewrite length_app in *. lia.
Qed.

(** What stays in the queue after a pass keeps what holds of the queue. *)
Lemma waiting_kept q taken rest w :
  q = taken ++ rest → core <$> w = core <$> rest → Forall (fun r => fresh (base r)) w →
  Forall queued_ok q → queue_ok config q → within_limit config q → Forall queued_ok w ∧ queue_ok config w ∧ within_limit config w.
Proof.
  intros Hq Hrest Hfresh H5 H7 H8.
  assert (Hwait : ∀ Q : QReq → Prop, (∀ r r', core r' = core r → fresh (base r') → Q r → Q r') → Forall Q q → Forall Q w).
  { intros Q HQ Hall. rewrite Hq in Hall. apply Forall_app in Hall as [_ Hall]. apply Forall_forall. intros r Hr.
    assert (core r ∈ core <$> rest) as (r0 & Hc0 & Hr0)%list_elem_of_fmap by (rewrite <-Hrest; by apply list_elem_of_fmap_2).
    rewrite Forall_forall in Hall, Hfresh. apply (HQ r0); [done|by apply Hfresh|by apply Hall]. }
  split_and!.
  - apply Hwait; [|done]. intros r r' Hc Hf. by apply queued_core.
  - split; [|apply H7]. intros Hp. apply Hwait; [|by apply H7]. intros r r' Hr _. unfold has_priority.
    by apply core_fields in Hr as (_ & _ & _ & _ & _ & _ & -> & _).
  - unfold within_limit in *. destruct (max_queued_requests config); [|done]. rewrite Hq, length_app in H8.
    apply (f_equal length) in Hrest. rewrite !length_fmap in Hrest. lia.
Qed.

(** [_get_new_batch_prefill_raw] runs nothing, builds a batch, or lacks the memory for the chunk. *)
Lemma raw_ok N s :
  ready True N s (s_running s) →
  (∃ s', raw s = Ok (s', None) ∧ ready True N s' (s_running s') ∧ s_chunked s' = None ∧
     names s' (s_running s') ≡ₚ names s (s_running s) ∧ s_aborted s' = s_aborted s) ∨
  (∃ s' batch, raw s = Ok (s', Some batch) ∧ batched N s' batch ∧
     rid <$> unfinished (s_running s') ++ batch ++ s_waiting s' ≡ₚ names s (s_running s) ∧ s_aborted s' = s_aborted s) ∨
  (raw s = Raise RuntimeError ∧ starved s).
Proof.
  intros R. unfold get_new_batch_prefill_raw.
  replace (with_running (s_running s) (s_full s) s) with s by (by destruct s).
  destruct ((s_full s || _) && _) eqn:G1.
  { left. exists s. do 2 (split; [done|]). split; [|done]. apply andb_prop in G1 as [_ G1]. by apply bool_decide_eq_true in G1. }
  destruct (_ && _ && _) eqn:G2.
  { left. eexists. split; [done|]. split; [by destruct R|]. split; [|done]. apply andb_prop in G2 as [[_ G2]%andb_prop _]. by apply bool_decide_eq_true in G2. }
  clear G1 G2. destruct (reorder_ok N s _ R) as (t & sp & q & -> & Hev & R1 & Hnames). cbn [mbind result_bind].
  set (s1 := reordered t sp q s) in *. pose proof R1 as [H1 H2 H3 H4 H5 H6 H7 H8 H9 H10].
  destruct (new_batch_ok (ratio_current (s_tracker s)) allow cp max_reqs threshold steps true (qc_low_first config) logprobs max_batch uninit
    N None mp (Some chunk_size) 0 0 (s_running s) q (s_chunked s) (s_full s) (set_tree t (s_world s)) (alive (s_running s)))
    as [(p & c & out & E & B)|(E & Hc & Hno)]; [exact H1|apply H9|done| | |done| | |].
  { eapply Forall_impl; [exact H3|]. by intros r [? _]. }
  { eapply Forall_impl; [exact H5|]. intros r. by apply queued_waiting. }
  { intros c Hc. destruct (H4 c Hc) as (Hch & _ & Hpre). apply chunk_continues; [done|done|by apply Hpre|]. cbn. f_equal. lia. }
  2: { right. right. change (Z.of_nat 1) with 1. rewrite E. split; [done|]. split; [done|].
       unfold rem_total_tokens, available_and_evictable in *. cbn [tree kv s_world s1 reordered set_tree] in Hno. by rewrite Hev in Hno. }
  change (Z.of_nat 1) with 1. rewrite E. cbn [mbind result_bind].
  pose proof (bu_ctx _ _ _ _ _ _ _ _ _ _ B) as Hctx. pose proof (bu_running _ _ _ _ _ _ _ _ _ _ B) as Hrun.
  pose proof (bu_queue _ _ _ _ _ _ _ _ _ _ B) as (taken & rest & Hq & Hcore & Hrest & Hfresh).
  destruct (waiting_kept q taken rest (p_waiting p) Hq Hrest Hfresh H5 H7 H8) as (Hwq & Hqq & Hql).
  destruct out as [[reqs locs]|].
  - right. left. eexists _, _. split; [done|]. rewrite <-Hnames. unfold names in *.
    destruct (built_batch N _ _ _ _ _ _ _ _ _ B) as (Hb & Hids & Heach & Hin & Hn1 & Hn2).
    { apply Forall_app. split.
      - clear -H4. cbn [s_chunked s1 reordered] in H4. destruct (s_chunked s) as [c0|]; [|constructor]. constructor; [|constructor].
        destruct (H4 c0 eq_refl) as ((Hs0 & _ & _ & _ & Ho & Hi) & _). by split_and!.
      - eapply Forall_impl; [exact H5|]. intros r (Hs0 & _ & Ho & Hi). by split_and!. }
    { rewrite fmap_app in H6. by apply NoDup_app in H6 as (_ & _ & ?). }
    split; cbn [s_running s_waiting s_aborted]; [|split; [|done]; by rewrite Hrun, !(fmap_app _ (unfinished _)), Hids].
    split; cbn [s_world s_chunked s_waiting s_running s_tracker s_policy s_scheduled]; rewrite ?Hrun; try done.
    + rewrite Hb. apply (bu_out _ _ _ _ _ _ _ _ _ _ B).
    + by rewrite Hctx.
    + eapply Forall_impl; [exact Heach|]. by intros x [? _].
    + eapply Forall_impl; [exact Heach|]. by intros x [_ ?].
    + intros c0 Hc0. split; [by apply Hin|]. by rewrite Hc0.
    + cbn [s1 reordered s_chunked s_waiting] in H6. rewrite (fmap_app _ (unfinished _)) in H6 |- *. by rewrite Hids.
  - left. eexists. split; [done|]. rewrite <-Hnames. unfold names in *.
    destruct (bu_out _ _ _ _ _ _ _ _ _ _ B) as (Hemp & Hsys). rewrite Hemp in Hcore. cbn in Hcore.
    assert (s_chunked s = None ∧ taken = []) as [Hcn ->].
    { destruct (s_chunked s), taken; try done. }
    assert (c = None) as ->.
    { destruct (bu_next _ _ _ _ _ _ _ _ _ _ B eq_refl) as [|(c0 & _ & Hc0 & _)]; [done|]. rewrite Hemp in Hc0. by apply not_elem_of_nil in Hc0. }
    cbn [app] in Hq. cbn [s1 reordered s_chunked s_waiting] in H6. rewrite Hcn in H6. cbn [option_list app] in H6.
    assert (Hn : rid <$> unfinished (s_running s) ++ p_waiting p = rid <$> unfinished (s_running s) ++ q)
      by (rewrite !fmap_app, (cores_rids _ _ Hrest), Hq; done).
    split; [|split; [done|split; [|done]]].
    2: { cbn [s_running s_waiting s_chunked option_list app]. rewrite Hrun, Hn. cbn [s1 reordered s_chunked s_waiting]. by rewrite Hcn. }
    split; unfold names; cbn [s_world s_chunked s_waiting s_running s_tracker s_policy s_scheduled fmap option_fmap option_map option_list app];
      rewrite ?Hrun; try done; [by rewrite Hctx|by rewrite Hn].
Qed.

(** ** The results of a prefill batch *)

(** What is left of a batch: the unfinished chunk and the requests that will decode. *)
Definition leftover (name : option string) (l : list QReq) : list QReq :=
  filter (fun r => finished r = false ∧ name ≠ Some (rid r) ∧ name ≠ Some (rid r)) l.

Lemma leftover_split (c : option QReq) l :
  NoDup (rid <$> l) → (∀ x, c = Some x → x ∈ l ∧ finished x = false) → unfinished l ≡ₚ option_list c ++ leftover (rid <$> c) l.
Proof.
  intros Hnd Hc. assert (Hl : NoDup l) by (by eapply NoDup_fmap_1). unfold unfinished, leftover. destruct c as [x|]; cbn [option_list app].
  2: { apply reflexive_eq. apply list_filter_iff. naive_solver. }
  destruct (Hc x eq_refl) as [Hx Hf]. apply NoDup_Permutation; [by apply NoDup_filter| |].
  - constructor; [|by apply NoDup_filter]. intros [(_ & Hn & _) _]%list_elem_of_filter. done.
  - intros r. rewrite list_elem_of_filter, elem_of_cons, list_elem_of_filter. cbn. split.
    + intros [Hr Hin]. destruct (decide (rid x = rid r)) as [E|E]; [left; symmetry; by apply (same_name l)|right]. split_and!; congruence.
    + intros [->|[(? & _) ?]]; done.
Qed.

Lemma resulting_rids batch l : Forall2 resulting batch l → rid <$> l = rid <$> batch.
Proof. induction 1 as [|r r' ? ? (_ & Hr & _) _ IH]; [done|]. rewrite !fmap_cons. congruence. Qed.

Lemma resulting_in batch l r' : Forall2 resulting batch l → r' ∈ l → ∃ r, r ∈ batch ∧ resulting r r'.
Proof. intros H [i Hi]%list_elem_of_lookup. destruct (Forall2_lookup_r _ _ _ _ _ H Hi) as (r & Hr & Hres). exists r. split; [by eapply list_elem_of_lookup_2|done]. Qed.

Lemma prefill_step N s batch toks :
  batched N s batch → length toks = length batch →
  (∃ w' l, process_batch_result_prefill 1 false env toks batch (s_world s) = Ok (w', l) ∧
    let s' := with_last (Some (l, rid <$> s_chunked s)) (with_chunked (refresh (s_chunked s) l) (s_scheduled s) (with_world w' s)) in
    loop_inv N s' ∧ rid <$> unfinished (s_running s) ++ batch ++ s_waiting s ≡ₚ names s' (s_running s' ++ pending s') ++ (rid <$> done_of l)) ∨
  unread (rid <$> batch) (process_batch_result_prefill 1 false env toks batch (s_world s)).
Proof.
  intros [H1 H2 H3 H4 H5 H6 H7 H8 H9 H10 H11 H12] Hlen.
  destruct (process_prefill_ok N (alive (s_running s)) toks batch (s_world s) Hlen H1 H3) as [(w' & l & -> & Hs & Hres & Hctx)|Hu]; [left|by right].
  exists w', l. split; [done|]. cbv zeta. pose proof (resulting_rids _ _ Hres) as Hids.
  assert (Hnd : NoDup (rid <$> l)).
  { rewrite Hids. rewrite !fmap_app in H8. by apply NoDup_app in H8 as (_ & _ & (? & _)%NoDup_app). }
  assert (Hc : rid <$> refresh (s_chunked s) l = rid <$> s_chunked s ∧
    ∀ x, refresh (s_chunked s) l = Some x → x ∈ l ∧ finished x = false ∧ chunking x ∧ s_scheduled s = true).
  { destruct (s_chunked s) as [c|]; [|done]. destruct (H5 c eq_refl) as [Hin Hsc].
    destruct (refresh_ok c l) as (x & -> & Hx & Hrx); [rewrite Hids; by apply list_elem_of_fmap_2|]. cbn. split; [by rewrite Hrx|]. intros ? [= <-].
    destruct (resulting_in _ _ _ Hres Hx) as (r & Hr & _ & R1 & _ & _ & R2 & R3). rewrite Forall_forall in H4. specialize (H4 r Hr). cbn in H4.
    rewrite decide_True in H4 by congruence. rewrite decide_False in R2 by lia. split; [done|]. split; [apply R3; lia|]. split; [apply R2, R3; lia|done]. }
  destruct Hc as [Hcr Hcx]. set (c' := refresh (s_chunked s) l) in *.
  assert (Hpend : pending (with_last (Some (l, rid <$> s_chunked s)) (with_chunked c' (s_scheduled s) (with_world w' s))) = leftover (rid <$> c') l).
  { unfold pending, leftover. cbn [s_last with_last s_chunked with_chunked with_world]. by rewrite Hcr. }
  pose proof (leftover_split c' l Hnd) as Hsplit. specialize (Hsplit ltac:(intros x Hx; by destruct (Hcx x Hx) as (? & ? & _))).
  assert (Hleft : unfinished (leftover (rid <$> c') l) = leftover (rid <$> c') l).
  { apply filter_all. apply Forall_forall. by intros r [(? & _) _]%list_elem_of_filter. }
  assert (Hp : unfinished (s_running s) ++ unfinished l ++ s_waiting s ≡ₚ (unfinished (s_running s) ++ leftover (rid <$> c') l) ++ option_list c' ++ s_waiting s)
    by (rewrite Hsplit; solve_Permutation).
  unfold loop_inv. rewrite Hpend. split; [split; [|split; [done|intros ? ? [= <- <-]; split; [exact Hsplit|]]]|].
  2: { apply Forall_forall. intros x Hx. by destruct (resulting_in _ _ _ Hres Hx) as (r & _ & Hrel & _). }
  2: { unfold names. cbn [s_chunked s_waiting s_running with_last with_chunked with_world]. rewrite unfinished_app, Hleft, <-Hp.
       rewrite !fmap_app, <-Hids. rewrite (split_done l) at 1. rewrite fmap_app. solve_Permutation. }
  split; unfold names; cbn [s_world s_chunked s_waiting s_running s_tracker s_policy s_scheduled with_last with_chunked with_world]; try done.
  - eapply sys_inv_perm; [|exact Hs]. unfold alive. rewrite filter_app, !fmap_app. fold (unfinished l) (unfinished (s_running s)).
    fold (unfinished (leftover (rid <$> c') l)). rewrite Hleft, Hsplit, fmap_app.
    replace (base <$> option_list c') with (option_list (base <$> c')) by (by destruct c'). solve_Permutation.
  - congruence.
  - apply Forall_app. split; [done|]. apply Forall_forall. intros x [(Hf & Hn & _) Hx]%list_elem_of_filter.
    destruct (resulting_in _ _ _ Hres Hx) as (r & Hr & _ & R1 & _ & _ & R2 & _). rewrite Forall_forall in H4. specialize (H4 r Hr). cbn in H4.
    rewrite decide_False in H4 by congruence. rewrite decide_True in R2 by done. split; [|split; [done|congruence]]. destruct (R2 Hf) as (_ & _ & _ & ? & _). lia.
  - intros x Hx. destruct (Hcx x Hx) as (_ & _ & ? & ?). by split_and!.
  - rewrite unfinished_app, Hleft.
    rewrite <-Hp. eapply sublist_NoDup; [exact H8|]. rewrite !fmap_app, <-Hids. repeat apply sublist_app; try done.
    apply fmap_sublist, sublist_filter.
Qed.

(** ** The decode step *)

Lemma queued_queue_prop : queue_prop queued_ok.
Proof. split; intros r x (Hs & Hf & Ho & Hi); by split_and!. Qed.

Lemma decoding_tokens r : decoding r → (length (tokens (base r)) < ctx)%nat.
Proof. intros ((_ & H & _) & _ & _ & Ho & _). unfold tokens, output_len in *. rewrite length_app. lia. Qed.

Lemma decoding_decodes p r : max_context_len p = ctx → decoding r → decodes p r.
Proof.
  intros Hctx Hd. pose proof (decoding_tokens r Hd). destruct Hd as (Hs & Hi & Hc & Ho & _). split; [|apply Hs]. split; [done|]. lia.
Qed.

Lemma decoding_retracted r : decoding r → queued_ok (retracted_req r).
Proof.
  intros (Hs & Hi & Hc & Ho & _). split; [exact Hs|]. split; [apply retracted_fresh|]. split; [|done].
  change (output_len r ≤ max_new_tokens r). lia.
Qed.

Lemma decoding_stepping r : decoding r → stepping (decoded_q r).
Proof. intros (Hs & Hi & Hc & Ho & Hin). split; [exact Hs|]. split; [exact Hi|]. split; [exact Hc|]. split; [|done]. change (output_len r ≤ max_new_tokens r). lia. Qed.

(** The state after [update_running_batch]. *)
Definition updated (u : Running (T := T)) (s : Sched (T := T) (P := P)) : Sched :=
  mkSched (ru_world u) (s_policy s) (ru_waiting u) (ru_reqs u) (ru_full u) (s_last s) (s_chunked s) (s_scheduled s)
    (ru_tracker u) (s_aborted s ++ ru_aborted u).

(** After it: the requests that decode have their slots. *)
Record stepped (N : Z) (s : Sched (T := T) (P := P)) : Prop := {
  st_sys : sys_inv N (s_world s) (base <$> s_running s);
  st_ctx : max_context_len (pool (s_world s)) = ctx;
  st_run : Forall (fun r => stepping r ∧ output_len r < max_new_tokens r) (s_running s);
  st_chunk : s_chunked s = None;
  st_wait : Forall queued_ok (s_waiting s);
  st_names : NoDup (rid <$> s_running s ++ s_waiting s);
  st_queue : queue_ok config (s_waiting s);
  st_limit : within_limit config (s_waiting s);
  st_tracker : tracker_ok (s_tracker s);
  st_policy : needs_priority (s_policy s) = true → qc_priority_scheduling config = true;
}.

Lemma update_ok N s test clock :
  ready True N s (s_running s) → s_chunked s = None →
  ∃ u, update_running_batch NoSpec 1 steps false uninit config test clock
         (mkRunning (s_world s) (s_running s) (s_full s) (s_tracker s) (s_waiting s) [] None) = Ok u ∧ stepped N (updated u s) ∧
    rid <$> ru_reqs u ++ ru_waiting u ++ s_aborted (updated u s) ≡ₚ names s (s_running s) ++ (rid <$> s_aborted s).
Proof.
  intros [H1 H2 H3 H4 H5 H6 H7 H8 H9 H10] Hc. unfold names in *. rewrite Hc in *. cbn [fmap option_fmap option_map option_list app] in *.
  set (rs := mkRunning _ _ _ _ _ _ _). assert (Hdec : Forall decoding (unfinished (s_running s))).
  { apply Forall_forall. intros r [Hf Hr]%list_elem_of_filter. rewrite Forall_forall in H3. by apply H3. }
  destruct (update_running_ok steps uninit config N [] test clock rs) as (u & x & gone & lost & E & R & Hr & Hw & Hab & Ht & Hs & Hctx & _);
    try done; [by rewrite app_nil_r| |].
  { eapply Forall_impl; [exact Hdec|]. intros r. by apply decoding_decodes. }
  exists u. split; [done|]. pose proof R as [R1 _ _ R4 [R5 R6] _ _ R8 R9 _]. cbn [ru_reqs rs ru_waiting] in *. fold (unfinished (s_running s)) in *.
  assert (Hkeep : Forall decoding (ru_reqs x)) by (rewrite <-R1 in Hdec; by apply Forall_app in Hdec as [? _]).
  assert (Hdq : rid <$> (decoded_q <$> ru_reqs x) = rid <$> ru_reqs x) by (by rewrite <-list_fmap_compose).
  assert (Hp : (rid <$> ru_reqs x) ++ (rid <$> ru_waiting x) ++ (rid <$> ru_aborted x) ≡ₚ rid <$> unfinished (s_running s) ++ s_waiting s).
  { rewrite <-(fmap_app rid (ru_waiting x)), R4, !fmap_app, <-R1, !fmap_app. solve_Permutation. }
  split.
  2: { cbn [updated s_aborted]. rewrite <-Hp, Hr, Hw, Hab, !fmap_app, Hdq. solve_Permutation. }
  split; cbn [updated s_world s_running s_waiting s_chunked s_tracker s_policy]; rewrite ?Hw, ?Ht; try done.
  - by rewrite app_nil_r in Hs.
  - by rewrite Hctx.
  - rewrite Hr. apply Forall_fmap. eapply Forall_impl; [exact Hkeep|]. intros r Hd. split; [by apply decoding_stepping|]. apply Hd.
  - apply R8; [apply queued_queue_prop| |done]. eapply Forall_impl; [exact Hdec|]. apply decoding_retracted.
  - rewrite Hr, fmap_app, Hdq.
    rewrite <-Hp, app_assoc in H6. by apply NoDup_app in H6 as [? _].
  - by apply R9.
Qed.

Lemma updated_names u (s : Sched (T := T) (P := P)) l n :
  rid <$> ru_reqs u ++ ru_waiting u ++ s_aborted (updated u s) ≡ₚ l ++ (rid <$> s_aborted s) → n ∈ rid <$> ru_reqs u → n ∈ l.
Proof.
  cbn [updated s_aborted]. intros H Hn. assert (Hp : (rid <$> ru_reqs u ++ ru_waiting u ++ ru_aborted u) ++ (rid <$> s_aborted s) ≡ₚ l ++ (rid <$> s_aborted s)).
  { rewrite <-H, !fmap_app. solve_Permutation. }
  apply Permutation_app_inv_r in Hp. rewrite <-Hp, fmap_app. apply elem_of_app. by left.
Qed.

Lemma decode_step N s toks :
  stepped N s → length toks = length (s_running s) →
  (∃ w' l, process_batch_result_decode 1 false env toks (s_running s) (s_world s) = Ok (w', l) ∧
    let s' := with_last None (with_running l (s_full s) (with_world w' s)) in
    loop_inv N s' ∧ rid <$> s_running s ++ s_waiting s ≡ₚ names s' (s_running s' ++ pending s') ++ (rid <$> done_of l)) ∨
  unread (rid <$> s_running s) (process_batch_result_decode 1 false env toks (s_running s) (s_world s)).
Proof.
  intros [H1 H2 H3 H4 H5 H6 H7 H8 H9 H10] Hlen.
  destruct (process_decode_ok N [] toks (s_running s) (s_world s) Hlen) as [(w' & l & -> & Hs & Hres & Hctx)|Hu]; [by rewrite app_nil_r| |left|by right].
  { eapply Forall_impl; [exact H3|]. by intros r [? _]. }
  exists w', l. split; [done|]. pose proof (resulting_rids _ _ Hres) as Hids. unfold loop_inv, pending, names. cbv zeta.
  split; [split; [|by split]|].
  2: { cbn [s_running s_waiting s_chunked s_last with_last with_running with_world]. rewrite H4, app_nil_r. cbn [option_list app].
       rewrite !fmap_app, <-Hids. rewrite (split_done l) at 1. rewrite fmap_app. solve_Permutation. }
  split; unfold names; cbn [s_world s_chunked s_waiting s_running s_tracker s_policy s_scheduled s_last with_last with_running with_world]; rewrite ?H4, ?app_nil_r in *; try done.
  - congruence.
  - apply Forall_forall. intros x Hx. destruct (resulting_in _ _ _ Hres Hx) as (r & Hr & Hrel & _ & Hm & Ho & R2 & _).
    rewrite Forall_forall in H3. destruct (H3 r Hr) as ((_ & _ & _ & _ & Hi) & Hlt). rewrite decide_True in R2 by done. split; [lia|by split].
  - eapply sublist_NoDup; [exact H6|]. cbn [option_list app]. rewrite !fmap_app, <-(resulting_rids _ _ Hres). apply sublist_app; [|done].
    apply fmap_sublist, sublist_filter.
Qed.

(** ** One iteration *)

(** Nothing runs before the chunk: it has no memory. *)
Definition chunk_starved (s : Sched (T := T) (P := P)) : Prop := ∃ s1, stash_chunked_request s = Ok s1 ∧ starved (merge_last s1).

(** The device returns a token for each request of the batch. *)
Definition device_ok (t : Turn) (s : Sched (T := T) (P := P)) : Prop :=
  ∀ s' b, next_batch (time t) s = Ok (s', Some b) →
    length (next_token_ids t) = length (match b with Prefill reqs => reqs | Decode => s_running s' end).

(** From one state to the next: everyone is still there, has finished or was reported. *)
Definition keeps (s s' : Sched (T := T) (P := P)) : Prop :=
  ∃ fin, Forall (fun r => finished r = true) fin ∧
    names s (s_running s ++ pending s) ++ (rid <$> s_aborted s) ≡ₚ
    names s' (s_running s' ++ pending s') ++ (rid <$> s_aborted s') ++ (rid <$> fin).

Lemma done_finished l : Forall (fun r => finished r = true) (done_of l).
Proof. apply Forall_forall. by intros r [? _]%list_elem_of_filter. Qed.

Lemma ready_merged N s : ready False N s (s_running s ++ pending s) →
  ∃ s1, stash_chunked_request s = Ok s1 ∧ ready True N (merge_last s1) (s_running (merge_last s1)) ∧
    names (merge_last s1) (s_running (merge_last s1)) = names s (s_running s ++ pending s) ∧ s_aborted (merge_last s1) = s_aborted s.
Proof.
  intros R. destruct (stash_ok N s _ R) as (s1 & -> & R1 & Hrun & Hlast & Hch & Hn & Hab). exists s1. split; [done|].
  assert (Hp : s_running s1 ++ pending s1 = s_running s ++ pending s) by (unfold pending; by rewrite Hrun, Hlast, Hch).
  destruct (merge_same s1 (s_running (merge_last s1))) as [Hm1 Hm2].
  split; [apply merge_last_ok; by rewrite Hp|]. rewrite Hm1, merge_running, Hp. split; [done|congruence].
Qed.

(** What is left when nothing runs. *)
Lemma rest_step N s (b : bool) : ready True N s (s_running s) → s_chunked s = None →
  let s' := with_last None (if b then with_tracker (ratio_reset (s_tracker s)) s else s) in
  loop_inv N s' ∧ names s' (s_running s' ++ pending s') = names s (s_running s) ∧ s_aborted s' = s_aborted s.
Proof.
  intros [H1 H2 H3 H4 H5 H6 H7 H8 H9 H10] Hc. unfold loop_inv, pending. cbv zeta.
  assert (Hrun : s_running (with_last None (if b then with_tracker (ratio_reset (s_tracker s)) s else s)) = s_running s) by (by destruct b).
  cbn [s_last with_last]. rewrite Hrun, app_nil_r. split; [split; [|by split; [destruct b|]]|by destruct b]. assert (tracker_ok (ratio_reset (s_tracker s))) by (by destruct H9 as (? & ? & _)).
  destruct b; split; try done; intros c Hc'; destruct (H4 c Hc') as (? & ? & _); by split_and!.
Qed.

Lemma stepped_rest N s : stepped N s → s_running s = [] → ready True N s (s_running s) .
Proof.
  intros [H1 H2 H3 H4 H5 H6 H7 H8 H9 H10] Hr. rewrite Hr in *. split; try done; [by rewrite H4|by rewrite H4|].
  unfold names. by rewrite H4.
Qed.

Lemma turn_ok N t s :
  loop_inv N s → device_ok t s →
  (∃ s', turn t s = Ok s' ∧ loop_inv N s' ∧ keeps s s') ∨ (turn t s = Raise RuntimeError ∧ chunk_starved s) ∨
  unread (names s (s_running s ++ pending s)) (turn t s).
Proof.
  intros R Hdev. destruct (ready_merged N s (proj1 R)) as (s1 & Est & R1 & Hn1 & Ha1). unfold device_ok in Hdev. unfold iterate, get_next_batch_to_run in *.
  rewrite Est in *. cbn [mbind result_bind] in *.
  destruct (raw_ok N _ R1) as [(s2 & E & R2 & Hc & Hn2 & Ha2)|[(s2 & batch & E & B & Hn2 & Ha2)|[E Hst]]]; rewrite E in *; cbn [mbind result_bind] in *.
  - case_bool_decide as Hr.
    + left. cbn [mbind result_bind]. eexists. split; [done|]. destruct (rest_step N s2 (is_fully_idle s2) R2 Hc) as (L & Hn3 & Ha3). split; [done|].
      exists []. split; [constructor|]. rewrite Hn3, Ha3, Ha2, Ha1, <-Hn1, Hn2. by rewrite app_nil_r.
    + destruct (update_ok N s2 false (time t) R2 Hc) as (u & Eu & S & Hnu). rewrite Eu in *. cbn [mbind result_bind] in *.
      change (mkSched _ _ _ _ _ _ _ _ _ _) with (updated u s2) in *. case_bool_decide as Hu.
      * left. eexists. split; [done|]. destruct (rest_step N (updated u s2) (is_fully_idle (updated u s2)) (stepped_rest N _ S Hu) Hc) as (L & Hn3 & Ha3).
        split; [done|]. exists []. split; [constructor|]. rewrite Hn3, Ha3, <-Hn1, <-Hn2, <-Ha1, <-Ha2, <-Hnu. unfold names.
        cbn [updated s_running s_waiting s_chunked]. rewrite Hu, Hc. cbn [unfinished filter list_filter option_list app fmap list_fmap].
        rewrite !fmap_app, app_nil_r. done.
      * destruct (decode_step N (updated u s2) (next_token_ids t) S) as [(w' & l & -> & L & Hn3)|Hu2]; [by apply (Hdev (updated u s2) Decode)|left|right; right].
        2: { eapply unread_mono; [exact Hu2|by intros ->|]. intros n Hn. rewrite <-Hn1, <-Hn2. by apply (updated_names u s2). }
        cbn [mbind result_bind fst snd]. eexists. split; [done|]. split; [exact L|]. exists (done_of l). split; [apply done_finished|].
        rewrite <-Hn1, <-Hn2, <-Ha1, <-Ha2, <-Hnu, app_assoc, !fmap_app, app_assoc. rewrite fmap_app in Hn3. cbn [updated s_running s_waiting] in Hn3. rewrite Hn3.
        cbn [s_aborted with_last with_running with_world]. solve_Permutation.
  - destruct (prefill_step N s2 batch (next_token_ids t) B) as [(w' & l & -> & L & Hn3)|Hu2]; [by apply (Hdev s2 (Prefill batch))|left|right; right].
    2: { eapply unread_mono; [exact Hu2|by intros ->|]. intros n Hn. rewrite <-Hn1, <-Hn2, !fmap_app, !elem_of_app. auto. }
    cbn [mbind result_bind fst snd]. eexists. split; [done|]. split; [exact L|]. exists (done_of l). split; [apply done_finished|].
    rewrite <-Hn1, <-Ha1, <-Ha2, <-Hn2, Hn3. cbn [s_aborted with_last with_chunked with_world]. solve_Permutation.
  - right. left. split; [done|]. exists s1. by split.
Qed.

(** ** Every run of the server *)

(** A new request: no output yet, no KV state, a name of its own. *)
Definition arrives (r : QReq) (s : Sched (T := T) (P := P)) : Prop :=
  queued_ok r ∧ rid r ∉ names s (s_running s ++ pending s).

Lemma receive_ok N now r s :
  loop_inv N s → arrives r s →
  ∃ s', receive config now r s = Ok s' ∧ loop_inv N s' ∧
    rid r :: names s (s_running s ++ pending s) ++ (rid <$> s_aborted s) ≡ₚ names s' (s_running s' ++ pending s') ++ (rid <$> s_aborted s').
Proof.
  intros [[H1 H2 H3 H4 H5 H6 H7 H8 H9 H10] Hlast] [Hr Hid]. unfold receive.
  destruct (add_request_ok config now r (s_waiting s) H7 H8) as (q & ab & -> & J).
  { intros Hin. apply Hid. unfold names. rewrite !fmap_app, !elem_of_app. by do 2 right. }
  cbn [mbind result_bind fst snd]. set (s' := with_aborted _ _).
  assert (Hp : s_running s' ++ pending s' = s_running s ++ pending s) by done.
  assert (Hn : rid r :: names s (s_running s ++ pending s) ≡ₚ names s' (s_running s' ++ pending s') ++ (rid <$> ab)).
  { rewrite Hp. unfold names. cbn [s' s_chunked s_waiting with_aborted with_waiting]. rewrite !fmap_app, !app_assoc_reverse.
    rewrite <-(fmap_app rid q ab), (jo_all _ _ _ _ _ J), fmap_cons. solve_Permutation. }
  exists s'. split; [done|]. split.
  - unfold loop_inv. split; [|exact Hlast]. split; rewrite ?Hp; try done.
    + apply (jo_keep _ _ _ _ _ J); [apply queued_queue_prop|done|done].
    + rewrite <-Hp. assert (Hnd : NoDup (rid r :: names s (s_running s ++ pending s))) by (by constructor). rewrite Hn in Hnd.
      by apply NoDup_app in Hnd as [? _].
    + apply J.
    + apply J.
  - rewrite app_comm_cons, Hn. cbn [s' s_aborted with_aborted]. rewrite fmap_app. solve_Permutation.
Qed.

(** A request arrives, or the loop goes round. *)
Inductive server_step : Sched (T := T) (P := P) → Sched (T := T) (P := P) → Prop :=
  | step_receive now r s s' : arrives r s → receive config now r s = Ok s' → server_step s s'
  | step_turn t s s' : device_ok t s → turn t s = Ok s' → server_step s s'.

Lemma steps_inv N s s' : rtc server_step s s' → loop_inv N s → loop_inv N s'.
Proof.
  induction 1 as [|s s1 s2 Hst _ IH]; [done|]. intros R. apply IH. destruct Hst as [now r s s' Ha E|t s s' Hd E].
  - destruct (receive_ok N now r s R Ha) as (s'' & E' & R' & _). congruence.
  - destruct (turn_ok N t s R Hd) as [(s'' & E' & R' & _)|[[E' _]|[E' _]]]; congruence.
Qed.

(** A server that has just started. *)
Definition started (w : World T) (sp : P) (tr : NewTokenRatioTracker) : Sched :=
  mkSched w sp [] [] false None None false tr [].

Lemma started_inv N w sp tr :
  sys_inv N w [] → max_context_len (pool w) = ctx → tracker_ok tr → max_queued_requests config ≠ Some 0%nat →
  (needs_priority sp = true → qc_priority_scheduling config = true) → loop_inv N (started w sp tr).
Proof.
  intros Hs Hc Ht Hq Hp. unfold loop_inv, started. split; [|done]. split; cbn; try done.
  - apply NoDup_nil_2.
  - unfold within_limit. destruct (max_queued_requests config); cbn; [lia|done].
Qed.

(** C1: However requests arrive and whatever tokens the model produces, an iteration of the
    scheduler loop fails in two cases only.  Take a server that has just started with consistent
    memory and single-slot pages, without preemption of running requests and without a
    diffusion model, with chunks of at least one token, room in the queue for a request,
    new-token ratios and a number of retraction steps that are not negative, thinking tokens kept
    in the cache, and priority scheduling on if the order of its queue reads priorities; requests that arrive are new, have
    names of their own and fit the context; the device returns one token for each request of a batch.  In every
    state it can reach each KV slot is free, cached or owned by one request, and
    the next iteration succeeds, with two exceptions.  The memory has no room for one token of an unfinished chunk:
    the allocation fails with [RuntimeError].  The server has no tokenizer and one of its
    requests has stop strings or stop regexes: searching its text fails with [AttributeError]. *)
Theorem server_safe N w sp tr s t :
  sys_inv N w [] → max_context_len (pool w) = ctx → tracker_ok tr → max_queued_requests config ≠ Some 0%nat →
  (needs_priority sp = true → qc_priority_scheduling config = true) → rtc server_step (started w sp tr) s → device_ok t s →
  sys_inv N (s_world s) (option_list (base <$> s_chunked s) ++ alive (s_running s ++ pending s)) ∧
  ((∃ s', turn t s = Ok s') ∨ (turn t s = Raise RuntimeError ∧ chunk_starved s) ∨
   (turn t s = Raise AttributeError ∧ ∃ n, n ∈ names s (s_running s ++ pending s) ∧ text_unread n)).
Proof.
  intros Hs Hc Ht Hq Hp Hr Hd. pose proof (steps_inv N _ _ Hr (started_inv N w sp tr Hs Hc Ht Hq Hp)) as R.
  split; [apply (proj1 R)|]. destruct (turn_ok N t s R Hd) as [(s' & E & _)|?]; [left; by exists s'|by right].
Qed.


End loop.

(** * A concrete run *)

#[local] Instance run_cache : PrefixCache RadixCache := RadixPrefixCache 1 false false false LRUStrategy clock.
#[local] Instance run_laws : PrefixCacheLaws RadixCache false := radix_laws 1 false false false LRUStrategy clock (le_n 1).
#[local] Instance run_lock_cache : LockCache RadixCache := RadixLockCache 1 false false false LRUStrategy clock.
#[local] Instance run_lock_laws : LockLaws RadixCache false := radix_lock_laws 1 false false false LRUStrategy clock (le_n 1).
#[local] Instance run_free_laws : FreeLaws RadixCache := radix_free_laws 1 false false false LRUStrategy clock.
#[local] Instance run_policy : QueuePolicy RadixCache SchedulePolicy := RadixQueuePolicy 1 false clock demo_zeros reverse.
#[local] Instance run_queue_laws : QueueLaws RadixCache SchedulePolicy :=
  radix_queue_laws 1 false false LRUStrategy clock demo_zeros reverse (le_n 1) (fun n => length_replicate n 0) reverse_Permutation.

Definition run_env : StopEnv :=
  mkStopEnv None None (decode_all letter) search_ab (default 0 ∘ head) (fun _ _ => false) (fun _ => stop_at NoStop NoStop) [] 100.

Definition run_config : QueueConfig := mkQueueConfig (Some 4%nat) false false false.

Definition run_start : Sched := started small_server (mkSP (Aware LPM) false 1 (new_cache clock)) (from_server_args (7 # 10) 1 (14 # 100) 600).

Definition run_req : QReq := mkQReq (new_req [7; 8; 9] None) "a" 3 false 0 0 None false.

Definition run_turn (toks : list Z) : Turn := mkTurn (fun _ => 0) toks.

(** Chunks of two tokens: the request of three takes two prefill steps. *)
Definition run_iterate (t : Turn) (s : Sched) : result Sched :=
  iterate 1 false run_env 20 run_config None false None 0 (fun _ => (false, 0)) 4 false empty_tensor None 100 (Some 2) t s.

Definition run_state (n : nat) : result Sched :=
  do! s <- receive run_config 1 run_req run_start;
  foldM (fun s t => run_iterate t s) (replicate n (run_turn [5])) s.

Lemma run_states :
  (do! s <- run_state 1; Ok (rid <$> s_chunked s, length (s_running s))) = Ok (Some "a", 0%nat) ∧
  (do! s <- run_state 2; Ok (rid <$> s_chunked s, length (s_running s))) = Ok (None, 0%nat) ∧
  (do! s <- run_state 4; Ok (rid <$> s_chunked s, finished <$> s_running s)) = Ok (None, [true]).
Proof. split_and!; vm_compute; reflexivity. Qed.

Definition run_received : Sched := match receive run_config 1 run_req run_start with Ok s => s | Raise _ => run_start end.

Definition run_device (t : Turn) (s : Sched) : Prop :=
  device_ok 20 run_config None false None 0 (fun _ => (false, 0)) 4 empty_tensor 100 2 t s.

Definition run_step : Sched → Sched → Prop :=
  server_step run_env 16 20 run_config None false None 0 (fun _ => (false, 0)) 4 empty_tensor 100 2.

Lemma run_arrives : arrives 16 run_req run_start.
Proof. split; [|apply not_elem_of_nil]. unfold queued_ok, sane, fresh, output_len. cbn. split_and!; try done; lia. Qed.

Lemma run_reach : rtc run_step run_start run_received.
Proof. apply rtc_once. apply (step_receive _ _ _ _ _ _ _ _ _ _ _ _ _ 1 run_req); [apply run_arrives|]. vm_compute. reflexivity. Qed.

Lemma run_device_ok : run_device (run_turn [5]) run_received.
Proof.
  intros s' b E. destruct b as [reqs|].
  - apply (f_equal (fun m => match m with Ok (_, Some (Prefill l)) => length l | _ => 0%nat end)) in E. vm_compute in E.
    cbn [next_token_ids run_turn length]. exact E.
  - apply (f_equal (fun m => match m with Ok (_, Some Decode) => true | _ => false end)) in E. vm_compute in E. discriminate E.
Qed.

Lemma run_tracker : tracker_ok (from_server_args (7 # 10) 1 (14 # 100) 600).
Proof. split_and!; vm_compute; discriminate. Qed.

(** The first chunk of the request runs. *)
Lemma server_safe_witness :
  sys_inv 32 (s_world run_received) [] ∧ ∃ s', run_iterate (run_turn [5]) run_received = Ok s'.
Proof.
  destruct (server_safe run_env 16 20 run_config None false None 0 (fun _ => (false, 0)) 4 empty_tensor 100 2 ltac:(lia) ltac:(lia)
    32 small_server (mkSP (Aware LPM) false 1 (new_cache clock)) (from_server_args (7 # 10) 1 (14 # 100) 600) run_received (run_turn [5]))
    as [Hs Hor].
  - exact small_server_inv.
  - reflexivity.
  - exact run_tracker.
  - discriminate.
  - discriminate.
  - exact run_reach.
  - exact run_device_ok.
  - split; [exact Hs|]. destruct Hor as [Hok|Hor]; [exact Hok|]. exfalso.
    assert (∃ e, run_iterate (run_turn [5]) run_received = Raise e) as [e E] by (destruct Hor as [[E _]|[E _]]; eauto). clear Hor.
    apply (f_equal (fun m => match m with Ok _ => true | Raise _ => false end)) in E. vm_compute in E. discriminate E.
Defined.


(** Without a tokenizer a request with a stop string stops the loop with an error, and
    nothing rejects such a request when it arrives. *)
Lemma unread_stop_string :
  let env := mkStopEnv None None (decode_all letter) search_ab (default 0 ∘ head) (fun _ _ => false) (fun _ => stop_at (OneStop [97]) NoStop) [] 100 in
  let step t s := iterate 1 false env 20 run_config None false None 0 (fun _ => (false, 0)) 4 false empty_tensor None 100 (Some 4) t s in
  (do! s <- receive run_config 1 run_req run_start; step (run_turn [5]) s) = Raise AttributeError.
Proof. vm_compute. reflexivity. Qed.
