(* ===== verification/InvariantChecker.v ===== *)
(** The server's own memory checks ([SchedulerInvariantChecker] of
    [managers/scheduler_components/invariant_checker.py], with the pool statistics of
    [pool_stats_observer.py]), on models without sliding windows, mamba states and
    sessions: the slots that are free, evictable, protected or held by requests add up
    to the size of the pool.  They never report a leak. *)

From S2P Require Import Prelude PySort VisiblePlan Allocator RadixKey RadixCache RadixOps RadixSpec ReqPool ReqCache KvSystem SchedulePolicy PrefillAdder DecodeBatch Sampling Scheduler.
From Stdlib Require Import QArith Permutation.

Open Scope Z_scope.

(** * The checks *)

(** [protected_size] of a cache. *)
Class SizedCache (T : Type) := protected_size : T → Z.

#[export] Instance radix_sized : SizedCache RadixCache := protected_size_.
#[export] Instance chunk_sized : SizedCache ChunkCache := fun _ => 0.

(** [_check_pool_invariant]: whether there is a leak. *)
Definition _check_pool_invariant (available evictable protected session_held total uncached : Z) : bool :=
  bool_decide (available + evictable + protected + session_held + uncached ≠ total).

Section checker.
Context {T : Type} {PC : PrefixCache T} {SC : SizedCache T} (page_size : nat) (max_total_num_tokens : Z).

Record PoolStats := mkPoolStats { full_num_used : Z; full_token_usage : Q; full_available_size : Z; full_evictable_size : Z }.

Definition _get_token_info (w : World T) : result PoolStats :=
  let available_size := available_size (kv w) in
  let evictable_size := evictable (tree w) in
  let num_used := max_total_num_tokens - (available_size + evictable_size) in
  do! token_usage <- true_div num_used max_total_num_tokens;
  Ok (mkPoolStats num_used token_usage available_size evictable_size).

Definition _check_full_pool (ps : PoolStats) (uncached : Z) (w : World T) : bool :=
  _check_pool_invariant (full_available_size ps) (full_evictable_size ps) (protected_size (tree w)) 0 max_total_num_tokens uncached.

Definition _check_all_pools (ps : PoolStats) (uncached : Z) (w : World T) : bool := _check_full_pool ps uncached w.

(** One request: its slots that are not in the cache. *)
Definition uncached_size (r : QReq) : result Z :=
  let b := base r in
  assert! bool_decide (kv_committed_freed b = kv_overallocated_freed b);
  if kv_committed_freed b || bool_decide (req_pool_idx b = None) then Ok 0
  else if decide (1 < page_size)%nat then
    assert! bool_decide (cache_protected_len b `mod` page_size = 0)%nat;
    Ok (Z.of_nat (ceil_align (kv_allocated_len b) page_size) - Z.of_nat (cache_protected_len b))
  else Ok (Z.of_nat (kv_allocated_len b) - Z.of_nat (cache_protected_len b)).

(** [_get_total_uncached_sizes]; [same]: the last batch is the running one. *)
Definition _get_total_uncached_sizes (last running : list QReq) (same : bool) : result Z :=
  let batches := last :: (if same || bool_decide (running = []) then [] else [running]) in
  foldM (fun n batch => foldM (fun n r => do! u <- uncached_size r; Ok (n + u)) batch n) batches 0.

(** The assertion during a busy iteration; [last] is the batch that ran. *)
Definition self_check_during_busy (last : option (list QReq)) (running : list QReq) (same : bool) (w : World T) : result () :=
  match last with
  | None => Ok tt
  | Some last =>
      do! ps <- _get_token_info w;
      do! full_uncached <- _get_total_uncached_sizes last running same;
      assert! negb (_check_full_pool ps full_uncached w);
      Ok tt
  end.

(** [_check_req_pool]: whether rows are missing. *)
Definition _check_req_pool (p : ReqToTokenPool) : bool := bool_decide (length (free_slots p) + 0 ≠ pool_size p)%nat.

(** The part of [on_idle] that checks: the pools of tokens and of rows. *)
Definition idle_check (w : World T) : result (bool * bool) :=
  do! ps <- _get_token_info w;
  Ok (_check_all_pools ps 0 w, _check_req_pool (pool w)).

End checker.

(** * Sizes add up *)

Lemma count_occ_count x (l : list Z) : Z.of_nat (count_occ Z.eq_dec l x) = count x l.
Proof.
  unfold count. induction l as [|y l IH]; [done|]. rewrite filter_cons. cbn [count_occ]. destruct (Z.eq_dec y x) as [->|Hne].
  - rewrite decide_True by done. cbn [length]. lia.
  - by rewrite decide_False by done.
Qed.

Lemma perm_by_count (l k : list Z) : (∀ x, count x l = count x k) → l ≡ₚ k.
Proof. intros H. apply (Permutation_count_occ Z.eq_dec). intros x. specialize (H x). rewrite <-!count_occ_count in H. lia. Qed.

Lemma count_seqZ x N : count x (seqZ 1 N) = if decide (1 ≤ x ≤ N) then 1 else 0.
Proof.
  rewrite <-count_occ_count. destruct (decide (1 ≤ x ≤ N)) as [Hx|Hx].
  - assert (In x (seqZ 1 N)) as Hin by (apply list_elem_of_In, elem_of_seqZ; lia).
    pose proof (proj1 (NoDup_count_occ' Z.eq_dec (seqZ 1 N)) ltac:(apply NoDup_ListNoDup, NoDup_seqZ) x Hin). lia.
  - rewrite (proj1 (count_occ_not_In Z.eq_dec (seqZ 1 N) x)); [done|]. rewrite <-list_elem_of_In, elem_of_seqZ. lia.
Qed.

(** A cache knows how many slots it holds. *)
Class SizeLaws (T : Type) {PC : PrefixCache T} {PL : PrefixCacheLaws T false} {SC : SizedCache T} := size_law t L :
  cache_ok t L → ∃ vs, (∀ x, holds x t = count x vs) ∧ lenZ vs = evictable t + protected_size t.

#[export] Instance chunk_size_laws : @SizeLaws ChunkCache (ChunkPrefixCache false) (chunk_laws false) chunk_sized.
Proof. intros t L _. by exists []. Qed.

Lemma hsum_values (f : TreeNode → list Z) (H : gmap nat TreeNode) :
  ∃ vs, (∀ x, hsum (fun _ n => count x (f n)) H = count x vs) ∧ lenZ vs = hsum (fun _ n => lenZ (f n)) H.
Proof.
  induction H as [|i n H Hi (vs & H1 & H2)] using map_ind; [by exists []|]. exists (f n ++ vs). split.
  - intros x. rewrite hsum_insert by done. rewrite H1, count_app. done.
  - rewrite hsum_insert by done. rewrite <-H2. unfold lenZ. rewrite length_app. lia.
Qed.

Lemma hsum_add (f g : nat → TreeNode → Z) H : hsum f H + hsum g H = hsum (fun i n => f i n + g i n) H.
Proof. induction H as [|i n H Hi IH] using map_ind; [done|]. rewrite !hsum_insert by done. lia. Qed.

#[export] Instance radix_size_laws page_size is_eagle dfi strategy monotonic (Hps : (0 < page_size)%nat) :
  @SizeLaws RadixCache (RadixPrefixCache page_size is_eagle dfi false strategy monotonic)
    (radix_laws page_size is_eagle dfi false strategy monotonic Hps) radix_sized.
Proof.
  intros c L Hc. change (rinv page_size is_eagle (c, L)) in Hc. destruct Hc as ((HT & _ & (He & Hp & _)) & _). cbn [fst] in *.
  destruct (hsum_values value (nheap c)) as (vs & H1 & H2). exists vs. split; [exact H1|]. rewrite H2.
  change (hsum (fun _ n => lenZ (value n)) (nheap c) = evictable_size_ c + protected_size_ c). rewrite He, Hp, hsum_add.
  apply hsum_ext. intros i n Hi. unfold size_of, lenZ. case_decide as Hr.
  - subst i. destruct (ok_root _ _ _ _ _ HT) as (r & Hr & _ & _ & Hv). rewrite Hi in Hr. injection Hr as <-. by rewrite Hv.
  - destruct (ok_key _ _ _ _ _ HT i n Hi Hr) as (_ & _ & _ & ->). case_bool_decide; lia.
Qed.

Section accounting.
Context {T : Type} {PC : PrefixCache T} {PL : PrefixCacheLaws T false} {SC : SizedCache T} {SL : SizeLaws T}.

(** The slots of a request that are its own. *)
Definition own_size (r : Req) : Z :=
  if bool_decide (req_pool_idx r = None) then 0 else Z.of_nat (kv_allocated_len r) - Z.of_nat (cache_protected_len r).

Lemma owned_size t p r : req_inv t p r → lenZ (owned p r) = own_size r.
Proof.
  intros (_ & _ & _ & Hal & _ & Hrow). unfold lenZ, own_size, owned. destruct (req_pool_idx r) as [i|] eqn:Hi.
  - destruct Hrow as ((j & row & Hj & Hrow & Hl) & Hle & _). rewrite (row_of_at _ _ _ _ Hj Hrow), length_slice by lia.
    rewrite bool_decide_eq_false_2 by done. rewrite Hal in *. lia.
  - destruct Hrow as (Hz & _). rewrite bool_decide_eq_true_2 by done. rewrite Hal, Hz, slice_nil by lia. done.
Qed.

Lemma accounting N w rs : 0 ≤ N → sys_inv N w rs →
  available_size (kv w) + evictable (tree w) + protected_size (tree w) + sum_over own_size rs = N.
Proof.
  intros HN Hs. pose proof Hs as [H1 (_ & _ & Hps) H3 H4 H5]. destruct (size_law _ _ H1) as (vs & Hvs & Hlen).
  set (all := free_pages (kv w) ++ release_pages (kv w) ++ vs ++ concat (owned (pool w) <$> rs)).
  assert (Hc : ∀ x, count x (concat (owned (pool w) <$> rs)) = sum_over (fun r => count x (owned (pool w) r)) rs).
  { intros x. clear. induction rs as [|r rs IH]; [done|]. rewrite fmap_cons. cbn [concat]. rewrite count_app, IH. done. }
  assert (Hl : lenZ (concat (owned (pool w) <$> rs)) = sum_over own_size rs).
  { clear -H4. induction H4 as [|r rs Hr _ IH]; [done|]. rewrite fmap_cons. cbn [concat]. rewrite sum_over_cons, <-IH, <-(owned_size _ _ _ Hr).
    unfold lenZ. rewrite length_app. lia. }
  assert (Hall : all ≡ₚ seqZ 1 N).
  { apply perm_by_count. intros x. rewrite count_seqZ, <-H5. unfold all, total, free_count. rewrite !count_app, Hc, <-Hvs. lia. }
  apply Permutation_length in Hall. rewrite length_seqZ in Hall. unfold all in Hall. rewrite !length_app in Hall.
  unfold available_size, lenZ in *. rewrite Hps. lia.
Qed.

End accounting.

(** * No check fails *)

Section silent.
Context {T P : Type} {PC : PrefixCache T} {LC : LockCache T} {PL : PrefixCacheLaws T false} {LL : LockLaws T false} {FL : FreeLaws T}
  {QP : QueuePolicy T P} {QL : QueueLaws T P} {SC : SizedCache T} {SL : SizeLaws T}.

(** A batch whose unfinished requests are among the consistent ones. *)
Lemma uncached_batch N w os l n :
  sys_inv N w os → (∀ b, b ∈ alive l → b ∈ os) → Forall (fun r => finished r = true → released r) l →
  foldM (fun n r => do! u <- uncached_size 1 r; Ok (n + u)) l n = Ok (n + sum_over own_size (alive l)).
Proof.
  intros Hs. pose proof (si_reqs _ _ _ Hs) as Hre. rewrite Forall_forall in Hre. revert n.
  induction l as [|r l IH]; intros n Hin Hfin; [cbn; f_equal; unfold sum_over, sumZ; simpl; lia|]. apply Forall_cons in Hfin as [Hr Hfin].
  assert (Hu : uncached_size 1 r = Ok (sum_over own_size (live r))).
  { unfold uncached_size, live. rewrite (decide_False (P := (1 < 1)%nat)) by lia. destruct (finished r) eqn:Hf.
    - destruct (Hr eq_refl) as (Hi & -> & ->). by rewrite bool_decide_eq_true_2.
    - destruct (Hre (base r)) as (-> & -> & _); [apply Hin; rewrite alive_cons; unfold live; rewrite Hf; left|].
      rewrite bool_decide_eq_true_2 by done. rewrite sum_over_cons. unfold own_size, sum_over, sumZ. cbn [fmap list_fmap foldr orb].
      case_bool_decide; f_equal; lia. }
  cbn [foldM]. rewrite Hu. cbn [mbind result_bind]. rewrite IH; [|intros b Hb; apply Hin; rewrite alive_cons; apply elem_of_app; by right|done].
  rewrite alive_cons, sum_over_app. f_equal. lia.
Qed.

Lemma token_info N (w : World T) : 0 < N → ∃ ps, _get_token_info N w = Ok ps ∧ full_available_size ps = available_size (kv w) ∧
  full_evictable_size ps = evictable (tree w).
Proof.
  intros HN. unfold _get_token_info, true_div. rewrite bool_decide_eq_false_2 by lia. cbn [mbind result_bind]. by eexists.
Qed.

(** The slots outside the cache are those the check counts. *)
Lemma busy_ok N w rs last running same :
  0 < N → sys_inv N w rs → (if same : bool then alive last ≡ₚ rs else alive last ++ alive running ≡ₚ rs) →
  Forall (fun r => finished r = true → released r) (last ++ running) →
  self_check_during_busy 1 N (Some last) running same w = Ok tt.
Proof.
  intros HN Hs Hrs Hfin. destruct (token_info N w HN) as (ps & E & Ha & He). unfold self_check_during_busy. rewrite E. cbn [mbind result_bind].
  apply Forall_app in Hfin as [Hf1 Hf2].
  assert (Hun : _get_total_uncached_sizes 1 last running same = Ok (sum_over own_size rs)).
  { unfold _get_total_uncached_sizes. cbn [foldM].
    rewrite (uncached_batch N w rs last 0 Hs); [|intros b Hb; destruct same; rewrite <-Hrs; [done|apply elem_of_app; by left]|done].
    cbn [mbind result_bind]. destruct same; cbn [orb].
    - by rewrite <-(sum_over_perm _ _ _ Hrs).
    - rewrite <-(sum_over_perm _ _ _ Hrs), sum_over_app. case_bool_decide as Hr.
      + rewrite Hr. cbn [foldM]. f_equal. unfold sum_over, sumZ. simpl. lia.
      + cbn [foldM]. rewrite (uncached_batch N w rs running _ Hs); [done| |done].
        intros b Hb. rewrite <-Hrs. apply elem_of_app. by right. }
  rewrite Hun. cbn [mbind result_bind]. unfold _check_full_pool, _check_pool_invariant. rewrite Ha, He, bool_decide_eq_false_2; [done|].
  pose proof (accounting N w rs ltac:(lia) Hs). lia.
Qed.

Lemma idle_ok N w : 0 < N → sys_inv N w [] → idle_check N w = Ok (false, false).
Proof.
  intros HN Hs. destruct (token_info N w HN) as (ps & E & Ha & He). unfold idle_check. rewrite E. cbn [mbind result_bind]. repeat f_equal.
  - unfold _check_all_pools, _check_full_pool, _check_pool_invariant. rewrite Ha, He. apply bool_decide_eq_false.
    pose proof (accounting N w [] ltac:(lia) Hs) as Hacc. unfold sum_over, sumZ in Hacc. simpl in Hacc. lia.
  - unfold _check_req_pool. apply bool_decide_eq_false. pose proof (po_slots _ _ (si_pool _ _ _ Hs)) as Hp. apply Permutation_length in Hp.
    rewrite length_app, length_seq in Hp. simpl in Hp. lia.
Qed.

Context (env : StopEnv) (ctx : nat) (steps : Z) (config : QueueConfig) (allow : option bool) (cp : bool) (max_reqs : option nat) (threshold : Z)
  (logprobs : QReq → bool * Z) (max_batch : Z) (uninit : Z → list Z) (mp chunk_size : Z).
Hypothesis Hsteps : 0 ≤ steps.
Hypothesis Hchunk : 1 ≤ chunk_size.

#[local] Notation server_step := (server_step env ctx steps config allow cp max_reqs threshold logprobs max_batch uninit mp chunk_size).

(** The check of a state between two iterations: after a prefill batch the last batch is not the running one. *)
Definition busy_check (N : Z) (s : Sched (T := T) (P := P)) : result () :=
  match s_last s with
  | Some (l, _) => self_check_during_busy 1 N (Some l) (s_running s) false (s_world s)
  | None => self_check_during_busy 1 N (Some (s_running s)) (s_running s) true (s_world s)
  end.

(** C7: The memory checks never fire.  In every state the scheduler reaches, the free,
    evictable and protected slots and those the requests of the last and the running
    batch hold outside the cache add up to the size of the pool, so the assertion of
    the busy check holds; and when the server is idle, neither slots nor rows of the
    request table are reported as leaked. *)
Theorem leak_checks_silent N w sp tr s :
  0 < N → sys_inv N w [] → max_context_len (pool w) = ctx → tracker_ok tr → max_queued_requests config ≠ Some 0%nat →
  (needs_priority sp = true → qc_priority_scheduling config = true) → rtc server_step (started w sp tr) s →
  busy_check N s = Ok tt ∧ (is_fully_idle s = true → idle_check N (s_world s) = Ok (false, false)).
Proof.
  intros HN Hs Hc Ht Hq Hp Hr.
  assert (R : loop_inv ctx config N s) by (eapply steps_inv; [done|done|exact Hr|by apply started_inv]).
  destruct R as [[H1 H2 H3 H4 _ _ _ _ _ _] [Hnone Hlast]]. split.
  - assert (Hrel : Forall (fun r => finished r = true → released r) (s_running s)).
    { apply Forall_app in H3 as [H3 _]. eapply Forall_impl; [exact H3|]. by intros r (_ & _ & ?). }
    unfold busy_check. destruct (s_last s) as [[l c]|] eqn:El.
    + destruct (Hlast l c eq_refl) as [Hun Hfin]. eapply busy_ok; [done|exact H1| |by apply Forall_app].
      change (alive l) with (base <$> unfinished l). rewrite Hun, fmap_app. unfold alive. rewrite filter_app, !fmap_app.
      replace (base <$> option_list (s_chunked s)) with (option_list (base <$> s_chunked s)) by (by destruct (s_chunked s)).
      rewrite (filter_all _ (pending s)); [solve_Permutation|]. unfold pending. rewrite El. apply Forall_forall. by intros r [(? & _) _]%list_elem_of_filter.
    + eapply busy_ok; [done|exact H1| |by apply Forall_app]. rewrite (Hnone eq_refl). unfold pending. rewrite El, app_nil_r. done.
  - unfold is_fully_idle. intros [[[Hrun Hch]%andb_prop Hl]%andb_prop _]%andb_prop. apply bool_decide_eq_true in Hrun, Hch.
    apply idle_ok; [done|]. rewrite Hch, Hrun in H1. unfold pending in H1. destruct (s_last s) as [[l c]|]; [|exact H1].
    apply bool_decide_eq_true in Hl as ->. exact H1.
Qed.

End silent.

(** * A concrete server *)

#[local] Existing Instances run_cache run_laws run_lock_cache run_lock_laws run_free_laws run_policy run_queue_laws.
#[local] Instance run_size_laws : SizeLaws RadixCache := radix_size_laws 1 false false LRUStrategy clock (le_n 1).

(** A request waits and nothing runs yet. *)
Lemma leak_checks_silent_witness : busy_check 32 run_received = Ok tt ∧ is_fully_idle run_received = false.
Proof.
  split; [|vm_compute; reflexivity].
  apply (leak_checks_silent run_env 16 20 run_config None false None 0 (fun _ => (false, 0)) 4 empty_tensor 100 2 ltac:(lia) ltac:(lia)
    32 small_server (mkSP (Aware LPM) false 1 (new_cache clock)) (from_server_args (7 # 10) 1 (14 # 100) 600) run_received).
  - lia.
  - exact small_server_inv.
  - reflexivity.
  - exact run_tracker.
  - discriminate.
  - discriminate.
  - exact run_reach.
Defined.

(** After one iteration two slots are the chunk's; after the last one all are free or cached. *)
Lemma checks_of_a_run :
  (do! s <- run_state 1; do! u <- _get_total_uncached_sizes 1 (match s_last s with Some (l, _) => l | None => [] end) (s_running s) false; Ok u) = Ok 2 ∧
  (do! s <- run_state 5; do! c <- idle_check 32 (s_world s); Ok (is_fully_idle s, c)) = Ok (true, (false, false)).
Proof. split; vm_compute; reflexivity. Qed.
