(* ===== verification/Streamer.v ===== *)
(** What the scheduler sends to the detokenizer: [SchedulerOutputStreamer] and
    [_GenerationStreamAccumulator] ([scheduler_components/output_streamer.py]) with
    [Req.init_incremental_detokenize] ([managers/schedule_batch.py]).

    The columns of a payload that get one entry per reported request are kept as one
    list of rows; the columns that only some requests add to are lists of their own. *)

From S2P Require Import Prelude Sampling.

Open Scope Z_scope.

Definition INIT_INCREMENTAL_DETOKENIZATION_OFFSET : nat := 5.

(** * Requests and payloads *)

Section data.

(** Entries of log-probability columns, values of [customized_info], hidden states. *)
Context {L C H : Type}.

(** The request apart from its tokens, and from how far it has been reported: the part that
    stays, and from [i_reasoning_tokens] on the counters and columns that generation updates. *)
Record ReqInfo := mkInfo {
  i_rid : string;
  i_origin_input_ids : list Z;
  i_origin_input_ids_unpadded : list Z;
  i_sampling : SamplingParams;
  i_max_new_tokens : Z;
  i_stops : StopSet;
  i_eos_token_ids : list Z;
  i_stream : bool;
  i_stream_interval : option Z;
  i_skip_special_tokens : bool;
  i_spaces_between_special_tokens : bool;
  i_no_stop_trim : bool;
  i_return_logprob : bool;
  i_reasoning_tokens : Z;
  i_cached_tokens : Z;
  i_retraction_count : Z;
  (** six columns each: values and indices of the chosen, the top and the asked-for tokens *)
  i_input_logprobs : option (list (list L));
  i_output_logprobs : list (list L);
  (** with [return_hidden_states] *)
  i_hidden_states : option H;
  i_customized_info : option (odict string (list C));
}.

Definition with_progress (reasoning cached retracted : Z) (input : option (list (list L))) (output : list (list L)) (hidden : option H)
    (custom : option (odict string (list C))) (i : ReqInfo) : ReqInfo :=
  mkInfo (i_rid i) (i_origin_input_ids i) (i_origin_input_ids_unpadded i) (i_sampling i) (i_max_new_tokens i) (i_stops i) (i_eos_token_ids i) (i_stream i)
    (i_stream_interval i) (i_skip_special_tokens i) (i_spaces_between_special_tokens i) (i_no_stop_trim i) (i_return_logprob i)
    reasoning cached retracted input output hidden custom.

(** How far the request has been reported. *)
Record Cursor := mkCursor {
  surr_offset : option nat;
  read_offset : option nat;
  surr_and_decode_ids : list Z;
  cur_decode_ids_len : nat;
  send_token_offset : nat;
  send_decode_id_offset : nat;
  send_output_token_logprobs_offset : nat;
  input_logprob_sent : bool;
  finished_output : bool;
}.

Record StreamReq := mkStream {
  sr_info : ReqInfo;
  sr_finish : FinishState;
  sr_cursor : Cursor;
}.

Definition sr_finished (r : StreamReq) : bool := match f_reason (sr_finish r) with Some _ => true | None => false end.
Definition sr_out (r : StreamReq) : list Z := output_ids_through_stop (sr_finish r).

Record Row := mkRow {
  w_rid : string;
  w_finished_reason : option FinishReason;
  w_decoded_text : text;
  w_decode_ids : list Z;
  w_read_offset : nat;
  w_output_ids : list Z;
  w_skip_special_tokens : bool;
  w_spaces_between_special_tokens : bool;
  w_no_stop_trim : bool;
  w_prompt_tokens : nat;
  w_reasoning_tokens : Z;
  w_completion_tokens : nat;
  w_cached_tokens : Z;
  w_retraction_count : Z;
  (** the columns of the input and of the output, if the batch returns them *)
  w_logprobs : option (list (list L) * list (list L));
}.

Record Acc := mkAcc {
  rows : list Row;
  output_hidden_states : list H;
  customized_info : odict string (list (list C));
}.

Definition empty_acc : Acc := mkAcc [] [] [].

(** * Operations *)

Definition init_incremental_detokenize (r : StreamReq) : StreamReq * (list Z * nat) :=
  let c := sr_cursor r in
  let output_ids := sr_out r in
  let origin := i_origin_input_ids_unpadded (sr_info r) in
  let '(surr, read, ids) :=
    match surr_offset c, read_offset c with
    | Some s, Some d => (s, d, surr_and_decode_ids c ++ drop (cur_decode_ids_len c) output_ids)
    | _, _ =>
        let read := length origin in
        let surr := (read - INIT_INCREMENTAL_DETOKENIZATION_OFFSET)%nat in
        (surr, read, drop surr origin ++ output_ids)
    end in
  (mkStream (sr_info r) (sr_finish r)
     (mkCursor (Some surr) (Some read) ids (length output_ids) (send_token_offset c) (send_decode_id_offset c)
        (send_output_token_logprobs_offset c) (input_logprob_sent c) (finished_output c)),
   (ids, (read - surr)%nat)).

(** [n % k]. *)
Definition py_mod (n k : Z) : result Z := if bool_decide (k = 0) then Raise ZeroDivisionError else Ok (n `mod` k).

Section operations.
Context (tokenizer : option (option Z * list Z)) (decode : list Z → text) (return_logprob disaggregated_decode : bool) (default_stream_interval default_force_stream_interval : Z).

(** The start of [accept]: whether the request reports now. *)
Definition should_output (r : StreamReq) : result bool :=
  let n := Z.of_nat (length (f_output_ids (sr_finish r))) in
  if i_stream (sr_info r) then
    let stream_interval :=
      match i_stream_interval (sr_info r) with
      | Some k => if bool_decide (k = 0) then default_stream_interval else k
      | None => default_stream_interval
      end in
    do! m <- py_mod n stream_interval;
    let b := if bool_decide (1 < stream_interval) then bool_decide (m = 1) else bool_decide (m = 0) in
    if (b : bool) then
      do! held <- check_match_stop_str_prefix tokenizer decode (i_stops (sr_info r)) (f_output_ids (sr_finish r)); Ok (negb held)
    else Ok false
  else
    do! m <- py_mod n default_force_stream_interval; Ok (bool_decide (m = 0)).

(** The log-probability columns of a row and the fields of the request they change. *)
Definition logprob_columns (r : StreamReq) : option (list (list L) * list (list L)) * bool * nat :=
  let c := sr_cursor r in
  if return_logprob then
    let send_input := i_return_logprob (sr_info r) && negb (input_logprob_sent c) && negb disaggregated_decode in
    let '(input, sent) :=
      match i_input_logprobs (sr_info r) with
      | Some cols => if send_input then (cols, true) else (replicate 6 [], input_logprob_sent c)
      | None => (replicate 6 [], input_logprob_sent c)
      end in
    if i_return_logprob (sr_info r) then
      let logprob_end := Nat.max (length (sr_out r)) 1 in
      (Some (input, slice (send_output_token_logprobs_offset c) logprob_end <$> i_output_logprobs (sr_info r)), sent, logprob_end)
    else (Some (input, replicate 6 []), sent, send_output_token_logprobs_offset c)
  else (None, input_logprob_sent c, send_output_token_logprobs_offset c).

(** [self.customized_info[k].append(...)] for every key of the request. *)
Definition add_customized (a b : nat) (info : option (odict string (list C))) (d : odict string (list (list C))) : odict string (list (list C)) :=
  fold_left (fun d kv => od_set kv.1 (default [] (od_get kv.1 d) ++ [slice a b kv.2]) d) (default [] info) d.

(** The rest of [accept], for a request that reports now. *)
Definition report (r : StreamReq) (acc : Acc) : StreamReq * Acc :=
  let i := sr_info r in
  let out := sr_out r in
  let '(r1, (decode_ids, read)) := init_incremental_detokenize r in
  let c := sr_cursor r1 in
  let '(logprobs, sent, logprobs_offset) := logprob_columns r in
  let row := mkRow (i_rid i) (f_reason (sr_finish r)) [] (drop (send_decode_id_offset c) decode_ids) read
    (drop (send_token_offset c) out) (i_skip_special_tokens i) (i_spaces_between_special_tokens i) (i_no_stop_trim i)
    (length (i_origin_input_ids i)) (i_reasoning_tokens i) (length out) (i_cached_tokens i) (i_retraction_count i) logprobs in
  let c' := mkCursor (surr_offset c) (read_offset c) (surr_and_decode_ids c) (cur_decode_ids_len c) (length out) (length decode_ids)
    logprobs_offset sent (finished_output c) in
  (mkStream i (sr_finish r) c',
   mkAcc (rows acc ++ [row]) (output_hidden_states acc ++ option_list (i_hidden_states i))
     (add_customized (send_token_offset c) (length out) (i_customized_info i) (customized_info acc))).

Definition set_finished_output (r : StreamReq) : StreamReq :=
  let f := sr_finish r in
  let c := sr_cursor r in
  mkStream (sr_info r)
    (mkFinish (f_output_ids f) (f_reason f) (Some (default (Z.of_nat (length (f_output_ids f))) (f_finished_len f))) (f_to_finish f))
    (mkCursor (surr_offset c) (read_offset c) (surr_and_decode_ids c) (cur_decode_ids_len c) (send_token_offset c) (send_decode_id_offset c)
       (send_output_token_logprobs_offset c) (input_logprob_sent c) true).

Definition accept (r : StreamReq) (acc : Acc) : result (StreamReq * Acc) :=
  if sr_finished r then
    assert! negb (finished_output (sr_cursor r));
    Ok (report (set_finished_output r) acc)
  else
    do! b <- should_output r;
    Ok (if (b : bool) then report r acc else (r, acc)).

(** The loop of [_stream_output_generation]; [skip_req] is an object of the batch, known by its name. *)
Definition stream_one (skip_req : option string) (s : list StreamReq * Acc) (r : StreamReq) : result (list StreamReq * Acc) :=
  if bool_decide (skip_req = Some (i_rid (sr_info r))) || (sr_finished r && finished_output (sr_cursor r)) then Ok (s.1 ++ [r], s.2)
  else do! x <- accept r s.2; Ok (s.1 ++ [x.1], x.2).

Definition to_payload (is_idle_batch has_reqs : bool) (acc : Acc) : option Acc := if has_reqs || is_idle_batch then Some acc else None.

Definition _stream_output_generation (reqs : list StreamReq) (skip_req : option string) (is_idle_batch : bool) : result (list StreamReq * option Acc) :=
  do! s <- foldM (stream_one skip_req) reqs ([], empty_acc);
  Ok (s.1, to_payload is_idle_batch (negb (bool_decide (length reqs = 0%nat))) s.2).

End operations.
End data.
Arguments ReqInfo : clear implicits.
Arguments StreamReq : clear implicits.
Arguments Row : clear implicits.
Arguments Acc : clear implicits.

(** * The life of a request

    Tokens are added and the stop conditions checked, in any rhythm against the
    reports, until the last report. *)

Definition new_cursor : Cursor := mkCursor None None [] 0 0 0 0 false false.

(** The prompt tokens the detokenizer sees before the output. *)
Definition prompt_tail {L C H} (i : ReqInfo L C H) : list Z :=
  drop (length (i_origin_input_ids_unpadded i) - INIT_INCREMENTAL_DETOKENIZATION_OFFSET) (i_origin_input_ids_unpadded i).

(** The fields of a row that are the request's own. *)
Definition row_of_req {L C H} (i : ReqInfo L C H) (w : Row L) : Prop :=
  w_rid w = i_rid i ∧ w_read_offset w = length (prompt_tail i) ∧ w_decoded_text w = [] ∧
  w_skip_special_tokens w = i_skip_special_tokens i ∧ w_spaces_between_special_tokens w = i_spaces_between_special_tokens i ∧
  w_no_stop_trim w = i_no_stop_trim i.

Section life.
Context {L C H : Type}.
Context (tokenizer : option (option Z * list Z)) (decode : list Z → text) (re_search : list node → text → bool) (any_of : list Z → Z).
Context (vocab_size : Z).
Context (return_logprob disaggregated_decode : bool) (default_stream_interval default_force_stream_interval : Z).

Notation update i := (update_finish_state tokenizer decode re_search any_of (i_sampling i) (i_stops i) (i_max_new_tokens i) (i_eos_token_ids i) vocab_size []).
Notation accept := (accept tokenizer decode return_logprob disaggregated_decode default_stream_interval default_force_stream_interval).

(** New tokens, or an abort, with or without them. *)
Definition grows (new : list Z) (tf : option FinishReason) : Prop := new ≠ [] ∧ tf = None ∨ tf = Some FINISH_ABORT.

Inductive life : StreamReq L C H → list (Row L) → Prop :=
  | life_start i : 0 ≤ i_max_new_tokens i → life (mkStream i (mkFinish [] None None None) new_cursor) []
  | life_grow i c old tf0 new tf g s rt ct rn il ol hs ci ws :
      life (mkStream i (mkFinish old None None tf0) c) ws → grows new tf →
      update i g (length new) (mkFinish (old ++ new) None None tf) = Ok s → life (mkStream (with_progress rt ct rn il ol hs ci i) s c) ws
  | life_accept r r' a ws :
      life r ws → accept r empty_acc = Ok (r', a) → life r' (ws ++ rows a).

(** What the reports have sent, and where they have got to. *)
Record sent (r : StreamReq L C H) (ws : list (Row L)) : Prop := {
  st_bound : (send_token_offset (sr_cursor r) ≤ length (sr_out r))%nat;
  st_ids : concat (w_output_ids <$> ws) = take (send_token_offset (sr_cursor r)) (sr_out r);
  st_cursor :
    if bool_decide (length ws = 0%nat) then
      surr_offset (sr_cursor r) = None ∧ send_token_offset (sr_cursor r) = 0%nat ∧ send_decode_id_offset (sr_cursor r) = 0%nat
    else surr_offset (sr_cursor r) = Some (length (i_origin_input_ids_unpadded (sr_info r)) - INIT_INCREMENTAL_DETOKENIZATION_OFFSET)%nat ∧
      read_offset (sr_cursor r) = Some (length (i_origin_input_ids_unpadded (sr_info r))) ∧
      surr_and_decode_ids (sr_cursor r) = prompt_tail (sr_info r) ++ take (send_token_offset (sr_cursor r)) (sr_out r) ∧
      cur_decode_ids_len (sr_cursor r) = send_token_offset (sr_cursor r) ∧
      send_decode_id_offset (sr_cursor r) = length (surr_and_decode_ids (sr_cursor r));
  st_rows : Forall (row_of_req (sr_info r)) ws;
  st_decode : ∀ w ws', ws = w :: ws' →
    w_decode_ids w = prompt_tail (sr_info r) ++ w_output_ids w ∧ Forall (fun w => w_decode_ids w = w_output_ids w) ws';
}.

(** The request ended with a token. *)
Definition token_stop (r : StreamReq L C H) : Prop := ∃ t, f_reason (sr_finish r) = Some (FINISH_MATCHED_TOKEN t).

(** Only the last report has a reason to finish. *)
Record streamed (r : StreamReq L C H) (ws : list (Row L)) : Prop := {
  st_sent : sent r ws;
  st_open : f_reason (sr_finish r) = None →
    f_finished_len (sr_finish r) = None ∧ (Z.of_nat (length (f_output_ids (sr_finish r))) < i_max_new_tokens (sr_info r) ∨ f_output_ids (sr_finish r) = []);
  st_last : if finished_output (sr_cursor r) then
      send_token_offset (sr_cursor r) = length (sr_out r) ∧ f_reason (sr_finish r) ≠ None ∧
      ∃ pre w, ws = pre ++ [w] ∧ Forall (fun w => w_finished_reason w = None) pre ∧ w_finished_reason w = f_reason (sr_finish r) ∧
        w_completion_tokens w = length (sr_out r) ∧ (token_stop r → w_output_ids w ≠ [])
    else Forall (fun w => w_finished_reason w = None) ws ∧ (token_stop r → send_token_offset (sr_cursor r) < length (sr_out r))%nat;
}.

Lemma with_progress_same (i : ReqInfo L C H) :
  with_progress (i_reasoning_tokens i) (i_cached_tokens i) (i_retraction_count i) (i_input_logprobs i) (i_output_logprobs i) (i_hidden_states i) (i_customized_info i) i = i.
Proof. by destruct i. Qed.

Lemma final_out (r : StreamReq L C H) : sr_out (set_finished_output r) = sr_out r.
Proof.
  unfold sr_out, set_finished_output, output_ids_through_stop. cbn. destruct (f_finished_len (sr_finish r)); cbn; [done|].
  rewrite bool_decide_eq_true_2 by lia. rewrite Nat2Z.id. by rewrite firstn_all.
Qed.

Lemma final_sent (r : StreamReq L C H) ws : sent r ws → sent (set_finished_output r) ws.
Proof. intros [H1 H2 H4 H5 H6]. split; rewrite ?final_out; [exact H1|exact H2|exact H4|exact H5|exact H6]. Qed.

(** One report sends the tokens that were not sent yet. *)
Lemma report_sent (r : StreamReq L C H) ws :
  sent r ws →
  let '(r', a) := report return_logprob disaggregated_decode r empty_acc in
  sent r' (ws ++ rows a) ∧ sr_info r' = sr_info r ∧ sr_finish r' = sr_finish r ∧ finished_output (sr_cursor r') = finished_output (sr_cursor r) ∧
  send_token_offset (sr_cursor r') = length (sr_out r) ∧
  ∃ w, rows a = [w] ∧ w_finished_reason w = f_reason (sr_finish r) ∧ w_completion_tokens w = length (sr_out r) ∧
    w_output_ids w = drop (send_token_offset (sr_cursor r)) (sr_out r).
Proof.
  intros [H1 H2 H4 H5 H6].
  assert (Hw : (length (i_origin_input_ids_unpadded (sr_info r)) -
    (length (i_origin_input_ids_unpadded (sr_info r)) - INIT_INCREMENTAL_DETOKENIZATION_OFFSET) = length (prompt_tail (sr_info r)))%nat)
    by (unfold prompt_tail; rewrite length_drop; lia).
  assert (Hall : concat (w_output_ids <$> ws) ++ drop (send_token_offset (sr_cursor r)) (sr_out r) = sr_out r) by (by rewrite H2, take_drop).
  unfold report, init_incremental_detokenize. destruct ws as [|w0 ws]; cbn [length] in H4.
  - rewrite bool_decide_eq_true_2 in H4 by done. destruct H4 as (Hs & Ho & Hd). rewrite Hs. cbn [sr_cursor send_decode_id_offset send_token_offset].
    destruct (logprob_columns _ _ r) as [[? ?] ?]. rewrite Ho, Hd, !drop_0, Hw. split; [|do 4 (split; [reflexivity|]); eexists; split_and!; reflexivity].
    split; cbn; rewrite ?app_nil_r; try done; [by rewrite firstn_all|by rewrite firstn_all|by constructor|].
    intros w ws' Hw'. by injection Hw' as <- <-.
  - rewrite bool_decide_eq_false_2 in H4 by done. destruct H4 as (-> & -> & Hids & -> & Hoff). cbn [sr_cursor send_decode_id_offset send_token_offset].
    destruct (logprob_columns _ _ r) as [[? ?] ?]. rewrite Hids, <-app_assoc, take_drop.
    assert (Hd : drop (send_decode_id_offset (sr_cursor r)) (prompt_tail (sr_info r) ++ sr_out r) = drop (send_token_offset (sr_cursor r)) (sr_out r)).
    { rewrite Hoff, Hids, length_app, length_take, Nat.min_l by lia. apply drop_app_add. }
    rewrite Hd, Hw. split; [|do 4 (split; [reflexivity|]); eexists; split_and!; reflexivity]. split; cbn; rewrite ?firstn_all; try done.
    + by rewrite fmap_app, concat_app, app_assoc in * |- *; cbn; rewrite app_nil_r.
    + constructor; [by inversion H5|]. apply Forall_app. split; [by inversion H5|]. by constructor.
    + intros w ws' Hw'. injection Hw' as <- <-. destruct (H6 w0 ws eq_refl) as [? ?]. split; [done|]. apply Forall_app. split; [done|]. by constructor.
Qed.

(** What has been sent stays a prefix of the output when tokens are added. *)
Lemma grow_sent (r : StreamReq L C H) s rt ct rn il ol hs ci ws :
  sent r ws → sr_out r `prefix_of` output_ids_through_stop s → sent (mkStream (with_progress rt ct rn il ol hs ci (sr_info r)) s (sr_cursor r)) ws.
Proof.
  intros [H1 H2 H4 H5 H6] [more Hp].
  assert (Hout : ∀ i : ReqInfo L C H, sr_out (mkStream i s (sr_cursor r)) = sr_out r ++ more) by done.
  split; cbn [sr_cursor sr_info]; rewrite ?Hout; try done.
  - rewrite length_app. lia.
  - by rewrite take_app_le.
  - by rewrite take_app_le.
Qed.

Lemma update_prefix (i : ReqInfo L C H) old tf new g s :
  0 ≤ i_max_new_tokens i → (Z.of_nat (length old) < i_max_new_tokens i ∨ old = []) → grows new tf →
  update i g (length new) (mkFinish (old ++ new) None None tf) = Ok s →
  old `prefix_of` output_ids_through_stop s ∧
  (f_reason s = None → f_finished_len s = None ∧ Z.of_nat (length (f_output_ids s)) < i_max_new_tokens i) ∧
  (∀ t, f_reason s = Some (FINISH_MATCHED_TOKEN t) → (length old < length (output_ids_through_stop s))%nat).
Proof.
  intros Hmax Hold Hne E. destruct Hne as [[Hne ->]| ->].
  2: { injection E as <-. cbn. split; [by eexists|done]. }
  pose proof (update_finishes tokenizer decode re_search any_of (i_sampling i) (i_stops i) (i_max_new_tokens i) (i_eos_token_ids i) vocab_size [] g old new Hne) as Hf.
  rewrite E in Hf.
  assert (Hlen : (length old < length (old ++ new))%nat) by (rewrite length_app; destruct new; [done|cbn; lia]).
  destruct Hf as [Hl Ho Hr Hn|t _ _ _ Ho Hr Hn|pre t post _ _ _ _ _ _ Ho Hr Ht|pre t post _ _ _ _ _ _ Ho Hr Ht|[Hl _ _ _] Hreads ->].
  - split; [|by rewrite Hr]. unfold output_ids_through_stop. rewrite Hn, Ho, bool_decide_eq_true_2 by done.
    rewrite take_app_ge by (destruct Hold as [ | ->]; cbn; lia). by eexists.
  - rewrite Hr. unfold output_ids_through_stop. rewrite Hn, Ho. split; [by eexists|done].
  - rewrite Hr, Ht. split; [by eexists|]. split; [done|]. intros _ _. rewrite !length_app. cbn. lia.
  - rewrite Hr, Ht. split; [by eexists|done].
  - split; [by eexists|]. split; [done|]. cbn. intros t Ht. rewrite Ht in Hreads. by inversion Hreads.
Qed.

Lemma accept_streamed (r r' : StreamReq L C H) a ws : streamed r ws → accept r empty_acc = Ok (r', a) → streamed r' (ws ++ rows a) ∧ sr_info r' = sr_info r.
Proof.
  intros [Hs Ho Hl]. unfold Streamer.accept, sr_finished. destruct (f_reason (sr_finish r)) as [reason|] eqn:Hr.
  - destruct (finished_output (sr_cursor r)) eqn:Hf; [done|]. cbn [negb]. intros E. injection E as E.
    pose proof (report_sent _ _ (final_sent _ _ Hs)) as R. rewrite E in R. destruct R as (S & E0 & E1 & E2 & E3 & w & Ha & Hw & Hc & Hd). rewrite Ha in *. rewrite final_out in E3, Hc.
    assert (Eo : sr_out r' = sr_out r) by (unfold sr_out at 1; rewrite E1; apply final_out).
    split; [|by rewrite E0]. split; [done|rewrite E1; cbn; by rewrite Hr|]. rewrite E2. cbn [set_finished_output sr_cursor finished_output]. rewrite E1, Eo. cbn [set_finished_output sr_finish f_reason].
    split; [done|]. rewrite Hr. split; [done|]. exists ws, w. destruct Hl as [Hl Ht]. split_and!; try done; [rewrite Hw; cbn; by rewrite Hr|].
    intros [t E']. cbn in E'. rewrite E1 in E'. cbn in E'. rewrite Hd, final_out. intros E0'. apply (f_equal length) in E0'. rewrite length_drop in E0'. cbn in E0'.
    assert (send_token_offset (sr_cursor r) < length (sr_out r))%nat by (apply Ht; by exists t). lia.
  - destruct (should_output _ _ _ _ r) as [b|]; [|done]. cbn [mbind result_bind]. intros E. injection E as E. destruct b.
    2: { injection E as <- <-. cbn [rows empty_acc]. rewrite app_nil_r. split; [|done]. split; rewrite ?Hr; done. }
    pose proof (report_sent _ _ Hs) as R. rewrite E in R. destruct R as (S & E0 & E1 & E2 & E3 & w & Ha & Hw & Hc & Hd). rewrite Ha in *.
    split; [|done]. split; [done|by rewrite E0, E1, Hr|]. rewrite E2. destruct (finished_output (sr_cursor r)); [by destruct Hl as (_ & ? & _)|].
    destruct Hl as [Hl _]. split; [apply Forall_app; split; [done|]; constructor; [congruence|done]|]. intros [t E']. rewrite E1, Hr in E'. done.
Qed.

Lemma life_streamed r ws : life r ws → streamed r ws ∧ 0 ≤ i_max_new_tokens (sr_info r).
Proof.
  induction 1 as [i Hmax|i c old tf0 new tf g s rt ct rn il ol hs ci ws _ [IH Hmax] Hne E|r r' a ws _ [IH Hmax] E].
  - split; [|done]. split; [split; cbn; done|cbn; by auto|]. split; [constructor|]. by intros [t ?].
  - destruct IH as [Hs Ho Hl]. destruct (Ho eq_refl) as [_ Hlen]. cbn in Hlen.
    destruct (update_prefix i old tf new g s Hmax Hlen Hne E) as (Hp & Hn & Ht). split; [|done]. split.
    + by apply (grow_sent (mkStream i (mkFinish old None None tf0) c)).
    + intros Hr. destruct (Hn Hr). by auto.
    + cbn in *. destruct (finished_output c); [by destruct Hl as (_ & ? & _)|]. split; [apply Hl|]. intros [t E']. specialize (Ht t E').
      pose proof (st_bound _ _ Hs) as Hb. cbn in *. eapply Nat.le_lt_trans; [exact Hb|exact Ht].
  - destruct (accept_streamed r r' a ws IH E) as [? ->]. by split.
Qed.

Lemma sent_decode_ids (r : StreamReq L C H) ws : sent r ws → ws ≠ [] →
  concat (w_decode_ids <$> ws) = prompt_tail (sr_info r) ++ take (send_token_offset (sr_cursor r)) (sr_out r).
Proof.
  intros [_ <- _ _ Hd] Hne. destruct ws as [|w ws]; [done|]. destruct (Hd w ws eq_refl) as [Hw Hall]. cbn. rewrite Hw, <-app_assoc. do 3 f_equal.
  clear -Hall. induction Hall as [|x l Hx _ IH]; [done|]. cbn. by rewrite Hx, IH.
Qed.

(** C6: However the reports of a request are spaced, the token ids they carry are a
    prefix of the output, no token is sent twice or left out, and only the last report
    names a reason to finish; once it is sent, the reports together hold the output up to
    the stop position, and for the detokenizer the end of the prompt before it.  A
    finished request that has not been reported yet is reported completely by the
    next call. *)
Theorem reported_once r ws :
  life r ws →
  concat (w_output_ids <$> ws) `prefix_of` sr_out r ∧
  if finished_output (sr_cursor r) then
    concat (w_output_ids <$> ws) = sr_out r ∧ concat (w_decode_ids <$> ws) = prompt_tail (sr_info r) ++ sr_out r ∧
    ∃ pre w, ws = pre ++ [w] ∧ Forall (fun w => w_finished_reason w = None) pre ∧ w_finished_reason w = f_reason (sr_finish r) ∧
      w_finished_reason w ≠ None ∧ w_completion_tokens w = length (sr_out r)
  else Forall (fun w => w_finished_reason w = None) ws ∧
    (sr_finished r = true → ∃ r' a, accept r empty_acc = Ok (r', a) ∧ finished_output (sr_cursor r') = true ∧
       concat (w_output_ids <$> ws ++ rows a) = sr_out r).
Proof.
  intros Hlife. destruct (life_streamed r ws Hlife) as [S _]. pose proof S as [Hs Ho Hl]. split.
  { rewrite (st_ids _ _ Hs). apply prefix_take. }
  destruct (finished_output (sr_cursor r)) eqn:Hf.
  - destruct Hl as (Hn & Hr & pre & w & Hws & Hpre & Hw & Hc & _). split; [by rewrite (st_ids _ _ Hs), Hn, firstn_all|]. split.
    + rewrite (sent_decode_ids r ws Hs), Hn, firstn_all by (rewrite Hws; by destruct pre). done.
    + exists pre, w. rewrite Hw. by split_and!.
  - split; [apply Hl|]. intros Hfin. unfold Streamer.accept. rewrite Hfin, Hf. cbn [negb].
    destruct (report _ _ (set_finished_output r) empty_acc) as [r' a] eqn:E. exists r', a. split; [done|].
    pose proof (report_sent _ _ (final_sent _ _ Hs)) as R. rewrite E in R. destruct R as (S' & _ & E1 & E2 & E3 & _). split; [by rewrite E2|].
    rewrite (st_ids _ _ S'), E3, final_out. unfold sr_out. rewrite E1. fold (sr_out (set_finished_output r)). by rewrite final_out, firstn_all.
Qed.

(** * Batches of requests

    The requests of the server grow and are reported in batches, in any order. *)

Definition rid_of (r : StreamReq L C H) : string := i_rid (sr_info r).

(** The rows of one request in the payloads sent so far. *)
Definition own_rows (k : string) (ps : list (list (Row L))) : list (Row L) := filter (fun w => w_rid w = k) (concat ps).

Inductive serving : list (StreamReq L C H) → list (list (Row L)) → Prop :=
  | serve_start infos : NoDup (i_rid <$> infos) → Forall (fun i => 0 ≤ i_max_new_tokens i) infos →
      serving ((fun i => mkStream i (mkFinish [] None None None) new_cursor) <$> infos) []
  | serve_grow l1 l2 i c old tf0 new tf g s rt ct rn il ol hs ci ps :
      serving (l1 ++ mkStream i (mkFinish old None None tf0) c :: l2) ps → grows new tf →
      update i g (length new) (mkFinish (old ++ new) None None tf) = Ok s →
      serving (l1 ++ mkStream (with_progress rt ct rn il ol hs ci i) s c :: l2) ps
  | serve_stream reqs batch rest skip idle batch' p ps :
      serving reqs ps → reqs ≡ₚ batch ++ rest →
      _stream_output_generation tokenizer decode return_logprob disaggregated_decode default_stream_interval default_force_stream_interval batch skip idle = Ok (batch', p) →
      serving (batch' ++ rest) (ps ++ option_list (rows <$> p)).

Lemma report_rows (r : StreamReq L C H) acc :
  let '(r', a) := report return_logprob disaggregated_decode r acc in
  let '(r0, a0) := report return_logprob disaggregated_decode r empty_acc in
  r' = r0 ∧ rows a = rows acc ++ rows a0 ∧ sr_info r0 = sr_info r ∧ ∃ w, rows a0 = [w] ∧ w_rid w = rid_of r.
Proof. unfold report. destruct (init_incremental_detokenize r) as [? [? ?]], (logprob_columns _ _ r) as [[? ?] ?]. cbn. by eauto 10. Qed.

Lemma accept_rows (r r' : StreamReq L C H) acc a :
  accept r acc = Ok (r', a) →
  ∃ a0, accept r empty_acc = Ok (r', a0) ∧ rows a = rows acc ++ rows a0 ∧ sr_info r' = sr_info r ∧ (length (rows a0) ≤ 1)%nat ∧
    Forall (fun w => w_rid w = rid_of r) (rows a0).
Proof.
  unfold Streamer.accept. destruct (sr_finished r).
  - destruct (negb _); [|done]. pose proof (report_rows (set_finished_output r) acc) as R.
    destruct (report _ _ _ acc) as [x b], (report _ _ _ empty_acc) as [x0 b0]. destruct R as (-> & Hrows & Hi & w & Hw & Hk).
    intros E. injection E as <- <-. exists b0. rewrite Hrows, Hw. split_and!; try done. constructor; [by rewrite Hk|done].
  - destruct (should_output _ _ _ _ r) as [b|]; [|done]. cbn [mbind result_bind]. destruct b.
    + pose proof (report_rows r acc) as R. destruct (report _ _ _ acc) as [x b], (report _ _ _ empty_acc) as [x0 b0].
      destruct R as (-> & Hrows & Hi & w & Hw & Hk). intros E. injection E as <- <-. exists b0. rewrite Hrows, Hw. split_and!; try done. by constructor.
    + intros E. injection E as <- <-. exists empty_acc. cbn. rewrite app_nil_r. split_and!; try done. lia.
Qed.

(** A request of a batch and the rows it adds. *)
Inductive accepted (r r' : StreamReq L C H) (out : list (Row L)) : Prop :=
  | acc_skip : r' = r → out = [] → accepted r r' out
  | acc_row a : accept r empty_acc = Ok (r', a) → out = rows a → accepted r r' out.

Lemma accepted_facts r r' out : accepted r r' out → sr_info r' = sr_info r ∧ (length out ≤ 1)%nat ∧ Forall (fun w => w_rid w = rid_of r) out.
Proof.
  intros [-> ->|a E ->]; [cbn; split_and!; [done|lia|done]|].
  destruct (accept_rows _ _ _ _ E) as (a0 & E0 & _ & Hi & Hl & Hk). rewrite E in E0. injection E0 as <-. done.
Qed.

Lemma stream_loop skip l : ∀ dn acc res acc',
  foldM (stream_one tokenizer decode return_logprob disaggregated_decode default_stream_interval default_force_stream_interval skip) l (dn, acc) = Ok (res, acc') →
  ∃ l' outs, res = dn ++ l' ∧ Forall3 accepted l l' outs ∧ rows acc' = rows acc ++ concat outs.
Proof.
  induction l as [|r l IH]; intros dn acc res acc' E.
  { injection E as <- <-. exists [], []. cbn. rewrite !app_nil_r. split_and!; [done|constructor|done]. }
  cbn [foldM] in E. destruct (stream_one _ _ _ _ _ _ skip (dn, acc) r) as [[d1 a1]|] eqn:E1; [|done]. cbn [mbind result_bind] in E.
  unfold stream_one in E1. cbn [fst snd] in E1. destruct (_ || _).
  - injection E1 as <- <-. destruct (IH _ _ _ _ E) as (l' & outs & -> & Hall & Hrows).
    exists (r :: l'), ([] :: outs). rewrite <-app_assoc. split_and!; [done| |done]. constructor; [by apply acc_skip|done].
  - destruct (accept r acc) as [[r' a]|] eqn:Ea; [|done]. injection E1 as <- <-.
    destruct (IH _ _ _ _ E) as (l' & outs & -> & Hall & Hrows). destruct (accept_rows _ _ _ _ Ea) as (a0 & E0 & Ha & _).
    exists (r' :: l'), (rows a0 :: outs). rewrite <-app_assoc. split_and!; [done| |cbn; by rewrite Hrows, Ha, <-app_assoc].
    constructor; [by eapply acc_row|done].
Qed.

Lemma own_rows_app k ps qs : own_rows k (ps ++ qs) = own_rows k ps ++ own_rows k qs.
Proof. unfold own_rows. by rewrite concat_app, filter_app. Qed.

(** The payload of a batch holds the rows of each request once. *)
Lemma batch_rows l l' outs :
  Forall3 accepted l l' outs → NoDup (rid_of <$> l) →
  NoDup (w_rid <$> concat outs) ∧ (∀ k, k ∉ rid_of <$> l → own_rows k [concat outs] = []) ∧
  Forall2 (fun r r' => accepted r r' (own_rows (rid_of r) [concat outs])) l l'.
Proof.
  unfold own_rows. cbn [concat]. induction 1 as [|r r' out l l' outs Ha _ IH]; intros Hnd.
  { split_and!; [constructor|done|constructor]. }
  rewrite fmap_cons in Hnd. apply NoDup_cons in Hnd as [Hk Hnd]. destruct (IH Hnd) as (Hr & Hnone & Hall). clear IH.
  destruct (accepted_facts _ _ _ Ha) as (_ & Hl & Hout). cbn [concat].
  assert (Hother : ∀ k, k ≠ rid_of r → filter (fun w => w_rid w = k) out = []).
  { intros k Hne. apply filter_none. eapply Forall_impl; [exact Hout|]. cbn. congruence. }
  assert (Hin : ∀ w, w ∈ concat outs → w_rid w ∈ rid_of <$> l).
  { intros w Hw. destruct (decide (w_rid w ∈ rid_of <$> l)) as [|Hn]; [done|]. specialize (Hnone _ Hn). rewrite app_nil_r in Hnone.
    exfalso. assert (w ∈ filter (fun w0 => w_rid w0 = w_rid w) (concat outs)) by (by apply list_elem_of_filter).
    rewrite Hnone in *. by eapply not_elem_of_nil. }
  split_and!.
  - rewrite fmap_app. apply NoDup_app. split_and!; [|intros k (w & -> & Hw)%list_elem_of_fmap (w' & Hk' & Hw')%list_elem_of_fmap|done].
    + destruct out as [|w [|]]; cbn in Hl; [constructor|apply NoDup_singleton|lia].
    + rewrite Forall_forall in Hout. rewrite (Hout w Hw) in Hk'. apply Hk. rewrite Hk'. by apply Hin.
  - intros k Hn. rewrite fmap_cons, not_elem_of_cons in Hn. destruct Hn as [Hne Hn]. specialize (Hnone k Hn). rewrite app_nil_r in *.
    rewrite filter_app, Hnone, Hother by done. done.
  - constructor.
    + specialize (Hnone _ Hk). rewrite app_nil_r in *. rewrite filter_app, Hnone, app_nil_r. by rewrite filter_all.
    + eapply Forall2_impl_elem; [exact Hall|]. intros x x' Hx Hacc. rewrite app_nil_r in *. rewrite filter_app, Hother; [done|].
      intros E. apply Hk. rewrite <-E. by apply list_elem_of_fmap_2.
Qed.

Lemma payload_rows batch skip idle batch' p :
  _stream_output_generation tokenizer decode return_logprob disaggregated_decode default_stream_interval default_force_stream_interval batch skip idle = Ok (batch', p) →
  ∃ outs, Forall3 accepted batch batch' outs ∧ (option_list (rows <$> p) = [concat outs] ∨ option_list (rows <$> p) = [] ∧ outs = []).
Proof.
  unfold _stream_output_generation. destruct (foldM _ batch _) as [[l a]|] eqn:E; [|done]. cbn [mbind result_bind fst snd]. intros Ep. injection Ep as <- <-.
  destruct (stream_loop _ _ _ _ _ _ E) as (l' & outs & -> & Hall & Hrows). cbn in Hrows. exists outs. split; [done|].
  unfold to_payload. destruct (_ || _) eqn:Hb; [left; cbn; by rewrite Hrows|right]. split; [done|].
  apply orb_false_iff in Hb as [Hb%negb_false_iff%bool_decide_eq_true%nil_length_inv _]. subst batch. by inversion Hall.
Qed.

Lemma accepted_life r r' out ws : life r ws → accepted r r' out → life r' (ws ++ out).
Proof. intros Hl [-> ->|a E ->]; [by rewrite app_nil_r|by eapply life_accept]. Qed.

Lemma batch_names l l' outs : Forall3 accepted l l' outs → rid_of <$> l' = rid_of <$> l.
Proof.
  induction 1 as [|r r' out l l' outs Ha _ IH]; [done|]. rewrite !fmap_cons, IH. f_equal. unfold rid_of. by destruct (accepted_facts _ _ _ Ha) as (-> & _).
Qed.

(** Every request of the server leads its own life, and no payload has two rows of one request. *)
Lemma serving_life reqs ps :
  serving reqs ps →
  NoDup (rid_of <$> reqs) ∧ Forall (fun r => life r (own_rows (rid_of r) ps)) reqs ∧ Forall (fun p => NoDup (w_rid <$> p)) ps.
Proof.
  induction 1 as [infos Hnd Hmax|l1 l2 i c old tf0 new tf g s rt ct rn il ol hs ci ps _ (Hnd & Hlife & Hp) Hne E|reqs batch rest skip idle batch' p ps _ (Hnd & Hlife & Hp) Hperm E].
  - split_and!; [by rewrite <-list_fmap_compose| |constructor]. apply Forall_fmap. eapply Forall_impl; [exact Hmax|]. intros i Hi. by apply life_start.
  - split_and!; [by rewrite fmap_app, fmap_cons in *| |done]. apply Forall_app in Hlife as [H1 [H2 H3]%Forall_cons].
    apply Forall_app. split; [done|]. constructor; [|done]. by eapply life_grow.
  - rewrite Hperm in Hnd. rewrite Hperm in Hlife. rewrite fmap_app in Hnd. apply NoDup_app in Hnd as (Hnd & Hdisj & Hnd').
    apply Forall_app in Hlife as [Hl1 Hl2]. destruct (payload_rows _ _ _ _ _ E) as (outs & Hall & Hout).
    destruct (batch_rows _ _ _ Hall Hnd) as (Hrows & Hnone & Heach).
    assert (Hown : ∀ k, own_rows k (option_list (rows <$> p)) = own_rows k [concat outs]) by (intros k; destruct Hout as [->|[-> ->]]; done).
    pose proof (batch_names _ _ _ Hall) as Hids.
    split_and!.
    + rewrite fmap_app, Hids. by apply NoDup_app.
    + apply Forall_app. split.
      * apply Forall_forall. intros r' [j Hj]%list_elem_of_lookup. destruct (Forall2_lookup_r _ _ _ _ _ Heach Hj) as (r & Hr & Hacc).
        destruct (accepted_facts _ _ _ Hacc) as (Hi & _). unfold rid_of at 1. rewrite Hi, own_rows_app, Hown. eapply accepted_life; [|exact Hacc].
        rewrite Forall_forall in Hl1. apply Hl1. by eapply list_elem_of_lookup_2.
      * apply Forall_forall. intros r Hr. rewrite own_rows_app, Hown, Hnone, app_nil_r; [rewrite Forall_forall in Hl2; by apply Hl2|].
        intros Hin. apply (Hdisj _ Hin). by apply list_elem_of_fmap_2.
    + apply Forall_app. split; [done|]. destruct Hout as [->|[-> _]]; by repeat constructor.
Qed.

Lemma batch_rids l l' outs w : Forall3 accepted l l' outs → w ∈ concat outs → w_rid w ∈ rid_of <$> l.
Proof.
  induction 1 as [|r r' out l l' outs Ha _ IH]; [by intros ?%not_elem_of_nil|]. cbn [concat]. rewrite fmap_cons, elem_of_app, elem_of_cons.
  intros [Hw|Hw]; [left|right; by apply IH]. destruct (accepted_facts _ _ _ Ha) as (_ & _ & Hout). rewrite Forall_forall in Hout. by apply Hout.
Qed.

Lemma serving_rids reqs ps : serving reqs ps → Forall (fun p => w_rid <$> p ⊆ rid_of <$> reqs) ps.
Proof.
  induction 1 as [infos Hnd Hmax|l1 l2 i c old tf0 new tf g s rt ct rn il ol hs ci ps _ IH Hne E|reqs batch rest skip idle batch' p ps _ IH Hperm E]; [constructor| |].
  - rewrite fmap_app, fmap_cons in *. exact IH.
  - destruct (payload_rows _ _ _ _ _ E) as (outs & Hall & Hout).
    pose proof (batch_names _ _ _ Hall) as Hids.
    rewrite fmap_app, Hids, <-fmap_app. apply Forall_app. split.
    + eapply Forall_impl; [exact IH|]. cbn. intros q Hq k Hk%Hq. by rewrite <-Hperm.
    + destruct Hout as [->|[-> _]]; [|constructor]. constructor; [|done]. intros k (w & -> & Hw)%list_elem_of_fmap.
      rewrite fmap_app. apply elem_of_app. left. by eapply batch_rids.
Qed.

End life.
