(* ===== verification/Detokenizer.v ===== *)
(** The detokenizer process ([managers/detokenizer_manager.py]) with
    [find_printable_text] ([sglang/utils.py]): token ids come in as the scheduler sends
    them, text goes out in pieces.

    The tokenizer is a parameter; texts are lists of code points. *)

From S2P Require Import Prelude Sampling Streamer.

Open Scope Z_scope.

(** U+FFFD, the sign of an incomplete character. *)
Definition PARTIAL : Z := 0xFFFD.
Definition NEWLINE : Z := 10.
Definition SPACE : Z := 32.

(** * Printable text *)

Definition _is_chinese_char (cp : Z) : bool :=
  (bool_decide (0x4E00 ≤ cp) && bool_decide (cp ≤ 0x9FFF)) || (bool_decide (0x3400 ≤ cp) && bool_decide (cp ≤ 0x4DBF))
  || (bool_decide (0x20000 ≤ cp) && bool_decide (cp ≤ 0x2A6DF)) || (bool_decide (0x2A700 ≤ cp) && bool_decide (cp ≤ 0x2B73F))
  || (bool_decide (0x2B740 ≤ cp) && bool_decide (cp ≤ 0x2B81F)) || (bool_decide (0x2B820 ≤ cp) && bool_decide (cp ≤ 0x2CEAF))
  || (bool_decide (0xF900 ≤ cp) && bool_decide (cp ≤ 0xFAFF)) || (bool_decide (0x2F800 ≤ cp) && bool_decide (cp ≤ 0x2FA1F)).

(** [s.rfind(c)] and [s.find(x)]; [None] stands for -1. *)
Fixpoint rfind (c : Z) (s : text) : option nat :=
  match s with
  | [] => None
  | x :: s => match rfind c s with
              | Some i => Some (S i)
              | None => if bool_decide (x = c) then Some 0%nat else None
              end
  end.

Fixpoint py_find (x s : text) : option nat :=
  if bool_decide (x `prefix_of` s) then Some 0%nat
  else match s with [] => None | _ :: s => S <$> py_find x s end.

Definition chinese_at (c : option Z) : bool := match c with Some c => _is_chinese_char c | None => false end.

Definition find_printable_text (s : text) : text :=
  if bool_decide (last s = Some NEWLINE) then s
  else if chinese_at (last s) then s
  else if chinese_at (last (take (length s - 1) s)) then take (length s - 1) s
  else take (match rfind SPACE s with Some i => S i | None => 0 end) s.

(** * Stop texts and stop tokens *)

Inductive Matched := MatchedNone | MatchedInt (t : Z) | MatchedStr (s : text).

Record DecodeStatus := mkStatus {
  decoded_text : text;
  decode_ids : list Z;
  s_surr_offset : nat;
  s_read_offset : nat;
  sent_offset : nat;
}.

Definition GPT_OSS_CALL : Z := 200012.

(** [LimitedCapacityDict.__setitem__]; [popitem] of an empty dict raises. *)
Definition limited_set {V} (capacity : nat) (k : string) (v : V) (d : odict string V) : result (odict string V) :=
  if (capacity <=? length d)%nat then
    match d with [] => Raise KeyError | _ :: d => Ok (od_set k v d) end
  else Ok (od_set k v d).

Section detokenizer.
Context {L : Type}.

(** The source of a regex, whose parse tree the other files use; the flags of the server. *)
Context (pattern_text : list node → text) (is_tool_call_parser_gpt_oss disable_tokenizer_batch_decode : bool) (capacity : nat).

(** [tokenizer.is_fast], [tokenizer.decode] with its two flags and without,
    [tokenizer.batch_decode] and [tokenizer.all_special_ids]. *)
Context (is_fast : bool) (tokenizer_decode : bool → bool → list Z → text) (plain_decode : list Z → text)
  (batch_decode : bool → bool → list (list Z) → list text) (special_ids : list Z).

(** [finished_reason.get('matched')]. *)
Definition matched_of (r : FinishReason) : Matched :=
  match r with
  | FINISH_MATCHED_TOKEN t => MatchedInt t
  | FINISH_MATCHED_STR s => MatchedStr s
  | FINISHED_MATCHED_REGEX p => MatchedStr (pattern_text p)
  | FINISH_LENGTH _ | FINISH_ABORT => MatchedNone
  end.

(** [trim_matched_stop] of a list of ids; zero is no match to [if not matched]. *)
Definition trim_ids (output : list Z) (finished_reason : option FinishReason) (no_stop_trim : bool) : result (list Z) :=
  if no_stop_trim then Ok output
  else match matched_of <$> finished_reason with
       | Some (MatchedInt t) =>
           if bool_decide (t = 0) then Ok output
           else do! x <- py_get output (-1);
                if bool_decide (x = GPT_OSS_CALL) && is_tool_call_parser_gpt_oss then Ok output
                else Ok (take (length output - 1) output)
       | _ => Ok output
       end.

(** [trim_matched_stop] of a text. *)
Definition trim_text (output : text) (finished_reason : option FinishReason) (no_stop_trim : bool) : text :=
  if no_stop_trim then output
  else match matched_of <$> finished_reason with
       | Some (MatchedStr x) =>
           if bool_decide (x = []) then output
           else match py_find x output with Some pos => take pos output | None => output end
       | _ => output
       end.

(** [decode_without_hf_kwargs]. *)
Definition decode_without_hf_kwargs (token_ids : list Z) (skip_special_tokens : bool) : text :=
  plain_decode (if skip_special_tokens then filter (fun t => t ∉ special_ids) token_ids else token_ids).

(** [groups[(skip, space)].append(idx)]. *)
Definition group_step (groups : odict (bool * bool) (list nat)) (x : nat * (bool * bool)) : odict (bool * bool) (list nat) :=
  od_set x.2 (default [] (od_get x.2 groups) ++ [x.1]) groups.

Definition decode_group (ids_list : list (list Z)) (results : list text) (g : (bool * bool) * list nat) : result (list text) :=
  do! ids <- traverse (fun idx => py_get ids_list (Z.of_nat idx)) g.2;
  foldM (fun results x => py_set results (Z.of_nat x.1) x.2) (zip g.2 (batch_decode g.1.1 g.1.2 ids)) results.

Definition _grouped_batch_decode (ids_list : list (list Z)) (skip_list space_list : list bool) : result (list text) :=
  if negb is_fast then Ok (zip_with decode_without_hf_kwargs ids_list skip_list)
  else
    do! first_skip <- py_get skip_list 0;
    do! first_space <- py_get space_list 0;
    if forallb (fun x => bool_decide (x = (first_skip, first_space))) (zip skip_list space_list) then Ok (batch_decode first_skip first_space ids_list)
    else
      let groups := fold_left group_step (imap pair (zip skip_list space_list)) [] in
      foldM (decode_group ids_list) groups (replicate (length ids_list) []).

(** The first loop of [_decode_batch_token_id_output]: the status of a request, and the ids to decode. *)
Definition receive_row (row : Row L) (d : odict string DecodeStatus) : result (odict string DecodeStatus * (list Z * list Z)) :=
  do! x <- match od_get (w_rid row) d with
           | None =>
               let s := mkStatus (w_decoded_text row) (w_decode_ids row) 0 (w_read_offset row) 0 in
               do! d <- limited_set capacity (w_rid row) s d; Ok (d, s)
           | Some s =>
               let s := mkStatus (decoded_text s) (decode_ids s ++ w_decode_ids row) (s_surr_offset s) (s_read_offset s) (sent_offset s) in
               Ok (od_set (w_rid row) s d, s)
           end;
  let s := x.2 in
  do! read <- trim_ids (drop (s_surr_offset s) (decode_ids s)) (w_finished_reason row) (w_no_stop_trim row);
  Ok (x.1, (read, slice (s_surr_offset s) (s_read_offset s) (decode_ids s))).

Definition receive_step (st : odict string DecodeStatus * list (list Z) * list (list Z)) (row : Row L)
  : result (odict string DecodeStatus * list (list Z) * list (list Z)) :=
  do! x <- receive_row row st.1.1; Ok (x.1, st.1.2 ++ [x.2.1], st.2 ++ [x.2.2]).

Definition decode_all_ids (ids_list : list (list Z)) (rows : list (Row L)) : result (list text) :=
  let skips := w_skip_special_tokens <$> rows in
  let spaces := w_spaces_between_special_tokens <$> rows in
  if disable_tokenizer_batch_decode then Ok (zip_with (fun ids f => tokenizer_decode f.1 f.2 ids) ids_list (zip skips spaces))
  else _grouped_batch_decode ids_list skips spaces.

(** The body of the last loop, from the status to the text that is sent. *)
Definition advance (row : Row L) (surr_text read_text : text) (s : DecodeStatus) : DecodeStatus * text :=
  let new_text := drop (length surr_text) read_text in
  let '(s, new_text) :=
    match w_finished_reason row with
    | None =>
        if negb (bool_decide (new_text = [])) && negb (bool_decide (last new_text = Some PARTIAL)) then
          (mkStatus (decoded_text s ++ new_text) (decode_ids s) (s_read_offset s) (length (decode_ids s)) (sent_offset s), [])
        else (s, find_printable_text new_text)
    | Some _ => (s, new_text)
    end in
  let output_str := trim_text (decoded_text s ++ new_text) (w_finished_reason row) (w_no_stop_trim row) in
  (mkStatus (decoded_text s) (decode_ids s) (s_surr_offset s) (s_read_offset s) (length output_str), drop (sent_offset s) output_str).

Definition advance_step (surr_texts read_texts : list text) (st : odict string DecodeStatus * list text) (x : nat * Row L)
  : result (odict string DecodeStatus * list text) :=
  let '(i, row) := x in
  match od_get (w_rid row) st.1 with
  | None => Raise RuntimeError
  | Some s =>
      do! read_text <- py_get read_texts (Z.of_nat i);
      do! surr_text <- py_get surr_texts (Z.of_nat i);
      let '(s', out) := advance row surr_text read_text s in
      let d := match w_finished_reason row with None => od_set (w_rid row) s' st.1 | Some _ => od_del (w_rid row) st.1 end in
      Ok (d, st.2 ++ [out])
  end.

Definition _decode_batch_token_id_output (rows : list (Row L)) (d : odict string DecodeStatus) : result (odict string DecodeStatus * list text) :=
  do! st <- foldM receive_step rows (d, [], []);
  do! surr_texts <- decode_all_ids st.2 rows;
  do! read_texts <- decode_all_ids st.1.2 rows;
  foldM (advance_step surr_texts read_texts) (imap pair rows) (st.1.1, []).

(** [handle_batch_token_id_out]: the texts of the answer; its other columns are those of the message. *)
Definition handle_batch_token_id_out (rows : list (Row L)) (d : odict string DecodeStatus) : result (odict string DecodeStatus * list text) :=
  if bool_decide (length rows = 0%nat) then Ok (d, []) else _decode_batch_token_id_output rows d.

End detokenizer.

(** * Grouped decoding *)

Section grouped.
Context {L : Type} (disable_tokenizer_batch_decode is_fast : bool) (tokenizer_decode : bool → bool → list Z → text) (plain_decode : list Z → text)
  (batch_decode : bool → bool → list (list Z) → list text) (special_ids : list Z).

(** A batch is decoded sequence by sequence. *)
Context (batch_decode_each : ∀ skip space l, batch_decode skip space l = tokenizer_decode skip space <$> l).

(** Decoding for one request. *)
Definition row_decode (skip space : bool) (ids : list Z) : text :=
  if disable_tokenizer_batch_decode || is_fast then tokenizer_decode skip space ids else decode_without_hf_kwargs plain_decode special_ids ids skip.

Lemma groups_spec (keys : list (bool * bool)) :
  let groups := fold_left group_step (imap pair keys) [] in
  (∀ k g i, od_get k groups = Some g → i ∈ g → keys !! i = Some k) ∧ (∀ k i, keys !! i = Some k → ∃ g, od_get k groups = Some g ∧ i ∈ g) ∧ NoDup (od_keys groups).
Proof.
  cbv zeta. induction keys as [|x keys (IH1 & IH2 & IH3)] using rev_ind; [split_and!; [done|done|constructor]|].
  rewrite imap_app, fold_left_app. set (G := fold_left group_step (imap pair keys) []) in *. cbn [imap fold_left]. unfold group_step. cbn [fst snd compose].
  rewrite Nat.add_0_r. split_and!.
  - intros k g i. rewrite od_get_set. destruct (decide (k = x)) as [->|Hne].
    + intros E. injection E as <-. intros [Hi| ->%list_elem_of_singleton]%elem_of_app; [|by rewrite lookup_app_r, Nat.sub_diag].
      destruct (od_get x G) as [g0|] eqn:Hg; [|by apply not_elem_of_nil in Hi]. apply lookup_app_l_Some. by eapply IH1.
    + intros Hg Hi. apply lookup_app_l_Some. by eapply IH1.
  - intros k i [Hi|[Hl Hi]]%lookup_app_Some; rewrite od_get_set.
    + destruct (IH2 k i Hi) as (g & Hg & Hin). destruct (decide (k = x)) as [->|]; [|by eauto]. rewrite Hg. eexists. split; [done|]. apply elem_of_app. by left.
    + apply list_lookup_singleton_Some in Hi as [Hi <-]. rewrite decide_True by done. eexists. split; [done|]. apply elem_of_app. right.
      apply list_elem_of_singleton. lia.
  - by apply od_set_NoDup.
Qed.

Lemma set_each (F : nat → text) g : ∀ results,
  Forall (fun i => i < length results)%nat g →
  ∃ results', foldM (fun results x => py_set results (Z.of_nat x.1) x.2) (zip g (F <$> g)) results = Ok results' ∧ length results' = length results ∧
    ∀ i, (i ∈ g ∧ (i < length results)%nat ∨ results !! i = Some (F i)) → results' !! i = Some (F i).
Proof.
  induction g as [|j g IH]; intros results Hg.
  { exists results. split_and!; try done. by intros i [[?%not_elem_of_nil _]|?]. }
  apply Forall_cons in Hg as [Hj Hg]. cbn [fmap list_fmap zip zip_with foldM fst snd]. rewrite py_set_nat by done. cbn [mbind result_bind].
  destruct (IH (<[j:=F j]> results)) as (r' & E & Hl & Hr); [eapply Forall_impl; [exact Hg|]; intros i; by rewrite length_insert|].
  exists r'. rewrite length_insert in Hl. split_and!; [done|done|]. intros i Hi. apply Hr. rewrite length_insert.
  destruct (decide (i = j)) as [->|Hne]; [right; by apply list_lookup_insert_eq|]. rewrite list_lookup_insert_ne by done.
  destruct Hi as [[Hi Hlt]|Hi]; [left|by right]. apply elem_of_cons in Hi as [->|Hi]; [done|]. done.
Qed.

Lemma decode_groups (ids_list : list (list Z)) (keys : list (bool * bool)) (gs : odict (bool * bool) (list nat)) :
  length keys = length ids_list → (∀ k g i, (k, g) ∈ gs → i ∈ g → keys !! i = Some k) → ∀ results, length results = length ids_list →
  let F i := let k := default (false, false) (keys !! i) in tokenizer_decode k.1 k.2 (default [] (ids_list !! i)) in
  ∃ results', foldM (decode_group batch_decode ids_list) gs results = Ok results' ∧ length results' = length ids_list ∧
    ∀ i, ((∃ k g, (k, g) ∈ gs ∧ i ∈ g) ∨ results !! i = Some (F i)) → results' !! i = Some (F i).
Proof.
  intros Hlen. induction gs as [|[k g] gs IH]; intros Hgs results Hres F.
  { exists results. split_and!; try done. by intros i [(? & ? & ?%not_elem_of_nil & _)|?]. }
  assert (Hg : ∀ i, i ∈ g → keys !! i = Some k) by (intros i Hi; by eapply Hgs; [left|]).
  assert (Hlt : Forall (fun i => i < length results)%nat g).
  { apply Forall_forall. intros i Hi. rewrite Hres, <-Hlen. by eapply lookup_lt_Some, Hg. }
  assert (Eids : traverse (fun idx => py_get ids_list (Z.of_nat idx)) g = Ok ((fun i => default [] (ids_list !! i)) <$> g)).
  { apply traverse_pure. intros i Hi. rewrite Forall_forall in Hlt. specialize (Hlt i Hi).
    destruct (lookup_lt_is_Some_2 ids_list i) as [ids Hids]; [lia|]. rewrite Hids. by apply py_get_nat. }
  assert (Emap : batch_decode k.1 k.2 ((fun i => default [] (ids_list !! i)) <$> g) = F <$> g).
  { rewrite batch_decode_each, <-list_fmap_compose. apply list_fmap_ext. intros n i Hn. unfold F. rewrite (Hg i) by (by eapply list_elem_of_lookup_2). done. }
  destruct (set_each F g results Hlt) as (r1 & E1 & Hl1 & Hr1).
  assert (Eg : decode_group batch_decode ids_list results (k, g) = Ok r1) by (unfold decode_group; cbn [fst snd]; rewrite Eids; cbn [mbind result_bind]; by rewrite Emap).
  cbn [foldM]. rewrite Eg. cbn [mbind result_bind].
  destruct (IH (fun k g i Hk => Hgs k g i (list_elem_of_further _ _ _ Hk)) r1) as (r2 & -> & Hl2 & Hr2); [lia|]. exists r2. split_and!; [done|done|].
  intros i Hi. apply Hr2. destruct Hi as [(k' & g' & [[= -> ->]|Hin]%elem_of_cons & Hi)|Hi]; [right|by eauto|right; apply Hr1; by right].
  apply Hr1. left. split; [done|]. rewrite Forall_forall in Hlt. by apply Hlt.
Qed.

Lemma zip_fields {A B C D} (f : A → B) (g : A → C) (h : D → B * C → text) (l : list A) (k : list D) :
  zip_with h k (zip (f <$> l) (g <$> l)) = zip_with (fun y x => h y (f x, g x)) k l.
Proof. revert k. induction l as [|x l IH]; intros [|y k]; cbn; [done..|]. by rewrite IH. Qed.

(** Every text of a message is the decoding of its own ids with its own flags, whichever
    way the batch is decoded: sequence by sequence, at once or in groups. *)
Lemma decode_each (ids_list : list (list Z)) (rows : list (Row L)) :
  rows ≠ [] → length ids_list = length rows →
  decode_all_ids disable_tokenizer_batch_decode is_fast tokenizer_decode plain_decode batch_decode special_ids ids_list rows
  = Ok (zip_with (fun ids w => row_decode (w_skip_special_tokens w) (w_spaces_between_special_tokens w) ids) ids_list rows).
Proof.
  intros Hne Hlen. unfold decode_all_ids, row_decode. destruct disable_tokenizer_batch_decode; cbn [orb].
  { by rewrite zip_fields. }
  unfold _grouped_batch_decode. destruct is_fast; cbn [negb]; [|f_equal; clear; revert rows; induction ids_list as [|x l IH]; intros [|w rows]; cbn; [done..|]; by rewrite IH].
  destruct rows as [|w0 rows]; [done|]. set (ws := w0 :: rows) in *.
  change (py_get (w_skip_special_tokens <$> ws) 0) with (Ok (w_skip_special_tokens w0)).
  change (py_get (w_spaces_between_special_tokens <$> ws) 0) with (Ok (w_spaces_between_special_tokens w0)). cbn [mbind result_bind].
  set (keys := zip _ _). assert (Hkeys : ∀ i w, ws !! i = Some w → keys !! i = Some (w_skip_special_tokens w, w_spaces_between_special_tokens w)).
  { intros i w Hw. apply lookup_zip_with_Some. rewrite !list_lookup_fmap, Hw. eexists _, _. by split_and!. }
  assert (Hklen : length keys = length ws) by (unfold keys; rewrite length_zip_with, !length_fmap; lia).
  destruct (forallb _ keys) eqn:Hall.
  - f_equal. rewrite batch_decode_each. apply list_eq. intros i. rewrite list_lookup_fmap, lookup_zip_with.
    destruct (ids_list !! i) as [ids|] eqn:Hi; [|done]. destruct (lookup_lt_is_Some_2 ws i) as [w Hw]; [rewrite <-Hlen; by eapply lookup_lt_Some|].
    rewrite Hw. cbn. rewrite forallb_forall in Hall. specialize (Hall _ (proj1 (list_elem_of_In _ _) (list_elem_of_lookup_2 _ _ _ (Hkeys i w Hw)))).
    apply bool_decide_eq_true in Hall. by injection Hall as -> ->.
  - destruct (groups_spec keys) as (G1 & G2 & G3). set (G := fold_left group_step _ _) in *.
    destruct (decode_groups ids_list keys G ltac:(lia)) with (results := replicate (length ids_list) (@nil Z)) as (r & -> & Hl & Hr).
    { intros k g i Hk Hi. eapply G1; [|exact Hi]. by apply od_get_elem. }
    { by rewrite length_replicate. }
    f_equal. apply list_eq. intros i. rewrite lookup_zip_with. destruct (ids_list !! i) as [ids|] eqn:Hi.
    2: { apply lookup_ge_None in Hi. apply lookup_ge_None. lia. }
    destruct (lookup_lt_is_Some_2 ws i) as [w Hw]; [rewrite <-Hlen; by eapply lookup_lt_Some|]. rewrite Hw. cbn.
    destruct (G2 _ _ (Hkeys i w Hw)) as (g & Hg & Hin). rewrite (Hr i); [by rewrite (Hkeys i w Hw), Hi|]. left. eexists _, g. split; [by apply od_get_Some_elem|done].
Qed.

End grouped.

(** * Incomplete characters *)

(** The text does not end inside a character. *)
Definition whole (t : text) : Prop := last t ≠ Some PARTIAL.

(** The text without incomplete characters at its end. *)
Fixpoint stable (t : text) : text :=
  match t with
  | [] => []
  | c :: t => match stable t with [] => if bool_decide (c = PARTIAL) then [] else [c] | s => c :: s end
  end.

Lemma stable_cons c t : stable (c :: t) = if bool_decide (stable t = [] ∧ c = PARTIAL) then [] else c :: stable t.
Proof. cbn. destruct (stable t) as [|x s]; repeat case_bool_decide; naive_solver. Qed.

Lemma stable_prefix t : stable t `prefix_of` t.
Proof. induction t as [|c t IH]; [done|]. rewrite stable_cons. case_bool_decide; [apply prefix_nil|by apply prefix_cons]. Qed.

Lemma stable_app a t : whole a → stable (a ++ t) = a ++ stable t.
Proof.
  unfold whole. induction a as [|c a IH]; [done|]. intros Hw. cbn [app]. rewrite stable_cons. destruct a as [|x a].
  - cbn [app]. rewrite bool_decide_eq_false_2; [done|]. intros [_ ->]. done.
  - rewrite IH by (intros E; apply Hw; by rewrite last_cons, E). by rewrite bool_decide_eq_false_2 by (by intros [? _]).
Qed.

Lemma stable_whole t : whole t → stable t = t.
Proof. intros Hw. rewrite <-(app_nil_r t) at 1. rewrite stable_app by done. by rewrite app_nil_r. Qed.

(** The longest prefix that ends with a space. *)
Lemma upto_space s : ∃ a b, s = a ++ b ∧ take (match rfind SPACE s with Some i => S i | None => 0 end) s = a ∧ (a = [] ∨ last a = Some SPACE) ∧ SPACE ∉ b.
Proof.
  induction s as [|c s (a & b & Hs & Ht & Ha & Hb)]; [exists [], []; split_and!; [done|done|by left|apply not_elem_of_nil]|].
  cbn [rfind]. destruct (rfind SPACE s) as [i|] eqn:Hr.
  - exists (c :: a), b. split_and!; [by rewrite Hs|cbn; by rewrite Ht| |done]. right. destruct Ha as [->|Ha]; [|by rewrite last_cons, Ha].
    destruct s; [done|]. cbn in Ht. done.
  - cbn in Ht. subst a. rewrite app_nil_l in Hs. rewrite <-Hs in Hb. clear b Hs. case_bool_decide as Hc.
    + exists [c], s. split_and!; [done|done|right; by rewrite Hc|done].
    + exists [], (c :: s). split_and!; [done|done|by left|]. apply not_elem_of_cons. by split.
Qed.

Lemma space_whole a : a = [] ∨ last a = Some SPACE → whole a.
Proof. by intros [->|Ha]; [|unfold whole; rewrite Ha]. Qed.

Lemma last_take_pred (t : text) c : last t = Some c → t = take (length t - 1) t ++ [c].
Proof. intros [u ->]%last_Some. rewrite length_app. cbn. by rewrite Nat.add_sub, take_app_length. Qed.

(** Only complete characters are printed. *)
Lemma printable_stable t : t = [] ∨ last t = Some PARTIAL → find_printable_text t `prefix_of` stable t.
Proof.
  intros [->|Hl]; [apply prefix_nil|]. unfold find_printable_text. rewrite Hl. cbn [chinese_at].
  change (_is_chinese_char PARTIAL) with false. rewrite bool_decide_eq_false_2 by done. destruct (chinese_at _) eqn:Hc.
  - assert (Hw : whole (take (length t - 1) t)) by (unfold whole; intros E; by rewrite E in Hc).
    set (u := take _ t) in *. rewrite (last_take_pred t PARTIAL Hl). fold u. rewrite stable_app by done. by eexists.
  - destruct (upto_space t) as (a & b & Ht & -> & Ha & _). rewrite Ht, stable_app by (by apply space_whole). by eexists.
Qed.

(** Without ideographs, what is printed only grows. *)
Lemma printable_mono t t' :
  (t = [] ∨ last t = Some PARTIAL) → (t' = [] ∨ last t' = Some PARTIAL) → stable t `prefix_of` t' → Forall (fun c => _is_chinese_char c = false) t' →
  find_printable_text t `prefix_of` find_printable_text t'.
Proof.
  intros Ht Ht' Hs Hc.
  assert (Hup : ∀ u, (u = [] ∨ last u = Some PARTIAL) → Forall (fun c => _is_chinese_char c = false) (stable u) →
    find_printable_text u = take (match rfind SPACE u with Some i => S i | None => 0 end) u).
  { intros u [->|Hl] Hu; [done|]. unfold find_printable_text. rewrite Hl. cbn [chinese_at]. change (_is_chinese_char PARTIAL) with false.
    rewrite bool_decide_eq_false_2 by done. destruct (chinese_at (last (take _ u))) eqn:Hch; [|done]. exfalso.
    destruct (last (take (length u - 1) u)) as [c|] eqn:Hlc; [|done]. rewrite (last_take_pred u PARTIAL Hl), stable_app in Hu.
    - apply Forall_app in Hu as [Hu _]. apply last_Some_elem_of in Hlc. rewrite Forall_forall in Hu. cbn in Hch. rewrite (Hu c Hlc) in Hch. done.
    - unfold whole. rewrite Hlc. intros [= ->]. done. }
  rewrite (Hup t Ht) by (destruct Hs as [z ->]; by apply Forall_app in Hc as [? _]).
  rewrite (Hup t' Ht') by (destruct (stable_prefix t') as [z Ez]; rewrite Ez in Hc; by apply Forall_app in Hc as [? _]).
  destruct (upto_space t) as (a & b & E & -> & Ha & _), (upto_space t') as (a' & b' & E' & -> & _ & Hb').
  rewrite E, stable_app in Hs by (by apply space_whole). destruct Hs as [z Hz]. rewrite <-app_assoc in Hz.
  destruct (prefix_weak_total a a' t') as [|[e ->]]; [by exists (stable b ++ z)|by exists b'|done|].
  rewrite E', <-app_assoc in Hz. apply app_inv_head in Hz. rewrite Hz in Hb'.
  destruct (last e) as [x|] eqn:He; [|apply last_None in He; rewrite He; by rewrite app_nil_r].
  destruct Ha as [Ha|Ha]; [by apply app_nil in Ha as [-> ->]|]. rewrite last_app, He in Ha. injection Ha as ->.
  exfalso. apply Hb'. apply elem_of_app. left. by apply last_Some_elem_of.
Qed.

(** * What the tokenizer promises *)

(** Decoders drop at most one space at the start of what they decode. *)
Definition lead (strip : bool) (t : text) : text :=
  match t with c :: t' => if strip && bool_decide (c = SPACE) then t' else t | [] => [] end.

(** Tokens stand for pieces of text; the pieces of whole characters follow each other, and
    only incomplete characters at the end depend on what comes next. *)
Class TokenTexts (decode : list Z → text) := {
  raw : list Z → text;
  strips : bool;
  decode_raw : ∀ ids, decode ids = lead strips (raw ids);
  raw_nil : raw [] = [];
  raw_app : ∀ a b, whole (raw a) → raw (a ++ b) = raw a ++ raw b;
  raw_stable : ∀ a b, stable (raw a) `prefix_of` raw (a ++ b);
}.
Global Arguments raw {_ _} _.

(** What the ids add to the text after the ids of a context. *)
Definition text_after (decode : list Z → text) (context ids : list Z) : text := drop (length (decode context)) (decode (context ++ ids)).

Lemma lead_app b x y : x ≠ [] → lead b (x ++ y) = lead b x ++ y.
Proof. destruct x as [|c x]; [done|]. intros _. cbn. by destruct (b && _). Qed.

Lemma lead_last b x c : lead b x ≠ [] → last (lead b x) = Some c → last x = Some c.
Proof. destruct x as [|z x]; [done|]. cbn. destruct (b && _); [|done]. intros _ Hl. by rewrite last_cons, Hl. Qed.

Lemma lead_stable b x y : stable x `prefix_of` y → stable (lead b x) `prefix_of` lead b y.
Proof.
  destruct x as [|c x]; [intros _; apply prefix_nil|]. rewrite stable_cons. cbn [lead]. destruct (b && bool_decide (c = SPACE)) eqn:Hb.
  - apply andb_prop in Hb as [-> ->%bool_decide_eq_true]. rewrite bool_decide_eq_false_2 by (by intros [_ ?]). intros [z ->]. cbn. by exists z.
  - rewrite stable_cons. destruct (bool_decide (stable x = [] ∧ c = PARTIAL)); [intros _; apply prefix_nil|]. intros [z ->]. cbn. rewrite Hb. by exists z.
Qed.

Section window.
Context {decode : list Z → text} `{!TokenTexts decode}.

Lemma text_after_raw B P : whole (raw B) → text_after decode B P = if bool_decide (raw B = []) then lead strips (raw P) else raw P.
Proof.
  intros HB. unfold text_after. rewrite !(decode_raw (decode := decode)), raw_app by done. case_bool_decide as Hb; [by rewrite Hb|].
  rewrite lead_app by done. apply drop_app_length.
Qed.

Lemma text_after_nil B : text_after decode B [] = [].
Proof. unfold text_after. rewrite app_nil_r. by rewrite drop_all. Qed.

(** Only incomplete characters at the end of the text can change. *)
Lemma text_after_stable B P D : whole (raw B) → stable (text_after decode B P) `prefix_of` text_after decode B (P ++ D).
Proof.
  intros HB. rewrite !text_after_raw by done. case_bool_decide; [apply lead_stable|]; apply raw_stable.
Qed.

(** When the new text is whole, its ids can be the context of what follows. *)
Lemma window_moves B P :
  whole (raw B) → text_after decode B P ≠ [] → whole (text_after decode B P) →
  whole (raw P) ∧ ∀ D, text_after decode B (P ++ D) = text_after decode B P ++ text_after decode P D.
Proof.
  intros HB. rewrite text_after_raw by done. intros Hne Hw.
  assert (HP : raw P ≠ [] ∧ whole (raw P)).
  { case_bool_decide as Hb; [|done]. split; [intros E; by rewrite E in Hne|]. intros E. apply Hw.
    destruct (lead strips (raw P)) as [|c t] eqn:El; [done|]. destruct (last (c :: t)) as [x|] eqn:Hx; [|by apply last_None in Hx].
    rewrite <-El in Hx. apply lead_last in Hx; [congruence|by rewrite El]. }
  destruct HP as [HP HwP]. split; [done|]. intros D. rewrite !text_after_raw by done. rewrite (bool_decide_eq_false_2 (raw P = [])) by done.
  rewrite raw_app by done. case_bool_decide; [by apply lead_app|done].
Qed.

End window.

(** * One request *)

Section request.
Context {L : Type} (pattern_text : list node → text) (gpt_oss : bool) (decode : list Z → text).

Notation trim_ids := (trim_ids pattern_text gpt_oss).
Notation trim_text := (trim_text pattern_text).

(** The state of a request when a row has arrived. *)
Definition arrived (row : Row L) (s : option DecodeStatus) : DecodeStatus :=
  match s with
  | None => mkStatus (w_decoded_text row) (w_decode_ids row) 0 (w_read_offset row) 0
  | Some s => mkStatus (decoded_text s) (decode_ids s ++ w_decode_ids row) (s_surr_offset s) (s_read_offset s) (sent_offset s)
  end.

(** What a message does for one of its requests. *)
Definition step_on (s : DecodeStatus) (row : Row L) : result (option DecodeStatus * text) :=
  do! read <- trim_ids (drop (s_surr_offset s) (decode_ids s)) (w_finished_reason row) (w_no_stop_trim row);
  let '(s', out) := advance pattern_text row (decode (slice (s_surr_offset s) (s_read_offset s) (decode_ids s))) (decode read) s in
  Ok (match w_finished_reason row with None => Some s' | Some _ => None end, out).

Definition step (s : option DecodeStatus) (row : Row L) : result (option DecodeStatus * text) := step_on (arrived row s) row.

Fixpoint run (s : option DecodeStatus) (rows : list (Row L)) : result (option DecodeStatus * list text) :=
  match rows with
  | [] => Ok (s, [])
  | w :: rows => do! x <- step s w; do! y <- run x.1 rows; Ok (y.1, x.2 :: y.2)
  end.

Lemma run_app s rows rows' : run s (rows ++ rows') = (do! x <- run s rows; do! y <- run x.1 rows'; Ok (y.1, x.2 ++ y.2)).
Proof.
  revert s. induction rows as [|w rows IH]; intros s; cbn [app run].
  - cbn [mbind result_bind fst snd app]. by destruct (run s rows') as [[? ?]|].
  - destruct (step s w) as [x|]; [|done]. cbn [mbind result_bind]. rewrite IH. destruct (run x.1 rows) as [y|]; [|done]. cbn [mbind result_bind fst snd].
    by destruct (run y.1 rows') as [[? ?]|].
Qed.

(** A stop token is cut off the ids. *)
Definition cuts_token (r : FinishReason) (no_stop_trim : bool) : bool :=
  negb no_stop_trim && match matched_of pattern_text r with MatchedInt t => negb (bool_decide (t = 0)) | _ => false end.

Definition kept (ids : list Z) (r : FinishReason) (no_stop_trim : bool) : list Z :=
  if cuts_token r no_stop_trim && negb (bool_decide (last ids = Some GPT_OSS_CALL) && gpt_oss) then take (length ids - 1) ids else ids.

(** The stop string that the text is cut at. *)
Definition stop_text (r : FinishReason) (no_stop_trim : bool) : option text :=
  match matched_of pattern_text r with MatchedStr x => if no_stop_trim || bool_decide (x = []) then None else Some x | _ => None end.

(** The text has no part that is, or may become, the stop string. *)
Definition quiet (x t : text) : Prop := py_in x t = false ∧ overlaps t x = false.

Definition readable (t : text) : Prop := whole t ∨ Forall (fun c => _is_chinese_char c = false) t.

Lemma kept_last ids r b : cuts_token r b = false → kept ids r b = ids.
Proof. unfold kept. by intros ->. Qed.

Lemma trim_kept a ids r b : (cuts_token r b = true → ids ≠ []) → trim_ids (a ++ ids) (Some r) b = Ok (a ++ kept ids r b).
Proof.
  unfold Detokenizer.trim_ids, kept, cuts_token. destruct b; cbn [negb andb]; [done|]. cbn [fmap option_fmap option_map].
  destruct (matched_of pattern_text r) as [|t|]; cbn [andb]; [done| |done]. case_bool_decide as Ht; cbn [negb andb]; [done|].
  intros Hne. specialize (Hne eq_refl). destruct (last ids) as [x|] eqn:Hl; [|by apply last_None in Hl].
  rewrite (py_get_last _ x) by (by rewrite last_app, Hl). cbn [mbind result_bind]. rewrite (bool_decide_ext (Some x = Some GPT_OSS_CALL) (x = GPT_OSS_CALL)) by naive_solver.
  destruct (_ && gpt_oss); cbn [negb]; [done|]. f_equal. rewrite take_app, length_app. destruct ids; [done|]. cbn [length].
  rewrite take_ge by lia. f_equal. f_equal. lia.
Qed.

Lemma trim_open ids b : trim_ids ids None b = Ok ids.
Proof. by destruct b. Qed.

Lemma trim_text_open t b : trim_text t None b = t.
Proof. by destruct b. Qed.

Lemma prefix_rest (T O : text) : T `prefix_of` O → T ++ drop (length T) O = O.
Proof. intros [k ->]. by rewrite drop_app_length. Qed.

(** The rows the scheduler sends for a request: the first brings the end of the prompt. *)
Definition rows_of (W : list Z) (trim : bool) (started : bool) (ws : list (Row L)) : Prop :=
  Forall (fun w => w_read_offset w = length W ∧ w_decoded_text w = [] ∧ w_no_stop_trim w = trim) ws ∧
  ∀ w ws', ws = w :: ws' → w_decode_ids w = (if started then [] else W) ++ w_output_ids w ∧ Forall (fun w => w_decode_ids w = w_output_ids w) ws'.

Lemma rows_of_cons W b st w ws :
  rows_of W b st (w :: ws) →
  w_read_offset w = length W ∧ w_decoded_text w = [] ∧ w_no_stop_trim w = b ∧ w_decode_ids w = (if st then [] else W) ++ w_output_ids w ∧ rows_of W b true ws.
Proof.
  intros [[(H1 & H2 & H3) Hall]%Forall_cons Hd]. destruct (Hd w ws eq_refl) as [Hw Hws]. split_and!; try done.
  split; [done|]. intros x xs ->. by apply Forall_cons in Hws.
Qed.

Lemma rows_of_app W b st ws ws' : rows_of W b st (ws ++ ws') → rows_of W b st ws ∧ rows_of W b (st || negb (bool_decide (length ws = 0%nat))) ws'.
Proof.
  revert st. induction ws as [|w ws IH]; intros st H.
  - rewrite orb_false_r. split; [|done]. split; [done|]. done.
  - destruct (rows_of_cons _ _ _ _ _ H) as (H1 & H2 & H3 & H4 & H5). destruct (IH _ H5) as [H6 H7]. cbn. rewrite orb_true_r. split; [|exact H7].
    split; [constructor; [done|apply H6]|]. intros x xs [= <- <-]. split; [done|].
    destruct H as [_ H]. destruct (H _ _ eq_refl) as [_ Ha]. by apply Forall_app in Ha as [? _].
Qed.

(** The offsets of a request stay inside its ids. *)
Definition offsets_ok (s : DecodeStatus) : Prop := (s_surr_offset s ≤ length (decode_ids s))%nat ∧ (s_read_offset s ≤ length (decode_ids s))%nat.

Lemma arrived_ok W b os w ws :
  (∀ s, os = Some s → offsets_ok s) → rows_of W b (bool_decide (is_Some os)) (w :: ws) →
  offsets_ok (arrived w os) ∧ ∃ a, drop (s_surr_offset (arrived w os)) (decode_ids (arrived w os)) = a ++ w_output_ids w.
Proof.
  intros Hos (H1 & _ & _ & H4 & _)%rows_of_cons. unfold arrived, offsets_ok. destruct os as [s|]; cbn.
  - rewrite bool_decide_eq_true_2 in H4 by eauto. cbn in H4. destruct (Hos s eq_refl) as [Ha Hb]. rewrite length_app, H4. split; [lia|].
    exists (drop (s_surr_offset s) (decode_ids s)). by rewrite drop_app_le.
  - change (bool_decide (is_Some None)) with false in H4. rewrite H1, H4, length_app. split; [lia|]. by exists W.
Qed.

Lemma advance_ok (row : Row L) t u s : offsets_ok s → offsets_ok (advance pattern_text row t u s).1.
Proof.
  intros [Ha Hb]. unfold advance. destruct (w_finished_reason row); [done|]. destruct (_ && _); [|done]. cbn. split; cbn; lia.
Qed.

(** The detokenizer never fails on the rows of a request. *)
Lemma run_total W b ws : ∀ os,
  (∀ s, os = Some s → offsets_ok s) → rows_of W b (bool_decide (is_Some os)) ws →
  (∀ l1 w l2, ws = l1 ++ w :: l2 → match w_finished_reason w with None => True | Some r => l2 = [] ∧ (cuts_token r b = true → w_output_ids w ≠ []) end) →
  is_ok (run os ws).
Proof.
  induction ws as [|w ws IH]; intros os Hos Hrows Hends; [done|]. cbn [run]. unfold step, step_on.
  destruct (arrived_ok W b os w ws Hos Hrows) as [Harr [a Ha]]. rewrite Ha.
  destruct (rows_of_cons _ _ _ _ _ Hrows) as (_ & _ & Hb & _ & Hrows'). pose proof (Hends [] w ws eq_refl) as Hw.
  destruct (w_finished_reason w) as [r|].
  - destruct Hw as [-> Hcut]. rewrite <-Hb in Hcut. rewrite trim_kept by done. cbn [mbind result_bind]. by destruct (advance _ w _ _ _).
  - rewrite trim_open. cbn [mbind result_bind]. destruct (advance _ w _ _ _) as [s' out] eqn:E. cbn [mbind result_bind fst snd].
    assert (Hs' : offsets_ok s') by (change s' with (s', out).1; rewrite <-E; by apply advance_ok).
    specialize (IH (Some s')). destruct (run (Some s') ws); [done|]. apply IH; [naive_solver| |].
    + by rewrite bool_decide_eq_true_2 by eauto.
    + intros l1 x l2 ->. by apply (Hends (w :: l1) x l2).
Qed.

Context `{!TokenTexts decode}.
Notation after := (text_after decode).

(** The state of a request: of its ids, [W ++ I] are decoded, [P] is pending after the
    context [B]; the text [T] has been sent. *)
Record synced (W I B P : list Z) (T : text) (s : DecodeStatus) : Prop := {
  sy_ids : decode_ids s = W ++ I ++ P;
  sy_read : s_read_offset s = length (W ++ I);
  sy_surr : (s_surr_offset s ≤ length (W ++ I))%nat;
  sy_context : drop (s_surr_offset s) (W ++ I) = B;
  sy_whole : whole (raw B);
  sy_window : ∀ D, after W (I ++ D) = decoded_text s ++ after B D;
  sy_decoded : whole (decoded_text s);
  sy_pending : after B P = [] ∨ last (after B P) = Some PARTIAL;
  sy_text : T = decoded_text s ++ find_printable_text (after B P);
  sy_sent : sent_offset s = length T;
}.

Lemma synced_start W : whole (raw W) → synced W [] W [] [] (mkStatus [] W 0 (length W) 0).
Proof.
  intros HW. split; cbn; rewrite ?app_nil_r, ?text_after_nil; try done; [lia|by left].
Qed.

(** What has been sent is a prefix of any later text. *)
Lemma synced_prefix W I B P T s D : synced W I B P T s → T `prefix_of` after W (I ++ P ++ D).
Proof.
  intros [_ _ _ _ HB Hwin _ Hp -> _]. rewrite Hwin. apply prefix_app. transitivity (stable (after B P)); [by apply printable_stable|by apply text_after_stable].
Qed.

Lemma synced_stable W I B P T s : synced W I B P T s → T `prefix_of` stable (after W (I ++ P)).
Proof.
  intros [_ _ _ _ HB Hwin Hd Hp -> _]. rewrite Hwin, stable_app by done. apply prefix_app. by apply printable_stable.
Qed.

(** The arrival of more ids. *)
Definition extended (s : DecodeStatus) (ids : list Z) : DecodeStatus :=
  mkStatus (decoded_text s) (decode_ids s ++ ids) (s_surr_offset s) (s_read_offset s) (sent_offset s).

Lemma extended_slices W I B P T s ids :
  synced W I B P T s → slice (s_surr_offset s) (s_read_offset s) (decode_ids s ++ ids) = B ∧ drop (s_surr_offset s) (decode_ids s ++ ids) = B ++ P ++ ids.
Proof.
  intros [-> -> Hs <- _ _ _ _ _ _]. unfold slice. rewrite <-!app_assoc, (app_assoc W). rewrite drop_app_le by done. split; [|done].
  rewrite <-length_drop. apply take_app_length.
Qed.

(** A row that does not finish the request. *)
Lemma open_step W I B P T s row ids :
  synced W I B P T s → w_finished_reason row = None → readable (after W (I ++ P ++ ids)) →
  ∃ s' out I' B' P', step_on (extended s ids) row = Ok (Some s', out) ∧ synced W I' B' P' (T ++ out) s' ∧ I' ++ P' = I ++ P ++ ids.
Proof.
  intros S Hr Hread. pose proof (synced_prefix _ _ _ _ _ _ ids S) as Hpre. destruct (extended_slices _ _ _ _ _ _ ids S) as [E1 E2].
  unfold step_on. rewrite Hr. cbn [extended s_surr_offset s_read_offset decode_ids]. rewrite E1, E2, trim_open. cbn [mbind result_bind]. unfold advance. rewrite Hr.
  cbn [decoded_text extended sent_offset decode_ids s_read_offset s_surr_offset].
  change (drop (length (decode B)) (decode (B ++ P ++ ids))) with (after B (P ++ ids)).
  destruct S as [H1 H2 H3 H4 HB Hwin Hd Hp HT Hs]. rewrite Hwin in Hpre, Hread.
  destruct (negb _ && negb _) eqn:Hnew.
  - apply andb_prop in Hnew as [Hne%negb_true_iff%bool_decide_eq_false Hw%negb_true_iff%bool_decide_eq_false].
    destruct (window_moves B (P ++ ids) HB Hne Hw) as [HB' Hmove]. cbn [decoded_text sent_offset]. rewrite trim_text_open, app_nil_r.
    eexists _, _, (I ++ P ++ ids), (P ++ ids), []. split; [reflexivity|]. split; [|by rewrite app_nil_r].
    rewrite Hs, prefix_rest by done. split; cbn; rewrite ?app_nil_r, ?text_after_nil; try done.
    + rewrite H1. by rewrite <-!app_assoc.
    + rewrite H1. by rewrite <-!app_assoc.
    + rewrite H2, !length_app. lia.
    + rewrite H2, app_assoc. apply drop_app_length.
    + intros D. rewrite <-app_assoc, Hwin, Hmove. by rewrite app_assoc.
    + unfold whole. rewrite last_app. destruct (last (after B (P ++ ids))) eqn:Hl; [congruence|]. by apply last_None in Hl.
    + by left.
    + by rewrite app_nil_r.
  - assert (Hpend : after B (P ++ ids) = [] ∨ last (after B (P ++ ids)) = Some PARTIAL).
    { apply andb_false_iff in Hnew as [Hn%negb_false_iff%bool_decide_eq_true|Hn%negb_false_iff%bool_decide_eq_true]; [by left|by right]. }
    cbn [decoded_text sent_offset extended]. rewrite trim_text_open. eexists _, _, I, B, (P ++ ids). split; [reflexivity|]. split; [|done].
    assert (Hmono : find_printable_text (after B P) `prefix_of` find_printable_text (after B (P ++ ids))).
    { pose proof (text_after_stable B P ids HB) as Hst. destruct Hpend as [Hn|Hl].
      - rewrite Hn in Hst |- *. apply prefix_nil_inv in Hst. apply (transitivity (printable_stable _ Hp)). by rewrite Hst.
      - apply printable_mono; [done|by right|done|]. destruct Hread as [Hw|Hc]; [|by apply Forall_app in Hc as [_ ?]].
        exfalso. apply Hw. by rewrite last_app, Hl. }
    rewrite Hs, prefix_rest by (rewrite HT; by apply prefix_app). split; cbn; try done. by rewrite H1, <-!app_assoc.
Qed.

(** The row that finishes the request. *)
Lemma final_step W I B P T s row ids r :
  synced W I B P T s → w_finished_reason row = Some r → (cuts_token r (w_no_stop_trim row) = true → ids ≠ []) →
  let t := trim_text (after W (I ++ P ++ kept ids r (w_no_stop_trim row))) (Some r) (w_no_stop_trim row) in
  T `prefix_of` t → ∃ out, step_on (extended s ids) row = Ok (None, out) ∧ T ++ out = t.
Proof.
  intros S Hr Hcut t Hpre. destruct (extended_slices _ _ _ _ _ _ ids S) as [E1 E2]. unfold step_on. rewrite Hr.
  cbn [extended s_surr_offset s_read_offset decode_ids]. rewrite E1, E2, (app_assoc B), trim_kept by done. cbn [mbind result_bind]. rewrite <-app_assoc.
  unfold advance. rewrite Hr. cbn [decoded_text extended sent_offset]. eexists. split; [reflexivity|].
  change (drop (length (decode B)) (decode (B ++ P ++ kept ids r (w_no_stop_trim row)))) with (after B (P ++ kept ids r (w_no_stop_trim row))).
  rewrite <-(sy_window _ _ _ _ _ _ S), (sy_sent _ _ _ _ _ _ S). by apply prefix_rest.
Qed.

(** A stop string does not start in text that is clear of it. *)
Lemma py_find_spec x t pos : py_find x t = Some pos → ∃ a b, t = a ++ x ++ b ∧ length a = pos.
Proof.
  revert pos. induction t as [|c t IH]; intros pos; cbn [py_find]; case_bool_decide as Hp.
  - intros [= <-]. destruct Hp as [b ->]. by exists [], b.
  - done.
  - intros [= <-]. destruct Hp as [b ->]. by exists [], b.
  - destruct (py_find x t) as [n|]; [|done]. intros [= <-]. destruct (IH n eq_refl) as (a & b & -> & <-). by exists (c :: a), b.
Qed.

Lemma quiet_before x u t pos : quiet x u → u `prefix_of` t → py_find x t = Some pos → (length u ≤ pos)%nat.
Proof.
  intros [Hin Hov] [k ->] (a & b & E & <-)%py_find_spec. destruct (decide (length u ≤ length a)%nat) as [|Hgt]; [done|]. exfalso.
  apply app_eq_inv in E as [(z & -> & Ez)|(z & Ea & _)].
  2: { apply (f_equal length) in Ea. rewrite length_app in Ea. lia. }
  rewrite length_app in Hgt. apply app_eq_inv in Ez as [(y & -> & _)|(y & -> & _)].
  - apply not_true_iff_false in Hov. apply Hov. apply overlaps_spec. exists z. split_and!; [|by exists a|by exists y].
    intros ->. cbn in Hgt. lia.
  - apply not_true_iff_false in Hin. apply Hin. apply py_in_spec. by exists a, y.
Qed.

(** A request of which the ids have come in and the text has gone out. *)
Definition tracked (W ids : list Z) (T : text) (os : option DecodeStatus) : Prop :=
  ∃ s I B P, synced W I B P T s ∧ ids = I ++ P ∧ (os = Some s ∨ os = None ∧ s = mkStatus [] W 0 (length W) 0).

Lemma tracked_arrived W I B P T s os w b ws :
  synced W I B P T s → (os = Some s ∨ os = None ∧ s = mkStatus [] W 0 (length W) 0) → rows_of W b (bool_decide (is_Some os)) (w :: ws) →
  arrived w os = extended s (w_output_ids w).
Proof.
  intros S Hos (H1 & H2 & _ & H4 & _)%rows_of_cons. unfold arrived, extended. destruct Hos as [->|[-> ->]].
  - rewrite bool_decide_eq_true_2 in H4 by eauto. by rewrite H4.
  - rewrite bool_decide_eq_false_2 in H4 by (by intros [? ?]). by rewrite H1, H2, H4.
Qed.

Lemma run_open W b pre : ∀ ids T os,
  tracked W ids T os → rows_of W b (bool_decide (is_Some os)) pre → Forall (fun w => w_finished_reason w = None) pre →
  (∀ l1 l2, pre = l1 ++ l2 → readable (after W (ids ++ concat (w_output_ids <$> l1)))) →
  ∃ os' outs, run os pre = Ok (os', outs) ∧ tracked W (ids ++ concat (w_output_ids <$> pre)) (T ++ concat outs) os' ∧
    (bool_decide (is_Some os') = bool_decide (is_Some os) || negb (bool_decide (length pre = 0%nat))).
Proof.
  induction pre as [|w pre IH]; intros ids T os Htr Hrows Hopen Hread.
  { exists os, []. cbn. rewrite !app_nil_r, orb_false_r. done. }
  destruct Htr as (s & I & B & P & S & -> & Hos). apply Forall_cons in Hopen as [Hw Hopen].
  pose proof (Hread [w] pre eq_refl) as Hr. cbn in Hr. rewrite app_nil_r, <-app_assoc in Hr.
  destruct (open_step _ _ _ _ _ _ w _ S Hw Hr) as (s' & out & I' & B' & P' & E & S' & Hids).
  destruct (rows_of_cons _ _ _ _ _ Hrows) as (_ & _ & _ & _ & Hrows').
  destruct (IH (I' ++ P') (T ++ out) (Some s')) as (os' & outs & E' & Htr' & Hst); [|done|done| |].
  { exists s', I', B', P'. by split_and!; [|done|left]. }
  { intros l1 l2 ->. specialize (Hread (w :: l1) l2 eq_refl). cbn in Hread. by rewrite Hids, <-!app_assoc in *. }
  exists os', (out :: outs). cbn [run]. unfold step. rewrite (tracked_arrived _ _ _ _ _ _ _ _ _ _ S Hos Hrows), E. cbn [mbind result_bind fst snd].
  rewrite E'. cbn [mbind result_bind fst snd]. split; [done|]. cbn. rewrite Hids, <-!app_assoc in Htr'. rewrite <-app_assoc. split; [done|].
  rewrite Hst. cbn. by rewrite orb_true_r.
Qed.

Lemma trim_stop t r b : trim_text t (Some r) b = match stop_text r b with Some x => match py_find x t with Some pos => take pos t | None => t end | None => t end.
Proof.
  unfold Detokenizer.trim_text, stop_text. cbn [fmap option_fmap option_map]. destruct b; cbn [orb]; [by destruct (matched_of _ r)|].
  destruct (matched_of pattern_text r); [done..|]. by case_bool_decide.
Qed.

(** When a request is over, the pieces sent for it are together the text of all its ids
    after the prompt, cut at the stop token or the stop string. *)
Lemma run_complete W b pre w r :
  whole (raw W) → rows_of W b false (pre ++ [w]) → Forall (fun w => w_finished_reason w = None) pre → w_finished_reason w = Some r →
  (∀ l1 l2, pre = l1 ++ l2 → readable (after W (concat (w_output_ids <$> l1)))) → (cuts_token r b = true → w_output_ids w ≠ []) →
  (∀ x, stop_text r b = Some x → quiet x (stable (after W (concat (w_output_ids <$> pre))))) →
  ∃ outs, run None (pre ++ [w]) = Ok (None, outs) ∧
    concat outs = trim_text (after W (concat (w_output_ids <$> pre) ++ kept (w_output_ids w) r b)) (Some r) b.
Proof.
  intros HW [Hr1 Hr2]%rows_of_app Hopen Hr Hread Hcut Hquiet.
  destruct (run_open W b pre [] [] None) as (os & outs & E & Htr & Hst); [|done|done|done|].
  { exists (mkStatus [] W 0 (length W) 0), [], W, []. by split_and!; [apply synced_start|done|right]. }
  destruct Htr as (s & I & B & P & S & Hids & Hos). cbn [app] in Hids, S, Hst. rewrite Hids in Hquiet |- *.
  destruct (rows_of_cons _ _ _ _ _ Hr2) as (_ & _ & Hb & _). change (bool_decide (is_Some None)) with false in Hst. rewrite <-Hst in Hr2.
  assert (Hpre : concat outs `prefix_of` trim_text (after W (I ++ P ++ kept (w_output_ids w) r b)) (Some r) b).
  { pose proof (synced_prefix _ _ _ _ _ _ (kept (w_output_ids w) r b) S) as Hp. rewrite trim_stop. destruct (stop_text r b) as [x|]; [|done].
    destruct (py_find x _) as [pos|] eqn:Hf; [|done]. apply (quiet_before x (stable (after W (I ++ P)))) in Hf; [|by apply Hquiet|rewrite app_assoc; by apply text_after_stable].
    pose proof (synced_stable _ _ _ _ _ _ S) as Hlen%prefix_length. destruct Hp as [k ->]. exists (take (pos - length (concat outs)) k).
    rewrite take_app, take_ge by lia. done. }
  rewrite <-Hb in Hcut, Hpre. destruct (final_step _ _ _ _ _ _ w (w_output_ids w) r S Hr Hcut Hpre) as (out & E' & Hout). rewrite Hb in Hout.
  exists (outs ++ [out]). split; [|rewrite concat_app; cbn; rewrite app_nil_r, <-app_assoc; exact Hout].
  rewrite run_app, E. cbn [mbind result_bind fst snd run]. unfold step. rewrite (tracked_arrived _ _ _ _ _ _ _ _ _ _ S Hos Hr2), E'. done.
Qed.

End request.

(** * Messages

    A message treats each of its requests on its own. *)

Section batch.
Context {L : Type} (pattern_text : list node → text) (gpt_oss disable_batch_decode : bool) (capacity : nat).
Context (is_fast : bool) (tokenizer_decode : bool → bool → list Z → text) (plain_decode : list Z → text)
  (batch_decode : bool → bool → list (list Z) → list text) (special_ids : list Z).
Context (batch_decode_each : ∀ skip space l, batch_decode skip space l = tokenizer_decode skip space <$> l).

Notation handle := (handle_batch_token_id_out pattern_text gpt_oss disable_batch_decode capacity is_fast tokenizer_decode plain_decode batch_decode special_ids).
Notation row_decode := (row_decode disable_batch_decode is_fast tokenizer_decode plain_decode special_ids).

Definition decode_of (w : Row L) : list Z → text := row_decode (w_skip_special_tokens w) (w_spaces_between_special_tokens w).

(** The ids of a row that are decoded, with and without its context. *)
Definition read_of (d : odict string DecodeStatus) (w : Row L) : list Z :=
  let s := arrived w (od_get (w_rid w) d) in
  match trim_ids pattern_text gpt_oss (drop (s_surr_offset s) (decode_ids s)) (w_finished_reason w) (w_no_stop_trim w) with Ok l => l | Raise _ => [] end.

Definition surr_of (d : odict string DecodeStatus) (w : Row L) : list Z :=
  let s := arrived w (od_get (w_rid w) d) in slice (s_surr_offset s) (s_read_offset s) (decode_ids s).

(** The table has room for the requests that are new. *)
Definition room (d : odict string DecodeStatus) (rows : list (Row L)) : Prop :=
  (length d + length (filter (fun w => w_rid w ∉ od_keys d) rows) ≤ capacity)%nat.

Lemma od_set_length {V} k (v : V) (d : odict string V) : length (od_set k v d) = (length d + if bool_decide (k ∈ od_keys d) then 0 else 1)%nat.
Proof.
  induction d as [|[k' v'] d IH]; [done|]. cbn [od_set]. destruct (decide (k = k')) as [->|Hk].
  - rewrite bool_decide_eq_true_2 by (cbn; left). cbn. lia.
  - cbn [length]. rewrite IH. rewrite (bool_decide_ext (k ∈ od_keys ((k', v') :: d)) (k ∈ od_keys d)); [lia|]. cbn. set_solver.
Qed.

Lemma arrived_set (d : odict string DecodeStatus) (w : Row L) x s : w_rid w ≠ x → od_get (w_rid w) (od_set x s d) = od_get (w_rid w) d.
Proof. intros Hne. rewrite od_get_set. by rewrite decide_False. Qed.

Lemma receive_row_ok (w : Row L) d r :
  let s := arrived w (od_get (w_rid w) d) in
  room d [w] → trim_ids pattern_text gpt_oss (drop (s_surr_offset s) (decode_ids s)) (w_finished_reason w) (w_no_stop_trim w) = Ok r →
  receive_row pattern_text gpt_oss capacity w d = Ok (od_set (w_rid w) s d, (r, surr_of d w)).
Proof.
  intros s Hroom Hr. unfold receive_row, surr_of. unfold s, arrived in *. destruct (od_get (w_rid w) d) as [s0|] eqn:Hs.
  - cbn [mbind result_bind fst snd]. rewrite Hr. done.
  - unfold limited_set. replace (capacity <=? length d)%nat with false; [cbn [mbind result_bind fst snd]; by rewrite Hr|].
    symmetry. apply Nat.leb_gt. apply od_get_None in Hs. unfold room in Hroom. rewrite filter_cons_True in Hroom by done. cbn in Hroom. lia.
Qed.

Lemma receive_all (rows : list (Row L)) : ∀ d acc1 acc2,
  NoDup (w_rid <$> rows) → NoDup (od_keys d) → room d rows →
  (∀ w, w ∈ rows → is_ok (step pattern_text gpt_oss (decode_of w) (od_get (w_rid w) d) w)) →
  ∃ d1, foldM (receive_step pattern_text gpt_oss capacity) rows (d, acc1, acc2) = Ok (d1, acc1 ++ (read_of d <$> rows), acc2 ++ (surr_of d <$> rows)) ∧
    NoDup (od_keys d1) ∧ (∀ w, w ∈ rows → od_get (w_rid w) d1 = Some (arrived w (od_get (w_rid w) d))) ∧
    (∀ k, k ∉ w_rid <$> rows → od_get k d1 = od_get k d).
Proof.
  induction rows as [|w rows IH]; intros d acc1 acc2 Hnd Hd Hroom Hok.
  { exists d. cbn. rewrite !app_nil_r. split_and!; try done. by intros w ?%not_elem_of_nil. }
  rewrite fmap_cons in Hnd. apply NoDup_cons in Hnd as [Hw Hnd].
  assert (Hne : ∀ w', w' ∈ rows → w_rid w' ≠ w_rid w).
  { intros w' Hw' E. apply Hw. rewrite <-E. by apply list_elem_of_fmap_2. }
  set (s := arrived w (od_get (w_rid w) d)). set (d2 := od_set (w_rid w) s d).
  assert (Hread : trim_ids pattern_text gpt_oss (drop (s_surr_offset s) (decode_ids s)) (w_finished_reason w) (w_no_stop_trim w) = Ok (read_of d w)).
  { specialize (Hok w ltac:(left)). unfold step, step_on in Hok. fold s in Hok. unfold read_of. fold s. by destruct (trim_ids _ _ _ _ _). }
  assert (Erow : receive_row pattern_text gpt_oss capacity w d = Ok (d2, (read_of d w, surr_of d w))).
  { apply receive_row_ok; [|done]. unfold room in *. rewrite filter_cons in Hroom |- *. case_decide; cbn in *; lia. }
  destruct (IH d2 (acc1 ++ [read_of d w]) (acc2 ++ [surr_of d w]) Hnd) as (d1 & E & H1 & H2 & H3).
  { by apply od_set_NoDup. }
  { unfold room in *. unfold d2. rewrite od_set_length. assert (Hf : filter (fun w0 => w_rid w0 ∉ od_keys (od_set (w_rid w) s d)) rows = filter (fun w0 => w_rid w0 ∉ od_keys d) rows).
    { apply filter_ext_elem. intros x Hx. rewrite od_set_keys_elem. specialize (Hne x Hx). naive_solver. }
    rewrite Hf. rewrite filter_cons in Hroom. case_decide as Hk; case_bool_decide; try done; cbn in Hroom; lia. }
  { intros w' Hw'. unfold d2. rewrite arrived_set by (by apply Hne). apply Hok. by right. }
  assert (Estep : receive_step pattern_text gpt_oss capacity (d, acc1, acc2) w = Ok (d2, acc1 ++ [read_of d w], acc2 ++ [surr_of d w]))
    by (unfold receive_step; cbn [fst snd]; by rewrite Erow).
  exists d1. cbn [foldM]. rewrite Estep. cbn [mbind result_bind]. rewrite E.
  assert (Er : read_of d2 <$> rows = read_of d <$> rows).
  { apply list_fmap_ext. intros i x Hx. apply list_elem_of_lookup_2 in Hx. unfold read_of, d2. rewrite arrived_set by (by apply Hne). done. }
  assert (Es : surr_of d2 <$> rows = surr_of d <$> rows).
  { apply list_fmap_ext. intros i x Hx. apply list_elem_of_lookup_2 in Hx. unfold surr_of, d2. rewrite arrived_set by (by apply Hne). done. }
  rewrite Er, Es, <-!app_assoc. split; [done|]. split_and!; [done| |].
  - intros x [->|Hx]%elem_of_cons; [rewrite H3 by done; unfold d2; rewrite od_get_set; by rewrite decide_True|].
    rewrite (H2 x Hx). unfold d2. by rewrite arrived_set by (by apply Hne).
  - intros k Hk. rewrite fmap_cons, not_elem_of_cons in Hk. destruct Hk as [Hk1 Hk2]. rewrite (H3 k Hk2). unfold d2. rewrite od_get_set. by rewrite decide_False.
Qed.

Lemma advance_all (surr_texts read_texts : list text) (sx rx : Row L → text) (St : Row L → DecodeStatus) rows : ∀ n d outs0,
  NoDup (w_rid <$> rows) → NoDup (od_keys d) →
  (∀ i w, rows !! i = Some w → od_get (w_rid w) d = Some (St w) ∧ surr_texts !! (n + i)%nat = Some (sx w) ∧ read_texts !! (n + i)%nat = Some (rx w)) →
  ∃ d', foldM (advance_step pattern_text surr_texts read_texts) (imap (fun i w => ((n + i)%nat, w)) rows) (d, outs0)
      = Ok (d', outs0 ++ ((fun w => (advance pattern_text w (sx w) (rx w) (St w)).2) <$> rows)) ∧ NoDup (od_keys d') ∧
    (∀ w, w ∈ rows → od_get (w_rid w) d' = match w_finished_reason w with None => Some (advance pattern_text w (sx w) (rx w) (St w)).1 | Some _ => None end) ∧
    (∀ k, k ∉ w_rid <$> rows → od_get k d' = od_get k d).
Proof.
  induction rows as [|w rows IH]; intros n d outs0 Hnd Hd Hall.
  { exists d. cbn. rewrite app_nil_r. split_and!; try done. by intros w ?%not_elem_of_nil. }
  rewrite fmap_cons in Hnd. apply NoDup_cons in Hnd as [Hw Hnd].
  destruct (Hall 0%nat w eq_refl) as (Hs & Hsx & Hrx). rewrite Nat.add_0_r in Hsx, Hrx.
  destruct (advance pattern_text w (sx w) (rx w) (St w)) as [s' out] eqn:Ea.
  set (d2 := match w_finished_reason w with None => od_set (w_rid w) s' d | Some _ => od_del (w_rid w) d end).
  assert (Estep : advance_step pattern_text surr_texts read_texts (d, outs0) (n, w) = Ok (d2, outs0 ++ [out])).
  { unfold advance_step. cbn [fst snd]. rewrite Hs, (py_get_nat _ _ _ Hrx), (py_get_nat _ _ _ Hsx). cbn [mbind result_bind]. by rewrite Ea. }
  assert (Hd2 : ∀ k, od_get k d2 = if decide (k = w_rid w) then match w_finished_reason w with None => Some s' | Some _ => None end else od_get k d).
  { intros k. unfold d2. destruct (w_finished_reason w); [by rewrite od_get_del|by rewrite od_get_set]. }
  assert (Hne : ∀ w', w' ∈ rows → w_rid w' ≠ w_rid w).
  { intros w' Hw' E. apply Hw. rewrite <-E. by apply list_elem_of_fmap_2. }
  destruct (IH (S n) d2 (outs0 ++ [out]) Hnd) as (d' & E & H1 & H2 & H3).
  { unfold d2. destruct (w_finished_reason w); [by apply od_del_keys|by apply od_set_NoDup]. }
  { intros i x Hx. destruct (Hall (S i) x Hx) as (H1 & H2 & H3). rewrite Nat.add_succ_r in H2, H3. cbn. split_and!; try done.
    rewrite Hd2, decide_False; [done|]. apply Hne. by eapply list_elem_of_lookup_2. }
  exists d'. rewrite imap_cons, Nat.add_0_r. cbn [foldM]. rewrite Estep. cbn [mbind result_bind].
  rewrite (imap_ext _ (fun i w => ((S n + i)%nat, w))) by (intros i x _; cbn; f_equal; lia). rewrite E, fmap_cons, Ea, <-app_assoc.
  split; [done|]. split_and!; [done| |].
  - intros x [->|Hx]%elem_of_cons; [|by apply H2]. rewrite (H3 _ Hw), Hd2, decide_True by done. by rewrite Ea.
  - intros k Hk. rewrite fmap_cons, not_elem_of_cons in Hk. destruct Hk as [Hk1 Hk2]. rewrite (H3 k Hk2), Hd2. by rewrite decide_False.
Qed.

(** A message to the detokenizer is one step of each of its requests. *)
Lemma handle_steps rows d :
  NoDup (w_rid <$> rows) → NoDup (od_keys d) → room d rows →
  (∀ w, w ∈ rows → is_ok (step pattern_text gpt_oss (decode_of w) (od_get (w_rid w) d) w)) →
  ∃ d' outs, handle rows d = Ok (d', outs) ∧ NoDup (od_keys d') ∧
    Forall2 (fun w out => step pattern_text gpt_oss (decode_of w) (od_get (w_rid w) d) w = Ok (od_get (w_rid w) d', out)) rows outs ∧
    (∀ k, k ∉ w_rid <$> rows → od_get k d' = od_get k d).
Proof.
  intros Hnd Hd Hroom Hok. unfold handle_batch_token_id_out. case_bool_decide as Hne.
  { apply nil_length_inv in Hne. subst rows. exists d, []. split_and!; done. }
  destruct (receive_all rows d [] [] Hnd Hd Hroom Hok) as (d1 & E1 & Hd1 & Hin & Hout). cbn [app] in E1.
  unfold _decode_batch_token_id_output. rewrite E1. cbn [mbind result_bind fst snd].
  assert (Hrows : rows ≠ []) by (by intros ->).
  rewrite !(decode_each _ _ _ _ _ _ batch_decode_each) by (done || by rewrite length_fmap). cbn [mbind result_bind].
  set (sx w := decode_of w (surr_of d w)). set (rx w := decode_of w (read_of d w)). set (St (w : Row L) := arrived w (od_get (w_rid w) d)).
  assert (Hz : ∀ (f : Row L → list Z), zip_with (fun ids w => row_decode (w_skip_special_tokens w) (w_spaces_between_special_tokens w) ids) (f <$> rows) rows = (fun w => decode_of w (f w)) <$> rows).
  { intros f. clear. induction rows as [|w rows IH]; [done|]. cbn. by rewrite IH. }
  rewrite !Hz. destruct (advance_all (sx <$> rows) (rx <$> rows) sx rx St rows 0 d1 [] Hnd Hd1) as (d' & E & Hd' & Hres & Hrest).
  { intros i w Hw. rewrite !list_lookup_fmap. cbn [Nat.add]. rewrite Hw. split_and!; try done. apply Hin. by eapply list_elem_of_lookup_2. }
  exists d', ((fun w => (advance pattern_text w (sx w) (rx w) (St w)).2) <$> rows). split; [exact E|]. split_and!; [done| |].
  - apply Forall2_fmap_r, Forall_Forall2_diag, Forall_forall. intros w Hw. unfold compose. rewrite (Hres w Hw). specialize (Hok w Hw).
    unfold step, step_on in Hok |- *. fold (St w) in Hok |- *. unfold rx, sx, read_of, surr_of. fold (St w).
    destruct (trim_ids _ _ _ _ _) as [l|]; [|done]. cbn [mbind result_bind]. by destruct (advance _ w _ _ (St w)).
  - intros k Hk. rewrite (Hrest k Hk). by apply Hout.
Qed.

(** The messages of a server one after the other, with the texts of each. *)
Fixpoint handle_all (ps : list (list (Row L))) (d : odict string DecodeStatus) : result (odict string DecodeStatus * list (list text)) :=
  match ps with
  | [] => Ok (d, [])
  | p :: ps => do! x <- handle p d; do! y <- handle_all ps x.1; Ok (y.1, x.2 :: y.2)
  end.

(** The texts that belong to one request. *)
Definition own_of (k : string) (p : list (Row L)) (outs : list text) : list text := (filter (fun x => w_rid x.1 = k) (zip p outs)).*2.
Definition own_texts (k : string) (ps : list (list (Row L))) (outs : list (list text)) : list text := concat (zip_with (own_of k) ps outs).

Definition own_row (k : string) (p : list (Row L)) : list (Row L) := filter (fun w => w_rid w = k) p.

Lemma own_row_at (p : list (Row L)) w : NoDup (w_rid <$> p) → w ∈ p → own_row (w_rid w) p = [w].
Proof.
  intros Hnd (l1 & l2 & ->)%list_elem_of_split. rewrite fmap_app, fmap_cons in Hnd. apply NoDup_app in Hnd as (_ & H1 & [H2 _]%NoDup_cons).
  unfold own_row. rewrite filter_app, filter_cons_True by done. rewrite !filter_none; [done|..].
  - apply Forall_forall. intros x Hx E. apply H2. rewrite <-E. by apply list_elem_of_fmap_2.
  - apply Forall_forall. intros x Hx E. apply (H1 (w_rid x)); [by apply list_elem_of_fmap_2|rewrite E; left].
Qed.

Lemma own_row_none (p : list (Row L)) k : k ∉ w_rid <$> p → own_row k p = [].
Proof. intros Hk. apply filter_none, Forall_forall. intros x Hx E. apply Hk. rewrite <-E. by apply list_elem_of_fmap_2. Qed.

Lemma own_of_step (Q : Row L → text → Prop) k p outs :
  Forall2 Q p outs → NoDup (w_rid <$> p) →
  (own_row k p = [] ∧ own_of k p outs = [] ∧ k ∉ w_rid <$> p) ∨ ∃ w out, own_row k p = [w] ∧ own_of k p outs = [out] ∧ w ∈ p ∧ w_rid w = k ∧ Q w out.
Proof.
  unfold own_row, own_of. induction 1 as [|w out p outs Hq Hall IH]; intros Hnd; [left; cbn; split_and!; [done|done|apply not_elem_of_nil]|].
  rewrite fmap_cons in Hnd |- *. apply NoDup_cons in Hnd as [Hw Hnd]. cbn [zip zip_with]. rewrite !filter_cons. cbn [fst]. destruct (decide (w_rid w = k)) as [<-|Hne].
  - right. exists w, out. destruct (IH Hnd) as [(-> & E & _)|(w' & out' & _ & _ & Hw' & Hk' & _)]; [cbn; rewrite E; split_and!; try done; left|].
    exfalso. apply Hw. rewrite <-Hk'. by apply list_elem_of_fmap_2.
  - destruct (IH Hnd) as [(-> & E & Hk)|(w' & out' & -> & E & Hw' & Hk' & Hq')].
    + left. split_and!; [done|done|]. apply not_elem_of_cons. by split.
    + right. exists w', out'. split_and!; try done. by right.
Qed.

Lemma room_within (K : list string) d (p : list (Row L)) :
  NoDup K → (length K ≤ capacity)%nat → NoDup (od_keys d) → od_keys d ⊆ K → NoDup (w_rid <$> p) → w_rid <$> p ⊆ K → room d p.
Proof.
  intros HK Hlen Hd HdK Hp HpK. unfold room. transitivity (length K); [|done].
  set (new := filter _ p). assert (Hnd : NoDup (od_keys d ++ (w_rid <$> new))).
  { apply NoDup_app. split_and!; [done| |].
    - intros k Hk (w & -> & [Hn _]%list_elem_of_filter)%list_elem_of_fmap. done.
    - eapply sublist_NoDup; [exact Hp|]. apply fmap_sublist. apply sublist_filter. }
  assert (Hsub : od_keys d ++ (w_rid <$> new) ⊆+ K).
  { apply NoDup_submseteq; [done|]. intros k [Hk|Hk]%elem_of_app; [by apply HdK|]. apply HpK.
    apply list_elem_of_fmap in Hk as (w & -> & [_ Hw]%list_elem_of_filter). by apply list_elem_of_fmap_2. }
  apply submseteq_length in Hsub. unfold od_keys in Hsub. by rewrite length_app, !length_fmap in Hsub.
Qed.

(** Every request sees its own rows, in their order, and nothing else. *)
Lemma messages_project (dec : string → list Z → text) (K : list string) : NoDup K → (length K ≤ capacity)%nat → ∀ ps d,
  Forall (fun p => NoDup (w_rid <$> p) ∧ w_rid <$> p ⊆ K ∧ ∀ w, w ∈ p → decode_of w = dec (w_rid w)) ps → NoDup (od_keys d) → od_keys d ⊆ K →
  (∀ k, is_ok (run pattern_text gpt_oss (dec k) (od_get k d) (own_rows k ps))) →
  ∃ d' outs, handle_all ps d = Ok (d', outs) ∧ Forall2 (fun p os => length p = length os) ps outs ∧
    ∀ k, run pattern_text gpt_oss (dec k) (od_get k d) (own_rows k ps) = Ok (od_get k d', own_texts k ps outs).
Proof.
  intros HK Hcap. induction ps as [|p ps IH]; intros d Hps Hd HdK Hok; [exists d, []; by split_and!|].
  apply Forall_cons in Hps as [(Hnd & HpK & Hdec) Hps].
  assert (Hown : ∀ k, own_rows k (p :: ps) = own_row k p ++ own_rows k ps) by (intros k; unfold own_rows, own_row; cbn; apply filter_app).
  assert (Hsteps : ∀ w, w ∈ p → is_ok (step pattern_text gpt_oss (decode_of w) (od_get (w_rid w) d) w)).
  { intros w Hw. specialize (Hok (w_rid w)). rewrite Hown, (own_row_at p w Hnd Hw) in Hok. cbn [app run] in Hok. rewrite (Hdec w Hw). by destruct (step _ _ _ _ w). }
  destruct (handle_steps p d Hnd Hd (room_within K d p HK Hcap Hd HdK Hnd HpK) Hsteps) as (d1 & outs & E & Hd1 & Hall & Hrest).
  assert (Hproj : ∀ k, run pattern_text gpt_oss (dec k) (od_get k d) (own_row k p) = Ok (od_get k d1, own_of k p outs)).
  { intros k. destruct (own_of_step _ k p outs Hall Hnd) as [(-> & -> & Hk)|(w & out & -> & -> & Hw & <- & Hstep)]; cbn [run]; [by rewrite (Hrest k Hk)|].
    rewrite <-(Hdec w Hw), Hstep. done. }
  destruct (IH d1 Hps Hd1) as (d2 & outs2 & E2 & Hlens & H2).
  - intros k Hk. destruct (decide (k ∈ w_rid <$> p)) as [|Hn]; [by apply HpK|]. apply HdK. apply od_mem_true. unfold od_mem. rewrite <-(Hrest k Hn).
    by apply od_mem_true in Hk.
  - intros k. specialize (Hok k). rewrite Hown, run_app, Hproj in Hok. cbn [mbind result_bind fst snd] in Hok. by destruct (run _ _ _ _ (own_rows k ps)).
  - exists d2, (outs :: outs2). cbn [handle_all]. rewrite E. cbn [mbind result_bind fst snd]. rewrite E2. split; [done|].
    split; [constructor; [by eapply Forall2_length|done]|]. intros k.
    rewrite Hown, run_app, Hproj. cbn [mbind result_bind fst snd]. by rewrite H2.
Qed.

End batch.

(** * From the scheduler to the text *)

Section served.
Context {L C H : Type}.

(** The scheduler. *)
Context (tokenizer : option (option Z * list Z)) (tail_decode : list Z → text) (re_search : list node → text → bool) (any_of : list Z → Z) (vocab_size : Z).
Context (return_logprob disaggregated_decode : bool) (default_stream_interval default_force_stream_interval : Z).

(** The detokenizer. *)
Context (pattern_text : list node → text) (gpt_oss disable_batch_decode : bool) (capacity : nat).
Context (is_fast : bool) (tokenizer_decode : bool → bool → list Z → text) (plain_decode : list Z → text)
  (batch_decode : bool → bool → list (list Z) → list text) (special_ids : list Z).

Notation life := (life tokenizer tail_decode re_search any_of vocab_size return_logprob disaggregated_decode default_stream_interval default_force_stream_interval).
Notation serving := (serving tokenizer tail_decode re_search any_of vocab_size return_logprob disaggregated_decode default_stream_interval default_force_stream_interval).
Notation row_decode := (row_decode disable_batch_decode is_fast tokenizer_decode plain_decode special_ids).

Definition decode_req (r : StreamReq L C H) : list Z → text := row_decode (i_skip_special_tokens (sr_info r)) (i_spaces_between_special_tokens (sr_info r)).

(** The text of the whole output at once: the text of its ids after the prompt, without
    the stop token, cut at the stop string. *)
Definition final_text (r : StreamReq L C H) : text :=
  let b := i_no_stop_trim (sr_info r) in
  match f_reason (sr_finish r) with
  | None => []
  | Some reason => trim_text pattern_text (text_after (decode_req r) (prompt_tail (sr_info r)) (kept pattern_text gpt_oss (sr_out r) reason b)) (Some reason) b
  end.

(** The prompt ends with a whole character, no report ends inside a character with
    ideographs before it, and nothing of a stop string was reported before the end. *)
Record plain_stream (r : StreamReq L C H) `{!TokenTexts (decode_req r)} (ws : list (Row L)) : Prop := {
  ps_prompt : whole (raw (decode := decode_req r) (prompt_tail (sr_info r)));
  ps_readable : ∀ l1 l2, ws = l1 ++ l2 → l2 ≠ [] → readable (text_after (decode_req r) (prompt_tail (sr_info r)) (concat (w_output_ids <$> l1)));
  ps_quiet : ∀ reason x l1 w, f_reason (sr_finish r) = Some reason → stop_text pattern_text reason (i_no_stop_trim (sr_info r)) = Some x → ws = l1 ++ [w] →
    quiet x (stable (text_after (decode_req r) (prompt_tail (sr_info r)) (concat (w_output_ids <$> l1))));
}.

Lemma cuts_token_stop r b : cuts_token pattern_text r b = true → ∃ t, r = FINISH_MATCHED_TOKEN t.
Proof. unfold cuts_token. destruct b; [done|]. destruct r; cbn; try done. by eexists. Qed.

Lemma kept_app a ids r b : (cuts_token pattern_text r b = true → ids ≠ []) → kept pattern_text gpt_oss (a ++ ids) r b = a ++ kept pattern_text gpt_oss ids r b.
Proof.
  unfold kept. destruct (cuts_token pattern_text r b); cbn [andb]; [|done]. intros Hne. specialize (Hne eq_refl).
  destruct (last ids) as [x|] eqn:Hl; [|by apply last_None in Hl]. rewrite last_app, Hl. destruct (negb _); [|done].
  rewrite take_app, length_app. destruct ids; [done|]. cbn [length]. rewrite take_ge by lia. do 2 f_equal. lia.
Qed.

Lemma life_rows (r : StreamReq L C H) ws : life r ws → rows_of (prompt_tail (sr_info r)) (i_no_stop_trim (sr_info r)) false ws ∧ Forall (fun w => decode_of disable_batch_decode is_fast tokenizer_decode plain_decode special_ids w = decode_req r) ws.
Proof.
  intros Hl. destruct (life_streamed _ _ _ _ _ _ _ _ _ _ _ Hl) as [[[_ _ _ Hrows Hdec] _ _] _]. split; [split; [|exact Hdec]|].
  - eapply Forall_impl; [exact Hrows|]. by intros w (_ & ? & ? & _ & _ & ?).
  - eapply Forall_impl; [exact Hrows|]. intros w (_ & _ & _ & H1 & H2 & _). unfold decode_of, decode_req. by rewrite H1, H2.
Qed.

Lemma life_ends (r : StreamReq L C H) ws : life r ws → ∀ l1 w l2, ws = l1 ++ w :: l2 →
  match w_finished_reason w with None => True | Some reason => l2 = [] ∧ (cuts_token pattern_text reason (i_no_stop_trim (sr_info r)) = true → w_output_ids w ≠ []) end.
Proof.
  intros Hl l1 w l2 ->. destruct (life_streamed _ _ _ _ _ _ _ _ _ _ _ Hl) as [[_ _ Hlast] _]. destruct (finished_output (sr_cursor r)).
  - destruct Hlast as (_ & _ & pre & w' & Hws & Hpre & Hw & _ & Htok). destruct l2 as [|x l2 _] using rev_ind.
    + apply app_inj_tail in Hws as [-> ->]. rewrite Hw in *. destruct (f_reason (sr_finish r)) as [reason|] eqn:Hr; [|done]. split; [done|].
      intros [t ->]%cuts_token_stop. apply Htok. by exists t.
    + rewrite app_comm_cons, app_assoc in Hws. apply app_inj_tail in Hws as [<- _]. apply Forall_app in Hpre as [_ [-> _]%Forall_cons]. done.
  - destruct Hlast as [Hall _]. apply Forall_app in Hall as [_ [-> _]%Forall_cons]. done.
Qed.

(** The text of one request. *)
Lemma life_text (r : StreamReq L C H) ws `{!TokenTexts (decode_req r)} :
  life r ws → finished_output (sr_cursor r) = true → plain_stream r ws →
  ∃ outs, run pattern_text gpt_oss (decode_req r) None ws = Ok (None, outs) ∧ concat outs = final_text r.
Proof.
  intros Hl Hf [Hp Hr Hq]. pose proof (life_rows r ws Hl) as [Hrows _]. pose proof (life_ends r ws Hl) as Hends.
  destruct (life_streamed _ _ _ _ _ _ _ _ _ _ _ Hl) as [[Hsent _ Hlast] _]. rewrite Hf in Hlast.
  destruct Hlast as (Hn & Hreason & pre & w & -> & Hpre & Hw & _). specialize (Hends pre w [] eq_refl).
  destruct (f_reason (sr_finish r)) as [reason|] eqn:Er; [|done]. rewrite Hw in Hends. destruct Hends as [_ Hcut].
  destruct (run_complete pattern_text gpt_oss (decode_req r) (prompt_tail (sr_info r)) (i_no_stop_trim (sr_info r)) pre w reason) as (outs & E & Hout); try done.
  { intros l1 l2 ->. apply (Hr l1 (l2 ++ [w])); [by rewrite app_assoc|by destruct l2]. }
  { intros x Hx. by apply (Hq reason x pre w). }
  exists outs. split; [done|]. rewrite Hout. unfold final_text. rewrite Er. do 2 f_equal. rewrite <-kept_app by done. f_equal.
  pose proof (st_ids _ _ Hsent) as Hids. rewrite Hn, firstn_all, fmap_app, concat_app in Hids. cbn in Hids. by rewrite app_nil_r in Hids.
Qed.

Notation handle_all := (handle_all pattern_text gpt_oss disable_batch_decode capacity is_fast tokenizer_decode plain_decode batch_decode special_ids).

(** How the requests of the server are decoded, by their names. *)
Definition decoder (reqs : list (StreamReq L C H)) (k : string) : list Z → text :=
  match find (fun r => bool_decide (rid_of r = k)) reqs with Some r => decode_req r | None => row_decode false false end.

Lemma decoder_of reqs r : NoDup (rid_of <$> reqs) → r ∈ reqs → decoder reqs (rid_of r) = decode_req r.
Proof.
  intros Hnd Hr. unfold decoder. destruct (find _ reqs) as [r'|] eqn:E.
  - apply find_some in E as [Hr'%list_elem_of_In Hk%bool_decide_eq_true]. f_equal. apply list_elem_of_lookup in Hr as [i Hi], Hr' as [j Hj].
    assert (i = j) as <- by (eapply NoDup_lookup; [exact Hnd|by rewrite list_lookup_fmap, Hi|rewrite list_lookup_fmap, Hj; cbn; by rewrite Hk]).
    congruence.
  - rewrite find_none_in in E. specialize (E r Hr). apply bool_decide_eq_false in E. done.
Qed.

(** The detokenizer accepts everything the scheduler sends, and the pieces of text of a
    request are those of its own rows. *)
Lemma served_project (reqs : list (StreamReq L C H)) ps :
  (∀ skip space l, batch_decode skip space l = tokenizer_decode skip space <$> l) → serving reqs ps → (length reqs ≤ capacity)%nat →
  ∃ d outs, handle_all ps [] = Ok (d, outs) ∧ Forall2 (fun p os => length p = length os) ps outs ∧
    ∀ r, r ∈ reqs → run pattern_text gpt_oss (decode_req r) None (own_rows (rid_of r) ps) = Ok (od_get (rid_of r) d, own_texts (rid_of r) ps outs).
Proof.
  intros Hbatch Hserve Hcap. destruct (serving_life _ _ _ _ _ _ _ _ _ _ _ Hserve) as (Hnd & Hlife & Hps). pose proof (serving_rids _ _ _ _ _ _ _ _ _ _ _ Hserve) as Hids.
  rewrite Forall_forall in Hlife. rewrite Forall_forall in Hps. rewrite Forall_forall in Hids.
  assert (Hown : ∀ p w, p ∈ ps → w ∈ p → ∃ r, r ∈ reqs ∧ w_rid w = rid_of r ∧ w ∈ own_rows (rid_of r) ps).
  { intros p w Hp Hw. assert (Hk : w_rid w ∈ rid_of <$> reqs) by (apply (Hids p Hp); by apply list_elem_of_fmap_2).
    apply list_elem_of_fmap in Hk as (r & Hk & Hr). exists r. split_and!; [done|done|]. unfold own_rows. apply list_elem_of_filter. split; [done|].
    apply list_elem_of_In, in_concat. exists p. by rewrite <-!list_elem_of_In. }
  destruct (messages_project pattern_text gpt_oss disable_batch_decode capacity is_fast tokenizer_decode plain_decode batch_decode special_ids Hbatch
    (decoder reqs) (rid_of <$> reqs) Hnd ltac:(by rewrite length_fmap) ps []) as (d & outs & E & Hlens & Hrun).
  - apply Forall_forall. intros p Hp. split_and!; [by apply Hps|by apply Hids|]. intros w Hw. destruct (Hown p w Hp Hw) as (r & Hr & -> & Hin).
    rewrite (decoder_of reqs r Hnd Hr). destruct (life_rows r _ (Hlife r Hr)) as [_ Hdec]. rewrite Forall_forall in Hdec. by apply Hdec.
  - constructor.
  - intros k ?%not_elem_of_nil. done.
  - intros k. cbn [od_get]. destruct (decide (k ∈ rid_of <$> reqs)) as [(r & -> & Hr)%list_elem_of_fmap|Hn].
    + destruct (life_rows r _ (Hlife r Hr)) as [Hrows _]. eapply run_total; [done|exact Hrows|]. by apply life_ends, Hlife.
    + replace (own_rows k ps) with (@nil (Row L)); [done|]. symmetry. apply filter_none, Forall_forall. intros w Hw E. apply Hn.
      apply list_elem_of_In, in_concat in Hw as (p & Hp & Hw). rewrite <-list_elem_of_In in Hp. rewrite <-list_elem_of_In in Hw.
      destruct (Hown p w Hp Hw) as (r & Hr & Hk & _). rewrite <-E, Hk. by apply list_elem_of_fmap_2.
  - exists d, outs. split; [done|]. split; [done|]. intros r Hr. specialize (Hrun (rid_of r)). by rewrite (decoder_of reqs r Hnd Hr) in Hrun.
Qed.


End served.

(** * A small tokenizer

    Every id is a character, but 300 and 301 are the halves of one. *)

Definition toy_feed (out : text) (t : Z) : text * bool :=
  if bool_decide (t = 300) then (out, true) else (out ++ [if bool_decide (t = 301) then PARTIAL else t], false).

Definition toy_step (x : text * bool) (t : Z) : text * bool :=
  if x.2 then if bool_decide (t = 301) then (x.1 ++ [0x1F600], false) else toy_feed (x.1 ++ [PARTIAL]) t else toy_feed x.1 t.

Definition toy_close (x : text * bool) : text := x.1 ++ if x.2 then [PARTIAL] else [].

Definition toy_raw (ids : list Z) : text := toy_close (fold_left toy_step ids ([], false)).

Definition toy_decode (skip space : bool) (ids : list Z) : text := lead true (toy_raw ids).

Lemma toy_from ids : ∀ out h, fold_left toy_step ids (out, h) = let '(o, h') := fold_left toy_step ids ([], h) in (out ++ o, h').
Proof.
  induction ids as [|t ids IH]; intros out h; cbn [fold_left]; [by rewrite app_nil_r|].
  assert (Hs : toy_step (out, h) t = (out ++ (toy_step ([], h) t).1, (toy_step ([], h) t).2)).
  { unfold toy_step, toy_feed. cbn [fst snd]. destruct h; repeat case_bool_decide; cbn; by rewrite ?app_nil_r, <-?app_assoc. }
  rewrite Hs, IH. rewrite (surjective_pairing (toy_step ([], h) t)), (IH (toy_step ([], h) t).1). cbn [fst snd].
  destruct (fold_left toy_step ids _) as [o h']. by rewrite <-app_assoc.
Qed.

Lemma toy_app a b : let '(o, h) := fold_left toy_step a ([], false) in toy_raw (a ++ b) = o ++ toy_close (fold_left toy_step b ([], h)).
Proof.
  destruct (fold_left toy_step a _) as [o h] eqn:E. unfold toy_raw. rewrite fold_left_app, E, toy_from.
  destruct (fold_left toy_step b _) as [o' h']. unfold toy_close. cbn. by rewrite <-app_assoc.
Qed.

#[refine] Instance toy_texts skip space : TokenTexts (toy_decode skip space) := {| raw := toy_raw; strips := true |}.
Proof.
  - done.
  - done.
  - intros a b Hw. pose proof (toy_app a b) as E. unfold toy_raw in *. destruct (fold_left toy_step a _) as [o [|]]; unfold toy_close in *; cbn [fst snd] in *.
    + exfalso. apply Hw. by rewrite last_app.
    + rewrite E. by rewrite app_nil_r.
  - intros a b. pose proof (toy_app a b) as E. unfold toy_raw at 1. destruct (fold_left toy_step a _) as [o h]. rewrite E. clear E. unfold toy_close at 1. cbn [fst snd].
    apply prefix_app_r. destruct h; [|rewrite app_nil_r; apply stable_prefix].
    clear. induction o as [|c o IH]; [done|]. cbn [app]. rewrite stable_cons. case_bool_decide; [apply prefix_nil|by apply prefix_cons].
Defined.

Definition toy_batch (skip space : bool) (l : list (list Z)) : list text := toy_decode skip space <$> l.

Definition toy_stops : SamplingParams := stop_at NoStop NoStop.

Definition toy_info (k : string) (stops : StopArg text) : ReqInfo () () () :=
  let p := stop_at stops NoStop in
  mkInfo k [65; 66] [65; 66] p 8 (normalize None p) [] true None true true false false 0 0 0 None [] None None.

Notation toy_update i := (update_finish_state has_tokenizer (toy_decode true true) search_ab (default 0 ∘ head) (i_sampling i) (i_stops i) (i_max_new_tokens i) (i_eos_token_ids i) 1000000 []).
Notation toy_serving := (serving has_tokenizer (toy_decode true true) search_ab (default 0 ∘ head) 1000000 false false 1 50).

(** Add tokens to the request and report it. *)
Definition toy_turn (x : StreamReq () () () * list (list (Row ()))) (new : list Z) : StreamReq () () () * list (list (Row ())) :=
  let r := x.1 in
  match toy_update (sr_info r) false (length new) (mkFinish (f_output_ids (sr_finish r) ++ new) None None None) with
  | Ok s =>
      match _stream_output_generation has_tokenizer (toy_decode true true) false false 1 50 [mkStream (sr_info r) s (sr_cursor r)] None false with
      | Ok ([r'], p) => (r', x.2 ++ option_list (rows <$> p))
      | _ => x
      end
  | Raise _ => x
  end.

Definition toy_start (i : ReqInfo () () ()) : StreamReq () () () * list (list (Row ())) := (mkStream i (mkFinish [] None None None) new_cursor, []).

Definition toy_run (i : ReqInfo () () ()) (news : list (list Z)) : StreamReq () () () * list (list (Row ())) := fold_left toy_turn news (toy_start i).

Lemma toy_turn_serving x new :
  toy_serving [x.1] x.2 → f_reason (sr_finish x.1) = None → f_finished_len (sr_finish x.1) = None → new ≠ [] → toy_serving [(toy_turn x new).1] (toy_turn x new).2.
Proof.
  destruct x as [[i [out reason len tf] c] ps]. cbn [fst snd sr_finish f_reason f_finished_len]. intros Hs -> -> Hne.
  unfold toy_turn. cbn [fst snd sr_info sr_finish f_output_ids sr_cursor].
  destruct (toy_update i false (length new) _) as [s|] eqn:Es; [|done].
  destruct (_stream_output_generation _ _ _ _ _ _ _ _ _) as [[[|r' [|]] p]|] eqn:Ep; try done.
  apply (serve_stream _ _ _ _ _ _ _ _ _ [mkStream i s c] [mkStream i s c] [] None false [r'] p ps); [|by rewrite app_nil_r|done].
  rewrite <-(with_progress_same i).
  apply (serve_grow _ _ _ _ _ _ _ _ _ [] [] i c out tf new None false s _ _ _ _ _ _ _ ps Hs); [by left|exact Es].
Qed.

Lemma toy_start_serving i : 0 ≤ i_max_new_tokens i → toy_serving [(toy_start i).1] (toy_start i).2.
Proof. intros Hi. apply (serve_start _ _ _ _ _ _ _ _ _ [i]); [apply NoDup_singleton|by constructor]. Qed.

(** A regex is looked for by its source, here "[a]". *)
Definition toy_pattern (p : list node) : text := [91; 97; 93].

Notation toy_handle_all capacity := (handle_all (L := ()) toy_pattern false false capacity true toy_decode (toy_decode true true) toy_batch []).

(** A letter, a character in two halves, each token in its own report, and the stop token. *)
Definition toy_stream := Eval vm_compute in toy_run (toy_info "a" NoStop) [[104]; [300]; [301]; [2]].

Lemma toy_stream_run : toy_stream = toy_run (toy_info "a" NoStop) [[104]; [300]; [301]; [2]].
Proof. vm_compute. reflexivity. Qed.

Lemma toy_stream_serving : toy_serving [toy_stream.1] toy_stream.2.
Proof.
  rewrite toy_stream_run. unfold toy_run. cbn [fold_left]. do 4 (apply toy_turn_serving; [|reflexivity|reflexivity|discriminate]). by apply toy_start_serving.
Qed.

Lemma reported_once_witness :
  concat (w_output_ids <$> own_rows "a" toy_stream.2) = [104; 300; 301; 2] ∧ concat (w_decode_ids <$> own_rows "a" toy_stream.2) = [65; 66; 104; 300; 301; 2].
Proof.
  destruct (serving_life _ _ _ _ _ _ _ _ _ _ _ toy_stream_serving) as (_ & Hlife & _). rewrite Forall_singleton in Hlife.
  destruct (reported_once _ _ _ _ _ _ _ _ _ _ _ Hlife) as [_ Hend]. split; [exact (proj1 Hend)|exact (proj1 (proj2 Hend))].
Defined.

Lemma toy_plain : plain_stream toy_pattern false true toy_decode (toy_decode true true) [] toy_stream.1 (own_rows "a" toy_stream.2).
Proof.
  split.
  - vm_compute. discriminate.
  - intros l1 l2 E Hne. assert (Hl : l1 = take (length l1) (own_rows "a" toy_stream.2)) by (rewrite E; by rewrite take_app_length).
    assert (Hlen : (length l1 < 4)%nat).
    { apply (f_equal length) in E. change (length (own_rows "a" toy_stream.2)) with 4%nat in E. rewrite length_app in E. destruct l2; [done|]. cbn in E. lia. }
    rewrite Hl. clear -Hlen. destruct (length l1) as [|[|[|[|n]]]]; [| | | |exfalso; lia]; clear.
    + left. vm_compute. discriminate.
    + left. vm_compute. discriminate.
    + right. refine (bool_decide_unpack _ _). vm_compute. exact I.
    + left. vm_compute. discriminate.
  - intros reason x l1 w Hr Hx. vm_compute in Hr. injection Hr as <-. vm_compute in Hx. exfalso. clear -Hx. discriminate Hx.
Qed.


(** * What the conditions exclude *)

(** An ideograph and half a character in one report: the ideograph is printed, then held
    back again when the next character follows, and printed a second time. *)
Lemma ideograph_sent_twice :
  let s := toy_run (toy_info "a" NoStop) [[0x4E2D; 300]; [301; 300]; [301; 2]] in
  ∃ outs, toy_handle_all 4 s.2 [] = Ok ([], outs) ∧ concat (own_texts "a" s.2 outs) = [0x4E2D; 0x4E2D; 0x1F600; 0x1F600] ∧
    final_text toy_pattern false false true toy_decode (toy_decode true true) [] s.1 = [0x4E2D; 0x1F600; 0x1F600].
Proof. eexists. split; [vm_compute; reflexivity|]. split; vm_compute; reflexivity. Qed.

(** A request without streaming is reported every 50 tokens, also in the middle of a stop string. *)
Definition silent_info : ReqInfo () () () :=
  let p := stop_at (OneStop [97; 98]) NoStop in
  mkInfo "a" [65] [65] p 100 (normalize None p) [] false None true true false false 0 0 0 None [] None None.

(** The stop string "ab" lies across the fiftieth token: its first character is sent, and
    stays in the text when the rest is cut. *)
Lemma stop_string_half_sent :
  let s := toy_run silent_info ((fun t => [t]) <$> replicate 49 120 ++ [97; 98]) in
  f_reason (sr_finish s.1) = Some (FINISH_MATCHED_STR [97; 98]) ∧
  ∃ outs, toy_handle_all 4 s.2 [] = Ok ([], outs) ∧ concat (own_texts "a" s.2 outs) = replicate 49 120 ++ [97] ∧
    final_text toy_pattern false false true toy_decode (toy_decode true true) [] s.1 = replicate 49 120.
Proof. split; [vm_compute; reflexivity|]. eexists. split; [vm_compute; reflexivity|]. split; vm_compute; reflexivity. Qed.

(** A table with too little room forgets a request between two messages: there is no error,
    and the rest of its text is lost. *)
Lemma evicted_silently :
  let a := toy_run (toy_info "a" NoStop) [[97]; [98]; [2]] in
  let b := toy_run (toy_info "b" NoStop) [[97]; [98]; [2]] in
  let ps := concat (zip_with (fun p q => [p; q]) a.2 b.2) in
  ∃ outs outs', toy_handle_all 1 ps [] = Ok ([], outs) ∧ concat (own_texts "a" ps outs) = [97] ∧
    toy_handle_all 2 ps [] = Ok ([], outs') ∧ concat (own_texts "a" ps outs') = [97; 98].
Proof. do 2 eexists. split; [vm_compute; reflexivity|]. split; [vm_compute; reflexivity|]. split; vm_compute; reflexivity. Qed.

(** The stop token 0 is left in the output; another one is cut off. *)
Lemma stop_token_zero_kept :
  trim_ids toy_pattern false [5; 0] (Some (FINISH_MATCHED_TOKEN 0)) false = Ok [5; 0] ∧ trim_ids toy_pattern false [5; 2] (Some (FINISH_MATCHED_TOKEN 2)) false = Ok [5].
Proof. split; reflexivity. Qed.

(** The text that matched a stop regex is left in the output, the text that is the source of the regex is cut off. *)
Lemma regex_stop_by_source :
  trim_text toy_pattern [120; 97] (Some (FINISHED_MATCHED_REGEX [IN [(97, 97)]])) false = [120; 97] ∧
  trim_text toy_pattern [120; 91; 97; 93; 97] (Some (FINISHED_MATCHED_REGEX [IN [(97, 97)]])) false = [120].
Proof. split; reflexivity. Qed.
