(* ===== verification/TokenizerManager.v ===== *)
(** The end of the way back: [TokenizerManager._handle_batch_output] takes the pieces of
    text and [TokenizerManager._wait_one_response] hands them to the client
    ([managers/tokenizer_manager.py]).

    The two are coroutines of one event loop, which switches between them only at an
    [await]; a [ReqState] is an object both hold.  The columns of a message that may be
    missing are read by the position of the row, as in the code, and may be too short. *)

From S2P Require Import Prelude Sampling Streamer Detokenizer.

Open Scope Z_scope.

Section manager.
(** The log-probabilities of a row, and the values of the optional columns of a message. *)
Context {L H : Type}.

(** * Requests and their clients *)

(** An entry of [out_list]; [None] for the text is resolved when the entry is handed over,
    [None] for the ids is the list of the state itself, not a copy. *)
Record Out := mkOut {
  o_text : option text;
  o_ids : option (list Z);
  o_reason : option FinishReason;
  (** what [meta_info] has from the optional columns *)
  o_meta : odict string H;
}.

Record ReqState := mkState {
  is_stream : bool;
  out_list : list Out;
  finished : bool;
  event : bool;
  last_output_offset : nat;
  acc_text : text;
  text_chunks : list text;
  acc_ids : list Z;
}.

(** What a client is given at a time. *)
Record Yield := mkYield {
  y_text : text;
  y_ids : list Z;
  y_reason : option FinishReason;
}.

(** The generator of a client: it runs, has ended, or has raised. *)
Inductive Progress := Running | Ended | Failed.

#[global] Instance progress_eq_dec : EqDecision Progress.
Proof. solve_decision. Defined.

Record Client := mkClient {
  progress : Progress;
  yields : list Yield;
}.

(** The optional columns of a [BatchStrOutput]; an empty one stands for [None]. *)
Record Columns := mkColumns {
  c_cached_tokens_details : list H;
  c_output_hidden_states : list H;
  c_routed_experts : list (option H);
  c_indexer_topk : list (option H);
  c_customized_info : odict string (list H);
  c_dp_ranks : list H;
}.

Definition no_columns : Columns := mkColumns [] [] [] [] [] [].

(** A [BatchStrOutput]: its rows with their texts, and the optional columns. *)
Record Message := mkMessage {
  m_items : list (Row L * text);
  m_columns : Columns;
}.

(** * Texts *)

Definition set_text (t : text) (chunks : list text) (s : ReqState) : ReqState :=
  mkState (is_stream s) (out_list s) (finished s) (event s) (last_output_offset s) t chunks (acc_ids s).

Definition append_text (chunk : text) (s : ReqState) : ReqState :=
  if bool_decide (chunk = []) then s else set_text (acc_text s) (text_chunks s ++ [chunk]) s.

Definition get_text (s : ReqState) : ReqState * text :=
  let s := if bool_decide (text_chunks s = []) then s else set_text (acc_text s ++ concat (text_chunks s)) [] s in
  (s, acc_text s).

Definition set_out (l : list Out) (ev : bool) (s : ReqState) : ReqState :=
  mkState (is_stream s) l (finished s) ev (last_output_offset s) (acc_text s) (text_chunks s) (acc_ids s).

(** * A message arrives *)

(** [column[i]], if there is a column. *)
Definition column {A} (l : list A) (i : nat) : result (option A) :=
  if bool_decide (length l = 0%nat) then Ok None else do! x <- py_get l (Z.of_nat i); Ok (Some x).

Definition put (k : string) (x : option H) (d : odict string H) : odict string H := match x with Some v => od_set k v d | None => d end.

(** The entries of [meta_info] that come from the optional columns. *)
Definition meta_columns (c : Columns) (i : nat) : result (odict string H) :=
  do! d <- column (c_cached_tokens_details c) i;
  do! h <- column (c_output_hidden_states c) i;
  do! e <- column (c_routed_experts c) i;
  do! x <- column (c_indexer_topk c) i;
  let meta := put "indexer_topk" (mjoin x) (put "routed_experts" (mjoin e) (put "hidden_states" h (put "cached_tokens_details" d []))) in
  do! meta <- foldM (fun meta kv => do! v <- py_get kv.2 (Z.of_nat i); Ok (od_set kv.1 v meta)) (c_customized_info c) meta;
  do! r <- column (c_dp_ranks c) i;
  Ok (put "dp_rank" r meta).

Section server.

(** [incremental_streaming_output], [batch_notify_size]; whether an abort carries one of the
    status codes that a client without streaming gets as an exception. *)
Context (incremental_streaming_output : bool) (batch_notify_size : nat) (abort_raises : bool).

(** One row for a request that is registered: the new state and whether it has something to hand over. *)
Definition deliver (row : Row L) (delta_text : text) (meta : odict string H) (s : ReqState) : ReqState * option Out :=
  let fin := match w_finished_reason row with Some _ => true | None => false end in
  let incremental := incremental_streaming_output && is_stream s in
  let s := append_text delta_text s in
  let ids := acc_ids s ++ w_output_ids row in
  let s := mkState (is_stream s) (out_list s) fin (event s) (if incremental then length ids else last_output_offset s) (acc_text s) (text_chunks s) ids in
  if is_stream s then
    if incremental then (s, Some (mkOut (Some delta_text) (Some (w_output_ids row)) (w_finished_reason row) meta))
    else if fin then let '(s, t) := get_text s in (s, Some (mkOut (Some t) (Some ids) (w_finished_reason row) meta))
    else (s, Some (mkOut None None (w_finished_reason row) meta))
  else if fin then let '(s, t) := get_text s in (s, Some (mkOut (Some t) (Some ids) (w_finished_reason row) meta))
  else (s, None).

Record Manager := mkManager {
  states : gmap string ReqState;
  (** the keys of [rid_to_state] *)
  registered : gset string;
  clients : gmap string Client;
  (** the rows of the message under way that are still to come, with their positions *)
  under_way : option (list (nat * (Row L * text)) * Columns);
}.

(** [s.event.set()] for every state in [pending_notify]. *)
Definition notify (pending : gset string) (m : gmap string ReqState) : gmap string ReqState :=
  map_imap (fun k s => Some (if decide (k ∈ pending) then set_out (out_list s) true s else s)) m.

(** The loop of [_handle_batch_output] up to the next [await]; with no row left, the message is done. *)
Fixpoint segment (rest : list (nat * (Row L * text))) (columns : Columns) (pending : gset string) (m : gmap string ReqState) (reg : gset string)
  : result (gmap string ReqState * gset string * option (list (nat * (Row L * text)))) :=
  match rest with
  | [] => Ok (notify pending m, reg, None)
  | (i, (row, delta)) :: rest =>
      match (if decide (w_rid row ∈ reg) then m !! w_rid row else None) with
      | None => segment rest columns pending m reg
      | Some s =>
          do! meta <- meta_columns columns i;
          let '(s, out) := deliver row delta meta s in
          let reg := if finished s then reg ∖ {[w_rid row]} else reg in
          match out with
          | None => segment rest columns pending (<[w_rid row := s]> m) reg
          | Some o =>
              let m := <[w_rid row := set_out (out_list s ++ [o]) (event s) s]> m in
              let pending := {[w_rid row]} ∪ pending in
              if (batch_notify_size <=? size pending)%nat then Ok (notify pending m, reg, Some rest) else segment rest columns pending m reg
          end
      end
  end.

(** * The client *)

(** [_coalesce_streaming_chunks]. *)
Definition _coalesce_streaming_chunks (l : list Out) (last : Out) : Out :=
  mkOut (Some (concat ((fun o => default [] (o_text o)) <$> l))) (Some (concat ((fun o => default [] (o_ids o)) <$> l))) (o_reason last) (o_meta last).

(** One turn of [_wait_one_response] after the event: the state, what is yielded, and how the generator goes on. *)
Definition wait_one (s : ReqState) : result (ReqState * option Yield * Progress) :=
  let outs := out_list s in
  let s := set_out [] false s in
  let incremental_stream := is_stream s && incremental_streaming_output in
  do! lst <- py_get outs (-1);
  let out := if incremental_stream && (1 <? length outs)%nat then _coalesce_streaming_chunks outs lst else lst in
  let '(s, t) :=
    match o_text out with
    | Some t => (s, t)
    | None => if is_stream s && negb incremental_stream then get_text s else (s, [])
    end in
  let y := mkYield t (default (acc_ids s) (o_ids out)) (o_reason out) in
  if finished s then
    match o_reason out with
    | Some FINISH_ABORT => if abort_raises && negb (is_stream s) then Ok (s, None, Failed) else Ok (s, Some y, Ended)
    | _ => Ok (s, Some y, Ended)
    end
  else if is_stream s then Ok (s, Some y, Running) else Ok (s, None, Running).

(** * The event loop *)

Definition idle (m : Manager) : Prop := under_way m = None.

Inductive tm_step : Manager → option Message → Manager → Prop :=
  | tm_receive m msg : idle m →
      tm_step m (Some msg) (mkManager (states m) (registered m) (clients m) (Some (imap pair (m_items msg), m_columns msg)))
  | tm_segment m rest columns sts reg rest' :
      under_way m = Some (rest, columns) → segment rest columns ∅ (states m) (registered m) = Ok (sts, reg, rest') →
      tm_step m None (mkManager sts reg (clients m) ((fun l => (l, columns)) <$> rest'))
  | tm_wait m k s c s' y p :
      states m !! k = Some s → clients m !! k = Some c → event s = true → progress c = Running → wait_one s = Ok (s', y, p) →
      tm_step m None (mkManager (<[k := s']> (states m)) (registered m) (<[k := mkClient p (yields c ++ option_list y)]> (clients m)) (under_way m)).

(** The manager with its requests registered and their clients waiting. *)
Definition new_state (stream : bool) : ReqState := mkState stream [] false false 0 [] [] [].
Definition new_manager (reqs : gmap string bool) : Manager :=
  mkManager (new_state <$> reqs) (dom reqs) ((fun _ => mkClient Running []) <$> reqs) None.

(** Everything the manager and the clients can do, with the messages received. *)
Inductive tm_run (reqs : gmap string bool) : list Message → Manager → Prop :=
  | tm_start : tm_run reqs [] (new_manager reqs)
  | tm_next msgs m o m' : tm_run reqs msgs m → tm_step m o m' → tm_run reqs (msgs ++ option_list o) m'.

End server.
End manager.
Arguments Out : clear implicits.
Arguments Columns : clear implicits.
Arguments ReqState : clear implicits.
Arguments Message : clear implicits.
Arguments Manager : clear implicits.

(** * What the clients are given *)

Section delivery.
Context {L H : Type} (incremental_streaming_output : bool) (batch_notify_size : nat) (abort_raises : bool).

Notation deliver := (deliver (L := L) (H := H) incremental_streaming_output).
Notation wait_one := (wait_one (H := H) incremental_streaming_output abort_raises).
Notation segment := (segment (L := L) (H := H) incremental_streaming_output batch_notify_size).

Definition closes (x : Row L * text) : bool := match w_finished_reason x.1 with Some _ => true | None => false end.

(** The items of a request up to the one that finishes it. *)
Fixpoint upto (l : list (Row L * text)) : list (Row L * text) :=
  match l with [] => [] | x :: l => x :: if closes x then [] else upto l end.

Definition own_items (k : string) (l : list (Row L * text)) : list (Row L * text) := upto (filter (fun x => w_rid x.1 = k) l).

Definition items_text (l : list (Row L * text)) : text := concat l.*2.
Definition items_ids (l : list (Row L * text)) : list Z := concat ((fun x => w_output_ids x.1) <$> l).

Lemma existsb_app_cons (l : list (Row L * text)) x : existsb closes (l ++ [x]) = existsb closes l || closes x.
Proof. rewrite existsb_app. cbn. by rewrite orb_false_r. Qed.

Lemma upto_snoc l x : upto (l ++ [x]) = if existsb closes (upto l) then upto l else upto l ++ [x].
Proof.
  induction l as [|y l IH]; [cbn; by destruct (closes x)|]. cbn [app upto existsb]. destruct (closes y); cbn [existsb orb]; [done|]. rewrite IH.
  by destruct (existsb closes (upto l)).
Qed.

Lemma own_items_snoc k l x :
  own_items k (l ++ [x]) = if decide (w_rid x.1 = k) then if existsb closes (own_items k l) then own_items k l else own_items k l ++ [x] else own_items k l.
Proof.
  unfold own_items. rewrite filter_app, filter_cons, filter_nil. destruct (decide (w_rid x.1 = k)); [apply upto_snoc|by rewrite app_nil_r].
Qed.

Lemma items_text_snoc l x : items_text (l ++ [x]) = items_text l ++ x.2.
Proof. unfold items_text. rewrite fmap_app, concat_app. cbn. by rewrite app_nil_r. Qed.

Lemma items_ids_snoc l x : items_ids (l ++ [x]) = items_ids l ++ w_output_ids x.1.
Proof. unfold items_ids. rewrite fmap_app, concat_app. cbn. by rewrite app_nil_r. Qed.

Definition is_full {A B} (t : A) (ids : B) (t' : A) (ids' : B) : Prop := t' = t ∧ ids' = ids.

(** What the client has and what waits for it, for a request that the items [l] came for. *)
Record handed (incremental : bool) (l : list (Row L * text)) (s : ReqState H) (c : Client) : Prop := {
  ha_delta : incremental = true →
    concat (y_text <$> yields c) ++ concat ((fun o => default [] (o_text o)) <$> out_list s) = items_text l ∧
    concat (y_ids <$> yields c) ++ concat ((fun o => default [] (o_ids o)) <$> out_list s) = items_ids l ∧
    Forall (fun o => is_Some (o_text o) ∧ is_Some (o_ids o)) (out_list s);
  ha_last : incremental = false → existsb closes l = true → out_list s ≠ [] →
    ∃ o, last (out_list s) = Some o ∧ o_text o = Some (items_text l) ∧ o_ids o = Some (items_ids l);
  ha_open : incremental = false → existsb closes l = false → Forall (fun o => o_text o = None ∧ o_ids o = None) (out_list s) ∧ (is_stream s = false → out_list s = []);
  ha_seen : incremental = false → Forall (fun y => y_text y `prefix_of` items_text l ∧ y_ids y `prefix_of` items_ids l) (yields c);
  ha_final : incremental = false → progress c = Ended → ∃ y, last (yields c) = Some y ∧ y_text y = items_text l ∧ y_ids y = items_ids l;
}.

(** The state of a request; [pending] are the states whose events are still to be set. *)
Record served_by (k : string) (pending : gset string) (l : list (Row L * text)) (s : ReqState H) (c : Client) : Prop := {
  se_text : acc_text s ++ concat (text_chunks s) = items_text l;
  se_ids : acc_ids s = items_ids l;
  se_finished : finished s = existsb closes l;
  se_event : (event s = true ∨ k ∈ pending) ↔ out_list s ≠ [];
  se_progress : match progress c with Running => finished s = true → out_list s ≠ [] | _ => finished s = true ∧ out_list s = [] end;
  se_handed : handed (incremental_streaming_output && is_stream s) l s c;
}.

Lemma append_text_spec t (s : ReqState H) :
  acc_text (append_text t s) ++ concat (text_chunks (append_text t s)) = (acc_text s ++ concat (text_chunks s)) ++ t ∧
  is_stream (append_text t s) = is_stream s ∧ out_list (append_text t s) = out_list s ∧ event (append_text t s) = event s ∧ acc_ids (append_text t s) = acc_ids s.
Proof.
  unfold append_text. case_bool_decide as Ht; [subst; by rewrite app_nil_r|]. cbn. rewrite concat_app. cbn. by rewrite app_nil_r, app_assoc.
Qed.

Lemma get_text_spec (s : ReqState H) :
  let '(s', t) := get_text s in
  t = acc_text s ++ concat (text_chunks s) ∧ acc_text s' ++ concat (text_chunks s') = t ∧ is_stream s' = is_stream s ∧ out_list s' = out_list s ∧
  event s' = event s ∧ acc_ids s' = acc_ids s ∧ finished s' = finished s.
Proof. unfold get_text. case_bool_decide as Ht; cbn; rewrite ?Ht; cbn; by rewrite ?app_nil_r. Qed.

Lemma deliver_spec row delta h s :
  let '(s', out) := deliver row delta h s in
  acc_text s' ++ concat (text_chunks s') = (acc_text s ++ concat (text_chunks s)) ++ delta ∧ acc_ids s' = acc_ids s ++ w_output_ids row ∧
  finished s' = closes (row, delta) ∧ is_stream s' = is_stream s ∧ out_list s' = out_list s ∧ event s' = event s ∧
  ((λ o, (o_text o, o_ids o)) <$> out) =
    if incremental_streaming_output && is_stream s then Some (Some delta, Some (w_output_ids row))
    else if closes (row, delta) then Some (Some ((acc_text s ++ concat (text_chunks s)) ++ delta), Some (acc_ids s ++ w_output_ids row))
    else if is_stream s then Some (None, None) else None.
Proof.
  unfold TokenizerManager.deliver, closes. cbn [fst]. destruct (append_text_spec delta s) as (Ht & Hst & Ho & He & Hi).
  set (s1 := append_text delta s) in *. cbv zeta. cbn [is_stream]. rewrite Hst, Hi, Ho, He.
  set (s2 := mkState (is_stream s) (out_list s) _ (event s) _ (acc_text s1) (text_chunks s1) (acc_ids s ++ w_output_ids row)).
  assert (Ht2 : acc_text s2 ++ concat (text_chunks s2) = (acc_text s ++ concat (text_chunks s)) ++ delta) by (unfold s2; cbn; exact Ht).
  pose proof (get_text_spec s2) as G. destruct (get_text s2) as [s3 t]. destruct G as (-> & G1 & G2 & G3 & G4 & G5 & G6). rewrite Ht2 in *.
  destruct (is_stream s) eqn:Es.
  - rewrite andb_true_r in *. destruct incremental_streaming_output; [cbn; by split_and!|]. destruct (w_finished_reason row); cbn; by split_and!.
  - rewrite andb_false_r. destruct (w_finished_reason row); cbn; by split_and!.
Qed.

Lemma deliver_served k pending l s c row delta h :
  served_by k pending l s c → existsb closes l = false →
  let '(s', out) := deliver row delta h s in
  let l' := l ++ [(row, delta)] in
  finished s' = existsb closes l' ∧ is_stream s' = is_stream s ∧
  match out with
  | None => served_by k pending l' s' c
  | Some o => served_by k ({[k]} ∪ pending) l' (set_out (out_list s' ++ [o]) (event s') s') c
  end.
Proof.
  intros [H1 H2 H3 H4 H5 [D1 D2 D3 D4 D5]] Hopen. pose proof (deliver_spec row delta h s) as Hd. destruct (deliver row delta h s) as [s' out].
  destruct Hd as (E1 & E2 & E3 & E4 & E5 & E6 & Eo). rewrite H1 in *. rewrite H2 in *. rewrite Hopen in *. cbv zeta.
  assert (Hf : finished s' = existsb closes (l ++ [(row, delta)])) by (by rewrite existsb_app_cons, Hopen).
  assert (Hrun : progress c = Running) by (destruct (progress c); [done|destruct H5; congruence..]). rewrite Hrun in *.
  assert (Hseen : incremental_streaming_output && is_stream s = false →
    Forall (fun y => y_text y `prefix_of` items_text (l ++ [(row, delta)]) ∧ y_ids y `prefix_of` items_ids (l ++ [(row, delta)])) (yields c)).
  { intros Hi. eapply Forall_impl; [exact (D4 Hi)|]. intros y [Hy1 Hy2]. rewrite items_text_snoc, items_ids_snoc. split; by apply prefix_app_r. }
  split; [done|]. split; [done|]. destruct out as [[ot oi ore oh]|]; cbn in Eo.
  - split; cbn [set_out acc_text text_chunks acc_ids finished event out_list is_stream]; rewrite ?Hrun, ?E4, ?E5, ?E6.
    + by rewrite items_text_snoc.
    + by rewrite items_ids_snoc.
    + done.
    + split; [by destruct (out_list s)|]. intros _. right. set_solver.
    + intros _. by destruct (out_list s).
    + split; cbn [set_out acc_text text_chunks acc_ids finished event out_list is_stream]; rewrite ?E4, ?E5.
      * intros Hi. rewrite Hi in Eo. injection Eo as -> ->. destruct (D1 Hi) as (Da & Db & Dc). rewrite !fmap_app, !concat_app, !app_assoc, Da, Db. cbn.
        rewrite !app_nil_r. rewrite items_text_snoc, items_ids_snoc. split_and!; [done|done|]. apply Forall_app. split; [done|]. repeat constructor; by eexists.
      * intros Hi Hc _. rewrite existsb_app_cons, Hopen in Hc. cbn [orb] in Hc. rewrite Hi, Hc in Eo. injection Eo as -> ->.
        rewrite last_snoc, items_text_snoc, items_ids_snoc. by eexists.
      * intros Hi Hc. rewrite existsb_app_cons, Hopen in Hc. cbn [orb] in Hc. rewrite Hi, Hc in Eo. destruct (is_stream s); [|done]. injection Eo as -> ->.
        destruct (D3 Hi eq_refl) as [Da _]. split; [|done]. apply Forall_app. split; [done|]. by repeat constructor.
      * done.
      * intros _ ?. congruence.
  - destruct (incremental_streaming_output && is_stream s) eqn:Hi; [done|]. destruct (closes (row, delta)) eqn:Hc; [done|]. destruct (is_stream s) eqn:Es; [done|].
    destruct (D3 eq_refl eq_refl) as [Da Db]. split; rewrite ?Hrun, ?E4, ?E5, ?E6.
    + by rewrite items_text_snoc.
    + by rewrite items_ids_snoc.
    + done.
    + done.
    + rewrite Hf, existsb_app_cons, Hopen, Hc. done.
    + rewrite andb_false_r. split; rewrite ?E4, ?E5; try done.
      * intros _ He. rewrite existsb_app_cons, Hopen, Hc in He. done.
      * intros _ ?. congruence.
Qed.

(** In incremental mode the waiting pieces are handed over together. *)
Lemma coalesced (outs : list (Out H)) lst :
  last outs = Some lst → Forall (fun o => is_Some (o_text o) ∧ is_Some (o_ids o)) outs →
  let out := if (1 <? length outs)%nat then _coalesce_streaming_chunks outs lst else lst in
  o_text out = Some (concat ((fun o => default [] (o_text o)) <$> outs)) ∧ o_ids out = Some (concat ((fun o => default [] (o_ids o)) <$> outs)).
Proof.
  intros Hl Hall. destruct (Nat.ltb_spec 1 (length outs)) as [|Hlen]; [done|].
  destruct outs as [|o [|]]; [done| |cbn in Hlen; lia]. injection Hl as <-. apply Forall_singleton in Hall as [[t Ht] [i Hi]]. cbn. rewrite Ht, Hi. cbn. by rewrite !app_nil_r.
Qed.

(** What one turn of the client hands over. *)
Lemma wait_spec s lst :
  last (out_list s) = Some lst →
  let inc := incremental_streaming_output && is_stream s in
  (inc = true → Forall (fun o => is_Some (o_text o) ∧ is_Some (o_ids o)) (out_list s)) →
  (inc = false → (o_text lst = None ∧ o_ids lst = None ∧ is_stream s = true) ∨ (is_Some (o_text lst) ∧ is_Some (o_ids lst))) →
  ∃ s' y p, wait_one s = Ok (s', (if bool_decide (p = Failed) || (negb (finished s) && negb (is_stream s)) then None else Some y), p) ∧
    (if finished s then p ≠ Running else p = Running) ∧
    (p = Failed → is_stream s = false) ∧
    acc_text s' ++ concat (text_chunks s') = acc_text s ++ concat (text_chunks s) ∧ acc_ids s' = acc_ids s ∧ is_stream s' = is_stream s ∧
    finished s' = finished s ∧ event s' = false ∧ out_list s' = [] ∧
    (if inc then y_text y = concat ((fun o => default [] (o_text o)) <$> out_list s) ∧ y_ids y = concat ((fun o => default [] (o_ids o)) <$> out_list s)
     else y_text y = default (acc_text s ++ concat (text_chunks s)) (o_text lst) ∧ y_ids y = default (acc_ids s) (o_ids lst)).
Proof.
  intros Hl inc Hinc Hone. unfold TokenizerManager.wait_one. rewrite (py_get_last _ _ Hl). cbn [mbind result_bind set_out is_stream]. rewrite (andb_comm (is_stream s)).
  change (incremental_streaming_output && is_stream s) with inc. destruct inc eqn:Ei.
  - cbn [andb]. destruct (coalesced _ _ Hl (Hinc eq_refl)) as [-> ->]. assert (Hst : is_stream s = true) by (by apply andb_prop in Ei as [_ ?]).
    rewrite Hst. cbn [finished set_out is_stream]. set (y := mkYield _ _ _). rewrite Hst.
    exists (set_out [] false s), y. destruct (finished s) eqn:Ef; cbn [negb andb orb]; [exists Ended|exists Running].
    + rewrite andb_false_r. split; [by destruct (o_reason _) as [[]|]|]. split_and!; try done; cbn; congruence.
    + split_and!; try done; cbn; congruence.
  - cbn [andb]. pose proof (get_text_spec (set_out [] false s)) as G. destruct (Hone eq_refl) as [(Ht & Hi & Hst)|[[t Ht] [i Hi]]]; rewrite Ht, Hi.
    + rewrite Hst. cbn [andb negb]. destruct (get_text (set_out [] false s)) as [s' t]. destruct G as (Gt & G1 & G2 & G3 & G4 & G5 & G6). cbn in G2, G3, G4, G5, G6, Gt.
      rewrite G6, G2, Hst. cbn [negb]. rewrite andb_false_r. set (y := mkYield _ _ _). exists s', y. destruct (finished s) eqn:Ef; [exists Ended|exists Running].
      * split; [by destruct (o_reason lst) as [[]|]|]. subst y. cbn. rewrite G1, Gt, G5, G2, Hst. split_and!; try done; cbn; congruence.
      * subst y. cbn. rewrite G1, Gt, G5, G2, Hst. split_and!; try done; cbn; congruence.
    + cbn [finished set_out is_stream default]. set (y := mkYield _ _ _). exists (set_out [] false s), y. destruct (finished s) eqn:Ef; cbn [negb andb].
      * assert (Hcase : (∃ b, match o_reason lst with
          | Some FINISH_ABORT => if abort_raises && negb (is_stream s) then Ok (set_out [] false s, None, Failed) else Ok (set_out [] false s, Some y, Ended)
          | _ => Ok (set_out [] false s, Some y, Ended) end = (if b : bool then Ok (set_out [] false s, None, Failed) else Ok (set_out [] false s, Some y, Ended)) ∧
          (b = true → is_stream s = false))).
        { destruct (o_reason lst) as [[]|]; try (by exists false). exists (abort_raises && negb (is_stream s)). split; [done|]. by intros [_ ?%negb_true_iff]%andb_prop. }
        destruct Hcase as ([|] & -> & Hb); [exists Failed|exists Ended]; split_and!; try done; cbn; first [congruence|by auto].
      * exists Running. destruct (is_stream s) eqn:Es; split_and!; try done; cbn; congruence.
Qed.

(** A client that is woken up takes everything that waits for it. *)
Lemma wait_served k l s c :
  served_by k ∅ l s c → event s = true → progress c = Running →
  ∃ s' y p, wait_one s = Ok (s', y, p) ∧ served_by k ∅ l s' (mkClient p (yields c ++ option_list y)) ∧ is_stream s' = is_stream s ∧ finished s' = finished s.
Proof.
  intros [H1 H2 H3 H4 H5 [D1 D2 D3 D4 D5]] Hev Hrun. assert (Hne : out_list s ≠ []) by (apply H4; by left).
  destruct (last (out_list s)) as [lst|] eqn:Hl; [|by apply last_None in Hl].
  assert (Hfull : incremental_streaming_output && is_stream s = false →
    default (items_text l) (o_text lst) = items_text l ∧ default (items_ids l) (o_ids lst) = items_ids l ∧
    ((o_text lst = None ∧ o_ids lst = None ∧ is_stream s = true) ∨ (is_Some (o_text lst) ∧ is_Some (o_ids lst)))).
  { intros Hi. destruct (existsb closes l) eqn:Hc.
    - destruct (D2 Hi eq_refl Hne) as (o & Ho & Ht & Hids). injection Ho as <-. rewrite Ht, Hids. split_and!; try done. right. split; by eexists.
    - destruct (D3 Hi eq_refl) as [Hall Hst]. destruct (is_stream s) eqn:Es; [|by rewrite Hst in Hne].
      rewrite Forall_forall in Hall. destruct (Hall lst (last_Some_elem_of _ _ Hl)) as [-> ->]. split_and!; try done. by left. }
  destruct (wait_spec s lst Hl) as (s' & y & p & E & Hp & Hfail & E1 & E2 & E3 & E4 & E5 & E6 & Hy).
  { intros Hi. by destruct (D1 Hi) as (_ & _ & ?). }
  { intros Hi. by apply Hfull. }
  rewrite E. eexists _, _, _. split; [done|]. split; [|done]. rewrite H1, H2 in *.
  split; cbn [progress]; rewrite ?E1, ?E2, ?E4, ?E5, ?E6; try done.
  - split; [|done]. intros [?|?%elem_of_empty]; done.
  - destruct (finished s); destruct p; done.
  - rewrite E3. split; cbn [yields progress]; rewrite ?E6; try done.
    + intros Hi. rewrite Hi in Hy. destruct (D1 Hi) as (Da & Db & _). destruct Hy as [Hy1 Hy2].
      assert (Hst : is_stream s = true) by (by apply andb_prop in Hi as [_ ?]). rewrite Hst, andb_false_r, orb_false_r.
      rewrite bool_decide_eq_false_2 by (intros ?; rewrite Hfail in Hst; done). rewrite !fmap_app, !concat_app. cbn. rewrite !app_nil_r, Hy1, Hy2. done.
    + intros Hi. rewrite Hi in Hy. destruct (Hfull Hi) as (Hf1 & Hf2 & _). destruct Hy as [Hy1 Hy2]. apply Forall_app. split; [by apply D4|].
      destruct (_ || _); [constructor|]. constructor; [|done]. rewrite Hy1, Hy2, Hf1, Hf2. done.
    + intros Hi ->. rewrite Hi in Hy. destruct (Hfull Hi) as (Hf1 & Hf2 & _). destruct Hy as [Hy1 Hy2]. destruct (finished s); [|done].
      rewrite bool_decide_eq_false_2 by done. cbn. rewrite last_snoc. exists y. rewrite Hy1, Hy2, Hf1, Hf2. done.
Qed.

(** * The whole manager *)

(** The items [dn] have been taken; every request is served by them. *)
Record tm_ok (reqs : gmap string bool) (pending : gset string) (dn : list (Row L * text)) (sts : gmap string (ReqState H)) (reg : gset string) (cls : gmap string Client) : Prop := {
  tm_known : ∀ k b, reqs !! k = Some b → ∃ s c, sts !! k = Some s ∧ cls !! k = Some c ∧ is_stream s = b ∧
    served_by k pending (own_items k dn) s c ∧ (k ∈ reg ↔ finished s = false);
  tm_others : ∀ k, reqs !! k = None → k ∉ reg;
}.

Lemma notify_served k pending l s c :
  served_by k pending l s c → served_by k ∅ l (if decide (k ∈ pending) then set_out (out_list s) true s else s) c.
Proof.
  intros [H1 H2 H3 H4 H5 H6]. case_decide as Hk.
  - split; cbn; try done. { split; [intros _; apply H4; by right|by left]. } destruct H6 as [D1 D2 D3 D4 D5]. by split.
  - split; try done. rewrite <-H4. set_solver.
Qed.

Lemma notify_ok reqs pending dn sts reg cls : tm_ok reqs pending dn sts reg cls → tm_ok reqs ∅ dn (notify pending sts) reg cls.
Proof.
  intros [Hk Ho]. split; [|done]. intros k b Hb. destruct (Hk k b Hb) as (s & c & Hs & Hc & Hst & Hsv & Hreg).
  eexists _, c. unfold notify. rewrite map_lookup_imap, Hs. cbn. split; [done|]. split; [done|]. split_and!; [by case_decide|by apply notify_served|by case_decide].
Qed.

(** A row of another request, or of one that is over, changes nothing. *)
Lemma skip_ok reqs pending dn sts reg cls x : tm_ok reqs pending dn sts reg cls → w_rid x.1 ∉ reg → tm_ok reqs pending (dn ++ [x]) sts reg cls.
Proof.
  intros [Hk Ho] Hx. split; [|done]. intros k b Hb. destruct (Hk k b Hb) as (s & c & Hs & Hc & Hst & Hsv & Hreg). exists s, c. split_and!; try done; try apply Hreg.
  rewrite own_items_snoc. case_decide as E; [|done]. subst k. rewrite <-(se_finished _ _ _ _ _ Hsv). destruct (finished s); [done|]. exfalso. by apply Hx, Hreg.
Qed.

Lemma served_more k j pending l s c : k ≠ j → served_by k pending l s c → served_by k ({[j]} ∪ pending) l s c.
Proof. intros Hne [H1 H2 H3 H4 H5 H6]. split; try done. rewrite <-H4. set_solver. Qed.

(** One row of a registered request. *)
Lemma take_ok reqs pending dn sts reg cls row delta h s :
  tm_ok reqs pending dn sts reg cls → w_rid row ∈ reg → sts !! w_rid row = Some s →
  let '(s', out) := deliver row delta h s in
  let reg' := if finished s' then reg ∖ {[w_rid row]} else reg in
  match out with
  | None => tm_ok reqs pending (dn ++ [(row, delta)]) (<[w_rid row := s']> sts) reg' cls
  | Some o => tm_ok reqs ({[w_rid row]} ∪ pending) (dn ++ [(row, delta)]) (<[w_rid row := set_out (out_list s' ++ [o]) (event s') s']> sts) reg' cls
  end.
Proof.
  intros [Hk Ho] Hreg Hs. destruct (reqs !! w_rid row) as [b|] eqn:Hb; [|by apply Ho in Hb].
  destruct (Hk _ _ Hb) as (s0 & c & Hs0 & Hc & Hst & Hsv & Hr). rewrite Hs in Hs0. injection Hs0 as <-.
  assert (Hopen : existsb closes (own_items (w_rid row) dn) = false) by (rewrite <-(se_finished _ _ _ _ _ Hsv); by apply Hr).
  pose proof (deliver_served _ _ _ _ _ row delta h Hsv Hopen) as D. destruct (deliver row delta h s) as [s' out]. destruct D as (Df & Dst & D). cbv zeta.
  assert (Hreg' : ∀ k, k ≠ w_rid row → k ∈ (if finished s' then reg ∖ {[w_rid row]} else reg) ↔ k ∈ reg) by (intros k Hne; destruct (finished s'); set_solver).
  assert (Hown : w_rid row ∈ (if finished s' then reg ∖ {[w_rid row]} else reg) ↔ finished s' = false) by (destruct (finished s'); set_solver).
  assert (Hoth : ∀ k, reqs !! k = None → k ∉ (if finished s' then reg ∖ {[w_rid row]} else reg)) by (intros k Hn; specialize (Ho k Hn); destruct (finished s'); set_solver).
  destruct out as [o|]; (split; [|done]); intros k b' Hb'; (destruct (decide (k = w_rid row)) as [->|Hne]; [rewrite lookup_insert_eq; exists (set_out (out_list s' ++ [o]) (event s') s'), c || exists s', c|]).
  all: rewrite ?own_items_snoc; cbn [fst]; rewrite ?decide_True, ?Hopen by done; try (rewrite decide_False by done).
  1, 3: assert (b' = b) as -> by congruence; split_and!; cbn; try done; by rewrite Dst.
  all: destruct (Hk k b' Hb') as (s1 & c1 & ? & ? & ? & ? & ?); exists s1, c1; rewrite lookup_insert_ne, Hreg' by done; split_and!; try done; try tauto.
  by apply served_more.
Qed.

(** Every optional column has an entry for row [i]. *)
Definition covers {V} (c : Columns V) (i : nat) : Prop :=
  let has {A} (l : list A) := l = [] ∨ (i < length l)%nat in
  has (c_cached_tokens_details c) ∧ has (c_output_hidden_states c) ∧ has (c_routed_experts c) ∧ has (c_indexer_topk c) ∧ has (c_dp_ranks c) ∧
  Forall (fun kv => (i < length kv.2)%nat) (c_customized_info c).

Lemma column_ok {A} (l : list A) i : match column l i with Ok _ => True | Raise e => e = IndexError ∧ ¬ (l = [] ∨ (i < length l)%nat) end.
Proof.
  unfold column. case_bool_decide as Hl; [done|]. destruct (l !! i) as [x|] eqn:Hx; [by rewrite (py_get_nat _ _ _ Hx)|].
  destruct (py_get l (Z.of_nat i)) as [|e] eqn:E; cbn [mbind result_bind]; [done|]. split; [by eapply py_get_error|].
  apply lookup_ge_None in Hx. intros [->|?]; [done|lia].
Qed.

Lemma customized_ok {V} (l : odict string (list V)) i : ∀ meta,
  match foldM (fun meta kv => do! v <- py_get kv.2 (Z.of_nat i); Ok (od_set kv.1 v meta)) l meta with
  | Ok _ => True | Raise e => e = IndexError ∧ ¬ Forall (fun kv => (i < length kv.2)%nat) l end.
Proof.
  induction l as [|[k v] l IH]; intros meta; [done|]. cbn [foldM snd fst]. destruct (v !! i) as [x|] eqn:Hx.
  - rewrite (py_get_nat _ _ _ Hx). cbn [mbind result_bind]. specialize (IH (od_set k x meta)). destruct (foldM _ _ _); [done|].
    destruct IH as [-> Hno]. split; [done|]. by intros [_ ?]%Forall_cons.
  - apply lookup_ge_None in Hx. destruct (py_get v (Z.of_nat i)) as [x|e] eqn:E; cbn [mbind result_bind].
    + exfalso. unfold py_get, py_pos in E. do 2 (case_bool_decide; [lia|]). done.
    + split; [by eapply py_get_error|]. intros [Hk _]%Forall_cons. cbn in Hk. lia.
Qed.

(** Reading the optional columns of a row fails only where an entry is missing. *)
Lemma meta_columns_ok {V} (c : Columns V) i : match meta_columns c i with Ok _ => True | Raise e => e = IndexError ∧ ¬ covers c i end.
Proof.
  unfold meta_columns, covers.
  pose proof (column_ok (c_cached_tokens_details c) i). destruct (column (c_cached_tokens_details c) i); cbn [mbind result_bind]; [|naive_solver].
  pose proof (column_ok (c_output_hidden_states c) i). destruct (column (c_output_hidden_states c) i); cbn [mbind result_bind]; [|naive_solver].
  pose proof (column_ok (c_routed_experts c) i). destruct (column (c_routed_experts c) i); cbn [mbind result_bind]; [|naive_solver].
  pose proof (column_ok (c_indexer_topk c) i). destruct (column (c_indexer_topk c) i); cbn [mbind result_bind]; [|naive_solver].
  set (meta := put _ _ _). pose proof (customized_ok (c_customized_info c) i meta). destruct (foldM _ _ meta); cbn [mbind result_bind]; [|naive_solver].
  pose proof (column_ok (c_dp_ranks c) i). destruct (column (c_dp_ranks c) i); cbn [mbind result_bind]; [done|naive_solver].
Qed.

(** A part of a message is handled, or one of its rows has no entry in an optional column. *)
Lemma segment_ok reqs cls columns rest : ∀ pending dn sts reg,
  tm_ok reqs pending dn sts reg cls →
  match segment rest columns pending sts reg with
  | Ok (sts', reg', rest') => ∃ taken, rest = taken ++ default [] rest' ∧ tm_ok reqs ∅ (dn ++ taken.*2) sts' reg' cls
  | Raise e => e = IndexError ∧ ∃ x, x ∈ rest ∧ ¬ covers columns x.1
  end.
Proof.
  induction rest as [|[i [row delta]] rest IH]; intros pending dn sts reg Hok.
  { exists []. cbn. rewrite app_nil_r. split; [done|]. by apply notify_ok. }
  cbn [segment].
  assert (Hgo : ∀ pending sts reg, tm_ok reqs pending (dn ++ [(row, delta)]) sts reg cls →
    match segment rest columns pending sts reg with
    | Ok (sts', reg', rest') => ∃ taken, (i, (row, delta)) :: rest = taken ++ default [] rest' ∧ tm_ok reqs ∅ (dn ++ taken.*2) sts' reg' cls
    | Raise e => e = IndexError ∧ ∃ x, x ∈ (i, (row, delta)) :: rest ∧ ¬ covers columns x.1
    end).
  { intros p1 s1 r1 Hok1. specialize (IH p1 _ s1 r1 Hok1). destruct (segment _ _ _ _ _) as [[[sts' reg'] rest']|e].
    - destruct IH as (taken & -> & Hok'). exists ((i, (row, delta)) :: taken). split; [done|]. cbn. by rewrite <-app_assoc in Hok'.
    - destruct IH as (-> & x & Hx & Hc). split; [done|]. exists x. split; [by right|done]. }
  destruct (if decide (w_rid row ∈ reg) then sts !! w_rid row else None) as [s|] eqn:Hs.
  2: { assert (Hn : w_rid row ∉ reg).
       { case_decide as Hr; [|done]. destruct (reqs !! w_rid row) as [b|] eqn:Hb; [|by apply (tm_others _ _ _ _ _ _ Hok)].
         destruct (tm_known _ _ _ _ _ _ Hok _ _ Hb) as (s & _ & Hs' & _). congruence. }
       apply Hgo. by apply (skip_ok _ _ _ _ _ _ (row, delta)). }
  case_decide as Hr; [|done]. pose proof (meta_columns_ok columns i) as Hm. destruct (meta_columns columns i) as [meta|e]; cbn [mbind result_bind].
  2: { destruct Hm as [-> Hc]. split; [done|]. exists (i, (row, delta)). split; [by left|done]. }
  pose proof (take_ok _ _ _ _ _ _ row delta meta s Hok Hr Hs) as T. destruct (deliver row delta meta s) as [s' [o|]]; cbv zeta in T |- *; [|by apply Hgo].
  destruct (_ <=? _)%nat; [|by apply Hgo]. exists [(i, (row, delta))]. split; [done|]. by apply notify_ok.
Qed.

Lemma own_items_prefix k dn more : own_items k dn `prefix_of` own_items k (dn ++ more).
Proof.
  induction more as [|x more IH] using rev_ind; [by rewrite app_nil_r|]. etransitivity; [exact IH|]. rewrite app_assoc, own_items_snoc.
  destruct (decide _); [|done]. destruct (existsb _ _); [done|]. by eexists.
Qed.

Lemma own_items_closed k dn more : existsb closes (own_items k dn) = true → own_items k (dn ++ more) = own_items k dn.
Proof.
  intros Hc. induction more as [|x more IH] using rev_ind; [by rewrite app_nil_r|]. rewrite app_assoc, own_items_snoc, IH, Hc. by destruct (decide _).
Qed.

Notation tm_run := (tm_run (L := L) (H := H) incremental_streaming_output batch_notify_size abort_raises).

Definition coming (m : Manager L H) : list (Row L * text) := match under_way m with Some (l, _) => l.*2 | None => [] end.

Lemma imap_snd (l : list (Row L * text)) : (imap pair l).*2 = l.
Proof. rewrite fmap_imap. rewrite <-(list_fmap_id l) at 2. by rewrite <-imap_const. Qed.

Lemma tm_run_ok reqs msgs m :
  tm_run reqs msgs m →
  ∃ dn, concat (m_items <$> msgs) = dn ++ coming m ∧ tm_ok reqs ∅ dn (states m) (registered m) (clients m).
Proof.
  induction 1 as [|msgs m o m' _ (dn & Hdn & Hok) Hstep].
  { exists []. split_and!; try done. split; cbn; [|intros k Hk Hin; by apply elem_of_dom in Hin as [? ?]; congruence].
    intros k b Hb. exists (new_state b), (mkClient Running []). rewrite !lookup_fmap, Hb. split_and!; try done.
    - split; try done. split; [by intros [?|?%elem_of_empty]|done].
    - split; [done|]. intros _. by apply elem_of_dom_2 in Hb. }
  rewrite fmap_app, concat_app, Hdn.
  destruct Hstep as [m msg Hidle|m rest columns sts reg rest' Hway E|m k s c s' y p Hs Hc Hev Hrun E].
  - exists dn. unfold coming. rewrite Hidle. cbn. by rewrite !app_nil_r, imap_snd.
  - pose proof (segment_ok reqs (clients m) columns rest ∅ dn (states m) (registered m) Hok) as Hseg. rewrite E in Hseg.
    destruct Hseg as (taken & Hrest & Hok1). exists (dn ++ taken.*2). unfold coming. rewrite Hway.
    cbn [option_list fmap list_fmap concat under_way states registered clients]. split; [|done].
    rewrite app_nil_r, <-app_assoc. f_equal. rewrite Hrest, fmap_app. by destruct rest'.
  - exists dn. unfold coming in *. cbn. rewrite app_nil_r. split_and!; try done. destruct Hok as [Hk Ho]. split; [|done]. intros k' b Hb.
    destruct (Hk k' b Hb) as (s1 & c1 & Hs1 & Hc1 & Hst & Hsv & Hreg). destruct (decide (k' = k)) as [->|Hne].
    + rewrite Hs in Hs1. rewrite Hc in Hc1. injection Hs1 as <-. injection Hc1 as <-.
      destruct (wait_served _ _ _ _ Hsv Hev Hrun) as (s2 & y2 & p2 & E2 & Hsv2 & Hst2 & Hf2). rewrite E in E2. injection E2 as <- <- <-.
      eexists _, _. rewrite !lookup_insert_eq. split_and!; try done; [congruence|..]; rewrite Hf2; apply Hreg.
    + exists s1, c1. rewrite !lookup_insert_ne by done. by split_and!; try apply Hreg.
Qed.

(** What a client has so far: the pieces in incremental mode, otherwise the last answer. *)
Definition client_text (incremental : bool) (c : Client) : text := if incremental then concat (y_text <$> yields c) else default [] (y_text <$> last (yields c)).
Definition client_ids (incremental : bool) (c : Client) : list Z := if incremental then concat (y_ids <$> yields c) else default [] (y_ids <$> last (yields c)).

Lemma handed_prefix inc l s c : handed inc l s c →
  client_text inc c `prefix_of` items_text l ∧ client_ids inc c `prefix_of` items_ids l.
Proof.
  intros [D1 D2 D3 D4 D5]. unfold client_text, client_ids. destruct inc.
  - destruct (D1 eq_refl) as (<- & <- & _). split; by eexists.
  - specialize (D4 eq_refl). destruct (last (yields c)) as [y|] eqn:Hy; cbn; [|split; apply prefix_nil].
    rewrite Forall_forall in D4. by apply D4, last_Some_elem_of.
Qed.

Lemma handed_all inc l s c : handed inc l s c → out_list s = [] → progress c = Ended →
  client_text inc c = items_text l ∧ client_ids inc c = items_ids l.
Proof.
  intros [D1 D2 D3 D4 D5] Ho He. unfold client_text, client_ids. destruct inc.
  - destruct (D1 eq_refl) as (<- & <- & _). rewrite Ho. cbn. by rewrite !app_nil_r.
  - destruct (D5 eq_refl He) as (y & -> & <- & <-). done.
Qed.

Lemma items_prefix l l' : l `prefix_of` l' → items_text l `prefix_of` items_text l' ∧ items_ids l `prefix_of` items_ids l'.
Proof. intros [k ->]. unfold items_text, items_ids. rewrite !fmap_app, !concat_app. split; by eexists. Qed.


End delivery.

(** * From the scheduler to the client *)

Section whole.
Context {L C H V : Type}.

(** The scheduler, the detokenizer and the manager. *)
Context (tokenizer : option (option Z * list Z)) (tail_decode : list Z → text) (re_search : list node → text → bool) (any_of : list Z → Z) (vocab_size : Z).
Context (return_logprob disaggregated_decode : bool) (default_stream_interval default_force_stream_interval : Z).
Context (pattern_text : list node → text) (gpt_oss disable_batch_decode : bool) (capacity : nat).
Context (is_fast : bool) (tokenizer_decode : bool → bool → list Z → text) (plain_decode : list Z → text)
  (batch_decode : bool → bool → list (list Z) → list text) (special_ids : list Z).
Context (incremental_streaming_output : bool) (batch_notify_size : nat) (abort_raises : bool).

Notation life := (life tokenizer tail_decode re_search any_of vocab_size return_logprob disaggregated_decode default_stream_interval default_force_stream_interval).
Notation serving := (serving tokenizer tail_decode re_search any_of vocab_size return_logprob disaggregated_decode default_stream_interval default_force_stream_interval).
Notation handle_all := (handle_all pattern_text gpt_oss disable_batch_decode capacity is_fast tokenizer_decode plain_decode batch_decode special_ids).
Notation decode_req := (decode_req disable_batch_decode is_fast tokenizer_decode plain_decode special_ids).
Notation final_text := (final_text pattern_text gpt_oss disable_batch_decode is_fast tokenizer_decode plain_decode special_ids).

Lemma own_pairs k (ps : list (list (Row L))) outs :
  Forall2 (fun p os => length p = length os) ps outs →
  let l := filter (fun x : Row L * text => w_rid x.1 = k) (concat (zip_with zip ps outs)) in l.*1 = own_rows k ps ∧ l.*2 = own_texts k ps outs.
Proof.
  cbv zeta. unfold own_rows, own_texts. induction 1 as [|p os ps outs Hlen _ [IH1 IH2]]; [done|]. cbn. rewrite !filter_app, !fmap_app, IH1, IH2. split; [|done]. f_equal.
  clear -Hlen. revert os Hlen. induction p as [|w p IH]; intros [|o os] Hlen; [done..|]. cbn [zip_with]. rewrite !filter_cons. cbn [fst].
  injection Hlen as Hlen. case_decide; rewrite ?fmap_cons; cbn [fst]; by rewrite IH.
Qed.

Lemma upto_all (l : list (Row L * text)) : (∀ l1 w l2, l.*1 = l1 ++ w :: l2 → w_finished_reason w ≠ None → l2 = []) → upto l = l.
Proof.
  induction l as [|[w o] l IH]; intros Hl; [done|]. cbn [upto]. f_equal. unfold closes. cbn [fst]. destruct (w_finished_reason w) as [r|] eqn:Hr.
  - specialize (Hl [] w l.*1 eq_refl). rewrite Hr in Hl. symmetry. apply (fmap_nil_inv fst). by apply Hl.
  - apply IH. intros l1 x l2 E. apply (Hl (w :: l1)). cbn. by rewrite E.
Qed.


End whole.

(** * A run *)

Inductive Action := Recv | Seg | Wait (k : string).

Section exec.
Context {L H : Type} (incremental_streaming_output : bool) (batch_notify_size : nat) (abort_raises : bool).

(** Perform one action, if it is enabled; [Recv] takes the next message. *)
Definition exec (a : Action) (x : Manager L H * list (Message L H)) : option (Manager L H * list (Message L H)) :=
  let '(m, todo) := x in
  match a with
  | Recv => match under_way m, todo with
            | None, msg :: todo => Some (mkManager (states m) (registered m) (clients m) (Some (imap pair (m_items msg), m_columns msg)), todo)
            | _, _ => None
            end
  | Seg => match under_way m with
           | Some (rest, columns) =>
               match segment incremental_streaming_output batch_notify_size rest columns ∅ (states m) (registered m) with
               | Ok (sts, reg, rest') => Some (mkManager sts reg (clients m) ((fun l => (l, columns)) <$> rest'), todo)
               | Raise _ => None
               end
           | None => None
           end
  | Wait k => match states m !! k, clients m !! k with
              | Some s, Some c =>
                  if event s && bool_decide (progress c = Running) then
                    match wait_one incremental_streaming_output abort_raises s with
                    | Ok (s', y, p) => Some (mkManager (<[k := s']> (states m)) (registered m) (<[k := mkClient p (yields c ++ option_list y)]> (clients m)) (under_way m), todo)
                    | Raise _ => None
                    end
                  else None
              | _, _ => None
              end
  end.

Definition exec_all (l : list Action) (x : Manager L H * list (Message L H)) : option (Manager L H * list (Message L H)) :=
  fold_left (fun x a => x ≫= exec a) l (Some x).

Notation tm_run := (tm_run (L := L) (H := H) incremental_streaming_output batch_notify_size abort_raises).

Lemma exec_run reqs a m todo m' todo' past :
  tm_run reqs past m → exec a (m, todo) = Some (m', todo') → ∃ now, todo = now ++ todo' ∧ tm_run reqs (past ++ now) m'.
Proof.
  intros Hr. unfold exec. destruct a as [| |k].
  - destruct (under_way m) eqn:Hw; [done|]. destruct todo as [|msg todo]; [done|]. intros [= <- <-]. exists [msg]. split; [done|].
    apply (tm_next _ _ _ _ _ m (Some msg)); [done|]. by apply tm_receive.
  - destruct (under_way m) as [[rest hidden]|] eqn:Hw; [|done]. destruct (segment _ _ _ _ _ _ _) as [[[sts reg] rest']|] eqn:E; [|done]. intros [= <- <-].
    exists []. split; [done|]. apply (tm_next _ _ _ _ _ m None); [done|]. by eapply tm_segment.
  - destruct (states m !! k) as [s|] eqn:Hs; [|done]. destruct (clients m !! k) as [c|] eqn:Hc; [|done]. destruct (event s && _) eqn:He; [|done].
    apply andb_prop in He as [He Hp%bool_decide_eq_true]. destruct (wait_one _ _ s) as [[[s' y] p]|] eqn:E; [|done]. intros [= <- <-].
    exists []. split; [done|]. apply (tm_next _ _ _ _ _ m None); [done|]. by eapply tm_wait.
Qed.

Lemma exec_all_run reqs l : ∀ m todo m' todo' past,
  tm_run reqs past m → exec_all l (m, todo) = Some (m', todo') → ∃ now, todo = now ++ todo' ∧ tm_run reqs (past ++ now) m'.
Proof.
  unfold exec_all. induction l as [|a l IH]; intros m todo m' todo' past Hr E; [injection E as <- <-; exists []; by rewrite app_nil_r|].
  cbn [fold_left] in E. destruct (exec a (m, todo)) as [[m1 todo1]|] eqn:E1; cbn [mbind option_bind] in E.
  - change (Some (m, todo) ≫= exec a) with (exec a (m, todo)) in E. rewrite E1 in E.
    destruct (exec_run reqs a m todo m1 todo1 past Hr E1) as (n1 & -> & Hr1). destruct (IH m1 todo1 m' todo' _ Hr1 E) as (n2 & -> & Hr2).
    exists (n1 ++ n2). by rewrite <-!app_assoc in *.
  - exfalso. change (Some (m, todo) ≫= exec a) with (exec a (m, todo)) in E. rewrite E1 in E. clear -E. induction l as [|b l IH]; [done|]. by apply IH.
Qed.

End exec.

(** The client is woken after the second report, waits through the third, and ends after the last. *)
Definition toy_actions : list Action := [Recv; Seg; Recv; Seg; Wait "a"; Recv; Seg; Recv; Seg; Wait "a"].
Definition toy_flags : gmap string bool := {["a" := true]}.
(** The messages of the detokenizer, with a hidden state for every row. *)
Definition answers {L : Type} (ps : list (list (Row L))) (outs : list (list text)) : list (Message L Z) :=
  zip_with (fun p os => mkMessage (zip p os) (mkColumns [] (replicate (length p) 7) [] [] [] [])) ps outs.
Definition toy_answers : list (Message () Z) := answers toy_stream.2 [[[104]]; [[]]; [[0x1F600]]; [[]]].
Definition toy_end : option (Manager () Z * list (Message () Z)) := exec_all true 16 true toy_actions (new_manager toy_flags, toy_answers).

Lemma toy_facts : finished_output (sr_cursor toy_stream.1) = true ∧ rid_of toy_stream.1 = "a" ∧ toy_flags !! "a" = Some true.
Proof. vm_compute. split_and!; reflexivity. Qed.

Lemma toy_final : sr_out toy_stream.1 = [104; 300; 301; 2] ∧
  final_text toy_pattern false false true toy_decode (toy_decode true true) [] toy_stream.1 = [104; 0x1F600].
Proof. vm_compute. split; reflexivity. Qed.

Lemma toy_progress : (fun x => (progress <$> (clients x.1 !! "a"), length x.2)) <$> toy_end = Some (Some Ended, 0%nat).
Proof. vm_compute. reflexivity. Qed.

Lemma toy_ends : ∃ m, toy_end = Some (m, []) ∧ tm_run true 16 true toy_flags toy_answers m ∧ progress <$> (clients m !! "a") = Some Ended.
Proof.
  pose proof toy_progress as Hp. unfold toy_end in *. destruct (exec_all _ _ _ _ _) as [[m todo]|] eqn:E; [|discriminate Hp].
  injection Hp as Hp Htodo. apply nil_length_inv in Htodo. subst todo. exists m. split; [reflexivity|]. split; [|exact Hp].
  apply (exec_all_run _ _ _ toy_flags _ _ _ _ _ []) in E as (now & Hnow & Hr); [|apply tm_start]. rewrite app_nil_r in Hnow. rewrite Hnow. exact Hr.
Qed.



(** * Hidden states of a mixed batch *)

Definition with_hidden (k : string) (h : option Z) : StreamReq () () Z :=
  mkStream (mkInfo k [65] [65] toy_stops 8 (normalize None toy_stops) [] true None true true false false 0 0 0 None [] h None)
    (mkFinish [97] None None None) new_cursor.

Definition same_text (w : Row ()) : Row () * text := (w, w_output_ids w).

(** The first request of a batch does not ask for hidden states, the second does: the only
    entry is read for the first, and reading the second raises. *)
Lemma hidden_states_misaligned :
  let seg size acc := segment true size (imap pair (same_text <$> rows acc)) (mkColumns [] (output_hidden_states acc) [] [] [] []) ∅
    (states (L := ()) (H := Z) (new_manager {["a" := true; "b" := true]})) {["a"; "b"]} in
  ∃ reqs acc sts reg rest, _stream_output_generation has_tokenizer (toy_decode true true) false false 1 50 [with_hidden "a" None; with_hidden "b" (Some 7)] None false = Ok (reqs, Some acc) ∧
    length (rows acc) = 2%nat ∧ output_hidden_states acc = [7] ∧ seg 16%nat acc = Raise IndexError ∧
    seg 1%nat acc = Ok (sts, reg, rest) ∧ (fun s => o_meta <$> out_list s) <$> sts !! "a" = Some [[("hidden_states", 7)]].
Proof. cbv zeta. do 5 eexists. split; [vm_compute; reflexivity|]. split_and!; vm_compute; reflexivity. Qed.
